(* ===== verification/_CoqProject ===== *)
-Q . S2P
Prelude.v
Text.v
BTree.v
Pages.v
F64.v
Stream.v
Hll.v
Value.v
Backend.v
Linearizability.v
Contracts.v
Collections.v
Strings.v
Hashes.v
Lists.v
Sets.v
ZSets.v
StreamOps.v
Rdb.v
Keyspace.v
Mutations.v
S3.v
Geo.v
Dynamo.v
Resp.v
Commands.v
CmdStrings.v
CmdKeys.v
CmdCollections.v
CmdZSets.v
CmdStreams.v
CmdServer.v
CmdGeo.v
Bits.v
Lcs.v
Dispatch.v
Frontend.v
Obeys.v
Requests.v
Answers.v
EndToEnd.v
ZRanges.v
Sessions.v
Implementations.v
Listings.v
ZAggregates.v
GeoSearch.v
Metrics.v
Lambda.v
S3Race.v
DynRace.v
DynTtl.v
