(* ===== verification/Prelude.v ===== *)
(** * rustyant: a verification development

    rustyant is a Redis-compatible key/value server that keeps no state of its
    own: every key is one object in S3, or a pair of rows in DynamoDB, and every
    command is a few conditional reads and writes of that store.  This library
    models the whole path of a request, from the bytes an HTTP or WebSocket client
    sends to the calls on the store and back to the bytes of the reply, and proves
    it correct: the front ends, the dispatch and all 183 commands, the storage
    engine with its optimistic-locking loop, the two backends, and the codecs and
    algorithms they call.

    ** The parts and how they interact

    A request arrives as RESP (src/resp.rs) in the body of an HTTP request
    (src/handler.rs) or of a WebSocket message (src/ws.rs), is dispatched by
    src/commands.rs to the handler of its command, and becomes one or more calls
    of the [Storage] trait (src/storage.rs).
    [KVStorage] implements the trait over any [KVBackend], which offers [load],
    [save], [delete] and [list_page]; [S3Storage] (src/storage.rs) and
    [DynamoDbBackend] (src/dynamodb.rs) implement those.  All mutations go
    through [KVStorage::cas]: load the entry with a version token, run a pure
    closure on it, save or delete on condition that the token still matches, and
    retry on contention.

    Effects are modelled as data.  [Backend.prog E R] is a tree of calls from
    the signature [E] ending in an [R]; the code above [KVBackend] uses the
    signature [Backend.kvE] (the four methods, sleeping and the clocks), the
    backends use the calls of their SDK ([S3.s3E], [Dynamo.dynE]).  [Backend.run]
    executes a program against the reference backend, a versioned finite map
    [Backend.world]; [S3.interp] replaces the calls of [kvE] by a backend's own
    programs.  [cas] is therefore one definition, run sequentially
    ([Backend.run]), interleaved call by call with other clients
    ([Linearizability.pool_steps]) and over either real backend
    ([S3.run_s3], [Dynamo.run_dyn]).  A handler is such a program too, from the
    arguments to a reply ([Commands.handler]); one that can panic answers [None]
    ([Commands.partial_handler]).

    ** Files

    Foundations:
    - Prelude      bytes, machine integers, errors ([RustyAntError] of
                   src/error.rs), [Result], ordered keys, slices;
    - Text         the parts of [str] the code uses: integer parsing and
                   printing, UTF-8 validation, ASCII case, [split_once];
    - BTree        [BTreeMap] and [BTreeSet] as strictly sorted association
                   lists, with the invariant [bt_wf];
    - Pages        listing keys page by page, in whatever order;
    - F64          [f64] as IEEE binary64: order, arithmetic, [FromStr], [Display].

    Data:
    - Stream       src/stream.rs: ids, entries, groups, id resolution, trimming;
    - Hll          src/hll.rs: HyperLogLog registers, hash, add, merge, estimate;
    - Value        the data model of src/storage.rs: [StoredValue], bounds, kinds.

    The engine (src/storage.rs):
    - Backend          [KVBackend], [cas], [load], the default walks, and the
                       reference backend;
    - Linearizability  any number of [cas] calls interleaved;
    - Contracts        what a closure promises to its clients, as the classes
                       [WfClosure] and [CollectionOp], and what follows for a
                       command built on it;
    - Collections      index windows, samplers, sorting, cursor pagination;
    - Strings, Hashes, Lists, Sets, ZSets, StreamOps
                       the operations on each kind: for an operation [op],
                       [op_mod] is the closure it passes to [cas] and [op] the
                       whole method; each closure has an instance of its contract;
    - Rdb              src/rdb.rs: DUMP and RESTORE payloads;
    - Keyspace         operations on keys of any kind: RENAME, COPY, EXPIRE,
                       SCAN, DUMP, RESTORE, FLUSHALL ...;
    - Mutations        all single-key mutations as one type, so that theorems
                       speak of any mix of commands.

    Backends and the rest:
    - S3       [S3Storage] over a service described by the class [S3Service];
    - Dynamo   src/dynamodb.rs over a service described by [DynService];
    - Geo      src/geo.rs: geohash cells, scores and distances.

    The commands (src/commands.rs, one [handle_x] for each [handle_x] there):
    - Resp           src/resp.rs: replies, frames, the tokens of a request;
    - Commands       argument helpers, SCAN options, score formats;
    - CmdStrings, CmdKeys, CmdCollections, CmdZSets, CmdStreams, CmdGeo, CmdServer
                     the handlers of each family with their option parsers; CmdServer
                     also has COMMAND's table [COMMAND_META];
    - Bits           SETBIT, GETBIT, BITCOUNT, BITPOS, BITOP and their correctness;
    - Lcs            LCS, its tables, and its correctness;
    - Dispatch       the table of all commands, [run], the error texts, [dispatch];
    - Frontend       src/settings.rs, src/handler.rs, src/ws.rs.

    Requests as a whole:
    - Obeys          a logic for programs: [obeys] bounds the calls a program may
                     make and what it may assume of the answers, with the
                     disciplines [read_only] and [saves_wf] and the lemmas that
                     every storage operation and handler keeps to them;
    - Requests       any request: well-formed stores, readonly flags, arity;
    - Answers        every request gets a reply, and which do not;
    - Implementations  what a backend owes its clients, as the class
                     [Implementation] with S3 and DynamoDB as instances, and
                     whole requests over either;
    - Listings         what a backend owes the commands that walk the keyspace, as
                     the class [Listing], and KEYS, SCAN, RANDOMKEY, DBSIZE, INFO and
                     FLUSHALL over either backend;
    - EndToEnd       from bytes to bytes, over both front ends;
    - Metrics        src/metrics.rs: the log line and the metrics document of a
                     command, and what CloudWatch extracts from it;
    - Lambda         src/state.rs, src/main.rs and src/bin/ws.rs: the state a
                     container builds from its environment, the events of the two
                     functions, and both over the backend the environment names;
    - ZRanges        the forms of ZRANGE against the older commands;
    - ZAggregates    ZINTER, ZUNION, ZDIFF and their STORE forms against the
                     algebra of scored sets;
    - GeoSearch      GEOSEARCH and GEOSEARCHSTORE against their specification;
    - Sessions       concrete conversations that show defects;
    - S3Race, DynRace  CAS calls racing on one S3 bucket, and on the DynamoDB tables,
                     SDK call by SDK call;
    - DynTtl         DynamoDB's own removal of expired rows, row by row.

    ** What the theorems show

    Requests: any traffic of any commands but RESTORE, interleaved call by call,
    keeps the store well-formed ([Requests.server_keeps_wf]); the commands flagged
    readonly change nothing ([Requests.readonly_commands]); the arities COMMAND
    publishes are enforced ([Requests.arity_enforced]); dispatch always answers,
    but for the requests that panic ([Answers.every_request_answered]); what SET
    stores over HTTP, GET reads back ([EndToEnd.http_set_get]); HTTP and WebSocket
    are the same server ([EndToEnd.front_ends_agree]).  Deployed, from any environment they accept, both functions
    serve the backend it names as they would the reference
    ([Lambda.deployed_serves]); each answered command writes one log line and at
    most one metrics document, which say what happened and change nothing
    ([Metrics.dispatch_logged_spec]).

    Concurrency: a CAS call is atomic when alone ([Backend.cas_sequential]),
    linearizable under every interleaving ([Linearizability.cas_linearizable]),
    bounded in calls and in sleep whatever the backend answers
    ([Backend.cas_bounded]); racing INCRBYs lose nothing
    ([Strings.incr_no_lost_update]); any mix of commands keeps every stored value
    well-formed ([Mutations.concurrent_commands]), and each obeys the discipline of
    its kind ([Mutations.mutation_discipline]).

    Refinement: over a service that keeps its documented promises, [cas] on
    S3 and on DynamoDB is the atomic update of the reference backend
    ([S3.s3_cas_refines], [Dynamo.dyn_cas_refines]), and any sequence of requests
    brings the replies of a run there, with whatever the samplers draw
    ([Implementations.runs]), and leaves the same entries
    ([Implementations.s3_serves], [Implementations.dynamo_serves]); the
    commands that walk the keyspace - KEYS, SCAN, RANDOMKEY, DBSIZE, INFO, FLUSHALL -
    see and remove exactly the keys there, up to their order
    ([Listings.s3_walks], [Listings.dynamo_walks]); tokens of
    different writes differ ([Dynamo.version_tokens_distinct]).  On S3 racing CAS
    calls are linearizable on keys without a TTL ([S3Race.s3_cas_linearizable]),
    up to the calls that find the object they read deleted; on DynamoDB their writes
    are, TTLs included, as long as no two saves draw the same version
    ([DynRace.dyn_cas_linearizable]).  Rows that DynamoDB removes by itself fool no
    read ([DynTtl.dyn_load_swept]).

    Function: each algorithm against its specification - windows, pagination,
    LREM, LPOS, LMOVE, ranks, score and rank partitions, ZADD flags, set algebra,
    sampling, HyperLogLog union, stream ids, trimming, consumer groups, TTLs,
    RENAME, SCAN - and, from the arguments of the command to its reply, LCS
    ([Lcs.lcs_spec]), the bit commands ([Bits.bitcount_spec], [Bits.bitpos_spec],
    [Bits.setbit_getbit], [Bits.bitop_spec]) and the forms of ZRANGE
    ([ZRanges.zrange_forms]), and the aggregates of sorted sets
    ([ZAggregates.zset_aggregate_spec], [ZAggregates.zset_store_spec]), and the geo
    searches ([GeoSearch.geosearch_spec], [GeoSearch.geosearchstore_spec]).

    Codecs: RESTORE inverts DUMP ([Rdb.restore_dump]) and rejects corruption
    ([Rdb.restore_rejects_corruption]), listpacks invert, the CRC table computes
    the CRC, the decoder's loops end; geohash scores survive the [f64].

    Where the code does not do what it should, a theorem says what it does:
    [S3.s3_gc_loses_write], [S3Race.s3_pop_twice], [DynRace.dyn_load_misses],
    [DynTtl.dyn_swept_blocks], [Dynamo.dyn_rename_other_kind],
    [Keyspace.restore_busy_on_expired], [Collections.resolve_range_vs_trim],
    [StreamOps.xadd_wraps], [StreamOps.xgroup_destroy_creates_key],
    [Rdb.restore_can_panic], [Requests.restore_empty_list],
    [Metrics.metric_of_any_word] and the examples of Sessions.

    ** Conventions, bounds and fuel

    Integers are [Z] with the Rust width written out: [wrap_i64], [wrap_u64] where
    the code wraps (a release build), [checked_add_i64] and the saturating forms
    where it asks for them, and hypotheses [<= i64_max] for lengths, which no
    [Vec] exceeds.  Strings and byte buffers are lists of bytes.  A panic is
    modelled where one can be reached ([Rdb.RPanic]).

    Loops bounded in the code are structural or run on their own count.  Three
    kinds use fuel: walks over [list_page] (one unit per page; the completeness
    theorems say that ceil(keys / page) units are enough on the reference backend,
    and one more than there are keys over a service, whose pages may be as small as
    it likes), the decoder's loops
    (one unit per byte of input plus one, enough by
    [Rdb.rdb_loops_terminate]), and the decimal search of [F64] (exponents by
    at most five steps, at most 17 digits, which is what [f64] needs).

    ** Parameters

    Code outside src/ is a parameter: [wildmatch]'s matcher behind MATCH
    patterns, [serde_json] at [StoredValue], the S3 and DynamoDB services (classes stating
    their documented conditional-write behaviour, each with an in-memory
    instance), the libm functions [f64::ln], [sin], [cos], [asin] and [atan2],
    the RESP codec of the redis-protocol crate and base64, the environment, whether
    API Gateway takes a post, how long a command took, and
    the order in which a [HashMap] iterates.  The parameters of dispatch are
    gathered in [Dispatch.Env].

    The reference backend assigns versions from a counter, which is what a
    backend must guarantee: a version is never used twice.  S3 promises it of
    ETags only for contents that differ, and DynamoDB versions derive from the
    clock in nanoseconds; the refinement theorems carry what each needs.

    ** Not modelled

    The construction of SDK clients beyond their endpoint, the Lambda runtime and the
    tracing setup (src/lib.rs); how a log line or a JSON document is printed; the
    test support.  [Dispatch.dispatch], which the theorems about requests use, leaves
    out the log and the metrics; [Metrics.dispatch_logged] has them, with the same
    reply and store.  NaN payload
    bits are not represented.  DynamoDB's own removal of expired rows is modelled
    between the operations of one client, not inside the races of DynRace. *)

From stdpp Require Export base numbers list gmap sorting.
From Stdlib Require Export ZArith Lia Strings.Byte.
From Stdlib Require Strings.String.
Export String.StringSyntax.

#[export] Set Default Goal Selector "!".
#[export] Set Warnings "-clear-no-such-hyp".

Declare Scope rust_scope.
Delimit Scope rust_scope with rust.
Open Scope rust_scope.
Open Scope Z_scope.

(** ** Bytes

    A Rust [u8] is a [Byte.byte]; [b2z] is the widening cast [u8 as u64] and
    [z2b] the truncating cast [n as u8].  A [&[u8]], a [Vec<u8>], a [Bytes] and
    a (UTF-8) [String] are all lists of bytes. *)

Abbreviation string := String.string.
Abbreviation byte := Byte.byte.
Abbreviation Str := (list Byte.byte).

Definition b2z (b : byte) : Z := Z.of_N (Byte.to_N b).
Definition z2b (z : Z) : byte :=
  match Byte.of_N (Z.to_N (z mod 256)) with
  | Some b => b
  | None => x00
  end.

(** A Rust string literal. *)
Definition bs (s : string) : Str := String.list_byte_of_string s.
Arguments bs s%_string_scope.

#[export] Instance string_eq_decision : EqDecision string := String.string_dec.
#[export] Instance byte_eq_decision : EqDecision byte := Byte.byte_eq_dec.
#[export] Instance byte_countable : Countable byte :=
  inj_countable Byte.to_N Byte.of_N Byte.of_to_N.

Lemma b2z_range b : 0 <= b2z b < 256.
Proof. unfold b2z. pose proof (Byte.to_N_bounded b). lia. Qed.

Lemma b2z_inj a b : b2z a = b2z b -> a = b.
Proof.
  unfold b2z. intros H. apply N2Z.inj in H.
  pose proof (Byte.of_to_N a). pose proof (Byte.of_to_N b). congruence.
Qed.

Lemma b2z_z2b z : b2z (z2b z) = z mod 256.
Proof.
  unfold z2b, b2z. pose proof (Z.mod_pos_bound z 256 eq_refl).
  destruct (Byte.of_N _) eqn:E.
  - apply Byte.to_of_N in E. lia.
  - apply Byte.of_N_None_iff in E. lia.
Qed.

Lemma z2b_b2z b : z2b (b2z b) = b.
Proof.
  apply b2z_inj. rewrite b2z_z2b. apply Z.mod_small, b2z_range.
Qed.

Lemma b2z_z2b_small z : 0 <= z < 256 -> b2z (z2b z) = z.
Proof. intros. rewrite b2z_z2b. by apply Z.mod_small. Qed.

Lemma z2b_mod z : z2b (z mod 256) = z2b z.
Proof. apply b2z_inj. rewrite !b2z_z2b. apply Z.mod_mod. lia. Qed.

Create Rewrite HintDb bytes.
Create Rewrite HintDb len.
#[export] Hint Rewrite z2b_b2z : bytes.
#[export] Hint Rewrite b2z_z2b_small using (cbn; lia) : bytes.

(** ** Machine integers

    Integers are [Z] at their Rust width: [wrap_*] is the two's-complement
    wrap-around of unchecked arithmetic (the release profile leaves
    [overflow-checks] off), [in_*] the range test behind [try_from] and
    [checked_add]. *)

Definition u64_max : Z := 2 ^ 64 - 1.
Definition i64_max : Z := 2 ^ 63 - 1.
Definition i64_min : Z := - 2 ^ 63.
Definition usize_max : Z := 2 ^ 64 - 1.

Definition wrap_u (w z : Z) : Z := z mod 2 ^ w.
Definition wrap_i (w z : Z) : Z := (z + 2 ^ (w - 1)) mod 2 ^ w - 2 ^ (w - 1).
Definition wrap_u64 : Z -> Z := wrap_u 64.
Definition wrap_i64 : Z -> Z := wrap_i 64.

Definition in_u (w z : Z) : bool := (0 <=? z) && (z <? 2 ^ w).
Definition in_i (w z : Z) : bool := (- 2 ^ (w - 1) <=? z) && (z <? 2 ^ (w - 1)).
Definition in_i64 : Z -> bool := in_i 64.
Definition in_u64 : Z -> bool := in_u 64.

(** [i64::checked_add] and the saturating additions. *)
Definition checked_add_i64 (a b : Z) : option Z :=
  if in_i64 (a + b) then Some (a + b) else None.
Definition saturating_add_u64 (a b : Z) : Z := Z.min u64_max (a + b).
Definition saturating_add_i64 (a b : Z) : Z := Z.max i64_min (Z.min i64_max (a + b)).

(** [Vec::len] as a [Z], and the ubiquitous
    [i64::try_from(v.len()).unwrap_or(i64::MAX)]. *)
Definition len {A} (l : list A) : Z := Z.of_nat (length l).
Definition i64_of_usize (n : Z) : Z := if n <=? i64_max then n else i64_max.
Definition len_i64 {A} (l : list A) : Z := i64_of_usize (len l).

(** [usize::try_from(n).unwrap_or(d)] for a signed [n], as an index. *)
Definition usize_of_i64 (n d : Z) : Z := if 0 <=? n then n else d.

Lemma in_i64_spec z : in_i64 z = true <-> i64_min <= z <= i64_max.
Proof. unfold in_i64, in_i, i64_min, i64_max. cbn. lia. Qed.

Lemma wrap_u_range w z : 0 <= w -> 0 <= wrap_u w z < 2 ^ w.
Proof. intros. apply Z.mod_pos_bound. lia. Qed.

Lemma wrap_u_small w z : 0 <= z < 2 ^ w -> wrap_u w z = z.
Proof. apply Z.mod_small. Qed.

Lemma wrap_i_small w z : 0 < w -> - 2 ^ (w - 1) <= z < 2 ^ (w - 1) -> wrap_i w z = z.
Proof.
  intros Hw Hz. unfold wrap_i.
  assert (2 ^ w = 2 * 2 ^ (w - 1)) by (rewrite <- Z.pow_succ_r by lia; f_equal; lia).
  rewrite Z.mod_small by lia. lia.
Qed.

Lemma wrap_i_wrap_u w z : 0 < w -> wrap_i w (wrap_u w z) = wrap_i w z.
Proof.
  intros Hw. unfold wrap_i, wrap_u.
  by rewrite Zplus_mod_idemp_l.
Qed.

Lemma len_nonneg {A} (l : list A) : 0 <= len l.
Proof. unfold len. lia. Qed.
Lemma len_nil {A} : len (@nil A) = 0.
Proof. done. Qed.
Lemma len_cons {A} (x : A) l : len (x :: l) = len l + 1.
Proof. unfold len. cbn. lia. Qed.
Lemma len_app {A} (l k : list A) : len (l ++ k) = len l + len k.
Proof. unfold len. rewrite length_app. lia. Qed.
#[export] Hint Rewrite @len_nil @len_cons @len_app : len.

(** ** Errors and the result monad (src/error.rs) *)

Inductive RustyAntError :=
| Config (msg : string)
| RespParse (msg : string)
| UnknownCommand (msg : string)
| WrongArity (command : string)
| WrongType (key : Str)
| Parse (msg : string)
| S3 (msg : string)
| Contention
| Io (msg : string)
| Serde (msg : string).

Arguments Config msg%_string_scope.
Arguments RespParse msg%_string_scope.
Arguments UnknownCommand msg%_string_scope.
Arguments WrongArity command%_string_scope.
Arguments Parse msg%_string_scope.
Arguments S3 msg%_string_scope.
Arguments Io msg%_string_scope.
Arguments Serde msg%_string_scope.

#[export] Instance RustyAntError_eq_dec : EqDecision RustyAntError.
Proof. solve_decision. Defined.

Inductive Result (A : Type) : Type :=
| Ok (a : A)
| Err (e : RustyAntError).
Arguments Ok {A} a.
Arguments Err {A} e.

#[export] Instance Result_eq_dec `{EqDecision A} : EqDecision (Result A).
Proof. solve_decision. Defined.

Definition rbind {A B} (r : Result A) (f : A -> Result B) : Result B :=
  match r with
  | Ok a => f a
  | Err e => Err e
  end.
Definition rmap {A B} (f : A -> B) (r : Result A) : Result B :=
  match r with
  | Ok a => Ok (f a)
  | Err e => Err e
  end.
Definition ok_or {A} (o : option A) (e : RustyAntError) : Result A :=
  match o with
  | Some a => Ok a
  | None => Err e
  end.
Definition is_ok {A} (r : Result A) : bool :=
  match r with Ok _ => true | Err _ => false end.

(** Rust's [?] operator. *)
Notation "'let?' x ':=' e 'in' k" := (rbind e (fun x => k))
  (at level 10, x pattern, e at level 100, k at level 200) : rust_scope.

Lemma rbind_ok {A B} (r : Result A) (f : A -> Result B) b :
  rbind r f = Ok b <-> exists a, r = Ok a /\ f a = Ok b.
Proof.
  destruct r; cbn; [|naive_solver].
  split; [eauto|]. intros (? & [= ->] & ?). done.
Qed.

(** ** Little- and big-endian integers ([to_le_bytes], [from_le_bytes], ...) *)

Fixpoint to_le_bytes (n : nat) (z : Z) : list byte :=
  match n with
  | O => []
  | S n' => z2b z :: to_le_bytes n' (z / 256)
  end.
Fixpoint from_le_bytes (l : list byte) : Z :=
  match l with
  | [] => 0
  | b :: l' => b2z b + 256 * from_le_bytes l'
  end.
Definition to_be_bytes (n : nat) (z : Z) : list byte := rev (to_le_bytes n z).
Definition from_be_bytes (l : list byte) : Z := from_le_bytes (rev l).

Lemma length_to_le_bytes n z : length (to_le_bytes n z) = n.
Proof. revert z. induction n; cbn; auto. Qed.
Lemma length_to_be_bytes n z : length (to_be_bytes n z) = n.
Proof. unfold to_be_bytes. by rewrite length_rev, length_to_le_bytes. Qed.

Lemma from_to_le_bytes n z : from_le_bytes (to_le_bytes n z) = z mod 256 ^ Z.of_nat n.
Proof.
  revert z. induction n as [|n IH]; intros z; cbn [to_le_bytes from_le_bytes].
  - cbn. by rewrite Z.mod_1_r.
  - rewrite IH, b2z_z2b.
    rewrite Nat2Z.inj_succ, Z.pow_succ_r by lia.
    rewrite Z.rem_mul_r by lia. lia.
Qed.

Lemma from_to_be_bytes n z : from_be_bytes (to_be_bytes n z) = z mod 256 ^ Z.of_nat n.
Proof.
  unfold from_be_bytes, to_be_bytes. rewrite rev_involutive. apply from_to_le_bytes.
Qed.

Lemma from_le_bytes_range l : 0 <= from_le_bytes l < 256 ^ len l.
Proof.
  unfold len. induction l as [|b l IH]; cbn [from_le_bytes length]; [cbn; lia|].
  rewrite Nat2Z.inj_succ, Z.pow_succ_r by lia.
  pose proof (b2z_range b). nia.
Qed.

Lemma to_from_le_bytes l : to_le_bytes (length l) (from_le_bytes l) = l.
Proof.
  induction l as [|b l IH]; cbn [length to_le_bytes from_le_bytes]; [done|].
  pose proof (b2z_range b).
  assert (E : (b2z b + 256 * from_le_bytes l) / 256 = from_le_bytes l).
  { rewrite Z.mul_comm, Z.div_add by lia. rewrite Z.div_small by lia. lia. }
  rewrite E, IH. f_equal.
  apply b2z_inj. rewrite b2z_z2b, Z.mul_comm, Z.mod_add by lia.
  by rewrite Z.mod_small.
Qed.

(** ** Byte-wise ordering of byte strings ([Ord for str], [Ord for [u8]]) *)

Fixpoint bytes_cmp (a b : Str) : comparison :=
  match a, b with
  | [], [] => Eq
  | [], _ :: _ => Lt
  | _ :: _, [] => Gt
  | x :: a', y :: b' =>
      match Z.compare (b2z x) (b2z y) with
      | Eq => bytes_cmp a' b'
      | c => c
      end
  end.

(** A total order on keys, as Rust's [Ord]. *)
Class OrdKey (K : Type) := {
  kcmp : K -> K -> comparison;
  kcmp_eq : forall a b, kcmp a b = Eq <-> a = b;
  kcmp_antisym : forall a b, kcmp b a = CompOpp (kcmp a b);
  kcmp_trans : forall a b c, kcmp a b = Lt -> kcmp b c = Lt -> kcmp a c = Lt;
}.

Definition kltb `{OrdKey K} (a b : K) : bool :=
  match kcmp a b with Lt => true | _ => false end.
Definition kleb `{OrdKey K} (a b : K) : bool :=
  match kcmp a b with Gt => false | _ => true end.
Definition klt `{OrdKey K} (a b : K) : Prop := kcmp a b = Lt.
Definition kle `{OrdKey K} (a b : K) : Prop := kcmp a b <> Gt.

Section ordkey.
Context `{OrdKey K}.
Implicit Types a b c : K.

Lemma kcmp_refl a : kcmp a a = Eq.
Proof. by apply kcmp_eq. Qed.

Lemma kcmp_gt a b : kcmp a b = Gt <-> kcmp b a = Lt.
Proof. rewrite (kcmp_antisym a b). destruct (kcmp a b); cbn; naive_solver. Qed.

Definition ordkey_eq_dec : EqDecision K.
Proof.
  intros a b. destruct (kcmp a b) eqn:E.
  - left. by apply kcmp_eq.
  - right. intros ->. by rewrite kcmp_refl in E.
  - right. intros ->. by rewrite kcmp_refl in E.
Defined.

#[export] Instance klt_strict : StrictOrder klt.
Proof.
  split.
  - intros a Ha. unfold klt in Ha. by rewrite kcmp_refl in Ha.
  - intros a b c. apply kcmp_trans.
Qed.

Lemma klt_irrefl a : ~ klt a a.
Proof. unfold klt. by rewrite kcmp_refl. Qed.

Lemma kle_lteq a b : kle a b <-> klt a b \/ a = b.
Proof.
  unfold kle, klt. rewrite <- (kcmp_eq a b). destruct (kcmp a b); naive_solver.
Qed.
Lemma klt_kle a b : klt a b -> kle a b.
Proof. rewrite (kle_lteq a b). tauto. Qed.
Lemma kle_refl a : kle a a.
Proof. apply kle_lteq. tauto. Qed.
Lemma klt_kle_trans a b c : klt a b -> kle b c -> klt a c.
Proof. rewrite (kle_lteq b c). intros ? [?|<-]; [by eapply kcmp_trans|done]. Qed.
Lemma kle_klt_trans a b c : kle a b -> klt b c -> klt a c.
Proof. rewrite (kle_lteq a b). intros [?| ->] ?; [by eapply kcmp_trans|done]. Qed.
Lemma kle_trans a b c : kle a b -> kle b c -> kle a c.
Proof. rewrite (kle_lteq b c). intros ? [?|<-]; [|done]. by eapply klt_kle, kle_klt_trans. Qed.
Lemma not_klt a b : ~ klt a b <-> kle b a.
Proof. unfold klt, kle. rewrite (kcmp_antisym a b). destruct (kcmp a b); cbn; naive_solver. Qed.
Lemma kltb_lt a b : kltb a b = true <-> klt a b.
Proof. unfold kltb, klt. destruct (kcmp a b); naive_solver. Qed.
Lemma kleb_le a b : kleb a b = true <-> kle a b.
Proof. unfold kleb, kle. destruct (kcmp a b); naive_solver. Qed.
Lemma klt_total a b : klt a b \/ a = b \/ klt b a.
Proof.
  unfold klt. destruct (kcmp a b) eqn:E; [|tauto|].
  - right; left. by apply kcmp_eq.
  - right; right. by apply kcmp_gt.
Qed.
End ordkey.

Lemma bytes_cmp_eq a b : bytes_cmp a b = Eq <-> a = b.
Proof.
  revert b. induction a as [|x a IH]; intros [ |y b]; cbn; try naive_solver.
  destruct (Z.compare_spec (b2z x) (b2z y)) as [E|E|E].
  - apply b2z_inj in E as ->. rewrite IH. naive_solver.
  - split; [done|]. intros [= -> ->]. lia.
  - split; [done|]. intros [= -> ->]. lia.
Qed.

Lemma bytes_cmp_antisym a b : bytes_cmp b a = CompOpp (bytes_cmp a b).
Proof.
  revert b. induction a as [|x a IH]; intros [ |y b]; cbn; try done.
  rewrite Z.compare_antisym. destruct (Z.compare (b2z x) (b2z y)); cbn; auto.
Qed.

Lemma bytes_cmp_trans a b c :
  bytes_cmp a b = Lt -> bytes_cmp b c = Lt -> bytes_cmp a c = Lt.
Proof.
  revert b c. induction a as [|x a IH]; intros [ |y b] [ |z c]; cbn; try done.
  destruct (Z.compare_spec (b2z x) (b2z y)) as [E1|E1|E1]; try done;
  destruct (Z.compare_spec (b2z y) (b2z z)) as [E2|E2|E2]; try done; intros H1 H2;
  destruct (Z.compare_spec (b2z x) (b2z z)) as [E3|E3|E3]; try done; try lia.
  eauto.
Qed.

#[export] Instance Str_ord : OrdKey Str := {|
  kcmp := bytes_cmp;
  kcmp_eq := bytes_cmp_eq;
  kcmp_antisym := bytes_cmp_antisym;
  kcmp_trans := bytes_cmp_trans;
|}.

(** ** Slices

    [slice l i j] is Rust's [l[i..j]] for indices already checked to be in
    range; [nth_byte] is an indexing [l[i]] that the code has bounded. *)

Definition slice {A} (l : list A) (i j : Z) : list A :=
  take (Z.to_nat (j - i)) (drop (Z.to_nat i) l).
Definition slice_from {A} (l : list A) (i : Z) : list A := drop (Z.to_nat i) l.

(** ** Tactics *)

(** Case on every [match] discriminee of the goal and simplify. *)
Ltac case_all :=
  repeat (case_match; simplify_eq/=; try done).

(** Split boolean conjunctions and comparisons in the context. *)
Ltac bool_norm :=
  repeat match goal with
  | H : (_ && _)%bool = true |- _ => apply andb_prop in H; destruct H
  | H : (_ && _)%bool = false |- _ => apply andb_false_iff in H
  | H : (_ || _)%bool = false |- _ => apply orb_false_elim in H; destruct H
  | H : negb _ = true |- _ => apply negb_true_iff in H
  | H : negb _ = false |- _ => apply negb_false_iff in H
  | H : bool_decide _ = true |- _ => apply bool_decide_eq_true in H
  | H : bool_decide _ = false |- _ => apply bool_decide_eq_false in H
  end.
