(* ===== verification/Text.v ===== *)
(** * Text

    The parts of Rust's [str] and integer formatting that the program uses, on
    byte strings: decimal [Display] and [FromStr] of integers, UTF-8
    validation ([str::from_utf8]), ASCII case mapping, [split_once] and
    [strip_prefix]. *)

From S2P Require Import Prelude.

(** ** Decimal integers *)

Definition digit_val (b : byte) : option Z :=
  let z := b2z b in
  if (48 <=? z) && (z <=? 57) then Some (z - 48) else None.

(** Accumulate decimal digits on top of [acc]; [None] on a non-digit. *)
Fixpoint parse_digits (s : Str) (acc : Z) : option Z :=
  match s with
  | [] => Some acc
  | b :: s' =>
      match digit_val b with
      | Some d => parse_digits s' (acc * 10 + d)
      | None => None
      end
  end.

Definition parse_nonempty_digits (s : Str) : option Z :=
  match s with
  | [] => None
  | _ => parse_digits s 0
  end.

Definition range_check (ok : Z -> bool) (n : option Z) : option Z :=
  match n with
  | Some z => if ok z then Some z else None
  | None => None
  end.

(** [s.parse::<i64>()]: an optional sign and at least one digit, in range. *)
Definition parse_i64 (s : Str) : option Z :=
  match s with
  | x2d :: s' => range_check in_i64 (option_map Z.opp (parse_nonempty_digits s'))
  | x2b :: s' => range_check in_i64 (parse_nonempty_digits s')
  | _ => range_check in_i64 (parse_nonempty_digits s)
  end.

(** [s.parse::<u64>()]: an optional [+], no [-]. *)
Definition parse_u64 (s : Str) : option Z :=
  match s with
  | x2b :: s' => range_check in_u64 (parse_nonempty_digits s')
  | _ => range_check in_u64 (parse_nonempty_digits s)
  end.

Fixpoint print_digits (fuel : nat) (n : Z) (acc : Str) : Str :=
  match fuel with
  | O => acc
  | S f =>
      let acc' := z2b (48 + n mod 10) :: acc in
      if n / 10 =? 0 then acc' else print_digits f (n / 10) acc'
  end.

(** Digits needed are at most the number of bits plus one. *)
Definition print_nonneg (n : Z) : Str := print_digits (S (Z.to_nat (Z.log2 n))) n [].

(** [n.to_string()] of an integer. *)
Definition print_Z (n : Z) : Str :=
  if n <? 0 then x2d :: print_nonneg (- n) else print_nonneg n.

Lemma digit_val_digit d : 0 <= d < 10 -> digit_val (z2b (48 + d)) = Some d.
Proof.
  intros Hd. unfold digit_val. rewrite b2z_z2b_small by lia.
  replace (48 + d - 48) with d by lia.
  by destruct (Z.leb_spec 48 (48 + d)), (Z.leb_spec (48 + d) 57); try lia.
Qed.

Lemma parse_print_digits f n acc :
  0 <= n < 10 ^ Z.of_nat f -> parse_digits (print_digits f n acc) 0 = parse_digits acc n.
Proof.
  revert n acc. induction f as [|f IH]; intros n acc Hn; cbn [print_digits].
  - cbn in Hn. by replace n with 0 by lia.
  - pose proof (Z.mod_pos_bound n 10 eq_refl) as Hm.
    pose proof (Z.div_mod n 10 ltac:(lia)) as Hdm.
    rewrite Nat2Z.inj_succ, Z.pow_succ_r in Hn by lia.
    destruct (Z.eqb_spec (n / 10) 0) as [E|E].
    + cbn [parse_digits]. rewrite digit_val_digit by done. f_equal. lia.
    + rewrite IH by lia. cbn [parse_digits]. rewrite digit_val_digit by done.
      f_equal. lia.
Qed.

Lemma print_fuel_ok n : 0 <= n -> n < 10 ^ Z.of_nat (S (Z.to_nat (Z.log2 n))).
Proof.
  intros Hn. rewrite Nat2Z.inj_succ, Z2Nat.id by apply Z.log2_nonneg.
  destruct (Z.eq_dec n 0) as [->|].
  { cbn. lia. }
  pose proof (Z.log2_spec n ltac:(lia)).
  pose proof (Z.pow_le_mono_l 2 10 (Z.succ (Z.log2 n)) ltac:(lia)). lia.
Qed.

Lemma parse_print_nonneg n : 0 <= n -> parse_digits (print_nonneg n) 0 = Some n.
Proof.
  intros Hn. unfold print_nonneg.
  rewrite parse_print_digits by (pose proof (print_fuel_ok n); lia). done.
Qed.

(** The first byte of a printed number is a digit, never a sign. *)
Lemma print_digits_head f n acc :
  exists b l, print_digits (S f) n acc = b :: l /\ is_Some (digit_val b).
Proof.
  revert n acc. induction f as [|f IH]; intros n acc; cbn [print_digits];
    pose proof (Z.mod_pos_bound n 10 eq_refl).
  - destruct (_ =? 0); eexists _, _; (split; [done|]);
      rewrite digit_val_digit by done; eauto.
  - destruct (_ =? 0).
    + eexists _, _; (split; [done|]). rewrite digit_val_digit by done; eauto.
    + apply IH.
Qed.

Lemma parse_print_nonneg_ne n :
  0 <= n -> parse_nonempty_digits (print_nonneg n) = Some n.
Proof.
  intros Hn. pose proof (parse_print_nonneg n Hn) as HP. revert HP.
  unfold print_nonneg, parse_nonempty_digits.
  destruct (print_digits_head (Z.to_nat (Z.log2 n)) n []) as (b & l & -> & _). done.
Qed.

Lemma print_nonneg_no_sign n :
  exists b l, print_nonneg n = b :: l /\ b <> x2d /\ b <> x2b.
Proof.
  unfold print_nonneg.
  destruct (print_digits_head (Z.to_nat (Z.log2 n)) n []) as (b & l & -> & Hb).
  exists b, l. split; [done|]. split; intros ->; cbn in Hb; destruct Hb; done.
Qed.

(** [n.to_string().parse() == Ok(n)] on the whole range of [i64] and [u64]. *)
Lemma parse_print_i64 n : in_i64 n = true -> parse_i64 (print_Z n) = Some n.
Proof.
  intros Hn. unfold print_Z. destruct (Z.ltb_spec n 0) as [H|H].
  - change (range_check in_i64 (option_map Z.opp
             (parse_nonempty_digits (print_nonneg (- n)))) = Some n).
    rewrite parse_print_nonneg_ne by lia. unfold option_map, range_check.
    by rewrite Z.opp_involutive, Hn.
  - pose proof (parse_print_nonneg_ne n H) as HP.
    destruct (print_nonneg_no_sign n) as (b & l & E & H1 & H2). rewrite E in *.
    unfold parse_i64. destruct b; try congruence; rewrite HP; unfold range_check; by rewrite Hn.
Qed.

Lemma parse_print_u64 n : in_u64 n = true -> parse_u64 (print_Z n) = Some n.
Proof.
  intros Hn. unfold print_Z. destruct (Z.ltb_spec n 0) as [H|H].
  - unfold in_u64, in_u in Hn. lia.
  - pose proof (parse_print_nonneg_ne n H) as HP.
    destruct (print_nonneg_no_sign n) as (b & l & E & H1 & H2). rewrite E in *.
    unfold parse_u64. destruct b; try congruence; rewrite HP; unfold range_check; by rewrite Hn.
Qed.

Lemma print_nonneg_inj m n : 0 <= m -> 0 <= n -> print_nonneg m = print_nonneg n -> m = n.
Proof.
  intros Hm Hn E. pose proof (parse_print_nonneg m Hm) as H1.
  rewrite E, parse_print_nonneg in H1 by done. by injection H1.
Qed.

Lemma parse_i64_range s n : parse_i64 s = Some n -> in_i64 n = true.
Proof.
  unfold parse_i64, range_check. intros H. by case_all.
Qed.

(** ** UTF-8 validation *)

Definition in_range (lo hi : Z) (b : byte) : bool := (lo <=? b2z b) && (b2z b <=? hi).
Definition utf8_cont : byte -> bool := in_range 128 191.

Fixpoint utf8_valid (s : Str) : bool :=
  match s with
  | [] => true
  | a :: s1 =>
      if in_range 0 127 a then utf8_valid s1
      else match s1 with
      | [] => false
      | b :: s2 =>
          if in_range 194 223 a then utf8_cont b && utf8_valid s2
          else match s2 with
          | [] => false
          | c :: s3 =>
              if in_range 224 239 a then
                (if in_range 224 224 a then in_range 160 191 b
                 else if in_range 237 237 a then in_range 128 159 b
                 else utf8_cont b) && utf8_cont c && utf8_valid s3
              else match s3 with
              | [] => false
              | d :: s4 =>
                  if in_range 240 244 a then
                    (if in_range 240 240 a then in_range 144 191 b
                     else if in_range 244 244 a then in_range 128 143 b
                     else utf8_cont b) && utf8_cont c && utf8_cont d && utf8_valid s4
                  else false
              end
          end
      end
  end.

(** [str::from_utf8] / [String::from_utf8]: the bytes, when they are UTF-8. *)
Definition from_utf8 (s : Str) : option Str := if utf8_valid s then Some s else None.

Lemma utf8_valid_ascii s : forallb (in_range 0 127) s = true -> utf8_valid s = true.
Proof.
  induction s as [|a s IH]; [done|]. cbn [forallb utf8_valid]. intros [Ha Hs]%andb_prop.
  rewrite Ha. auto.
Qed.

Lemma print_digits_ascii f n acc :
  forallb (in_range 0 127) acc = true -> forallb (in_range 0 127) (print_digits f n acc) = true.
Proof.
  revert n acc. induction f as [|f IH]; intros n acc Hacc; cbn [print_digits]; [done|].
  assert (H : forallb (in_range 0 127) (z2b (48 + n mod 10) :: acc) = true).
  { pose proof (Z.mod_pos_bound n 10 eq_refl). cbn [forallb]. rewrite Hacc.
    unfold in_range. rewrite b2z_z2b_small by lia. lia. }
  destruct (_ =? 0); auto.
Qed.

Lemma print_Z_utf8 n : utf8_valid (print_Z n) = true.
Proof.
  apply utf8_valid_ascii. unfold print_Z, print_nonneg. destruct (n <? 0).
  - cbn [forallb]. by rewrite print_digits_ascii.
  - by apply print_digits_ascii.
Qed.

(** ** ASCII case, splitting *)

Definition ascii_upper (b : byte) : byte :=
  if in_range 97 122 b then z2b (b2z b - 32) else b.
Definition ascii_lower (b : byte) : byte :=
  if in_range 65 90 b then z2b (b2z b + 32) else b.
Definition to_ascii_uppercase (s : Str) : Str := map ascii_upper s.
Definition to_ascii_lowercase (s : Str) : Str := map ascii_lower s.
Definition str_eqb (a b : Str) : bool := bool_decide (a = b).
Definition eq_ignore_ascii_case (a b : Str) : bool :=
  str_eqb (to_ascii_lowercase a) (to_ascii_lowercase b).

(** [s.split_once(c)]: split at the first occurrence of [c]. *)
Fixpoint split_once (c : byte) (s : Str) : option (Str * Str) :=
  match s with
  | [] => None
  | b :: s' =>
      if bool_decide (b = c) then Some ([], s')
      else match split_once c s' with
           | Some (l, r) => Some (b :: l, r)
           | None => None
           end
  end.

(** [s.strip_prefix(c)] for a one-byte prefix. *)
Definition strip_prefix_byte (c : byte) (s : Str) : option Str :=
  match s with
  | b :: s' => if bool_decide (b = c) then Some s' else None
  | [] => None
  end.

Lemma split_once_app c l r :
  Forall (fun b => b <> c) l -> split_once c (l ++ c :: r) = Some (l, r).
Proof.
  induction 1 as [|b l Hb _ IH]; cbn.
  - by rewrite bool_decide_true.
  - by rewrite bool_decide_false, IH.
Qed.

Lemma split_once_none c s : Forall (fun b => b <> c) s -> split_once c s = None.
Proof.
  induction 1 as [|b l Hb _ IH]; cbn; [done|]. by rewrite bool_decide_false, IH.
Qed.

Lemma print_digits_no_byte c f n acc :
  digit_val c = None -> Forall (fun b => b <> c) acc ->
  Forall (fun b => b <> c) (print_digits f n acc).
Proof.
  intros Hc. revert n acc. induction f as [|f IH]; intros n acc Hacc; cbn [print_digits]; [done|].
  assert (H : Forall (fun b => b <> c) (z2b (48 + n mod 10) :: acc)).
  { constructor; [|done]. intros E.
    pose proof (Z.mod_pos_bound n 10 eq_refl) as Hm.
    pose proof (digit_val_digit (n mod 10) Hm) as Hd. by rewrite E, Hc in Hd. }
  destruct (_ =? 0); auto.
Qed.

Lemma print_nonneg_no_byte c n :
  digit_val c = None -> Forall (fun b => b <> c) (print_nonneg n).
Proof. intros. by apply print_digits_no_byte. Qed.
