(* ===== verification/BTree.v ===== *)
(** * BTree

    Rust's [BTreeMap] and [BTreeSet] as association lists kept in strictly
    increasing key order, so that iteration order is the code's.  [bt_wf] is the
    representation invariant; every operation preserves it. *)

From S2P Require Import Prelude.

Abbreviation btree K V := (list (K * V)).
(** A [BTreeSet<K>] is a [BTreeMap<K, ()>], as in the standard library. *)
Abbreviation bset K := (list (K * unit)).

Section btree.
Context {K : Type} `{OrdKey K} {V : Type}.
Implicit Types (m : btree K V) (k : K) (v : V).

Fixpoint bt_get m k : option V :=
  match m with
  | [] => None
  | (k', v) :: m' =>
      match kcmp k k' with
      | Eq => Some v
      | Lt => None
      | Gt => bt_get m' k
      end
  end.

Fixpoint bt_insert m k v : btree K V :=
  match m with
  | [] => [(k, v)]
  | (k', v') :: m' =>
      match kcmp k k' with
      | Eq => (k, v) :: m'
      | Lt => (k, v) :: m
      | Gt => (k', v') :: bt_insert m' k v
      end
  end.

Fixpoint bt_remove m k : btree K V :=
  match m with
  | [] => []
  | (k', v') :: m' =>
      match kcmp k k' with
      | Eq => m'
      | Lt => m
      | Gt => (k', v') :: bt_remove m' k
      end
  end.

Definition bt_contains m k : bool :=
  match bt_get m k with Some _ => true | None => false end.
Definition bt_is_empty m : bool := match m with [] => true | _ => false end.
Definition bt_keys m : list K := map fst m.
Definition bt_values m : list V := map snd m.
(** [into_iter().collect::<BTreeMap<_, _>>()]: later pairs win. *)
Definition bt_collect (l : list (K * V)) : btree K V :=
  fold_left (fun m '(k, v) => bt_insert m k v) l [].
(** [m.retain(f)] and filtered iteration. *)
Definition bt_filter (f : K -> V -> bool) m : btree K V :=
  List.filter (fun '(k, v) => f k v) m.
(** [m.get_mut(k)] followed by a write through the reference. *)
Definition bt_alter (f : V -> V) m k : btree K V :=
  map (fun '(k', v) => if bool_decide (kcmp k k' = Eq) then (k', f v) else (k', v)) m.

(** Strictly increasing keys. *)
Inductive bt_wf : btree K V -> Prop :=
| bt_wf_nil : bt_wf []
| bt_wf_cons k v m :
    Forall (fun kv => klt k (fst kv)) m -> bt_wf m -> bt_wf ((k, v) :: m).

Lemma bt_wf_cons_inv k v m :
  bt_wf ((k, v) :: m) -> Forall (fun kv => klt k (fst kv)) m /\ bt_wf m.
Proof. by inversion 1. Qed.

Lemma bt_get_below m k :
  Forall (fun kv => klt k (fst kv)) m -> bt_get m k = None.
Proof.
  destruct m as [ |[k' v'] m]; [done|]. intros [Hk _]%Forall_cons. cbn in *.
  by rewrite Hk.
Qed.

Lemma Forall_klt_trans k k' m :
  klt k k' -> Forall (fun kv => klt k' (fst kv)) m -> Forall (fun kv => klt k (fst kv)) m.
Proof.
  intros Hk Hf. eapply Forall_impl; [exact Hf|]. intros kv. by apply kcmp_trans.
Qed.

Lemma Forall_bt_insert (P : K * V -> Prop) m k v :
  P (k, v) -> Forall P m -> Forall P (bt_insert m k v).
Proof.
  intros Hkv. induction 1 as [ |[k' v'] m Hx Hm IH]; cbn; [by repeat constructor|].
  destruct (kcmp k k'); repeat constructor; auto.
Qed.

Lemma Forall_bt_remove (P : K * V -> Prop) m k : Forall P m -> Forall P (bt_remove m k).
Proof.
  induction 1 as [ |[k' v'] m Hx Hm IH]; cbn; [done|].
  destruct (kcmp k k'); [|constructor|constructor]; auto.
Qed.

Lemma bt_wf_insert m k v : bt_wf m -> bt_wf (bt_insert m k v).
Proof.
  induction 1 as [|k' v' m Hk' Hm IH]; cbn; [by repeat constructor|].
  destruct (kcmp k k') eqn:E.
  - apply kcmp_eq in E as ->. by constructor.
  - constructor; [|by constructor]. constructor; [done|]. by eapply Forall_klt_trans.
  - constructor; [|done]. apply Forall_bt_insert; [|done]. by apply kcmp_gt.
Qed.

Lemma bt_wf_remove m k : bt_wf m -> bt_wf (bt_remove m k).
Proof.
  induction 1 as [|k' v' m Hk' Hm IH]; cbn; [constructor|].
  destruct (kcmp k k') eqn:E; [done|by constructor|].
  constructor; [|done]. by apply Forall_bt_remove.
Qed.

Lemma bt_wf_filter f m : bt_wf m -> bt_wf (bt_filter f m).
Proof.
  induction 1 as [|k' v' m Hk' Hm IH]; cbn; [constructor|].
  destruct (f k' v'); [|done]. constructor; [|done].
  rewrite List.Forall_forall in *. intros x Hx. apply Hk'.
  by apply List.filter_In in Hx as [? _].
Qed.

Lemma bt_alter_keys f m k : bt_keys (bt_alter f m k) = bt_keys m.
Proof.
  unfold bt_keys, bt_alter. rewrite map_map. apply map_ext.
  intros [k' v]. by destruct (bool_decide _).
Qed.

Lemma bt_wf_keys m1 m2 : bt_keys m1 = bt_keys m2 -> bt_wf m1 -> bt_wf m2.
Proof.
  revert m2. induction m1 as [ |[k v] m1 IH]; intros [ |[k2 v2] m2]; cbn; try done.
  intros [= <- E] [Hk Hm]%bt_wf_cons_inv. constructor; [|by apply IH].
  rewrite <- (List.Forall_map fst (klt k)) in Hk |- *. unfold bt_keys in E. by rewrite <- E.
Qed.

Lemma bt_wf_alter f m k : bt_wf m -> bt_wf (bt_alter f m k).
Proof. apply bt_wf_keys. by rewrite bt_alter_keys. Qed.

Lemma bt_wf_collect l : bt_wf (bt_collect l).
Proof.
  unfold bt_collect. assert (G : forall m, bt_wf m ->
    bt_wf (fold_left (fun m '(k, v) => bt_insert m k v) l m)).
  { induction l as [ |[k v] l IH]; cbn; [done|]. intros m Hm.
    apply IH. by apply bt_wf_insert. }
  apply G. constructor.
Qed.

Lemma bt_get_insert_eq m k v : bt_get (bt_insert m k v) k = Some v.
Proof.
  induction m as [ |[k' v'] m IH]; cbn; [by rewrite kcmp_refl|].
  destruct (kcmp k k') eqn:E; cbn; rewrite ?kcmp_refl; try done. by rewrite E.
Qed.

Lemma bt_get_insert_ne m k k2 v : k <> k2 -> bt_get (bt_insert m k v) k2 = bt_get m k2.
Proof.
  intros Hne. assert (Hc : kcmp k2 k <> Eq) by (rewrite kcmp_eq; congruence).
  induction m as [ |[k' v'] m IH]; cbn.
  { by destruct (kcmp k2 k). }
  destruct (kcmp k k') eqn:E; cbn.
  - apply kcmp_eq in E as ->. by destruct (kcmp k2 k').
  - destruct (kcmp k2 k) eqn:E2; try done. by rewrite (kcmp_trans _ _ _ E2 E).
  - by rewrite IH.
Qed.

Lemma bt_get_insert m k k2 v :
  bt_get (bt_insert m k v) k2 = if bool_decide (kcmp k k2 = Eq) then Some v else bt_get m k2.
Proof.
  case_bool_decide as E.
  - apply kcmp_eq in E as <-. apply bt_get_insert_eq.
  - apply bt_get_insert_ne. intros ->. apply E, kcmp_refl.
Qed.

Lemma bt_get_remove_eq m k : bt_wf m -> bt_get (bt_remove m k) k = None.
Proof.
  induction 1 as [|k' v' m Hk' Hm IH]; cbn; [done|].
  destruct (kcmp k k') eqn:E; cbn.
  - apply kcmp_eq in E as ->. by apply bt_get_below.
  - by rewrite E.
  - by rewrite E.
Qed.

Lemma bt_get_remove_ne m k k2 : bt_wf m -> k <> k2 -> bt_get (bt_remove m k) k2 = bt_get m k2.
Proof.
  intros Hwf Hne. induction Hwf as [|k' v' m Hk' Hm IH]; cbn; [done|].
  destruct (kcmp k k') eqn:E; cbn; [|done|by rewrite IH].
  apply kcmp_eq in E as ->. destruct (kcmp k2 k') eqn:E2; [|by apply bt_get_below, (Forall_klt_trans _ k')|done].
  apply kcmp_eq in E2 as ->. done.
Qed.

Lemma bt_remove_absent m k : bt_get m k = None -> bt_remove m k = m.
Proof.
  induction m as [ |[k' v'] m IH]; cbn; [done|].
  destruct (kcmp k k'); [done|done|]. intros. by rewrite IH.
Qed.

Lemma bt_get_In m k v : bt_wf m -> bt_get m k = Some v <-> In (k, v) m.
Proof.
  induction 1 as [|k' v' m Hk' Hm IH]; cbn; [naive_solver|].
  rewrite List.Forall_forall in Hk'.
  destruct (kcmp k k') eqn:E.
  - apply kcmp_eq in E as ->. split; [naive_solver|].
    intros [[= ->]|Hin]; [done|]. apply Hk' in Hin. cbn in Hin. by apply klt_irrefl in Hin.
  - split; [done|]. intros [[= -> ->]|Hin]; [by rewrite kcmp_refl in E|].
    apply Hk' in Hin. cbn in Hin. exfalso. eapply klt_irrefl, kcmp_trans; eauto.
  - rewrite IH. split; [auto|]. intros [[= -> ->]|Hin]; [by rewrite kcmp_refl in E|done].
Qed.

Lemma bt_contains_In m k : bt_wf m -> bt_contains m k = true <-> In k (bt_keys m).
Proof.
  intros Hwf. unfold bt_contains, bt_keys. rewrite in_map_iff. destruct (bt_get m k) eqn:E.
  - apply bt_get_In in E; [|done]. split; [|done]. intros _. by exists (k, v).
  - split; [done|]. intros ([k' v'] & <- & Hin). apply bt_get_In in Hin; [|done].
    cbn in *. congruence.
Qed.

Lemma bt_ext m1 m2 :
  bt_wf m1 -> bt_wf m2 -> (forall k, bt_get m1 k = bt_get m2 k) -> m1 = m2.
Proof.
  intros H1. revert m2. induction H1 as [|k1 v1 m1 Hk1 Hm1 IH]; intros m2 H2 E.
  { destruct m2 as [ |[k2 v2] m2]; [done|]. specialize (E k2). cbn in E.
    by rewrite kcmp_refl in E. }
  destruct H2 as [|k2 v2 m2 Hk2 Hm2].
  { specialize (E k1). cbn in E. by rewrite kcmp_refl in E. }
  assert (k1 = k2) as <-.
  { pose proof (E k1) as E1. pose proof (E k2) as E2. cbn in E1, E2.
    rewrite !kcmp_refl in E1, E2. destruct (kcmp k1 k2) eqn:C; [by apply kcmp_eq|done|].
    apply kcmp_gt in C. by rewrite C in E2. }
  pose proof (E k1) as E1. cbn in E1. rewrite !kcmp_refl in E1. injection E1 as <-.
  f_equal. apply IH; [done|]. intros k. specialize (E k). cbn in E.
  destruct (kcmp k k1) eqn:C; [|by rewrite !bt_get_below by by eapply Forall_klt_trans|done].
  apply kcmp_eq in C as ->. by rewrite !bt_get_below.
Qed.

Lemma bt_insert_max m k v :
  Forall (fun kv => klt (fst kv) k) m -> bt_insert m k v = m ++ [(k, v)].
Proof.
  induction 1 as [ |[k' v'] m Hx Hm IH]; cbn in *; [done|].
  apply kcmp_gt in Hx. by rewrite Hx, IH.
Qed.

Lemma bt_collect_app_wf l m :
  bt_wf (l ++ m) -> fold_left (fun m '(k, v) => bt_insert m k v) m l = l ++ m.
Proof.
  revert l. induction m as [ |[k v] m IH]; intros l; cbn; [by rewrite app_nil_r|].
  intros Hwf. rewrite bt_insert_max.
  - rewrite IH; by rewrite <- app_assoc.
  - clear IH. induction l as [ |[k' v'] l IHl]; [constructor|]. cbn in Hwf.
    apply bt_wf_cons_inv in Hwf as [Hf Hwf]. constructor; [|by apply IHl].
    apply Forall_app in Hf as [_ Hf]. by apply Forall_cons in Hf as [Hf _].
Qed.

(** Collecting the pairs of a tree rebuilds the tree. *)
Lemma bt_collect_wf m : bt_wf m -> bt_collect m = m.
Proof. intros Hm. unfold bt_collect. by rewrite bt_collect_app_wf. Qed.

Lemma bt_insert_length m k v :
  length (bt_insert m k v) = if bt_contains m k then length m else S (length m).
Proof.
  unfold bt_contains. induction m as [ |[k' v'] m IH]; cbn; [done|].
  destruct (kcmp k k'); cbn; [done|done|]. rewrite IH. by destruct (bt_get m k).
Qed.

Lemma bt_insert_nonempty m k v : bt_insert m k v <> [].
Proof. destruct m as [ |[k' v'] m]; cbn; [done|]. by destruct (kcmp k k'). Qed.

Lemma bt_remove_length m k :
  length m = if bt_contains m k then S (length (bt_remove m k)) else length (bt_remove m k).
Proof.
  unfold bt_contains. induction m as [ |[k' v'] m IH]; cbn; [done|].
  destruct (kcmp k k'); cbn; [done|done|]. destruct (bt_get m k); cbn; lia.
Qed.

Lemma bt_get_filter f m k :
  bt_wf m ->
  bt_get (bt_filter f m) k = match bt_get m k with
                             | Some v => if f k v then Some v else None
                             | None => None
                             end.
Proof.
  intros Hwf. apply option_eq. intros v.
  rewrite bt_get_In by by apply bt_wf_filter. unfold bt_filter. rewrite List.filter_In.
  rewrite <- bt_get_In by done. destruct (bt_get m k) as [v'|].
  - split; [by intros [[= ->] ->]|]. destruct (f k v') eqn:E; [|done]. by intros [= <-].
  - split; [by intros [? _]|done].
Qed.

Lemma bt_get_alter f m k k2 :
  bt_wf m ->
  bt_get (bt_alter f m k) k2 =
    if bool_decide (kcmp k k2 = Eq) then option_map f (bt_get m k2) else bt_get m k2.
Proof.
  induction 1 as [|k' v' m Hk' Hm IH]; cbn [bt_alter map bt_get].
  { by destruct (bool_decide _). }
  fold (bt_alter f m k).
  destruct (decide (kcmp k k' = Eq)) as [E1|E1].
  - rewrite (bool_decide_true (kcmp k k' = Eq)) by done. cbn [bt_get].
    apply kcmp_eq in E1 as <-. destruct (kcmp k2 k) eqn:E2; [|by case_bool_decide|done].
    apply kcmp_eq in E2 as ->. by rewrite bool_decide_true by apply kcmp_refl.
  - rewrite (bool_decide_false (kcmp k k' = Eq)) by done. cbn [bt_get].
    destruct (kcmp k2 k') eqn:E2; [|by case_bool_decide|done].
    apply kcmp_eq in E2 as ->. by rewrite bool_decide_false.
Qed.

Lemma bt_insert_perm m k v : bt_get m k = None -> bt_insert m k v ≡ₚ (k, v) :: m.
Proof.
  induction m as [|[k' v'] m IH]; cbn; [done|].
  destruct (kcmp k k') eqn:E; [done|done|]. intros Hg. rewrite IH by done. apply perm_swap.
Qed.

Lemma bt_wf_NoDup m : bt_wf m -> NoDup (bt_keys m).
Proof.
  induction 1 as [|k v m Hk Hm IH]; cbn; constructor; [|done].
  rewrite list_elem_of_In. intros Hin. apply in_map_iff in Hin as (kv & <- & Hin).
  rewrite List.Forall_forall in Hk. by apply Hk, klt_irrefl in Hin.
Qed.
End btree.

Create HintDb btree.
#[export] Hint Resolve bt_wf_nil bt_wf_insert bt_wf_remove bt_wf_filter bt_wf_alter
  bt_wf_collect bt_insert_nonempty : btree.

(** ** BTreeSet *)

Section bset.
Context {K : Type} `{OrdKey K}.
Implicit Types (s : bset K) (k : K).

(** [s.insert(k)] and [s.remove(k)] also report whether they changed the set. *)
Definition bs_insert s k : bset K := bt_insert s k tt.
Definition bs_collect (l : list K) : bset K := fold_left bs_insert l [].
Definition bs_elems s : list K := bt_keys s.
Definition bs_intersection s1 s2 : bset K := bt_filter (fun k _ => bt_contains s2 k) s1.
Definition bs_difference s1 s2 : bset K := bt_filter (fun k _ => negb (bt_contains s2 k)) s1.

Lemma bs_contains_insert s k k2 :
  bt_contains (bs_insert s k) k2 = bool_decide (kcmp k k2 = Eq) || bt_contains s k2.
Proof. unfold bt_contains, bs_insert. rewrite bt_get_insert. by case_bool_decide. Qed.

Lemma bt_wf_bs_collect_from l s : bt_wf s -> bt_wf (fold_left bs_insert l s).
Proof.
  revert s. induction l as [|k l IH]; cbn; [done|]. intros s Hs.
  apply IH. unfold bs_insert. auto with btree.
Qed.
Lemma bt_wf_bs_collect l : bt_wf (bs_collect l).
Proof. apply bt_wf_bs_collect_from. constructor. Qed.

Lemma bs_contains_collect_from l s k :
  bt_contains (fold_left bs_insert l s) k = true <-> In k l \/ bt_contains s k = true.
Proof.
  revert s. induction l as [|x l IH]; cbn; [naive_solver|]. intros s.
  rewrite IH, bs_contains_insert. case_bool_decide as E.
  - apply kcmp_eq in E as ->. naive_solver.
  - cbn. assert (x <> k) by (intros ->; apply E, kcmp_refl). naive_solver.
Qed.

Lemma bs_contains_collect l k : bt_contains (bs_collect l) k = true <-> In k l.
Proof. unfold bs_collect. rewrite bs_contains_collect_from. naive_solver. Qed.

Lemma bs_insert_as_pairs l s :
  fold_left bs_insert l s =
  fold_left (fun m '(k, v) => bt_insert m k v) (map (fun k => (k, tt)) l) s.
Proof. revert s. induction l as [|x l IH]; cbn; auto. Qed.

Lemma bs_elems_pairs s : map (fun k => (k, tt)) (bs_elems s) = s.
Proof. induction s as [ |[k []] s IH]; cbn; [done|]. by f_equal. Qed.

Lemma bs_collect_elems s : bt_wf s -> bs_collect (bs_elems s) = s.
Proof.
  intros Hs. unfold bs_collect. rewrite bs_insert_as_pairs, bs_elems_pairs.
  by apply bt_collect_wf.
Qed.

Lemma bs_contains_intersection s1 s2 k :
  bt_wf s1 ->
  bt_contains (bs_intersection s1 s2) k = bt_contains s1 k && bt_contains s2 k.
Proof.
  intros Hs. unfold bs_intersection, bt_contains. rewrite bt_get_filter by done.
  destruct (bt_get s1 k); [|done]. by destruct (bt_get s2 k).
Qed.

Lemma bs_contains_difference s1 s2 k :
  bt_wf s1 ->
  bt_contains (bs_difference s1 s2) k = bt_contains s1 k && negb (bt_contains s2 k).
Proof.
  intros Hs. unfold bs_difference, bt_contains. rewrite bt_get_filter by done.
  destruct (bt_get s1 k); [|done]. by destruct (bt_get s2 k).
Qed.
End bset.
#[export] Hint Resolve bt_wf_bs_collect bt_wf_bs_collect_from : btree.

#[global] Arguments bt_insert : simpl never.
#[global] Arguments bt_remove : simpl never.
