(* ===== verification/Pages.v ===== *)
(** * Pages

    Listing a set of keys page by page: what a page tells its client, whatever
    the order the keys are listed in, and what a client that follows the cursors
    has seen. *)

From S2P Require Import Prelude.
From S2P Require Import Text.
From S2P Require Import BTree.

(** A page of a listing of the keys that are [present].  [after c] are the keys
    listed after cursor [c], present or not. *)
Record lists_page (present : Str -> Prop) (after : option Str -> Str -> Prop)
    (cursor : option Str) (page : list Str) (next : option Str) : Prop := {
  page_nodup : NoDup page;
  page_present : forall k, k ∈ page -> present k /\ after cursor k;
  page_complete : forall k, present k -> after cursor k ->
    k ∈ page \/ exists c, next = Some c /\ after (Some c) k;
  page_progress : forall c, next = Some c ->
    page <> [] /\ forall k, after (Some c) k -> after cursor k /\ k ∉ page;
}.

Lemma lists_page_ext (present present' : Str -> Prop) after cursor page next :
  (forall k, after cursor k -> (present k <-> present' k)) -> lists_page present after cursor page next -> lists_page present' after cursor page next.
Proof.
  intros He [Hn Hp Hc Hg]. split; [done| |intros k Hk Ha; by apply Hc, Ha; apply He|done].
  intros k Hk. destruct (Hp k Hk) as [? ?]. split; [by apply He|done].
Qed.

(** The page of other names for the same keys. *)
Lemma lists_page_omap (present : Str -> Prop) after cursor page next (f : Str -> Str) (g : Str -> option Str) :
  (forall x k, g x = Some k <-> x = f k) -> (forall x, present x -> is_Some (g x)) ->
  lists_page present after cursor page next ->
  lists_page (fun k => present (f k)) (fun c k => after c (f k)) cursor (omap g page) next.
Proof.
  intros Hg Hpre [Hnd Hp Hc Hpr].
  assert (Hin : forall k, k ∈ omap g page <-> f k ∈ page).
  { intros k. rewrite list_elem_of_omap. split; [by intros (x & Hx & ->%Hg)|]. intros Hk. exists (f k). split; [done|]. by apply Hg. }
  split.
  - clear -Hnd Hg. induction Hnd as [|x l Hx Hl IH]; cbn; [constructor|]. destruct (g x) as [y|] eqn:E; [|done].
    constructor; [|done]. rewrite list_elem_of_omap. intros (x' & Hx' & E'). apply Hg in E, E'. by subst.
  - intros k Hk%Hin. by apply Hp.
  - intros k Hk Ha. rewrite Hin. by apply Hc.
  - intros c Ec. destruct (Hpr c Ec) as [Hne Ha]. split.
    + destruct page as [|x page]; [done|]. destruct (Hp x) as [Hx _]; [by left|]. destruct (Hpre x Hx) as [y Ey]. cbn. by rewrite Ey.
    + intros k Hk. rewrite Hin. by apply Ha.
Qed.

(** The keys a client still has to see. *)
Definition remaining (present : Str -> Prop) (after : option Str -> Str -> Prop) (cursor : option Str) (rest : list Str) : Prop :=
  NoDup rest /\ forall k, k ∈ rest <-> present k /\ after cursor k.

Lemma page_step present after cursor page next rest :
  lists_page present after cursor page next -> remaining present after cursor rest ->
  match next with
  | None => rest ≡ₚ page
  | Some c => exists rest', remaining present after (Some c) rest' /\ rest ≡ₚ page ++ rest' /\ (length rest' < length rest)%nat
  end.
Proof.
  intros [Hnd Hp Hc Hpr] [Hr Hin]. destruct next as [c|].
  - destruct (Hpr c eq_refl) as [Hne Ha]. exists (list_difference rest page).
    assert (Hperm : rest ≡ₚ page ++ list_difference rest page).
    { apply NoDup_Permutation; [done| |].
      - apply NoDup_app. split; [done|]. split; [|by apply NoDup_list_difference].
        intros k Hk. rewrite list_elem_of_difference. tauto.
      - intros k. rewrite elem_of_app, list_elem_of_difference. split.
        + destruct (decide (k ∈ page)); tauto.
        + intros [Hk|[? _]]; [|done]. by apply Hin, Hp. }
    split; [|split; [done|]].
    + split; [by apply NoDup_list_difference|]. intros k. rewrite list_elem_of_difference, Hin. split.
      * intros [[Hk Hak] Hnp]. destruct (Hc k Hk Hak) as [?|(c' & [= <-] & ?)]; [done|]. done.
      * intros [Hk Hak]. destruct (Ha k Hak). done.
    + apply Permutation_length in Hperm. rewrite length_app in Hperm. destruct page; [done|]. cbn in Hperm. lia.
  - apply NoDup_Permutation; [done..|]. intros k. rewrite Hin. split.
    + intros [Hk Ha]. by destruct (Hc k Hk Ha) as [?|(c & [=] & _)].
    + intros Hk. by apply Hp.
Qed.

(** ** Listing in key order *)

Definition key_after (cursor : option Str) (k : Str) : Prop := match cursor with Some c => klt c k | None => True end.

Definition take_page (ks : list Str) (cursor : option Str) (n : nat) : list Str * option Str :=
  let rest := List.filter (fun k => match cursor with Some c => kltb c k | None => true end) ks in
  (take n rest, if (length rest <=? n)%nat then None else last (take n rest)).

Lemma sorted_NoDup (l : list Str) : StronglySorted klt l -> NoDup l.
Proof.
  induction 1 as [|x l Hs IH Hx]; constructor; [|done]. rewrite List.Forall_forall in Hx.
  intros Hi%list_elem_of_In. by apply (klt_irrefl x), Hx.
Qed.

Lemma take_page_rest ks cursor k :
  k ∈ List.filter (fun k => match cursor with Some c => kltb c k | None => true end) ks <-> k ∈ ks /\ key_after cursor k.
Proof. rewrite !list_elem_of_In, List.filter_In. destruct cursor; cbn; [by rewrite kltb_lt|tauto]. Qed.

Lemma sorted_filter (f : Str -> bool) l : StronglySorted klt l -> StronglySorted klt (List.filter f l).
Proof.
  induction 1 as [|x l Hs IH Hx]; cbn; [constructor|]. destruct (f x); [|done]. constructor; [done|].
  rewrite List.Forall_forall in Hx |- *. intros y [Hy _]%List.filter_In. by apply Hx.
Qed.

Lemma take_page_spec ks cursor n :
  StronglySorted klt ks -> (0 < n)%nat ->
  let '(page, next) := take_page ks cursor n in
  lists_page (fun k => k ∈ ks) key_after cursor page next /\ (length page <= n)%nat.
Proof.
  intros Hs Hn. unfold take_page. pose proof (take_page_rest ks cursor) as Hin. set (after := fun k => match cursor with Some c => kltb c k | None => true end) in *.
  apply (sorted_filter after) in Hs. revert Hs Hin. generalize (List.filter after ks).
  intros rest Hs Hin. split; [|rewrite length_take; lia].
  assert (Hsplit : forall k, k ∈ rest <-> k ∈ take n rest \/ k ∈ drop n rest).
  { intros k. rewrite <- (take_drop n rest) at 1. apply elem_of_app. }
  pose proof Hs as Hs'. rewrite <- (take_drop n rest) in Hs'. apply StronglySorted_app in Hs' as (Hlt & Hst & _).
  split.
  - by apply sorted_NoDup.
  - intros k Hk. apply Hin, Hsplit. by left.
  - intros k Hk Ha. destruct (proj1 (Hsplit k)) as [?|Hd]; [by apply Hin|by left|]. right.
    destruct (Nat.leb_spec (length rest) n) as [Hle|Hgt]; [rewrite drop_ge in Hd by done; by apply elem_of_nil in Hd|].
    destruct (last (take n rest)) as [c|] eqn:El.
    + exists c. split; [done|]. apply Hlt; [by apply last_Some_elem_of|done].
    + apply last_None, (f_equal length) in El. rewrite length_take in El. cbn in El. lia.
  - intros c Ec. destruct (Nat.leb_spec (length rest) n); [done|]. split; [by intros E; rewrite E in Ec|].
    pose proof (last_Some_elem_of _ _ Ec) as Hc. intros k Hk. cbn in Hk. split.
    + assert (key_after cursor c) as Hac by (apply Hin, Hsplit; by left). destruct cursor; cbn in *; [|done]. by etrans.
    + intros Hkp. destruct (proj1 (last_Some _ _) Ec) as [l' El']. rewrite El' in Hkp, Hst.
      apply StronglySorted_app in Hst as (Hlc & _ & _).
      apply elem_of_app in Hkp as [Hkp|Hkc%list_elem_of_singleton]; [|subst; by apply klt_irrefl in Hk].
      apply (klt_irrefl k). transitivity c; [|done]. apply Hlc; [done|]. by left.
Qed.

(** ** Sorting keys *)

Lemma collected_sorted (l : list Str) : StronglySorted klt (bs_elems (bs_collect l)).
Proof.
  pose proof (bt_wf_bs_collect l) as Hwf. unfold bs_elems.
  induction Hwf as [|k v t Hf _ IH]; cbn; constructor; [done|]. by apply List.Forall_map.
Qed.
Lemma elem_of_collected (l : list Str) k : k ∈ bs_elems (bs_collect l) <-> k ∈ l.
Proof. unfold bs_elems. by rewrite !list_elem_of_In, <- (bt_contains_In _ k (bt_wf_bs_collect _)), bs_contains_collect. Qed.

(** The keys of a map, in order. *)
Definition map_keys {V} (m : gmap Str V) : list Str := bs_elems (bs_collect (map fst (map_to_list m))).

Lemma elem_of_map_keys {V} (m : gmap Str V) k : k ∈ map_keys m <-> is_Some (m !! k).
Proof.
  unfold map_keys. rewrite elem_of_collected, list_elem_of_fmap. split.
  - intros ([k' v] & -> & Hin). apply elem_of_map_to_list in Hin. by exists v.
  - intros [v Hv]. exists (k, v). split; [done|]. by apply elem_of_map_to_list.
Qed.
