(* ===== verification/F64.v ===== *)
(** * F64

    Rust's [f64] as the Standard Library's computational IEEE 754 binary64
    ([spec_float] at precision 53, maximal exponent 1024): arithmetic,
    [partial_cmp], bit decoding, [FromStr] (correctly rounded) and [Display]
    (shortest decimal that reads back).  NaN payloads are not represented:
    there is one NaN. *)

From S2P Require Import Prelude.
From S2P Require Import Text.
From Stdlib Require Export SpecFloat.

Abbreviation f64 := spec_float.

#[export] Instance f64_eq_dec : EqDecision f64.
Proof. solve_decision. Defined.

Definition f64_zero : f64 := S754_zero false.
Definition f64_inf : f64 := S754_infinity false.
Definition f64_neg_inf : f64 := S754_infinity true.
Definition f64_nan : f64 := S754_nan.

Definition f64_add (a b : f64) : f64 := SFadd 53 1024 a b.
Definition f64_sub (a b : f64) : f64 := SFsub 53 1024 a b.
Definition f64_mul (a b : f64) : f64 := SFmul 53 1024 a b.
Definition f64_div (a b : f64) : f64 := SFdiv 53 1024 a b.
Definition f64_sqrt (a : f64) : f64 := SFsqrt 53 1024 a.
(** [n as f64], [f64::from(n)] of a non-negative integer. *)
Definition f64_of_uint (n : Z) : f64 := binary_normalize 53 1024 n 0 false.
(** [-a]. *)
Definition f64_neg (a : f64) : f64 := SFopp a.

Definition f64_partial_cmp (a b : f64) : option comparison := SFcompare a b.
Definition f64_lt (a b : f64) : bool :=
  match SFcompare a b with Some Lt => true | _ => false end.
Definition f64_gt (a b : f64) : bool :=
  match SFcompare a b with Some Gt => true | _ => false end.
Definition f64_le (a b : f64) : bool :=
  match SFcompare a b with Some Lt | Some Eq => true | _ => false end.
Definition f64_ge (a b : f64) : bool :=
  match SFcompare a b with Some Gt | Some Eq => true | _ => false end.
Definition f64_is_nan (a : f64) : bool :=
  match a with S754_nan => true | _ => false end.
Definition f64_is_infinite (a : f64) : bool :=
  match a with S754_infinity _ => true | _ => false end.
(** [a.to_bits() == b.to_bits()]. *)
Definition f64_same_bits (a b : f64) : bool := bool_decide (a = b).

(** [a.partial_cmp(&b).unwrap_or(Ordering::Equal)]. *)
Definition f64_cmp_or_eq (a b : f64) : comparison :=
  match SFcompare a b with Some c => c | None => Eq end.

(** [v as u32], [v as u64]: truncating and saturating. *)
Definition f64_as_uint (w : Z) (v : f64) : Z :=
  match v with
  | S754_nan | S754_zero _ => 0
  | S754_infinity s => if s then 0 else 2 ^ w - 1
  | S754_finite s m e =>
      if s then 0
      else Z.min (2 ^ w - 1) (if 0 <=? e then Z.pos m * 2 ^ e else Z.pos m / 2 ^ (- e))
  end.

(** [v.round()]: to the nearest integer, halves away from zero. *)
Definition f64_round (v : f64) : f64 :=
  match v with
  | S754_finite s m e =>
      if 0 <=? e then v
      else
        match (2 * Z.pos m + 2 ^ (- e)) / (2 * 2 ^ (- e)) with
        | Z.pos n => binary_normalize 53 1024 (if s then Z.neg n else Z.pos n) 0 s
        | _ => S754_zero s
        end
  | _ => v
  end.

(** [2.0_f64.powi(-r)] for a small [r >= 0], which is exact. *)
Definition f64_pow2_neg (r : Z) : f64 := S754_finite false (2 ^ 52) (- 52 - r).

(** ** The order of the non-NaN values is a total order on scores *)

Definition f64_rank (a : f64) : Z * Z * Z :=
  match a with
  | S754_infinity true => (-2, 0, 0)
  | S754_finite true m e => (-1, - e, Z.neg m)
  | S754_zero _ | S754_nan => (0, 0, 0)
  | S754_finite false m e => (1, e, Z.pos m)
  | S754_infinity false => (2, 0, 0)
  end.

Definition rank_cmp (x y : Z * Z * Z) : comparison :=
  match Z.compare (fst (fst x)) (fst (fst y)) with
  | Eq => match Z.compare (snd (fst x)) (snd (fst y)) with
          | Eq => Z.compare (snd x) (snd y)
          | c => c
          end
  | c => c
  end.

Lemma f64_cmp_rank a b :
  f64_is_nan a = false -> f64_is_nan b = false ->
  SFcompare a b = Some (rank_cmp (f64_rank a) (f64_rank b)).
Proof.
  destruct a as [|[]| |[]], b as [|[]| |[]]; try done; intros _ _;
    cbn -[Z.compare Z.opp]; unfold rank_cmp; cbn -[Z.compare Z.opp]; try done.
  rewrite Z.compare_opp.
  rewrite (Z.compare_antisym e e0). destruct (Z.compare e e0); cbn; try done.
Qed.

Lemma rank_cmp_refl x : rank_cmp x x = Eq.
Proof. unfold rank_cmp. by rewrite !Z.compare_refl. Qed.

Lemma rank_cmp_antisym x y : rank_cmp y x = CompOpp (rank_cmp x y).
Proof.
  unfold rank_cmp.
  rewrite (Z.compare_antisym x.1.1 y.1.1), (Z.compare_antisym x.1.2 y.1.2),
    (Z.compare_antisym x.2 y.2).
  by repeat destruct (Z.compare _ _).
Qed.

Ltac rank_solve :=
  unfold rank_cmp;
  repeat match goal with
  | |- context [Z.compare ?a ?b] => destruct (Z.compare_spec a b)
  end; try done; try lia.

Lemma rank_cmp_trans x y z : rank_cmp x y <> Gt -> rank_cmp y z <> Gt -> rank_cmp x z <> Gt.
Proof. rank_solve. Qed.

Lemma rank_cmp_lt_trans x y z : rank_cmp x y = Lt -> rank_cmp y z <> Gt -> rank_cmp x z = Lt.
Proof. rank_solve. Qed.

Lemma rank_cmp_eq_trans x y z : rank_cmp x y = Eq -> rank_cmp y z = rank_cmp x z.
Proof. rank_solve. Qed.

(** ** Integral values *)

(** [v.fract() == 0.0], and the integer it then denotes. *)
Definition f64_integral (v : f64) : option Z :=
  match v with
  | S754_zero _ => Some 0
  | S754_finite s m e =>
      let n := if 0 <=? e then Some (Z.pos m * 2 ^ e)
               else if Z.pos m mod 2 ^ (- e) =? 0 then Some (Z.pos m / 2 ^ (- e))
               else None in
      option_map (fun z => if s then - z else z) n
  | _ => None
  end.

(** ** Decimal input

    [round_ratio s n d] is [(-1)^s * n / d] rounded to nearest, ties to even. *)
Definition round_ratio (s : bool) (n d : Z) : f64 :=
  if n =? 0 then S754_zero s else
  let sh := Z.max 0 (60 + Z.log2 d - Z.log2 n) in
  let q := (n * 2 ^ sh) / d in
  let r := (n * 2 ^ sh) mod d in
  let loc := if r =? 0 then loc_Exact else loc_Inexact (Z.compare (2 * r) d) in
  binary_round_aux 53 1024 s q (- sh) loc.

(** [round_dec s d e nd] is [(-1)^s * d * 10^e], [d] written with [nd] digits;
    exponents far outside the range overflow or vanish without computing the
    power. *)
Definition round_dec (s : bool) (d e nd : Z) : f64 :=
  if d =? 0 then S754_zero s
  else if 400 <? e then S754_infinity s
  else if e + nd <? -400 then S754_zero s
  else if 0 <=? e then round_ratio s (d * 10 ^ e) 1
  else round_ratio s d (10 ^ (- e)).

Fixpoint take_digits (s : Str) : Str * Str :=
  match s with
  | b :: s' =>
      match digit_val b with
      | Some _ => let '(d, r) := take_digits s' in (b :: d, r)
      | None => ([], s)
      end
  | [] => ([], [])
  end.

Definition digits_value (s : Str) : Z :=
  match parse_digits s 0 with Some z => z | None => 0 end.

(** The exponent suffix: nothing, or [e|E] with an optional sign and digits. *)
Definition parse_exponent (s : Str) : option Z :=
  match s with
  | [] => Some 0
  | b :: s' =>
      if bool_decide (b = x65) || bool_decide (b = x45) then
        match s' with
        | x2d :: s'' => option_map Z.opp (parse_nonempty_digits s'')
        | x2b :: s'' => parse_nonempty_digits s''
        | _ => parse_nonempty_digits s'
        end
      else None
  end.

Definition parse_unsigned_f64 (sign : bool) (s : Str) : option f64 :=
  if eq_ignore_ascii_case s (bs "inf") || eq_ignore_ascii_case s (bs "infinity")
  then Some (S754_infinity sign)
  else if eq_ignore_ascii_case s (bs "nan") then Some S754_nan
  else
    let '(ip, r) := take_digits s in
    let '(fp, r) := match r with
                    | x2e :: r' => take_digits r'
                    | _ => ([], r)
                    end in
    match ip ++ fp with
    | [] => None
    | ds =>
        match parse_exponent r with
        | Some e => Some (round_dec sign (digits_value ds) (e - len fp) (len ds))
        | None => None
        end
    end.

(** [s.parse::<f64>()]. *)
Definition parse_f64 (s : Str) : option f64 :=
  match s with
  | x2d :: s' => parse_unsigned_f64 true s'
  | x2b :: s' => parse_unsigned_f64 false s'
  | _ => parse_unsigned_f64 false s
  end.

(** ** Decimal output *)

(** [floor(log10(n/d)) + 1] by bounded search from an estimate. *)
Fixpoint dec_exponent (fuel : nat) (n d k : Z) : Z :=
  match fuel with
  | O => k
  | S f =>
      let ge := if 0 <=? k then d * 10 ^ k <=? n else d <=? n * 10 ^ (- k) in
      if ge then dec_exponent f n d (k + 1)
      else let lt := if 0 <=? k - 1 then n <? d * 10 ^ (k - 1) else n * 10 ^ (1 - k) <? d in
           if lt then dec_exponent f n d (k - 1) else k
  end.

(** The shortest digits [d] (with exponent [e], value [d * 10^e]) that read
    back as [v], trying 1, 2, ... 17 significant digits. *)
Fixpoint shortest_digits (fuel : nat) (v : f64) (n d k prec : Z) : Z * Z :=
  let e := k - prec in
  let q := if 0 <=? e then n / (d * 10 ^ e) else n * 10 ^ (- e) / d in
  let twice_r := if 0 <=? e then 2 * (n - q * (d * 10 ^ e)) else 2 * (n * 10 ^ (- e) - q * d) in
  let unit := if 0 <=? e then d * 10 ^ e else d in
  let reads c := bool_decide (round_dec false c e 17 = v) in
  let near_lo := twice_r <=? unit in
  match fuel with
  | O => (q, e)
  | S f =>
      if reads q && (near_lo || negb (reads (q + 1))) then (q, e)
      else if reads (q + 1) then (q + 1, e)
      else shortest_digits f v n d k (prec + 1)
  end.

Definition repeat_zero (n : Z) : Str := repeat x30 (Z.to_nat n).

Definition place_point (digits : Str) (e : Z) : Str :=
  if 0 <=? e then digits ++ repeat_zero e
  else
    let l := len digits in
    if - e <? l then take (Z.to_nat (l + e)) digits ++ x2e :: drop (Z.to_nat (l + e)) digits
    else x30 :: x2e :: repeat_zero (- e - l) ++ digits.

Definition display_finite (m : positive) (e : Z) : Str :=
  let n := if 0 <=? e then Z.pos m * 2 ^ e else Z.pos m in
  let d := if 0 <=? e then 1 else 2 ^ (- e) in
  let k0 := (Z.log2 n - Z.log2 d) * 30103 / 100000 in
  let k := dec_exponent 5 n d k0 in
  let '(ds, ex) := shortest_digits 16 (S754_finite false m e) n d k 1 in
  place_point (print_nonneg ds) ex.

(** [format!("{v}")]. *)
Definition display_f64 (v : f64) : Str :=
  match v with
  | S754_nan => bs "NaN"
  | S754_infinity s => if s then bs "-inf" else bs "inf"
  | S754_zero s => if s then bs "-0" else bs "0"
  | S754_finite s m e =>
      if s then x2d :: display_finite m e else display_finite m e
  end.

(** ** Bits *)

(** [f64::from_le_bytes] of eight bytes, given their integer value. *)
Definition f64_from_bits (b : Z) : f64 :=
  let s := Z.testbit b 63 in
  let ex := Z.land (Z.shiftr b 52) 2047 in
  let fr := Z.land b (2 ^ 52 - 1) in
  if ex =? 0 then
    match fr with
    | Z.pos m => S754_finite s m (-1074)
    | _ => S754_zero s
    end
  else if ex =? 2047 then
    if fr =? 0 then S754_infinity s else S754_nan
  else
    match fr + 2 ^ 52 with
    | Z.pos m => S754_finite s m (ex - 1075)
    | _ => S754_zero s
    end.

(** A literal of the source. *)
Definition f64_lit (s : string) : f64 := match parse_f64 (bs s) with Some v => v | None => f64_nan end.
Arguments f64_lit s%_string_scope.

(** Test vectors. *)
Example round_halves :
  map (fun v => display_f64 (f64_round v))
    [f64_lit "2.5"; f64_lit "-2.5"; f64_lit "0.49"; f64_lit "-0.3"; f64_lit "1e22"]
  = [bs "3"; bs "-3"; bs "0"; bs "-0"; bs "10000000000000000000000"].
Proof. reflexivity. Qed.
Example parse_f64_half : parse_f64 (bs "-1.5e0") = Some (S754_finite true 6755399441055744 (-52)).
Proof. reflexivity. Qed.
Example display_f64_tenth : option_map display_f64 (parse_f64 (bs "0.1")) = Some (bs "0.1").
Proof. reflexivity. Qed.
Example display_f64_pi : option_map display_f64 (parse_f64 (bs "3.141592653589793")) = Some (bs "3.141592653589793").
Proof. reflexivity. Qed.
Example display_f64_small : option_map display_f64 (parse_f64 (bs "1.25E-7")) = Some (bs "0.000000125").
Proof. reflexivity. Qed.
Example add_f64_tenths :
  option_map display_f64 (match parse_f64 (bs "0.1"), parse_f64 (bs "0.2") with
                          | Some a, Some b => Some (f64_add a b) | _, _ => None end)
  = Some (bs "0.30000000000000004").
Proof. reflexivity. Qed.
