(* ===== verification/Stream.v ===== *)
(** * Stream

    src/stream.rs: stream ids, entries and values, consumer groups, id and
    bound parsing, XADD id resolution and trimming. *)

From S2P Require Import Prelude.
From S2P Require Import Text.
From S2P Require Import BTree.

(** ** Ids *)

Record StreamId := { ms : Z; seq : Z }.

#[export] Instance StreamId_eq_dec : EqDecision StreamId.
Proof. solve_decision. Defined.

Definition StreamId_MIN : StreamId := {| ms := 0; seq := 0 |}.
Definition StreamId_MAX : StreamId := {| ms := u64_max; seq := u64_max |}.

(** Both halves are [u64]s. *)
Definition sid_wf (i : StreamId) : Prop := 0 <= ms i <= u64_max /\ 0 <= seq i <= u64_max.

Definition invalid_id : RustyAntError :=
  Parse "Invalid stream ID specified as stream command argument".

Definition StreamId_parse (s : Str) : Result StreamId :=
  let '(ms_part, seq_part) :=
    match split_once x2d s with
    | Some (a, b) => (a, Some b)
    | None => (s, None)
    end in
  let? m := ok_or (parse_u64 ms_part) invalid_id in
  let? q := match seq_part with
            | Some b => ok_or (parse_u64 b) invalid_id
            | None => Ok 0
            end in
  Ok {| ms := m; seq := q |}.

Definition StreamId_next (i : StreamId) : StreamId :=
  if seq i =? u64_max then {| ms := wrap_u64 (ms i + 1); seq := 0 |}
  else {| ms := ms i; seq := seq i + 1 |}.

(** [Display]: ["{ms}-{seq}"]. *)
Definition StreamId_display (i : StreamId) : Str :=
  print_Z (ms i) ++ x2d :: print_Z (seq i).

Definition StreamId_cmp (a b : StreamId) : comparison :=
  match Z.compare (ms a) (ms b) with
  | Eq => Z.compare (seq a) (seq b)
  | c => c
  end.

Lemma StreamId_cmp_eq a b : StreamId_cmp a b = Eq <-> a = b.
Proof.
  destruct a as [m1 s1], b as [m2 s2]. unfold StreamId_cmp; cbn.
  destruct (Z.compare_spec m1 m2) as [->| |]; [|naive_solver lia|naive_solver lia].
  rewrite Z.compare_eq_iff. naive_solver.
Qed.
Lemma StreamId_cmp_antisym a b : StreamId_cmp b a = CompOpp (StreamId_cmp a b).
Proof.
  unfold StreamId_cmp. rewrite (Z.compare_antisym (ms a)), (Z.compare_antisym (seq a)).
  by destruct (ms a ?= ms b).
Qed.
Lemma StreamId_lt_spec a b :
  StreamId_cmp a b = Lt <-> ms a < ms b \/ (ms a = ms b /\ seq a < seq b).
Proof.
  unfold StreamId_cmp. destruct (Z.compare_spec (ms a) (ms b)).
  - rewrite Z.compare_lt_iff. lia.
  - naive_solver lia.
  - split; [done|lia].
Qed.
Lemma StreamId_cmp_trans a b c :
  StreamId_cmp a b = Lt -> StreamId_cmp b c = Lt -> StreamId_cmp a c = Lt.
Proof. rewrite !StreamId_lt_spec. lia. Qed.

#[export] Instance StreamId_ord : OrdKey StreamId := {|
  kcmp := StreamId_cmp;
  kcmp_eq := StreamId_cmp_eq;
  kcmp_antisym := StreamId_cmp_antisym;
  kcmp_trans := StreamId_cmp_trans;
|}.

(** ** Values *)

Record StreamEntry := { se_id : StreamId; se_fields : list (Str * Str) }.

Record Consumer := { seen_ms : Z }.
Definition Consumer_default : Consumer := {| seen_ms := 0 |}.

Record PendingEntry := {
  pe_consumer : Str;
  pe_delivery_time_ms : Z;
  pe_delivery_count : Z;
}.

Record ConsumerGroup := {
  last_delivered_id : StreamId;
  consumers : btree Str Consumer;
  pel : btree StreamId PendingEntry;
}.

Record StreamValue := {
  entries : list StreamEntry;
  last_generated_id : StreamId;
  max_deleted_entry_id : StreamId;
  entries_added : Z;
  groups : btree Str ConsumerGroup;
}.

Definition StreamValue_default : StreamValue := {|
  entries := [];
  last_generated_id := StreamId_MIN;
  max_deleted_entry_id := StreamId_MIN;
  entries_added := 0;
  groups := [];
|}.

#[export] Instance StreamEntry_eq_dec : EqDecision StreamEntry.
Proof. solve_decision. Defined.
#[export] Instance Consumer_eq_dec : EqDecision Consumer.
Proof. solve_decision. Defined.
#[export] Instance PendingEntry_eq_dec : EqDecision PendingEntry.
Proof. solve_decision. Defined.
#[export] Instance ConsumerGroup_eq_dec : EqDecision ConsumerGroup.
Proof. solve_decision. Defined.
#[export] Instance StreamValue_eq_dec : EqDecision StreamValue.
Proof. solve_decision. Defined.

(** Field updates. *)
Definition with_entries (s : StreamValue) (es : list StreamEntry) : StreamValue :=
  {| entries := es; last_generated_id := last_generated_id s;
     max_deleted_entry_id := max_deleted_entry_id s;
     entries_added := entries_added s; groups := groups s |}.
Definition with_max_deleted (s : StreamValue) (i : StreamId) : StreamValue :=
  {| entries := entries s; last_generated_id := last_generated_id s;
     max_deleted_entry_id := i;
     entries_added := entries_added s; groups := groups s |}.
Definition with_groups (s : StreamValue) (g : btree Str ConsumerGroup) : StreamValue :=
  {| entries := entries s; last_generated_id := last_generated_id s;
     max_deleted_entry_id := max_deleted_entry_id s;
     entries_added := entries_added s; groups := g |}.
Definition with_pel (g : ConsumerGroup) (p : btree StreamId PendingEntry) : ConsumerGroup :=
  {| last_delivered_id := last_delivered_id g; consumers := consumers g; pel := p |}.
Definition with_consumers (g : ConsumerGroup) (c : btree Str Consumer) : ConsumerGroup :=
  {| last_delivered_id := last_delivered_id g; consumers := c; pel := pel g |}.
Definition with_last_delivered (g : ConsumerGroup) (i : StreamId) : ConsumerGroup :=
  {| last_delivered_id := i; consumers := consumers g; pel := pel g |}.

(** ** Command payloads *)

Inductive GroupStartId := GS_Concrete (i : StreamId) | GS_Latest.

Definition GroupStartId_parse (s : Str) : Result GroupStartId :=
  if str_eqb s (bs "$") then Ok GS_Latest
  else let? i := StreamId_parse s in Ok (GS_Concrete i).

Inductive XGroupOp :=
| XG_Create (group : Str) (start_id : GroupStartId) (mkstream : bool)
| XG_SetId (group : Str) (start_id : GroupStartId)
| XG_Destroy (group : Str)
| XG_CreateConsumer (group consumer : Str)
| XG_DelConsumer (group consumer : Str).

Inductive XReadGroupId := XR_NewEntries | XR_Pending (i : StreamId).

Definition XReadGroupId_parse (s : Str) : Result XReadGroupId :=
  if str_eqb s (bs ">") then Ok XR_NewEntries
  else let? i := StreamId_parse s in Ok (XR_Pending i).

Record XClaimOpts := {
  idle_ms : option Z;
  time_ms : option Z;
  retry_count : option Z;
  force : bool;
  just_id : bool;
  xc_now_ms : Z;
}.

Record XClaimResult := { xc_id : StreamId; xc_fields : option (list (Str * Str)) }.

Record XPendingSummary := {
  xp_count : Z;
  xp_min : StreamId;
  xp_max : StreamId;
  xp_per_consumer : list (Str * Z);
}.

Record XPendingDetailRow := {
  xd_id : StreamId;
  xd_consumer : Str;
  xd_idle_ms : Z;
  xd_delivery_count : Z;
}.

Record XAutoClaimResult := {
  next_cursor : StreamId;
  claimed : list XClaimResult;
  deleted_ids : list StreamId;
}.

Record XInfoGroup := {
  xg_name : Str;
  xg_consumers : Z;
  xg_pending : Z;
  xg_last_delivered_id : StreamId;
}.

Record XInfoConsumer := { xi_name : Str; xi_pending : Z; xi_idle_ms : Z }.

Inductive AddIdSpec := Auto | PartialMs (m : Z) | Concrete (i : StreamId).

Definition AddIdSpec_parse (s : Str) : Result AddIdSpec :=
  if str_eqb s (bs "*") then Ok Auto
  else match split_once x2d s with
  | Some (ms_part, seq_part) =>
      let? m := ok_or (parse_u64 ms_part) invalid_id in
      if str_eqb seq_part (bs "*") then Ok (PartialMs m)
      else let? q := ok_or (parse_u64 seq_part) invalid_id in
           Ok (Concrete {| ms := m; seq := q |})
  | None =>
      let? m := ok_or (parse_u64 s) invalid_id in
      Ok (Concrete {| ms := m; seq := 0 |})
  end.

Inductive RangeId := RI_MinInf | RI_MaxInf | RI_Inclusive (i : StreamId) | RI_Exclusive (i : StreamId).

Definition RangeId_parse (s : Str) : Result RangeId :=
  if str_eqb s (bs "-") then Ok RI_MinInf
  else if str_eqb s (bs "+") then Ok RI_MaxInf
  else match strip_prefix_byte x28 s with
       | Some rest => let? i := StreamId_parse rest in Ok (RI_Exclusive i)
       | None => let? i := StreamId_parse s in Ok (RI_Inclusive i)
       end.

Definition RangeId_ge_min (r : RangeId) (i : StreamId) : bool :=
  match r with
  | RI_MinInf => true
  | RI_MaxInf => false
  | RI_Inclusive bound => kleb bound i
  | RI_Exclusive bound => kltb bound i
  end.

Definition RangeId_le_max (r : RangeId) (i : StreamId) : bool :=
  match r with
  | RI_MinInf => false
  | RI_MaxInf => true
  | RI_Inclusive bound => kleb i bound
  | RI_Exclusive bound => kltb i bound
  end.

(** ** XADD id resolution *)

Definition id_too_small : RustyAntError :=
  Parse "The ID specified in XADD is equal or smaller than the target stream top item".

Definition resolve_add_id (spec : AddIdSpec) (last : StreamId) (now_ms : Z) : Result StreamId :=
  match spec with
  | Auto =>
      if ms last <? now_ms then Ok {| ms := now_ms; seq := 0 |}
      else Ok (StreamId_next last)
  | PartialMs m =>
      if m <? ms last then Err id_too_small
      else if m =? ms last then Ok (StreamId_next last)
      else Ok {| ms := m; seq := 0 |}
  | Concrete i =>
      if kleb i last then Err id_too_small else Ok i
  end.

(** ** Trimming *)

Inductive TrimBound := TB_MaxLen (n : Z) | TB_MinId (i : StreamId).

Definition syntax_error {A} : Result A := Err (Parse "syntax error").
Definition not_an_integer : RustyAntError := Parse "value is not an integer or out of range".

(** [tokens.get(i)]. *)
Definition get_tok (tokens : list Str) (i : nat) : option Str := tokens !! i.

Definition parse_trim (tokens : list Str) : Result (TrimBound * option Z * Z) :=
  match tokens with
  | [] => syntax_error
  | first :: _ =>
      let keyword := to_ascii_uppercase first in
      if negb (str_eqb keyword (bs "MAXLEN") || str_eqb keyword (bs "MINID")) then syntax_error
      else
        let consumed :=
          match get_tok tokens 1 with
          | Some t => if str_eqb t (bs "~") || str_eqb t (bs "=") then 2%nat else 1%nat
          | None => 1%nat
          end in
        let? threshold_tok := ok_or (get_tok tokens consumed) (Parse "syntax error") in
        let consumed := S consumed in
        let? bound :=
          if str_eqb keyword (bs "MAXLEN") then
            let? n := ok_or (parse_i64 threshold_tok) not_an_integer in
            if n <? 0 then Err (Parse "MAXLEN must be non-negative")
            else Ok (TB_MaxLen (usize_of_i64 n 0))
          else let? i := StreamId_parse threshold_tok in Ok (TB_MinId i) in
        let has_limit :=
          match get_tok tokens consumed with
          | Some t => eq_ignore_ascii_case t (bs "LIMIT")
          | None => false
          end in
        if has_limit then
          let? n_tok := ok_or (get_tok tokens (S consumed)) (Parse "syntax error") in
          let? n := ok_or (parse_i64 n_tok) not_an_integer in
          if n <? 0 then Err (Parse "LIMIT must be non-negative")
          else Ok (bound, Some (usize_of_i64 n 0), Z.of_nat (consumed + 2))
        else Ok (bound, None, Z.of_nat consumed)
  end.

(** [entries.partition_point(|e| e.id < min)] on id-sorted entries: the length
    of the prefix below [min]. *)
Fixpoint partition_point (min : StreamId) (es : list StreamEntry) : Z :=
  match es with
  | [] => 0
  | e :: es' => if kltb (se_id e) min then 1 + partition_point min es' else 0
  end.

Definition trim_in_place (stream : StreamValue) (bound : TrimBound) (limit : option Z)
    : StreamValue * Z :=
  let target_start_idx :=
    match bound with
    | TB_MaxLen max => Z.max 0 (len (entries stream) - max)
    | TB_MinId min => partition_point min (entries stream)
    end in
  let to_remove :=
    match limit with
    | Some cap => Z.min target_start_idx cap
    | None => target_start_idx
    end in
  if to_remove =? 0 then (stream, 0)
  else
    let removed := take (Z.to_nat to_remove) (entries stream) in
    let stream := with_entries stream (drop (Z.to_nat to_remove) (entries stream)) in
    let stream :=
      match last removed with
      | Some e => if kltb (max_deleted_entry_id stream) (se_id e)
                  then with_max_deleted stream (se_id e) else stream
      | None => stream
      end in
    (stream, len removed).

(** ** Well-formedness *)

Definition entry_ids (es : list StreamEntry) : list StreamId := map se_id es.

(** Ids strictly increasing along the log. *)
Inductive ids_sorted : list StreamId -> Prop :=
| ids_sorted_nil : ids_sorted []
| ids_sorted_cons i l : Forall (klt i) l -> ids_sorted l -> ids_sorted (i :: l).

Record group_wf (g : ConsumerGroup) : Prop := {
  gw_consumers : bt_wf (consumers g);
  gw_pel : bt_wf (pel g);
}.

(** The trees of a stream value are well-formed. *)
Definition stream_shape (s : StreamValue) : Prop :=
  bt_wf (groups s) /\ Forall (fun ng => group_wf (snd ng)) (groups s).

Record stream_wf (s : StreamValue) : Prop := {
  sw_sorted : ids_sorted (entry_ids (entries s));
  sw_bound : Forall (fun i => kle i (last_generated_id s)) (entry_ids (entries s));
  sw_groups : bt_wf (groups s);
  sw_group : Forall (fun ng => group_wf (snd ng)) (groups s);
}.

Lemma stream_wf_default : stream_wf StreamValue_default.
Proof. split; cbn; constructor. Qed.

Lemma group_wf_default i : group_wf {| last_delivered_id := i; consumers := []; pel := [] |}.
Proof. split; constructor. Qed.

Lemma ids_sorted_app l k :
  ids_sorted (l ++ k) <->
  ids_sorted l /\ ids_sorted k /\ Forall (fun i => Forall (klt i) k) l.
Proof.
  induction l as [|i l IH]; cbn.
  - split; [|tauto]. intros. repeat split; try done; constructor.
  - split.
    + inversion 1 as [|? ? Hf Hs]; subst. apply IH in Hs as (H1 & H2 & H3).
      apply Forall_app in Hf as [Hf1 Hf2]. repeat split; try done; by constructor.
    + intros (H1 & H2 & H3). inversion H1; subst. apply Forall_cons in H3 as [? ?].
      constructor; [by apply Forall_app|]. by apply IH.
Qed.

Lemma ids_sorted_snoc l i :
  ids_sorted l -> Forall (fun j => klt j i) l -> ids_sorted (l ++ [i]).
Proof.
  intros Hl Hi. apply ids_sorted_app. repeat split; [done|repeat constructor|].
  eapply Forall_impl; [exact Hi|]. intros j Hj. by repeat constructor.
Qed.

Lemma ids_sorted_drop n l : ids_sorted l -> ids_sorted (drop n l).
Proof. intros H. rewrite <- (take_drop n l) in H. by apply ids_sorted_app in H as (_ & ? & _). Qed.

Lemma ids_sorted_filter (f : StreamEntry -> bool) es :
  ids_sorted (entry_ids es) -> ids_sorted (entry_ids (List.filter f es)).
Proof.
  induction es as [|e es IH]; cbn; [done|]. inversion 1 as [|? ? Hf Hs]; subst.
  destruct (f e); cbn; [|auto]. constructor; [|auto].
  unfold entry_ids in *. rewrite List.Forall_map in *.
  rewrite List.Forall_forall in *. intros x Hx. apply Hf. by apply List.filter_In in Hx as [? _].
Qed.

Lemma entry_ids_drop n es : entry_ids (drop n es) = drop n (entry_ids es).
Proof. unfold entry_ids. revert es. induction n; intros [|e es]; cbn; auto. Qed.
Lemma entry_ids_app l k : entry_ids (l ++ k) = entry_ids l ++ entry_ids k.
Proof. apply map_app. Qed.

Lemma Forall_drop {A} (P : A -> Prop) n l : Forall P l -> Forall P (drop n l).
Proof. intros H. rewrite <- (take_drop n l) in H. by apply Forall_app in H as [_ ?]. Qed.

Lemma Forall_filter {A} (P : A -> Prop) f l : Forall P l -> Forall P (List.filter f l).
Proof.
  rewrite !List.Forall_forall. intros H x Hx. apply H. by apply List.filter_In in Hx as [? _].
Qed.

(** ** Properties *)

Lemma StreamId_next_gt i :
  sid_wf i -> i <> StreamId_MAX -> klt i (StreamId_next i).
Proof.
  intros [Hm Hs] Hne. unfold klt; cbn. rewrite StreamId_lt_spec. unfold StreamId_next.
  destruct (Z.eqb_spec (seq i) u64_max) as [E|E]; cbn [ms seq]; [|lia].
  left. unfold wrap_u64, wrap_u. rewrite Z.mod_small; [lia|].
  assert (ms i <> u64_max).
  { intros E2. apply Hne. destruct i; cbn in *. by subst. }
  unfold u64_max in *. lia.
Qed.

Lemma StreamId_next_wf i : sid_wf i -> sid_wf (StreamId_next i).
Proof.
  unfold sid_wf, StreamId_next. intros Hi. destruct (Z.eqb_spec (seq i) u64_max); cbn [ms seq].
  - pose proof (wrap_u_range 64 (ms i + 1) ltac:(lia)). unfold wrap_u64, u64_max in *. lia.
  - lia.
Qed.

(** The id XADD stores is strictly above every id generated before,
    whichever of [*], [<ms>-*] or an explicit id the caller gave, as long as the
    stream has not reached the very last id [u64::MAX-u64::MAX]. *)
Lemma resolve_add_id_monotone spec last now i :
  sid_wf last -> last <> StreamId_MAX ->
  resolve_add_id spec last now = Ok i -> klt last i.
Proof.
  intros Hwf Hmax. unfold resolve_add_id. destruct spec as [|m|c].
  - destruct (Z.ltb_spec (ms last) now); intros [= <-]; [|by apply StreamId_next_gt].
    unfold klt; cbn. rewrite StreamId_lt_spec; cbn. lia.
  - destruct (Z.ltb_spec m (ms last)); [done|].
    destruct (Z.eqb_spec m (ms last)); intros [= <-]; [by apply StreamId_next_gt|].
    unfold klt; cbn. rewrite StreamId_lt_spec; cbn. lia.
  - destruct (kleb c last) eqn:E; [done|]. intros [= <-].
    destruct (klt_total last c) as [?|[->|Hc]]; [done| |].
    + assert (kleb c c = true) by (apply kleb_le, kle_refl). congruence.
    + assert (kleb c last = true) by (by apply kleb_le, klt_kle). congruence.
Qed.

(** [StreamId::parse] reads back what [Display] prints. *)
Theorem StreamId_parse_display i : sid_wf i -> StreamId_parse (StreamId_display i) = Ok i.
Proof.
  intros [Hm Hs]. unfold StreamId_parse, StreamId_display.
  assert (Hp : print_Z (ms i) = print_nonneg (ms i)).
  { unfold print_Z. by destruct (Z.ltb_spec (ms i) 0); [lia|]. }
  rewrite split_once_app by (rewrite Hp; by apply print_nonneg_no_byte).
  rewrite !parse_print_u64 by (unfold in_u64, in_u, u64_max in *; lia).
  by destruct i.
Qed.

Lemma partition_point_spec min es :
  ids_sorted (entry_ids es) ->
  0 <= partition_point min es <= len es /\
  Forall (fun e => klt (se_id e) min) (take (Z.to_nat (partition_point min es)) es) /\
  Forall (fun e => kle min (se_id e)) (drop (Z.to_nat (partition_point min es)) es).
Proof.
  induction es as [|e es IH]; cbn [partition_point entry_ids map].
  { intros _. split; [unfold len; cbn; lia|]. split; constructor. }
  inversion 1 as [|? ? Hf Hs]; subst. fold (entry_ids es) in *.
  destruct (kltb (se_id e) min) eqn:E.
  - specialize (IH Hs) as (H1 & H2 & H3). rewrite Z2Nat.inj_add by lia.
    rewrite len_cons. split; [lia|]. cbn [Nat.add Z.to_nat Pos.to_nat]. cbn [take drop].
    split; [|done]. constructor; [by apply kltb_lt|done].
  - assert (Hle : kle min (se_id e)).
    { apply not_klt. intros Hlt. apply kltb_lt in Hlt. congruence. }
    split; [rewrite len_cons; pose proof (len_nonneg es); lia|]. cbn. split; [constructor|].
    constructor; [done|]. unfold entry_ids in Hf. rewrite List.Forall_map in Hf.
    eapply Forall_impl; [exact Hf|]. intros e' He'. by apply klt_kle, (kle_klt_trans _ (se_id e)).
Qed.

(** The number of entries a trim asks for, before [LIMIT]. *)
Definition trim_target (s : StreamValue) (bound : TrimBound) : Z :=
  match bound with
  | TB_MaxLen max => Z.max 0 (len (entries s) - max)
  | TB_MinId min => partition_point min (entries s)
  end.

Lemma trim_in_place_entries s b l :
  exists n, entries (fst (trim_in_place s b l)) = drop n (entries s) /\
    last_generated_id (fst (trim_in_place s b l)) = last_generated_id s /\
    groups (fst (trim_in_place s b l)) = groups s.
Proof.
  unfold trim_in_place. cbv zeta. destruct (_ =? 0); [by exists 0%nat|].
  eexists. cbn [fst]. destruct (last _) as [e|]; [|done].
  destruct (kltb _ _); done.
Qed.

Lemma stream_wf_trim s b l : stream_wf s -> stream_wf (fst (trim_in_place s b l)).
Proof.
  intros [H1 H2 H3 H4]. destruct (trim_in_place_entries s b l) as (n & E1 & E2 & E3).
  split; rewrite ?E1, ?E2, ?E3; try done; rewrite entry_ids_drop.
  - by apply ids_sorted_drop.
  - by apply Forall_drop.
Qed.

(** A trim removes exactly the first [n] entries and reports [n], where
    [n] is the number asked for capped by [LIMIT]: with no limit, [MAXLEN max]
    leaves the newest [max] entries and [MINID min] leaves exactly the entries
    whose id is at least [min].  The result is a well-formed stream. *)
Theorem trim_in_place_spec s bound limit :
  stream_wf s ->
  (match bound with TB_MaxLen max => 0 <= max | TB_MinId _ => True end) ->
  (match limit with Some cap => 0 <= cap | None => True end) ->
  let '(s', removed) := trim_in_place s bound limit in
  removed = match limit with
            | Some cap => Z.min (trim_target s bound) cap
            | None => trim_target s bound
            end /\
  entries s' = drop (Z.to_nat removed) (entries s) /\
  stream_wf s' /\
  match bound, limit with
  | TB_MaxLen max, None => len (entries s') = Z.min max (len (entries s))
  | TB_MinId min, None => forall e, In e (entries s') <-> In e (entries s) /\ kle min (se_id e)
  | _, _ => True
  end.
Proof.
  intros Hwf Hb Hl. pose proof (stream_wf_trim s bound limit Hwf) as Hwf'.
  pose proof (sw_sorted s Hwf) as Hsort.
  assert (Ht : 0 <= trim_target s bound <= len (entries s)).
  { destruct bound as [max|min]; cbn; [pose proof (len_nonneg (entries s)); lia|].
    by apply partition_point_spec. }
  set (n := match limit with Some cap => Z.min (trim_target s bound) cap
            | None => trim_target s bound end).
  assert (Hn : 0 <= n <= len (entries s)) by (subst n; destruct limit; lia).
  assert (E : snd (trim_in_place s bound limit) = n /\
              entries (fst (trim_in_place s bound limit)) = drop (Z.to_nat n) (entries s)).
  { unfold trim_in_place. fold (trim_target s bound). fold n.
    destruct (Z.eqb_spec n 0) as [->|]; [done|]. cbn [fst snd]. split.
    - unfold len in *. rewrite length_take. lia.
    - destruct (last _) as [e|]; [|done]. by destruct (kltb _ _). }
  destruct (trim_in_place s bound limit) as [s' removed]. cbn [fst snd] in *.
  destruct E as [-> E]. split; [done|]. split; [done|]. split; [done|].
  destruct bound as [max|min], limit; try done.
  - subst n. cbn [trim_target] in *. rewrite E. unfold len in *. rewrite length_drop. lia.
  - intros e. subst n. rewrite E. cbn [trim_target].
    destruct (partition_point_spec min (entries s) Hsort) as (_ & Hlo & Hhi).
    rewrite List.Forall_forall in Hlo, Hhi. split.
    + intros Hin. split; [|by apply Hhi].
      rewrite <- (take_drop (Z.to_nat (partition_point min (entries s))) (entries s)).
      apply in_or_app. by right.
    + intros [Hin Hmin].
      rewrite <- (take_drop (Z.to_nat (partition_point min (entries s))) (entries s)) in Hin.
      apply in_app_or in Hin as [Hin|Hin]; [|done]. apply Hlo in Hin.
      exfalso. eapply klt_irrefl, (klt_kle_trans _ min); eauto.
Qed.

Definition sample_id (n : Z) : StreamId := {| ms := n; seq := 0 |}.
Definition sample_entry (n : Z) : StreamEntry := {| se_id := sample_id n; se_fields := [(bs "f", bs "v")] |}.
Definition sample_group : ConsumerGroup := {|
  last_delivered_id := sample_id 1;
  consumers := [];
  pel := [(sample_id 1, {| pe_consumer := bs "alice"; pe_delivery_time_ms := 10; pe_delivery_count := 1 |})];
|}.
Definition sample_stream : StreamValue := {|
  entries := [sample_entry 1; sample_entry 2; sample_entry 3];
  last_generated_id := sample_id 3;
  max_deleted_entry_id := StreamId_MIN;
  entries_added := 3;
  groups := [(bs "g", sample_group)];
|}.

Lemma sample_stream_wf : stream_wf sample_stream.
Proof.
  split; cbn.
  - repeat (constructor; [repeat constructor|]). constructor.
  - repeat (constructor; [by vm_compute|]). constructor.
  - repeat constructor.
  - constructor; [|constructor]. split; cbn; repeat constructor.
Qed.

Lemma trim_in_place_spec_witness :
  let '(s', removed) := trim_in_place sample_stream (TB_MaxLen 1) None in
  removed = 2 /\ entries s' = [sample_entry 3] /\ stream_wf s'.
Proof.
  pose proof (trim_in_place_spec sample_stream (TB_MaxLen 1) None sample_stream_wf Z.le_0_1 I) as H.
  destruct (trim_in_place sample_stream (TB_MaxLen 1) None) as [s' removed]. destruct H as (-> & He & Hwf & _).
  split; [reflexivity|]. split; [rewrite He; reflexivity|exact Hwf].
Defined.
