(* ===== verification/Hll.v ===== *)
(** * Hll

    src/hll.rs: dense HyperLogLog blobs - the packed 6-bit registers, the
    MurmurHash64A element hash, [add], [merge_into] and the cardinality
    estimate.  Rust leaves [f64::ln] to the platform's libm, so the estimate
    takes it as a parameter; the rest of its arithmetic is IEEE. *)

From S2P Require Import Prelude.
From S2P Require Import Text.
From S2P Require Import F64.

Definition HLL_P : Z := 14.
Definition HLL_REGISTERS : Z := 16384.
Definition HLL_REGISTER_BITS : Z := 6.
Definition HLL_REGISTERS_BYTES : Z := 12288.
Definition HLL_HEADER_BYTES : Z := 16.
Definition HLL_DENSE_BYTES : Z := HLL_HEADER_BYTES + HLL_REGISTERS_BYTES.
Definition HLL_MAGIC : list byte := bs "HYLL".
Definition HLL_DENSE : Z := 0.
Definition MURMUR_SEED : Z := 0xadc83b19.

(** Indexing a byte buffer: [buf.get(i).unwrap_or(&0)], widened. *)
Definition rd (buf : list byte) (i : Z) : Z :=
  match buf !! Z.to_nat i with Some b => b2z b | None => 0 end.
(** [buf[i] = v as u8] for [i] in range. *)
Definition wr (buf : list byte) (i v : Z) : list byte := <[Z.to_nat i := z2b v]> buf.

Definition is_hll (data : list byte) : bool :=
  (len data =? HLL_DENSE_BYTES) && bool_decide (take 4 data = HLL_MAGIC) && (rd data 4 =? HLL_DENSE).

Definition empty_dense : list byte :=
  HLL_MAGIC ++ repeat x00 (Z.to_nat (HLL_DENSE_BYTES - 4)).

(** ** MurmurHash64A *)

Definition M64 : Z := 0xc6a4a7935bd1e995.
Definition mul64 (a b : Z) : Z := wrap_u64 (a * b).
Definition xorshr (a r : Z) : Z := Z.lxor a (Z.shiftr a r).

(** [data.chunks_exact(8)] with its remainder as the tail. *)
Fixpoint murmur_chunks (fuel : nat) (data : list byte) (h : Z) : Z * list byte :=
  match fuel with
  | O => (h, data)
  | S f =>
      if len data <? 8 then (h, data)
      else
        let k := from_le_bytes (take 8 data) in
        let k := mul64 k M64 in
        let k := xorshr k 47 in
        let k := mul64 k M64 in
        let h := Z.lxor h k in
        let h := mul64 h M64 in
        murmur_chunks f (drop 8 data) h
  end.

(** The tail bytes, last first, byte [i] shifted by [8 i]; the multiplication
    runs when [i == 0]. *)
Definition murmur_tail (tail : list byte) (h : Z) : Z :=
  fold_left (fun h '(i, b) =>
    let h := Z.lxor h (Z.shiftl (b2z b) (Z.of_nat i * 8)) in
    if Nat.eqb i 0 then mul64 h M64 else h)
    (rev (combine (List.seq 0 (length tail)) tail)) h.

Definition murmur64a (data : list byte) (seed : Z) : Z :=
  let h := Z.lxor seed (mul64 (len data) M64) in
  let '(h, tail) := murmur_chunks (length data) data h in
  let h := murmur_tail tail h in
  let h := xorshr h 47 in
  let h := mul64 h M64 in
  xorshr h 47.

(** [u64::trailing_zeros] of a non-zero value. *)
Fixpoint ctz (p : positive) : Z :=
  match p with
  | xO p' => 1 + ctz p'
  | _ => 0
  end.
Definition trailing_zeros (z : Z) : Z :=
  match z with Z.pos p => ctz p | _ => 64 end.

Definition hash_element (element : list byte) : Z * Z :=
  let h := murmur64a element MURMUR_SEED in
  let bucket := Z.land h (HLL_REGISTERS - 1) in
  let rest := Z.shiftr h HLL_P in
  let max := 64 - HLL_P in
  let count := if rest =? 0 then max + 1 else trailing_zeros rest + 1 in
  (bucket, Z.min count (max + 1)).

(** ** Registers *)

Definition read_register (registers : list byte) (idx : Z) : Z :=
  let bit := idx * HLL_REGISTER_BITS in
  let byte := bit / 8 in
  let shift := bit mod 8 in
  let lo := rd registers byte in
  let hi := rd registers (byte + 1) in
  let combined := Z.lor lo (Z.shiftl hi 8) in
  Z.land (Z.shiftr combined shift) 0x3f.

Definition write_register (registers : list byte) (idx value : Z) : list byte :=
  let bit := idx * HLL_REGISTER_BITS in
  let byte := bit / 8 in
  let shift := bit mod 8 in
  let mask := Z.shiftl 0x3f shift in
  let val := Z.shiftl (Z.land value 0x3f) shift in
  let combined := Z.lor (rd registers byte) (Z.shiftl (rd registers (byte + 1)) 8) in
  let combined := Z.lor (Z.ldiff combined mask) val in
  let registers := wr registers byte (Z.land combined 0xff) in
  if byte + 1 <? len registers
  then wr registers (byte + 1) (Z.land (Z.shiftr combined 8) 0xff)
  else registers.

(** [buf[15] |= 0x80]. *)
Definition invalidate_cache (buf : list byte) : list byte :=
  wr buf 15 (Z.lor (rd buf 15) 0x80).

(** The header and the register area of a blob: [buf[..16]] and [buf[16..]]. *)
Definition header (buf : list byte) : list byte := take (Z.to_nat HLL_HEADER_BYTES) buf.
Definition registers (buf : list byte) : list byte := drop (Z.to_nat HLL_HEADER_BYTES) buf.
(** A write through [&mut buf[HLL_HEADER_BYTES..]]. *)
Definition set_registers (buf regs : list byte) : list byte := header buf ++ regs.

Definition not_hll : RustyAntError := Parse "key is not a valid HyperLogLog string".

(** The updated buffer and whether a register grew. *)
Definition add (buf element : list byte) : Result (list byte * bool) :=
  if negb (is_hll buf) then Err not_hll
  else
    let '(bucket, value) := hash_element element in
    let regs := registers buf in
    let current := read_register regs bucket in
    if current <? value then
      Ok (invalidate_cache (set_registers buf (write_register regs bucket value)), true)
    else Ok (buf, false).

(** One iteration of the merge loop. *)
Definition merge_step (src : list byte) (st : list byte * bool) (i : Z) : list byte * bool :=
  let '(dest, changed) := st in
  let s := read_register (registers src) i in
  let d := read_register (registers dest) i in
  if d <? s then (set_registers dest (write_register (registers dest) i s), true)
  else (dest, changed).

Definition merge_into (dest src : list byte) : Result (list byte) :=
  if negb (is_hll dest) || negb (is_hll src) then Err not_hll
  else
    let '(dest, changed) :=
      fold_left (merge_step src) (map Z.of_nat (List.seq 0 (Z.to_nat HLL_REGISTERS))) (dest, false) in
    Ok (if changed then invalidate_cache dest else dest).

(** ** The estimate *)

Section Estimate.
(** [f64::ln]. *)
Context (ln : f64 -> f64).

(** One iteration of the register loop. *)
Definition estimate_step (registers : list byte) (st : f64 * Z) (i : Z) : f64 * Z :=
  let '(sum, zeros) := st in
  let r := read_register registers i in
  (f64_add sum (f64_pow2_neg r), if r =? 0 then zeros + 1 else zeros).

Definition estimate_from_registers (registers : list byte) : Z :=
  let m := f64_of_uint HLL_REGISTERS in
  let alpha := f64_div (f64_lit "0.7213") (f64_add (f64_lit "1.0") (f64_div (f64_lit "1.079") m)) in
  let '(sum, zeros) :=
    fold_left (estimate_step registers)
      (map Z.of_nat (List.seq 0 (Z.to_nat HLL_REGISTERS))) (f64_zero, 0) in
  let raw := f64_div (f64_mul (f64_mul alpha m) m) sum in
  let two32 := f64_add (f64_of_uint (2 ^ 32 - 1)) (f64_lit "1.0") in
  let e :=
    if f64_le raw (f64_mul (f64_lit "2.5") m) && (0 <? zeros) then
      f64_mul m (ln (f64_div m (f64_of_uint zeros)))
    else if f64_gt raw (f64_div two32 (f64_lit "30.0")) then
      f64_mul (f64_neg two32) (ln (f64_sub (f64_lit "1.0") (f64_div raw two32)))
    else raw in
  f64_as_uint 64 (f64_round e).

Definition count (buf : list byte) : Result Z :=
  if negb (is_hll buf) then Err not_hll
  else Ok (estimate_from_registers (registers buf)).
End Estimate.

#[global] Arguments count : simpl never.
#[global] Arguments add : simpl never.
#[global] Arguments merge_into : simpl never.
#[global] Arguments empty_dense : simpl never.

(** ** Bits of a byte buffer *)

Definition bit_of (l : list byte) (p : Z) : bool := Z.testbit (rd l (p / 8)) (p mod 8).

Lemma rd_range l i : 0 <= rd l i < 256.
Proof. unfold rd. destruct (l !! _); [apply b2z_range|lia]. Qed.

Lemma byte_testbit_high x q : 0 <= x < 256 -> 8 <= q -> Z.testbit x q = false.
Proof.
  intros Hx Hq. rewrite <- (Z.mod_small x (2 ^ 8)) by (cbn; lia).
  by apply Z.mod_pow2_bits_high.
Qed.

Lemma combined_bit l byte q :
  0 <= byte -> 0 <= q < 16 ->
  Z.testbit (Z.lor (rd l byte) (Z.shiftl (rd l (byte + 1)) 8)) q = bit_of l (8 * byte + q).
Proof.
  intros Hb Hq. unfold bit_of. rewrite Z.lor_spec, Z.shiftl_spec by lia.
  destruct (Z.ltb_spec q 8).
  - replace ((8 * byte + q) / 8) with byte by (apply Z.div_unique_pos with q; lia).
    replace ((8 * byte + q) mod 8) with q by (apply Z.mod_unique_pos with byte; lia).
    rewrite (Z.testbit_neg_r _ (q - 8)) by lia. by rewrite orb_false_r.
  - replace ((8 * byte + q) / 8) with (byte + 1) by (apply Z.div_unique_pos with (q - 8); lia).
    replace ((8 * byte + q) mod 8) with (q - 8) by (apply Z.mod_unique_pos with (byte + 1); lia).
    rewrite byte_testbit_high; [done|apply rd_range|lia].
Qed.

Lemma mask6_bit t : 0 <= t -> Z.testbit 0x3f t = (t <? 6).
Proof.
  intros Ht. change 0x3f with (Z.ones 6). rewrite Z.testbit_ones by lia.
  destruct (Z.leb_spec 0 t); [done|lia].
Qed.

Lemma mask8_bit t : 0 <= t -> Z.testbit 0xff t = (t <? 8).
Proof.
  intros Ht. change 0xff with (Z.ones 8). rewrite Z.testbit_ones by lia.
  destruct (Z.leb_spec 0 t); [done|lia].
Qed.

Lemma reg_bit_split idx :
  0 <= idx -> 0 <= idx * 6 / 8 /\ 0 <= (idx * 6) mod 8 < 8 /\
  8 * (idx * 6 / 8) + (idx * 6) mod 8 = 6 * idx.
Proof.
  intros H. pose proof (Z.mod_pos_bound (idx * 6) 8 eq_refl).
  pose proof (Z.div_mod (idx * 6) 8 ltac:(lia)). lia.
Qed.

(** Bit [t] of register [idx] is bit [6 idx + t] of the buffer. *)
Lemma read_register_bit l idx t :
  0 <= idx -> 0 <= t ->
  Z.testbit (read_register l idx) t = (t <? 6) && bit_of l (6 * idx + t).
Proof.
  intros Hi Ht. unfold read_register. unfold HLL_REGISTER_BITS.
  destruct (reg_bit_split idx Hi) as (H1 & H2 & H3).
  rewrite Z.land_spec, mask6_bit, andb_comm by done.
  destruct (Z.ltb_spec t 6); [|done].
  rewrite Z.shiftr_spec by done. rewrite combined_bit by lia. do 2 f_equal. lia.
Qed.

Lemma read_register_range l idx : 0 <= read_register l idx < 64.
Proof.
  unfold read_register. change 0x3f with (Z.ones 6).
  rewrite Z.land_ones by lia. apply Z.mod_pos_bound. lia.
Qed.

Lemma rd_wr l i v j :
  0 <= i < len l -> 0 <= j -> rd (wr l i v) j = if i =? j then v mod 256 else rd l j.
Proof.
  intros Hi Hj. unfold rd, wr, len in *. destruct (Z.eqb_spec i j) as [->|Hne].
  - rewrite list_lookup_insert_eq by lia. apply b2z_z2b.
  - by rewrite list_lookup_insert_ne by lia.
Qed.

Lemma len_wr l i v : len (wr l i v) = len l.
Proof. unfold len, wr. by rewrite length_insert. Qed.

Lemma len_write_register l idx v : len (write_register l idx v) = len l.
Proof. unfold write_register. destruct (_ <? _); by rewrite ?len_wr. Qed.

(** The bits a register write leaves in the 16-bit window. *)
Lemma write_window_bit c shift v q :
  0 <= shift -> 0 <= q ->
  Z.testbit (Z.lor (Z.ldiff c (Z.shiftl 0x3f shift)) (Z.shiftl (Z.land v 0x3f) shift)) q =
  if (shift <=? q) && (q <? shift + 6) then Z.testbit v (q - shift) else Z.testbit c q.
Proof.
  intros Hs Hq. rewrite Z.lor_spec, Z.ldiff_spec, !Z.shiftl_spec by done.
  destruct (Z.leb_spec shift q); cbn [andb].
  - rewrite Z.land_spec, mask6_bit by lia.
    destruct (Z.ltb_spec q (shift + 6)), (Z.ltb_spec (q - shift) 6); try lia;
      cbn [negb]; by rewrite ?andb_false_r, ?andb_true_r, ?orb_false_r.
  - rewrite !(Z.testbit_neg_r _ (q - shift)) by lia. cbn. by rewrite andb_true_r, orb_false_r.
Qed.

Lemma land_ff_mod c : Z.land c 0xff mod 256 = Z.land c 0xff.
Proof. change 0xff with (Z.ones 8). rewrite Z.land_ones by lia. by apply Z.mod_mod. Qed.

Lemma bit_of_write_register l idx v p :
  0 <= idx -> 6 * idx + 6 <= 8 * len l -> 0 <= p < 8 * len l ->
  bit_of (write_register l idx v) p =
    if (6 * idx <=? p) && (p <? 6 * idx + 6) then Z.testbit v (p - 6 * idx) else bit_of l p.
Proof.
  intros Hi Hl Hp. destruct (reg_bit_split idx Hi) as (H1 & H2 & H3).
  pose proof (Z.mod_pos_bound p 8 eq_refl) as Hm.
  pose proof (Z.div_mod p 8 ltac:(lia)) as Hdm.
  set (byte := idx * 6 / 8) in *. set (shift := (idx * 6) mod 8) in *.
  assert (Hwin : forall q, 0 <= q < 16 -> p = 8 * byte + q ->
    Z.testbit (Z.lor (Z.ldiff (Z.lor (rd l byte) (Z.shiftl (rd l (byte + 1)) 8))
      (Z.shiftl 0x3f shift)) (Z.shiftl (Z.land v 0x3f) shift)) q =
    if (6 * idx <=? p) && (p <? 6 * idx + 6) then Z.testbit v (p - 6 * idx) else bit_of l p).
  { intros q Hq Ep. rewrite write_window_bit, combined_bit by lia. rewrite <- Ep.
    replace (shift <=? q) with (6 * idx <=? p) by (by destruct (Z.leb_spec (6 * idx) p), (Z.leb_spec shift q); try lia).
    replace (q <? shift + 6) with (p <? 6 * idx + 6)
      by (by destruct (Z.ltb_spec p (6 * idx + 6)), (Z.ltb_spec q (shift + 6)); try lia).
    by replace (q - shift) with (p - 6 * idx) by lia. }
  unfold write_register, HLL_REGISTER_BITS. fold byte shift. cbv zeta.
  set (comb := Z.lor (Z.ldiff _ _) _) in *. rewrite len_wr.
  assert (Hout : p / 8 <> byte -> p / 8 <> byte + 1 ->
    bit_of l p = if (6 * idx <=? p) && (p <? 6 * idx + 6) then Z.testbit v (p - 6 * idx) else bit_of l p).
  { intros. destruct (Z.leb_spec (6 * idx) p), (Z.ltb_spec p (6 * idx + 6)); try done. lia. }
  unfold bit_of at 1.
  destruct (Z.ltb_spec (byte + 1) (len l)) as [Hn|Hn].
  - rewrite rd_wr by (rewrite ?len_wr; lia). rewrite rd_wr by lia.
    destruct (Z.eqb_spec (byte + 1) (p / 8)) as [E|E].
    + rewrite land_ff_mod, Z.land_spec, mask8_bit by lia.
      destruct (Z.ltb_spec (p mod 8) 8); [|lia]. rewrite andb_true_r, Z.shiftr_spec by lia.
      apply Hwin; lia.
    + destruct (Z.eqb_spec byte (p / 8)) as [E2|E2]; [|by apply Hout; lia].
      rewrite land_ff_mod, Z.land_spec, mask8_bit by lia.
      destruct (Z.ltb_spec (p mod 8) 8); [|lia]. rewrite andb_true_r. apply Hwin; lia.
  - rewrite rd_wr by lia. destruct (Z.eqb_spec byte (p / 8)) as [E2|E2]; [|by apply Hout; lia].
    rewrite land_ff_mod, Z.land_spec, mask8_bit by lia.
    destruct (Z.ltb_spec (p mod 8) 8); [|lia]. rewrite andb_true_r. apply Hwin; lia.
Qed.

(** The packed 6-bit registers behave as an array: writing
    register [i] makes reading it return the value's low six bits and leaves
    every other register unchanged, although registers straddle bytes. *)
Theorem read_write_register l i j v :
  len l = HLL_REGISTERS_BYTES -> 0 <= i < HLL_REGISTERS -> 0 <= j < HLL_REGISTERS ->
  read_register (write_register l i v) j =
    if i =? j then v mod 64 else read_register l j.
Proof.
  unfold HLL_REGISTERS_BYTES, HLL_REGISTERS. intros Hl Hi Hj.
  apply Z.bits_inj'. intros t Ht.
  rewrite read_register_bit by lia.
  assert (Hv : Z.testbit (v mod 64) t = (t <? 6) && Z.testbit v t).
  { change 64 with (2 ^ 6). destruct (Z.ltb_spec t 6).
    - by apply Z.mod_pow2_bits_low.
    - by apply Z.mod_pow2_bits_high. }
  destruct (Z.ltb_spec t 6) as [H6|H6]; cbn [andb] in *.
  - rewrite bit_of_write_register by lia. destruct (Z.eqb_spec i j) as [->|Hne].
    + rewrite Hv. destruct (Z.leb_spec (6 * j) (6 * j + t)), (Z.ltb_spec (6 * j + t) (6 * j + 6)); try lia.
      cbn. f_equal. lia.
    + rewrite read_register_bit by lia. destruct (Z.ltb_spec t 6); [|lia].
      destruct (Z.leb_spec (6 * i) (6 * j + t)), (Z.ltb_spec (6 * j + t) (6 * i + 6)); try done. lia.
  - destruct (Z.eqb_spec i j); [done|]. rewrite read_register_bit by lia.
    by destruct (Z.ltb_spec t 6); [lia|].
Qed.

(** ** Blobs *)

(** Register [i] of a blob. *)
Definition reg (buf : list byte) (i : Z) : Z := read_register (registers buf) i.
(** The value [element] contributes to register [i]. *)
Definition contribution (element : list byte) (i : Z) : Z :=
  let '(bucket, value) := hash_element element in if bucket =? i then value else 0.

Lemma hash_element_range element :
  0 <= fst (hash_element element) < HLL_REGISTERS /\ 1 <= snd (hash_element element) <= 51.
Proof.
  unfold hash_element, HLL_REGISTERS, HLL_P. cbn [fst snd]. split.
  - change (16384 - 1) with (Z.ones 14). rewrite Z.land_ones by lia.
    change 16384 with (2 ^ 14). apply Z.mod_pos_bound. lia.
  - destruct (_ =? 0); [lia|].
    assert (H : 0 <= trailing_zeros (Z.shiftr (murmur64a element MURMUR_SEED) 14)).
    { unfold trailing_zeros. destruct (Z.shiftr _ _) as [|p|p]; try lia.
      induction p; cbn; lia. }
    lia.
Qed.

Lemma contribution_range element i : 0 <= contribution element i < 64.
Proof.
  unfold contribution. pose proof (hash_element_range element).
  destruct (hash_element element) as [b v]. cbn in *. destruct (_ =? _); lia.
Qed.

Lemma is_hll_spec buf :
  is_hll buf = true <->
  len buf = HLL_DENSE_BYTES /\ take 4 buf = HLL_MAGIC /\ rd buf 4 = HLL_DENSE.
Proof.
  unfold is_hll. rewrite !andb_true_iff, !Z.eqb_eq, bool_decide_eq_true. tauto.
Qed.

Lemma is_hll_prefix buf buf' :
  len buf' = len buf -> take 15 buf' = take 15 buf -> is_hll buf = true -> is_hll buf' = true.
Proof.
  intros Hl Ht. rewrite !is_hll_spec. intros (H1 & H2 & H3).
  assert (E4 : forall b : list byte, take 4 b = take 4 (take 15 b)) by (intros; by rewrite take_take).
  assert (Er : forall b, rd b 4 = rd (take 15 b) 4).
  { intros b. unfold rd. by rewrite lookup_take_lt by (cbn; lia). }
  rewrite Hl, E4, Ht, <- E4, Er, Ht, <- Er. done.
Qed.

Lemma invalidate_cache_facts buf :
  len (invalidate_cache buf) = len buf /\
  take 15 (invalidate_cache buf) = take 15 buf /\
  registers (invalidate_cache buf) = registers buf.
Proof.
  unfold invalidate_cache. split; [apply len_wr|]. unfold wr, registers, HLL_HEADER_BYTES. split.
  - by rewrite take_insert_ge by (cbn; lia).
  - by rewrite drop_insert_lt by (cbn; lia).
Qed.

Lemma is_hll_len buf : is_hll buf = true -> len buf = HLL_DENSE_BYTES.
Proof. rewrite is_hll_spec. tauto. Qed.

Lemma len_registers buf : is_hll buf = true -> len (registers buf) = HLL_REGISTERS_BYTES.
Proof.
  intros H%is_hll_len. unfold registers, HLL_DENSE_BYTES, HLL_HEADER_BYTES, HLL_REGISTERS_BYTES in *.
  unfold len in *. rewrite length_drop. lia.
Qed.

Lemma set_registers_facts buf regs :
  is_hll buf = true -> len regs = HLL_REGISTERS_BYTES ->
  is_hll (set_registers buf regs) = true /\ registers (set_registers buf regs) = regs.
Proof.
  intros Hb Hr. pose proof (is_hll_len buf Hb) as Hl.
  unfold HLL_DENSE_BYTES, HLL_REGISTERS_BYTES, HLL_HEADER_BYTES in *.
  assert (Hh : length (header buf) = 16%nat).
  { unfold header, len, HLL_HEADER_BYTES in *. rewrite length_take. lia. }
  split.
  - eapply is_hll_prefix; [| |exact Hb].
    + unfold set_registers. rewrite len_app. unfold len in *. rewrite Hh. lia.
    + unfold set_registers. rewrite take_app_le by lia. unfold header, HLL_HEADER_BYTES.
      rewrite take_take. f_equal; cbn; lia.
  - unfold registers, set_registers. by rewrite drop_app_length' by (by rewrite Hh).
Qed.

(** Storing [v] in register [i], as both [add] and [merge_into] do. *)
Lemma store_register buf i v :
  is_hll buf = true -> 0 <= i < HLL_REGISTERS -> 0 <= v < 64 ->
  let buf' := set_registers buf (write_register (registers buf) i v) in
  is_hll buf' = true /\
  forall j, 0 <= j < HLL_REGISTERS -> reg buf' j = if i =? j then v else reg buf j.
Proof.
  intros Hb Hi Hv buf'. pose proof (len_registers buf Hb) as Hl.
  destruct (set_registers_facts buf (write_register (registers buf) i v) Hb
    ltac:(by rewrite len_write_register)) as [H1 H2].
  split; [done|]. intros j Hj. unfold reg, buf'. rewrite H2, read_write_register by done.
  destruct (_ =? _); [|done]. apply Z.mod_small; lia.
Qed.

Lemma invalidate_hll buf : is_hll buf = true -> is_hll (invalidate_cache buf) = true.
Proof.
  intros H. destruct (invalidate_cache_facts buf) as (E1 & E2 & _). by eapply is_hll_prefix.
Qed.
Lemma reg_invalidate buf i : reg (invalidate_cache buf) i = reg buf i.
Proof. unfold reg. by destruct (invalidate_cache_facts buf) as (_ & _ & ->). Qed.

(** [add] on a valid blob succeeds, keeps it valid, raises the one
    register the element hashes to up to the element's value and leaves the
    others; it reports [true] exactly when that register grew, and otherwise
    leaves the blob unchanged. *)
Theorem add_spec buf element :
  is_hll buf = true ->
  exists buf' changed,
    add buf element = Ok (buf', changed) /\ is_hll buf' = true /\
    (forall i, 0 <= i < HLL_REGISTERS -> reg buf' i = Z.max (reg buf i) (contribution element i)) /\
    (changed = true <-> reg buf (fst (hash_element element)) < snd (hash_element element)) /\
    (changed = false -> buf' = buf).
Proof.
  intros Hb. unfold add. rewrite Hb. cbn [negb].
  pose proof (hash_element_range element) as [Hk Hv].
  unfold contribution. destruct (hash_element element) as [bucket value]. cbn [fst snd] in *.
  fold (reg buf bucket). destruct (Z.ltb_spec (reg buf bucket) value) as [Hlt|Hge].
  - destruct (store_register buf bucket value Hb Hk ltac:(lia)) as [H1 H2].
    eexists _, _. split; [done|]. split; [by apply invalidate_hll|].
    split; [|split; [done|done]]. intros i Hi. rewrite reg_invalidate, H2 by done.
    destruct (Z.eqb_spec bucket i) as [->|]; [lia|].
    pose proof (read_register_range (registers buf) i). unfold reg. lia.
  - eexists _, _. split; [done|]. split; [done|]. split; [|split; [split; [done|lia]|done]].
    intros i Hi. pose proof (read_register_range (registers buf) i).
    destruct (Z.eqb_spec bucket i) as [->|]; unfold reg in *; lia.
Qed.

Lemma merge_steps_spec src dest n changed :
  is_hll dest = true -> (n <= Z.to_nat HLL_REGISTERS)%nat ->
  let '(dest', changed') :=
    fold_left (merge_step src) (map Z.of_nat (List.seq 0 n)) (dest, changed) in
  is_hll dest' = true /\
  ((forall i, 0 <= i < Z.of_nat n -> reg src i <= reg dest i) ->
    dest' = dest /\ changed' = changed) /\
  forall i, 0 <= i < HLL_REGISTERS ->
    reg dest' i = if i <? Z.of_nat n then Z.max (reg dest i) (reg src i) else reg dest i.
Proof.
  intros Hd. induction n as [|n IH]; intros Hn.
  { cbn [List.seq map fold_left]. repeat split; try done. intros i Hi.
    by destruct (Z.ltb_spec i (Z.of_nat 0)); [lia|]. }
  rewrite seq_S, map_app, fold_left_app. cbn [map fold_left Nat.add].
  specialize (IH ltac:(lia)).
  destruct (fold_left _ _ _) as [d c]. destruct IH as (H1 & H2 & H3).
  unfold merge_step. fold (reg src (Z.of_nat n)) (reg d (Z.of_nat n)).
  assert (Hi : 0 <= Z.of_nat n < HLL_REGISTERS) by (unfold HLL_REGISTERS in *; lia).
  pose proof (H3 _ Hi) as Hself. rewrite Z.ltb_irrefl in Hself.
  destruct (Z.ltb_spec (reg d (Z.of_nat n)) (reg src (Z.of_nat n))) as [Hlt|Hge].
  - destruct (store_register d (Z.of_nat n) (reg src (Z.of_nat n)) H1 Hi
      (read_register_range _ _)) as [H4 H5].
    split; [done|]. split.
    { intros Hle. specialize (Hle (Z.of_nat n) ltac:(lia)). lia. }
    intros i Hi2. rewrite H5, H3 by done.
    destruct (Z.eqb_spec (Z.of_nat n) i) as [<-|].
    + destruct (Z.ltb_spec (Z.of_nat n) (Z.of_nat (S n))); lia.
    + by destruct (Z.ltb_spec i (Z.of_nat (S n))), (Z.ltb_spec i (Z.of_nat n)); try lia.
  - split; [done|]. split; [intros Hle; apply H2; intros; apply Hle; lia|].
    intros i Hi2. rewrite H3 by done.
    destruct (Z.ltb_spec i (Z.of_nat (S n))), (Z.ltb_spec i (Z.of_nat n)); try lia.
    assert (i = Z.of_nat n) as -> by lia. lia.
Qed.


(** [merge_into] takes the register-wise maximum of the two blobs
    and keeps the destination a valid blob; when the source adds nothing the
    destination is untouched, cached cardinality included. *)
Theorem merge_into_spec dest src :
  is_hll dest = true -> is_hll src = true ->
  exists dest',
    merge_into dest src = Ok dest' /\ is_hll dest' = true /\
    (forall i, 0 <= i < HLL_REGISTERS -> reg dest' i = Z.max (reg dest i) (reg src i)) /\
    ((forall i, 0 <= i < HLL_REGISTERS -> reg src i <= reg dest i) -> dest' = dest).
Proof.
  intros Hd Hs. unfold merge_into. rewrite Hd, Hs. cbn [negb orb].
  pose proof (merge_steps_spec src dest (Z.to_nat HLL_REGISTERS) false Hd (Nat.le_refl _)) as HM.
  destruct (fold_left _ _ _) as [d c]. destruct HM as (H1 & H2 & H3).
  rewrite Z2Nat.id in H2, H3 by (unfold HLL_REGISTERS; lia).
  eexists. split; [done|]. split; [by destruct c; [apply invalidate_hll|]|]. split.
  - intros i Hi. assert (E : reg (if c then invalidate_cache d else d) i = reg d i)
      by (destruct c; [apply reg_invalidate|done]).
    rewrite E, H3 by done. destruct (Z.ltb_spec i HLL_REGISTERS); lia.
  - intros Hle. destruct (H2 Hle) as [-> ->]. done.
Qed.

(** Adding a list of elements, as PFADD's loop does. *)
Definition add_all (buf : list byte) (elements : list (list byte)) : Result (list byte) :=
  fold_left (fun r e => let? b := r in let? bc := add b e in Ok (fst bc)) elements (Ok buf).

(** The largest value any of the elements contributes to register [i]. *)
Definition max_contribution (elements : list (list byte)) (i : Z) : Z :=
  fold_right (fun e m => Z.max (contribution e i) m) 0 elements.

Lemma add_all_spec elements buf :
  is_hll buf = true ->
  exists buf', add_all buf elements = Ok buf' /\ is_hll buf' = true /\
    forall i, 0 <= i < HLL_REGISTERS -> reg buf' i = Z.max (reg buf i) (max_contribution elements i).
Proof.
  unfold add_all. revert buf. induction elements as [|e es IH]; intros buf Hb; cbn [fold_left].
  - exists buf. split; [done|]. split; [done|]. intros i Hi. cbn.
    pose proof (read_register_range (registers buf) i). unfold reg. lia.
  - cbn [rbind]. destruct (add_spec buf e Hb) as (b1 & c1 & E & Hb1 & Hr & _).
    rewrite E. cbn [rbind fst]. destruct (IH b1 Hb1) as (b2 & E2 & Hb2 & Hr2).
    exists b2. split; [done|]. split; [done|]. intros i Hi. rewrite Hr2, Hr by done.
    unfold max_contribution. cbn [fold_right]. lia.
Qed.

Lemma max_contribution_nonneg xs i : 0 <= max_contribution xs i.
Proof. unfold max_contribution. induction xs as [|x xs IH]; cbn [fold_right]; lia. Qed.

Lemma max_contribution_app xs ys i :
  max_contribution (xs ++ ys) i = Z.max (max_contribution xs i) (max_contribution ys i).
Proof.
  unfold max_contribution. induction xs as [|x xs IH]; cbn [app fold_right].
  - pose proof (max_contribution_nonneg ys i) as H. unfold max_contribution in H. lia.
  - rewrite IH. lia.
Qed.

Lemma empty_dense_hll : is_hll empty_dense = true.
Proof. by vm_compute. Qed.

Lemma reg_empty i : reg empty_dense i = 0.
Proof.
  assert (E : forall j, rd (registers empty_dense) j = 0).
  { intros j. unfold rd.
    replace (registers empty_dense) with (replicate (Z.to_nat HLL_REGISTERS_BYTES) x00) by by vm_compute.
    destruct (_ !! _) as [x|] eqn:E; [|done]. destruct (lookup_replicate_1 _ _ _ _ E) as [-> _]. reflexivity. }
  unfold reg, read_register. by rewrite !E, Z.shiftl_0_l, Z.lor_0_r, Z.shiftr_0_l, Z.land_0_l.
Qed.

(** The estimate reads the registers and nothing else of a blob: not its cached
    cardinality, not the padding. *)
Lemma count_registers ln a b :
  is_hll a = true -> is_hll b = true ->
  (forall i, 0 <= i < HLL_REGISTERS -> reg a i = reg b i) -> count ln a = count ln b.
Proof.
  intros Ha Hb Hr. unfold count. rewrite Ha, Hb. cbn [negb]. unfold estimate_from_registers.
  assert (E : forall l st, Forall (fun i => 0 <= i < HLL_REGISTERS) l ->
    fold_left (estimate_step (registers a)) l st = fold_left (estimate_step (registers b)) l st).
  { induction l as [|i l IH]; intros [sum zeros] Hl; [done|].
    apply Forall_cons in Hl as [Hi Hl]. cbn [fold_left]. rewrite IH by done.
    pose proof (Hr i Hi) as E. unfold reg in E. unfold estimate_step. by rewrite E. }
  rewrite E; [done|]. apply Forall_map, Forall_forall. intros n Hn%elem_of_seq. cbn in *. lia.
Qed.

(** Merging the blob of one set of elements into the blob of
    another yields exactly the registers of the blob built from both together,
    so PFMERGE and multi-key PFCOUNT estimate the union. *)
Theorem merge_is_union xs ys a b :
  add_all empty_dense xs = Ok a -> add_all empty_dense ys = Ok b ->
  exists m u, merge_into a b = Ok m /\ add_all empty_dense (xs ++ ys) = Ok u /\
    is_hll m = true /\ is_hll u = true /\
    forall i, 0 <= i < HLL_REGISTERS -> reg m i = reg u i.
Proof.
  intros Ha Hb.
  destruct (add_all_spec xs empty_dense empty_dense_hll) as (a' & Ea & Hva & Hra).
  destruct (add_all_spec ys empty_dense empty_dense_hll) as (b' & Eb & Hvb & Hrb).
  destruct (add_all_spec (xs ++ ys) empty_dense empty_dense_hll) as (u & Eu & Hvu & Hru).
  rewrite Ha in Ea. rewrite Hb in Eb. injection Ea as <-. injection Eb as <-.
  destruct (merge_into_spec a b Hva Hvb) as (m & Em & Hvm & Hrm & _).
  exists m, u. repeat split; try done. intros i Hi.
  rewrite Hrm, Hra, Hrb, Hru, max_contribution_app by done. lia.
Qed.

Lemma merge_is_union_witness :
  exists a b m u, add_all empty_dense [[x61]] = Ok a /\ add_all empty_dense [[x62]; [x61]] = Ok b /\
    merge_into a b = Ok m /\ add_all empty_dense [[x61]; [x62]; [x61]] = Ok u /\ reg m 7 = reg u 7.
Proof.
  destruct (add_all empty_dense [[x61]]) as [a|e] eqn:Ea; [|vm_compute in Ea; discriminate Ea].
  destruct (add_all empty_dense [[x62]; [x61]]) as [b|e] eqn:Eb; [|vm_compute in Eb; discriminate Eb].
  destruct (merge_is_union [[x61]] [[x62]; [x61]] a b Ea Eb) as (m & u & Em & Eu & _ & _ & Hr).
  exists a, b, m, u. split; [reflexivity|]. split; [reflexivity|]. split; [exact Em|]. split; [exact Eu|].
  apply Hr. split; [lia|reflexivity].
Defined.
