(* ===== verification/Value.v ===== *)
(** * Value

    The stored data of src/storage.rs: [StoredValue], [Value], [ValueKind], the
    option enums of the commands, the score and lex bounds, expiry. *)

From S2P Require Import Prelude.
From S2P Require Import Text.
From S2P Require Import BTree.
From S2P Require Import F64.
From S2P Require Import Stream.

Inductive Value :=
| VString (data : list byte)
| VHash (m : btree Str (list byte))
| VList (l : list (list byte))
| VSet (s : bset Str)
| VZSet (m : btree Str f64)
| VStream (s : StreamValue).

Record StoredValue := { expires_at_ms : option Z; value : Value }.

#[export] Instance Value_eq_dec : EqDecision Value.
Proof. solve_decision. Defined.
#[export] Instance StoredValue_eq_dec : EqDecision StoredValue.
Proof. solve_decision. Defined.

Inductive TtlResult := NoKey | NoExpire | Ms (ms : Z).
Inductive GetExOp := Leave | SetExpireAtMs (t : Z) | Persist.

Record KeyspaceStats := { total_keys : Z; keys_with_expire : Z }.

Record ZAddFlags := { nx : bool; xx : bool; gt : bool; lt : bool; ch : bool }.

(** ** Score bounds *)

Inductive ScoreBound := SB_Inclusive (v : f64) | SB_Exclusive (v : f64) | SB_MinusInf | SB_PlusInf.

Definition not_a_float : RustyAntError := Parse "score is not a float".

Definition ScoreBound_parse (s : Str) : Result ScoreBound :=
  if str_eqb s (bs "-inf") then Ok SB_MinusInf
  else if str_eqb s (bs "+inf") || str_eqb s (bs "inf") then Ok SB_PlusInf
  else match strip_prefix_byte x28 s with
       | Some rest => let? v := ok_or (parse_f64 rest) not_a_float in Ok (SB_Exclusive v)
       | None => let? v := ok_or (parse_f64 s) not_a_float in Ok (SB_Inclusive v)
       end.

Definition ScoreBound_ge_min (b : ScoreBound) (score : f64) : bool :=
  match b with
  | SB_Inclusive v => f64_ge score v
  | SB_Exclusive v => f64_gt score v
  | SB_MinusInf => true
  | SB_PlusInf => false
  end.

Definition ScoreBound_le_max (b : ScoreBound) (score : f64) : bool :=
  match b with
  | SB_Inclusive v => f64_le score v
  | SB_Exclusive v => f64_lt score v
  | SB_MinusInf => false
  | SB_PlusInf => true
  end.

(** ** Lex bounds *)

Inductive LexBound := LB_Inclusive (v : Str) | LB_Exclusive (v : Str) | LB_MinusInf | LB_PlusInf.

Definition LexBound_parse (s : Str) : Result LexBound :=
  if str_eqb s (bs "-") then Ok LB_MinusInf
  else if str_eqb s (bs "+") then Ok LB_PlusInf
  else match strip_prefix_byte x5b s with
       | Some rest => Ok (LB_Inclusive rest)
       | None =>
           match strip_prefix_byte x28 s with
           | Some rest => Ok (LB_Exclusive rest)
           | None => Err (Parse "min or max not valid string range item")
           end
       end.

Definition LexBound_ge_min (b : LexBound) (member : Str) : bool :=
  match b with
  | LB_Inclusive v => kleb v member
  | LB_Exclusive v => kltb v member
  | LB_MinusInf => true
  | LB_PlusInf => false
  end.

Definition LexBound_le_max (b : LexBound) (member : Str) : bool :=
  match b with
  | LB_Inclusive v => kleb member v
  | LB_Exclusive v => kltb member v
  | LB_MinusInf => false
  | LB_PlusInf => true
  end.

(** ** Kinds *)

Inductive ValueKind := KString | KHash | KList | KSet | KZSet | KStream.

#[export] Instance ValueKind_eq_dec : EqDecision ValueKind.
Proof. solve_decision. Defined.

Definition ValueKind_of (v : Value) : ValueKind :=
  match v with
  | VString _ => KString
  | VHash _ => KHash
  | VList _ => KList
  | VSet _ => KSet
  | VZSet _ => KZSet
  | VStream _ => KStream
  end.

Definition ValueKind_as_str (k : ValueKind) : Str :=
  match k with
  | KString => bs "string"
  | KHash => bs "hash"
  | KList => bs "list"
  | KSet => bs "set"
  | KZSet => bs "zset"
  | KStream => bs "stream"
  end.

Definition ValueKind_ALL : list ValueKind := [KString; KHash; KList; KSet; KZSet; KStream].

Definition value_kind (v : Value) : Str := ValueKind_as_str (ValueKind_of v).

(** ** Expiry, errors *)

Definition is_expired (now : Z) (v : StoredValue) : bool :=
  match expires_at_ms v with Some exp => exp <=? now | None => false end.

Definition wrong_type (key : Str) : RustyAntError := WrongType key.
Definition wrong_type_error : RustyAntError := WrongType [].

(** ** Invariant of stored values

    Maps and sets are sorted trees, and no
    hash, list, set or sorted set is empty: Redis removes a collection with its
    last element. *)
Definition value_wf (v : Value) : Prop :=
  match v with
  | VString _ => True
  | VHash m => bt_wf m /\ m <> []
  | VList l => l <> []
  | VSet s => bt_wf s /\ s <> []
  | VZSet m => bt_wf m /\ m <> []
  | VStream s => stream_shape s
  end.
