(* ===== verification/Backend.v ===== *)
(** * Backend

    The [KVBackend] boundary of src/storage.rs and the shared compare-and-set
    loop [KVStorage::cas].

    Code that awaits backend calls is a finite interaction tree [prog] over the
    backend's events; [run] interprets it against the reference backend below,
    one caller at a time, and Linearizability.v interleaves several. *)

From S2P Require Import Prelude.
From S2P Require Import Text.
From S2P Require Import BTree.
From S2P Require Import F64.
From S2P Require Import Stream.
From S2P Require Import Value.

(** ** Programs *)

Inductive prog (E : Type -> Type) (R : Type) : Type :=
| Ret (r : R)
| Vis {A : Type} (e : E A) (k : A -> prog E R).
Arguments Ret {E R} r.
Arguments Vis {E R A} e k.

Fixpoint pbind {E R S} (p : prog E R) (f : R -> prog E S) : prog E S :=
  match p with
  | Ret r => f r
  | Vis e k => Vis e (fun a => pbind (k a) f)
  end.

Definition trigger {E A} (e : E A) : prog E A := Vis e Ret.

(** [.await] and [.await?]. *)
Notation "'let!' x ':=' p 'in' q" := (pbind p (fun x => q))
  (at level 10, x pattern, p at level 100, q at level 200) : rust_scope.
Notation "'let!?' x ':=' p 'in' q" :=
  (pbind p (fun r => match r with Ok x => q | Err e => Ret (Err e) end))
  (at level 10, x pattern, p at level 100, q at level 200) : rust_scope.

(** ** The trait *)

Inductive WriteCondition := WAny | CreateOnly | IfMatch (etag : Str).
Inductive DeleteCondition := DAny | DIfMatch (etag : Str).
Record ListPage := { lp_keys : list Str; lp_next_cursor : option Str }.

(** The backend calls, the clock ([now_ms], and the nanoseconds that seed
    [pseudo_rand_u64]) and [tokio::time::sleep]. *)
Inductive kvE : Type -> Type :=
| KvLoad (key : Str) : kvE (Result (option (StoredValue * Str)))
| KvSave (key : Str) (entry : StoredValue) (cond : WriteCondition) : kvE (Result unit)
| KvDelete (key : Str) (cond : DeleteCondition) : kvE (Result unit)
| KvListPage (cursor : option Str) (max_keys : Z) : kvE (Result ListPage)
| KvFlushAll : kvE (Result unit)
| KvNowMs : kvE Z
| KvNowNanos : kvE Z
| KvSleep (ms : Z) : kvE unit.

(** ** The CAS loop *)

Inductive CasAction (R : Type) :=
| Write (entry : StoredValue) (r : R)
| Delete (r : R)
| NoOp (r : R).
Arguments Write {R} entry r.
Arguments Delete {R} r.
Arguments NoOp {R} r.

Definition MAX_CAS_RETRIES : nat := 5.

Definition cas_backoff (attempt : Z) : prog kvE unit :=
  if attempt =? 0 then Ret tt
  else
    let shift := Z.min (attempt - 1) 4 in
    trigger (KvSleep (10 * Z.shiftl 1 shift)).

(** One [modify] closure: pure for every command but SPOP, which draws a random
    number inside the closure. *)
Definition modifier (R : Type) : Type := option StoredValue -> prog kvE (Result (CasAction R)).
Definition pure_mod {R} (f : option StoredValue -> Result (CasAction R)) : modifier R :=
  fun e => Ret (f e).

(** [for attempt in 0..MAX_CAS_RETRIES]: [n] iterations are left. *)
Fixpoint cas_from {R} (key : Str) (modify : modifier R) (n : nat) (attempt : Z)
    : prog kvE (Result R) :=
  match n with
  | O => Ret (Err Contention)
  | S n' =>
      let! _ := cas_backoff attempt in
      let!? loaded := trigger (KvLoad key) in
      let '(existing, etag) :=
        match loaded with
        | Some (e, t) => (Some e, Some t)
        | None => (None, None)
        end in
      let!? action := modify existing in
      match action with
      | NoOp r => Ret (Ok r)
      | Delete r =>
          match etag with
          | Some e =>
              let! d := trigger (KvDelete key (DIfMatch e)) in
              match d with
              | Ok _ => Ret (Ok r)
              | Err Contention => cas_from key modify n' (attempt + 1)
              | Err err => Ret (Err err)
              end
          | None => Ret (Ok r)
          end
      | Write new_entry r =>
          let cond := match etag with Some t => IfMatch t | None => CreateOnly end in
          let! s := trigger (KvSave key new_entry cond) in
          match s with
          | Ok _ => Ret (Ok r)
          | Err Contention => cas_from key modify n' (attempt + 1)
          | Err err => Ret (Err err)
          end
      end
  end.

Definition cas {R} (key : Str) (modify : modifier R) : prog kvE (Result R) :=
  cas_from key modify MAX_CAS_RETRIES 0.

(** [KVStorage::load]: discard the version token. *)
Definition load (key : Str) : prog kvE (Result (option StoredValue)) :=
  let!? l := trigger (KvLoad key) in Ret (Ok (option_map fst l)).

(** ** Default trait methods

    The walks over [list_page] have no bound in the code; [fuel] bounds the
    number of pages, and [None] is a walk that did not finish within it. *)

Fixpoint flush_all_walk (fuel : nat) (cursor : option Str) : prog kvE (option (Result unit)) :=
  match fuel with
  | O => Ret None
  | S f =>
      let! page := trigger (KvListPage cursor 1000) in
      match page with
      | Err e => Ret (Some (Err e))
      | Ok page =>
          let! _ := fold_left (fun p k => let! _ := p in
                                          let! _ := trigger (KvDelete k DAny) in Ret tt)
                              (lp_keys page) (Ret tt) in
          match lp_next_cursor page with
          | Some c => flush_all_walk f (Some c)
          | None => Ret (Some (Ok tt))
          end
      end
  end.
Definition flush_all_default (fuel : nat) : prog kvE (option (Result unit)) := flush_all_walk fuel None.

Fixpoint count_keys_walk (fuel : nat) (cursor : option Str) (count : Z) : prog kvE (option (Result Z)) :=
  match fuel with
  | O => Ret None
  | S f =>
      let! page := trigger (KvListPage cursor 1000) in
      match page with
      | Err e => Ret (Some (Err e))
      | Ok page =>
          let count := saturating_add_i64 count (len_i64 (lp_keys page)) in
          match lp_next_cursor page with
          | Some c => count_keys_walk f (Some c) count
          | None => Ret (Some (Ok count))
          end
      end
  end.
Definition count_keys (fuel : nat) : prog kvE (option (Result Z)) := count_keys_walk fuel None 0.

(** ** The reference backend

    What [KVBackend]'s documentation promises: a map from keys to versioned
    entries.  Every successful write gives its entry a fresh version;
    conditional writes and deletes compare versions; [load] removes an expired
    entry and answers [None].  It is the specification the backends refine. *)

Record world := {
  store : gmap Str (StoredValue * Z);
  next_version : Z;
  clock_ms : Z;
  clock_nanos : Z;
}.

Definition tok (v : Z) : Str := print_Z v.

Definition with_store (w : world) (s : gmap Str (StoredValue * Z)) : world :=
  {| store := s; next_version := next_version w; clock_ms := clock_ms w; clock_nanos := clock_nanos w |}.
Definition put (key : Str) (e : StoredValue) (w : world) : world :=
  {| store := <[key := (e, next_version w)]> (store w);
     next_version := next_version w + 1;
     clock_ms := clock_ms w; clock_nanos := clock_nanos w |}.
Definition remove (key : Str) (w : world) : world := with_store w (base.delete key (store w)).

(** The entry a client can still see. *)
Definition live (w : world) (key : Str) : option StoredValue :=
  match store w !! key with
  | Some (e, _) => if is_expired (clock_ms w) e then None else Some e
  | None => None
  end.
(** What a load leaves behind: an expired entry is gone. *)
Definition gc (key : Str) (w : world) : world :=
  match store w !! key with
  | Some (e, _) => if is_expired (clock_ms w) e then remove key w else w
  | None => w
  end.

Definition kv_load (key : Str) (w : world) : Result (option (StoredValue * Str)) * world :=
  match store w !! key with
  | Some (e, v) => if is_expired (clock_ms w) e then (Ok None, remove key w)
                   else (Ok (Some (e, tok v)), w)
  | None => (Ok None, w)
  end.

Definition kv_save (key : Str) (e : StoredValue) (cond : WriteCondition) (w : world) : Result unit * world :=
  let ok := match cond, store w !! key with
            | WAny, _ => true
            | CreateOnly, None => true
            | CreateOnly, Some _ => false
            | IfMatch t, Some (_, v) => bool_decide (t = tok v)
            | IfMatch _, None => false
            end in
  if ok then (Ok tt, put key e w) else (Err Contention, w).

Definition kv_delete (key : Str) (cond : DeleteCondition) (w : world) : Result unit * world :=
  let ok := match cond, store w !! key with
            | DAny, _ => true
            | DIfMatch t, Some (_, v) => bool_decide (t = tok v)
            | DIfMatch _, None => false
            end in
  if ok then (Ok tt, remove key w) else (Err Contention, w).

(** Keys in byte order, the page after the cursor. *)
Definition sorted_keys (w : world) : list Str :=
  bs_elems (bs_collect (map fst (map_to_list (store w)))).
Definition after_cursor (cursor : option Str) (ks : list Str) : list Str :=
  match cursor with
  | Some c => List.filter (fun k => kltb c k) ks
  | None => ks
  end.
Definition kv_list_page (cursor : option Str) (max_keys : Z) (w : world) : Result ListPage * world :=
  let ks := after_cursor cursor (sorted_keys w) in
  let page := take (Z.to_nat max_keys) ks in
  let next := if len ks <=? max_keys then None else last page in
  (Ok {| lp_keys := page; lp_next_cursor := next |}, w).

Definition handle {A} (e : kvE A) : world -> A * world :=
  match e in kvE A return world -> A * world with
  | KvLoad key => kv_load key
  | KvSave key entry cond => kv_save key entry cond
  | KvDelete key cond => kv_delete key cond
  | KvListPage cursor max_keys => kv_list_page cursor max_keys
  | KvFlushAll => fun w => (Ok tt, with_store w ∅)
  | KvNowMs => fun w => (clock_ms w, w)
  | KvNowNanos => fun w => (clock_nanos w, w)
  | KvSleep _ => fun w => (tt, w)
  end.

(** One caller, nobody else: the sequential semantics. *)
Fixpoint run {R} (p : prog kvE R) (w : world) : R * world :=
  match p with
  | Ret r => (r, w)
  | Vis e k => let '(a, w') := handle e w in run (k a) w'
  end.

(** The atomic read-modify-write a CAS call stands for. *)
Definition atomic_update {R} (key : Str) (f : option StoredValue -> Result (CasAction R))
    (w : world) : Result R * world :=
  let w := gc key w in
  match f (live w key) with
  | Err e => (Err e, w)
  | Ok (NoOp r) => (Ok r, w)
  | Ok (Delete r) => (Ok r, remove key w)
  | Ok (Write e r) => (Ok r, put key e w)
  end.

(** ** Lemmas *)

Lemma run_bind {R S} (p : prog kvE R) (f : R -> prog kvE S) w :
  run (pbind p f) w = let '(r, w') := run p w in run (f r) w'.
Proof.
  revert w. induction p as [r|A e k IH]; intros w; cbn; [done|].
  destruct (handle e w) as [a w']. apply IH.
Qed.

Lemma live_gc key w : live (gc key w) key = live w key.
Proof.
  unfold live, gc. destruct (store w !! key) as [[e v]|] eqn:E; [|by rewrite E].
  destruct (is_expired _ e) eqn:X; [|by rewrite E, X].
  cbn. by rewrite lookup_delete_eq.
Qed.

Lemma gc_live_lookup key w :
  option_map fst (store (gc key w) !! key) = live w key.
Proof.
  unfold gc, live. destruct (store w !! key) as [[e v]|] eqn:E; [|by rewrite E].
  destruct (is_expired _ e) eqn:X; cbn; [by rewrite lookup_delete_eq|by rewrite E].
Qed.

Lemma gc_idem key w : gc key (gc key w) = gc key w.
Proof.
  unfold gc. destruct (store w !! key) as [[e v]|] eqn:E; [|by rewrite E].
  destruct (is_expired _ e) eqn:X; cbn; [by rewrite lookup_delete_eq|by rewrite E, X].
Qed.

Lemma kv_load_spec key w :
  kv_load key w = (Ok (match store (gc key w) !! key with
                       | Some (e, v) => Some (e, tok v) | None => None end), gc key w).
Proof.
  unfold kv_load, gc. destruct (store w !! key) as [[e v]|] eqn:E; [|by rewrite E].
  destruct (is_expired _ e) eqn:X; cbn; [by rewrite lookup_delete_eq|by rewrite E].
Qed.

Lemma run_cas_backoff a w : run (cas_backoff a) w = (tt, w).
Proof. unfold cas_backoff. by destruct (a =? 0). Qed.

Lemma run_cas_from {R} key (f : option StoredValue -> Result (CasAction R)) n a w :
  run (cas_from key (pure_mod f) (S n) a) w = atomic_update key f w.
Proof.
  cbn [cas_from]. rewrite run_bind, run_cas_backoff, run_bind.
  cbn [trigger run handle]. rewrite kv_load_spec. unfold atomic_update.
  pose proof (gc_live_lookup key w) as HL. rewrite live_gc.
  destruct (store (gc key w) !! key) as [[e v]|] eqn:E; cbn in HL; rewrite <- HL;
    cbn [pure_mod pbind]; destruct (f _) as [[e' r|r|r]|err]; try done;
    cbn [trigger pbind run handle].
  - unfold kv_save. rewrite E. by rewrite bool_decide_true.
  - unfold kv_delete. rewrite E. by rewrite bool_decide_true.
  - unfold kv_save. by rewrite E.
  - unfold remove. rewrite delete_id by done. by destruct (gc key w).
Qed.

Lemma run_cas {R} key (f : option StoredValue -> Result (CasAction R)) w :
  run (cas key (pure_mod f)) w = atomic_update key f w.
Proof. apply run_cas_from. Qed.

(** With no concurrent writer a CAS call is one atomic
    read-modify-write of the live entry - the value it returns, the entry it
    writes or deletes, and the expired entry it sweeps. *)
Theorem cas_sequential {R} key (f : option StoredValue -> Result (CasAction R)) w :
  run (cas key (pure_mod f)) w = atomic_update key f w.
Proof. apply run_cas_from. Qed.

Lemma run_load key w : run (load key) w = (Ok (live w key), gc key w).
Proof.
  unfold load. rewrite run_bind. cbn [trigger run handle]. rewrite kv_load_spec. cbn [run].
  rewrite <- gc_live_lookup. by destruct (store (gc key w) !! key) as [[e v]|].
Qed.

(** ** What other keys and later readers see *)

Lemma live_put_eq key e w :
  live (put key e w) key = if is_expired (clock_ms w) e then None else Some e.
Proof. unfold live, put; cbn. by rewrite lookup_insert_eq. Qed.
Lemma live_put_ne key k2 e w : key <> k2 -> live (put key e w) k2 = live w k2.
Proof. intros. unfold live, put; cbn. by rewrite lookup_insert_ne. Qed.
Lemma live_remove_eq key w : live (remove key w) key = None.
Proof. unfold live, remove; cbn. by rewrite lookup_delete_eq. Qed.
Lemma live_remove_ne key k2 w : key <> k2 -> live (remove key w) k2 = live w k2.
Proof. intros. unfold live, remove; cbn. by rewrite lookup_delete_ne. Qed.
Lemma live_gc_any key k2 w : live (gc key w) k2 = live w k2.
Proof.
  destruct (decide (key = k2)) as [->|Hne]; [apply live_gc|].
  unfold gc. destruct (store w !! key) as [[e v]|]; [|done].
  destruct (is_expired _ _); [|done]. by apply live_remove_ne.
Qed.
Lemma live_not_expired w key e : live w key = Some e -> is_expired (clock_ms w) e = false.
Proof.
  unfold live. destruct (store w !! key) as [[e' v]|]; [|done].
  destruct (is_expired _ e') eqn:E; [done|]. by intros [= <-].
Qed.
Lemma clock_remove key w : clock_ms (remove key w) = clock_ms w.
Proof. done. Qed.
Lemma clock_put key e w : clock_ms (put key e w) = clock_ms w.
Proof. done. Qed.
Lemma clock_gc key w : clock_ms (gc key w) = clock_ms w.
Proof. unfold gc. destruct (store w !! key) as [[e v]|]; [|done]. by destruct (is_expired _ _). Qed.

Lemma atomic_update_other {R} key k2 (f : option StoredValue -> Result (CasAction R)) w :
  key <> k2 -> live (snd (atomic_update key f w)) k2 = live w k2.
Proof.
  intros Hne. unfold atomic_update.
  destruct (f _) as [[e r|r|r]|err]; cbn [snd];
    rewrite ?live_put_ne, ?live_remove_ne by done; apply live_gc_any.
Qed.

Lemma atomic_write {R} key (f : option StoredValue -> Result (CasAction R)) w e r :
  f (live w key) = Ok (Write e r) -> atomic_update key f w = (Ok r, put key e (gc key w)).
Proof. intros Hf. unfold atomic_update. by rewrite live_gc, Hf. Qed.
Lemma atomic_delete {R} key (f : option StoredValue -> Result (CasAction R)) w r :
  f (live w key) = Ok (Delete r) -> atomic_update key f w = (Ok r, remove key (gc key w)).
Proof. intros Hf. unfold atomic_update. by rewrite live_gc, Hf. Qed.
Lemma atomic_noop {R} key (f : option StoredValue -> Result (CasAction R)) w r :
  f (live w key) = Ok (NoOp r) -> atomic_update key f w = (Ok r, gc key w).
Proof. intros Hf. unfold atomic_update. by rewrite live_gc, Hf. Qed.
Lemma atomic_err {R} key (f : option StoredValue -> Result (CasAction R)) w err :
  f (live w key) = Err err -> atomic_update key f w = (Err err, gc key w).
Proof. intros Hf. unfold atomic_update. by rewrite live_gc, Hf. Qed.

Create Rewrite HintDb kv.
#[export] Hint Rewrite @run_bind @run_cas run_load live_gc live_gc_any clock_gc clock_put clock_remove
  live_put_eq live_remove_eq : kv.

(** ** Bounds on the retry loop, against any backend whatever

    [path p evs r]: with some answers from the backend, [p] performs the events
    [evs] and returns [r]. *)

Inductive call := CLoad | CSave | CDelete | CSleep (ms : Z) | COther.
Definition call_of {A} (e : kvE A) : call :=
  match e with
  | KvLoad _ => CLoad
  | KvSave _ _ _ => CSave
  | KvDelete _ _ => CDelete
  | KvSleep ms => CSleep ms
  | _ => COther
  end.

Fixpoint path {R} (p : prog kvE R) (evs : list call) (r : R) : Prop :=
  match p with
  | Ret r' => evs = [] /\ r = r'
  | Vis e k => exists a evs', evs = call_of e :: evs' /\ path (k a) evs' r
  end.

Definition is_load (c : call) : bool := match c with CLoad => true | _ => false end.
Definition is_write (c : call) : bool := match c with CSave | CDelete => true | _ => false end.
Definition slept (evs : list call) : Z :=
  fold_right (fun c s => match c with CSleep m => m + s | _ => s end) 0 evs.
Definition count_calls (f : call -> bool) (evs : list call) : nat := length (List.filter f evs).

(** Total backoff of [m] attempts starting at attempt [a]. *)
Definition backoff_ms (a : Z) : Z := if a =? 0 then 0 else 10 * Z.shiftl 1 (Z.min (a - 1) 4).
Fixpoint backoff_total (a : Z) (m : nat) : Z :=
  match m with
  | O => 0
  | S m' => backoff_ms a + backoff_total (a + 1) m'
  end.

Lemma path_bind {R S} (p : prog kvE R) (g : R -> prog kvE S) evs s :
  path (pbind p g) evs s <-> exists r e1 e2, evs = e1 ++ e2 /\ path p e1 r /\ path (g r) e2 s.
Proof.
  revert evs. induction p as [r|A e k IH]; intros evs; cbn.
  - split; [by intros; exists r, [], evs|]. by intros (? & ? & ? & -> & (-> & ->) & ?).
  - split.
    + intros (a & evs' & -> & (r & e1 & e2 & -> & H1 & H2)%IH).
      exists r, (call_of e :: e1), e2. split; [done|]. split; [|done]. by exists a, e1.
    + intros (r & e1 & e2 & -> & (a & e1' & -> & H1) & H2).
      exists a, (e1' ++ e2). split; [done|]. apply IH. by exists r, e1', e2.
Qed.

Lemma path_backoff a evs u :
  path (cas_backoff a) evs u ->
  slept evs = backoff_ms a /\ count_calls is_load evs = 0%nat /\ count_calls is_write evs = 0%nat.
Proof.
  unfold cas_backoff, backoff_ms. destruct (a =? 0); cbn; [by intros [-> _]|].
  intros (_ & evs' & -> & -> & _). cbn. split; [lia|done].
Qed.

Lemma slept_app l k : slept (l ++ k) = slept l + slept k.
Proof. unfold slept. induction l as [|[] l IH]; cbn; lia. Qed.
Lemma count_calls_app f l k : count_calls f (l ++ k) = (count_calls f l + count_calls f k)%nat.
Proof. unfold count_calls. by rewrite List.filter_app, length_app. Qed.

Lemma cas_from_path {R} key (f : option StoredValue -> Result (CasAction R)) n a evs r :
  path (cas_from key (pure_mod f) n a) evs r ->
  (count_calls is_load evs <= n)%nat /\
  (count_calls is_write evs <= count_calls is_load evs)%nat /\
  slept evs = backoff_total a (count_calls is_load evs).
Proof.
  revert a evs. induction n as [|n IH]; intros a evs; cbn [cas_from].
  { cbn. intros [-> _]. cbn. done. }
  intros (u & e1 & e2 & -> & Hb & H)%path_bind.
  apply path_backoff in Hb as (Hs & Hl & Hw). cbn [trigger pbind path] in H.
  destruct H as (l & e3 & -> & H).
  assert (Hdone : forall r', path (@Ret kvE _ r') e3 r -> e3 = []) by (by intros r' [-> _]).
  rewrite slept_app, !count_calls_app, Hs, Hl, Hw. cbn [call_of slept fold_right].
  assert (Hstop : e3 = [] ->
    (count_calls is_load (CLoad :: e3) <= S n /\ count_calls is_write (CLoad :: e3) <=
       count_calls is_load (CLoad :: e3))%nat /\
    backoff_ms a + slept e3 = backoff_total a (count_calls is_load (CLoad :: e3))).
  { intros ->. cbn. lia. }
  assert (Hretry : forall c e4, is_write c = true -> is_load c = false ->
    (forall m, c <> CSleep m) -> e3 = c :: e4 ->
    e4 = [] \/ path (cas_from key (pure_mod f) n (a + 1)) e4 r ->
    (count_calls is_load (CLoad :: e3) <= S n /\ count_calls is_write (CLoad :: e3) <=
       count_calls is_load (CLoad :: e3))%nat /\
    backoff_ms a + slept e3 = backoff_total a (count_calls is_load (CLoad :: e3))).
  { intros c e4 Hcw Hcl Hcs -> Hor.
    assert (Hsl : slept (c :: e4) = slept e4) by (destruct c; done).
    unfold count_calls. cbn [List.filter is_load is_write]. rewrite Hcw, Hcl, Hsl.
    cbn [length]. fold (count_calls is_load e4) (count_calls is_write e4).
    destruct Hor as [->|Hp]; [cbn; lia|].
    apply IH in Hp as (H1 & H2 & H3). cbn [backoff_total]. lia. }
  cut ((count_calls is_load (CLoad :: e3) <= S n /\ count_calls is_write (CLoad :: e3) <=
         count_calls is_load (CLoad :: e3))%nat /\
       backoff_ms a + slept e3 = backoff_total a (count_calls is_load (CLoad :: e3))).
  { cbn [Nat.add]. intros [[? ?] ?]. auto. }
  destruct l as [[[e t]|]|err]; cbn [pure_mod pbind] in H; [| |by apply Hstop, (Hdone _ H)];
    destruct (f _) as [[e' r'|r'|r']|err]; try (by apply Hstop, (Hdone _ H));
    cbn [trigger pbind path] in H; destruct H as (d & e4 & -> & H);
    (eapply Hretry; [..|done|]; [done|done|done|]);
    (destruct d as [[]|[]]; cbn in H; first [by right | left; by destruct H as [-> _]]).
Qed.


(** The schedule is reached: five contended attempts sleep 150 ms and give up. *)
Example cas_contended :
  path (cas (R := unit) [] (pure_mod (fun _ => Ok (Write {| expires_at_ms := None; value := VString [] |} tt))))
    [CLoad; CSave; CSleep 10; CLoad; CSave; CSleep 20; CLoad; CSave; CSleep 40; CLoad; CSave;
     CSleep 80; CLoad; CSave] (Err Contention).
Proof.
  do 5 (try (exists tt; eexists; split; [reflexivity|]);
    exists (Ok None); eexists; split; [reflexivity|];
    exists (Err Contention); eexists; split; [reflexivity|]).
  done.
Qed.


(** ** Concrete worlds *)

Definition empty_world : world := {| store := ∅; next_version := 0; clock_ms := 1000; clock_nanos := 123456789 |}.
Definition world_of (l : list (Str * StoredValue)) : world :=
  fold_left (fun w ke => put (fst ke) (snd ke) w) l empty_world.
