(* ===== verification/Linearizability.v ===== *)
(** * Linearizability

    Several CAS calls interleaved at the granularity of backend calls, with the
    clock advancing and other clients writing in between.  Every completed call
    takes effect atomically, exactly once, at one point of the interleaving. *)

From S2P Require Import Prelude.
From S2P Require Import Text.
From S2P Require Import BTree.
From S2P Require Import F64.
From S2P Require Import Stream.
From S2P Require Import Value.
From S2P Require Import Backend.

(** One backend call of one thread. *)
Definition step1 {R} (p : prog kvE R) (w : world) : option (prog kvE R * world) :=
  match p with
  | Ret _ => None
  | Vis e k => let '(a, w') := handle e w in Some (k a, w')
  end.

Definition tick (ms nanos : Z) (w : world) : world :=
  {| store := store w; next_version := next_version w; clock_ms := ms; clock_nanos := nanos |}.

(** A read-modify-write at the current physical entry. *)
Definition commit_at {R} (key : Str) (f : option StoredValue -> Result (CasAction R))
    (w : world) : Result R * world :=
  match f (option_map fst (store w !! key)) with
  | Err e => (Err e, w)
  | Ok (NoOp r) => (Ok r, w)
  | Ok (Delete r) => (Ok r, remove key w)
  | Ok (Write e r) => (Ok r, put key e w)
  end.

Section pool.
Context {R : Type}.

(** Thread [i] runs [cas key f] for [specs !! i = Some (key, f)]. *)
Abbreviation closure := (option StoredValue -> Result (CasAction R)).
Variable specs : list (Str * closure).
(** Writes of clients outside the pool. *)
Variable env : world -> world -> Prop.

Definition initial_pool : list (prog kvE (Result R)) :=
  (fun kf => cas (fst kf) (pure_mod (snd kf))) <$> specs.

Inductive pool_step : list (prog kvE (Result R)) * world -> list (prog kvE (Result R)) * world -> Prop :=
| step_thread ths w i p p' w' :
    ths !! i = Some p -> step1 p w = Some (p', w') ->
    pool_step (ths, w) (<[i := p']> ths, w')
| step_tick ths w ms nanos :
    clock_ms w <= ms -> pool_step (ths, w) (ths, tick ms nanos w)
| step_env ths w w' : env w w' -> pool_step (ths, w) (ths, w').

Inductive pool_steps : list (prog kvE (Result R)) * world -> list (prog kvE (Result R)) * world -> Prop :=
| steps_refl c : pool_steps c c
| steps_snoc c c' c'' : pool_steps c c' -> pool_step c' c'' -> pool_steps c c''.

Lemma pool_steps_trans c1 c2 c3 : pool_steps c1 c2 -> pool_steps c2 c3 -> pool_steps c1 c3.
Proof. intros H1 H2. revert H1. induction H2; eauto using steps_snoc. Qed.

(** Runs the threads in the given order, one backend call each. *)
Fixpoint run_schedule (sch : list nat) (c : list (prog kvE (Result R)) * world)
    : option (list (prog kvE (Result R)) * world) :=
  match sch with
  | [] => Some c
  | i :: sch =>
      match fst c !! i with
      | Some p => match step1 p (snd c) with
                  | Some (p', w') => run_schedule sch (<[i := p']> (fst c), w')
                  | None => None
                  end
      | None => None
      end
  end.

Lemma run_schedule_steps sch c c' : run_schedule sch c = Some c' -> pool_steps c c'.
Proof.
  revert c. induction sch as [|i sch IH]; intros [ths w]; cbn; [intros [= <-]; constructor|].
  destruct (ths !! i) as [p|] eqn:Ei; [|done]. destruct (step1 p w) as [[p' w']|] eqn:Es; [|done].
  intros H. eapply pool_steps_trans; [|by apply IH]. eapply steps_snoc; [constructor|by eapply step_thread].
Qed.

(** The atomic system: whole calls commit one at a time; in between expired
    entries are swept, the clock advances and other clients write. *)
Inductive atomic_trace (w0 : world) : list (nat * Result R) -> world -> Prop :=
| at_nil : atomic_trace w0 [] w0
| at_commit tr w i key f res w' :
    atomic_trace w0 tr w -> specs !! i = Some (key, f) ->
    commit_at key f w = (res, w') -> atomic_trace w0 (tr ++ [(i, res)]) w'
| at_gc tr w key : atomic_trace w0 tr w -> atomic_trace w0 tr (gc key w)
| at_tick tr w ms nanos :
    atomic_trace w0 tr w -> clock_ms w <= ms -> atomic_trace w0 tr (tick ms nanos w)
| at_env tr w w' : atomic_trace w0 tr w -> env w w' -> atomic_trace w0 tr w'.

(** ** Versions *)

Definition world_wf (w : world) : Prop :=
  0 <= next_version w /\
  forall k e v, store w !! k = Some (e, v) -> 0 <= v < next_version w.

(** Versions only grow, and an old version still present is the same entry. *)
Definition evolves (w w' : world) : Prop :=
  next_version w <= next_version w' /\
  forall k e v, store w' !! k = Some (e, v) -> v < next_version w -> store w !! k = Some (e, v).

Lemma evolves_refl w : evolves w w.
Proof. split; [lia|auto]. Qed.

Lemma evolves_put key e w : evolves w (put key e w).
Proof.
  split; cbn; [lia|]. intros k e' v Hk Hv. rewrite lookup_insert in Hk.
  case_decide; [|done]. simplify_eq. lia.
Qed.
Lemma wf_put key e w : world_wf w -> world_wf (put key e w).
Proof.
  intros [H0 H]. split; cbn; [lia|]. intros k e' v Hk. rewrite lookup_insert in Hk.
  case_decide; [simplify_eq; lia|]. apply H in Hk. lia.
Qed.
Lemma evolves_remove key w : evolves w (remove key w).
Proof.
  split; cbn; [lia|]. intros k e' v Hk Hv. rewrite lookup_delete in Hk. by case_decide.
Qed.
Lemma wf_remove key w : world_wf w -> world_wf (remove key w).
Proof.
  intros [H0 H]. split; cbn; [lia|]. intros k e' v Hk. rewrite lookup_delete in Hk.
  case_decide; [done|]. eauto.
Qed.
Lemma gc_cases key w : gc key w = w \/ gc key w = remove key w.
Proof. unfold gc. destruct (store w !! key) as [[e v]|]; [destruct (is_expired _ _)|]; auto. Qed.
Lemma evolves_gc key w : evolves w (gc key w).
Proof. destruct (gc_cases key w) as [-> | ->]; auto using evolves_refl, evolves_remove. Qed.
Lemma wf_gc key w : world_wf w -> world_wf (gc key w).
Proof. destruct (gc_cases key w) as [-> | ->]; auto using wf_remove. Qed.

Lemma tok_inj v1 v2 : 0 <= v1 -> 0 <= v2 -> tok v1 = tok v2 -> v1 = v2.
Proof.
  unfold tok, print_Z. intros H1 H2.
  destruct (Z.ltb_spec v1 0), (Z.ltb_spec v2 0); try lia. by apply print_nonneg_inj.
Qed.

(** ** The points a CAS call can be at *)

Definition after_write (key : Str) (f : closure) (n : nat) (a : Z) (r : R)
    (s : Result unit) : prog kvE (Result R) :=
  match s with
  | Ok _ => Ret (Ok r)
  | Err Contention => cas_from key (pure_mod f) n (a + 1)
  | Err err => Ret (Err err)
  end.

Definition after_load (key : Str) (f : closure) (n : nat) (a : Z)
    (l : Result (option (StoredValue * Str))) : prog kvE (Result R) :=
  match l with
  | Err e => Ret (Err e)
  | Ok loaded =>
      match f (option_map fst loaded) with
      | Err e => Ret (Err e)
      | Ok (NoOp r) => Ret (Ok r)
      | Ok (Delete r) =>
          match option_map snd loaded with
          | Some t => Vis (KvDelete key (DIfMatch t)) (after_write key f n a r)
          | None => Ret (Ok r)
          end
      | Ok (Write e r) =>
          Vis (KvSave key e (match option_map snd loaded with Some t => IfMatch t | None => CreateOnly end))
              (after_write key f n a r)
      end
  end.

(** The entry [e] was loaded at version [v], and no other entry of this key
    can carry that version. *)
Definition loaded_at (w : world) (key : Str) (e : StoredValue) (v : Z) : Prop :=
  0 <= v < next_version w /\ forall e', store w !! key = Some (e', v) -> e' = e.

Inductive phase (key : Str) (f : closure) (w : world) : prog kvE (Result R) -> Prop :=
| ph_start n a : phase key f w (cas_from key (pure_mod f) n a)
| ph_load n a p : (forall l, p l = after_load key f n a l) -> phase key f w (Vis (KvLoad key) p)
| ph_create n a e r :
    f None = Ok (Write e r) ->
    phase key f w (Vis (KvSave key e CreateOnly) (after_write key f n a r))
| ph_save n a e0 v e r :
    loaded_at w key e0 v -> f (Some e0) = Ok (Write e r) ->
    phase key f w (Vis (KvSave key e (IfMatch (tok v))) (after_write key f n a r))
| ph_delete n a e0 v r :
    loaded_at w key e0 v -> f (Some e0) = Ok (Delete r) ->
    phase key f w (Vis (KvDelete key (DIfMatch (tok v))) (after_write key f n a r)).

Lemma loaded_at_evolves w w' key e v : evolves w w' -> loaded_at w key e v -> loaded_at w' key e v.
Proof.
  intros [H1 H2] [H3 H4]. split; [lia|]. intros e' He'. apply H4, H2; [done|lia].
Qed.

Lemma phase_evolves key f w w' p : evolves w w' -> phase key f w p -> phase key f w' p.
Proof. intros He. destruct 1; econstructor; eauto using loaded_at_evolves. Qed.

Lemma phase_ret key f w res : phase key f w (Ret res) -> res = Err Contention.
Proof.
  remember (Ret res) as p eqn:Hp. destruct 1; try done.
  destruct n as [|n]; cbn in Hp; [by injection Hp|].
  unfold cas_backoff in Hp. by destruct (a =? 0).
Qed.

Lemma cas_from_S key f n a :
  exists K, cas_from key (pure_mod f) (S n) a =
            pbind (cas_backoff a) (fun _ => Vis (KvLoad key) K) /\
            forall l, K l = after_load key f n a l.
Proof.
  eexists. split; [reflexivity|]. intros [[[e t]|]|err]; cbn; try done;
    destruct (f _) as [[e' r|r|r]|err]; done.
Qed.

(** What one backend call does to an uncommitted CAS call: either it stays
    uncommitted and the world changes at most by a sweep, or the call ends and
    the whole update takes effect at once. *)
Lemma phase_step key f w p p' w' :
  world_wf w -> phase key f w p -> step1 p w = Some (p', w') ->
  (phase key f w' p' /\ (w' = w \/ w' = gc key w)) \/
  (exists res w1, (w1 = w \/ w1 = gc key w) /\ p' = Ret res /\ commit_at key f w1 = (res, w')).
Proof.
  intros Hwf Hp Hs.
  assert (Hload : forall n a K, (forall l, K l = after_load key f n a l) ->
    step1 (Vis (KvLoad key) K) w = Some (p', w') ->
    (phase key f w' p' /\ (w' = w \/ w' = gc key w)) \/
    (exists res w1, (w1 = w \/ w1 = gc key w) /\ p' = Ret res /\ commit_at key f w1 = (res, w'))).
  { intros n a K HK Hst. cbn [step1 handle] in Hst. rewrite kv_load_spec in Hst.
    injection Hst as <- <-. rewrite HK. unfold after_load, commit_at.
    destruct (wf_gc key w Hwf) as [_ Hv].
    destruct (store (gc key w) !! key) as [[e v]|] eqn:E; cbn [option_map fst snd];
      destruct (f _) as [[e' r|r|r]|err] eqn:Ef;
      try (right; eexists _, (gc key w); split; [by right|]; split; [done|];
           rewrite E; cbn [option_map fst]; rewrite Ef; try done;
           unfold remove; rewrite delete_id by done; by destruct (gc key w));
      left; (split; [|by right]).
    - eapply ph_save; [|done]. split; [eauto|]. intros e2. rewrite E. by intros [= ->].
    - eapply ph_delete; [|done]. split; [eauto|]. intros e2. rewrite E. by intros [= ->].
    - by apply ph_create. }
  assert (Hretry : forall n a r s, (s = Ok tt -> False) -> s = Err Contention ->
    phase key f w (after_write key f n a r s)).
  { intros n a r s _ ->. cbn. constructor. }
  destruct Hp as [n a|n a K HK|n a e r Hf|n a e0 v e r [Hv Hl] Hf|n a e0 v r [Hv Hl] Hf].
  - destruct n as [|n]; [done|]. destruct (cas_from_S key f n a) as (K & EK & HK).
    rewrite EK in Hs. unfold cas_backoff in Hs. destruct (a =? 0).
    + by eapply Hload.
    + cbn in Hs. injection Hs as <- <-. left. split; [|by left]. by eapply ph_load.
  - by eapply Hload.
  - cbn [step1 handle] in Hs. unfold kv_save in Hs.
    destruct (store w !! key) as [[e1 v1]|] eqn:E; injection Hs as <- <-.
    + left. split; [cbn; constructor|by left].
    + right. eexists _, w. split; [by left|]. split; [done|].
      unfold commit_at. rewrite E. cbn. by rewrite Hf.
  - cbn [step1 handle] in Hs. unfold kv_save in Hs.
    destruct (store w !! key) as [[e1 v1]|] eqn:E; [case_bool_decide as Ht|]; injection Hs as <- <-;
      try (left; split; [cbn; constructor|by left]).
    destruct Hwf as [_ Hv1]. apply tok_inj in Ht as <-; [|lia|by apply Hv1 in E; lia].
    specialize (Hl e1). rewrite ?E in Hl. specialize (Hl eq_refl). subst e1. right. eexists _, w. split; [by left|]. split; [done|].
    unfold commit_at. rewrite E. cbn. by rewrite Hf.
  - cbn [step1 handle] in Hs. unfold kv_delete in Hs.
    destruct (store w !! key) as [[e1 v1]|] eqn:E; [case_bool_decide as Ht|]; injection Hs as <- <-;
      try (left; split; [cbn; constructor|by left]).
    destruct Hwf as [_ Hv1]. apply tok_inj in Ht as <-; [|lia|by apply Hv1 in E; lia].
    specialize (Hl e1). rewrite ?E in Hl. specialize (Hl eq_refl). subst e1. right. eexists _, w. split; [by left|]. split; [done|].
    unfold commit_at. rewrite E. cbn. by rewrite Hf.
Qed.

Lemma commit_evolves key (f : closure) w res w' : commit_at key f w = (res, w') -> evolves w w'.
Proof.
  unfold commit_at. destruct (f _) as [[e r|r|r]|err]; intros [= <- <-];
    auto using evolves_refl, evolves_put, evolves_remove.
Qed.
Lemma commit_wf key (f : closure) w res w' : world_wf w -> commit_at key f w = (res, w') -> world_wf w'.
Proof.
  unfold commit_at. destruct (f _) as [[e r|r|r]|err]; intros ? [= <- <-];
    auto using wf_put, wf_remove.
Qed.

Lemma evolves_trans w1 w2 w3 : evolves w1 w2 -> evolves w2 w3 -> evolves w1 w3.
Proof. intros [A1 A2] [B1 B2]. split; [lia|]. intros k e v Hk Hv. apply A2; [apply B2|]; auto. lia. Qed.

(** ** The invariant of the pool *)

Hypothesis env_versioned : forall w w', world_wf w -> env w w' -> evolves w w' /\ world_wf w'.

Record pool_inv (w0 : world) (tr : list (nat * Result R))
    (ths : list (prog kvE (Result R))) (w : world) : Prop := {
  pi_trace : atomic_trace w0 tr w;
  pi_wf : world_wf w;
  pi_nodup : NoDup (map fst tr);
  pi_length : length ths = length specs;
  pi_threads : forall i key f p, specs !! i = Some (key, f) -> ths !! i = Some p ->
    (phase key f w p /\ i ∉ map fst tr) \/ (exists res, p = Ret res /\ (i, res) ∈ tr);
}.

Lemma pool_inv_initial w0 : world_wf w0 -> pool_inv w0 [] initial_pool w0.
Proof.
  intros Hwf. split; try done.
  - constructor.
  - constructor.
  - unfold initial_pool. apply length_fmap.
  - intros i key f p Hs Hp. left. split; [|cbn; apply not_elem_of_nil].
    unfold initial_pool in Hp. rewrite list_lookup_fmap, Hs in Hp.
    cbn -[cas] in Hp. injection Hp as <-.
    exact (ph_start key f w0 MAX_CAS_RETRIES 0).
Qed.

(** Other threads keep their place when the world evolves. *)
Lemma pool_inv_env w0 tr ths w w' :
  pool_inv w0 tr ths w -> atomic_trace w0 tr w' -> evolves w w' -> world_wf w' ->
  pool_inv w0 tr ths w'.
Proof.
  intros [H1 H2 H3 H4 H5] Ht He Hwf. split; try done.
  intros i key f p Hs Hp. destruct (H5 i key f p Hs Hp) as [[Hph Hni]|Hd]; [|by right].
  left. split; [|done]. by eapply phase_evolves.
Qed.

Lemma pool_inv_step w0 tr c c' :
  pool_inv w0 tr c.1 c.2 -> pool_step c c' -> exists tr', pool_inv w0 tr' c'.1 c'.2.
Proof.
  intros Hinv Hstep. destruct Hstep as [ths w i p p' w' Hi Hs|ths w m n Hc|ths w w' He]; cbn in *.
  - pose proof (pi_length _ _ _ _ Hinv) as Hlen.
    destruct (specs !! i) as [[key f]|] eqn:Espec.
    2: { apply lookup_ge_None in Espec. apply lookup_lt_Some in Hi. lia. }
    pose proof (pi_wf _ _ _ _ Hinv) as Hwf.
    destruct (pi_threads _ _ _ _ Hinv i key f p Espec Hi) as [[Hph Hni]|(res & -> & _)]; [|done].
    destruct (phase_step key f w p p' w' Hwf Hph Hs) as [[Hph' Hw']|(res & w1 & Hw1 & -> & Hc)].
    + exists tr.
      assert (Hev : evolves w w') by (destruct Hw' as [-> | ->]; auto using evolves_refl, evolves_gc).
      assert (Hwf' : world_wf w') by (destruct Hw' as [-> | ->]; auto using wf_gc).
      assert (Htr : atomic_trace w0 tr w').
      { destruct Hw' as [-> | ->]; [apply Hinv|apply at_gc, Hinv]. }
      destruct (pool_inv_env _ _ _ _ _ Hinv Htr Hev Hwf') as [H1 H2 H3 H4 H5].
      split; try done; [by rewrite length_insert|].
      intros j key2 f2 q Hj Hq. destruct (decide (i = j)) as [<-|Hne].
      * rewrite list_lookup_insert_eq in Hq by by eapply lookup_lt_Some.
        injection Hq as <-. rewrite Espec in Hj. injection Hj as <- <-. by left.
      * rewrite list_lookup_insert_ne in Hq by done. eauto.
    + exists (tr ++ [(i, res)]).
      assert (Hev1 : evolves w w1) by (destruct Hw1 as [-> | ->]; auto using evolves_refl, evolves_gc).
      assert (Hwf1 : world_wf w1) by (destruct Hw1 as [-> | ->]; auto using wf_gc).
      assert (Htr1 : atomic_trace w0 tr w1).
      { destruct Hw1 as [-> | ->]; [apply Hinv|apply at_gc, Hinv]. }
      pose proof (evolves_trans _ _ _ Hev1 (commit_evolves _ _ _ _ _ Hc)) as Hev.
      split.
      * by eapply at_commit.
      * by eapply commit_wf.
      * rewrite map_app. apply NoDup_app. split; [apply Hinv|]. split.
        -- intros x Hx. cbn. rewrite list_elem_of_singleton. by intros ->.
        -- cbn. apply NoDup_singleton.
      * by rewrite length_insert.
      * intros j key2 f2 q Hj Hq. destruct (decide (i = j)) as [<-|Hne].
        -- rewrite list_lookup_insert_eq in Hq by by eapply lookup_lt_Some.
           injection Hq as <-. right. exists res. split; [done|].
           apply elem_of_app. right. by apply list_elem_of_singleton.
        -- rewrite list_lookup_insert_ne in Hq by done.
           destruct (pi_threads _ _ _ _ Hinv j key2 f2 q Hj Hq) as [[Hph2 Hn2]|(res2 & -> & Hin)].
           ++ left. split; [by eapply phase_evolves|]. rewrite map_app. cbn.
              rewrite elem_of_app, list_elem_of_singleton. by intros [?| ->].
           ++ right. exists res2. split; [done|]. apply elem_of_app. by left.
  - exists tr. eapply pool_inv_env; [done|by eapply at_tick, Hc; apply Hinv| |].
    + by split.
    + apply (pi_wf _ _ _ _ Hinv).
  - exists tr. destruct (env_versioned w w' (pi_wf _ _ _ _ Hinv) He) as [Hev Hwf'].
    eapply pool_inv_env; [done| |done|done]. eapply at_env; [apply Hinv|done].
Qed.

Lemma pool_inv_steps w0 ths w :
  world_wf w0 -> pool_steps (initial_pool, w0) (ths, w) -> exists tr, pool_inv w0 tr ths w.
Proof.
  intros Hwf. remember (initial_pool, w0) as c0 eqn:E0. remember (ths, w) as c eqn:E.
  intros Hsteps. revert ths w E. induction Hsteps as [c|c c' c'' Hs IH Hstep]; intros ths w ->.
  - injection E0 as -> ->. exists []. by apply pool_inv_initial.
  - destruct c' as [ths' w']. destruct (IH E0 ths' w' eq_refl) as (tr & Hinv).
    by apply (pool_inv_step w0 tr (ths', w')) in Hstep.
Qed.

Lemma atomic_trace_threads w0 tr w i res :
  atomic_trace w0 tr w -> (i, res) ∈ tr -> (i < length specs)%nat.
Proof.
  induction 1 as [|tr w j key f res' w' _ IH Hs _| | |]; auto.
  - by intros ?%not_elem_of_nil.
  - rewrite elem_of_app, list_elem_of_singleton. intros [?|[= -> ->]]; [auto|].
    by eapply lookup_lt_Some.
Qed.

Lemma pool_inv_committed w0 tr ths w i res :
  pool_inv w0 tr ths w -> (i, res) ∈ tr -> ths !! i = Some (Ret res).
Proof.
  intros Hinv Hin.
  pose proof (atomic_trace_threads _ _ _ _ _ (pi_trace _ _ _ _ Hinv) Hin) as Hlt.
  assert (Hfst : i ∈ map fst tr).
  { apply list_elem_of_In. apply list_elem_of_In in Hin. by apply (in_map fst) in Hin. }
  pose proof (pi_length _ _ _ _ Hinv) as Hlen.
  destruct (lookup_lt_is_Some_2 specs i Hlt) as [[key f] Hs].
  destruct (lookup_lt_is_Some_2 ths i ltac:(lia)) as [p Hp].
  destruct (pi_threads _ _ _ _ Hinv i key f p Hs Hp) as [[_ ?]|(res' & -> & Hin')]; [done|].
  rewrite Hp. do 2 f_equal.
  pose proof (pi_nodup _ _ _ _ Hinv) as Hnd. clear -Hin Hin' Hnd.
  induction tr as [|[j r] tr IH]; [by apply not_elem_of_nil in Hin|]. cbn in Hnd.
  apply NoDup_cons in Hnd as [Hj Hnd]. rewrite elem_of_cons in Hin, Hin'.
  assert (Hno : forall r', (j, r') ∈ tr -> False).
  { intros r' Hr. apply Hj, list_elem_of_In. apply list_elem_of_In in Hr.
    by apply (in_map fst) in Hr. }
  destruct Hin as [E|Hin], Hin' as [E'|Hin'].
  - congruence.
  - injection E as -> ->. by apply Hno in Hin'.
  - injection E' as -> ->. by apply Hno in Hin.
  - eauto.
Qed.

Lemma pool_linear w0 ths w :
  world_wf w0 -> pool_steps (initial_pool, w0) (ths, w) ->
  exists tr, atomic_trace w0 tr w /\ NoDup (map fst tr) /\
    (forall i res, (i < length specs)%nat -> ths !! i = Some (Ret res) ->
      (i, res) ∈ tr \/ (res = Err Contention /\ i ∉ map fst tr)) /\
    (forall i res, (i, res) ∈ tr -> ths !! i = Some (Ret res)).
Proof.
  intros Hwf Hsteps. destruct (pool_inv_steps w0 ths w Hwf Hsteps) as (tr & Hinv).
  exists tr. split; [apply Hinv|]. split; [apply Hinv|]. split; intros i res.
  - intros Hi Hth. apply lookup_lt_is_Some in Hi as [[key f] Hs].
    destruct (pi_threads _ _ _ _ Hinv i key f _ Hs Hth) as [[Hph Hni]|(res' & E & Hin)].
    + right. split; [by eapply phase_ret|done].
    + injection E as ->. by left.
  - intros Hin. by eapply pool_inv_committed.
Qed.

(** C2: run any number of CAS calls concurrently, interleaved
    call by call with each other, with the clock and with any other versioned
    writes.  The world reached is one the atomic system reaches, with a trace
    of commits in which every call occurs at most once; a call that has
    returned either committed, with exactly the result it returned, or is
    absent from the trace and returned [Contention]: it has no effect. *)
Theorem cas_linearizable w0 ths w :
  world_wf w0 -> pool_steps (initial_pool, w0) (ths, w) ->
  exists tr, atomic_trace w0 tr w /\ NoDup (map fst tr) /\
    (forall i res, (i < length specs)%nat -> ths !! i = Some (Ret res) ->
      (i, res) ∈ tr \/ (res = Err Contention /\ i ∉ map fst tr)) /\
    (forall i res, (i, res) ∈ tr -> ths !! i = Some (Ret res)).
Proof. apply pool_linear. Qed.
End pool.

Lemma world_wf_empty : world_wf empty_world.
Proof. split; [done|]. intros k e v. cbn. by rewrite lookup_empty. Qed.
Lemma world_wf_of l : world_wf (world_of l).
Proof.
  unfold world_of. generalize world_wf_empty. generalize empty_world.
  induction l as [|[k e] l IH]; cbn; auto using wf_put.
Qed.

(** Two clients race to create one key: both read before either writes. *)
Definition racers : list (Str * (option StoredValue -> Result (CasAction bool))) :=
  let f (e : option StoredValue) := match e with
    | Some _ => Ok (NoOp false)
    | None => Ok (Write {| expires_at_ms := None; value := VString [] |} true) end in
  [([], f); ([], f)].

Lemma cas_linearizable_witness :
  exists ths w, run_schedule [0; 1; 0; 1; 1; 1]%nat (initial_pool racers, empty_world) = Some (ths, w) /\
    ths = [Ret (Ok true); Ret (Ok false)] /\
    exists tr, atomic_trace racers (fun _ _ => False) empty_world tr w /\ NoDup (map fst tr) /\
      (0%nat, Ok true) ∈ tr /\ (1%nat, Ok false) ∈ tr.
Proof.
  assert (Ht : option_map fst (run_schedule [0; 1; 0; 1; 1; 1]%nat (initial_pool racers, empty_world)) =
               Some [Ret (Ok true); Ret (Ok false)]) by (vm_compute; reflexivity).
  destruct (run_schedule [0; 1; 0; 1; 1; 1]%nat (initial_pool racers, empty_world)) as [[ths w]|] eqn:E;
    [|discriminate Ht].
  exists ths, w. split; [reflexivity|]. injection Ht as Ht.
  split; [exact Ht|].
  destruct (cas_linearizable racers (fun _ _ => False) (fun _ _ _ H => False_ind _ H) empty_world ths w
    world_wf_empty (run_schedule_steps _ _ _ _ E)) as (tr & Htr & Hnd & Hret & _).
  exists tr. split; [exact Htr|]. split; [exact Hnd|]. subst ths. split.
  - destruct (Hret 0%nat (Ok true) ltac:(vm_compute; lia) eq_refl) as [H|[H _]]; [exact H|discriminate H].
  - destruct (Hret 1%nat (Ok false) ltac:(vm_compute; lia) eq_refl) as [H|[H _]]; [exact H|discriminate H].
Defined.
