(* ===== verification/Contracts.v ===== *)
(** * Contracts

    What every read-modify-write closure of [KVStorage] promises, as type
    classes the components discharge, and the theorems proved once against
    them: keyspace well-formedness under any interleaving, type safety, TTL
    preservation. *)

From S2P Require Import Prelude.
From S2P Require Import Text.
From S2P Require Import BTree.
From S2P Require Import F64.
From S2P Require Import Stream.
From S2P Require Import Value.
From S2P Require Import Backend.
From S2P Require Import Linearizability.

Definition entry_wf (e : StoredValue) : Prop := value_wf (value e).
Definition option_wf (e : option StoredValue) : Prop :=
  match e with Some e => entry_wf e | None => True end.

(** [{ expires_at_ms: exp, value: v }] *)
Definition mk_entry (exp : option Z) (v : Value) : StoredValue :=
  {| expires_at_ms := exp; value := v |}.

Definition ttl_of (e : option StoredValue) : option Z :=
  match e with Some e => expires_at_ms e | None => None end.

Section contracts.
Context {R : Type}.
Implicit Types f : option StoredValue -> Result (CasAction R).

(** Only well-formed entries are ever written. *)
Class WfClosure f : Prop := wf_closure :
  forall e e' r, option_wf e -> f e = Ok (Write e' r) -> entry_wf e'.

(** The closure of a command on values of kind [k]: another kind is WRONGTYPE,
    what it writes is of kind [k], well-formed, and keeps the key's TTL. *)
Class CollectionOp (k : ValueKind) (key : Str) f : Prop := {
  co_wf : WfClosure f;
  co_type : forall e, ValueKind_of (value e) <> k -> f (Some e) = Err (wrong_type key);
  co_kind : forall e e' r, f e = Ok (Write e' r) -> ValueKind_of (value e') = k;
  co_ttl : forall e e' r, f e = Ok (Write e' r) -> expires_at_ms e' = ttl_of e;
}.
#[export] Existing Instance co_wf.
End contracts.

(** Every entry of the keyspace is well-formed. *)
Definition keyspace_wf (w : world) : Prop := map_Forall (fun _ ev => entry_wf (fst ev)) (store w).

Lemma keyspace_wf_remove key w : keyspace_wf w -> keyspace_wf (remove key w).
Proof. apply map_Forall_delete. Qed.
Lemma keyspace_wf_gc key w : keyspace_wf w -> keyspace_wf (gc key w).
Proof. destruct (gc_cases key w) as [-> | ->]; auto using keyspace_wf_remove. Qed.
Lemma keyspace_wf_put key e w : entry_wf e -> keyspace_wf w -> keyspace_wf (put key e w).
Proof. intros ? ?. by apply map_Forall_insert_2. Qed.

Lemma keyspace_wf_live key w : keyspace_wf w -> option_wf (live w key).
Proof.
  intros Hw. unfold live. destruct (store w !! key) as [[e v]|] eqn:E; [|done].
  destruct (is_expired _ e); [done|]. by apply (Hw key (e, v)).
Qed.

Section clients.
Context {R : Type}.
Implicit Types f : option StoredValue -> Result (CasAction R).

Lemma keyspace_wf_commit key f w res w' :
  WfClosure f -> keyspace_wf w -> commit_at key f w = (res, w') -> keyspace_wf w'.
Proof.
  intros Hf Hw. unfold commit_at. destruct (f _) as [[e r|r|r]|err] eqn:E; intros [= <- <-];
    auto using keyspace_wf_remove.
  apply keyspace_wf_put; [|done]. eapply Hf; [|done].
  destruct (store w !! key) as [[e0 v]|] eqn:E0; [|done]. by apply (Hw key (e0, v)).
Qed.

Lemma keyspace_wf_trace specs (env : world -> world -> Prop) w0 tr w :
  Forall (fun kf => WfClosure (snd kf)) specs ->
  (forall w w', keyspace_wf w -> env w w' -> keyspace_wf w') ->
  keyspace_wf w0 -> atomic_trace (R := R) specs env w0 tr w -> keyspace_wf w.
Proof.
  intros Hf He H0. induction 1 as [|tr w i key f res w' _ IH Hs Hc|tr w k _ IH|tr w m n _ IH _|tr w w' _ IH Hw];
    eauto using keyspace_wf_gc.
  eapply keyspace_wf_commit; [|done..]. by eapply Forall_lookup in Hs; [|done].
Qed.

(** Sequentially: one command on a disciplined closure. *)
Lemma collection_op_run k key ekey f w :
  CollectionOp k ekey f -> keyspace_wf w ->
  let w' := snd (run (cas key (pure_mod f)) w) in
  keyspace_wf w' /\
  (forall k2, key <> k2 -> live w' k2 = live w k2) /\
  (forall e, live w key = Some e -> ValueKind_of (value e) <> k ->
     run (cas key (pure_mod f)) w = (Err (wrong_type ekey), gc key w)) /\
  (forall e, live w' key = Some e ->
     live w' key = live w key \/
     ValueKind_of (value e) = k /\ expires_at_ms e = ttl_of (live w key)).
Proof.
  intros [Hwf Htype Hkind Httl] Hw. cbv zeta. rewrite run_cas.
  split; [|split; [|split]].
  - unfold atomic_update. rewrite live_gc. pose proof (keyspace_wf_gc key w Hw) as Hg.
    destruct (f _) as [[e r|r|r]|err] eqn:E; cbn; auto using keyspace_wf_remove.
    apply keyspace_wf_put; [|done]. eapply Hwf; [|done]. by apply keyspace_wf_live.
  - intros k2 Hne. by apply atomic_update_other.
  - intros e He Hk. unfold atomic_update. by rewrite live_gc, He, Htype.
  - intros e. unfold atomic_update. rewrite live_gc.
    destruct (f _) as [[e' r|r|r]|err] eqn:E; cbn [snd]; rewrite ?live_gc; auto.
    + rewrite live_put_eq. destruct (is_expired _ _); [done|]. intros [= <-]. right. eauto.
    + by rewrite live_remove_eq.
Qed.
End clients.

Create Rewrite HintDb op.

(** Discharges a [CollectionOp] once the closure is unfolded and its loops are
    rewritten by the [op] database: follow its [match]es in each of the four laws. *)
Ltac op_cases := repeat (progress simplify_eq/= || case_match); try done.
Ltac collection_op unfold_it :=
  constructor;
    [ intros [[? []]|] e' r; unfold option_wf, entry_wf; unfold_it; cbn; autorewrite with op; intros; op_cases;
      try (by destruct_and?; split_and?; eauto with btree value)
    | intros [? []]; unfold_it; cbn; autorewrite with op; by intros ?
    | intros [[? []]|] e' r; unfold_it; cbn; autorewrite with op; intros; op_cases
    | intros [[? []]|] e' r; unfold_it; cbn; autorewrite with op; intros; op_cases ].
Create HintDb value.

(** ** Entries a command reads and writes back *)

(** What the key holds: [v] with TTL [exp], or the default of a missing key. *)
Definition holds (dflt : Value) (e : option StoredValue) (v : Value) (exp : option Z) : Prop :=
  e = Some (mk_entry exp v) \/ (e = None /\ v = dflt /\ exp = None).

Lemma holds_not_expired w key d v exp v' :
  holds d (live w key) v exp -> is_expired (clock_ms w) (mk_entry exp v') = false.
Proof.
  intros [H|(_ & _ & ->)]; [|done]. apply live_not_expired in H. by unfold is_expired in *.
Qed.
