(* ===== verification/Collections.v ===== *)
(** * Collections

    The helpers of src/storage.rs that the collection commands share: index
    windows, the random samplers, and the paginator of HSCAN / SSCAN / ZSCAN. *)

From S2P Require Import Prelude.
From S2P Require Import Text.
From S2P Require Import BTree.
From S2P Require Import F64.
From S2P Require Import Stream.
From S2P Require Import Value.
From S2P Require Import Backend.

(** ** Index windows *)

(** LRANGE, ZRANGE, ZREVRANGE, ZREMRANGEBYRANK. *)
Definition norm_index (l i : Z) : Z := if i <? 0 then Z.max (l + i) 0 else Z.min i (l - 1).
Definition resolve_range (l start stop : Z) : option (Z * Z) :=
  if l =? 0 then None
  else
    let s := norm_index l start in
    let e := norm_index l stop in
    if e <? s then None else Some (usize_of_i64 s 0, usize_of_i64 e 0).

(** LTRIM: the kept window, the end exclusive. *)
Definition resolve_trim_range (l start stop : Z) : option (Z * Z) :=
  if l =? 0 then None
  else
    let len_i := i64_of_usize l in
    let s := if start <? 0 then Z.max (len_i + start) 0 else start in
    let e := if stop <? 0 then len_i + stop else Z.min stop (len_i - 1) in
    if (len_i <=? s) || (e <? 0) || (e <? s) then None
    else Some (usize_of_i64 s 0, usize_of_i64 e 0 + 1).

(** [v[s..=e]] *)
Definition slice_incl {A} (l : list A) (s e : Z) : list A := slice l s (e + 1).

(** ** Sampling *)

Definition xorshift (x : Z) : Z :=
  let x := Z.lxor x (wrap_u64 (Z.shiftl x 13)) in
  let x := Z.lxor x (Z.shiftr x 7) in
  Z.lxor x (wrap_u64 (Z.shiftl x 17)).

(** [pseudo_rand_u64] once the clock has answered [d] nanoseconds. *)
Definition rand_of_nanos (d : Z) : Z :=
  let nanos := if d <=? u64_max then d else u64_max in
  xorshift (Z.lxor nanos 0x2545F4914F6CDD1D).
Definition pseudo_rand_u64 : prog kvE Z :=
  let! d := trigger KvNowNanos in Ret (rand_of_nanos d).

(** [ordered[i]] for an index the caller has bounded. *)
Definition at_index {A} (ordered : list A) (i : Z) : list A :=
  match ordered !! Z.to_nat i with Some x => [x] | None => [] end.

(** [(0..take).map(|i| ordered[(start + i) % len])] *)
Definition rotation {A} (ordered : list A) (start take : Z) : list A :=
  flat_map (fun i => at_index ordered ((start + Z.of_nat i) mod len ordered)) (List.seq 0 (Z.to_nat take)).

(** [(0..n).map(|_| { xorshift rng; ordered[rng % len] })] *)
Fixpoint draws {A} (ordered : list A) (rng : Z) (n : nat) : list A :=
  match n with
  | O => []
  | S n' =>
      let rng := xorshift rng in
      at_index ordered (rng mod len ordered) ++ draws ordered rng n'
  end.

Definition pick_random_unique (s : bset Str) (count : Z) : prog kvE (list Str) :=
  if bt_is_empty s || (count =? 0) then Ret []
  else
    let ordered := bs_elems s in
    let take := Z.min count (len ordered) in
    let! r := pseudo_rand_u64 in
    let start := r mod len ordered in
    Ret (rotation ordered start take).

Definition pick_random (s : bset Str) (count : Z) (allow_duplicates : bool) : prog kvE (list Str) :=
  if bt_is_empty s || (count <=? 0) then Ret []
  else
    let ordered := bs_elems s in
    if negb allow_duplicates then pick_random_unique s count
    else
      let! rng := pseudo_rand_u64 in
      Ret (draws ordered rng (Z.to_nat count)).

(** [pick_random_from_hash] and [pick_random_from_zset] are this function at
    their value types. *)
Definition pick_random_from_map {V} (m : btree Str V) (count : Z) (allow_duplicates : bool)
    : prog kvE (list (Str * V)) :=
  if bt_is_empty m || (count =? 0) then Ret []
  else
    let ordered : list (Str * V) := m in
    if negb allow_duplicates then
      let take := Z.min (usize_of_i64 count 0) (len ordered) in
      let! r := pseudo_rand_u64 in
      let start := r mod len ordered in
      Ret (rotation ordered start take)
    else
      let! rng := pseudo_rand_u64 in
      Ret (draws ordered rng (Z.to_nat (Z.abs count))).
Definition pick_random_from_hash : btree Str (list byte) -> Z -> bool -> prog kvE (list (Str * list byte)) :=
  pick_random_from_map.
Definition pick_random_from_zset : btree Str f64 -> Z -> bool -> prog kvE (list (Str * f64)) :=
  pick_random_from_map.

(** ** Sorting *)

(** [slice::sort_by] and [sort_by_key]: the stable sort.  Rust leaves the result unspecified when
    the comparison is not a total order. *)
Fixpoint insert_by {A} (cmp : A -> A -> comparison) (x : A) (l : list A) : list A :=
  match l with
  | [] => [x]
  | y :: r => match cmp x y with Gt => y :: insert_by cmp x r | _ => x :: l end
  end.
Fixpoint sort_by {A} (cmp : A -> A -> comparison) (l : list A) : list A :=
  match l with
  | [] => []
  | x :: r => insert_by cmp x (sort_by cmp r)
  end.

Lemma insert_by_perm {A} (cmp : A -> A -> comparison) x l : insert_by cmp x l ≡ₚ x :: l.
Proof.
  induction l as [|y l IH]; cbn; [done|]. destruct (cmp x y); [done|done|].
  rewrite IH. by apply perm_swap.
Qed.
Lemma sort_by_perm {A} (cmp : A -> A -> comparison) l : sort_by cmp l ≡ₚ l.
Proof. induction l as [|x l IH]; cbn; [done|]. by rewrite insert_by_perm, IH. Qed.

(** ** Cursor pagination

    [matches p s] is [wildmatch::WildMatch::new(p).matches(s)], a crate the
    code only calls. *)
Section scan.
Variable matches : Str -> Str -> bool.

Definition apply_collection_scan {T} (items : list T) (cursor count : Z) (pattern : option Str)
    (extract_name : T -> Str) : Z * list T :=
  let total := len items in
  let offset := cursor in
  if total <=? offset then (0, [])
  else
    let end_ := Z.min (Z.min usize_max (offset + count)) total in
    let next_cursor := if total <=? end_ then 0 else end_ in
    let batch := take (Z.to_nat (end_ - offset)) (drop (Z.to_nat offset) items) in
    let filtered :=
      match pattern with
      | Some p => if negb (str_eqb p (bs "*"))
                  then List.filter (fun x => matches p (extract_name x)) batch
                  else batch
      | None => batch
      end in
    (next_cursor, filtered).

(** What a client does: follow the cursors from [0] until [0] comes back.
    [None]: not done after [fuel] pages. *)
Fixpoint scan_all {T} (fuel : nat) (items : list T) (cursor count : Z) (pattern : option Str)
    (extract_name : T -> Str) : option (list T) :=
  match fuel with
  | O => None
  | S f =>
      let '(next, page) := apply_collection_scan items cursor count pattern extract_name in
      if next =? 0 then Some page
      else option_map (app page) (scan_all f items next count pattern extract_name)
  end.

Definition pattern_filter {T} (pattern : option Str) (extract_name : T -> Str) (l : list T) : list T :=
  match pattern with
  | Some p => if negb (str_eqb p (bs "*")) then List.filter (fun x => matches p (extract_name x)) l else l
  | None => l
  end.

Lemma pattern_filter_app {T} p (name : T -> Str) l k :
  pattern_filter p name (l ++ k) = pattern_filter p name l ++ pattern_filter p name k.
Proof. destruct p as [p|]; cbn; [|done]. destruct (negb _); [apply List.filter_app|done]. Qed.

Lemma scan_all_from {T} (items : list T) pattern name count fuel cursor :
  0 < count -> len items <= usize_max -> 0 <= cursor ->
  (cursor < len items \/ cursor = 0) ->
  (Z.to_nat (len items - cursor) < fuel)%nat ->
  scan_all fuel items cursor count pattern name =
    Some (pattern_filter pattern name (drop (Z.to_nat cursor) items)).
Proof.
  intros Hc Hlen. revert cursor. induction fuel as [|f IH]; intros cursor H0 H1 Hf; [lia|].
  cbn [scan_all]. unfold apply_collection_scan. destruct (Z.leb_spec (len items) cursor) as [Hle|Hlt].
  { cbn. assert (items = []) as -> by (destruct items; unfold len in *; cbn in *; [done|lia]).
    rewrite drop_nil. destruct pattern; cbn; [by destruct (negb _)|done]. }
  fold (pattern_filter pattern name (T := T)).
  set (e := Z.min (Z.min usize_max (cursor + count)) (len items)).
  assert (He : cursor < e <= len items) by lia.
  destruct (Z.leb_spec (len items) e) as [Hend|Hmore].
  - cbn [Z.eqb]. f_equal. unfold pattern_filter.
    rewrite take_ge; [done|]. rewrite length_drop. unfold len in *. lia.
  - destruct (Z.eqb_spec e 0); [lia|]. rewrite IH by lia. cbn [option_map]. f_equal.
    fold (pattern_filter pattern name (take (Z.to_nat (e - cursor)) (drop (Z.to_nat cursor) items))).
    rewrite <- pattern_filter_app. f_equal.
    replace (Z.to_nat e) with (Z.to_nat cursor + Z.to_nat (e - cursor))%nat by lia.
    rewrite <- drop_drop. apply take_drop.
Qed.

(** C34: following the cursors of HSCAN, SSCAN or ZSCAN from [0], with any
    positive COUNT, on a collection nobody modifies, ends, and the pages
    concatenate to every item that matches, each exactly once, in order. *)
Theorem scan_complete {T} (items : list T) pattern name count :
  0 < count -> len items <= usize_max ->
  scan_all (S (length items)) items 0 count pattern name =
    Some (pattern_filter pattern name items).
Proof. intros Hc Hl. apply scan_all_from; try done; unfold len; lia. Qed.

(** No page is longer than COUNT. *)
Lemma scan_page_bound {T} (items : list T) cursor count pattern name :
  0 <= cursor -> 0 <= count ->
  len (snd (apply_collection_scan items cursor count pattern name)) <= count.
Proof.
  intros H0 Hc. unfold apply_collection_scan. destruct (Z.leb_spec (len items) cursor); [done|].
  cbn [snd]. set (e := Z.min _ _).
  assert (Ht : len (take (Z.to_nat (e - cursor)) (drop (Z.to_nat cursor) items)) <= count).
  { unfold len. rewrite length_take. lia. }
  destruct pattern as [p|]; [|done]. destruct (negb _); [|done].
  pose proof (List.filter_length_le (fun x => matches p (name x)) (take (Z.to_nat (e - cursor)) (drop (Z.to_nat cursor) items))).
  unfold len in *. lia.
Qed.
End scan.

(** ** Facts about windows *)

Lemma norm_index_bounds l i : 0 < l -> 0 <= norm_index l i < l.
Proof. unfold norm_index. destruct (Z.ltb_spec i 0); lia. Qed.

Lemma resolve_range_bounds l start stop s e :
  0 <= l -> resolve_range l start stop = Some (s, e) -> 0 <= s <= e /\ e < l.
Proof.
  unfold resolve_range, usize_of_i64. intros Hl. destruct (Z.eqb_spec l 0); [done|].
  pose proof (norm_index_bounds l start ltac:(lia)). pose proof (norm_index_bounds l stop ltac:(lia)).
  destruct (Z.ltb_spec (norm_index l stop) (norm_index l start)); [done|].
  destruct (Z.leb_spec 0 (norm_index l start)), (Z.leb_spec 0 (norm_index l stop)); try lia.
  intros [= <- <-]. lia.
Qed.

Lemma resolve_trim_bounds l start stop s e :
  0 <= l <= i64_max -> resolve_trim_range l start stop = Some (s, e) -> 0 <= s < e /\ e <= l.
Proof.
  unfold resolve_trim_range, usize_of_i64, i64_of_usize. intros Hl. destruct (Z.eqb_spec l 0); [done|].
  destruct (Z.leb_spec l i64_max); [|lia]. set (a := if start <? 0 then _ else _). set (b := if stop <? 0 then _ else _).
  destruct (Z.leb_spec l a), (Z.ltb_spec b 0), (Z.ltb_spec b a); try done. cbn [orb].
  assert (0 <= a) by (unfold a; destruct (Z.ltb_spec start 0); lia).
  assert (b < l) by (unfold b; destruct (Z.ltb_spec stop 0); lia).
  destruct (Z.leb_spec 0 a), (Z.leb_spec 0 b); try lia. intros [= <- <-]. lia.
Qed.

Lemma slice_incl_nth {A} (l : list A) s e i :
  0 <= s -> 0 <= i <= e - s -> slice_incl l s e !! Z.to_nat i = l !! Z.to_nat (s + i).
Proof.
  intros Hs Hi. unfold slice_incl, slice. rewrite lookup_take_lt by lia.
  rewrite lookup_drop. f_equal. lia.
Qed.

Lemma len_slice_incl {A} (l : list A) s e :
  0 <= s <= e -> e < len l -> len (slice_incl l s e) = e - s + 1.
Proof. intros Hs He. unfold slice_incl, slice, len in *. rewrite length_take, length_drop. lia. Qed.

(** The two index resolvers agree - LRANGE / ZRANGE / ZREVRANGE /
    ZREMRANGEBYRANK select the window LTRIM keeps - exactly as long as the range
    touches the sequence.  When it lies past the end or before the start LTRIM
    keeps nothing, but [resolve_range] clamps it to the last or first element. *)
Theorem resolve_range_vs_trim l start stop :
  0 < l <= i64_max ->
  resolve_range l start stop =
    if l <=? start then if norm_index l stop <? l - 1 then None else Some (l - 1, l - 1)
    else if stop <? -l then if 0 <? norm_index l start then None else Some (0, 0)
    else option_map (fun '(s, e) => (s, e - 1)) (resolve_trim_range l start stop).
Proof.
  intros Hl. unfold resolve_range, resolve_trim_range, usize_of_i64, i64_of_usize.
  destruct (Z.eqb_spec l 0); [lia|]. destruct (Z.leb_spec l i64_max); [|lia].
  pose proof (norm_index_bounds l start ltac:(lia)). pose proof (norm_index_bounds l stop ltac:(lia)).
  destruct (Z.leb_spec 0 (norm_index l start)), (Z.leb_spec 0 (norm_index l stop)); try lia.
  destruct (Z.leb_spec l start) as [Hs|Hs].
  { assert (Es : norm_index l start = l - 1) by (unfold norm_index; destruct (Z.ltb_spec start 0); lia).
    rewrite Es. destruct (Z.ltb_spec (norm_index l stop) (l - 1)); [done|]. do 2 f_equal. lia. }
  destruct (Z.ltb_spec stop (- l)) as [He|He].
  { assert (Ee : norm_index l stop = 0) by (unfold norm_index; destruct (Z.ltb_spec stop 0); lia).
    rewrite Ee. destruct (Z.ltb_spec 0 (norm_index l start)); [done|]. do 2 f_equal. lia. }
  set (a := if start <? 0 then _ else _). set (b := if stop <? 0 then _ else _).
  assert (a = norm_index l start) as ->.
  { unfold a, norm_index. destruct (Z.ltb_spec start 0); lia. }
  assert (b = norm_index l stop) as ->.
  { unfold b, norm_index. destruct (Z.ltb_spec stop 0); lia. }
  destruct (Z.leb_spec l (norm_index l start)), (Z.ltb_spec (norm_index l stop) 0); try lia. cbn [orb].
  destruct (Z.ltb_spec (norm_index l stop) (norm_index l start)); [done|].
  destruct (Z.leb_spec 0 (norm_index l start)), (Z.leb_spec 0 (norm_index l stop)); try lia.
  cbn [option_map]. do 2 f_equal. lia.
Qed.

(** Anyone's LRANGE past the end sees the last element; LTRIM does not. *)
Example resolve_range_past_end : resolve_range 3 10 20 = Some (2, 2) /\ resolve_trim_range 3 10 20 = None.
Proof. by vm_compute. Qed.

(** ** Facts about the samplers *)

Lemma rotation_eq {A} (l : list A) start n :
  rotation l start n = flat_map (fun i => at_index l i) (map (fun i => (start + Z.of_nat i) mod len l) (List.seq 0 (Z.to_nat n))).
Proof. unfold rotation. rewrite !flat_map_concat_map, map_map. done. Qed.

Lemma at_index_In {A} (l : list A) i x : In x (at_index l i) -> In x l.
Proof.
  unfold at_index. destruct (l !! _) eqn:E; [|done]. intros [<-|[]].
  by apply list_elem_of_lookup_2, list_elem_of_In in E.
Qed.

Lemma at_index_length {A} (l : list A) i : 0 <= i < len l -> length (at_index l i) = 1%nat.
Proof.
  intros Hi. unfold at_index, len in *.
  destruct (lookup_lt_is_Some_2 l (Z.to_nat i) ltac:(lia)) as [x ->]. done.
Qed.

Lemma flat_map_at_index_length {A} (l : list A) is_ :
  Forall (fun i => 0 <= i < len l) is_ -> length (flat_map (at_index l) is_) = length is_.
Proof.
  induction 1 as [|i is_ Hi _ IH]; cbn; [done|]. by rewrite length_app, at_index_length, IH.
Qed.

Lemma NoDup_flat_map_at_index {A} (l : list A) is_ :
  NoDup l -> Forall (fun i => 0 <= i < len l) is_ -> NoDup is_ -> NoDup (flat_map (at_index l) is_).
Proof.
  intros Hl Hf Hn. induction Hn as [|i is_ Hi Hn IH]; cbn; [constructor|].
  apply Forall_cons in Hf as [Hr Hf]. apply NoDup_app. split; [|split; [|auto]].
  - unfold at_index. destruct (l !! _); [apply NoDup_singleton|constructor].
  - intros x Hx Hx2. apply list_elem_of_In in Hx2. apply in_flat_map in Hx2 as (j & Hj & Hx2).
    unfold at_index in Hx, Hx2.
    destruct (l !! Z.to_nat i) eqn:Ei; [|by apply not_elem_of_nil in Hx].
    destruct (l !! Z.to_nat j) eqn:Ej; [|done].
    apply list_elem_of_singleton in Hx as <-. destruct Hx2 as [->|[]].
    rewrite Forall_forall in Hf. apply list_elem_of_In in Hj. specialize (Hf _ Hj).
    pose proof (NoDup_lookup l _ _ _ Hl Ei Ej). assert (i = j) as -> by lia. done.
Qed.

Lemma seq_NoDup_map {B} (f : nat -> B) m n :
  (forall i j, (m <= i)%nat -> (i < j)%nat -> (j < m + n)%nat -> f i <> f j) -> NoDup (map f (List.seq m n)).
Proof.
  revert m. induction n as [|n IH]; intros m Hf; cbn; [constructor|]. constructor.
  - rewrite list_elem_of_In. intros (j & Hj & Hin)%in_map_iff. apply in_seq in Hin.
    apply (Hf m j); [lia|lia|lia|done].
  - apply IH. intros i j ? ? ?. apply Hf; lia.
Qed.

Lemma rotation_indices_NoDup start n l :
  0 < l -> Z.of_nat n <= l -> NoDup (map (fun i => (start + Z.of_nat i) mod l) (List.seq 0 n)).
Proof.
  intros Hl Hn. apply seq_NoDup_map. intros i j _ Hij Hj E.
  assert (H : (Z.of_nat j - Z.of_nat i) mod l = 0).
  { replace (Z.of_nat j - Z.of_nat i) with ((start + Z.of_nat j) - (start + Z.of_nat i)) by lia.
    rewrite Zminus_mod, E, Z.sub_diag. apply Z.mod_0_l. lia. }
  rewrite Z.mod_small in H by lia. lia.
Qed.

(** A rotation of [n] items of a duplicate-free list: [n] distinct members. *)
Lemma rotation_spec {A} (l : list A) start n :
  NoDup l -> 0 <= n <= len l ->
  NoDup (rotation l start n) /\ len (rotation l start n) = n /\ (forall x, In x (rotation l start n) -> In x l).
Proof.
  intros Hl Hn. rewrite rotation_eq. destruct (decide (len l = 0)) as [E|E].
  { replace n with 0 by lia. cbn. split; [constructor|]. done. }
  assert (Hf : Forall (fun i => 0 <= i < len l)
    (map (fun i => (start + Z.of_nat i) mod len l) (List.seq 0 (Z.to_nat n)))).
  { apply List.Forall_forall. intros x (i & <- & _)%in_map_iff. apply Z.mod_pos_bound. lia. }
  split; [|split].
  - apply NoDup_flat_map_at_index; [done|done|]. apply rotation_indices_NoDup; lia.
  - unfold len at 1. rewrite flat_map_at_index_length by done. rewrite length_map, length_seq. lia.
  - intros x Hx. apply in_flat_map in Hx as (i & _ & Hx). by apply at_index_In in Hx.
Qed.

Lemma draws_spec {A} (l : list A) rng n :
  l <> [] -> length (draws l rng n) = n /\ (forall x, In x (draws l rng n) -> In x l).
Proof.
  intros Hl. assert (0 < len l) by (destruct l; unfold len; cbn in *; [done|lia]).
  revert rng. induction n as [|n IH]; intros rng; cbn [draws]; [done|].
  destruct (IH (xorshift rng)) as [IH1 IH2]. rewrite length_app, at_index_length, IH1 by (apply Z.mod_pos_bound; lia).
  split; [done|]. intros x [Hx|Hx]%in_app_iff; [by apply at_index_In in Hx|auto].
Qed.

(** With [allow_duplicates = false] a sampler answers
    [min count size] distinct entries of the map; with duplicates allowed it
    answers exactly |count| entries of it. *)
Theorem pick_random_from_map_spec {V} (m : btree Str V) count dup w :
  bt_wf m -> 0 <= count \/ dup = true ->
  exists l, run (pick_random_from_map m count dup) w = (l, w) /\
    (forall x, In x l -> In x m) /\
    if dup then m = [] /\ l = [] \/ len l = Z.abs count
    else NoDup (map fst l) /\ len l = Z.min count (len m).
Proof.
  intros Hwf Hc. unfold pick_random_from_map.
  destruct m as [|p m0] eqn:Em.
  { exists []. cbn. split; [done|]. split; [done|]. destruct dup; [auto|]. split; [constructor|]. unfold len; cbn; lia. }
  rewrite <- Em in *. assert (bt_is_empty m = false) as -> by by rewrite Em. cbn [orb].
  destruct (Z.eqb_spec count 0) as [->|Hn].
  { exists []. split; [done|]. split; [done|]. destruct dup; [by right|]. split; [constructor|].
    unfold len. cbn. lia. }
  destruct dup; cbn [negb].
  - eexists. split; [reflexivity|].
    match goal with |- context [draws m ?r ?n] => destruct (draws_spec m r n) as [H1 H2]; [by rewrite Em|] end.
    split; [done|]. right. unfold len. rewrite H1. lia.
  - destruct Hc as [Hc|]; [|done]. eexists. split; [reflexivity|].
    unfold usize_of_i64. destruct (Z.leb_spec 0 count); [|lia].
    set (st := _ mod len m). set (k := Z.min count (len m)).
    assert (Hk : 0 <= k <= len m) by (unfold k; pose proof (len_nonneg m); lia).
    pose proof (bt_wf_NoDup m Hwf) as Hnd.
    assert (Hm : NoDup m) by (by apply NoDup_fmap_1 in Hnd).
    destruct (rotation_spec m st k Hm Hk) as (H1 & H2 & H3). split; [done|]. split; [|done].
    apply NoDup_fmap_2_strong; [|done]. intros [x v] [y v2] Hx Hy. cbn. intros <-.
    apply list_elem_of_In, H3 in Hx. apply list_elem_of_In, H3 in Hy.
    apply bt_get_In in Hx; [|done]. apply bt_get_In in Hy; [|done]. congruence.
Qed.

Lemma scan_complete_witness :
  scan_all (fun p s => bool_decide (p = s)) 4 [bs "a"; bs "b"; bs "a"] 0 2 (Some (bs "a")) id
    = Some [bs "a"; bs "a"].
Proof.
  pose proof (scan_complete (fun p s => bool_decide (p = s)) [bs "a"; bs "b"; bs "a"] (Some (bs "a")) id 2
    ltac:(lia) ltac:(vm_compute; discriminate)) as H.
  exact H.
Defined.

Lemma resolve_range_vs_trim_witness : resolve_range 3 5 9 = Some (2, 2) /\ resolve_trim_range 3 5 9 = None.
Proof.
  split; [|reflexivity]. rewrite (resolve_range_vs_trim 3 5 9); [reflexivity|].
  split; [reflexivity|vm_compute; discriminate].
Defined.
