(* ===== verification/Strings.v ===== *)
(** * Strings

    The string, bit and HyperLogLog operations of [impl Storage for KVStorage]
    (src/storage.rs) and their byte-level helpers. *)

From S2P Require Import Prelude.
From S2P Require Import Text.
From S2P Require Import BTree.
From S2P Require Import F64.
From S2P Require Import Stream.
From S2P Require Import Value.
From S2P Require Import Hll.
From S2P Require Import Backend.
From S2P Require Import Linearizability.
From S2P Require Import Contracts.

(** ** Byte helpers *)

(** [v.resize(n, 0)] when it grows the buffer. *)
Definition resize0 (data : list byte) (n : Z) : list byte :=
  data ++ repeat x00 (Z.to_nat (n - len data)).

Definition slice_string_range (data : list byte) (start end_ : Z) : list byte :=
  match data with
  | [] => []
  | _ =>
      let l := len_i64 data in
      let s := if start <? 0 then Z.max (l + start) 0 else start in
      let e := if end_ <? 0 then l + end_ else Z.min end_ (l - 1) in
      if (l <=? s) || (e <? 0) || (e <? s) then []
      else slice data s (e + 1)
  end.

Definition apply_setrange (data : list byte) (offset : Z) (value : list byte) : list byte :=
  let data := if len data <? offset then resize0 data offset else data in
  let end_ := offset + len value in
  let data := if len data <? end_ then resize0 data end_ else data in
  take (Z.to_nat offset) data ++ value ++ drop (Z.to_nat end_) data.

Definition bit_at (data : list byte) (offset : Z) : Z :=
  let byte_idx := offset / 8 in
  if len data <=? byte_idx then 0
  else
    let bit_in_byte := 7 - offset mod 8 in
    Z.land (Z.shiftr (rd data byte_idx) bit_in_byte) 1.

Definition apply_setbit (data : list byte) (offset : Z) (value : bool) : list byte * Z :=
  let byte_idx := offset / 8 in
  let data := if len data <=? byte_idx then resize0 data (byte_idx + 1) else data in
  let bit_in_byte := 7 - offset mod 8 in
  let mask := Z.shiftl 1 bit_in_byte in
  let prev := Z.shiftr (Z.land (rd data byte_idx) mask) bit_in_byte in
  let data :=
    if value then wr data byte_idx (Z.lor (rd data byte_idx) mask)
    else wr data byte_idx (Z.ldiff (rd data byte_idx) mask) in
  (data, prev).

Definition format_float (v : f64) : Str :=
  match f64_integral v with
  | Some z => if Z.abs z <? 2 ^ 53 then print_Z z else display_f64 v
  | None => display_f64 v
  end.

Definition float_error : RustyAntError := Parse "value is not a float".

Definition parse_string_as_f64 (entry : option StoredValue) (key : Str) : Result (f64 * option Z) :=
  match entry with
  | Some {| value := VString data; expires_at_ms := exp |} =>
      let? s := ok_or (from_utf8 data) float_error in
      let? n := ok_or (parse_f64 s) float_error in
      Ok (n, exp)
  | Some _ => Err (wrong_type key)
  | None => Ok (f64_zero, None)
  end.

(** The opening [match] of the string closures: the bytes and the expiry of the
    existing string, [(Vec::new(), None)] for a missing key. *)
Definition string_or_empty (key : Str) (entry : option StoredValue) : Result (list byte * option Z) :=
  match entry with
  | Some {| value := VString d; expires_at_ms := exp |} => Ok (d, exp)
  | Some _ => Err (wrong_type key)
  | None => Ok ([], None)
  end.



(** ** Operations *)

Definition get_string (key : Str) : prog kvE (Result (option (list byte))) :=
  let!? e := load key in
  match e with
  | Some {| value := VString data |} => Ret (Ok (Some data))
  | Some _ => Ret (Err (wrong_type key))
  | None => Ret (Ok None)
  end.

Definition get_string_with_ttl_mod (key : Str) (op : GetExOp) (entry : option StoredValue)
    : Result (CasAction (option (list byte))) :=
  match entry with
  | Some {| value := VString data |} =>
      let new_expires_at :=
        match op with
        | SetExpireAtMs t => Some t
        | Persist | Leave => None
        end in
      Ok (Write (mk_entry new_expires_at (VString data)) (Some data))
  | Some _ => Err (wrong_type key)
  | None => Ok (NoOp None)
  end.

Definition get_string_with_ttl (key : Str) (op : GetExOp) : prog kvE (Result (option (list byte))) :=
  match op with
  | Leave => get_string key
  | _ => cas key (pure_mod (get_string_with_ttl_mod key op))
  end.

Definition set_string (key : Str) (v : list byte) (expires : option Z) : prog kvE (Result unit) :=
  trigger (KvSave key (mk_entry expires (VString v)) WAny).

Definition set_string_nx (key : Str) (v : list byte) (expires : option Z) : prog kvE (Result bool) :=
  let!? _ := trigger (KvLoad key) in
  let entry := mk_entry expires (VString v) in
  let! r := trigger (KvSave key entry CreateOnly) in
  match r with
  | Ok _ => Ret (Ok true)
  | Err Contention => Ret (Ok false)
  | Err e => Ret (Err e)
  end.

Definition not_int : RustyAntError := Parse "value is not an integer".
Definition increment_overflow : RustyAntError := Parse "increment overflow".

Definition incr_by_mod (key : Str) (delta : Z) (entry : option StoredValue) : Result (CasAction Z) :=
  let? (current, exp) :=
    match entry with
    | Some {| value := VString data; expires_at_ms := exp |} =>
        let? s := ok_or (from_utf8 data) not_int in
        let? n := ok_or (parse_i64 s) not_int in
        Ok (n, exp)
    | Some _ => Err (wrong_type key)
    | None => Ok (0, None)
    end in
  let? new_val := ok_or (checked_add_i64 current delta) increment_overflow in
  Ok (Write (mk_entry exp (VString (print_Z new_val))) new_val).

Definition incr_by (key : Str) (delta : Z) : prog kvE (Result Z) :=
  cas key (pure_mod (incr_by_mod key delta)).

Definition getset_mod (key : Str) (v : list byte) (entry : option StoredValue)
    : Result (CasAction (option (list byte))) :=
  let? old :=
    match entry with
    | Some {| value := VString data |} => Ok (Some data)
    | Some _ => Err (wrong_type key)
    | None => Ok None
    end in
  Ok (Write (mk_entry None (VString v)) old).

Definition getset (key : Str) (v : list byte) : prog kvE (Result (option (list byte))) :=
  cas key (pure_mod (getset_mod key v)).

Definition get_and_delete_mod (key : Str) (entry : option StoredValue)
    : Result (CasAction (option (list byte))) :=
  match entry with
  | None => Ok (NoOp None)
  | Some {| value := VString data |} => Ok (Delete (Some data))
  | Some _ => Err (wrong_type key)
  end.

Definition get_and_delete (key : Str) : prog kvE (Result (option (list byte))) :=
  cas key (pure_mod (get_and_delete_mod key)).

Definition strlen (key : Str) : prog kvE (Result Z) :=
  let!? e := load key in
  match e with
  | Some {| value := VString data |} => Ret (Ok (len_i64 data))
  | Some _ => Ret (Err (wrong_type key))
  | None => Ret (Ok 0)
  end.

Definition append_mod (key : Str) (v : list byte) (entry : option StoredValue) : Result (CasAction Z) :=
  let? (data, exp) := string_or_empty key entry in
  let data := data ++ v in
  Ok (Write (mk_entry exp (VString data)) (len_i64 data)).

Definition append (key : Str) (v : list byte) : prog kvE (Result Z) :=
  cas key (pure_mod (append_mod key v)).

Definition incr_by_float_mod (key : Str) (delta : f64) (entry : option StoredValue) : Result (CasAction f64) :=
  let? (current, exp) := parse_string_as_f64 entry key in
  let new_val := f64_add current delta in
  if f64_is_nan new_val || f64_is_infinite new_val
  then Err (Parse "increment would produce NaN or infinity")
  else Ok (Write (mk_entry exp (VString (format_float new_val))) new_val).

Definition incr_by_float (key : Str) (delta : f64) : prog kvE (Result f64) :=
  cas key (pure_mod (incr_by_float_mod key delta)).

Definition getrange (key : Str) (start end_ : Z) : prog kvE (Result (list byte)) :=
  let!? e := load key in
  match e with
  | Some {| value := VString d |} => Ret (Ok (slice_string_range d start end_))
  | Some _ => Ret (Err (wrong_type key))
  | None => Ret (Ok [])
  end.

Definition is_empty {A} (l : list A) : bool := match l with [] => true | _ => false end.

Definition setrange_mod (key : Str) (offset : Z) (v : list byte) (entry : option StoredValue)
    : Result (CasAction Z) :=
  let? (data, exp) := string_or_empty key entry in
  if is_empty v && is_empty data then Ok (NoOp 0)
  else
    let data := apply_setrange data offset v in
    Ok (Write (mk_entry exp (VString data)) (len_i64 data)).

Definition setrange (key : Str) (offset : Z) (v : list byte) : prog kvE (Result Z) :=
  cas key (pure_mod (setrange_mod key offset v)).

Definition setbit_mod (key : Str) (offset : Z) (v : bool) (entry : option StoredValue) : Result (CasAction Z) :=
  let? (data, exp) := string_or_empty key entry in
  let '(data, prev) := apply_setbit data offset v in
  Ok (Write (mk_entry exp (VString data)) prev).

Definition setbit (key : Str) (offset : Z) (v : bool) : prog kvE (Result Z) :=
  cas key (pure_mod (setbit_mod key offset v)).

Definition getbit (key : Str) (offset : Z) : prog kvE (Result Z) :=
  let!? data := get_string key in
  match data with
  | None => Ret (Ok 0)
  | Some data => Ret (Ok (bit_at data offset))
  end.

(** ** Several keys *)

Fixpoint mget_loop (keys : list Str) (out : list (option (list byte)))
    : prog kvE (Result (list (option (list byte)))) :=
  match keys with
  | [] => Ret (Ok out)
  | k :: ks => let!? v := get_string k in mget_loop ks (out ++ [v])
  end.
Definition mget (keys : list Str) : prog kvE (Result (list (option (list byte)))) := mget_loop keys [].

Fixpoint mset (pairs : list (Str * list byte)) : prog kvE (Result unit) :=
  match pairs with
  | [] => Ret (Ok tt)
  | (k, v) :: ps => let!? _ := set_string k v None in mset ps
  end.

(** The scan that precedes the writes: has any key a live value? *)
Fixpoint any_exists (keys : list Str) : prog kvE (Result bool) :=
  match keys with
  | [] => Ret (Ok false)
  | k :: ks =>
      let!? e := load k in
      match e with
      | Some _ => Ret (Ok true)
      | None => any_exists ks
      end
  end.
Definition msetnx (pairs : list (Str * list byte)) : prog kvE (Result bool) :=
  let!? found := any_exists (map fst pairs) in
  if found then Ret (Ok false)
  else let!? _ := mset pairs in Ret (Ok true).

(** ** HyperLogLog keys *)

Definition bad_hll : RustyAntError := Parse "WRONGTYPE Key is not a valid HyperLogLog string value.".

(** [for e in &elements { if hll::add(&mut buf, e)? { changed = true } }] *)
Definition pfadd_loop (buf : list byte) (elements : list (list byte)) : Result (list byte * bool) :=
  fold_left (fun r e =>
    let? (b, changed) := r in
    let? (b, c) := Hll.add b e in
    Ok (b, changed || c)) elements (Ok (buf, false)).

Definition pfadd_mod (key : Str) (elements : list (list byte)) (entry : option StoredValue)
    : Result (CasAction bool) :=
  let? (existed, buf, exp) :=
    match entry with
    | Some {| value := VString d; expires_at_ms := exp |} =>
        if negb (is_hll d) then Err bad_hll else Ok (true, d, exp)
    | Some _ => Err (wrong_type key)
    | None => Ok (false, empty_dense, None)
    end in
  let? (buf, changed) := pfadd_loop buf elements in
  if negb existed then Ok (Write (mk_entry exp (VString buf)) true)
  else if negb changed then Ok (NoOp false)
  else Ok (Write (mk_entry exp (VString buf)) true).

Definition pfadd (key : Str) (elements : list (list byte)) : prog kvE (Result bool) :=
  cas key (pure_mod (pfadd_mod key elements)).

(** The union of the sources' blobs, as PFCOUNT and PFMERGE build it. *)
Fixpoint merge_sources (merged : list byte) (sources : list Str) {struct sources}
    : prog kvE (Result (list byte)) :=
  match sources with
  | [] => Ret (Ok merged)
  | k :: ks =>
      let!? e := load k in
      match e with
      | Some {| value := VString d |} =>
          if negb (is_hll d) then Ret (Err bad_hll)
          else match merge_into merged d with
               | Ok merged => merge_sources merged ks
               | Err e => Ret (Err e)
               end
      | Some _ => Ret (Err (wrong_type k))
      | None => merge_sources merged ks
      end
  end.

Definition pfmerge_mod (dest : Str) (merged : list byte) (entry : option StoredValue)
    : Result (CasAction unit) :=
  let? (buf, exp) :=
    match entry with
    | Some {| value := VString d; expires_at_ms := exp |} =>
        if negb (is_hll d) then Err bad_hll else Ok (d, exp)
    | Some _ => Err (wrong_type dest)
    | None => Ok (empty_dense, None)
    end in
  let? buf := merge_into buf merged in
  Ok (Write (mk_entry exp (VString buf)) tt).

Definition pfmerge (dest : Str) (sources : list Str) : prog kvE (Result unit) :=
  let!? merged := merge_sources empty_dense sources in
  cas dest (pure_mod (pfmerge_mod dest merged)).

(** PFCOUNT; [ln] is [f64::ln]. *)
Definition pfcount (ln : f64 -> f64) (keys : list Str) : prog kvE (Result Z) :=
  match keys with
  | [key] =>
      let!? e := load key in
      match e with
      | Some {| value := VString d |} =>
          if negb (is_hll d) then Ret (Err bad_hll) else Ret (Hll.count ln d)
      | Some _ => Ret (Err (wrong_type key))
      | None => Ret (Ok 0)
      end
  | _ =>
      let!? merged := merge_sources empty_dense keys in
      Ret (Hll.count ln merged)
  end.

(** ** Integers stored as text *)

Lemma from_utf8_print n : from_utf8 (print_Z n) = Some (print_Z n).
Proof. unfold from_utf8. by rewrite print_Z_utf8. Qed.

(** The integer a key counts from: [0] for a missing key, [n] for its text. *)
Definition holds_int (e : option StoredValue) (n : Z) (exp : option Z) : Prop :=
  (e = None /\ n = 0 /\ exp = None) \/ e = Some (mk_entry exp (VString (print_Z n))).

Lemma incr_by_mod_int key delta e n exp :
  holds_int e n exp -> in_i64 n = true ->
  incr_by_mod key delta e =
    if in_i64 (n + delta)
    then Ok (Write (mk_entry exp (VString (print_Z (n + delta)))) (n + delta))
    else Err increment_overflow.
Proof.
  intros [(-> & -> & ->)| ->] Hn; unfold incr_by_mod; cbn [mk_entry value expires_at_ms rbind].
  - unfold checked_add_i64. by destruct (in_i64 (0 + delta)).
  - rewrite from_utf8_print. cbn [ok_or rbind]. rewrite parse_print_i64 by done.
    cbn [ok_or rbind]. unfold checked_add_i64. by destruct (in_i64 (n + delta)).
Qed.

(** INCRBY on a key holding the text of [n] (or on a missing key, as 0)
    returns [n + delta], stores its text and keeps the TTL; when the sum leaves
    the [i64] range it errors and writes nothing. *)
Theorem incr_by_spec key delta w n exp :
  holds_int (live w key) n exp -> in_i64 n = true ->
  run (incr_by key delta) w =
    if in_i64 (n + delta)
    then (Ok (n + delta), put key (mk_entry exp (VString (print_Z (n + delta)))) (gc key w))
    else (Err increment_overflow, gc key w).
Proof.
  intros He Hn. unfold incr_by. rewrite run_cas. unfold atomic_update. rewrite live_gc.
  rewrite (incr_by_mod_int key delta _ n exp) by done. by destruct (in_i64 (n + delta)).
Qed.

(** ** Concurrent counters *)

Definition zsum (l : list Z) : Z := fold_right Z.add 0 l.

#[export] Instance zsum_proper : Proper (Permutation ==> eq) zsum.
Proof. unfold zsum. induction 1; cbn; lia. Qed.

Lemma zsum_app l k : zsum (l ++ k) = zsum l + zsum k.
Proof. unfold zsum. induction l; cbn; lia. Qed.

Lemma zsum_zero l : Forall (fun x => x = 0) l -> zsum l = 0.
Proof. unfold zsum. induction 1; cbn; lia. Qed.

Lemma zsum_sub (h : nat -> Z) l n :
  NoDup l -> (forall i, i ∈ l -> (i < n)%nat) -> (forall i, i ∉ l -> h i = 0) ->
  zsum (map h l) = zsum (map h (List.seq 0 n)).
Proof.
  intros Hnd Hlt Hz.
  assert (Hsub : l ⊆+ List.seq 0 n).
  { apply NoDup_submseteq; [done|]. intros i Hi. apply list_elem_of_In, in_seq. apply Hlt in Hi. lia. }
  apply submseteq_Permutation in Hsub as [k Hk].
  rewrite (Permutation_map h Hk), map_app, zsum_app.
  rewrite (zsum_zero (map h k)); [lia|]. apply List.Forall_forall.
  intros y (x & <- & Hi)%in_map_iff. revert x Hi.
  intros i Hi. apply Hz. intros Hil.
  assert (Hnd2 : NoDup (l ++ k)) by (rewrite <- Hk; apply NoDup_ListNoDup, seq_NoDup).
  apply NoDup_app in Hnd2 as (_ & Hdis & _). apply (Hdis i Hil). by apply list_elem_of_In.
Qed.

(** What thread [i] has added so far: its delta once it has returned [Ok]. *)
Definition added (deltas : list Z) (ths : list (prog kvE (Result Z))) (i : nat) : Z :=
  match ths !! i with
  | Some (Ret (Ok _)) => match deltas !! i with Some d => d | None => 0 end
  | _ => 0
  end.

Definition trace_added (deltas : list Z) (x : nat * Result Z) : Z :=
  match snd x with
  | Ok _ => match deltas !! fst x with Some d => d | None => 0 end
  | Err _ => 0
  end.

Lemma counter_trace key deltas n0 v0 w0 tr w :
  store w0 !! key = Some (mk_entry None (VString (print_Z n0)), v0) -> in_i64 n0 = true ->
  atomic_trace ((fun d => (key, incr_by_mod key d)) <$> deltas) (fun _ _ => False) w0 tr w ->
  exists v, in_i64 (n0 + zsum (map (trace_added deltas) tr)) = true /\
    store w !! key = Some (mk_entry None (VString (print_Z (n0 + zsum (map (trace_added deltas) tr)))), v).
Proof.
  intros H0 Hn0. induction 1 as [|tr w i k f res w' Htr IH Hs Hc|tr w k Htr IH|tr w m n Htr IH Hc|tr w w' Htr IH He].
  - exists v0. cbn. by rewrite Z.add_0_r.
  - destruct IH as (v & Hin & Hst).
    assert (exists d, deltas !! i = Some d /\ k = key /\ f = incr_by_mod key d) as (d & Hd & -> & ->).
    { apply list_lookup_fmap_Some in Hs as (d & ? & ?). simplify_eq. eauto. }
    unfold commit_at in Hc. rewrite Hst in Hc. cbn [option_map fst] in Hc.
    rewrite (incr_by_mod_int key d _ _ None) in Hc by (done || by right).
    rewrite map_app, zsum_app. cbn [map zsum fold_right]. unfold trace_added at 2 4. cbn [fst snd].
    destruct (in_i64 (_ + d)) eqn:Hd2; injection Hc as <- <-.
    + rewrite Hd, Z.add_0_r, Z.add_assoc. eexists. split; [done|].
      cbn. by rewrite lookup_insert_eq.
    + exists v. by rewrite !Z.add_0_r.
  - destruct IH as (v & Hin & Hst). exists v. split; [done|].
    unfold gc. destruct (store w !! k) as [[e v']|] eqn:Ek; [|done].
    destruct (is_expired _ e) eqn:Ex; [|done]. cbn.
    destruct (decide (key = k)) as [<-|Hne]; [|by rewrite lookup_delete_ne].
    rewrite Hst in Ek. injection Ek as <- <-. done.
  - destruct IH as (v & Hin & Hst). by exists v.
  - done.
Qed.

(** C15: let any number of INCRBY calls race on one counter,
    interleaved backend call by backend call.  At every reachable moment the
    counter holds its initial value plus exactly the deltas of the calls that
    have returned [Ok]: no increment is lost or applied twice, and a call that
    gave up with [Contention] added nothing. *)
Theorem incr_no_lost_update key deltas n0 v0 w0 ths w :
  world_wf w0 -> in_i64 n0 = true ->
  store w0 !! key = Some (mk_entry None (VString (print_Z n0)), v0) ->
  let specs := (fun d => (key, incr_by_mod key d)) <$> deltas in
  pool_steps (fun _ _ => False) (initial_pool specs, w0) (ths, w) ->
  exists v, store w !! key =
    Some (mk_entry None (VString (print_Z
      (n0 + zsum (map (added deltas ths) (List.seq 0 (length deltas)))))), v).
Proof.
  intros Hwf Hn0 H0 specs Hsteps.
  destruct (pool_linear specs (fun _ _ => False) ltac:(done) w0 ths w Hwf Hsteps)
    as (tr & Htr & Hnd & Hret & Hcom).
  destruct (counter_trace key deltas n0 v0 w0 tr w H0 Hn0 Htr) as (v & _ & Hst).
  exists v. rewrite Hst. do 5 f_equal.
  assert (E : map (trace_added deltas) tr = map (added deltas ths) (map fst tr)).
  { rewrite map_map. apply map_ext_in. intros [i res] Hin. apply list_elem_of_In, Hcom in Hin.
    unfold trace_added, added. cbn. rewrite Hin. by destruct res. }
  rewrite E. f_equal. apply zsum_sub; [done| |].
  - intros i Hi. apply list_elem_of_In, in_map_iff in Hi as ([j res] & <- & Hin).
    apply list_elem_of_In in Hin. apply (atomic_trace_threads _ _ _ _ _ _ _ Htr) in Hin.
    unfold specs in Hin. by rewrite length_fmap in Hin.
  - intros i Hi. unfold added. destruct (ths !! i) as [[[r|e]|]|] eqn:Ei; try done.
    destruct (deltas !! i) as [d|] eqn:Ed; [|done]. exfalso.
    assert (Hlt : (i < length specs)%nat).
    { unfold specs. rewrite length_fmap. by eapply lookup_lt_Some. }
    destruct (Hret i (Ok r) Hlt Ei) as [Hin|[? _]]; [|done]. apply Hi, list_elem_of_In.
    apply list_elem_of_In in Hin. by apply (in_map fst) in Hin.
Qed.

Lemma incr_no_lost_update_witness :
  let w0 := world_of [(bs "n", mk_entry None (VString (bs "5")))] in
  let specs := (fun d => (bs "n", incr_by_mod (bs "n") d)) <$> [1; 2] in
  exists ths w v, run_schedule [0; 1; 0; 1; 1; 1; 1]%nat (initial_pool specs, w0) = Some (ths, w) /\
    ths = [Ret (Ok 6); Ret (Ok 8)] /\
    store w !! bs "n" = Some (mk_entry None (VString (bs "8")), v).
Proof.
  intros w0 specs.
  assert (Ht : option_map fst (run_schedule [0; 1; 0; 1; 1; 1; 1]%nat (initial_pool specs, w0)) =
               Some [Ret (Ok 6); Ret (Ok 8)]) by (vm_compute; reflexivity).
  destruct (run_schedule [0; 1; 0; 1; 1; 1; 1]%nat (initial_pool specs, w0)) as [[ths w]|] eqn:E;
    [|discriminate Ht].
  injection Ht as Ht.
  destruct (incr_no_lost_update (bs "n") [1; 2] 5 0 w0 ths w (world_wf_of _) eq_refl eq_refl
    (run_schedule_steps _ _ _ _ E)) as [v Hv].
  exists ths, w, v. split; [reflexivity|]. split; [exact Ht|]. rewrite Hv, Ht. reflexivity.
Defined.

(** ** Counting distinct elements *)

(** [key] holds a HyperLogLog built from [elements]. *)
Definition holds_hll (w : world) (key : Str) (elements : list (list byte)) : Prop :=
  exists b exp, add_all empty_dense elements = Ok b /\ live w key = Some (mk_entry exp (VString b)).

Lemma run_merge_sources keys sets w merged :
  Forall2 (holds_hll w) keys sets -> is_hll merged = true ->
  exists m w', run (merge_sources merged keys) w = (Ok m, w') /\ is_hll m = true /\
    forall i, 0 <= i < HLL_REGISTERS -> reg m i = Z.max (reg merged i) (max_contribution (concat sets) i).
Proof.
  intros H. revert w merged H. induction keys as [|k keys IH] in sets |- *; intros w merged H Hm.
  - inversion H; subst. exists merged, w. split; [done|]. split; [done|]. intros i Hi. cbn.
    pose proof (read_register_range (registers merged) i). unfold reg. lia.
  - destruct sets as [|es sets]; [by inversion H|]. apply Forall2_cons in H as [(b & exp & Eb & Hl) H].
    destruct (add_all_spec es empty_dense empty_dense_hll) as (b' & Eb' & Hb & Hr).
    rewrite Eb in Eb'. injection Eb' as <-.
    destruct (merge_into_spec merged b Hm Hb) as (m1 & E1 & Hm1 & Hr1 & _).
    cbn [merge_sources]. rewrite run_bind, run_load, Hl. cbn -[max_contribution]. rewrite Hb, E1. cbn [negb].
    destruct (IH sets (gc k w) m1) as (m & w' & Em & Hv & Hrm); [|done|].
    { eapply Forall2_impl; [done|]. intros k' es' (b' & exp' & ? & ?). exists b', exp'.
      by rewrite live_gc_any. }
    exists m, w'. split; [done|]. split; [done|]. intros i Hi.
    rewrite Hrm, Hr1, Hr by done. change (concat (es :: sets)) with (es ++ concat sets). rewrite max_contribution_app.
    pose proof (max_contribution_nonneg es i). rewrite reg_empty. lia.
Qed.

(** C38: PFCOUNT of keys that hold HyperLogLogs answers the estimate of
    one HyperLogLog built from all their elements together, for one key and for
    several: an element counted under two keys counts once. *)
Theorem pfcount_union ln keys sets w :
  keys <> [] -> Forall2 (holds_hll w) keys sets ->
  exists u, add_all empty_dense (concat sets) = Ok u /\
    fst (run (pfcount ln keys) w) = Hll.count ln u /\ is_hll u = true.
Proof.
  intros Hne H.
  destruct (add_all_spec (concat sets) empty_dense empty_dense_hll) as (u & Eu & Hu & Hr).
  exists u. split; [done|]. split; [|done].
  destruct keys as [|k [|k2 keys]]; [by destruct Hne| |].
  - destruct sets as [|es [|? ?]]; [inversion H| |apply Forall2_length in H; discriminate H].
    apply Forall2_cons in H as [(b & exp & Eb & Hl) _].
    unfold pfcount. rewrite run_bind, run_load, Hl. cbn [concat] in Eu. rewrite app_nil_r, Eb in Eu.
    injection Eu as ->. cbn. by rewrite Hu.
  - destruct (run_merge_sources _ _ w empty_dense H empty_dense_hll) as (m & w' & Em & Hm & Hrm).
    unfold pfcount. rewrite run_bind, Em. cbn. apply count_registers; [done..|].
    intros i Hi. by rewrite Hrm, Hr.
Qed.

Lemma pfcount_union_witness :
  let k1 := bs "a" in let k2 := bs "b" in
  match add_all empty_dense [[x61]], add_all empty_dense [[x62]; [x61]] with
  | Ok b1, Ok b2 =>
      let w := world_of [(k1, mk_entry None (VString b1)); (k2, mk_entry None (VString b2))] in
      exists u, add_all empty_dense [[x61]; [x62]; [x61]] = Ok u /\
        fst (run (pfcount (fun v => v) [k1; k2]) w) = Hll.count (fun v => v) u
  | _, _ => False
  end.
Proof.
  destruct (add_all empty_dense [[x61]]) as [b1|e] eqn:E1; [|vm_compute in E1; discriminate E1].
  destruct (add_all empty_dense [[x62]; [x61]]) as [b2|e] eqn:E2; [|vm_compute in E2; discriminate E2].
  cbv zeta.
  destruct (pfcount_union (fun v => v) [bs "a"; bs "b"] [[[x61]]; [[x62]; [x61]]]
    (world_of [(bs "a", mk_entry None (VString b1)); (bs "b", mk_entry None (VString b2))]))
    as (u & Eu & H & _).
  - discriminate.
  - constructor; [exists b1, None; split; [exact E1|vm_compute; reflexivity]|].
    constructor; [exists b2, None; split; [exact E2|vm_compute; reflexivity]|constructor].
  - exists u. split; [exact Eu|exact H].
Defined.
