(* ===== verification/Hashes.v ===== *)
(** * Hashes

    The hash commands of [impl Storage for KVStorage] (src/storage.rs). *)

From S2P Require Import Prelude.
From S2P Require Import Text.
From S2P Require Import BTree.
From S2P Require Import F64.
From S2P Require Import Stream.
From S2P Require Import Value.
From S2P Require Import Hll.
From S2P Require Import Backend.
From S2P Require Import Linearizability.
From S2P Require Import Contracts.
From S2P Require Import Collections.
From S2P Require Import Strings.

(** The opening [match] of the hash closures. *)
Definition hash_or_empty (key : Str) (entry : option StoredValue)
    : Result (btree Str (list byte) * option Z) :=
  match entry with
  | Some {| value := VHash m; expires_at_ms := exp |} => Ok (m, exp)
  | Some _ => Err (wrong_type key)
  | None => Ok ([], None)
  end.

(** ** Writes *)

(** [for (field, value) in &pairs { if !map.contains_key(field) { new_fields += 1 } map.insert(..) }] *)
Definition hset_step {V} (st : btree Str V * Z) (fv : Str * V) : btree Str V * Z :=
  let '(map, new_fields) := st in
  let '(field, value) := fv in
  let new_fields := if negb (bt_contains map field) then new_fields + 1 else new_fields in
  (bt_insert map field value, new_fields).
Definition hset_loop {V} (map : btree Str V) (pairs : list (Str * V)) : btree Str V * Z :=
  fold_left hset_step pairs (map, 0).

Definition hset_mod (key : Str) (pairs : list (Str * list byte)) (entry : option StoredValue)
    : Result (CasAction Z) :=
  let? (map, exp) := hash_or_empty key entry in
  let '(map, new_fields) := hset_loop map pairs in
  Ok (Write (mk_entry exp (VHash map)) new_fields).
Definition hset (key : Str) (pairs : list (Str * list byte)) : prog kvE (Result Z) :=
  cas key (pure_mod (hset_mod key pairs)).

Definition hsetnx_mod (key field : Str) (v : list byte) (entry : option StoredValue)
    : Result (CasAction bool) :=
  let? (map, exp) := hash_or_empty key entry in
  if bt_contains map field then Ok (NoOp false)
  else Ok (Write (mk_entry exp (VHash (bt_insert map field v))) true).
Definition hsetnx (key field : Str) (v : list byte) : prog kvE (Result bool) :=
  cas key (pure_mod (hsetnx_mod key field v)).

(** [for f in fields { if map.remove(f).is_some() { removed += 1 } }] *)
Definition remove_step {V} (st : btree Str V * Z) (f : Str) : btree Str V * Z :=
  let '(map, removed) := st in
  (bt_remove map f, if bt_contains map f then removed + 1 else removed).
Definition remove_loop {V} (map : btree Str V) (fields : list Str) : btree Str V * Z :=
  fold_left remove_step fields (map, 0).

Definition hdel_mod (key : Str) (fields : list Str) (entry : option StoredValue) : Result (CasAction Z) :=
  match entry with
  | Some {| value := VHash map; expires_at_ms := exp |} =>
      let '(map, removed) := remove_loop map fields in
      if bt_is_empty map then Ok (Delete removed)
      else Ok (Write (mk_entry exp (VHash map)) removed)
  | Some _ => Err (wrong_type key)
  | None => Ok (NoOp 0)
  end.
Definition hdel (key : Str) (fields : list Str) : prog kvE (Result Z) :=
  cas key (pure_mod (hdel_mod key fields)).

Definition hash_not_int : RustyAntError := Parse "hash value is not an integer".
Definition hash_not_float : RustyAntError := Parse "hash value is not a float".

Definition hincr_by_mod (key field : Str) (delta : Z) (entry : option StoredValue) : Result (CasAction Z) :=
  let? (map, exp) := hash_or_empty key entry in
  let? current :=
    match bt_get map field with
    | Some v =>
        let? s := ok_or (from_utf8 v) hash_not_int in
        ok_or (parse_i64 s) hash_not_int
    | None => Ok 0
    end in
  let? new_val := ok_or (checked_add_i64 current delta) increment_overflow in
  Ok (Write (mk_entry exp (VHash (bt_insert map field (print_Z new_val)))) new_val).
Definition hincr_by (key field : Str) (delta : Z) : prog kvE (Result Z) :=
  cas key (pure_mod (hincr_by_mod key field delta)).

Definition hincr_by_float_mod (key field : Str) (delta : f64) (entry : option StoredValue)
    : Result (CasAction f64) :=
  let? (map, exp) := hash_or_empty key entry in
  let? current :=
    match bt_get map field with
    | Some v =>
        let? s := ok_or (from_utf8 v) hash_not_float in
        ok_or (parse_f64 s) hash_not_float
    | None => Ok f64_zero
    end in
  let new_val := f64_add current delta in
  if f64_is_nan new_val || f64_is_infinite new_val
  then Err (Parse "increment would produce NaN or infinity")
  else Ok (Write (mk_entry exp (VHash (bt_insert map field (format_float new_val)))) new_val).
Definition hincr_by_float (key field : Str) (delta : f64) : prog kvE (Result f64) :=
  cas key (pure_mod (hincr_by_float_mod key field delta)).

(** ** Reads *)

(** [match self.load(key).await? { Some(Hash(m)) => Ok(f(m)), Some(_) => Err(wrong_type), None => Ok(d) }] *)
Definition read_hash {A} (key : Str) (d : A) (f : btree Str (list byte) -> A) : prog kvE (Result A) :=
  let!? e := load key in
  match e with
  | Some {| value := VHash m |} => Ret (Ok (f m))
  | Some _ => Ret (Err (wrong_type key))
  | None => Ret (Ok d)
  end.

Definition hget (key field : Str) : prog kvE (Result (option (list byte))) :=
  read_hash key None (fun m => bt_get m field).
Definition hgetall (key : Str) : prog kvE (Result (list (Str * list byte))) :=
  read_hash key [] (fun m => m).
Definition hlen (key : Str) : prog kvE (Result Z) := read_hash key 0 len_i64.
Definition hkeys (key : Str) : prog kvE (Result (list Str)) := read_hash key [] bt_keys.
Definition hvals (key : Str) : prog kvE (Result (list (list byte))) := read_hash key [] bt_values.
Definition hexists (key field : Str) : prog kvE (Result bool) :=
  read_hash key false (fun m => bt_contains m field).
Definition hstrlen (key field : Str) : prog kvE (Result Z) :=
  read_hash key 0 (fun m => match bt_get m field with Some v => len_i64 v | None => 0 end).
Definition hmget (key : Str) (fields : list Str) : prog kvE (Result (list (option (list byte)))) :=
  read_hash key (map (fun _ => None) fields) (fun m => map (bt_get m) fields).

Definition hscan (matches : Str -> Str -> bool) (key : Str) (cursor : Z) (pattern : option Str) (count : Z)
    : prog kvE (Result (Z * list (Str * list byte))) :=
  read_hash key (0, []) (fun m => apply_collection_scan matches m cursor count pattern fst).

Definition hrandfield (key : Str) (count : Z) (allow_duplicates : bool)
    : prog kvE (Result (list (Str * list byte))) :=
  let!? e := load key in
  match e with
  | Some {| value := VHash m |} => let! l := pick_random_from_hash m count allow_duplicates in Ret (Ok l)
  | Some _ => Ret (Err (wrong_type key))
  | None => Ret (Ok [])
  end.

(** ** Lemmas *)

Definition insert_all {V} (pairs : list (Str * V)) (m : btree Str V) : btree Str V :=
  fold_left (fun m kv => bt_insert m (fst kv) (snd kv)) pairs m.

Lemma hset_loop_from {V} pairs (m : btree Str V) n :
  fold_left hset_step pairs (m, n) = (insert_all pairs m, n + (len (insert_all pairs m) - len m)).
Proof.
  revert m n. induction pairs as [|[f v] pairs IH]; intros m n; cbn; [f_equal; lia|].
  fold (insert_all pairs (bt_insert m f v)). rewrite IH. f_equal. unfold len. rewrite bt_insert_length.
  destruct (bt_contains m f); cbn [negb]; lia.
Qed.

Lemma hset_loop_spec {V} (m : btree Str V) pairs :
  hset_loop m pairs = (insert_all pairs m, len (insert_all pairs m) - len m).
Proof. unfold hset_loop. rewrite hset_loop_from. f_equal. Qed.

Lemma insert_all_wf {V} (pairs : list (Str * V)) m :
  bt_wf m -> bt_wf (insert_all pairs m).
Proof. unfold insert_all. revert m. induction pairs as [|[f v] pairs IH]; cbn; auto with btree. Qed.

Lemma insert_all_nonempty {V} (pairs : list (Str * V)) m :
  pairs <> [] \/ m <> [] -> insert_all pairs m <> [].
Proof.
  unfold insert_all. revert m. induction pairs as [|[f v] pairs IH]; cbn; intros m; [by intros [?|?]|].
  intros _. apply IH. right. apply bt_insert_nonempty.
Qed.

(** The last pair for a field wins, else the old value stays. *)
Fixpoint last_value {V} (k : Str) (pairs : list (Str * V)) : option V :=
  match pairs with
  | [] => None
  | (k', v) :: ps =>
      match last_value k ps with
      | Some v' => Some v'
      | None => if str_eqb k' k then Some v else None
      end
  end.

Lemma insert_all_get {V} (pairs : list (Str * V)) m k :
  bt_get (insert_all pairs m) k =
    match last_value k pairs with Some v => Some v | None => bt_get m k end.
Proof.
  unfold insert_all. revert m. induction pairs as [|[f v] pairs IH]; intros m; cbn; [done|]. rewrite IH.
  destruct (last_value k pairs); [done|]. unfold str_eqb. case_bool_decide as E.
  - subst. apply bt_get_insert_eq.
  - by apply bt_get_insert_ne.
Qed.

Lemma remove_loop_from {V} fields (m : btree Str V) n :
  fold_left remove_step fields (m, n) =
  (fold_left bt_remove fields m, n + (len m - len (fold_left bt_remove fields m))).
Proof.
  revert m n. induction fields as [|f fields IH]; intros m n; cbn; [f_equal; lia|].
  rewrite IH. f_equal. pose proof (bt_remove_length m f). unfold len.
  destruct (bt_contains m f); lia.
Qed.

Lemma remove_loop_spec {V} (m : btree Str V) fields :
  remove_loop m fields = (fold_left bt_remove fields m, len m - len (fold_left bt_remove fields m)).
Proof. unfold remove_loop. rewrite remove_loop_from. f_equal. Qed.

Lemma remove_all_wf {V} fields (m : btree Str V) : bt_wf m -> bt_wf (fold_left bt_remove fields m).
Proof. revert m. induction fields as [|f fields IH]; cbn; auto with btree. Qed.

Lemma remove_all_get {V} fields (m : btree Str V) k :
  bt_wf m ->
  bt_get (fold_left bt_remove fields m) k = if bool_decide (k ∈ fields) then None else bt_get m k.
Proof.
  revert m. induction fields as [|f fields IH]; intros m Hm; cbn [fold_left]; [done|].
  rewrite IH by auto with btree. case_bool_decide as E1; case_bool_decide as E2; try done.
  - exfalso. apply E2. by right.
  - apply elem_of_cons in E2 as [->|?]; [|done]. by apply bt_get_remove_eq.
  - apply bt_get_remove_ne; [done|]. intros ->. apply E2. by left.
Qed.

Lemma remove_all_nil {V} fields : fold_left bt_remove fields ([] : btree Str V) = [].
Proof. by induction fields. Qed.

Lemma bt_is_empty_false {V} (m : btree Str V) : bt_is_empty m = false -> m <> [].
Proof. by destruct m. Qed.

#[export] Hint Rewrite @hset_loop_spec @remove_loop_spec : op.
#[export] Hint Resolve insert_all_wf insert_all_nonempty remove_all_wf bt_is_empty_false : btree.

(** ** The commands meet their contract *)

#[export] Instance hset_op key pairs : pairs <> [] -> CollectionOp KHash key (hset_mod key pairs).
Proof.
  intros Hp. collection_op ltac:(unfold hset_mod, hash_or_empty).
Qed.
#[export] Instance hsetnx_op key field v : CollectionOp KHash key (hsetnx_mod key field v).
Proof. collection_op ltac:(unfold hsetnx_mod, hash_or_empty). Qed.
#[export] Instance hdel_op key fields : CollectionOp KHash key (hdel_mod key fields).
Proof. collection_op ltac:(unfold hdel_mod). Qed.
#[export] Instance hincr_by_op key field d : CollectionOp KHash key (hincr_by_mod key field d).
Proof. collection_op ltac:(unfold hincr_by_mod, hash_or_empty, ok_or). Qed.
#[export] Instance hincr_by_float_op key field d : CollectionOp KHash key (hincr_by_float_mod key field d).
Proof. collection_op ltac:(unfold hincr_by_float_mod, hash_or_empty, ok_or). Qed.

(** ** The hash as a finite map *)

(** The hash a key stands for: the stored one, or the empty one of no key. *)
Inductive holds_hash : option StoredValue -> btree Str (list byte) -> option Z -> Prop :=
| holds_none : holds_hash None [] None
| holds_some m exp : bt_wf m -> m <> [] -> holds_hash (Some (mk_entry exp (VHash m))) m exp.

Lemma holds_hash_wf e m exp : holds_hash e m exp -> bt_wf m.
Proof. destruct 1; auto with btree. Qed.

Lemma hash_or_empty_holds key e m exp : holds_hash e m exp -> hash_or_empty key e = Ok (m, exp).
Proof. by destruct 1. Qed.

(** HSET writes the map in which the last pair of each field wins and
    every other field is unchanged, keeps the TTL, and answers how many fields
    are new. *)
Theorem hset_spec key pairs w m exp :
  holds_hash (live w key) m exp -> pairs <> [] ->
  exists m', run (hset key pairs) w = (Ok (len m' - len m), put key (mk_entry exp (VHash m')) (gc key w)) /\
    bt_wf m' /\ m' <> [] /\
    forall f, bt_get m' f = match last_value f pairs with Some v => Some v | None => bt_get m f end.
Proof.
  intros Hm Hp. exists (insert_all pairs m). pose proof (holds_hash_wf _ _ _ Hm) as Hwf.
  split; [|split; [|split]]; auto with btree.
  - unfold hset. rewrite run_cas. apply atomic_write. unfold hset_mod.
    rewrite (hash_or_empty_holds _ _ _ _ Hm). cbn [rbind]. by rewrite hset_loop_spec.
  - intros f. apply insert_all_get.
Qed.

(** HDEL removes exactly the named fields, answers how many were there,
    keeps the TTL, and deletes the key when the last field goes. *)
Theorem hdel_spec key fields w m exp :
  holds_hash (live w key) m exp ->
  exists m', bt_wf m' /\
    (forall f, bt_get m' f = if bool_decide (f ∈ fields) then None else bt_get m f) /\
    run (hdel key fields) w =
      (Ok (len m - len m'),
       match m, m' with
       | [], _ => gc key w
       | _, [] => remove key (gc key w)
       | _, _ => put key (mk_entry exp (VHash m')) (gc key w)
       end).
Proof.
  intros Hm. pose proof (holds_hash_wf _ _ _ Hm) as Hwf. exists (fold_left bt_remove fields m).
  split; [auto with btree|]. split; [intros f; by apply remove_all_get|].
  unfold hdel. rewrite run_cas. remember (live w key) as e eqn:He. symmetry in He.
  destruct Hm as [|m exp Hm Hne].
  - rewrite (atomic_noop _ _ _ 0) by by rewrite He. by rewrite remove_all_nil.
  - assert (E : hdel_mod key fields (live w key) =
      let m' := fold_left bt_remove fields m in
      if bt_is_empty m' then Ok (Delete (len m - len m'))
      else Ok (Write (mk_entry exp (VHash m')) (len m - len m')))
      by (rewrite He; unfold hdel_mod; cbn [mk_entry value expires_at_ms]; by rewrite remove_loop_spec).
    cbv zeta in E. destruct m as [|p m0]; [done|].
    destruct (fold_left bt_remove fields (p :: m0)) as [|q m']; cbn [bt_is_empty] in E.
    + by apply atomic_delete.
    + by apply atomic_write.
Qed.

Definition two_fields : btree Str (list byte) := [(bs "a", bs "1"); (bs "b", bs "2")].
Definition hash_world : world := world_of [(bs "h", mk_entry (Some 5000) (VHash two_fields))].

Lemma hash_world_holds : holds_hash (live hash_world (bs "h")) two_fields (Some 5000).
Proof.
  replace (live hash_world (bs "h")) with (Some (mk_entry (Some 5000) (VHash two_fields))) by (vm_compute; reflexivity).
  constructor; [|done]. repeat (constructor; [repeat constructor|]). constructor.
Qed.

Lemma hset_spec_witness :
  exists m', fst (run (hset (bs "h") [(bs "b", bs "3"); (bs "c", bs "4")]) hash_world) = Ok (len m' - 2) /\
    bt_get m' (bs "b") = Some (bs "3") /\ bt_get m' (bs "a") = Some (bs "1").
Proof.
  destruct (hset_spec (bs "h") [(bs "b", bs "3"); (bs "c", bs "4")] hash_world two_fields (Some 5000)
    hash_world_holds ltac:(discriminate)) as (m' & E & _ & _ & Hget).
  exists m'. rewrite E. split; [reflexivity|]. split; rewrite Hget; reflexivity.
Defined.

Lemma hdel_spec_witness :
  exists m', bt_get m' (bs "a") = None /\ bt_get m' (bs "b") = Some (bs "2") /\
    fst (run (hdel (bs "h") [bs "a"; bs "x"; bs "a"]) hash_world) = Ok (2 - len m').
Proof.
  destruct (hdel_spec (bs "h") [bs "a"; bs "x"; bs "a"] hash_world two_fields (Some 5000) hash_world_holds)
    as (m' & _ & Hget & E).
  exists m'. split; [rewrite Hget; reflexivity|]. split; [rewrite Hget; reflexivity|]. rewrite E. reflexivity.
Defined.
