(* ===== verification/Lists.v ===== *)
(** * Lists

    The list commands of [impl Storage for KVStorage] (src/storage.rs),
    [remove_list_occurrences] and [scan_list_positions]. *)

From S2P Require Import Prelude.
From S2P Require Import Text.
From S2P Require Import BTree.
From S2P Require Import F64.
From S2P Require Import Stream.
From S2P Require Import Value.
From S2P Require Import Hll.
From S2P Require Import Backend.
From S2P Require Import Linearizability.
From S2P Require Import Contracts.
From S2P Require Import Collections.
From S2P Require Import Strings.

Abbreviation items := (list (list byte)).

(** ** Helpers *)

(** [while i < list.len() && removed < max { .. }]: one iteration per fuel;
    [length list - i] iterations are enough. *)
Fixpoint remove_forward (fuel : nat) (target : list byte) (max : Z) (list : items) (i : nat) (removed : Z)
    : items * Z :=
  match fuel with
  | O => (list, removed)
  | S f =>
      match list !! i with
      | Some x =>
          if removed <? max then
            if bool_decide (x = target)
            then remove_forward f target max (base.delete i list) i (removed + 1)
            else remove_forward f target max list (S i) removed
          else (list, removed)
      | None => (list, removed)
      end
  end.

(** [while i > 0 && removed < max { i -= 1; .. }] *)
Fixpoint remove_backward (target : list byte) (max : Z) (list : items) (i : nat) (removed : Z)
    : items * Z :=
  match i with
  | O => (list, removed)
  | S i' =>
      if removed <? max then
        if bool_decide (list !! i' = Some target)
        then remove_backward target max (base.delete i' list) i' (removed + 1)
        else remove_backward target max list i' removed
      else (list, removed)
  end.

Definition remove_list_occurrences (list : items) (target : Str) (count : Z) : items * Z :=
  if 0 <=? count then
    let max := if count =? 0 then i64_max else count in
    remove_forward (length list) target max list 0 0
  else
    let max := wrap_i64 (- count) in
    remove_backward target max list (length list) 0.

(** [for (compared, idx) in indices.enumerate() { .. }] *)
Fixpoint scan_indices (list : items) (element : Str) (skip wanted cap : Z)
    (indices : Datatypes.list nat) (compared seen : Z) (hits : Datatypes.list Z) : Datatypes.list Z :=
  match indices with
  | [] => hits
  | idx :: rest =>
      if cap <=? compared then hits
      else if bool_decide (list !! idx = Some element) then
        if seen <? skip then scan_indices list element skip wanted cap rest (compared + 1) (seen + 1) hits
        else
          let hits := hits ++ [i64_of_usize (Z.of_nat idx)] in
          if wanted <=? len hits then hits
          else scan_indices list element skip wanted cap rest (compared + 1) seen hits
      else scan_indices list element skip wanted cap rest (compared + 1) seen hits
  end.

Definition scan_list_positions (list : items) (element : Str) (rank wanted limit : Z)
    : Datatypes.list Z :=
  if (rank =? 0) || is_empty list || (wanted =? 0) then []
  else
    let forward := 0 <? rank in
    let skip := Z.max 0 (Z.abs rank - 1) in
    let cap := if limit =? 0 then usize_max else limit in
    let indices := if forward then List.seq 0 (length list) else rev (List.seq 0 (length list)) in
    scan_indices list element skip wanted cap indices 0 0 [].

(** [Vec::pop], and [list.remove(0)] / [list.pop()] by side. *)
Definition pop_back {A} (l : list A) : option (list A * A) :=
  match rev l with
  | [] => None
  | x :: r => Some (rev r, x)
  end.
Definition pop_side {A} (l : list A) (left : bool) : option (list A * A) :=
  if left then match l with [] => None | x :: r => Some (r, x) end else pop_back l.
(** [list.insert(0, v)] / [list.push(v)] by side. *)
Definition push_side {A} (l : list A) (v : A) (left : bool) : list A :=
  if left then v :: l else l ++ [v].
Definition push_all (l : items) (values : items) (left : bool) : items :=
  fold_left (fun l v => push_side l v left) values l.
(** [for _ in 0..take { out.push(..) }] *)
Fixpoint pop_n (n : nat) (l : items) (left : bool) (out : items) : items * items :=
  match n with
  | O => (l, out)
  | S n' =>
      match pop_side l left with
      | Some (l', x) => pop_n n' l' left (out ++ [x])
      | None => (l, out)
      end
  end.

(** [list.iter().position(|v| v == pivot)] *)
Fixpoint position (l : items) (pivot : list byte) : option nat :=
  match l with
  | [] => None
  | x :: r => if bool_decide (x = pivot) then Some 0%nat else option_map S (position r pivot)
  end.

(** ** Commands *)

Definition list_or_empty (key : Str) (entry : option StoredValue) : Result (items * option Z) :=
  match entry with
  | Some {| value := VList l; expires_at_ms := exp |} => Ok (l, exp)
  | Some _ => Err (wrong_type key)
  | None => Ok ([], None)
  end.

(** The same opening [match] with an early return for a missing key. *)
Definition list_or_return {R} (key : Str) (missing : Result (CasAction R)) (entry : option StoredValue)
    (k : items -> option Z -> Result (CasAction R)) : Result (CasAction R) :=
  match entry with
  | Some {| value := VList l; expires_at_ms := exp |} => k l exp
  | Some _ => Err (wrong_type key)
  | None => missing
  end.

Definition list_push_mod (key : Str) (values : items) (left : bool) (entry : option StoredValue)
    : Result (CasAction Z) :=
  let? (list, exp) := list_or_empty key entry in
  let list := push_all list values left in
  Ok (Write (mk_entry exp (VList list)) (len_i64 list)).
Definition list_push (key : Str) (values : items) (left : bool) : prog kvE (Result Z) :=
  cas key (pure_mod (list_push_mod key values left)).

Definition list_pushx_mod (key : Str) (values : items) (left : bool) (entry : option StoredValue)
    : Result (CasAction Z) :=
  list_or_return key (Ok (NoOp 0)) entry (fun list exp =>
    let list := push_all list values left in
    Ok (Write (mk_entry exp (VList list)) (len_i64 list))).
Definition list_pushx (key : Str) (values : items) (left : bool) : prog kvE (Result Z) :=
  cas key (pure_mod (list_pushx_mod key values left)).

Definition list_pop_mod (key : Str) (count : Z) (left : bool) (entry : option StoredValue)
    : Result (CasAction items) :=
  list_or_return key (Ok (NoOp [])) entry (fun list exp =>
    let take := Z.min count (len list) in
    let '(list, out) := pop_n (Z.to_nat take) list left [] in
    if is_empty list then Ok (Delete out)
    else Ok (Write (mk_entry exp (VList list)) out)).
Definition list_pop (key : Str) (count : Z) (left : bool) : prog kvE (Result items) :=
  cas key (pure_mod (list_pop_mod key count left)).

Definition lset_mod (key : Str) (index : Z) (v : list byte) (entry : option StoredValue)
    : Result (CasAction unit) :=
  list_or_return key (Err (Parse "no such key")) entry (fun list exp =>
    let l := len_i64 list in
    let actual := if index <? 0 then l + index else index in
    if (actual <? 0) || (l <=? actual) then Err (Parse "index out of range")
    else Ok (Write (mk_entry exp (VList (<[Z.to_nat actual := v]> list))) tt)).
Definition lset (key : Str) (index : Z) (v : list byte) : prog kvE (Result unit) :=
  cas key (pure_mod (lset_mod key index v)).

Definition lrem_mod (key : Str) (count : Z) (v : list byte) (entry : option StoredValue)
    : Result (CasAction Z) :=
  list_or_return key (Ok (NoOp 0)) entry (fun list exp =>
    let '(list, removed) := remove_list_occurrences list v count in
    if is_empty list then Ok (Delete removed)
    else Ok (Write (mk_entry exp (VList list)) removed)).
Definition lrem (key : Str) (count : Z) (v : list byte) : prog kvE (Result Z) :=
  cas key (pure_mod (lrem_mod key count v)).

Definition linsert_mod (key : Str) (before : bool) (pivot v : list byte) (entry : option StoredValue)
    : Result (CasAction Z) :=
  list_or_return key (Ok (NoOp 0)) entry (fun list exp =>
    match position list pivot with
    | None => Ok (NoOp (-1))
    | Some pos =>
        let insert_at := if before then pos else S pos in
        let list := take insert_at list ++ v :: drop insert_at list in
        Ok (Write (mk_entry exp (VList list)) (len_i64 list))
    end).
Definition linsert (key : Str) (before : bool) (pivot v : list byte) : prog kvE (Result Z) :=
  cas key (pure_mod (linsert_mod key before pivot v)).

Definition ltrim_mod (key : Str) (start stop : Z) (entry : option StoredValue) : Result (CasAction unit) :=
  list_or_return key (Ok (NoOp tt)) entry (fun list exp =>
    match resolve_trim_range (len list) start stop with
    | None => Ok (Delete tt)
    | Some (s, e_excl) =>
        let kept := slice list s e_excl in
        if is_empty kept then Ok (Delete tt)
        else Ok (Write (mk_entry exp (VList kept)) tt)
    end).
Definition ltrim (key : Str) (start stop : Z) : prog kvE (Result unit) :=
  cas key (pure_mod (ltrim_mod key start stop)).

(** LMOVE within one key, the pop of the source and the push of the target. *)
Definition rotate_mod (key : Str) (from_left to_left : bool) (entry : option StoredValue)
    : Result (CasAction (option (list byte))) :=
  list_or_return key (Ok (NoOp None)) entry (fun list exp =>
    match pop_side list from_left with
    | None => Ok (NoOp None)
    | Some (list, popped) =>
        Ok (Write (mk_entry exp (VList (push_side list popped to_left))) (Some popped))
    end).
Definition move_pop_mod (key : Str) (from_left : bool) (entry : option StoredValue)
    : Result (CasAction (option (list byte))) :=
  list_or_return key (Ok (NoOp None)) entry (fun list exp =>
    match pop_side list from_left with
    | None => Ok (NoOp None)
    | Some (list, popped) =>
        if is_empty list then Ok (Delete (Some popped))
        else Ok (Write (mk_entry exp (VList list)) (Some popped))
    end).
Definition move_push_mod (key : Str) (popped : list byte) (to_left : bool) (entry : option StoredValue)
    : Result (CasAction unit) :=
  let? (list, exp) := list_or_empty key entry in
  Ok (Write (mk_entry exp (VList (push_side list popped to_left))) tt).

Definition list_move (from to : Str) (from_left to_left : bool) : prog kvE (Result (option (list byte))) :=
  if str_eqb from to then cas from (pure_mod (rotate_mod from from_left to_left))
  else
    let!? dst := load to in
    match dst with
    | Some {| value := VList _ |} | None =>
        let!? popped := cas from (pure_mod (move_pop_mod from from_left)) in
        match popped with
        | None => Ret (Ok None)
        | Some popped =>
            let!? _ := cas to (pure_mod (move_push_mod to popped to_left)) in
            Ret (Ok (Some popped))
        end
    | Some _ => Ret (Err (wrong_type to))
    end.

Definition read_list {A} (key : Str) (d : A) (f : items -> A) : prog kvE (Result A) :=
  let!? e := load key in
  match e with
  | Some {| value := VList l |} => Ret (Ok (f l))
  | Some _ => Ret (Err (wrong_type key))
  | None => Ret (Ok d)
  end.

Definition lrange (key : Str) (start stop : Z) : prog kvE (Result items) :=
  read_list key [] (fun list =>
    match resolve_range (len_i64 list) start stop with
    | None => []
    | Some (s, e) => slice_incl list s e
    end).
Definition llen (key : Str) : prog kvE (Result Z) := read_list key 0 len_i64.
Definition lindex (key : Str) (index : Z) : prog kvE (Result (option (list byte))) :=
  read_list key None (fun l =>
    let n := len_i64 l in
    let actual := if index <? 0 then n + index else index in
    if (actual <? 0) || (n <=? actual) then None else l !! Z.to_nat actual).
Definition lpos (key : Str) (element : list byte) (rank : Z) (count : option Z) (maxlen : Z)
    : prog kvE (Result (list Z)) :=
  read_list key [] (fun list =>
    let wanted := match count with None => 1 | Some c => if c =? 0 then usize_max else c end in
    scan_list_positions list element rank wanted maxlen).

(** ** LREM *)

(** The specification: drop the first [n] occurrences. *)
Fixpoint remove_first (n : Z) (target : list byte) (l : items) : items :=
  match l with
  | [] => []
  | x :: r =>
      if (0 <? n) && bool_decide (x = target) then remove_first (n - 1) target r
      else x :: remove_first n target r
  end.

Lemma remove_first_done n t l : n <= 0 -> remove_first n t l = l.
Proof.
  intros Hn. induction l as [|x l IH]; cbn; [done|].
  destruct (Z.ltb_spec 0 n); [lia|]. cbn. by rewrite IH.
Qed.

Lemma remove_first_all n t l :
  len l <= n -> remove_first n t l = List.filter (fun x => negb (bool_decide (x = t))) l.
Proof.
  revert n. induction l as [|x l IH]; intros n Hn; cbn; [done|].
  rewrite len_cons in Hn. pose proof (len_nonneg l).
  destruct (Z.ltb_spec 0 n); [|lia]. cbn. case_bool_decide; cbn; rewrite IH by lia; done.
Qed.

Lemma remove_forward_spec fuel t max l i r :
  (length l - i <= fuel)%nat ->
  remove_forward fuel t max l i r =
    (take i l ++ remove_first (max - r) t (drop i l),
     r + (len (drop i l) - len (remove_first (max - r) t (drop i l)))).
Proof.
  revert l i r. induction fuel as [|f IH]; intros l i r Hf; cbn [remove_forward].
  - rewrite drop_ge, take_ge by lia. cbn. rewrite app_nil_r. f_equal. lia.
  - destruct (l !! i) as [x|] eqn:E.
    2: { apply lookup_ge_None in E. rewrite drop_ge, take_ge by lia. cbn. rewrite app_nil_r. f_equal. lia. }
    pose proof (lookup_lt_Some _ _ _ E) as Hi. rewrite (drop_S _ _ _ E). cbn [remove_first].
    destruct (Z.ltb_spec r max).
    + destruct (Z.ltb_spec 0 (max - r)); [|lia]. case_bool_decide as Ex; cbn [andb].
      * rewrite IH by (rewrite delete_take_drop, length_app, length_take, length_drop; lia).
        rewrite delete_take_drop, take_app_le, drop_app_ge by (rewrite length_take; lia).
        rewrite length_take, take_take, Nat.min_id, drop_drop, Nat.min_l by lia.
        replace (S i + (i - i))%nat with (S i) by lia. replace (max - (r + 1)) with (max - r - 1) by lia.
        rewrite len_cons. f_equal. lia.
      * rewrite IH by lia. rewrite (take_S_r _ _ _ E), <- app_assoc, !len_cons. cbn [app]. f_equal. lia.
    + destruct (Z.ltb_spec 0 (max - r)); [lia|]. cbn [andb]. rewrite remove_first_done by lia.
      rewrite <- (drop_S _ _ _ E), take_drop. f_equal. lia.
Qed.

Lemma remove_backward_spec t max l i r :
  (i <= length l)%nat ->
  remove_backward t max l i r =
    (rev (remove_first (max - r) t (rev (take i l))) ++ drop i l,
     r + (Z.of_nat i - len (remove_first (max - r) t (rev (take i l))))).
Proof.
  revert l r. induction i as [|i IH]; intros l r Hi; cbn [remove_backward].
  - rewrite take_0, drop_0. cbn. f_equal. unfold len. cbn. lia.
  - destruct (lookup_lt_is_Some_2 l i ltac:(lia)) as [x E].
    rewrite (take_S_r _ _ _ E), rev_app_distr. cbn [rev app remove_first]. rewrite E.
    destruct (Z.ltb_spec r max).
    + destruct (Z.ltb_spec 0 (max - r)); [|lia]. cbn [andb].
      destruct (decide (x = t)) as [->|Hx].
      * rewrite !bool_decide_true by done.
        rewrite IH by (rewrite delete_take_drop, length_app, length_take, length_drop; lia).
        rewrite delete_take_drop, take_app_le, drop_app_ge by (rewrite length_take; lia).
        rewrite length_take, take_take, Nat.min_id, drop_drop, Nat.min_l by lia.
        replace (S i + (i - i))%nat with (S i) by lia. replace (max - (r + 1)) with (max - r - 1) by lia.
        f_equal. lia.
      * rewrite !bool_decide_false by congruence. rewrite IH by lia. cbn [rev].
        rewrite <- app_assoc. cbn [app]. rewrite <- (drop_S _ _ _ E). rewrite len_cons. f_equal. lia.
    + destruct (Z.ltb_spec 0 (max - r)); [lia|]. cbn [andb]. rewrite remove_first_done by lia.
      cbn [rev]. rewrite rev_involutive, <- app_assoc. cbn [app].
      rewrite <- (drop_S _ _ _ E), take_drop. f_equal. unfold len. cbn [length].
      rewrite length_rev, length_take. lia.
Qed.

(** The two index loops of LREM compute their specification: all
    occurrences for [0], the first [count], or the last [-count] of them - and
    [i64::MIN], whose negation wraps, removes nothing. *)
Theorem remove_list_occurrences_spec l t count :
  in_i64 count = true -> len l <= i64_max ->
  let kept :=
    if count =? 0 then List.filter (fun x => negb (bool_decide (x = t))) l
    else if 0 <? count then remove_first count t l
    else if count =? i64_min then l
    else rev (remove_first (- count) t (rev l)) in
  remove_list_occurrences l t count = (kept, len l - len kept).
Proof.
  intros Hc%in_i64_spec Hl. unfold remove_list_occurrences, i64_min, i64_max in *. cbv zeta.
  destruct (Z.leb_spec 0 count).
  - rewrite remove_forward_spec by lia. rewrite drop_0, take_0, Z.sub_0_r. cbn [app].
    destruct (Z.eqb_spec count 0).
    + rewrite remove_first_all by (unfold i64_max; lia). done.
    + destruct (Z.ltb_spec 0 count); [done|lia].
  - rewrite remove_backward_spec by lia. rewrite drop_ge, take_ge, app_nil_r, Z.sub_0_r by lia.
    destruct (Z.eqb_spec count 0), (Z.ltb_spec 0 count); try lia. fold (len l).
    destruct (Z.eqb_spec count (- 2 ^ 63)) as [->|Hne].
    + rewrite remove_first_done by (vm_compute; done). rewrite rev_involutive.
      f_equal. unfold len. rewrite length_rev. lia.
    + unfold wrap_i64. rewrite wrap_i_small by (cbn; lia). f_equal.
      unfold len. rewrite length_rev. lia.
Qed.

(** ** LPOS *)

Definition hit (list : items) (element : Str) (i : nat) : bool := bool_decide (list !! i = Some element).

Lemma scan_indices_spec l e skip wanted cap is_ compared seen hits :
  seen <= skip -> len hits < wanted ->
  scan_indices l e skip wanted cap is_ compared seen hits =
    hits ++ take (Z.to_nat (wanted - len hits))
      (map (fun i => i64_of_usize (Z.of_nat i))
        (drop (Z.to_nat (skip - seen))
          (List.filter (hit l e) (take (Z.to_nat (cap - compared)) is_)))).
Proof.
  revert compared seen hits. induction is_ as [|i is_ IH]; intros c s h Hs Hh; cbn [scan_indices].
  { rewrite take_nil. cbn. rewrite drop_nil. cbn. by rewrite take_nil, app_nil_r. }
  destruct (Z.leb_spec cap c) as [Hc|Hc].
  { replace (Z.to_nat (cap - c)) with 0%nat by lia. rewrite take_0. cbn. rewrite drop_nil. cbn.
    by rewrite take_nil, app_nil_r. }
  assert (E : Z.to_nat (cap - c) = S (Z.to_nat (cap - (c + 1)))) by lia.
  rewrite E. cbn [take List.filter]. unfold hit at 1.
  case_bool_decide as Ei.
  - destruct (Z.ltb_spec s skip).
    + rewrite IH by lia. do 2 f_equal.
      replace (Z.to_nat (skip - s)) with (S (Z.to_nat (skip - (s + 1)))) by lia. done.
    + replace (Z.to_nat (skip - s)) with 0%nat by lia. rewrite drop_0. cbn [map].
      replace (Z.to_nat (wanted - len h)) with (S (Z.to_nat (wanted - len h - 1))) by lia. cbn [take].
      autorewrite with len. destruct (Z.leb_spec wanted (len h + (0 + 1))).
      * replace (Z.to_nat (wanted - len h - 1)) with 0%nat by lia. by rewrite take_0.
      * rewrite IH by (autorewrite with len; lia). autorewrite with len.
        replace (Z.to_nat (skip - s)) with 0%nat by lia. rewrite drop_0, <- app_assoc. cbn [app].
        do 3 f_equal. lia.
  - rewrite IH by lia. done.
Qed.

(** LPOS answers the positions of the matches met in search order
    within the first MAXLEN comparisons, less the [|RANK| - 1] skipped ones, at
    most COUNT of them. *)
Theorem scan_list_positions_spec l e rank wanted limit :
  rank <> 0 -> 0 < wanted -> 0 <= limit -> len l <= usize_max ->
  scan_list_positions l e rank wanted limit =
    let order := if 0 <? rank then List.seq 0 (length l) else rev (List.seq 0 (length l)) in
    let compared := if limit =? 0 then order else take (Z.to_nat limit) order in
    take (Z.to_nat wanted) (map (fun i => i64_of_usize (Z.of_nat i))
      (drop (Z.to_nat (Z.abs rank - 1)) (List.filter (hit l e) compared))).
Proof.
  intros Hr Hw Hl Hlen. unfold scan_list_positions. cbv zeta.
  destruct (Z.eqb_spec rank 0); [done|]. destruct (Z.eqb_spec wanted 0); [lia|]. rewrite orb_false_r. cbn [orb].
  destruct l as [|x l0] eqn:El; cbn [is_empty].
  { cbn. destruct (0 <? rank), (limit =? 0); cbn; rewrite ?take_nil; cbn; rewrite ?drop_nil; cbn; by rewrite ?take_nil. }
  rewrite <- El in *. set (order := if 0 <? rank then _ else _).
  assert (Ho : len order <= usize_max).
  { unfold order, len in *. destruct (0 <? rank); rewrite ?length_rev, length_seq; done. }
  rewrite scan_indices_spec by (rewrite ?len_nil; lia). rewrite len_nil, !Z.sub_0_r. cbn [app].
  rewrite Z.max_r by lia. do 4 f_equal. destruct (Z.eqb_spec limit 0); [|done].
  apply take_ge. unfold len in Ho. lia.
Qed.

(** ** Pushes and pops *)

Lemma pop_back_app {A} (l : list A) x : pop_back (l ++ [x]) = Some (l, x).
Proof. unfold pop_back. rewrite rev_app_distr. cbn. by rewrite rev_involutive. Qed.

Lemma pop_side_spec {A} (l l' : list A) left x :
  pop_side l left = Some (l', x) <-> l = push_side l' x left.
Proof.
  destruct left; cbn.
  - destruct l; naive_solver.
  - unfold pop_back. split.
    + destruct (rev l) as [|y r] eqn:E; [done|]. intros [= <- <-].
      rewrite <- (rev_involutive l), E. done.
    + intros ->. rewrite rev_app_distr. cbn. by rewrite rev_involutive.
Qed.
Lemma pop_side_none {A} (l : list A) left : pop_side l left = None <-> l = [].
Proof.
  destruct left; cbn; [by destruct l|]. unfold pop_back. destruct (rev l) eqn:E; split; try done.
  - intros _. by rewrite <- (rev_involutive l), E.
  - intros ->. done.
Qed.

Lemma push_all_left l vs : push_all l vs true = rev vs ++ l.
Proof.
  unfold push_all. revert l. induction vs as [|v vs IH]; intros l; cbn; [done|].
  rewrite IH. cbn. by rewrite <- app_assoc.
Qed.
Lemma push_all_right l vs : push_all l vs false = l ++ vs.
Proof.
  unfold push_all. revert l. induction vs as [|v vs IH]; intros l; cbn; [by rewrite app_nil_r|].
  rewrite IH. by rewrite <- app_assoc.
Qed.
Lemma push_all_nonempty l vs left : vs <> [] \/ l <> [] -> push_all l vs left <> [].
Proof.
  destruct left; rewrite ?push_all_left, ?push_all_right; intros H E; apply app_eq_nil in E as [E1 E2];
    destruct H as [H|H]; try done.
  apply (f_equal (@rev _)) in E1. by rewrite rev_involutive in E1.
Qed.

Lemma pop_n_left n l out : pop_n n l true out = (drop n l, out ++ take n l).
Proof.
  revert l out. induction n as [|n IH]; intros l out; cbn; [by rewrite drop_0, take_0, app_nil_r|].
  destruct l as [|x l]; cbn; [by rewrite app_nil_r|]. by rewrite IH, <- app_assoc.
Qed.
Lemma pop_n_right n l out : pop_n n l false out = (take (length l - n) l, out ++ take n (rev l)).
Proof.
  revert l out. induction n as [|n IH]; intros l out; cbn [pop_n].
  { by rewrite Nat.sub_0_r, take_ge, take_0, app_nil_r. }
  destruct (pop_side l false) as [[l' x]|] eqn:E.
  - apply pop_side_spec in E as ->. cbn [push_side]. rewrite IH, rev_app_distr, length_app. cbn [length rev app].
    replace (length l' + 1 - S n)%nat with (length l' - n)%nat by lia.
    rewrite take_app_le by lia. cbn [take]. by rewrite <- app_assoc.
  - apply pop_side_none in E as ->. cbn. by rewrite app_nil_r.
Qed.

Lemma is_empty_false {A} (l : list A) : is_empty l = false -> l <> [].
Proof. by destruct l. Qed.
Lemma push_side_nonempty {A} (l : list A) x left : push_side l x left <> [].
Proof. destruct left; cbn; [done|]. by destruct l. Qed.
Lemma insert_nonempty {A} (l : list A) i x : l <> [] -> <[i:=x]> l <> [].
Proof. destruct l; [done|]. by destruct i. Qed.
#[export] Hint Resolve push_all_nonempty is_empty_false push_side_nonempty insert_nonempty : value.

(** LPUSH then LPOP of as many elements gives them back last pushed
    first and leaves the list; the same at the right end. *)
Theorem push_pop_roundtrip l vs left :
  pop_n (length vs) (push_all l vs left) left [] = (l, rev vs).
Proof.
  destruct left.
  - rewrite push_all_left, pop_n_left, <- (length_rev vs). cbn [app]. f_equal; [apply drop_app_length|apply take_app_length].
  - rewrite push_all_right, pop_n_right, length_app. replace (length l + length vs - length vs)%nat with (length l) by lia.
    cbn [app]. rewrite rev_app_distr, <- (length_rev vs). f_equal; [by rewrite take_app_length|apply take_app_length].
Qed.

(** ** The commands meet their contract *)

#[export] Instance list_push_op key vs left : vs <> [] -> CollectionOp KList key (list_push_mod key vs left).
Proof. intros Hv. collection_op ltac:(unfold list_push_mod, list_or_empty). Qed.
#[export] Instance list_pushx_op key vs left : CollectionOp KList key (list_pushx_mod key vs left).
Proof. collection_op ltac:(unfold list_pushx_mod, list_or_return). Qed.
#[export] Instance list_pop_op key count left : CollectionOp KList key (list_pop_mod key count left).
Proof. collection_op ltac:(unfold list_pop_mod, list_or_return). Qed.
#[export] Instance lset_op key i v : CollectionOp KList key (lset_mod key i v).
Proof. collection_op ltac:(unfold lset_mod, list_or_return). Qed.
#[export] Instance lrem_op key count v : CollectionOp KList key (lrem_mod key count v).
Proof. collection_op ltac:(unfold lrem_mod, list_or_return). Qed.
#[export] Instance linsert_op key b p v : CollectionOp KList key (linsert_mod key b p v).
Proof.
  collection_op ltac:(unfold linsert_mod, list_or_return);
    intros E; apply app_eq_nil in E as [_ ?]; done.
Qed.
#[export] Instance ltrim_op key s e : CollectionOp KList key (ltrim_mod key s e).
Proof. collection_op ltac:(unfold ltrim_mod, list_or_return). Qed.
#[export] Instance rotate_op key a b : CollectionOp KList key (rotate_mod key a b).
Proof. collection_op ltac:(unfold rotate_mod, list_or_return). Qed.
#[export] Instance move_pop_op key a : CollectionOp KList key (move_pop_mod key a).
Proof. collection_op ltac:(unfold move_pop_mod, list_or_return). Qed.
#[export] Instance move_push_op key v a : CollectionOp KList key (move_push_mod key v a).
Proof. collection_op ltac:(unfold move_push_mod, list_or_empty). Qed.

(** ** LMOVE *)

(** C35: LMOVE between two keys takes one element off one end of the source
    and puts it at the chosen end of the destination: both TTLs stay, an
    emptied source is deleted, and no other key changes. *)
Theorem list_move_spec from to from_left to_left w l x exp m exp2 :
  from <> to ->
  live w from = Some (mk_entry exp (VList (push_side l x from_left))) ->
  holds (VList []) (live w to) (VList m) exp2 ->
  exists w', run (list_move from to from_left to_left) w = (Ok (Some x), w') /\
    live w' from = (if is_empty l then None else Some (mk_entry exp (VList l))) /\
    live w' to = Some (mk_entry exp2 (VList (push_side m x to_left))) /\
    forall k, k <> from -> k <> to -> live w' k = live w k.
Proof.
  intros Hne Hf Ht. unfold list_move, str_eqb. rewrite bool_decide_false by done.
  rewrite run_bind, run_load.
  assert (Edst : exists u, live w to = u /\ match u with Some {| value := VList _ |} | None => True | _ => False end).
  { destruct Ht as [->|(-> & _)]; eexists; (split; [reflexivity|done]). }
  destruct Edst as (u & Eu & Hu). rewrite Eu.
  set (w1 := gc to w).
  assert (Hf1 : live w1 from = Some (mk_entry exp (VList (push_side l x from_left)))).
  { unfold w1. by rewrite live_gc_any. }
  assert (Hpop : run (cas from (pure_mod (move_pop_mod from from_left))) w1 =
    (Ok (Some x), if is_empty l then remove from (gc from w1) else put from (mk_entry exp (VList l)) (gc from w1))).
  { rewrite run_cas. unfold atomic_update. rewrite live_gc, Hf1. unfold move_pop_mod. cbn [list_or_return mk_entry value expires_at_ms].
    destruct (pop_side _ _) as [[l2 x2]|] eqn:E.
    - apply pop_side_spec in E. destruct from_left; cbn in E; [injection E as <- <-|apply app_inj_tail in E as [<- <-]];
        by destruct (is_empty l).
    - apply pop_side_none in E. by apply push_side_nonempty in E. }
  set (w2 := if is_empty l then _ else _) in Hpop.
  assert (Hother : forall k, k <> from -> live w2 k = live w k).
  { intros k Hk. unfold w2, w1. destruct (is_empty l); rewrite ?live_put_ne, ?live_remove_ne, !live_gc_any by done; done. }
  assert (Hclock : clock_ms w2 = clock_ms w).
  { unfold w2, w1. destruct (is_empty l); rewrite ?clock_put, ?clock_remove, !clock_gc; done. }
  assert (Hpush : run (cas to (pure_mod (move_push_mod to x to_left))) w2 =
    (Ok tt, put to (mk_entry exp2 (VList (push_side m x to_left))) (gc to w2))).
  { rewrite run_cas. apply atomic_write. rewrite Hother by done.
    by destruct Ht as [->|(-> & [= ->] & ->)]. }
  exists (put to (mk_entry exp2 (VList (push_side m x to_left))) (gc to w2)). split.
  { destruct u as [[? []]|]; try done; cbn iota beta; rewrite run_bind, Hpop, run_bind, Hpush; done. }
  split; [|split].
  - rewrite live_put_ne, live_gc_any by done. unfold w2. destruct (is_empty l); [by rewrite live_remove_eq|].
    rewrite live_put_eq, clock_gc. assert (is_expired (clock_ms w1) (mk_entry exp (VList l)) = false) as ->; [|done].
    apply live_not_expired in Hf1. done.
  - rewrite live_put_eq, clock_gc, Hclock. by rewrite (holds_not_expired _ _ _ _ _ _ Ht).
  - intros k Hk1 Hk2. rewrite live_put_ne, live_gc_any by done. by apply Hother.
Qed.

Definition list_world : world :=
  world_of [(bs "src", mk_entry (Some 9000) (VList [bs "a"; bs "b"])); (bs "dst", mk_entry None (VList [bs "z"]))].

Lemma list_move_spec_witness :
  exists w', run (list_move (bs "src") (bs "dst") true false) list_world = (Ok (Some (bs "a")), w') /\
    live w' (bs "src") = Some (mk_entry (Some 9000) (VList [bs "b"])) /\
    live w' (bs "dst") = Some (mk_entry None (VList [bs "z"; bs "a"])).
Proof.
  destruct (list_move_spec (bs "src") (bs "dst") true false list_world [bs "b"] (bs "a") (Some 9000) [bs "z"] None)
    as (w' & E & Hf & Ht & _).
  - discriminate.
  - vm_compute. reflexivity.
  - left. vm_compute. reflexivity.
  - exists w'. split; [exact E|]. split; [exact Hf|exact Ht].
Defined.

Lemma remove_list_occurrences_spec_witness :
  remove_list_occurrences [bs "x"; bs "y"; bs "x"; bs "x"] (bs "x") (-2) = ([bs "x"; bs "y"], 2).
Proof.
  rewrite remove_list_occurrences_spec; [reflexivity|reflexivity|vm_compute; discriminate].
Defined.

Lemma scan_list_positions_spec_witness :
  scan_list_positions [bs "x"; bs "y"; bs "x"; bs "x"] (bs "x") (-2) 2 0 = [2; 0].
Proof.
  rewrite scan_list_positions_spec; [reflexivity|lia|lia|lia|vm_compute; discriminate].
Defined.
