(* ===== verification/Sets.v ===== *)
(** * Sets

    The set commands of [impl Storage for KVStorage] (src/storage.rs) and the
    set algebra behind SINTER, SUNION and SDIFF. *)

From S2P Require Import Prelude.
From S2P Require Import Text.
From S2P Require Import BTree.
From S2P Require Import F64.
From S2P Require Import Stream.
From S2P Require Import Value.
From S2P Require Import Hll.
From S2P Require Import Backend.
From S2P Require Import Linearizability.
From S2P Require Import Contracts.
From S2P Require Import Collections.
From S2P Require Import Strings.
From S2P Require Import Hashes.

(** ** Algebra *)

Definition set_intersection (sets : list (bset Str)) : list Str :=
  match sets with
  | [] => []
  | first :: rest => bs_elems (fold_left (fun acc s => bs_collect (bs_elems (bs_intersection acc s))) rest first)
  end.

(** [for s in sets { out.extend(s) }] *)
Definition set_union (sets : list (bset Str)) : list Str :=
  bs_elems (fold_left (fun out s => fold_left bs_insert (bs_elems s) out) sets []).

Definition set_difference (sets : list (bset Str)) : list Str :=
  match sets with
  | [] => []
  | first :: rest => bs_elems (fold_left (fun acc s => bs_collect (bs_elems (bs_difference acc s))) rest first)
  end.

(** ** Commands *)

Definition set_or_empty (key : Str) (entry : option StoredValue) : Result (bset Str * option Z) :=
  match entry with
  | Some {| value := VSet s; expires_at_ms := exp |} => Ok (s, exp)
  | Some _ => Err (wrong_type key)
  | None => Ok ([], None)
  end.

(** [if set.insert(m) { added += 1 }] *)
Definition sadd_step (st : bset Str * Z) (m : Str) : bset Str * Z :=
  let '(set, added) := st in
  (bs_insert set m, if bt_contains set m then added else added + 1).

Definition sadd_mod (key : Str) (members : list Str) (entry : option StoredValue) : Result (CasAction Z) :=
  let? (set, exp) := set_or_empty key entry in
  let '(set, added) := fold_left sadd_step members (set, 0) in
  Ok (Write (mk_entry exp (VSet set)) added).
Definition sadd (key : Str) (members : list Str) : prog kvE (Result Z) :=
  cas key (pure_mod (sadd_mod key members)).

Definition srem_mod (key : Str) (members : list Str) (entry : option StoredValue) : Result (CasAction Z) :=
  match entry with
  | Some {| value := VSet set; expires_at_ms := exp |} =>
      let '(set, removed) := remove_loop set members in
      if bt_is_empty set then Ok (Delete removed)
      else Ok (Write (mk_entry exp (VSet set)) removed)
  | Some _ => Err (wrong_type key)
  | None => Ok (NoOp 0)
  end.
Definition srem (key : Str) (members : list Str) : prog kvE (Result Z) :=
  cas key (pure_mod (srem_mod key members)).

Definition read_set {A} (key : Str) (d : A) (f : bset Str -> A) : prog kvE (Result A) :=
  let!? e := load key in
  match e with
  | Some {| value := VSet s |} => Ret (Ok (f s))
  | Some _ => Ret (Err (wrong_type key))
  | None => Ret (Ok d)
  end.

Definition smembers (key : Str) : prog kvE (Result (list Str)) := read_set key [] bs_elems.
Definition sismember (key member : Str) : prog kvE (Result bool) :=
  read_set key false (fun s => bt_contains s member).
Definition smismember (key : Str) (members : list Str) : prog kvE (Result (list bool)) :=
  read_set key (map (fun _ => false) members) (fun s => map (bt_contains s) members).
Definition scard (key : Str) : prog kvE (Result Z) := read_set key 0 len_i64.
Definition sscan (matches : Str -> Str -> bool) (key : Str) (cursor : Z) (pattern : option Str) (count : Z)
    : prog kvE (Result (Z * list Str)) :=
  read_set key (0, []) (fun s => apply_collection_scan matches (bs_elems s) cursor count pattern (fun x => x)).

Fixpoint load_sets_seq (keys : list Str) (out : list (bset Str)) : prog kvE (Result (list (bset Str))) :=
  match keys with
  | [] => Ret (Ok out)
  | k :: ks =>
      let!? members := smembers k in
      load_sets_seq ks (out ++ [bs_collect members])
  end.

Definition sinter (keys : list Str) : prog kvE (Result (list Str)) :=
  let!? sets := load_sets_seq keys [] in Ret (Ok (set_intersection sets)).
Definition sunion (keys : list Str) : prog kvE (Result (list Str)) :=
  let!? sets := load_sets_seq keys [] in Ret (Ok (set_union sets)).
Definition sdiff (keys : list Str) : prog kvE (Result (list Str)) :=
  let!? sets := load_sets_seq keys [] in Ret (Ok (set_difference sets)).

(** The SPOP closure draws its random rotation inside the CAS loop. *)
Definition spop_mod (key : Str) (count : Z) : modifier (list Str) := fun entry =>
  match entry with
  | Some {| value := VSet set; expires_at_ms := exp |} =>
      let! picked := pick_random_unique set count in
      let set := fold_left bt_remove picked set in
      if bt_is_empty set then Ret (Ok (Delete picked))
      else Ret (Ok (Write (mk_entry exp (VSet set)) picked))
  | Some _ => Ret (Err (wrong_type key))
  | None => Ret (Ok (NoOp []))
  end.

Definition spop (key : Str) (count : Z) : prog kvE (Result (list Str)) :=
  if count =? 0 then
    let!? e := load key in
    match e with
    | Some {| value := VSet _ |} | None => Ret (Ok [])
    | Some _ => Ret (Err (wrong_type key))
    end
  else cas key (spop_mod key count).

Definition srandmember (key : Str) (count : Z) (allow_duplicates : bool) : prog kvE (Result (list Str)) :=
  let!? e := load key in
  match e with
  | Some {| value := VSet s |} => let! l := pick_random s count allow_duplicates in Ret (Ok l)
  | Some _ => Ret (Err (wrong_type key))
  | None => Ret (Ok [])
  end.

(** ** Lemmas *)

Lemma sadd_step_all members s n :
  fold_left sadd_step members (s, n) =
    (fold_left bs_insert members s, n + (len (fold_left bs_insert members s) - len s)).
Proof.
  revert s n. induction members as [|m ms IH]; intros s n; cbn; [f_equal; lia|].
  rewrite IH. f_equal. unfold len, bs_insert. rewrite bt_insert_length. destruct (bt_contains s m); lia.
Qed.
#[export] Hint Rewrite sadd_step_all : op.

Lemma insert_members_nonempty members (s : bset Str) :
  members <> [] \/ s <> [] -> fold_left bs_insert members s <> [].
Proof.
  revert s. induction members as [|m ms IH]; cbn; intros s; [by intros [?|?]|].
  intros _. apply IH. right. apply bt_insert_nonempty.
Qed.
#[export] Hint Resolve insert_members_nonempty : btree.

#[export] Instance sadd_op key ms : ms <> [] -> CollectionOp KSet key (sadd_mod key ms).
Proof. intros Hm. collection_op ltac:(unfold sadd_mod, set_or_empty). Qed.
#[export] Instance srem_op key ms : CollectionOp KSet key (srem_mod key ms).
Proof. collection_op ltac:(unfold srem_mod). Qed.

(** *** Membership in the algebra *)

Lemma bs_elems_In (s : bset Str) x : bt_wf s -> In x (bs_elems s) <-> bt_contains s x = true.
Proof. intros Hs. symmetry. by apply bt_contains_In. Qed.

Lemma fold_intersection rest (acc : bset Str) x :
  bt_wf acc -> Forall bt_wf rest ->
  let r := fold_left (fun acc s => bs_collect (bs_elems (bs_intersection acc s))) rest acc in
  bt_wf r /\ (bt_contains r x = true <-> bt_contains acc x = true /\ Forall (fun s => bt_contains s x = true) rest).
Proof.
  intros Hacc Hr. revert acc Hacc. induction Hr as [|s rest Hs Hr IH]; intros acc Hacc; cbn.
  { split; [done|]. naive_solver. }
  destruct (IH (bs_collect (bs_elems (bs_intersection acc s)))) as [IH1 IH2]; [apply bt_wf_bs_collect|].
  split; [done|]. rewrite IH2, bs_contains_collect, bs_elems_In by (unfold bs_intersection; auto with btree).
  rewrite bs_contains_intersection, andb_true_iff, Forall_cons by done. tauto.
Qed.

Lemma fold_difference rest (acc : bset Str) x :
  bt_wf acc -> Forall bt_wf rest ->
  let r := fold_left (fun acc s => bs_collect (bs_elems (bs_difference acc s))) rest acc in
  bt_wf r /\ (bt_contains r x = true <-> bt_contains acc x = true /\ Forall (fun s => bt_contains s x = false) rest).
Proof.
  intros Hacc Hr. revert acc Hacc. induction Hr as [|s rest Hs Hr IH]; intros acc Hacc; cbn.
  { split; [done|]. naive_solver. }
  destruct (IH (bs_collect (bs_elems (bs_difference acc s)))) as [IH1 IH2]; [apply bt_wf_bs_collect|].
  split; [done|]. rewrite IH2, bs_contains_collect, bs_elems_In by (unfold bs_difference; auto with btree).
  rewrite bs_contains_difference, andb_true_iff, negb_true_iff, Forall_cons by done. tauto.
Qed.

Lemma fold_union sets (acc : bset Str) x :
  bt_wf acc -> Forall bt_wf sets ->
  let r := fold_left (fun out s => fold_left bs_insert (bs_elems s) out) sets acc in
  bt_wf r /\ (bt_contains r x = true <-> bt_contains acc x = true \/ Exists (fun s => bt_contains s x = true) sets).
Proof.
  intros Hacc Hr. revert acc Hacc. induction Hr as [|s rest Hs Hr IH]; intros acc Hacc; cbn.
  { split; [done|]. rewrite Exists_nil. tauto. }
  destruct (IH (fold_left bs_insert (bs_elems s) acc)) as [IH1 IH2]; [by apply bt_wf_bs_collect_from|].
  split; [done|]. rewrite IH2, bs_contains_collect_from, bs_elems_In, Exists_cons by done. tauto.
Qed.

(** The answer of a set command: strictly sorted, with exactly the members [P]. *)
Definition answers (l : list Str) (P : Str -> Prop) : Prop :=
  (exists s : bset Str, bt_wf s /\ l = bs_elems s) /\ forall x, In x l <-> P x.

(** SINTER, SUNION and SDIFF compute intersection, union and
    difference of the sets, as sorted duplicate-free lists. *)
Theorem set_algebra_spec first rest :
  Forall bt_wf (first :: rest) ->
  let mem (s : bset Str) x := bt_contains s x = true in
  answers (set_intersection (first :: rest)) (fun x => Forall (fun s => mem s x) (first :: rest)) /\
  answers (set_union (first :: rest)) (fun x => Exists (fun s => mem s x) (first :: rest)) /\
  answers (set_difference (first :: rest)) (fun x => mem first x /\ ~ Exists (fun s => mem s x) rest).
Proof.
  intros Hall mem. pose proof Hall as [Hf Hr]%Forall_cons. unfold mem. split; [|split].
  - pose proof (fun x => fold_intersection rest first x Hf Hr) as H. cbv zeta in H.
    split; [eexists; split; [by apply (H [])|done]|]. intros x. cbn [set_intersection].
    rewrite bs_elems_In by apply (H []). destruct (H x) as [_ ->]. by rewrite Forall_cons.
  - pose proof (fun x => fold_union (first :: rest) [] x bt_wf_nil Hall) as H. cbv zeta in H.
    split; [eexists; split; [by apply (H [])|done]|]. intros x. unfold set_union.
    rewrite bs_elems_In by apply (H []). destruct (H x) as [_ ->]. naive_solver.
  - pose proof (fun x => fold_difference rest first x Hf Hr) as H. cbv zeta in H.
    split; [eexists; split; [by apply (H [])|done]|]. intros x. cbn [set_difference].
    rewrite bs_elems_In by apply (H []). destruct (H x) as [_ ->].
    rewrite <- Forall_Exists_neg. split; intros [? Hx]; (split; [done|]); eapply Forall_impl; try exact Hx;
      intros s; cbn; destruct (bt_contains s x); naive_solver.
Qed.

(** *** Reading several sets *)

(** Two worlds a reader cannot tell apart. *)
Definition same_view (w w' : world) : Prop :=
  clock_ms w' = clock_ms w /\ forall k, live w' k = live w k.

#[export] Instance same_view_preorder : PreOrder same_view.
Proof.
  split; [by intros w|]. intros w1 w2 w3 [A1 A2] [B1 B2]. split; [congruence|].
  intros k. by rewrite B2.
Qed.
Lemma same_view_gc key w : same_view w (gc key w).
Proof. split; [apply clock_gc|]. intros k. apply live_gc_any. Qed.

(** The set a key stands for; a key of another kind has none. *)
Definition set_at (w : world) (k : Str) : option (bset Str) :=
  match live w k with
  | Some {| value := VSet s |} => Some s
  | Some _ => None
  | None => Some []
  end.

Lemma set_at_view w w' k : same_view w w' -> set_at w' k = set_at w k.
Proof. intros [_ H]. unfold set_at. by rewrite H. Qed.

Lemma set_at_wf w k s : keyspace_wf w -> set_at w k = Some s -> bt_wf s.
Proof.
  intros Hw. pose proof (keyspace_wf_live k w Hw) as Hl. unfold set_at.
  destruct (live w k) as [[? []]|]; intros [= <-]; [by apply Hl|constructor].
Qed.

Lemma run_smembers k w :
  run (smembers k) w = (match set_at w k with Some s => Ok (bs_elems s) | None => Err (wrong_type k) end, gc k w).
Proof.
  unfold smembers, read_set, set_at. rewrite run_bind, run_load. by destruct (live w k) as [[? []]|].
Qed.

Lemma run_load_sets keys out w :
  keyspace_wf w ->
  exists w', same_view w w' /\
    run (load_sets_seq keys out) w =
      (match mapM (set_at w) keys with
       | Some sets => Ok (out ++ sets)
       | None => match List.find (fun k => match set_at w k with Some _ => false | None => true end) keys with
                 | Some k => Err (wrong_type k)
                 | None => Ok []
                 end
       end, w').
Proof.
  revert out w. induction keys as [|k ks IH]; intros out w Hw; cbn [load_sets_seq].
  { exists w. split; [done|]. cbn. by rewrite app_nil_r. }
  rewrite run_bind, run_smembers. cbn [mapM List.find].
  destruct (set_at w k) as [s|] eqn:Es.
  - assert (Hc : bs_collect (bs_elems s) = s) by by eapply bs_collect_elems, set_at_wf.
    destruct (IH (out ++ [bs_collect (bs_elems s)]) (gc k w)) as (w' & Hv & Hrun); [by apply keyspace_wf_gc|].
    exists w'. split; [by etransitivity; [apply same_view_gc|]|]. rewrite Hrun, Hc.
    assert (E : forall k', set_at (gc k w) k' = set_at w k') by (intros; apply set_at_view, same_view_gc).
    assert (Em : mapM (set_at (gc k w)) ks = mapM (set_at w) ks).
    { clear -E. induction ks as [|k' ks IHk]; cbn; [done|]. rewrite E. destruct (set_at w k'); cbn; [|done]. by rewrite IHk. }
    rewrite Em. cbn. destruct (mapM (set_at w) ks); cbn; [by rewrite <- app_assoc|].
    f_equal. clear -E. induction ks as [|k' ks IHk]; cbn; [done|]. rewrite E. by destruct (set_at w k').
  - exists (gc k w). split; [apply same_view_gc|done].
Qed.

Lemma mapM_set_at_wf w keys sets :
  keyspace_wf w -> mapM (set_at w) keys = Some sets -> Forall bt_wf sets.
Proof.
  intros Hw H%mapM_Some. induction H; constructor; eauto using set_at_wf.
Qed.


(** ** SPOP *)

Lemma run_pick_random_unique s count w :
  bt_wf s -> 0 < count ->
  exists l, run (pick_random_unique s count) w = (l, w) /\
    NoDup l /\ len l = Z.min count (len s) /\ (forall x, In x l -> In x (bs_elems s)).
Proof.
  intros Hs Hc. unfold pick_random_unique. destruct s as [|p s0] eqn:E.
  { exists []. cbn. split; [done|]. split; [constructor|]. split; [unfold len; cbn; lia|done]. }
  rewrite <- E in *. assert (bt_is_empty s = false) as -> by by rewrite E. cbn [orb].
  destruct (Z.eqb_spec count 0); [lia|]. eexists. split; [reflexivity|].
  assert (El : len (bs_elems s) = len s) by (unfold len, bs_elems, bt_keys; by rewrite length_map).
  match goal with |- context [rotation _ ?st ?k] =>
    destruct (rotation_spec (bs_elems s) st k) as (H1 & H2 & H3) end.
  - by apply bt_wf_NoDup.
  - pose proof (len_nonneg s). lia.
  - split; [done|]. split; [by rewrite H2, El|done].
Qed.

(** C37: SPOP answers [min count size] distinct members of the set and
    removes exactly those; the TTL stays, and popping every member deletes the
    key. *)
Theorem spop_spec key count w s exp :
  live w key = Some (mk_entry exp (VSet s)) -> bt_wf s -> s <> [] -> 0 < count ->
  exists l s', NoDup l /\ len l = Z.min count (len s) /\ bt_wf s' /\
    (forall x, In x l -> bt_contains s x = true) /\
    (forall x, bt_contains s' x = bt_contains s x && negb (bool_decide (x ∈ l))) /\
    run (spop key count) w =
      (Ok l, if bt_is_empty s' then remove key (gc key w) else put key (mk_entry exp (VSet s')) (gc key w)).
Proof.
  intros Hl Hs Hne Hc.
  destruct (run_pick_random_unique s count (gc key w) Hs Hc) as (l & Hrun & Hnd & Hlen & Hin).
  exists l, (fold_left bt_remove l s). split; [done|]. split; [done|]. split; [auto with btree|]. split; [|split].
  - intros x Hx. apply Hin in Hx. by apply bs_elems_In.
  - intros x. unfold bt_contains. rewrite remove_all_get by done. case_bool_decide; destruct (bt_get s x); done.
  - unfold spop. destruct (Z.eqb_spec count 0); [lia|]. unfold cas. change MAX_CAS_RETRIES with 5%nat. cbn [cas_from].
    rewrite run_bind, run_cas_backoff, run_bind. cbn [trigger run handle]. rewrite kv_load_spec.
    pose proof (gc_live_lookup key w) as HL. rewrite Hl in HL.
    destruct (store (gc key w) !! key) as [[e v]|] eqn:E; [|done]. cbn in HL. injection HL as ->.
    rewrite run_bind. cbn [spop_mod mk_entry value expires_at_ms]. rewrite run_bind, Hrun.
    destruct (bt_is_empty (fold_left bt_remove l s)); cbn [run trigger handle pbind].
    + unfold kv_delete. rewrite E. by rewrite bool_decide_true.
    + unfold kv_save. rewrite E. by rewrite bool_decide_true.
Qed.

Definition sample_set : bset Str := [(bs "a", tt); (bs "b", tt); (bs "c", tt)].
Definition set_world : world :=
  world_of [(bs "s", mk_entry None (VSet sample_set)); (bs "t", mk_entry None (VSet [(bs "b", tt)]))].

Lemma sample_set_wf : bt_wf sample_set.
Proof. repeat (constructor; [repeat constructor|]). constructor. Qed.

Lemma set_world_wf : keyspace_wf set_world.
Proof.
  unfold set_world, world_of. cbn [fold_left fst snd].
  apply keyspace_wf_put; [split; [repeat constructor|done]|].
  apply keyspace_wf_put; [split; [apply sample_set_wf|done]|]. apply map_Forall_empty.
Qed.


Lemma spop_spec_witness :
  exists l (s' : bset Str), NoDup l /\ len l = 2 /\ bt_wf s' /\ fst (run (spop (bs "s") 2) set_world) = Ok l.
Proof.
  destruct (spop_spec (bs "s") 2 set_world sample_set None) as (l & s' & Hnd & Hl & Hwf & _ & _ & E).
  - vm_compute. reflexivity.
  - exact sample_set_wf.
  - discriminate.
  - lia.
  - exists l, s'. split; [exact Hnd|]. split; [exact Hl|]. split; [exact Hwf|]. rewrite E. reflexivity.
Defined.
