(* ===== verification/ZSets.v ===== *)
(** * ZSets

    Sorted sets: the canonical (score, member) order of src/storage.rs, the
    range, rank, lex and pop helpers, and the sorted-set commands of
    [impl Storage for KVStorage]. *)

From S2P Require Import Prelude.
From S2P Require Import Text.
From S2P Require Import BTree.
From S2P Require Import F64.
From S2P Require Import Stream.
From S2P Require Import Value.
From S2P Require Import Hll.
From S2P Require Import Backend.
From S2P Require Import Linearizability.
From S2P Require Import Contracts.
From S2P Require Import Collections.
From S2P Require Import Strings.
From S2P Require Import Hashes.

Abbreviation zmap := (btree Str f64).
Abbreviation zentry := (Str * f64)%type.

(** ** Ordering *)

(** [a.1.partial_cmp(&b.1).unwrap_or(Equal).then_with(|| a.0.cmp(&b.0))] *)
Definition zcmp (a b : zentry) : comparison :=
  match f64_cmp_or_eq (snd a) (snd b) with
  | Eq => kcmp (fst a) (fst b)
  | c => c
  end.

Definition sorted_zset (map : zmap) : list zentry := sort_by zcmp map.

(** [sorted.iter().position(|(m, _)| m == member)] *)
Fixpoint position_of (l : list zentry) (member : Str) : option nat :=
  match l with
  | [] => None
  | (m, _) :: r => if bool_decide (m = member) then Some 0%nat else option_map S (position_of r member)
  end.

Definition asc_rank_of (map : zmap) (member : Str) : option Z :=
  if negb (bt_contains map member) then None
  else option_map (fun pos => i64_of_usize (Z.of_nat pos)) (position_of (sorted_zset map) member).

(** ** Ranges *)

Definition in_score (min max : ScoreBound) (s : f64) : bool :=
  ScoreBound_ge_min min s && ScoreBound_le_max max s.
Definition in_lex (min max : LexBound) (m : Str) : bool :=
  LexBound_ge_min min m && LexBound_le_max max m.

Definition filter_zset_by_score (map : zmap) (min max : ScoreBound) : list Str :=
  List.map fst (List.filter (fun ms => in_score min max (snd ms)) (sorted_zset map)).

Definition filter_zset_by_lex (map : zmap) (min max : LexBound) : list Str :=
  List.filter (in_lex min max) (bt_keys map).

Definition apply_lex_limit (members : list Str) (limit : option (Z * Z)) : list Str :=
  match limit with
  | None => members
  | Some (offset, count) =>
      let offset_usize := usize_of_i64 (Z.max offset 0) 0 in
      if len members <=? offset_usize then []
      else
        let members := drop (Z.to_nat offset_usize) members in
        if 0 <=? count then take (Z.to_nat count) members else members
  end.

Definition count_zset_by_score (map : zmap) (min max : ScoreBound) : Z :=
  len_i64 (List.filter (in_score min max) (bt_values map)).

Definition slice_zset_reversed (map : zmap) (start stop : Z) : list Str :=
  let sorted := rev (sorted_zset map) in
  match resolve_range (len_i64 sorted) start stop with
  | None => []
  | Some (s, e) => List.map fst (slice_incl sorted s e)
  end.

(** [for (i, (m, score)) in sorted.into_iter().enumerate() { .. }] *)
Definition by_rank_step (s e : Z) (st : Z * zmap * Z) (ms : zentry) : Z * zmap * Z :=
  let '(i, kept, removed) := st in
  if (s <=? i) && (i <=? e) then (i + 1, kept, removed + 1)
  else (i + 1, bt_insert kept (fst ms) (snd ms), removed).

Definition partition_zset_by_rank (map : zmap) (start stop : Z) : zmap * Z :=
  let sorted := sorted_zset map in
  match resolve_range (len_i64 sorted) start stop with
  | None => (bt_collect sorted, 0)
  | Some (s, e) =>
      let '(_, kept, removed) := fold_left (by_rank_step s e) sorted (0, [], 0) in
      (kept, removed)
  end.

(** [for (m, score) in map { if in_range { removed += 1 } else { kept.insert(..) } }] *)
Definition partition_step (f : Str -> f64 -> bool) (st : zmap * Z) (ms : zentry) : zmap * Z :=
  let '(kept, removed) := st in
  if f (fst ms) (snd ms) then (kept, removed + 1)
  else (bt_insert kept (fst ms) (snd ms), removed).
Definition partition_zset_by_score (map : zmap) (min max : ScoreBound) : zmap * Z :=
  fold_left (partition_step (fun _ s => in_score min max s)) map ([], 0).

(** [for (i, (m, score)) in sorted.into_iter().enumerate()
     { if i < take { popped.push(..) } else { kept.insert(..) } }] *)
Definition pop_step (take : Z) (st : Z * zmap * list zentry) (ms : zentry) : Z * zmap * list zentry :=
  let '(i, kept, popped) := st in
  if i <? take then (i + 1, kept, popped ++ [ms])
  else (i + 1, bt_insert kept (fst ms) (snd ms), popped).

Definition pop_zset_edge (map : zmap) (count : Z) (from_max : bool) : zmap * list zentry :=
  if (count =? 0) || bt_is_empty map then (map, [])
  else
    let sorted := if from_max then rev (sorted_zset map) else sorted_zset map in
    let take := Z.min count (len sorted) in
    let '(_, kept, popped) := fold_left (pop_step take) sorted (0, [], []) in
    (kept, popped).

(** ** Writes *)

Definition zset_or_empty (key : Str) (entry : option StoredValue) : Result (zmap * option Z) :=
  match entry with
  | Some {| value := VZSet m; expires_at_ms := exp |} => Ok (m, exp)
  | Some _ => Err (wrong_type key)
  | None => Ok ([], None)
  end.
Definition zset_or_return {R} (key : Str) (missing : Result (CasAction R)) (entry : option StoredValue)
    (k : zmap -> option Z -> Result (CasAction R)) : Result (CasAction R) :=
  match entry with
  | Some {| value := VZSet m; expires_at_ms := exp |} => k m exp
  | Some _ => Err (wrong_type key)
  | None => missing
  end.
(** [if kept.is_empty() { Delete(r) } else { Write(kept, r) }] *)
Definition write_or_delete {R} (exp : option Z) (kept : zmap) (r : R) : Result (CasAction R) :=
  if bt_is_empty kept then Ok (Delete r) else Ok (Write (mk_entry exp (VZSet kept)) r).

Definition zadd_mod (key : Str) (pairs : list (f64 * Str)) (entry : option StoredValue)
    : Result (CasAction Z) :=
  let? (map, exp) := zset_or_empty key entry in
  let '(map, added) := hset_loop map (List.map (fun sm => (snd sm, fst sm)) pairs) in
  Ok (Write (mk_entry exp (VZSet map)) added).
Definition zadd (key : Str) (pairs : list (f64 * Str)) : prog kvE (Result Z) :=
  cas key (pure_mod (zadd_mod key pairs)).

Definition zadd_ext_step (flags : ZAddFlags) (st : zmap * Z * Z) (sm : f64 * Str) : zmap * Z * Z :=
  let '(map, added, updated) := st in
  let '(score, member) := sm in
  match bt_get map member with
  | Some prev =>
      if nx flags then st
      else if gt flags && f64_le score prev then st
      else if lt flags && f64_ge score prev then st
      else if negb (f64_same_bits prev score) then (bt_insert map member score, added, updated + 1)
      else st
  | None =>
      if xx flags then st
      else (bt_insert map member score, added + 1, updated)
  end.

Definition zadd_ext_mod (key : Str) (pairs : list (f64 * Str)) (flags : ZAddFlags)
    (entry : option StoredValue) : Result (CasAction Z) :=
  let? (map, exp) := zset_or_empty key entry in
  let '(map, added, updated) := fold_left (zadd_ext_step flags) pairs (map, 0, 0) in
  let count := if ch flags then added + updated else added in
  if (added =? 0) && (updated =? 0) then Ok (NoOp count)
  else Ok (Write (mk_entry exp (VZSet map)) count).
Definition zadd_ext (key : Str) (pairs : list (f64 * Str)) (flags : ZAddFlags) : prog kvE (Result Z) :=
  cas key (pure_mod (zadd_ext_mod key pairs flags)).

Definition zadd_ext_incr_mod (key : Str) (delta : f64) (member : Str) (flags : ZAddFlags)
    (entry : option StoredValue) : Result (CasAction (option f64)) :=
  let? (map, exp) := zset_or_empty key entry in
  let write score := Ok (Write (mk_entry exp (VZSet (bt_insert map member score))) (Some score)) in
  match bt_get map member with
  | Some prev =>
      if nx flags then Ok (NoOp None)
      else
        let candidate := f64_add prev delta in
        if f64_is_nan candidate then Err (Parse "resulting score is not a number (NaN)")
        else if gt flags && f64_le candidate prev then Ok (NoOp None)
        else if lt flags && f64_ge candidate prev then Ok (NoOp None)
        else write candidate
  | None => if xx flags then Ok (NoOp None) else write delta
  end.
Definition zadd_ext_incr (key : Str) (delta : f64) (member : Str) (flags : ZAddFlags)
    : prog kvE (Result (option f64)) :=
  cas key (pure_mod (zadd_ext_incr_mod key delta member flags)).

Definition zincr_by_mod (key member : Str) (delta : f64) (entry : option StoredValue)
    : Result (CasAction f64) :=
  let? (map, exp) := zset_or_empty key entry in
  let current := match bt_get map member with Some s => s | None => f64_zero end in
  let new_score := f64_add current delta in
  if f64_is_nan new_score then Err (Parse "resulting score is NaN")
  else Ok (Write (mk_entry exp (VZSet (bt_insert map member new_score))) new_score).
Definition zincr_by (key member : Str) (delta : f64) : prog kvE (Result f64) :=
  cas key (pure_mod (zincr_by_mod key member delta)).

Definition zrem_mod (key : Str) (members : list Str) (entry : option StoredValue) : Result (CasAction Z) :=
  zset_or_return key (Ok (NoOp 0)) entry (fun map exp =>
    let '(map, removed) := remove_loop map members in write_or_delete exp map removed).
Definition zrem (key : Str) (members : list Str) : prog kvE (Result Z) :=
  cas key (pure_mod (zrem_mod key members)).

Definition zremrangebyrank_mod (key : Str) (start stop : Z) (entry : option StoredValue)
    : Result (CasAction Z) :=
  zset_or_return key (Ok (NoOp 0)) entry (fun map exp =>
    let '(kept, removed) := partition_zset_by_rank map start stop in
    write_or_delete exp kept (i64_of_usize removed)).
Definition zremrangebyrank (key : Str) (start stop : Z) : prog kvE (Result Z) :=
  cas key (pure_mod (zremrangebyrank_mod key start stop)).

Definition zremrangebyscore_mod (key : Str) (min max : ScoreBound) (entry : option StoredValue)
    : Result (CasAction Z) :=
  zset_or_return key (Ok (NoOp 0)) entry (fun map exp =>
    let '(kept, removed) := partition_zset_by_score map min max in
    write_or_delete exp kept (i64_of_usize removed)).
Definition zremrangebyscore (key : Str) (min max : ScoreBound) : prog kvE (Result Z) :=
  cas key (pure_mod (zremrangebyscore_mod key min max)).

Definition zremrangebylex_mod (key : Str) (min max : LexBound) (entry : option StoredValue)
    : Result (CasAction Z) :=
  zset_or_return key (Ok (NoOp 0)) entry (fun map exp =>
    let '(kept, removed) := fold_left (partition_step (fun m _ => in_lex min max m)) map ([], 0) in
    write_or_delete exp kept removed).
Definition zremrangebylex (key : Str) (min max : LexBound) : prog kvE (Result Z) :=
  cas key (pure_mod (zremrangebylex_mod key min max)).

Definition zpop_mod (key : Str) (count : Z) (from_max : bool) (entry : option StoredValue)
    : Result (CasAction (list zentry)) :=
  zset_or_return key (Ok (NoOp [])) entry (fun map exp =>
    let '(kept, popped) := pop_zset_edge map count from_max in write_or_delete exp kept popped).

Definition zpop_impl (key : Str) (count : Z) (from_max : bool) : prog kvE (Result (list zentry)) :=
  if count =? 0 then
    let!? e := load key in
    match e with
    | Some {| value := VZSet _ |} | None => Ret (Ok [])
    | Some _ => Ret (Err (wrong_type key))
    end
  else cas key (pure_mod (zpop_mod key count from_max)).
Definition zpopmin (key : Str) (count : Z) : prog kvE (Result (list zentry)) := zpop_impl key count false.
Definition zpopmax (key : Str) (count : Z) : prog kvE (Result (list zentry)) := zpop_impl key count true.

(** ** Reads *)

Definition read_zset {A} (key : Str) (d : A) (f : zmap -> A) : prog kvE (Result A) :=
  let!? e := load key in
  match e with
  | Some {| value := VZSet m |} => Ret (Ok (f m))
  | Some _ => Ret (Err (wrong_type key))
  | None => Ret (Ok d)
  end.

Definition zitems (key : Str) : prog kvE (Result (list zentry)) := read_zset key [] (fun m => m).
Definition zrange (key : Str) (start stop : Z) : prog kvE (Result (list Str)) :=
  read_zset key [] (fun map =>
    let sorted := sort_by zcmp map in
    match resolve_range (len_i64 sorted) start stop with
    | None => []
    | Some (s, e) => List.map fst (slice_incl sorted s e)
    end).
Definition zscore (key member : Str) : prog kvE (Result (option f64)) :=
  read_zset key None (fun m => bt_get m member).
Definition zcard (key : Str) : prog kvE (Result Z) := read_zset key 0 len_i64.
Definition zrank (key member : Str) : prog kvE (Result (option Z)) :=
  read_zset key None (fun m => asc_rank_of m member).
Definition zrevrank (key member : Str) : prog kvE (Result (option Z)) :=
  read_zset key None (fun m => option_map (fun r => len_i64 m - 1 - r) (asc_rank_of m member)).
Definition zcount (key : Str) (min max : ScoreBound) : prog kvE (Result Z) :=
  read_zset key 0 (fun m => count_zset_by_score m min max).
Definition zmscore (key : Str) (members : list Str) : prog kvE (Result (list (option f64))) :=
  read_zset key (List.map (fun _ => None) members) (fun m => List.map (bt_get m) members).
Definition zscan (matches : Str -> Str -> bool) (key : Str) (cursor : Z) (pattern : option Str) (count : Z)
    : prog kvE (Result (Z * list zentry)) :=
  read_zset key (0, []) (fun m => apply_collection_scan matches m cursor count pattern fst).
Definition zrandmember (key : Str) (count : Z) (allow_duplicates : bool) : prog kvE (Result (list zentry)) :=
  let!? e := load key in
  match e with
  | Some {| value := VZSet m |} => let! l := pick_random_from_zset m count allow_duplicates in Ret (Ok l)
  | Some _ => Ret (Err (wrong_type key))
  | None => Ret (Ok [])
  end.
Definition zrangebyscore (key : Str) (min max : ScoreBound) : prog kvE (Result (list Str)) :=
  read_zset key [] (fun m => filter_zset_by_score m min max).
Definition zrevrange (key : Str) (start stop : Z) : prog kvE (Result (list Str)) :=
  read_zset key [] (fun m => slice_zset_reversed m start stop).
Definition zrevrangebyscore (key : Str) (max min : ScoreBound) : prog kvE (Result (list Str)) :=
  read_zset key [] (fun m => rev (filter_zset_by_score m min max)).
Definition zrangebylex (key : Str) (min max : LexBound) (limit : option (Z * Z)) : prog kvE (Result (list Str)) :=
  read_zset key [] (fun m => apply_lex_limit (filter_zset_by_lex m min max) limit).
Definition zrevrangebylex (key : Str) (max min : LexBound) (limit : option (Z * Z)) : prog kvE (Result (list Str)) :=
  read_zset key [] (fun m => apply_lex_limit (rev (filter_zset_by_lex m min max)) limit).
Definition zlexcount (key : Str) (min max : LexBound) : prog kvE (Result Z) :=
  read_zset key 0 (fun m => len_i64 (List.filter (in_lex min max) (bt_keys m))).

(** ** The canonical order *)

Definition no_nan (l : list zentry) : Prop := Forall (fun ms => f64_is_nan (snd ms) = false) l.

(** [zcmp] where scores are not NaN, as a total order. *)
Definition zord (a b : zentry) : comparison :=
  match rank_cmp (f64_rank (snd a)) (f64_rank (snd b)) with
  | Eq => kcmp (fst a) (fst b)
  | c => c
  end.
Definition zlt (a b : zentry) : Prop := zord a b = Lt.

Lemma zcmp_zord a b :
  f64_is_nan (snd a) = false -> f64_is_nan (snd b) = false -> zcmp a b = zord a b.
Proof. intros Ha Hb. unfold zcmp, zord, f64_cmp_or_eq. by rewrite f64_cmp_rank. Qed.

Lemma zord_antisym a b : zord b a = CompOpp (zord a b).
Proof.
  unfold zord. rewrite (rank_cmp_antisym (f64_rank (snd a))), (kcmp_antisym (fst a)).
  by destruct (rank_cmp _ _).
Qed.

Lemma zlt_trans a b c : zlt a b -> zlt b c -> zlt a c.
Proof.
  unfold zlt, zord.
  destruct (rank_cmp (f64_rank (snd a)) (f64_rank (snd b))) eqn:E1; try done.
  - rewrite (rank_cmp_eq_trans _ _ (f64_rank (snd c)) E1).
    destruct (rank_cmp (f64_rank (snd a)) (f64_rank (snd c))); [apply kcmp_trans|done|done].
  - destruct (rank_cmp (f64_rank (snd b)) (f64_rank (snd c))) eqn:E2; try done; intros _ _;
      by rewrite (rank_cmp_lt_trans _ _ _ E1) by by rewrite E2.
Qed.

Lemma zlt_irrefl a : ~ zlt a a.
Proof. unfold zlt, zord. by rewrite rank_cmp_refl, kcmp_refl. Qed.

Lemma zord_total a b : fst a <> fst b -> zlt a b \/ zlt b a.
Proof.
  intros Hne. unfold zlt. rewrite (zord_antisym a b). destruct (zord a b) eqn:E; [|tauto|tauto].
  unfold zord in E. destruct (rank_cmp _ _); try done. by apply kcmp_eq in E.
Qed.

Lemma sorted_zset_perm m : sorted_zset m ≡ₚ m.
Proof. apply sort_by_perm. Qed.

Lemma len_sorted_zset m : len (sorted_zset m) = len m.
Proof. unfold len. by rewrite (Permutation_length (sorted_zset_perm m)). Qed.

Lemma insert_by_sorted x l :
  no_nan (x :: l) -> Forall (fun y => fst x <> fst y) l -> StronglySorted zlt l ->
  StronglySorted zlt (insert_by zcmp x l).
Proof.
  intros [Hx Hl]%Forall_cons Hne Hs. induction Hs as [|y l Hs IH Hy]; cbn; [repeat constructor|].
  apply Forall_cons in Hl as [Hny Hl]. apply Forall_cons in Hne as [Hxy Hne].
  rewrite zcmp_zord by done. destruct (zord_total x y Hxy) as [Hlt|Hgt].
  - rewrite Hlt. constructor; [by constructor|]. constructor; [done|].
    eapply Forall_impl; [exact Hy|]. intros z. by apply zlt_trans.
  - unfold zlt in Hgt. rewrite (zord_antisym y x), Hgt. cbn. constructor; [by apply IH|].
    rewrite insert_by_perm. by constructor.
Qed.

Lemma sorted_zset_sorted m : bt_wf m -> no_nan m -> StronglySorted zlt (sorted_zset m).
Proof.
  intros Hm Hn. unfold sorted_zset. induction Hm as [|k v m Hk Hm IH]; cbn; [constructor|].
  pose proof (sort_by_perm zcmp m) as Hp. pose proof Hn as [Hv Hn']%Forall_cons.
  apply insert_by_sorted; [| |by apply IH].
  - unfold no_nan. rewrite Hp. by constructor.
  - rewrite Hp. eapply Forall_impl; [exact Hk|]. cbn. intros y Hy ->. by apply klt_irrefl in Hy.
Qed.

(** The sorted enumeration is unique: any increasing list of the entries is it. *)
Lemma zlt_sorted_unique l k : StronglySorted zlt l -> StronglySorted zlt k -> l ≡ₚ k -> l = k.
Proof.
  intros Hl. revert k. induction Hl as [|x l Hl IH Hx]; intros k Hk Hp.
  { by apply Permutation_nil_l in Hp. }
  destruct Hk as [|y k Hk Hy]; [by apply Permutation_nil_r in Hp|].
  assert (x = y) as ->.
  { assert (Hxk : x ∈ y :: k) by (rewrite <- Hp; by left).
    assert (Hyl : y ∈ x :: l) by (rewrite Hp; by left).
    apply elem_of_cons in Hxk as [->|Hxk]; [done|]. apply elem_of_cons in Hyl as [->|Hyl]; [done|].
    rewrite Forall_forall in Hx, Hy. exfalso. eapply zlt_irrefl, zlt_trans; eauto. }
  f_equal. apply IH; [done|]. by apply Permutation_cons_inv in Hp.
Qed.

Lemma sorted_keys_distinct m : bt_wf m -> NoDup (List.map fst (sorted_zset m)).
Proof.
  intros Hm. assert (Hp : List.map fst (sorted_zset m) ≡ₚ bt_keys m)
    by (unfold bt_keys; by apply Permutation_map, sorted_zset_perm).
  rewrite Hp. by apply bt_wf_NoDup.
Qed.

(** ** Ranks *)

Definition zltb (a b : zentry) : bool := match zord a b with Lt => true | _ => false end.

Lemma zltb_irrefl a : zltb a a = false.
Proof. unfold zltb. destruct (zord a a) eqn:E; try done. by apply zlt_irrefl in E. Qed.

Lemma position_of_sorted l m s :
  StronglySorted zlt l -> In (m, s) l -> NoDup (List.map fst l) ->
  position_of l m = Some (length (List.filter (fun e => zltb e (m, s)) l)).
Proof.
  intros Hs. induction Hs as [|[k v] l Hs IH Hx]; cbn; [done|]. intros Hin [Hk Hnd]%NoDup_cons.
  case_bool_decide as E.
  - subst k. destruct Hin as [[= <-]|Hin].
    2: { exfalso. apply Hk, list_elem_of_In. by apply (in_map fst) in Hin. }
    rewrite zltb_irrefl.
    assert (List.filter (fun e => zltb e (m, v)) l = []) as ->; [|done].
    clear -Hx. induction Hx as [|y l Hy _ IH]; cbn; [done|].
    unfold zltb, zlt in *. by rewrite (zord_antisym (m, v) y), Hy.
  - destruct Hin as [[= -> ->]|Hin]; [done|]. rewrite IH by done.
    rewrite Forall_forall in Hx. specialize (Hx _ (proj2 (list_elem_of_In _ _) Hin)).
    assert (zltb (k, v) (m, s) = true) as -> by (unfold zltb; by rewrite Hx). done.
Qed.

(** ZRANK is the number of entries strictly below the member in the
    canonical order - by score, then by member bytes - and is absent exactly for
    non-members. *)
Theorem asc_rank_of_spec m member :
  bt_wf m -> no_nan m -> len m <= i64_max ->
  asc_rank_of m member =
    match bt_get m member with
    | Some s => Some (len (List.filter (fun e => zltb e (member, s)) m))
    | None => None
    end.
Proof.
  intros Hm Hn Hl. unfold asc_rank_of, bt_contains. destruct (bt_get m member) as [s|] eqn:E; [|done].
  cbn [negb]. apply bt_get_In in E; [|done].
  rewrite (position_of_sorted _ _ s); [|by apply sorted_zset_sorted| |by apply sorted_keys_distinct].
  - cbn [option_map]. f_equal.
    assert (Hp : List.filter (fun e => zltb e (member, s)) (sorted_zset m) ≡ₚ List.filter (fun e => zltb e (member, s)) m).
    { generalize (sorted_zset_perm m). clear. induction 1; cbn; repeat destruct (zltb _ _); eauto using Permutation, perm_swap. }
    rewrite (Permutation_length Hp). unfold i64_of_usize, len.
    pose proof (List.filter_length_le (fun e => zltb e (member, s)) m). unfold len in Hl.
    destruct (Z.leb_spec (Z.of_nat (length (List.filter (fun e => zltb e (member, s)) m))) i64_max); lia.
  - apply list_elem_of_In. rewrite sorted_zset_perm. by apply list_elem_of_In.
Qed.

(** ** Rebuilding trees *)

Lemma insert_all_perm {V} l (m : btree Str V) :
  bt_wf m -> NoDup (List.map fst (l ++ m)) -> insert_all l m ≡ₚ l ++ m.
Proof.
  revert m. induction l as [|[k v] l IH]; intros m Hm Hnd; cbn; [done|].
  fold (insert_all l (bt_insert m k v)).
  assert (Hp : bt_insert m k v ≡ₚ (k, v) :: m).
  { apply bt_insert_perm. destruct (bt_get m k) as [v'|] eqn:E; [|done].
    apply bt_get_In in E; [|done]. cbn in Hnd. apply NoDup_cons in Hnd as [Hk _]. exfalso. apply Hk.
    rewrite map_app. apply elem_of_app. right. apply list_elem_of_In. by apply (in_map fst) in E. }
  rewrite IH, Hp.
  - by rewrite Permutation_middle.
  - auto with btree.
  - rewrite Hp, <- Permutation_middle. exact Hnd.
Qed.

Lemma partition_fold f l k n :
  fold_left (partition_step f) l (k, n) =
    (insert_all (List.filter (fun ms => negb (f (fst ms) (snd ms))) l) k,
     n + len (List.filter (fun ms => f (fst ms) (snd ms)) l)).
Proof.
  revert k n. induction l as [|[m s] l IH]; intros k n; cbn; [f_equal; unfold len; cbn; lia|].
  destruct (f m s); cbn; rewrite IH; [|done]. autorewrite with len. f_equal. lia.
Qed.

Lemma insert_all_collect {V} (l : list (Str * V)) m :
  insert_all l m = fold_left (fun m '(k, v) => bt_insert m k v) l m.
Proof. unfold insert_all. revert m. induction l as [|[k v] l IH]; intros m; cbn; auto. Qed.

Lemma partition_wf f m :
  bt_wf m ->
  fold_left (partition_step f) m ([], 0) =
    (bt_filter (fun k v => negb (f k v)) m, len (bt_filter f m)).
Proof.
  intros Hm. rewrite partition_fold, insert_all_collect.
  assert (E : forall g : Str -> f64 -> bool, List.filter (fun ms => g (fst ms) (snd ms)) m = bt_filter g m).
  { intros g. unfold bt_filter. apply List.filter_ext. by intros []. }
  rewrite (E f), (E (fun k v => negb (f k v))). f_equal.
  apply (bt_collect_wf (bt_filter (fun k v => negb (f k v)) m)). auto with btree.
Qed.

(** Equality of triples of counters and collections. *)
Ltac triple :=
  cbn [fold_left]; autorewrite with len; rewrite ?Z.add_0_r;
  apply f_equal2; [apply f_equal2|]; first [reflexivity | lia].

Lemma by_rank_outside s e l i k r :
  i + len l <= s \/ e < i ->
  fold_left (by_rank_step s e) l (i, k, r) = (i + len l, insert_all l k, r).
Proof.
  revert i k. induction l as [|[m v] l IH]; intros i k Hi; [triple|].
  autorewrite with len in Hi. pose proof (len_nonneg l). cbn [fold_left]. unfold by_rank_step at 2.
  destruct (Z.leb_spec s i), (Z.leb_spec i e); cbn [andb]; try lia;
    rewrite IH by lia; triple.
Qed.
Lemma by_rank_inside s e l i k r :
  s <= i -> i + len l <= e + 1 ->
  fold_left (by_rank_step s e) l (i, k, r) = (i + len l, k, r + len l).
Proof.
  revert i r. induction l as [|[m v] l IH]; intros i r Hs He; [triple|].
  autorewrite with len in He. pose proof (len_nonneg l). cbn [fold_left]. unfold by_rank_step at 2.
  destruct (Z.leb_spec s i), (Z.leb_spec i e); cbn [andb]; try lia.
  rewrite IH by lia. triple.
Qed.

Lemma pop_fold_kept take_ l i k p :
  take_ <= i -> fold_left (pop_step take_) l (i, k, p) = (i + len l, insert_all l k, p).
Proof.
  revert i k. induction l as [|[m v] l IH]; intros i k Hi; [triple|].
  cbn [fold_left]. unfold pop_step at 2. destruct (Z.ltb_spec i take_); [lia|].
  rewrite IH by lia. triple.
Qed.
Lemma pop_fold_popped take_ l i k p :
  i + len l <= take_ -> fold_left (pop_step take_) l (i, k, p) = (i + len l, k, p ++ l).
Proof.
  revert i p. induction l as [|[m v] l IH]; intros i p Hi.
  { rewrite app_nil_r. triple. }
  autorewrite with len in Hi. pose proof (len_nonneg l). cbn [fold_left]. unfold pop_step at 2.
  destruct (Z.ltb_spec i take_); [|lia]. rewrite IH by lia. rewrite <- app_assoc. triple.
Qed.

Definition zorder (m : zmap) (from_max : bool) : list zentry :=
  if from_max then rev (sorted_zset m) else sorted_zset m.

Lemma zorder_perm m from_max : zorder m from_max ≡ₚ m.
Proof. destruct from_max; cbn; rewrite ?reverse_Permutation; [|apply sorted_zset_perm].
  rewrite <- Permutation_rev. apply sorted_zset_perm. Qed.

Lemma zorder_split_perm m from_max (l k : list zentry) :
  bt_wf m -> zorder m from_max ≡ₚ l ++ k -> insert_all k [] ≡ₚ k.
Proof.
  intros Hm Hp. rewrite insert_all_perm, app_nil_r; [done|constructor|].
  rewrite app_nil_r. assert (Hnd : NoDup (List.map fst (l ++ k))).
  { rewrite <- (Permutation_map fst Hp), (Permutation_map fst (zorder_perm m from_max)). by apply bt_wf_NoDup. }
  rewrite map_app in Hnd. by apply NoDup_app in Hnd as (_ & _ & ?).
Qed.

Lemma pop_zset_edge_eq m count from_max :
  0 < count -> m <> [] ->
  pop_zset_edge m count from_max =
    (insert_all (drop (Z.to_nat count) (zorder m from_max)) [], take (Z.to_nat count) (zorder m from_max)).
Proof.
  intros Hc Hm. unfold pop_zset_edge. destruct (Z.eqb_spec count 0); [lia|].
  assert (bt_is_empty m = false) as -> by by destruct m. cbn [orb]. fold (zorder m from_max).
  set (o := zorder m from_max). set (t := Z.min count (len o)).
  rewrite <- (take_drop (Z.to_nat count) o) at 1. rewrite fold_left_app.
  rewrite pop_fold_popped by (unfold len, t; rewrite length_take; unfold len; lia).
  destruct (Z.leb_spec count (len o)).
  - rewrite pop_fold_kept by (unfold t, len in *; rewrite length_take; lia). done.
  - rewrite (drop_ge o) by (unfold len in *; lia). done.
Qed.

(** ZPOPMIN / ZPOPMAX take the first [count] entries of the canonical
    order (ascending, or its reverse), and keep exactly the others. *)
Theorem pop_zset_edge_spec m count from_max :
  bt_wf m -> no_nan m -> 0 < count -> m <> [] ->
  exists kept popped, pop_zset_edge m count from_max = (kept, popped) /\
    bt_wf kept /\ m ≡ₚ popped ++ kept /\ len popped = Z.min count (len m) /\
    StronglySorted (fun a b => if from_max then zlt b a else zlt a b) popped /\
    (forall a b, In a popped -> In b kept -> if from_max then zlt b a else zlt a b).
Proof.
  intros Hm Hn Hc Hne. rewrite pop_zset_edge_eq by done. set (n := Z.to_nat count).
  assert (Hp : insert_all (drop n (zorder m from_max)) [] ≡ₚ drop n (zorder m from_max)).
  { apply (zorder_split_perm m from_max (take n (zorder m from_max))); [done|]. by rewrite take_drop. }
  assert (Hs : StronglySorted (fun a b => if from_max then zlt b a else zlt a b) (zorder m from_max)).
  { pose proof (sorted_zset_sorted m Hm Hn) as Hs. destruct from_max; [|done]. cbn.
    clear -Hs. induction Hs as [|x l Hs IH Hx]; cbn; [constructor|]. apply StronglySorted_app. split; [|split; [done|repeat constructor]].
    intros a b Ha Hb. apply list_elem_of_singleton in Hb as ->. rewrite Forall_forall in Hx. apply Hx.
    apply list_elem_of_In. apply list_elem_of_In, in_rev in Ha. done. }
  eexists _, _. split; [reflexivity|]. split; [|split; [|split; [|split]]].
  - apply insert_all_wf. constructor.
  - rewrite Hp, take_drop. symmetry. apply zorder_perm.
  - unfold len. rewrite length_take, (Permutation_length (zorder_perm m from_max)). lia.
  - rewrite <- (take_drop n (zorder m from_max)) in Hs. by apply StronglySorted_app_1_l in Hs.
  - intros a b Ha Hb. rewrite <- (take_drop n (zorder m from_max)) in Hs.
    apply StronglySorted_app in Hs as (Hs & _ & _). apply Hs; [by apply list_elem_of_In|].
    rewrite <- Hp. by apply list_elem_of_In.
Qed.

(** ** Range removals *)

Lemma partition_by_rank_eq m start stop :
  partition_zset_by_rank m start stop =
    match resolve_range (len_i64 (sorted_zset m)) start stop with
    | None => (insert_all (sorted_zset m) [], 0)
    | Some (s, e) =>
        (insert_all (take (Z.to_nat s) (sorted_zset m) ++ drop (Z.to_nat (e + 1)) (sorted_zset m)) [], e - s + 1)
    end.
Proof.
  unfold partition_zset_by_rank. set (o := sorted_zset m).
  destruct (resolve_range _ start stop) as [[s e]|] eqn:E; [|by rewrite insert_all_collect].
  assert (Hb : 0 <= s <= e /\ e < len o).
  { apply resolve_range_bounds in E; unfold len_i64, i64_of_usize in *; pose proof (len_nonneg o);
      destruct (Z.leb_spec (len o) i64_max); unfold i64_max in *; lia. }
  assert (Eo : o = take (Z.to_nat s) o ++ slice_incl o s e ++ drop (Z.to_nat (e + 1)) o).
  { unfold slice_incl, slice. rewrite <- (take_drop (Z.to_nat s) o) at 1. f_equal.
    rewrite <- (take_drop (Z.to_nat (e + 1 - s)) (drop (Z.to_nat s) o)) at 1. f_equal. rewrite drop_drop. f_equal. lia. }
  assert (Ht : len (take (Z.to_nat s) o) = s) by (unfold len in *; rewrite length_take; lia).
  rewrite Eo at 1. rewrite !fold_left_app, by_rank_outside, Ht by lia.
  rewrite by_rank_inside, len_slice_incl by (rewrite ?len_slice_incl; lia).
  rewrite by_rank_outside by lia. unfold insert_all. by rewrite fold_left_app.
Qed.

(** ZREMRANGEBYRANK removes exactly the entries whose rank
    lies in the resolved window and counts them. *)
Theorem partition_by_rank_spec m start stop s e :
  bt_wf m -> len m <= i64_max -> resolve_range (len m) start stop = Some (s, e) ->
  exists kept, partition_zset_by_rank m start stop = (kept, e - s + 1) /\ bt_wf kept /\
    m ≡ₚ slice_incl (sorted_zset m) s e ++ kept.
Proof.
  intros Hm Hl Hr. rewrite partition_by_rank_eq.
  assert (El : len_i64 (sorted_zset m) = len m).
  { unfold len_i64, i64_of_usize. rewrite len_sorted_zset. by destruct (Z.leb_spec (len m) i64_max); [|lia]. }
  rewrite El, Hr. eexists. split; [reflexivity|]. split; [apply insert_all_wf; constructor|].
  apply resolve_range_bounds in Hr; [|apply len_nonneg]. pose proof (sorted_zset_perm m) as Hp. set (o := sorted_zset m) in *.
  assert (Eo : o = take (Z.to_nat s) o ++ slice_incl o s e ++ drop (Z.to_nat (e + 1)) o).
  { unfold slice_incl, slice. rewrite <- (take_drop (Z.to_nat s) o) at 1. f_equal.
    rewrite <- (take_drop (Z.to_nat (e + 1 - s)) (drop (Z.to_nat s) o)) at 1. f_equal. rewrite drop_drop. f_equal. lia. }
  assert (Hsplit : o ≡ₚ slice_incl o s e ++ (take (Z.to_nat s) o ++ drop (Z.to_nat (e + 1)) o)).
  { rewrite Eo at 1. rewrite !app_assoc. by rewrite (Permutation_app_comm (take _ o)). }
  rewrite (zorder_split_perm m false (slice_incl o s e)) by (done || exact Hsplit).
  by rewrite <- Hsplit.
Qed.

(** ZREMRANGEBYSCORE keeps exactly the entries outside the
    bounds; what it removed is what ZCOUNT counts and ZRANGEBYSCORE lists. *)
Theorem partition_by_score_spec m min max :
  bt_wf m -> len m <= i64_max ->
  exists kept, partition_zset_by_score m min max = (kept, count_zset_by_score m min max) /\ bt_wf kept /\
    (forall k, bt_get kept k = match bt_get m k with
                               | Some s => if in_score min max s then None else Some s
                               | None => None end) /\
    len (filter_zset_by_score m min max) = count_zset_by_score m min max.
Proof.
  intros Hm Hl. unfold partition_zset_by_score. rewrite partition_wf by done.
  assert (Hc : len (bt_filter (fun _ s => in_score min max s) m) = count_zset_by_score m min max).
  { unfold count_zset_by_score, len_i64, i64_of_usize, bt_filter, bt_values.
    assert (E : forall l : zmap, length (List.filter (fun '(_, v) => in_score min max v) l) =
                        length (List.filter (in_score min max) (List.map snd l))).
    { induction l as [|[k v] l IH]; cbn; [done|]. destruct (in_score min max v); cbn; by rewrite IH. }
    pose proof (List.filter_length_le (in_score min max) (List.map snd m)) as Hle. rewrite length_map in Hle.
    unfold len in *. rewrite E. destruct (Z.leb_spec (Z.of_nat (length (List.filter (in_score min max) (List.map snd m)))) i64_max); lia. }
  eexists. split; [by rewrite Hc|]. split; [auto with btree|]. split.
  - intros k. rewrite bt_get_filter by done. destruct (bt_get m k) as [s|]; [|done]. by destruct (in_score min max s).
  - rewrite <- Hc. unfold filter_zset_by_score, len. rewrite length_map. f_equal.
    assert (Hp : forall (f : zentry -> bool) l k, l ≡ₚ k -> length (List.filter f l) = length (List.filter f k)).
    { intros f l k. induction 1; cbn; repeat (destruct (f _)); cbn; lia. }
    rewrite (Hp _ _ _ (sorted_zset_perm m)). unfold bt_filter. f_equal. apply List.filter_ext. by intros [].
Qed.

(** ** ZADD with flags *)

Lemma zadd_ext_loop_wf flags pairs m a u :
  bt_wf m -> bt_wf (fst (fst (fold_left (zadd_ext_step flags) pairs (m, a, u)))).
Proof.
  revert m a u. induction pairs as [|[s mem] pairs IH]; intros m a u Hm; cbn [fold_left]; [done|].
  unfold zadd_ext_step at 2. destruct (bt_get m mem); repeat case_match; apply IH; auto with btree.
Qed.

Lemma len_pos {A} (l : list A) : l <> [] -> 0 < len l.
Proof. destruct l; [done|]. unfold len. cbn. lia. Qed.

Lemma zadd_ext_loop_count flags pairs m a u m' a' u' :
  fold_left (zadd_ext_step flags) pairs (m, a, u) = (m', a', u') ->
  a <= a' /\ u <= u' /\ len m' = len m + (a' - a) /\ (a < a' \/ u < u' -> m' <> []).
Proof.
  revert m a u. induction pairs as [|[s mem] pairs IH]; intros m a u; cbn [fold_left].
  { intros [= <- <- <-]. repeat split; lia. }
  assert (Hins : forall a0 u0, fold_left (zadd_ext_step flags) pairs (bt_insert m mem s, a0, u0) = (m', a', u') ->
    len (bt_insert m mem s) = len m + (a0 - a) -> a <= a0 -> u <= u0 ->
    a <= a' /\ u <= u' /\ len m' = len m + (a' - a) /\ (a < a' \/ u < u' -> m' <> [])).
  { intros a0 u0 (H1 & H2 & H3 & H4)%IH Hl Ha Hu. split; [lia|]. split; [lia|]. split; [lia|].
    intros _ ->. pose proof (len_pos _ (bt_insert_nonempty m mem s)). rewrite len_nil in H3. lia. }
  assert (Hlen : len (bt_insert m mem s) = if bt_contains m mem then len m else len m + 1).
  { unfold len. rewrite bt_insert_length. destruct (bt_contains m mem); lia. }
  unfold bt_contains in Hlen. unfold zadd_ext_step at 2. destruct (bt_get m mem) as [prev|].
  - repeat case_match; try apply IH. intros H'. eapply Hins; [exact H'|lia..].
  - repeat case_match; try apply IH. intros H'. eapply Hins; [exact H'|lia..].
Qed.

(** What one (score, member) pair of ZADD does to the member's score. *)
Definition zadd_flag_score (flags : ZAddFlags) (old : option f64) (score : f64) : option f64 :=
  match old with
  | Some prev =>
      if nx flags || gt flags && f64_le score prev || lt flags && f64_ge score prev then Some prev
      else Some score
  | None => if xx flags then None else Some score
  end.

Lemma zadd_ext_step_get flags m a u score member k :
  bt_get (fst (fst (zadd_ext_step flags (m, a, u) (score, member)))) k =
    if bool_decide (member = k) then zadd_flag_score flags (bt_get m member) score else bt_get m k.
Proof.
  unfold zadd_ext_step, zadd_flag_score. destruct (bt_get m member) as [prev|] eqn:E.
  - destruct (nx flags), (gt flags && f64_le score prev), (lt flags && f64_ge score prev); cbn [orb fst];
      try (by case_bool_decide; subst; rewrite ?E).
    unfold f64_same_bits. case_bool_decide as Eb; cbn [negb fst].
    + subst. by case_bool_decide; subst.
    + case_bool_decide; subst; [apply bt_get_insert_eq|by apply bt_get_insert_ne].
  - destruct (xx flags); cbn [fst]; case_bool_decide; subst;
      [done|done|apply bt_get_insert_eq|by apply bt_get_insert_ne].
Qed.


(** ** The commands meet their contract *)

Lemma partition_wf_fst f m : bt_wf (fst (fold_left (partition_step f) m ([], 0))).
Proof. rewrite partition_fold. apply insert_all_wf. constructor. Qed.

Lemma by_rank_wf m s e : bt_wf (fst (partition_zset_by_rank m s e)).
Proof.
  rewrite partition_by_rank_eq. destruct (resolve_range _ s e) as [[? ?]|]; apply insert_all_wf; constructor.
Qed.

Lemma pop_wf m c b : bt_wf m -> bt_wf (fst (pop_zset_edge m c b)).
Proof.
  intros Hm. unfold pop_zset_edge. destruct ((c =? 0) || bt_is_empty m); [done|].
  set (o := if b then _ else _). generalize (Z.min c (len o)). intros t.
  assert (G : forall l i k p, bt_wf k -> bt_wf (snd (fst (fold_left (pop_step t) l (i, k, p))))).
  { induction l as [|[n v] l IH]; intros i k p Hk; cbn [fold_left]; [done|].
    unfold pop_step at 2. destruct (i <? t); apply IH; auto with btree. }
  specialize (G o 0 [] [] bt_wf_nil). by destruct (fold_left _ o _) as [[? ?] ?].
Qed.

(** A removal closure: whatever is kept is a well-formed tree. *)
Lemma removal_op {A R} key (missing : R) (part : zmap -> zmap * A) (g : A -> R) :
  (forall m, bt_wf m -> bt_wf (fst (part m))) ->
  CollectionOp KZSet key (fun entry => zset_or_return key (Ok (NoOp missing)) entry
    (fun map exp => let '(kept, r) := part map in write_or_delete exp kept (g r))).
Proof.
  intros Hp. constructor.
  - intros [[? []]|] e' r He; cbn; try done. specialize (Hp m (proj1 He)). destruct (part m) as [k r2]. cbn in Hp.
    unfold write_or_delete. destruct k as [|p k]; cbn; [done|]. intros [= <- <-]. by split.
  - intros [? []]; cbn; by intros ?.
  - intros [[? []]|] e' r; cbn; try done. destruct (part m) as [k r2]. unfold write_or_delete.
    destruct (bt_is_empty k); [done|]. by intros [= <- <-].
  - intros [[? []]|] e' r; cbn; try done. destruct (part m) as [k r2]. unfold write_or_delete.
    destruct (bt_is_empty k); [done|]. by intros [= <- <-].
Qed.

#[export] Instance zadd_op key pairs : pairs <> [] -> CollectionOp KZSet key (zadd_mod key pairs).
Proof.
  intros Hp. assert (List.map (fun sm : f64 * Str => (snd sm, fst sm)) pairs <> []) by by destruct pairs.
  collection_op ltac:(unfold zadd_mod, zset_or_empty).
Qed.
#[export] Instance zincr_by_op key mem d : CollectionOp KZSet key (zincr_by_mod key mem d).
Proof. collection_op ltac:(unfold zincr_by_mod, zset_or_empty). Qed.
#[export] Instance zadd_ext_incr_op key d mem fl : CollectionOp KZSet key (zadd_ext_incr_mod key d mem fl).
Proof. collection_op ltac:(unfold zadd_ext_incr_mod, zset_or_empty). Qed.
#[export] Instance zadd_ext_op key pairs fl : CollectionOp KZSet key (zadd_ext_mod key pairs fl).
Proof.
  assert (Hwf : forall m m' a u, bt_wf m -> fold_left (zadd_ext_step fl) pairs (m, 0, 0) = (m', a, u) ->
    (a =? 0) && (u =? 0) = false -> bt_wf m' /\ m' <> []).
  { intros m m' a u Hm E Hb. split.
    - pose proof (zadd_ext_loop_wf fl pairs m 0 0 Hm) as Hw. by rewrite E in Hw.
    - destruct (zadd_ext_loop_count _ _ _ _ _ _ _ _ E) as (H1 & H2 & H3 & H4). apply H4. lia. }
  constructor.
  - intros [[? []]|] e' r He; unfold zadd_ext_mod; cbn; try done;
      destruct (fold_left (zadd_ext_step fl) pairs _) as [[m' a] u] eqn:E;
      destruct ((a =? 0) && (u =? 0)) eqn:Eb; try done; intros [= <- <-];
      eapply Hwf; [|exact E|done| |exact E|done]; [apply He|constructor].
  - intros [? []]; unfold zadd_ext_mod; cbn; by intros ?.
  - intros [[? []]|] e' r; unfold zadd_ext_mod; cbn; try done;
      destruct (fold_left (zadd_ext_step fl) pairs _) as [[m' a] u];
      destruct ((a =? 0) && (u =? 0)); try done; by intros [= <- <-].
  - intros [[? []]|] e' r; unfold zadd_ext_mod; cbn; try done;
      destruct (fold_left (zadd_ext_step fl) pairs _) as [[m' a] u];
      destruct ((a =? 0) && (u =? 0)); try done; by intros [= <- <-].
Qed.
#[export] Instance zrem_op key ms : CollectionOp KZSet key (zrem_mod key ms).
Proof. apply (removal_op key 0 (fun m => remove_loop m ms) (fun r => r)). intros m Hm. rewrite remove_loop_spec. cbn. auto with btree. Qed.
#[export] Instance zpop_op key c b : CollectionOp KZSet key (zpop_mod key c b).
Proof. apply (removal_op key [] (fun m => pop_zset_edge m c b) (fun r => r)). intros m. apply pop_wf. Qed.
#[export] Instance zremrangebylex_op key min max : CollectionOp KZSet key (zremrangebylex_mod key min max).
Proof. apply (removal_op key 0 (fun m => fold_left (partition_step (fun m _ => in_lex min max m)) m ([], 0)) (fun r => r)).
  intros m _. apply partition_wf_fst. Qed.
#[export] Instance zremrangebyrank_op key s e : CollectionOp KZSet key (zremrangebyrank_mod key s e).
Proof. apply (removal_op key 0 (fun m => partition_zset_by_rank m s e) i64_of_usize). intros m _. apply by_rank_wf. Qed.
#[export] Instance zremrangebyscore_op key min max : CollectionOp KZSet key (zremrangebyscore_mod key min max).
Proof.
  apply (removal_op key 0 (fun m => partition_zset_by_score m min max) i64_of_usize).
  intros m _. apply partition_wf_fst.
Qed.

Definition sample_zset : zmap := [(bs "a", f64_zero); (bs "b", f64_inf); (bs "c", f64_zero)].
Definition zset_world : world := world_of [(bs "z", mk_entry (Some 7000) (VZSet sample_zset))].
Definition flags_gt_ch : ZAddFlags := {| nx := false; xx := false; gt := true; lt := false; ch := true |}.

Lemma sample_zset_wf : bt_wf sample_zset.
Proof. repeat (constructor; [repeat constructor|]). constructor. Qed.
Lemma sample_zset_no_nan : no_nan sample_zset.
Proof. repeat constructor. Qed.


Lemma asc_rank_of_spec_witness : asc_rank_of sample_zset (bs "b") = Some 2.
Proof.
  rewrite (asc_rank_of_spec sample_zset (bs "b")); [reflexivity|exact sample_zset_wf|exact sample_zset_no_nan|].
  vm_compute. discriminate.
Defined.

Lemma pop_zset_edge_spec_witness :
  exists kept popped, pop_zset_edge sample_zset 2 true = (kept, popped) /\ len popped = 2 /\
    sample_zset ≡ₚ popped ++ kept.
Proof.
  destruct (pop_zset_edge_spec sample_zset 2 true sample_zset_wf sample_zset_no_nan ltac:(lia) ltac:(discriminate))
    as (kept & popped & E & _ & Hp & Hl & _).
  exists kept, popped. split; [exact E|]. split; [exact Hl|exact Hp].
Defined.

Lemma partition_by_rank_spec_witness :
  exists kept, partition_zset_by_rank sample_zset (-2) 1 = (kept, 1) /\ bt_wf (kept : zmap).
Proof.
  destruct (partition_by_rank_spec sample_zset (-2) 1 1 1 sample_zset_wf ltac:(vm_compute; discriminate) eq_refl)
    as (kept & E & Hwf & _).
  exists kept. split; [exact E|exact Hwf].
Defined.

Lemma partition_by_score_spec_witness :
  exists kept, partition_zset_by_score sample_zset (SB_Inclusive f64_zero) (SB_Exclusive f64_inf) = (kept, 2) /\
    bt_get (kept : zmap) (bs "b") = Some f64_inf /\ bt_get (kept : zmap) (bs "a") = None.
Proof.
  destruct (partition_by_score_spec sample_zset (SB_Inclusive f64_zero) (SB_Exclusive f64_inf) sample_zset_wf
    ltac:(vm_compute; discriminate)) as (kept & E & _ & Hget & _).
  exists kept. split; [exact E|]. split; rewrite Hget; reflexivity.
Defined.
