(* ===== verification/StreamOps.v ===== *)
(** * StreamOps

    The stream commands of [impl Storage for KVStorage] (src/storage.rs):
    XADD, XDEL, XTRIM, the readers, and consumer groups with their pending
    entries lists. *)

From S2P Require Import Prelude.
From S2P Require Import Text.
From S2P Require Import BTree.
From S2P Require Import F64.
From S2P Require Import Stream.
From S2P Require Import Value.
From S2P Require Import Hll.
From S2P Require Import Backend.
From S2P Require Import Linearizability.
From S2P Require Import Contracts.
From S2P Require Import Collections.
From S2P Require Import Strings.
From S2P Require Import Hashes.

Definition no_group_error (group : Str) : RustyAntError :=
  Parse (String.string_of_list_byte
    (bs "NOGROUP No such consumer group '" ++ group ++
     bs "' for key name. The group does not exist.")).

Definition stream_or_return {R} (key : Str) (missing : Result (CasAction R)) (entry : option StoredValue)
    (k : StreamValue -> option Z -> Result (CasAction R)) : Result (CasAction R) :=
  match entry with
  | Some {| value := VStream s; expires_at_ms := exp |} => k s exp
  | Some _ => Err (wrong_type key)
  | None => missing
  end.

(** ** The log *)

Definition xadd_mod (key : Str) (id_spec : AddIdSpec) (fields : list (Str * Str)) (nomkstream : bool)
    (trim : option (TrimBound * option Z)) (now : Z) (entry : option StoredValue)
    : Result (CasAction (option StreamId)) :=
  let body stream exp :=
    let? id := resolve_add_id id_spec (last_generated_id stream) now in
    let stream := {|
      entries := entries stream ++ [{| se_id := id; se_fields := fields |}];
      last_generated_id := id;
      max_deleted_entry_id := max_deleted_entry_id stream;
      entries_added := saturating_add_u64 (entries_added stream) 1;
      groups := groups stream;
    |} in
    let stream :=
      match trim with
      | Some (bound, limit) => fst (trim_in_place stream bound limit)
      | None => stream
      end in
    Ok (Write (mk_entry exp (VStream stream)) (Some id)) in
  match entry with
  | Some {| value := VStream s; expires_at_ms := exp |} => body s exp
  | Some _ => Err (wrong_type key)
  | None => if nomkstream then Ok (NoOp None) else body StreamValue_default None
  end.
Definition xadd (key : Str) (id_spec : AddIdSpec) (fields : list (Str * Str)) (nomkstream : bool)
    (trim : option (TrimBound * option Z)) : prog kvE (Result (option StreamId)) :=
  let! t := trigger KvNowMs in
  let now := Z.max t 0 in
  cas key (pure_mod (xadd_mod key id_spec fields nomkstream trim now)).

(** [retain] with the update of [max_deleted_entry_id] inside the predicate. *)
Definition xdel_step (ids : list StreamId) (st : list StreamEntry * StreamId) (e : StreamEntry)
    : list StreamEntry * StreamId :=
  let '(kept, max_deleted) := st in
  if bool_decide (se_id e ∈ ids) then
    (kept, if kltb max_deleted (se_id e) then se_id e else max_deleted)
  else (kept ++ [e], max_deleted).

Definition xdel_mod (key : Str) (ids : list StreamId) (entry : option StoredValue) : Result (CasAction Z) :=
  stream_or_return key (Ok (NoOp 0)) entry (fun stream exp =>
    let before := len (entries stream) in
    let '(kept, max_deleted) :=
      fold_left (xdel_step ids) (entries stream) ([], max_deleted_entry_id stream) in
    let stream := with_max_deleted (with_entries stream kept) max_deleted in
    let removed := i64_of_usize (before - len (entries stream)) in
    if removed =? 0 then Ok (NoOp 0)
    else Ok (Write (mk_entry exp (VStream stream)) removed)).
Definition xdel (key : Str) (ids : list StreamId) : prog kvE (Result Z) :=
  cas key (pure_mod (xdel_mod key ids)).

Definition xtrim_mod (key : Str) (bound : TrimBound) (limit : option Z) (entry : option StoredValue)
    : Result (CasAction Z) :=
  stream_or_return key (Ok (NoOp 0)) entry (fun stream exp =>
    let '(stream, removed) := trim_in_place stream bound limit in
    if removed =? 0 then Ok (NoOp 0)
    else Ok (Write (mk_entry exp (VStream stream)) (i64_of_usize removed))).
Definition xtrim (key : Str) (bound : TrimBound) (limit : option Z) : prog kvE (Result Z) :=
  cas key (pure_mod (xtrim_mod key bound limit)).

Definition truncate {A} (cap : option Z) (l : list A) : list A :=
  match cap with Some c => take (Z.to_nat c) l | None => l end.

Definition read_stream {A} (key : Str) (d : Result A) (f : StreamValue -> Result A) : prog kvE (Result A) :=
  let!? e := load key in
  match e with
  | Some {| value := VStream s |} => Ret (f s)
  | Some _ => Ret (Err (wrong_type key))
  | None => Ret d
  end.

Definition xlen (key : Str) : prog kvE (Result Z) :=
  read_stream key (Ok 0) (fun s => Ok (len_i64 (entries s))).

Definition xrange_entries (es : list StreamEntry) (start end_ : RangeId) (count : option Z) (reverse : bool)
    : list StreamEntry :=
  let filtered := List.filter (fun e => RangeId_ge_min start (se_id e) && RangeId_le_max end_ (se_id e)) es in
  let filtered := if reverse then rev filtered else filtered in
  truncate count filtered.
Definition xrange (key : Str) (start end_ : RangeId) (count : option Z) (reverse : bool)
    : prog kvE (Result (list StreamEntry)) :=
  read_stream key (Ok []) (fun s => Ok (xrange_entries (entries s) start end_ count reverse)).

Definition after_id (after : StreamId) (count : option Z) (es : list StreamEntry) : list StreamEntry :=
  truncate count (List.filter (fun e => kltb after (se_id e)) es).

Fixpoint xread_loop (ks : list (Str * StreamId)) (count : option Z) (out : list (Str * list StreamEntry))
    : prog kvE (Result (list (Str * list StreamEntry))) :=
  match ks with
  | [] => Ret (Ok out)
  | (key, after) :: rest =>
      let!? es := read_stream key (Ok []) (fun s => Ok (after_id after count (entries s))) in
      xread_loop rest count (if is_empty es then out else out ++ [(key, es)])
  end.
Definition xread (keys : list Str) (after_ids : list StreamId) (count : option Z)
    : prog kvE (Result (list (Str * list StreamEntry))) :=
  xread_loop (combine keys after_ids) count [].

Definition xinfo_stream (key : Str) : prog kvE (Result (option StreamValue)) :=
  read_stream key (Ok None) (fun s => Ok (Some s)).

(** ** Consumer groups *)

Definition start_of (stream : StreamValue) (start_id : GroupStartId) : StreamId :=
  match start_id with
  | GS_Concrete i => i
  | GS_Latest => last_generated_id stream
  end.

Definition set_group (stream : StreamValue) (group : Str) (g : ConsumerGroup) : StreamValue :=
  with_groups stream (bt_insert (groups stream) group g).

Definition apply_xgroup_op (stream : StreamValue) (op : XGroupOp) (existed : bool) : Result (StreamValue * Z) :=
  match op with
  | XG_Create group start_id mkstream =>
      if negb existed && negb mkstream then
        Err (Parse "ERR The XGROUP subcommand requires the key to exist. Note that for CREATE you may want to use the MKSTREAM option to create an empty stream automatically.")
      else if bt_contains (groups stream) group then
        Err (Parse "BUSYGROUP Consumer Group name already exists")
      else
        Ok (set_group stream group
              {| last_delivered_id := start_of stream start_id; consumers := []; pel := [] |}, 1)
  | XG_SetId group start_id =>
      let? g := ok_or (bt_get (groups stream) group) (no_group_error group) in
      Ok (set_group stream group (with_last_delivered g (start_of stream start_id)), 1)
  | XG_Destroy group =>
      Ok (with_groups stream (bt_remove (groups stream) group),
          if bt_contains (groups stream) group then 1 else 0)
  | XG_CreateConsumer group consumer =>
      let? g := ok_or (bt_get (groups stream) group) (no_group_error group) in
      if bt_contains (consumers g) consumer then Ok (stream, 0)
      else Ok (set_group stream group (with_consumers g (bt_insert (consumers g) consumer Consumer_default)), 1)
  | XG_DelConsumer group consumer =>
      let? g := ok_or (bt_get (groups stream) group) (no_group_error group) in
      let g := with_consumers g (bt_remove (consumers g) consumer) in
      let pending_owned :=
        len_i64 (List.filter (fun p => str_eqb (pe_consumer p) consumer) (bt_values (pel g))) in
      let g := with_pel g (bt_filter (fun _ p => negb (str_eqb (pe_consumer p) consumer)) (pel g)) in
      Ok (set_group stream group g, pending_owned)
  end.

Definition xgroup_mod (key : Str) (op : XGroupOp) (entry : option StoredValue) : Result (CasAction Z) :=
  let? (stream, exp, existed) :=
    match entry with
    | Some {| value := VStream s; expires_at_ms := exp |} => Ok (s, exp, true)
    | Some _ => Err (wrong_type key)
    | None => Ok (StreamValue_default, None, false)
    end in
  let? (stream, result) := apply_xgroup_op stream op existed in
  Ok (Write (mk_entry exp (VStream stream)) result).
Definition xgroup (key : Str) (op : XGroupOp) : prog kvE (Result Z) := cas key (pure_mod (xgroup_mod key op)).

(** [g.consumers.entry(consumer).or_default().seen_ms = now] *)
Definition touch_consumer (g : ConsumerGroup) (consumer : Str) (now : Z) : ConsumerGroup :=
  with_consumers g (bt_insert (consumers g) consumer {| seen_ms := now |}).

(** One delivered entry of the [>] branch of XREADGROUP. *)
Definition deliver (consumer : Str) (noack : bool) (now : Z) (g : ConsumerGroup) (e : StreamEntry) : ConsumerGroup :=
  let g := if noack then g
           else with_pel g (bt_insert (pel g) (se_id e)
                  {| pe_consumer := consumer; pe_delivery_time_ms := now; pe_delivery_count := 1 |}) in
  if kltb (last_delivered_id g) (se_id e) then with_last_delivered g (se_id e) else g.

(** One re-delivered row of the pending branch. *)
Definition redeliver (now : Z) (g : ConsumerGroup) (i : StreamId) : ConsumerGroup :=
  with_pel g (bt_alter (fun p => {| pe_consumer := pe_consumer p; pe_delivery_time_ms := now;
                                    pe_delivery_count := saturating_add_u64 (pe_delivery_count p) 1 |})
                       (pel g) i).

Definition find_entry (es : list StreamEntry) (i : StreamId) : option StreamEntry :=
  List.find (fun e => bool_decide (se_id e = i)) es.

Definition read_new (s : StreamValue) (g : ConsumerGroup) (consumer : Str) (count : option Z) (noack : bool) (now : Z)
    : ConsumerGroup * list StreamEntry :=
  let newish := after_id (last_delivered_id g) count (entries s) in
  (touch_consumer (fold_left (deliver consumer noack now) newish g) consumer now, newish).

Definition read_pending (s : StreamValue) (g : ConsumerGroup) (consumer : Str) (after : StreamId) (count : option Z) (now : Z)
    : ConsumerGroup * list StreamEntry :=
  let rows := List.map fst (List.filter (fun ip => kltb after (fst ip) && str_eqb (pe_consumer (snd ip)) consumer) (pel g)) in
  let rows := truncate count rows in
  (fold_left (redeliver now) rows g, omap (find_entry (entries s)) rows).

Definition entry_cmp (a b : StreamEntry) : comparison := kcmp (se_id a) (se_id b).

Definition xreadgroup_mod (group consumer : Str) (id_spec : XReadGroupId) (count : option Z) (noack : bool) (now : Z)
    (entry : option StoredValue) : Result (CasAction (list StreamEntry)) :=
  match entry with
  | Some {| value := VStream stream; expires_at_ms := exp |} =>
      let? g := ok_or (bt_get (groups stream) group) (no_group_error group) in
      let '(g, delivered) :=
        match id_spec with
        | XR_NewEntries => read_new stream g consumer count noack now
        | XR_Pending after => read_pending stream g consumer after count now
        end in
      let delivered := sort_by entry_cmp delivered in
      Ok (Write (mk_entry exp (VStream (set_group stream group g))) delivered)
  | Some _ => Err wrong_type_error
  | None => Err (no_group_error group)
  end.

Fixpoint xreadgroup_loop (group consumer : Str) (ks : list (Str * XReadGroupId)) (count : option Z) (noack : bool)
    (now : Z) (out : list (Str * list StreamEntry)) : prog kvE (Result (list (Str * list StreamEntry))) :=
  match ks with
  | [] => Ret (Ok out)
  | (key, id_spec) :: rest =>
      let!? es := cas key (pure_mod (xreadgroup_mod group consumer id_spec count noack now)) in
      xreadgroup_loop group consumer rest count noack now (if is_empty es then out else out ++ [(key, es)])
  end.
Definition xreadgroup (group consumer : Str) (keys : list Str) (ids : list XReadGroupId) (count : option Z)
    (noack : bool) (now_ms_override : Z) : prog kvE (Result (list (Str * list StreamEntry))) :=
  xreadgroup_loop group consumer (combine keys ids) count noack now_ms_override [].

Definition xack_mod (key group : Str) (ids : list StreamId) (entry : option StoredValue) : Result (CasAction Z) :=
  stream_or_return key (Ok (NoOp 0)) entry (fun stream exp =>
    match bt_get (groups stream) group with
    | None => Ok (NoOp 0)
    | Some g =>
        let '(pel', acked) :=
          fold_left (fun '(p, acked) i => (bt_remove p i, if bt_contains p i then acked + 1 else acked))
            ids (pel g, 0) in
        if acked =? 0 then Ok (NoOp 0)
        else Ok (Write (mk_entry exp (VStream (set_group stream group (with_pel g pel')))) acked)
    end).
Definition xack (key group : Str) (ids : list StreamId) : prog kvE (Result Z) :=
  cas key (pure_mod (xack_mod key group ids)).

(** [(now - p.delivery_time_ms).max(0)], on wrapping [i64]s. *)
Definition idle_of (now : Z) (p : PendingEntry) : Z := Z.max (wrap_i64 (now - pe_delivery_time_ms p)) 0.

Definition xclaim_step (consumer : Str) (min_idle_ms new_delivery_time : Z) (opts : XClaimOpts)
    (es : list StreamEntry) (st : ConsumerGroup * list XClaimResult) (i : StreamId)
    : ConsumerGroup * list XClaimResult :=
  let '(g, claimed) := st in
  let existed_in_pel := bt_contains (pel g) i in
  if negb existed_in_pel && negb (force opts) then st
  else
    let entry_idle_ok :=
      match bt_get (pel g) i with
      | None => true
      | Some p => min_idle_ms <=? idle_of (xc_now_ms opts) p
      end in
    if negb entry_idle_ok then st
    else
      let new_count :=
        match bt_get (pel g) i, retry_count opts with
        | _, Some rc => rc
        | Some p, None => saturating_add_u64 (pe_delivery_count p) 1
        | None, None => 1
        end in
      let g := with_pel g (bt_insert (pel g) i
        {| pe_consumer := consumer; pe_delivery_time_ms := new_delivery_time; pe_delivery_count := new_count |}) in
      let g := touch_consumer g consumer (xc_now_ms opts) in
      let body := if just_id opts then None else option_map se_fields (find_entry es i) in
      (g, claimed ++ [{| xc_id := i; xc_fields := body |}]).

Definition xclaim_mod (key group consumer : Str) (min_idle_ms : Z) (ids : list StreamId) (opts : XClaimOpts)
    (entry : option StoredValue) : Result (CasAction (list XClaimResult)) :=
  stream_or_return key (Err (no_group_error group)) entry (fun stream exp =>
    let? g := ok_or (bt_get (groups stream) group) (no_group_error group) in
    let new_delivery_time :=
      match time_ms opts with
      | Some t => t
      | None => wrap_i64 (xc_now_ms opts - match idle_ms opts with Some i => i | None => 0 end)
      end in
    let '(g, claimed) :=
      fold_left (xclaim_step consumer min_idle_ms new_delivery_time opts (entries stream)) ids (g, []) in
    Ok (Write (mk_entry exp (VStream (set_group stream group g))) claimed)).
Definition xclaim (key group consumer : Str) (min_idle_ms : Z) (ids : list StreamId) (opts : XClaimOpts)
    : prog kvE (Result (list XClaimResult)) :=
  cas key (pure_mod (xclaim_mod key group consumer min_idle_ms ids opts)).

(** The loop over the candidates, with its [break] once [count] are claimed. *)
Fixpoint autoclaim_loop (consumer : Str) (count : Z) (just_id : bool) (now : Z) (es : list StreamEntry)
    (candidates : list StreamId) (p : btree StreamId PendingEntry)
    (claimed : list XClaimResult) (deleted : list StreamId)
    : btree StreamId PendingEntry * XAutoClaimResult :=
  match candidates with
  | [] => (p, {| next_cursor := StreamId_MIN; claimed := claimed; deleted_ids := deleted |})
  | i :: rest =>
      if count <=? len claimed then (p, {| next_cursor := i; claimed := claimed; deleted_ids := deleted |})
      else
        match find_entry es i with
        | None => autoclaim_loop consumer count just_id now es rest (bt_remove p i) claimed (deleted ++ [i])
        | Some e =>
            let p := bt_alter (fun r => {| pe_consumer := consumer; pe_delivery_time_ms := now;
                                           pe_delivery_count := saturating_add_u64 (pe_delivery_count r) 1 |}) p i in
            let body := if just_id then None else Some (se_fields e) in
            autoclaim_loop consumer count just_id now es rest p
              (claimed ++ [{| xc_id := i; xc_fields := body |}]) deleted
        end
  end.

Definition xautoclaim_mod (key group consumer : Str) (min_idle_ms : Z) (start : StreamId) (count : Z)
    (just_id : bool) (now : Z) (entry : option StoredValue) : Result (CasAction XAutoClaimResult) :=
  stream_or_return key (Err (no_group_error group)) entry (fun stream exp =>
    let? g := ok_or (bt_get (groups stream) group) (no_group_error group) in
    let candidates :=
      List.map fst (List.filter (fun ip => kleb start (fst ip) && (min_idle_ms <=? idle_of now (snd ip))) (pel g)) in
    let '(p, result) := autoclaim_loop consumer count just_id now (entries stream) candidates (pel g) [] [] in
    let g := touch_consumer (with_pel g p) consumer now in
    Ok (Write (mk_entry exp (VStream (set_group stream group g))) result)).
Definition xautoclaim (key group consumer : Str) (min_idle_ms : Z) (start : StreamId) (count : Z)
    (just_id : bool) (now_ms_override : Z) : prog kvE (Result XAutoClaimResult) :=
  cas key (pure_mod (xautoclaim_mod key group consumer min_idle_ms start count just_id now_ms_override)).

(** [*per_consumer.entry(p.consumer).or_insert(0) += 1] *)
Definition count_consumer (m : btree Str Z) (p : PendingEntry) : btree Str Z :=
  bt_insert m (pe_consumer p) (match bt_get m (pe_consumer p) with Some n => n | None => 0 end + 1).

Definition pending_summary (g : ConsumerGroup) : option XPendingSummary :=
  match head (bt_keys (pel g)), last (bt_keys (pel g)) with
  | Some min, Some max =>
      Some {| xp_count := len (pel g); xp_min := min; xp_max := max;
              xp_per_consumer := fold_left count_consumer (bt_values (pel g)) [] |}
  | _, _ => None
  end.
Definition xpending_summary (key group : Str) : prog kvE (Result (option XPendingSummary)) :=
  read_stream key (Err (no_group_error group)) (fun s =>
    let? g := ok_or (bt_get (groups s) group) (no_group_error group) in Ok (pending_summary g)).

Fixpoint pending_rows (p : btree StreamId PendingEntry) (start end_ : RangeId) (count : Z) (consumer : option Str)
    (min_idle : option Z) (now : Z) (rows : list XPendingDetailRow) : list XPendingDetailRow :=
  match p with
  | [] => rows
  | (i, r) :: rest =>
      let next := pending_rows rest start end_ count consumer min_idle now in
      if negb (RangeId_ge_min start i) || negb (RangeId_le_max end_ i) then next rows
      else if match consumer with Some c => negb (str_eqb (pe_consumer r) c) | None => false end then next rows
      else
        let idle := idle_of now r in
        if match min_idle with Some m => idle <? m | None => false end then next rows
        else
          let rows := rows ++ [{| xd_id := i; xd_consumer := pe_consumer r; xd_idle_ms := idle;
                                  xd_delivery_count := pe_delivery_count r |}] in
          if count <=? len rows then rows else next rows
  end.
Definition xpending_detail (key group : Str) (start end_ : RangeId) (count : Z) (consumer : option Str)
    (min_idle : option Z) (now_ms_override : Z) : prog kvE (Result (list XPendingDetailRow)) :=
  read_stream key (Err (no_group_error group)) (fun s =>
    let? g := ok_or (bt_get (groups s) group) (no_group_error group) in
    Ok (pending_rows (pel g) start end_ count consumer min_idle now_ms_override [])).

Definition xinfo_groups (key : Str) : prog kvE (Result (list XInfoGroup)) :=
  read_stream key (Ok []) (fun s => Ok (List.map (fun ng =>
    {| xg_name := fst ng; xg_consumers := len (consumers (snd ng)); xg_pending := len (pel (snd ng));
       xg_last_delivered_id := last_delivered_id (snd ng) |}) (groups s))).

Definition xinfo_consumers (key group : Str) : prog kvE (Result (list XInfoConsumer)) :=
  let!? e := load key in
  match e with
  | Some {| value := VStream s |} =>
      match bt_get (groups s) group with
      | None => Ret (Err (no_group_error group))
      | Some g =>
          let! now := trigger KvNowMs in
          Ret (Ok (List.map (fun nc =>
            {| xi_name := fst nc;
               xi_pending := len (List.filter (fun p => str_eqb (pe_consumer p) (fst nc)) (bt_values (pel g)));
               xi_idle_ms := Z.max (wrap_i64 (now - seen_ms (snd nc))) 0 |}) (consumers g)))
      end
  | Some _ => Ret (Err (wrong_type key))
  | None => Ret (Err (no_group_error group))
  end.

(** ** The commands meet their contract *)

Lemma group_wf_pel g p : group_wf g -> bt_wf p -> group_wf (with_pel g p).
Proof. intros [H1 H2] Hp. by split. Qed.
Lemma group_wf_consumers g c : group_wf g -> bt_wf c -> group_wf (with_consumers g c).
Proof. intros [H1 H2] Hc. by split. Qed.
Lemma group_wf_last g i : group_wf g -> group_wf (with_last_delivered g i).
Proof. intros [H1 H2]. by split. Qed.
Lemma group_wf_touch g c now : group_wf g -> group_wf (touch_consumer g c now).
Proof. intros Hg. apply group_wf_consumers; [done|]. destruct Hg. auto with btree. Qed.
Lemma group_wf_pel_inv g : group_wf g -> bt_wf (pel g).
Proof. by destruct 1. Qed.
Lemma group_wf_consumers_inv g : group_wf g -> bt_wf (consumers g).
Proof. by destruct 1. Qed.

Lemma shape_get s group g : stream_shape s -> bt_get (groups s) group = Some g -> group_wf g.
Proof.
  intros [Hb Hf] Hg. apply bt_get_In in Hg; [|done]. rewrite List.Forall_forall in Hf.
  by apply (Hf (group, g)).
Qed.
Lemma shape_set_group s group g : stream_shape s -> group_wf g -> stream_shape (set_group s group g).
Proof. intros [Hb Hf] Hg. split; cbn; [auto with btree|by apply Forall_bt_insert]. Qed.
Lemma shape_remove_group s group : stream_shape s -> stream_shape (with_groups s (bt_remove (groups s) group)).
Proof. intros [Hb Hf]. split; cbn; [auto with btree|by apply Forall_bt_remove]. Qed.
Lemma shape_default : stream_shape StreamValue_default.
Proof. split; cbn; constructor. Qed.
Lemma shape_groups s s' : groups s' = groups s -> stream_shape s -> stream_shape s'.
Proof. unfold stream_shape. by intros ->. Qed.
Lemma group_wf_fresh i : group_wf {| last_delivered_id := i; consumers := []; pel := [] |}.
Proof. split; constructor. Qed.

Lemma trim_groups s b l : groups (fst (trim_in_place s b l)) = groups s.
Proof.
  unfold trim_in_place. set (n := match l with Some _ => _ | None => _ end).
  destruct (n =? 0); [done|]. cbn. destruct (last _); [|done]. by destruct (kltb _ _).
Qed.

Create HintDb stream.
#[export] Hint Resolve group_wf_pel group_wf_consumers group_wf_last group_wf_touch group_wf_pel_inv
  group_wf_consumers_inv shape_get shape_set_group shape_remove_group shape_default group_wf_fresh : stream.

Lemma apply_xgroup_op_shape s op existed s' r :
  stream_shape s -> apply_xgroup_op s op existed = Ok (s', r) -> stream_shape s'.
Proof.
  intros Hs. destruct op; cbn.
  - destruct (_ && _); [done|]. destruct (bt_contains _ _); [done|]. intros [= <- <-]. auto with stream.
  - destruct (bt_get _ _) eqn:E; cbn; [|done]. intros [= <- <-]. eauto with stream.
  - intros [= <- <-]. auto with stream.
  - destruct (bt_get _ _) eqn:E; cbn; [|done]. destruct (bt_contains _ _); intros [= <- <-]; [done|].
    eauto 6 with stream btree.
  - destruct (bt_get _ _) eqn:E; cbn; [|done]. intros [= <- <-].
    apply shape_set_group; [done|]. apply group_wf_pel; [eauto 6 with stream btree|].
    cbn. eauto with stream btree.
Qed.

Lemma deliver_wf consumer noack now g e : group_wf g -> group_wf (deliver consumer noack now g e).
Proof.
  intros Hg. unfold deliver. destruct noack; cbn [with_pel last_delivered_id];
    destruct (kltb _ _); eauto 6 with stream btree.
Qed.
Lemma read_new_wf s g c n a now : group_wf g -> group_wf (fst (read_new s g c n a now)).
Proof.
  intros Hg. unfold read_new. cbn [fst]. apply group_wf_touch.
  generalize (after_id (last_delivered_id g) n (entries s)). intros l. revert g Hg.
  induction l as [|e l IH]; intros g Hg; cbn [fold_left]; [done|]. apply IH. by apply deliver_wf.
Qed.
Lemma read_pending_wf s g c a n now : group_wf g -> group_wf (fst (read_pending s g c a n now)).
Proof.
  intros Hg. unfold read_pending. cbn [fst]. generalize (truncate n (List.map fst (List.filter
    (fun ip : StreamId * PendingEntry => kltb a (fst ip) && str_eqb (pe_consumer (snd ip)) c) (pel g)))).
  intros l. revert g Hg.
  induction l as [|e l IH]; intros g Hg; cbn [fold_left]; [done|]. apply IH. unfold redeliver. eauto with stream btree.
Qed.
Lemma xclaim_fold_wf c m d o es ids g l :
  group_wf g -> group_wf (fst (fold_left (xclaim_step c m d o es) ids (g, l))).
Proof.
  revert g l. induction ids as [|i ids IH]; intros g l Hg; cbn [fold_left]; [done|].
  unfold xclaim_step at 2. destruct (_ && _); [by apply IH|]. destruct (negb _); [by apply IH|].
  apply IH. apply group_wf_touch. eauto with stream btree.
Qed.
Lemma autoclaim_wf c n j now es cs p cl d : bt_wf p -> bt_wf (fst (autoclaim_loop c n j now es cs p cl d)).
Proof.
  revert p cl d. induction cs as [|i cs IH]; intros p cl d Hp; cbn [autoclaim_loop]; [done|].
  destruct (n <=? len cl); [done|]. destruct (find_entry es i); apply IH; auto with btree.
Qed.
Lemma xack_fold_spec ids (p : btree StreamId PendingEntry) n :
  fold_left (fun '(p, acked) i => (bt_remove p i, if bt_contains p i then acked + 1 else acked)) ids (p, n) =
    (fold_left bt_remove ids p, n + (len p - len (fold_left bt_remove ids p))).
Proof.
  revert p n. induction ids as [|i ids IH]; intros p n; cbn; [f_equal; lia|].
  rewrite IH. f_equal. pose proof (bt_remove_length p i). unfold len. destruct (bt_contains p i); lia.
Qed.
Lemma ack_all_wf ids (p : btree StreamId PendingEntry) : bt_wf p -> bt_wf (fold_left bt_remove ids p).
Proof. revert p. induction ids as [|i ids IH]; cbn; auto with btree. Qed.

(** A closure on an existing stream that writes a stream of the same shape. *)
Lemma stream_op {R} key (missing : Result (CasAction R)) (k : StreamValue -> option Z -> Result (CasAction R)) :
  (forall e r, missing <> Ok (Write e r)) ->
  (forall s exp e' r, k s exp = Ok (Write e' r) -> exists s', e' = mk_entry exp (VStream s') /\ (stream_shape s -> stream_shape s')) ->
  CollectionOp KStream key (fun entry => stream_or_return key missing entry k).
Proof.
  intros Hm Hk. constructor.
  - intros [[? []]|] e' r He; cbn; try done; [|by intros ?%Hm].
    intros (s' & -> & Hs)%Hk. by apply Hs.
  - intros [? []]; cbn; by intros ?.
  - intros [[? []]|] e' r; cbn; try done; [|by intros ?%Hm]. by intros (s' & -> & _)%Hk.
  - intros [[? []]|] e' r; cbn; try done; [|by intros ?%Hm]. by intros (s' & -> & _)%Hk.
Qed.

#[export] Instance xadd_op key spec fs nomk trim now : CollectionOp KStream key (xadd_mod key spec fs nomk trim now).
Proof.
  assert (Hs : forall s i, stream_shape s -> stream_shape
    (match trim with
     | Some (b, l) => fst (trim_in_place {| entries := entries s ++ [{| se_id := i; se_fields := fs |}];
         last_generated_id := i; max_deleted_entry_id := max_deleted_entry_id s;
         entries_added := saturating_add_u64 (entries_added s) 1; groups := groups s |} b l)
     | None => {| entries := entries s ++ [{| se_id := i; se_fields := fs |}];
         last_generated_id := i; max_deleted_entry_id := max_deleted_entry_id s;
         entries_added := saturating_add_u64 (entries_added s) 1; groups := groups s |} end)).
  { intros s i. apply shape_groups. destruct trim as [[b l]|]; [|done]. by rewrite trim_groups. }
  constructor.
  - intros [[? []]|] e' r He; unfold xadd_mod; try done.
    + destruct (resolve_add_id _ _ _); cbn -[trim_in_place]; [|done]. intros [= <- <-]. by apply Hs.
    + destruct nomk; [done|]. destruct (resolve_add_id _ _ _); cbn -[trim_in_place]; [|done].
      intros [= <- <-]. apply (Hs StreamValue_default), shape_default.
  - intros [? []]; cbn; by intros ?.
  - intros [[? []]|] e' r; unfold xadd_mod; try done.
    + destruct (resolve_add_id _ _ _); cbn -[trim_in_place]; [|done]. by intros [= <- <-].
    + destruct nomk; [done|]. destruct (resolve_add_id _ _ _); cbn -[trim_in_place]; [|done]. by intros [= <- <-].
  - intros [[? []]|] e' r; unfold xadd_mod; try done.
    + destruct (resolve_add_id _ _ _); cbn -[trim_in_place]; [|done]. by intros [= <- <-].
    + destruct nomk; [done|]. destruct (resolve_add_id _ _ _); cbn -[trim_in_place]; [|done]. by intros [= <- <-].
Qed.
#[export] Instance xdel_op key ids : CollectionOp KStream key (xdel_mod key ids).
Proof.
  apply stream_op; [done|]. intros s exp e' r. destruct (fold_left _ _ _) as [k m].
  cbv zeta. match goal with |- context [?x =? 0] => destruct (x =? 0) end; [done|]. intros [= <- <-]. eexists. split; [reflexivity|]. by apply shape_groups.
Qed.
#[export] Instance xtrim_op key b l : CollectionOp KStream key (xtrim_mod key b l).
Proof.
  apply stream_op; [done|]. intros s exp e' r. pose proof (trim_groups s b l).
  destruct (trim_in_place s b l) as [k m]. destruct (m =? 0); [done|]. intros [= <- <-].
  eexists. split; [reflexivity|]. by apply shape_groups.
Qed.
#[export] Instance xgroup_op key op : CollectionOp KStream key (xgroup_mod key op).
Proof.
  constructor.
  - intros [[? []]|] e' r He; unfold xgroup_mod; cbn -[apply_xgroup_op]; try done;
      destruct (apply_xgroup_op _ _ _) as [[s' r']|] eqn:E; cbn; try done; intros [= <- <-];
      eapply apply_xgroup_op_shape; [|exact E| |exact E]; [done|apply shape_default].
  - intros [? []]; cbn; by intros ?.
  - intros [[? []]|] e' r; unfold xgroup_mod; cbn -[apply_xgroup_op]; try done;
      destruct (apply_xgroup_op _ _ _) as [[s' r']|] eqn:E; cbn; try done; by intros [= <- <-].
  - intros [[? []]|] e' r; unfold xgroup_mod; cbn -[apply_xgroup_op]; try done;
      destruct (apply_xgroup_op _ _ _) as [[s' r']|] eqn:E; cbn; try done; by intros [= <- <-].
Qed.
#[export] Instance xreadgroup_op group c spec n a now : CollectionOp KStream [] (xreadgroup_mod group c spec n a now).
Proof.
  apply (stream_op [] (Err (no_group_error group)) (fun stream exp =>
    let? g := ok_or (bt_get (groups stream) group) (no_group_error group) in
    let '(g, delivered) :=
      match spec with
      | XR_NewEntries => read_new stream g c n a now
      | XR_Pending after => read_pending stream g c after n now
      end in
    Ok (Write (mk_entry exp (VStream (set_group stream group g))) (sort_by entry_cmp delivered)))); [done|].
  intros s exp e' r. destruct (bt_get _ _) as [g|] eqn:E; cbn [ok_or rbind]; [|done].
  assert (Hg : stream_shape s -> group_wf (fst (match spec with
      | XR_NewEntries => read_new s g c n a now
      | XR_Pending after => read_pending s g c after n now end))).
  { intros Hs. destruct spec; [apply read_new_wf|apply read_pending_wf]; eauto with stream. }
  destruct (match spec with XR_NewEntries => _ | XR_Pending _ => _ end) as [g' d]. intros [= <- <-].
  eexists. split; [reflexivity|]. eauto with stream.
Qed.
#[export] Instance xack_op key group ids : CollectionOp KStream key (xack_mod key group ids).
Proof.
  apply stream_op; [done|]. intros s exp e' r. destruct (bt_get _ _) as [g|] eqn:E; [|done].
  rewrite xack_fold_spec.
  cbv zeta. match goal with |- context [?x =? 0] => destruct (x =? 0) end; [done|]. intros [= <- <-]. eexists. split; [reflexivity|].
  intros Hs. apply shape_set_group; [done|]. apply group_wf_pel; [eauto with stream|]. apply ack_all_wf. eauto with stream.
Qed.
#[export] Instance xclaim_op key group c m ids o : CollectionOp KStream key (xclaim_mod key group c m ids o).
Proof.
  apply stream_op; [done|]. intros s exp e' r. destruct (bt_get _ _) as [g|] eqn:E; cbn [ok_or rbind]; [|done].
  set (d := match time_ms o with Some _ => _ | None => _ end).
  pose proof (xclaim_fold_wf c m d o (entries s) ids g []) as Hw.
  destruct (fold_left _ ids _) as [g' cl]. intros [= <- <-]. eexists. split; [reflexivity|]. eauto with stream.
Qed.
#[export] Instance xautoclaim_op key group c m st n j now : CollectionOp KStream key (xautoclaim_mod key group c m st n j now).
Proof.
  apply stream_op; [done|]. intros s exp e' r. destruct (bt_get _ _) as [g|] eqn:E; cbn [ok_or rbind]; [|done].
  match goal with |- context [autoclaim_loop ?a ?b ?c ?d ?e ?f ?p ?h ?i] => pose proof (autoclaim_wf a b c d e f p h i) as Hw end.
  destruct (autoclaim_loop _ _ _ _ _ _ _ _ _) as [p' res]. intros [= <- <-]. eexists. split; [reflexivity|].
  intros Hs. apply shape_set_group; [done|]. apply group_wf_touch, group_wf_pel; [eauto with stream|].
  apply Hw. eauto with stream.
Qed.

(** ** The log *)


(** At the very last id the next one wraps to [0-0]: the log is out of order. *)
Example xadd_wraps :
  let s := with_entries StreamValue_default [{| se_id := StreamId_MAX; se_fields := [] |}] in
  let s := {| entries := entries s; last_generated_id := StreamId_MAX; max_deleted_entry_id := StreamId_MIN;
              entries_added := 1; groups := [] |} in
  match xadd_mod [] Auto [] false None 1 (Some (mk_entry None (VStream s))) with
  | Ok (Write {| value := VStream s' |} (Some i)) => i = StreamId_MIN /\ entry_ids (entries s') = [StreamId_MAX; StreamId_MIN]
  | _ => False
  end.
Proof. by vm_compute. Qed.

Lemma xdel_fold ids es k m :
  fold_left (xdel_step ids) es (k, m) =
    (k ++ List.filter (fun e => negb (bool_decide (se_id e ∈ ids))) es,
     snd (fold_left (xdel_step ids) es (k, m))).
Proof.
  revert k m. induction es as [|e es IH]; intros k m; cbn [fold_left List.filter snd]; [by rewrite app_nil_r|].
  unfold xdel_step at 2 4. case_bool_decide; cbn [negb]; rewrite IH; cbn [snd]; [done|].
  by rewrite <- app_assoc.
Qed.

Lemma xdel_max ids es k m :
  kle m (snd (fold_left (xdel_step ids) es (k, m))) /\
  Forall (fun e => se_id e ∈ ids -> kle (se_id e) (snd (fold_left (xdel_step ids) es (k, m)))) es.
Proof.
  revert k m. induction es as [|e es IH]; intros k m; cbn [fold_left]; [split; [apply kle_refl|constructor]|].
  unfold xdel_step at 2 4. case_bool_decide as Hin.
  - destruct (IH k (if kltb m (se_id e) then se_id e else m)) as [H1 H2].
    assert (Hm : kle m (if kltb m (se_id e) then se_id e else m)).
    { destruct (kltb m (se_id e)) eqn:E; [by apply klt_kle, kltb_lt|apply kle_refl]. }
    assert (He : kle (se_id e) (if kltb m (se_id e) then se_id e else m)).
    { destruct (kltb m (se_id e)) eqn:E; [apply kle_refl|]. apply not_klt. intros Hlt%kltb_lt. congruence. }
    split; [by eapply kle_trans|]. constructor; [|done]. intros _. by eapply kle_trans.
  - destruct (IH (k ++ [e]) m) as [H1 H2]. split; [done|]. by constructor.
Qed.

(** XDEL keeps exactly the entries whose ids were not named, in order,
    answers how many went, records their greatest id, and never lowers the last
    generated id; naming no present id writes nothing. *)
Theorem xdel_spec key ids s exp :
  stream_wf s -> len (entries s) <= i64_max ->
  let kept := List.filter (fun e => negb (bool_decide (se_id e ∈ ids))) (entries s) in
  let removed := len (entries s) - len kept in
  exists s', entries s' = kept /\ stream_wf s' /\ last_generated_id s' = last_generated_id s /\ groups s' = groups s /\
    Forall (fun e => se_id e ∈ ids -> kle (se_id e) (max_deleted_entry_id s')) (entries s) /\
    kle (max_deleted_entry_id s) (max_deleted_entry_id s') /\
    xdel_mod key ids (Some (mk_entry exp (VStream s))) =
      Ok (if removed =? 0 then NoOp 0 else Write (mk_entry exp (VStream s')) removed).
Proof.
  intros Hwf Hl kept removed.
  destruct (xdel_max ids (entries s) [] (max_deleted_entry_id s)) as [H1 H2].
  pose proof (xdel_fold ids (entries s) [] (max_deleted_entry_id s)) as Hf. cbn [app] in Hf. fold kept in Hf.
  exists (with_max_deleted (with_entries s kept) (snd (fold_left (xdel_step ids) (entries s) ([], max_deleted_entry_id s)))).
  split; [done|]. split; [|split; [done|split; [done|split; [done|split; [done|]]]]].
  - destruct Hwf as [W1 W2 W3 W4]. split; cbn; try done; [by apply ids_sorted_filter|].
    unfold entry_ids in *. rewrite List.Forall_map in *. by apply Forall_filter.
  - unfold xdel_mod. cbn [stream_or_return mk_entry value expires_at_ms]. rewrite Hf. cbv zeta. cbn [entries with_max_deleted with_entries].
    fold removed. assert (i64_of_usize removed = removed) as ->.
    { unfold i64_of_usize. pose proof (len_nonneg kept). destruct (Z.leb_spec removed i64_max); unfold removed in *; lia. }
    by destruct (removed =? 0).
Qed.

(** ** Delivery to consumer groups *)

Lemma filter_after_sorted x es :
  ids_sorted (entry_ids es) -> Forall (fun e => klt x (se_id e)) es -> List.filter (fun e => kltb x (se_id e)) es = es.
Proof.
  intros _. induction 1 as [|e es He _ IH]; cbn; [done|]. apply kltb_lt in He. by rewrite He, IH.
Qed.

Lemma filter_after_mono x y es :
  klt x y -> List.filter (fun e => kltb y (se_id e)) (List.filter (fun e => kltb x (se_id e)) es) =
             List.filter (fun e => kltb y (se_id e)) es.
Proof.
  intros Hxy. induction es as [|e es IH]; cbn; [done|].
  destruct (kltb x (se_id e)) eqn:Ex; cbn; [by rewrite IH|]. destruct (kltb y (se_id e)) eqn:Ey; [|done].
  apply kltb_lt in Ey. assert (klt x (se_id e)) as Hx%kltb_lt by (by eapply kcmp_trans). congruence.
Qed.

(** Cutting a sorted log at the id of one of its entries. *)
Lemma filter_after_split l e k :
  ids_sorted (entry_ids (l ++ e :: k)) -> List.filter (fun x => kltb (se_id e) (se_id x)) (l ++ e :: k) = k.
Proof.
  intros Hs. rewrite entry_ids_app in Hs. apply ids_sorted_app in Hs as (_ & Hk & Hl). cbn in Hk, Hl.
  inversion Hk as [|? ? Hf Hk']; subst. rewrite List.filter_app. cbn.
  assert (kltb (se_id e) (se_id e) = false) as ->.
  { destruct (kltb _ _) eqn:E; [|done]. apply kltb_lt in E. by apply klt_irrefl in E. }
  assert (List.filter (fun x => kltb (se_id e) (se_id x)) l = []) as ->.
  { clear -Hl. induction l as [|x l IH]; cbn; [done|]. cbn in Hl. apply Forall_cons in Hl as [Hx Hl].
    apply Forall_cons in Hx as [Hx _]. destruct (kltb (se_id e) (se_id x)) eqn:E; [|auto].
    apply kltb_lt in E. exfalso. eapply klt_irrefl, kcmp_trans; eauto. }
  cbn. clear -Hf. unfold entry_ids in Hf. rewrite List.Forall_map in Hf.
  induction Hf as [|x k Hx _ IH]; cbn; [done|]. apply kltb_lt in Hx. by rewrite Hx, IH.
Qed.

Lemma deliver_last c na now g e : klt (last_delivered_id g) (se_id e) -> last_delivered_id (deliver c na now g e) = se_id e.
Proof. intros Hlt%kltb_lt. unfold deliver. destruct na; cbn [with_pel last_delivered_id]; by rewrite Hlt. Qed.

Lemma deliver_all_last c na now l g :
  ids_sorted (entry_ids l) -> Forall (fun e => klt (last_delivered_id g) (se_id e)) l ->
  last_delivered_id (fold_left (deliver c na now) l g) =
    match last l with Some e => se_id e | None => last_delivered_id g end.
Proof.
  revert g. induction l as [|e l IH]; intros g Hs Hf; [done|]. cbn [fold_left].
  apply Forall_cons in Hf as [He Hf]. inversion Hs as [|? ? Hk Hs']; subst.
  rewrite IH; [|done|].
  - rewrite last_cons, deliver_last by done. by destruct (last l).
  - rewrite deliver_last by done. unfold entry_ids in Hk. by rewrite List.Forall_map in Hk.
Qed.

Lemma deliver_pel c na now g e i :
  bt_get (pel (deliver c na now g e)) i =
    if negb na && bool_decide (se_id e = i)
    then Some {| pe_consumer := c; pe_delivery_time_ms := now; pe_delivery_count := 1 |}
    else bt_get (pel g) i.
Proof.
  unfold deliver. destruct na; cbn [negb andb].
  - by destruct (kltb _ _).
  - assert (E : forall g', pel (if kltb (last_delivered_id g') (se_id e) then with_last_delivered g' (se_id e) else g') = pel g')
      by (intros g'; by destruct (kltb _ _)).
    rewrite E. cbn [pel with_pel]. case_bool_decide as Ei.
    + subst. apply bt_get_insert_eq.
    + by apply bt_get_insert_ne.
Qed.

Lemma deliver_all_pel c na now l g i :
  bt_get (pel (fold_left (deliver c na now) l g)) i =
    if negb na && bool_decide (i ∈ entry_ids l)
    then Some {| pe_consumer := c; pe_delivery_time_ms := now; pe_delivery_count := 1 |}
    else bt_get (pel g) i.
Proof.
  revert g. induction l as [|e l IH]; intros g; cbn [fold_left entry_ids map].
  { rewrite bool_decide_false by apply not_elem_of_nil. by rewrite andb_false_r. }
  rewrite IH, deliver_pel. fold (entry_ids l). destruct na; cbn [negb andb]; [done|].
  repeat case_bool_decide; try done; set_solver.
Qed.

(** C28: XREADGROUP with [>] hands out the next entries of the log after
    the group's cursor, at most [count], in order, and moves the cursor so that
    the entries left are exactly the ones not handed out: read after read, by
    whichever consumers, the group receives every entry once, none twice.
    Unless NOACK, each becomes pending for the reading consumer with one
    delivery; other pending rows stay. *)
Theorem read_new_spec s g consumer count noack now :
  stream_wf s -> match count with Some c => 0 <= c | None => True end ->
  let '(g', delivered) := read_new s g consumer count noack now in
  let todo := after_id (last_delivered_id g) None (entries s) in
  delivered = truncate count todo /\
  after_id (last_delivered_id g') None (entries s) = drop (length delivered) todo /\
  (forall i, bt_get (pel g') i =
     if negb noack && bool_decide (i ∈ entry_ids delivered)
     then Some {| pe_consumer := consumer; pe_delivery_time_ms := now; pe_delivery_count := 1 |}
     else bt_get (pel g) i).
Proof.
  intros Hwf _. unfold read_new. cbv zeta. unfold after_id at 3. cbn [truncate].
  set (x := last_delivered_id g).
  set (todo := List.filter (fun e => kltb x (se_id e)) (entries s)).
  assert (Hd : after_id x count (entries s) = truncate count todo) by done. rewrite Hd.
  assert (Hst : ids_sorted (entry_ids todo)) by apply ids_sorted_filter, sw_sorted, Hwf.
  assert (Hft : Forall (fun e => klt x (se_id e)) todo).
  { apply List.Forall_forall. intros e He. apply List.filter_In in He as [_ He]. by apply kltb_lt in He. }
  assert (Hsplit : exists k, todo = truncate count todo ++ k /\ k = drop (length (truncate count todo)) todo).
  { destruct count as [c|]; cbn [truncate].
    - exists (drop (Z.to_nat c) todo). split; [by rewrite take_drop|]. rewrite length_take.
      destruct (decide (Z.to_nat c <= length todo)%nat); [by rewrite Nat.min_l|].
      rewrite !drop_ge by (rewrite ?Nat.min_r; lia). done.
    - exists []. rewrite app_nil_r, drop_ge by lia. done. }
  destruct Hsplit as (k & Ek & ->). set (l := truncate count todo) in *.
  assert (Hsl : ids_sorted (entry_ids l)).
  { rewrite Ek, entry_ids_app in Hst. by apply ids_sorted_app in Hst as (? & _). }
  assert (Hfl : Forall (fun e => klt x (se_id e)) l) by (rewrite Ek in Hft; by apply Forall_app in Hft as [? _]).
  split; [done|]. split.
  - cbn [touch_consumer with_consumers last_delivered_id]. rewrite deliver_all_last by done. fold x.
    unfold after_id. cbn [truncate]. destruct (last l) as [e|] eqn:El.
    + apply last_Some in El as (l0 & El). rewrite El in Ek, Hfl. rewrite <- app_assoc in Ek. cbn in Ek.
      apply Forall_app in Hfl as [_ [He _]%Forall_cons].
      rewrite <- (filter_after_mono x) by done. fold todo. rewrite Ek in Hst. rewrite Ek at 1. rewrite El. by apply filter_after_split.
    + apply last_None in El. rewrite El. cbn [length]. by rewrite drop_0.
  - intros i. cbn [touch_consumer with_consumers pel]. apply deliver_all_pel.
Qed.

(** ** Acknowledging and claiming *)

Lemma ack_all_get ids (p : btree StreamId PendingEntry) i :
  bt_wf p -> bt_get (fold_left bt_remove ids p) i = if bool_decide (i ∈ ids) then None else bt_get p i.
Proof.
  revert p. induction ids as [|x ids IH]; intros p Hp; cbn [fold_left]; [done|].
  rewrite IH by auto with btree. case_bool_decide as E1; case_bool_decide as E2; try done.
  - exfalso. apply E2. by right.
  - apply elem_of_cons in E2 as [->|?]; [|done]. by apply bt_get_remove_eq.
  - apply bt_get_remove_ne; [done|]. intros ->. apply E2. by left.
Qed.

(** XACK removes exactly the named ids from the group's pending list,
    answers how many were pending, leaves the log, the cursor and the consumers
    alone, and writes nothing when none was. *)
Theorem xack_spec key group ids s exp g :
  stream_shape s -> bt_get (groups s) group = Some g ->
  exists p', bt_wf p' /\
    (forall i, bt_get p' i = if bool_decide (i ∈ ids) then None else bt_get (pel g) i) /\
    let acked := len (pel g) - len p' in
    xack_mod key group ids (Some (mk_entry exp (VStream s))) =
      Ok (if acked =? 0 then NoOp 0
          else Write (mk_entry exp (VStream (set_group s group (with_pel g p')))) acked).
Proof.
  intros Hs Hg. assert (Hp : bt_wf (pel g)) by eauto with stream.
  exists (fold_left bt_remove ids (pel g)). split; [by apply ack_all_wf|]. split; [intros i; by apply ack_all_get|].
  cbv zeta. unfold xack_mod. cbn [stream_or_return mk_entry value expires_at_ms]. rewrite Hg, xack_fold_spec.
  rewrite Z.add_0_l. by destruct (len (pel g) - len (fold_left bt_remove ids (pel g)) =? 0).
Qed.

Definition in_log (es : list StreamEntry) (i : StreamId) : bool :=
  match find_entry es i with Some _ => true | None => false end.
Definition gone (es : list StreamEntry) (i : StreamId) : bool := negb (in_log es i).

Lemma autoclaim_loop_spec c n j now es cs p cl d :
  NoDup cs -> bt_wf p ->
  exists k,
    let '(p', r) := autoclaim_loop c n j now es cs p cl d in
    map xc_id (claimed r) = map xc_id cl ++ List.filter (in_log es) (take k cs) /\
    deleted_ids r = d ++ List.filter (gone es) (take k cs) /\
    next_cursor r = match drop k cs with i :: _ => i | [] => StreamId_MIN end /\
    (drop k cs <> [] -> n <= len (claimed r)) /\ (len (claimed r) <= Z.max n (len cl)) /\
    forall i, bt_get p' i =
      if bool_decide (i ∈ take k cs) then
        if in_log es i then option_map (fun r => {| pe_consumer := c; pe_delivery_time_ms := now;
          pe_delivery_count := saturating_add_u64 (pe_delivery_count r) 1 |}) (bt_get p i)
        else None
      else bt_get p i.
Proof.
  intros Hnd. revert p cl d. induction Hnd as [|i cs Hi Hnd IH]; intros p cl d Hp; cbn [autoclaim_loop].
  { exists 0%nat. cbn [claimed deleted_ids next_cursor take drop]. cbn. rewrite !app_nil_r.
    split; [done|]. split; [done|]. split; [done|]. split; [done|]. split; [lia|]. done. }
  destruct (Z.leb_spec n (len cl)) as [Hn|Hn].
  { exists 0%nat. cbn [claimed deleted_ids next_cursor]. rewrite take_0, drop_0. cbn. rewrite !app_nil_r.
    split; [done|]. split; [done|]. split; [done|]. split; [done|]. split; [lia|].
    intros x. by rewrite bool_decide_false by apply not_elem_of_nil. }
  destruct (find_entry es i) as [e|] eqn:E.
  - set (p1 := bt_alter _ p i). set (cl1 := cl ++ _).
    destruct (IH p1 cl1 d) as (k & Hk); [unfold p1; auto with btree|]. exists (S k).
    destruct (autoclaim_loop _ _ _ _ _ _ _ _ _) as [p' r]. destruct Hk as (H1 & H2 & H3 & H4 & H5 & H6).
    cbn [take drop List.filter]. unfold gone, in_log in *. rewrite E. cbn [negb].
    split; [|split; [done|split; [done|split; [done|split]]]].
    + rewrite H1. unfold cl1. by rewrite map_app, <- app_assoc.
    + unfold cl1 in H5. autorewrite with len in H5. lia.
    + intros x. rewrite H6. unfold p1. rewrite bt_get_alter by done.
      destruct (decide (i = x)) as [<-|Hne].
      * rewrite (bool_decide_true (kcmp i i = Eq)) by apply kcmp_refl. rewrite E.
        rewrite (bool_decide_true (i ∈ i :: _)) by by left. rewrite bool_decide_false; [done|].
        intros Hin. apply Hi. by apply elem_of_take in Hin as (? & ?%list_elem_of_lookup_2 & _).
      * rewrite (bool_decide_false (kcmp i x = Eq)) by by rewrite kcmp_eq.
        repeat case_bool_decide; try done; set_solver.
  - set (p1 := bt_remove p i). destruct (IH p1 cl (d ++ [i])) as (k & Hk); [unfold p1; auto with btree|]. exists (S k).
    destruct (autoclaim_loop _ _ _ _ _ _ _ _ _) as [p' r]. destruct Hk as (H1 & H2 & H3 & H4 & H5 & H6).
    cbn [take drop List.filter]. unfold gone, in_log in *. rewrite E. cbn [negb].
    split; [done|split; [|split; [done|split; [done|split; [done|]]]]].
    + rewrite H2. by rewrite <- app_assoc.
    + intros x. rewrite H6. unfold p1. destruct (decide (i = x)) as [<-|Hne].
      * rewrite bt_get_remove_eq, E by done. rewrite (bool_decide_true (i ∈ i :: _)) by by left.
        by destruct (bool_decide _).
      * rewrite bt_get_remove_ne by done. repeat case_bool_decide; try done; set_solver.
Qed.

(** C30: XAUTOCLAIM processes a prefix of the rows that are idle long
    enough: rows whose entry is still in the log now belong to the caller, with
    one more delivery, at most [count] of them; rows whose entry was deleted are
    dropped and reported; every other row is untouched; the cursor is the first
    unprocessed row, [0-0] when there is none, and stops early only at [count]. *)
Theorem xautoclaim_spec key group consumer min_idle start count just_id now s exp g :
  stream_shape s -> bt_get (groups s) group = Some g -> 0 <= count ->
  let candidates := map fst (List.filter (fun ip => kleb start (fst ip) && (min_idle <=? idle_of now (snd ip))) (pel g)) in
  exists k p' r,
    xautoclaim_mod key group consumer min_idle start count just_id now (Some (mk_entry exp (VStream s))) =
      Ok (Write (mk_entry exp (VStream (set_group s group (touch_consumer (with_pel g p') consumer now)))) r) /\
    map xc_id (claimed r) = List.filter (in_log (entries s)) (take k candidates) /\
    deleted_ids r = List.filter (gone (entries s)) (take k candidates) /\
    next_cursor r = match drop k candidates with i :: _ => i | [] => StreamId_MIN end /\
    (drop k candidates <> [] -> len (claimed r) = count) /\ len (claimed r) <= count /\
    forall i, bt_get p' i =
      if bool_decide (i ∈ take k candidates) then
        if in_log (entries s) i then option_map (fun r => {| pe_consumer := consumer; pe_delivery_time_ms := now;
          pe_delivery_count := saturating_add_u64 (pe_delivery_count r) 1 |}) (bt_get (pel g) i)
        else None
      else bt_get (pel g) i.
Proof.
  intros Hs Hg Hc candidates. assert (Hp : bt_wf (pel g)) by eauto with stream.
  assert (Hnd : NoDup candidates).
  { unfold candidates. pose proof (bt_wf_NoDup _ Hp) as Hnd. unfold bt_keys in Hnd.
    revert Hnd. generalize (pel g). intros p. clear. induction p as [|[i r] p IH]; cbn; [done|].
    intros [Hi Hnd]%NoDup_cons. destruct (_ && _); cbn; [|auto]. constructor; [|auto].
    rewrite list_elem_of_In in Hi |- *. intros Hin. apply Hi. apply in_map_iff in Hin as (x & <- & Hx).
    apply List.filter_In in Hx as [Hx _]. by apply in_map. }
  destruct (autoclaim_loop_spec consumer count just_id now (entries s) candidates (pel g) [] [] Hnd Hp) as (k & Hk).
  destruct (autoclaim_loop _ _ _ _ _ _ _ _ _) as [p' r] eqn:E. destruct Hk as (H1 & H2 & H3 & H4 & H5 & H6).
  exists k, p', r. split.
  { unfold xautoclaim_mod. cbn [stream_or_return mk_entry value expires_at_ms]. rewrite Hg. cbn [ok_or rbind].
    fold candidates. by rewrite E. }
  rewrite len_nil in H5. split; [done|]. split; [done|]. split; [done|]. split; [|split; [lia|done]].
  intros Hd. specialize (H4 Hd). lia.
Qed.

(** *** XPENDING *)

Definition owned_by (c : Str) (l : list PendingEntry) : Z :=
  len (List.filter (fun r => str_eqb (pe_consumer r) c) l).

Lemma count_consumers_get l m c :
  match bt_get (fold_left count_consumer l m) c with Some n => n | None => 0 end =
  match bt_get m c with Some n => n | None => 0 end + owned_by c l.
Proof.
  unfold owned_by. revert m. induction l as [|r l IH]; intros m; cbn [fold_left List.filter]; [unfold len; cbn; lia|].
  rewrite IH. unfold count_consumer. unfold str_eqb. case_bool_decide as E.
  - rewrite E, bt_get_insert_eq. autorewrite with len. lia.
  - by rewrite bt_get_insert_ne.
Qed.

(** The XPENDING summary of a non-empty pending list counts its
    rows, bounds them by their least and greatest ids, and lists for every
    consumer exactly the number of rows it owns. *)
Theorem pending_summary_spec g :
  bt_wf (pel g) -> pel g <> [] ->
  exists r, pending_summary g = Some r /\ xp_count r = len (pel g) /\
    (forall i, In i (bt_keys (pel g)) -> kle (xp_min r) i /\ kle i (xp_max r)) /\
    In (xp_min r) (bt_keys (pel g)) /\ In (xp_max r) (bt_keys (pel g)) /\
    (forall c, match bt_get (xp_per_consumer r) c with Some n => n | None => 0 end = owned_by c (bt_values (pel g))).
Proof.
  intros Hwf Hne. unfold pending_summary.
  assert (Hs : ids_sorted (bt_keys (pel g))).
  { clear Hne. induction Hwf as [|k v m Hk _ IH]; cbn; constructor; [|done]. unfold bt_keys. by rewrite List.Forall_map. }
  destruct (bt_keys (pel g)) as [|i0 l] eqn:E.
  { destruct (pel g); done. }
  cbn [head]. destruct (last (i0 :: l)) as [i1|] eqn:El; [|by apply last_None in El].
  apply last_Some in El as (l0 & El). eexists. split; [reflexivity|]. cbn [xp_count xp_min xp_max xp_per_consumer].
  split; [done|]. split; [|split; [by left|split]].
  - intros i Hi. split.
    + inversion Hs as [|? ? Hf _]; subst. destruct Hi as [->|Hi]; [apply kle_refl|].
      rewrite List.Forall_forall in Hf. by apply klt_kle, Hf.
    + rewrite El in Hs, Hi. apply ids_sorted_app in Hs as (_ & _ & Hf). apply in_app_iff in Hi as [Hi|[->|[]]]; [|apply kle_refl].
      rewrite List.Forall_forall in Hf. specialize (Hf _ Hi). apply Forall_cons in Hf as [? _]. by apply klt_kle.
  - rewrite El. apply in_app_iff. right. by left.
  - intros c. by rewrite count_consumers_get.
Qed.

(** XGROUP DESTROY on a missing key writes an empty stream there: the key
    exists afterwards. *)
Example xgroup_destroy_creates_key :
  xgroup_mod [] (XG_Destroy []) None = Ok (Write (mk_entry None (VStream StreamValue_default)) 0).
Proof. reflexivity. Qed.

(** ** Concrete streams *)

Lemma sample_stream_shape : stream_shape sample_stream.
Proof. split; [apply sw_groups, sample_stream_wf|apply sw_group, sample_stream_wf]. Qed.


Lemma read_new_spec_witness :
  let '(g', delivered) := read_new sample_stream sample_group (bs "bob") (Some 1) false 50 in
  delivered = [sample_entry 2] /\
  bt_get (pel g') (sample_id 2) = Some {| pe_consumer := bs "bob"; pe_delivery_time_ms := 50; pe_delivery_count := 1 |}.
Proof.
  pose proof (read_new_spec sample_stream sample_group (bs "bob") (Some 1) false 50 sample_stream_wf Z.le_0_1) as H.
  destruct (read_new sample_stream sample_group (bs "bob") (Some 1) false 50) as [g' delivered].
  destruct H as (-> & _ & Hp). split; [reflexivity|]. rewrite Hp. reflexivity.
Defined.

Lemma xack_spec_witness :
  exists p', bt_get p' (sample_id 1) = None /\
    xack_mod (bs "s") (bs "g") [sample_id 1; sample_id 9] (Some (mk_entry None (VStream sample_stream))) =
      Ok (if 1 - len p' =? 0 then NoOp 0
          else Write (mk_entry None (VStream (set_group sample_stream (bs "g") (with_pel sample_group p')))) (1 - len p')).
Proof.
  destruct (xack_spec (bs "s") (bs "g") [sample_id 1; sample_id 9] sample_stream None sample_group
    sample_stream_shape eq_refl) as (p' & _ & Hget & E).
  exists p'. split; [rewrite Hget; reflexivity|exact E].
Defined.

Lemma xautoclaim_spec_witness :
  exists r p', xautoclaim_mod (bs "s") (bs "g") (bs "bob") 5 StreamId_MIN 10 true 100 (Some (mk_entry None (VStream sample_stream))) =
      Ok (Write (mk_entry None (VStream (set_group sample_stream (bs "g")
        (touch_consumer (with_pel sample_group p') (bs "bob") 100)))) r) /\ len (claimed r) <= 10.
Proof.
  destruct (xautoclaim_spec (bs "s") (bs "g") (bs "bob") 5 StreamId_MIN 10 true 100 sample_stream None sample_group
    sample_stream_shape eq_refl ltac:(lia)) as (k & p' & r & E & _ & _ & _ & _ & Hl & _).
  exists r, p'. split; [exact E|exact Hl].
Defined.
