(* ===== verification/Rdb.v ===== *)
(** * Rdb

    src/rdb.rs: the DUMP / RESTORE payload - RDB lengths and strings, listpacks,
    CRC64, LZF.  The encoders return the bytes they append.  A decoder that
    panics ([release] builds abort the process) is an outcome of its own. *)

From S2P Require Import Prelude.
From S2P Require Import Text.
From S2P Require Import BTree.
From S2P Require Import F64.
From S2P Require Import Stream.
From S2P Require Import Value.
From S2P Require Import Hll.

Definition RDB_VERSION : Z := 11.
Definition RDB_MAX_ACCEPT_VERSION : Z := 12.

Definition RDB_TYPE_STRING : Z := 0.
Definition RDB_TYPE_SET : Z := 2.
Definition RDB_TYPE_ZSET_2 : Z := 5.
Definition RDB_TYPE_SET_INTSET : Z := 11.
Definition RDB_TYPE_HASH_LISTPACK : Z := 16.
Definition RDB_TYPE_ZSET_LISTPACK : Z := 17.
Definition RDB_TYPE_LIST_QUICKLIST_2 : Z := 18.
Definition RDB_TYPE_SET_LISTPACK : Z := 20.
Definition RDB_TYPE_STREAM_LISTPACKS_3 : Z := 21.

Definition QUICKLIST_NODE_PACKED : Z := 2.
Definition QUICKLIST_NODE_PLAIN : Z := 1.

Definition bad_payload : RustyAntError := Parse "DUMP payload version or checksum are wrong".

(** ** The byte reader *)

Inductive rres (A : Type) :=
| ROk (a : A) (pos : Z)
| RErr (e : RustyAntError)
| RPanic.
Arguments ROk {A} a pos.
Arguments RErr {A} e.
Arguments RPanic {A}.

(** [&mut Reader]: the buffer and the position. *)
Definition reader (A : Type) : Type := list byte -> Z -> rres A.
Definition rret {A} (a : A) : reader A := fun _ pos => ROk a pos.
Definition rfail {A} (e : RustyAntError) : reader A := fun _ _ => RErr e.
Definition rpanic {A} : reader A := fun _ _ => RPanic.
Definition rseq {A B} (r : reader A) (f : A -> reader B) : reader B := fun buf pos =>
  match r buf pos with
  | ROk a pos => f a buf pos
  | RErr e => RErr e
  | RPanic => RPanic
  end.
Definition rlift {A} (r : Result A) : reader A := match r with Ok a => rret a | Err e => rfail e end.
Notation "'let*' x ':=' r 'in' k" := (rseq r (fun x => k))
  (at level 10, x pattern, r at level 100, k at level 200) : rust_scope.

Definition read_u8 : reader Z := fun buf pos =>
  if len buf <=? pos then RErr bad_payload else ROk (rd buf pos) (pos + 1).

(** [self.pos + n] wraps: the sum of two [usize]s in a release build. *)
Definition read_slice (n : Z) : reader (list byte) := fun buf pos =>
  let end_ := wrap_u64 (pos + n) in
  if len buf <? end_ then RErr bad_payload
  else if end_ <? pos then RPanic
  else ROk (slice buf pos end_) end_.

(** ** RDB lengths *)

Definition write_rdb_length (n : Z) : list byte :=
  if n <? Z.shiftl 1 6 then [z2b n]
  else if n <? Z.shiftl 1 14 then
    [z2b (Z.lor 0x40 (Z.land (Z.shiftr n 8 mod 256) 0x3f)); z2b n]
  else if n <? 2 ^ 32 then z2b 0x80 :: to_be_bytes 4 n
  else z2b 0x81 :: to_be_bytes 8 n.

Definition read_rdb_length : reader Z :=
  let* b := read_u8 in
  let high := Z.shiftr b 6 in
  if high =? 0 then rret (Z.land b 0x3f)
  else if high =? 1 then
    let* b2 := read_u8 in rret (Z.lor (Z.shiftl (Z.land b 0x3f) 8) b2)
  else if high =? 2 then
    if b =? 0x80 then let* l := read_slice 4 in rret (from_be_bytes l)
    else if b =? 0x81 then let* l := read_slice 8 in rret (from_be_bytes l)
    else rfail bad_payload
  else rfail bad_payload.

Inductive RdbStrLen := Normal (n : Z) | IntStr (n : Z) | Lzf.

Definition read_rdb_str_len : reader RdbStrLen :=
  let* b := read_u8 in
  let high := Z.shiftr b 6 in
  if high =? 0 then rret (Normal (Z.land b 0x3f))
  else if high =? 1 then
    let* b2 := read_u8 in rret (Normal (Z.lor (Z.shiftl (Z.land b 0x3f) 8) b2))
  else if high =? 2 then
    if b =? 0x80 then let* l := read_slice 4 in rret (Normal (from_be_bytes l))
    else if b =? 0x81 then let* l := read_slice 8 in rret (Normal (from_be_bytes l))
    else rfail bad_payload
  else if high =? 3 then
    if b =? 0xc0 then let* n := read_u8 in rret (IntStr (wrap_i 8 n))
    else if b =? 0xc1 then let* l := read_slice 2 in rret (IntStr (wrap_i 16 (from_le_bytes l)))
    else if b =? 0xc2 then let* l := read_slice 4 in rret (IntStr (wrap_i 32 (from_le_bytes l)))
    else if b =? 0xc3 then rret Lzf
    else rfail bad_payload
  else rfail bad_payload.

(** ** Strings *)

Definition try_parse_ascii_int (data : list byte) : option Z :=
  match data with
  | [] => None
  | _ =>
      if 20 <? len data then None
      else match from_utf8 data with
           | None => None
           | Some s =>
               match parse_i64 s with
               | None => None
               | Some n => if bool_decide (print_Z n = data) then Some n else None
               end
           end
  end.

Definition write_plain (data : list byte) : list byte := write_rdb_length (len data) ++ data.

Definition write_rdb_string (data : list byte) : list byte :=
  match try_parse_ascii_int data with
  | Some n =>
      if in_i 8 n then z2b 0xc0 :: [z2b n]
      else if in_i 16 n then z2b 0xc1 :: to_le_bytes 2 n
      else if in_i 32 n then z2b 0xc2 :: to_le_bytes 4 n
      else write_plain data
  | None => write_plain data
  end.

(** ** LZF *)

(** [for i in 0..run_len { out.push(out[start + i]) }] *)
Fixpoint lzf_copy (run_len : nat) (start : Z) (i : Z) (out : list byte) : list byte :=
  match run_len with
  | O => out
  | S n => lzf_copy n start (i + 1) (out ++ [z2b (rd out (start + i))])
  end.

(** [while p < input.len()], on the rest of the input; every turn consumes. *)
Fixpoint lzf_loop (fuel : nat) (input : list byte) (out : list byte) : Result (list byte) :=
  match fuel with
  | O => Err bad_payload
  | S f =>
      match input with
      | [] => Ok out
      | c :: rest =>
          let ctrl := b2z c in
          if ctrl <? 32 then
            let n := ctrl + 1 in
            if len rest <? n then Err bad_payload
            else lzf_loop f (drop (Z.to_nat n) rest) (out ++ take (Z.to_nat n) rest)
          else
            let run_len := Z.shiftr ctrl 5 in
            let? (run_len, rest) :=
              if run_len =? 7 then
                match rest with
                | [] => Err bad_payload
                | x :: rest => Ok (run_len + b2z x, rest)
                end
              else Ok (run_len, rest) in
            let run_len := run_len + 2 in
            match rest with
            | [] => Err bad_payload
            | x :: rest =>
                let ref_off := Z.lor (Z.shiftl (Z.land ctrl 0x1f) 8) (b2z x) in
                if len out <? ref_off + 1 then Err bad_payload
                else
                  let start := len out - ref_off - 1 in
                  lzf_loop f rest (lzf_copy (Z.to_nat run_len) start 0 out)
            end
      end
  end.

Definition lzf_decompress (input : list byte) (uncompressed_len : Z) : Result (list byte) :=
  let? out := lzf_loop (S (length input)) input [] in
  if negb (len out =? uncompressed_len) then Err bad_payload else Ok out.

(** [Vec::with_capacity(uncompressed_len)] panics above [isize::MAX]. *)
Definition read_rdb_string : reader (list byte) :=
  let* l := read_rdb_str_len in
  match l with
  | Normal n => read_slice n
  | IntStr n => rret (print_Z n)
  | Lzf =>
      let* compressed_len := read_rdb_length in
      let* uncompressed_len := read_rdb_length in
      let* compressed := read_slice compressed_len in
      if i64_max <? uncompressed_len then rpanic
      else rlift (lzf_decompress compressed uncompressed_len)
  end.

(** ** Listpacks *)

Definition append_backlen (entry_len : Z) : list byte :=
  let l := entry_len in
  if l <=? 127 then [z2b l]
  else if l <? 16383 then [z2b (Z.shiftr l 7); z2b (Z.lor (Z.land l 0x7f) 0x80)]
  else if l <? 2097151 then
    [z2b (Z.shiftr l 14); z2b (Z.lor (Z.land (Z.shiftr l 7) 0x7f) 0x80); z2b (Z.lor (Z.land l 0x7f) 0x80)]
  else if l <? 268435455 then
    [z2b (Z.shiftr l 21); z2b (Z.lor (Z.land (Z.shiftr l 14) 0x7f) 0x80);
     z2b (Z.lor (Z.land (Z.shiftr l 7) 0x7f) 0x80); z2b (Z.lor (Z.land l 0x7f) 0x80)]
  else
    [z2b (Z.shiftr l 28); z2b (Z.lor (Z.land (Z.shiftr l 21) 0x7f) 0x80);
     z2b (Z.lor (Z.land (Z.shiftr l 14) 0x7f) 0x80);
     z2b (Z.lor (Z.land (Z.shiftr l 7) 0x7f) 0x80); z2b (Z.lor (Z.land l 0x7f) 0x80)].

Definition in_closed (lo hi n : Z) : bool := (lo <=? n) && (n <=? hi).

Definition listpack_append_string (data : list byte) : list byte :=
  match try_parse_ascii_int data with
  | Some n =>
      if in_closed 0 127 n then z2b n :: append_backlen 1
      else if in_closed (-4096) 4095 n then
        let nn := Z.land (wrap_u 16 n) 0x1fff in
        let b0 := Z.lor 0xc0 (Z.land (Z.shiftr nn 8 mod 256) 0x1f) in
        [z2b b0; z2b nn] ++ append_backlen 2
      else if in_closed (-32768) 32767 n then (z2b 0xf1 :: to_le_bytes 2 n) ++ append_backlen 3
      else if in_closed (-8388608) 8388607 n then
        let v := Z.land n 0xffffff in
        [z2b 0xf2; z2b (Z.land v 0xff); z2b (Z.land (Z.shiftr v 8) 0xff); z2b (Z.land (Z.shiftr v 16) 0xff)]
        ++ append_backlen 4
      else if in_i 32 n then (z2b 0xf3 :: to_le_bytes 4 n) ++ append_backlen 5
      else (z2b 0xf4 :: to_le_bytes 8 n) ++ append_backlen 9
  | None =>
      let l := len data in
      if l <=? 63 then z2b (Z.lor 0x80 l) :: data ++ append_backlen (1 + l)
      else if l <? 4096 then
        z2b (Z.lor 0xe0 (Z.land (Z.shiftr l 8 mod 256) 0x0f)) :: z2b l :: data ++ append_backlen (2 + l)
      else (z2b 0xf0 :: to_be_bytes 4 l) ++ data ++ append_backlen (5 + l)
  end.

(** [listpack_begin], the entries, [listpack_finish]: the blob, whose first four
    bytes are patched with its length. *)
Definition listpack_encode (num_elements : Z) (entries : list (list byte)) : list byte :=
  let num := if 65535 <? num_elements then 65535 else num_elements in
  let rest := to_le_bytes 2 num ++ flat_map listpack_append_string entries ++ [z2b 0xff] in
  to_le_bytes 4 (4 + len rest) ++ rest.

Definition backlen_bytes (entry_len : Z) : Z :=
  if entry_len <=? 127 then 1
  else if entry_len <? 16383 then 2
  else if entry_len <? 2097151 then 3
  else if entry_len <? 268435455 then 4
  else 5.

(** The decoded bytes of an entry and the length of the encoding, before the
    backlen. *)
Definition listpack_entry_content (buf : list byte) : Result (list byte * Z) :=
  let b0 := rd buf 0 in
  let at_least n (k : list byte * Z) := if len buf <? n then Err bad_payload else Ok k in
  let int_at a b w := wrap_i w (from_le_bytes (slice buf a b)) in
  if b0 <=? 0x7f then Ok (print_Z b0, 1)
  else if b0 <=? 0xbf then
    let l := Z.land b0 0x3f in
    at_least (1 + l) (slice buf 1 (l + 1), 1 + l)
  else if b0 <=? 0xdf then
    if len buf <? 2 then Err bad_payload
    else
      let raw := Z.lor (Z.shiftl (Z.land b0 0x1f) 8) (rd buf 1) in
      let n := if negb (Z.land raw 0x1000 =? 0) then raw - Z.shiftl 1 13 else raw in
      Ok (print_Z n, 2)
  else if b0 =? 0xf1 then at_least 3 (print_Z (int_at 1 3 16), 3)
  else if b0 =? 0xf2 then
    if len buf <? 4 then Err bad_payload
    else
      let n := Z.lor (rd buf 1) (Z.lor (Z.shiftl (rd buf 2) 8) (Z.shiftl (rd buf 3) 16)) in
      let n := if negb (Z.land n 0x800000 =? 0) then Z.lor n 0xff000000 else n in
      Ok (print_Z (wrap_i 32 n), 4)
  else if b0 =? 0xf3 then at_least 5 (print_Z (int_at 1 5 32), 5)
  else if b0 =? 0xf4 then at_least 9 (print_Z (int_at 1 9 64), 9)
  else if b0 =? 0xf0 then
    if len buf <? 5 then Err bad_payload
    else
      let l := from_be_bytes (slice buf 1 5) in
      at_least (5 + l) (slice buf 5 (5 + l), 5 + l)
  else if b0 <=? 0xef then
    if len buf <? 2 then Err bad_payload
    else
      let l := Z.lor (Z.shiftl (Z.land b0 0x0f) 8) (rd buf 1) in
      at_least (2 + l) (slice buf 2 (2 + l), 2 + l)
  else Err bad_payload.

Definition listpack_read_entry (buf : list byte) : Result (list byte * Z) :=
  match buf with
  | [] => Err bad_payload
  | _ =>
      let? (bytes, entry_len) := listpack_entry_content buf in
      let total := entry_len + backlen_bytes entry_len in
      if len buf <? total then Err bad_payload else Ok (bytes, total)
  end.

(** [while p < end { .. }] on [buf[p..end]]; every entry consumes at least two
    bytes, so the length of the buffer is fuel enough. *)
Fixpoint listpack_walk (fuel : nat) (buf : list byte) (out : list (list byte)) : Result (list (list byte)) :=
  match fuel with
  | O => Err bad_payload
  | S f =>
      match buf with
      | [] => Ok out
      | _ =>
          let? (entry, consumed) := listpack_read_entry buf in
          listpack_walk f (drop (Z.to_nat consumed) buf) (out ++ [entry])
      end
  end.

Definition listpack_decode (buf : list byte) : Result (list (list byte)) :=
  if len buf <? 7 then Err bad_payload
  else
    let totlen := from_le_bytes (slice buf 0 4) in
    if negb (totlen =? len buf) then Err bad_payload
    else
      let end_ := len buf - 1 in
      if negb (rd buf end_ =? 0xff) then Err bad_payload
      else
        let body := slice buf 6 end_ in
        listpack_walk (S (length body)) body [].

(** ** CRC64 *)

Definition CRC64_REFLECTED_POLY : Z := 0x95ac9329ac4bc9b5.

Definition crc64_bit (c : Z) : Z :=
  if negb (Z.land c 1 =? 0) then Z.lxor (Z.shiftr c 1) CRC64_REFLECTED_POLY else Z.shiftr c 1.
(** The eight turns of the inner [while]. *)
Definition crc64_entry (i : Z) : Z := Nat.iter 8 crc64_bit i.
Definition crc64_build_table : list Z := map (fun i => crc64_entry (Z.of_nat i)) (List.seq 0 256).

Definition crc64_step (crc : Z) (b : byte) : Z :=
  let idx := Z.land (Z.lxor crc (b2z b)) 0xff in
  Z.lxor (nth (Z.to_nat idx) crc64_build_table 0) (Z.shiftr crc 8).
Definition crc64 (seed : Z) (data : list byte) : Z := fold_left crc64_step data seed.

(** ** Scores *)

Definition format_rdb_double (s : f64) : Str :=
  if f64_is_nan s then bs "nan"
  else if f64_is_infinite s then (if f64_gt s f64_zero then bs "inf" else bs "-inf")
  else match f64_integral s with
       | Some z => if Z.abs z <? 2 ^ 53 then print_Z z else display_f64 s
       | None => display_f64 s
       end.

Definition parse_rdb_double (s : Str) : Result f64 :=
  if str_eqb s (bs "inf") || str_eqb s (bs "+inf") then Ok f64_inf
  else if str_eqb s (bs "-inf") then Ok f64_neg_inf
  else if str_eqb s (bs "nan") then Ok f64_nan
  else ok_or (parse_f64 s) bad_payload.

(** ** Payloads *)

Definition dump_body (v : Value) : Result (list byte) :=
  match v with
  | VString data => Ok (z2b RDB_TYPE_STRING :: write_rdb_string data)
  | VHash map =>
      Ok (z2b RDB_TYPE_HASH_LISTPACK ::
          write_rdb_string (listpack_encode (len map * 2) (flat_map (fun kv => [fst kv; snd kv]) map)))
  | VList items =>
      Ok (z2b RDB_TYPE_LIST_QUICKLIST_2 ::
          write_rdb_length 1 ++ write_rdb_length QUICKLIST_NODE_PACKED ++
          write_rdb_string (listpack_encode (len items) items))
  | VSet members =>
      Ok (z2b RDB_TYPE_SET_LISTPACK :: write_rdb_string (listpack_encode (len members) (bs_elems members)))
  | VZSet map =>
      Ok (z2b RDB_TYPE_ZSET_LISTPACK ::
          write_rdb_string (listpack_encode (len map * 2)
            (flat_map (fun kv => [fst kv; format_rdb_double (snd kv)]) map)))
  | VStream _ =>
      Err (Parse "DUMP for stream keys is not yet implemented (rustyant supports DUMP/RESTORE for string/hash/list/set/zset)")
  end.

Definition dump_value (v : Value) : Result (list byte) :=
  let? body := dump_body v in
  let body := body ++ to_le_bytes 2 RDB_VERSION in
  Ok (body ++ to_le_bytes 8 (crc64 0 body)).

(** [while let (Some(k), Some(v)) = (it.next(), it.next())]: a map from pairs. *)
Fixpoint pairs_to_map {V} (parse : list byte -> Result V) (items : list (list byte)) (map : btree Str V)
    : Result (btree Str V) :=
  match items with
  | k :: v :: rest =>
      let? field := ok_or (from_utf8 k) bad_payload in
      let? v := parse v in
      pairs_to_map parse rest (bt_insert map field v)
  | _ => Ok map
  end.

Fixpoint members_to_set (items : list (list byte)) (set : bset Str) : Result (bset Str) :=
  match items with
  | [] => Ok set
  | m :: rest => let? s := ok_or (from_utf8 m) bad_payload in members_to_set rest (bs_insert set s)
  end.

(** [for _ in 0..count { .. }]: each turn reads at least one byte or fails, so
    the fuel [len buf + 1] of the callers is enough. *)
Fixpoint read_times {S} (fuel : nat) (count : Z) (turn : S -> reader S) (st : S) : reader S :=
  if count <=? 0 then rret st
  else match fuel with
       | O => rfail bad_payload
       | Datatypes.S f => let* st := turn st in read_times f (count - 1) turn st
       end.

Definition quicklist_node (items : list (list byte)) : reader (list (list byte)) :=
  let* container := read_rdb_length in
  if container =? QUICKLIST_NODE_PACKED then
    let* lp_bytes := read_rdb_string in
    let* l := rlift (listpack_decode lp_bytes) in rret (items ++ l)
  else if container =? QUICKLIST_NODE_PLAIN then
    let* x := read_rdb_string in rret (items ++ [x])
  else rfail bad_payload.

Definition set_member (set : bset Str) : reader (bset Str) :=
  let* m := read_rdb_string in
  let* s := rlift (ok_or (from_utf8 m) bad_payload) in rret (bs_insert set s).

Definition zset2_member (map : btree Str f64) : reader (btree Str f64) :=
  let* m := read_rdb_string in
  let* member := rlift (ok_or (from_utf8 m) bad_payload) in
  let* score := read_slice 8 in
  rret (bt_insert map member (f64_from_bits (from_le_bytes score))).

Definition intset_decode (blob : list byte) : Result (bset Str) :=
  if len blob <? 8 then Err bad_payload
  else
    let elem_size := from_le_bytes (slice blob 0 4) in
    let count := from_le_bytes (slice blob 4 8) in
    if negb ((elem_size =? 2) || (elem_size =? 4) || (elem_size =? 8)) || negb (len blob =? 8 + count * elem_size)
    then Err bad_payload
    else
      Ok (fold_left (fun set i =>
            let off := 8 + Z.of_nat i * elem_size in
            let n := wrap_i (8 * elem_size) (from_le_bytes (slice blob off (off + elem_size))) in
            bs_insert set (print_Z n)) (List.seq 0 (Z.to_nat count)) []).

Definition parse_score (b : list byte) : Result f64 :=
  let? s := ok_or (from_utf8 b) bad_payload in parse_rdb_double s.

Definition restore_body (fuel : nat) : reader Value :=
  let* type_byte := read_u8 in
  if type_byte =? RDB_TYPE_STRING then
    let* d := read_rdb_string in rret (VString d)
  else if type_byte =? RDB_TYPE_HASH_LISTPACK then
    let* lp_bytes := read_rdb_string in
    let* items := rlift (listpack_decode lp_bytes) in
    if negb (len items mod 2 =? 0) then rfail bad_payload
    else let* m := rlift (pairs_to_map Ok items []) in rret (VHash m)
  else if type_byte =? RDB_TYPE_LIST_QUICKLIST_2 then
    let* node_count := read_rdb_length in
    let* items := read_times fuel node_count quicklist_node [] in
    rret (VList items)
  else if type_byte =? RDB_TYPE_SET_LISTPACK then
    let* lp_bytes := read_rdb_string in
    let* members := rlift (listpack_decode lp_bytes) in
    let* s := rlift (members_to_set members []) in rret (VSet s)
  else if type_byte =? RDB_TYPE_SET then
    let* count := read_rdb_length in
    let* s := read_times fuel count set_member [] in rret (VSet s)
  else if type_byte =? RDB_TYPE_SET_INTSET then
    let* blob := read_rdb_string in
    let* s := rlift (intset_decode blob) in rret (VSet s)
  else if type_byte =? RDB_TYPE_ZSET_LISTPACK then
    let* lp_bytes := read_rdb_string in
    let* items := rlift (listpack_decode lp_bytes) in
    if negb (len items mod 2 =? 0) then rfail bad_payload
    else let* m := rlift (pairs_to_map parse_score items []) in rret (VZSet m)
  else if type_byte =? RDB_TYPE_ZSET_2 then
    let* count := read_rdb_length in
    let* m := read_times fuel count zset2_member [] in rret (VZSet m)
  else if type_byte =? RDB_TYPE_STREAM_LISTPACKS_3 then
    rfail (Parse "RESTORE for stream keys is not yet implemented (type 0x15)")
  else rfail bad_payload.

(** [None]: the decoder panics. *)
Definition restore_value (payload : list byte) : option (Result Value) :=
  if len payload <? 10 then Some (Err bad_payload)
  else
    let split := len payload - 10 in
    let body := take (Z.to_nat split) payload in
    let trailer := drop (Z.to_nat split) payload in
    let version := from_le_bytes (slice trailer 0 2) in
    let got_crc := from_le_bytes (slice trailer 2 10) in
    if RDB_MAX_ACCEPT_VERSION <? version then Some (Err bad_payload)
    else if negb (got_crc =? crc64 0 (body ++ slice trailer 0 2)) then Some (Err bad_payload)
    else match restore_body (S (length body)) body 0 with
         | ROk v _ => Some (Ok v)
         | RErr e => Some (Err e)
         | RPanic => None
         end.

(** ** Test vectors of src/rdb.rs *)

Example crc64_vector : crc64 0 (bs "123456789") = 0xe9c6d914c4b8d9ca.
Proof. by vm_compute. Qed.

(** ** Bit fields as arithmetic *)

Lemma lor_shiftl a n b : 0 <= n -> 0 <= b < 2 ^ n -> Z.lor (Z.shiftl a n) b = a * 2 ^ n + b.
Proof.
  intros Hn Hb. rewrite <- Z.shiftl_mul_pow2 by done. pose proof (Z.add_lor_land (Z.shiftl a n) b) as E.
  assert (Hl : Z.land (Z.shiftl a n) b = 0); [|rewrite Hl in E; lia].
  apply Z.bits_inj'. intros k Hk. rewrite Z.land_spec, Z.bits_0, Z.shiftl_spec by done.
  destruct (Z.ltb_spec k n); [by rewrite (Z.testbit_neg_r a) by lia|].
  destruct (decide (b = 0)) as [->|]; [by rewrite Z.bits_0, andb_false_r|].
  rewrite (Z.bits_above_log2 b k); [by rewrite andb_false_r|lia|]. apply Z.log2_lt_pow2; [lia|].
  apply Z.lt_le_trans with (2 ^ n); [lia|]. apply Z.pow_le_mono_r; lia.
Qed.

Lemma land_3f a : Z.land a 0x3f = a mod 64.
Proof. change 0x3f with (Z.ones 6). by rewrite Z.land_ones. Qed.
Lemma land_1f a : Z.land a 0x1f = a mod 32.
Proof. change 0x1f with (Z.ones 5). by rewrite Z.land_ones. Qed.
Lemma land_0f a : Z.land a 0x0f = a mod 16.
Proof. change 0x0f with (Z.ones 4). by rewrite Z.land_ones. Qed.
Lemma land_ff a : Z.land a 0xff = a mod 256.
Proof. change 0xff with (Z.ones 8). by rewrite Z.land_ones. Qed.
Lemma land_1fff a : Z.land a 0x1fff = a mod 8192.
Proof. change 0x1fff with (Z.ones 13). by rewrite Z.land_ones. Qed.
Lemma land_ffffff a : Z.land a 0xffffff = a mod 16777216.
Proof. change 0xffffff with (Z.ones 24). by rewrite Z.land_ones. Qed.
Lemma shiftr_div a n : 0 <= n -> Z.shiftr a n = a / 2 ^ n.
Proof. apply Z.shiftr_div_pow2. Qed.

(** Linear arithmetic with constant divisions. *)
Ltac pow2 := change (2 ^ 2) with 4 in *; change (2 ^ 5) with 32 in *; change (2 ^ 6) with 64 in *;
  change (2 ^ 7) with 128 in *; change (2 ^ 8) with 256 in *; change (2 ^ 13) with 8192 in *;
  change (2 ^ 16) with 65536 in *.
Ltac divmod := pow2; Z.div_mod_to_equations; lia.

(** ** Readers that consume a prefix *)

Definition reads {A} (r : reader A) (data : list byte) (a : A) : Prop :=
  forall pre post, len (pre ++ data ++ post) <= i64_max ->
    r (pre ++ data ++ post) (len pre) = ROk a (len (pre ++ data)).

Lemma reads_ret {A} (a : A) : reads (rret a) [] a.
Proof. intros pre post _. unfold rret. by rewrite app_nil_r. Qed.

Lemma reads_seq {A B} (r : reader A) (f : A -> reader B) d1 d2 a b :
  reads r d1 a -> reads (f a) d2 b -> reads (rseq r f) (d1 ++ d2) b.
Proof.
  intros H1 H2 pre post Hl. unfold rseq. rewrite <- (app_assoc d1 d2 post) in *.
  rewrite H1 by done. specialize (H2 (pre ++ d1) post). rewrite <- !app_assoc in H2. by rewrite H2.
Qed.
Lemma reads_seq_nil {A B} (r : reader A) (f : A -> reader B) d a b :
  reads r d a -> reads (f a) [] b -> reads (rseq r f) d b.
Proof. intros H1 H2. rewrite <- (app_nil_r d). by eapply reads_seq. Qed.


Lemma rd_app_0 pre b post : rd (pre ++ b :: post) (len pre) = b2z b.
Proof. unfold rd, len. rewrite Nat2Z.id, lookup_app_r, Nat.sub_diag by lia. done. Qed.
Lemma slice_app_mid {A} (pre d post : list A) : slice (pre ++ d ++ post) (len pre) (len (pre ++ d)) = d.
Proof.
  unfold slice, len. rewrite length_app, !Nat2Z.id, drop_app_length.
  replace (Z.to_nat (Z.of_nat (length pre + length d) - Z.of_nat (length pre))) with (length d) by lia.
  apply take_app_length.
Qed.

Lemma reads_u8 b : reads read_u8 [b] (b2z b).
Proof.
  intros pre post Hl. unfold read_u8. autorewrite with len in *. pose proof (len_nonneg post).
  destruct (Z.leb_spec (len pre + (0 + 1 + len post)) (len pre)); [lia|].
  cbn [app]. rewrite rd_app_0. done.
Qed.
Lemma reads_slice d : reads (read_slice (len d)) d d.
Proof.
  intros pre post Hl. unfold read_slice. autorewrite with len in Hl. unfold i64_max in Hl.
  pose proof (len_nonneg pre). pose proof (len_nonneg d). pose proof (len_nonneg post).
  unfold wrap_u64. rewrite wrap_u_small by lia. rewrite <- len_app.
  destruct (Z.ltb_spec (len (pre ++ d ++ post)) (len (pre ++ d))); [autorewrite with len in *; lia|].
  destruct (Z.ltb_spec (len (pre ++ d)) (len pre)); [autorewrite with len in *; lia|].
  by rewrite slice_app_mid.
Qed.
Lemma reads_slice_len n d : len d = n -> reads (read_slice n) d d.
Proof. intros <-. apply reads_slice. Qed.

Lemma reads_u8_then {B} b (f : Z -> reader B) d (v : B) :
  reads (f (b2z b)) d v -> reads (rseq read_u8 f) (b :: d) v.
Proof. intros H. apply (reads_seq read_u8 f [b] d (b2z b)); [apply reads_u8|done]. Qed.

Lemma len_to_be_bytes n z : len (to_be_bytes n z) = Z.of_nat n.
Proof. unfold len. by rewrite length_to_be_bytes. Qed.
Lemma len_to_le_bytes n z : len (to_le_bytes n z) = Z.of_nat n.
Proof. unfold len. by rewrite length_to_le_bytes. Qed.
#[export] Hint Rewrite len_to_be_bytes len_to_le_bytes : len.

(** The first byte of a 14-bit length. *)
Lemma length14_byte n : 0 <= n < 16384 -> b2z (z2b (Z.lor 0x40 (Z.land (Z.shiftr n 8 mod 256) 0x3f))) = 64 + n / 256.
Proof.
  intros Hn. rewrite land_3f, shiftr_div by lia. change (Z.lor 0x40) with (Z.lor (Z.shiftl 1 6)).
  rewrite lor_shiftl by divmod. rewrite b2z_z2b. divmod.
Qed.
Lemma length14_value n b : 0 <= n < 16384 -> b = 64 + n / 256 ->
  Z.shiftr b 6 = 1 /\ Z.lor (Z.shiftl (Z.land b 0x3f) 8) (n mod 256) = n.
Proof.
  intros Hn ->. rewrite land_3f, shiftr_div, lor_shiftl by divmod.
  divmod.
Qed.
Lemma shiftr6_small b : 0 <= b < 64 -> Z.shiftr b 6 = 0.
Proof. intros. rewrite shiftr_div by lia. divmod. Qed.

Lemma length_read_back {B} n (normal : Z -> reader B) (other : Z -> reader B) (v : B) :
  0 <= n < 2 ^ 64 -> reads (normal n) [] v ->
  reads (let* b := read_u8 in
    let high := Z.shiftr b 6 in
    if high =? 0 then normal (Z.land b 0x3f)
    else if high =? 1 then let* b2 := read_u8 in normal (Z.lor (Z.shiftl (Z.land b 0x3f) 8) b2)
    else if high =? 2 then
      if b =? 0x80 then let* l := read_slice 4 in normal (from_be_bytes l)
      else if b =? 0x81 then let* l := read_slice 8 in normal (from_be_bytes l)
      else rfail bad_payload
    else other b) (write_rdb_length n) v.
Proof.
  intros Hn Hv. unfold write_rdb_length. change (Z.shiftl 1 6) with 64. change (Z.shiftl 1 14) with 16384.
  destruct (Z.ltb_spec n 64); [|destruct (Z.ltb_spec n 16384); [|destruct (Z.ltb_spec n (2 ^ 32))]];
    apply reads_u8_then; cbv zeta.
  - rewrite b2z_z2b_small, shiftr6_small by lia. cbn [Z.eqb]. rewrite land_3f, Z.mod_small by lia. done.
  - pose proof (length14_byte n ltac:(lia)) as Eb. destruct (length14_value n _ ltac:(lia) Eb) as [E1 E2].
    rewrite E1. cbn [Z.eqb Pos.eqb]. apply reads_u8_then. rewrite (b2z_z2b n), E2. done.
  - replace (b2z (z2b 0x80)) with 0x80 by by rewrite b2z_z2b_small. cbn [Z.shiftr Z.shiftl Pos.iter Z.div2 Pos.div2 Z.eqb Pos.eqb].
    apply (reads_seq_nil _ _ _ (to_be_bytes 4 n)); [apply reads_slice_len, len_to_be_bytes|].
    rewrite from_to_be_bytes, Z.mod_small by (cbn; lia). done.
  - replace (b2z (z2b 0x81)) with 0x81 by by rewrite b2z_z2b_small. cbn [Z.shiftr Z.shiftl Pos.iter Z.div2 Pos.div2 Z.eqb Pos.eqb].
    apply (reads_seq_nil _ _ _ (to_be_bytes 8 n)); [apply reads_slice_len, len_to_be_bytes|].
    rewrite from_to_be_bytes, Z.mod_small by (cbn; lia). done.
Qed.

Lemma reads_length n : 0 <= n < 2 ^ 64 -> reads read_rdb_length (write_rdb_length n) n.
Proof. intros Hn. apply (length_read_back n rret (fun _ => rfail bad_payload)); [done|apply reads_ret]. Qed.

Lemma reads_str_len n : 0 <= n < 2 ^ 64 -> reads read_rdb_str_len (write_rdb_length n) (Normal n).
Proof. intros Hn. eapply (length_read_back n (fun n => rret (Normal n))); [done|apply reads_ret]. Qed.

(** ** Strings *)

Lemma try_parse_spec data n : try_parse_ascii_int data = Some n -> print_Z n = data /\ in_i64 n = true.
Proof.
  unfold try_parse_ascii_int. destruct data as [|b data]; [done|]. destruct (20 <? _); [done|].
  destruct (from_utf8 _) as [s|] eqn:Eu; [|done]. destruct (parse_i64 s) eqn:Ep; [|done].
  case_bool_decide; [|done]. intros [= <-]. split; [done|]. by eapply parse_i64_range.
Qed.

Lemma wrap_i_from_le k n :
  (0 < k)%nat -> wrap_i (8 * Z.of_nat k) (from_le_bytes (to_le_bytes k n)) = wrap_i (8 * Z.of_nat k) n.
Proof.
  intros Hk. rewrite from_to_le_bytes. replace (256 ^ Z.of_nat k) with (2 ^ (8 * Z.of_nat k)) by (rewrite Z.pow_mul_r by lia; done).
  apply wrap_i_wrap_u. lia.
Qed.
Lemma wrap_i_le k w n :
  (0 < k)%nat -> w = 8 * Z.of_nat k -> in_i w n = true -> wrap_i w (from_le_bytes (to_le_bytes k n)) = n.
Proof.
  intros Hk -> Hn. rewrite wrap_i_from_le by done. unfold in_i in Hn. apply wrap_i_small; lia.
Qed.
Lemma wrap_i8_byte n : in_i 8 n = true -> wrap_i 8 (b2z (z2b n)) = n.
Proof.
  intros Hn. rewrite b2z_z2b. change (n mod 256) with (wrap_u 8 n). rewrite wrap_i_wrap_u by lia.
  unfold in_i in Hn. apply wrap_i_small; lia.
Qed.

Lemma reads_plain data : len data < 2 ^ 64 -> reads read_rdb_string (write_plain data) data.
Proof.
  intros Hl. unfold read_rdb_string, write_plain. eapply reads_seq.
  - apply reads_str_len. pose proof (len_nonneg data). lia.
  - cbn. apply reads_slice.
Qed.

Lemma reads_string data : len data < 2 ^ 64 -> reads read_rdb_string (write_rdb_string data) data.
Proof.
  intros Hl. unfold write_rdb_string. destruct (try_parse_ascii_int data) as [n|] eqn:E; [|by apply reads_plain].
  apply try_parse_spec in E as [Hp _].
  destruct (in_i 8 n) eqn:H8; [|destruct (in_i 16 n) eqn:H16; [|destruct (in_i 32 n) eqn:H32; [|by apply reads_plain]]];
    unfold read_rdb_string, read_rdb_str_len; eapply reads_seq_nil; try apply reads_u8_then.
  - replace (b2z (z2b 0xc0)) with 0xc0 by by rewrite b2z_z2b_small. cbn [Z.shiftr Z.shiftl Pos.iter Z.div2 Pos.div2 Z.eqb Pos.eqb].
    apply reads_u8_then, reads_ret.
  - cbn. rewrite wrap_i8_byte, Hp by done. apply reads_ret.
  - replace (b2z (z2b 0xc1)) with 0xc1 by by rewrite b2z_z2b_small. cbn [Z.shiftr Z.shiftl Pos.iter Z.div2 Pos.div2 Z.eqb Pos.eqb].
    eapply reads_seq_nil; [apply reads_slice_len, len_to_le_bytes|apply reads_ret].
  - cbn -[wrap_i from_le_bytes to_le_bytes]. rewrite (wrap_i_le 2), Hp by (done || lia). apply reads_ret.
  - replace (b2z (z2b 0xc2)) with 0xc2 by by rewrite b2z_z2b_small. cbn [Z.shiftr Z.shiftl Pos.iter Z.div2 Pos.div2 Z.eqb Pos.eqb].
    eapply reads_seq_nil; [apply reads_slice_len, len_to_le_bytes|apply reads_ret].
  - cbn -[wrap_i from_le_bytes to_le_bytes]. rewrite (wrap_i_le 4), Hp by (done || lia). apply reads_ret.
Qed.

(** ** Listpack entries *)

Lemma len_backlen n : len (append_backlen n) = backlen_bytes n.
Proof. unfold append_backlen, backlen_bytes. by repeat case_match. Qed.
Lemma backlen_pos n : 1 <= backlen_bytes n <= 5.
Proof. unfold backlen_bytes. repeat case_match; lia. Qed.

Lemma rd_hd b l : rd (b :: l) 0 = b2z b.
Proof. done. Qed.
Lemma rd_1 a b l : rd (a :: b :: l) 1 = b2z b.
Proof. done. Qed.
Lemma slice_tail {A} (a : A) d l n : n = len d + 1 -> slice (a :: d ++ l) 1 n = d.
Proof.
  intros ->. unfold slice, len. change (Z.to_nat 1) with 1%nat. cbn [drop].
  replace (Z.to_nat (Z.of_nat (length d) + 1 - 1)) with (length d) by lia. apply take_app_length.
Qed.
Lemma slice_prefix {A} (p d l : list A) i j : i = len p -> j = len p + len d -> slice (p ++ d ++ l) i j = d.
Proof. intros -> ->. rewrite <- len_app. apply slice_app_mid. Qed.

(** What every branch of the entry decoder ends with. *)
Lemma entry_finish (data body rest : list byte) el :
  el = len body ->
  (let total := el + backlen_bytes el in
   if len (body ++ append_backlen el ++ rest) <? total then Err bad_payload else Ok (data, total)) =
  Ok (data, len (body ++ append_backlen el)).
Proof.
  intros ->. cbv zeta. autorewrite with len. rewrite len_backlen. pose proof (len_nonneg rest).
  destruct (Z.ltb_spec (len body + (backlen_bytes (len body) + len rest)) (len body + backlen_bytes (len body))); [lia|done].
Qed.

Lemma land_pow2_eqb m k : 0 <= k -> (Z.land m (2 ^ k) =? 0) = negb (Z.testbit m k).
Proof.
  intros Hk. destruct (Z.testbit m k) eqn:E; cbn [negb].
  - apply Z.eqb_neq. intros H0. apply (f_equal (fun z => Z.testbit z k)) in H0.
    by rewrite Z.land_spec, E, Z.pow2_bits_true, Z.bits_0 in H0.
  - apply Z.eqb_eq, Z.bits_inj'. intros j Hj. rewrite Z.land_spec, Z.bits_0.
    destruct (decide (j = k)) as [->|]; [by rewrite E|]. by rewrite Z.pow2_bits_false, andb_false_r by lia.
Qed.
Lemma testbit_top m k : 0 <= k -> 0 <= m < 2 * 2 ^ k -> Z.testbit m k = (2 ^ k <=? m).
Proof.
  intros Hk Hm. assert (H2 : 0 < 2 ^ k) by lia. destruct (Z.leb_spec (2 ^ k) m).
  - apply Z.testbit_true; [done|]. replace (m / 2 ^ k) with 1; [done|].
    apply Z.div_unique with (m - 2 ^ k); lia.
  - apply Z.testbit_false; [done|]. by rewrite Z.div_small by lia.
Qed.

Lemma entry_int7 n rest :
  0 <= n <= 127 -> listpack_entry_content (z2b n :: rest) = Ok (print_Z n, 1).
Proof.
  intros Hn. unfold listpack_entry_content. rewrite rd_hd, b2z_z2b_small by lia.
  by destruct (Z.leb_spec n 0x7f); [|lia].
Qed.

Lemma entry_int13 n rest :
  -4096 <= n <= 4095 ->
  let nn := Z.land (wrap_u 16 n) 0x1fff in
  listpack_entry_content (z2b (Z.lor 0xc0 (Z.land (Z.shiftr nn 8 mod 256) 0x1f)) :: z2b nn :: rest) =
    Ok (print_Z n, 2).
Proof.
  intros Hn. cbv zeta. set (nn := Z.land (wrap_u 16 n) 0x1fff).
  assert (En : nn = n mod 8192) by (unfold nn, wrap_u; rewrite land_1fff; divmod).
  assert (Eb : Z.lor 0xc0 (Z.land (Z.shiftr nn 8 mod 256) 0x1f) = 192 + nn / 256).
  { rewrite land_1f, shiftr_div by lia. change (Z.lor 0xc0) with (Z.lor (Z.shiftl 6 5)).
    rewrite lor_shiftl by divmod. divmod. }
  rewrite Eb. unfold listpack_entry_content. rewrite rd_hd, rd_1, b2z_z2b_small by divmod. rewrite b2z_z2b.
  destruct (Z.leb_spec (192 + nn / 256) 0x7f); [divmod|]. destruct (Z.leb_spec (192 + nn / 256) 0xbf); [divmod|].
  destruct (Z.leb_spec (192 + nn / 256) 0xdf); [|divmod].
  destruct (Z.ltb_spec (len (z2b (192 + nn / 256) :: z2b nn :: rest)) 2) as [Hl|_].
  { autorewrite with len in Hl. pose proof (len_nonneg rest). lia. }
  rewrite land_1f, lor_shiftl by divmod.
  replace ((192 + nn / 256) mod 32 * 2 ^ 8 + nn mod 256) with nn by divmod.
  change 0x1000 with (2 ^ 12). rewrite land_pow2_eqb by lia. rewrite negb_involutive, testbit_top by (cbn; divmod).
  change (Z.shiftl 1 13) with 8192. change (2 ^ 12) with 4096.
  do 3 f_equal. destruct (Z.leb_spec 4096 nn); divmod.
Qed.

Lemma entry_int24 n rest :
  -8388608 <= n <= 8388607 ->
  let v := Z.land n 0xffffff in
  listpack_entry_content ([z2b 0xf2; z2b (Z.land v 0xff); z2b (Z.land (Z.shiftr v 8) 0xff); z2b (Z.land (Z.shiftr v 16) 0xff)] ++ rest) =
    Ok (print_Z n, 4).
Proof.
  intros Hn. cbv zeta. set (v := Z.land n 0xffffff).
  assert (Ev : v = n mod 16777216) by apply land_ffffff.
  rewrite !land_ff, !shiftr_div by lia. unfold listpack_entry_content. cbn [app].
  rewrite rd_hd. replace (b2z (z2b 0xf2)) with 0xf2 by by rewrite b2z_z2b_small. cbn [Z.leb Z.compare Pos.compare Pos.compare_cont Z.eqb Pos.eqb].
  match goal with |- context [len ?l <? 4] => destruct (Z.ltb_spec (len l) 4) as [Hl|_] end.
  { autorewrite with len in Hl. pose proof (len_nonneg rest). lia. }
  change (rd _ 1) with (b2z (z2b (v mod 256))). change (rd _ 2) with (b2z (z2b (v / 2 ^ 8 mod 256))).
  change (rd _ 3) with (b2z (z2b (v / 2 ^ 16 mod 256))). rewrite !b2z_z2b.
  assert (E2 : Z.lor (Z.shiftl (v / 2 ^ 8 mod 256 mod 256) 8) (Z.shiftl (v / 2 ^ 16 mod 256 mod 256) 16) = v / 256 * 256).
  { rewrite Z.lor_comm. replace (Z.shiftl (v / 2 ^ 16 mod 256 mod 256) 16) with (Z.shiftl (Z.shiftl (v / 2 ^ 16 mod 256 mod 256) 8) 8)
      by (rewrite Z.shiftl_shiftl by lia; done).
    rewrite <- Z.shiftl_lor, lor_shiftl by divmod. rewrite Z.shiftl_mul_pow2 by lia. divmod. }
  rewrite E2. replace (v / 256 * 256) with (Z.shiftl (v / 256) 8) by (by rewrite Z.shiftl_mul_pow2).
  rewrite Z.lor_comm, lor_shiftl by divmod. replace (v / 256 * 2 ^ 8 + v mod 256 mod 256) with v by divmod.
  change 0x800000 with (2 ^ 23). rewrite land_pow2_eqb by lia. rewrite negb_involutive, testbit_top by (cbn; divmod).
  change (2 ^ 23) with 8388608. do 3 f_equal. destruct (Z.leb_spec 8388608 v).
  - rewrite Z.lor_comm. change 0xff000000 with (Z.shiftl 255 24). rewrite lor_shiftl by (cbn; divmod).
    change (2 ^ 24) with 16777216. unfold wrap_i. change (2 ^ (32 - 1)) with 2147483648. change (2 ^ 32) with 4294967296. divmod.
  - rewrite wrap_i_small by (cbn; divmod). divmod.
Qed.

Lemma entry_int_le k tag w n rest :
  ((k = 2%nat /\ tag = 0xf1) \/ (k = 4%nat /\ tag = 0xf3) \/ (k = 8%nat /\ tag = 0xf4)) -> w = 8 * Z.of_nat k ->
  in_i w n = true ->
  listpack_entry_content ((z2b tag :: to_le_bytes k n) ++ rest) = Ok (print_Z n, 1 + Z.of_nat k).
Proof.
  intros Hk Hw Hn. unfold listpack_entry_content. cbn [app]. rewrite rd_hd, b2z_z2b_small by lia.
  assert (Hs : slice (z2b tag :: to_le_bytes k n ++ rest) 1 (1 + Z.of_nat k) = to_le_bytes k n).
  { apply slice_tail. autorewrite with len. lia. }
  assert (Hv : wrap_i w (from_le_bytes (to_le_bytes k n)) = n) by (apply wrap_i_le; lia || done).
  assert (Hl : (len (z2b tag :: to_le_bytes k n ++ rest) <? 1 + Z.of_nat k) = false).
  { apply Z.ltb_ge. autorewrite with len. pose proof (len_nonneg rest). lia. }
  subst w. destruct Hk as [[-> ->]|[[-> ->]|[-> ->]]];
    [change (1 + Z.of_nat 2) with 3 in *|change (1 + Z.of_nat 4) with 5 in *|change (1 + Z.of_nat 8) with 9 in *];
    cbn [Z.leb Z.compare Pos.compare Pos.compare_cont Z.eqb Pos.eqb];
    rewrite Hl, Hs; do 3 f_equal; exact Hv.
Qed.

Lemma entry_str6 data rest :
  len data <= 63 -> listpack_entry_content (z2b (Z.lor 0x80 (len data)) :: data ++ rest) = Ok (data, 1 + len data).
Proof.
  intros Hl. pose proof (len_nonneg data). pose proof (len_nonneg rest). change (Z.lor 0x80) with (Z.lor (Z.shiftl 2 6)).
  rewrite lor_shiftl by divmod. change (2 * 2 ^ 6) with 128.
  unfold listpack_entry_content. rewrite rd_hd, b2z_z2b_small by lia.
  destruct (Z.leb_spec (128 + len data) 0x7f); [lia|]. destruct (Z.leb_spec (128 + len data) 0xbf); [|lia].
  rewrite land_3f. replace ((128 + len data) mod 64) with (len data) by divmod.
  match goal with |- context [len ?l <? 1 + len data] => destruct (Z.ltb_spec (len l) (1 + len data)) as [Hb|_] end.
  { autorewrite with len in Hb. lia. }
  by rewrite slice_tail.
Qed.

Lemma entry_str12 data rest :
  63 < len data < 4096 ->
  listpack_entry_content (z2b (Z.lor 0xe0 (Z.land (Z.shiftr (len data) 8 mod 256) 0x0f)) :: z2b (len data) :: data ++ rest) =
    Ok (data, 2 + len data).
Proof.
  intros Hl. pose proof (len_nonneg rest). set (l := len data) in *.
  assert (Eb : Z.lor 0xe0 (Z.land (Z.shiftr l 8 mod 256) 0x0f) = 224 + l / 256).
  { rewrite land_0f, shiftr_div by lia. change (Z.lor 0xe0) with (Z.lor (Z.shiftl 14 4)).
    rewrite lor_shiftl by (change (2 ^ 4) with 16; divmod). change (14 * 2 ^ 4) with 224. divmod. }
  rewrite Eb. unfold listpack_entry_content. rewrite rd_hd, rd_1, b2z_z2b_small by divmod. rewrite b2z_z2b.
  set (b := 224 + l / 256). assert (Hb : 224 <= b <= 239) by (unfold b; divmod).
  destruct (Z.leb_spec b 0x7f); [lia|]. destruct (Z.leb_spec b 0xbf); [lia|]. destruct (Z.leb_spec b 0xdf); [lia|].
  destruct (Z.eqb_spec b 0xf1); [lia|]. destruct (Z.eqb_spec b 0xf2); [lia|]. destruct (Z.eqb_spec b 0xf3); [lia|].
  destruct (Z.eqb_spec b 0xf4); [lia|]. destruct (Z.eqb_spec b 0xf0); [lia|]. destruct (Z.leb_spec b 0xef); [|lia].
  match goal with |- context [len ?x <? 2] => destruct (Z.ltb_spec (len x) 2) as [Hx|_]; [autorewrite with len in Hx; unfold l in *; lia|] end.
  rewrite land_0f, lor_shiftl by divmod. replace (b mod 16 * 2 ^ 8 + l mod 256) with l by (unfold b; divmod).
  match goal with |- context [len ?x <? 2 + l] => destruct (Z.ltb_spec (len x) (2 + l)) as [Hx|_]; [autorewrite with len in Hx; unfold l in *; lia|] end.
  change (z2b b :: z2b l :: data ++ rest) with ([z2b b; z2b l] ++ data ++ rest). by rewrite slice_prefix.
Qed.

Lemma entry_str32 data rest :
  len data < 2 ^ 32 ->
  listpack_entry_content ((z2b 0xf0 :: to_be_bytes 4 (len data)) ++ data ++ rest) = Ok (data, 5 + len data).
Proof.
  intros Hl. pose proof (len_nonneg rest). pose proof (len_nonneg data). unfold listpack_entry_content. cbn [app]. rewrite rd_hd.
  replace (b2z (z2b 0xf0)) with 0xf0 by by rewrite b2z_z2b_small. cbn [Z.leb Z.compare Pos.compare Pos.compare_cont Z.eqb Pos.eqb].
  match goal with |- context [len ?x <? 5] => destruct (Z.ltb_spec (len x) 5) as [Hx|_]; [autorewrite with len in Hx; lia|] end.
  rewrite slice_tail by by autorewrite with len. rewrite from_to_be_bytes, Z.mod_small by (cbn; lia).
  match goal with |- context [len ?x <? 5 + _] => destruct (Z.ltb_spec (len x) (5 + len data)) as [Hx|_]; [autorewrite with len in Hx; lia|] end.
  change (z2b 0xf0 :: to_be_bytes 4 (len data) ++ data ++ rest) with ((z2b 0xf0 :: to_be_bytes 4 (len data)) ++ data ++ rest).
  rewrite slice_prefix; [done|..]; autorewrite with len; lia.
Qed.

(** ** Listpacks *)

Lemma read_entry_of_content data body el rest :
  body <> [] -> el = len body -> (forall r, listpack_entry_content (body ++ r) = Ok (data, el)) ->
  listpack_read_entry ((body ++ append_backlen el) ++ rest) = Ok (data, len (body ++ append_backlen el)).
Proof.
  intros Hne -> Hc. rewrite <- app_assoc. unfold listpack_read_entry.
  destruct (body ++ append_backlen (len body) ++ rest) as [|b l] eqn:E; [by apply app_eq_nil in E as [? _]|].
  rewrite <- E, Hc. cbn [rbind]. by apply entry_finish.
Qed.

Lemma listpack_entry_roundtrip data rest :
  len data < 2 ^ 32 ->
  listpack_read_entry (listpack_append_string data ++ rest) = Ok (data, len (listpack_append_string data)).
Proof.
  intros Hl. pose proof (len_nonneg data) as H0. unfold listpack_append_string.
  destruct (try_parse_ascii_int data) as [n|] eqn:E.
  - apply try_parse_spec in E as [<- Hn]. unfold in_closed.
    destruct (Z.leb_spec 0 n), (Z.leb_spec n 127); cbn [andb];
      try (apply (read_entry_of_content _ [z2b n] 1); [done|done|]; intros r; apply entry_int7; lia);
    (destruct (Z.leb_spec (-4096) n), (Z.leb_spec n 4095); cbn [andb];
      try (apply (read_entry_of_content (print_Z n) [z2b _; z2b _] 2); [done|done|]; intros r; apply (entry_int13 n r); lia);
    (destruct (Z.leb_spec (-32768) n), (Z.leb_spec n 32767); cbn [andb];
      try (apply (read_entry_of_content (print_Z n) (z2b 0xf1 :: to_le_bytes 2 n) 3);
           [done|by autorewrite with len|]; intros r; apply (entry_int_le 2 _ 16); [auto|done|unfold in_i; cbn; lia]);
    (destruct (Z.leb_spec (-8388608) n), (Z.leb_spec n 8388607); cbn [andb];
      try (apply (read_entry_of_content (print_Z n) [z2b _; z2b _; z2b _; z2b _] 4); [done|done|]; intros r; apply (entry_int24 n r); lia);
    (destruct (in_i 32 n) eqn:E32;
      [apply (read_entry_of_content (print_Z n) (z2b 0xf3 :: to_le_bytes 4 n) 5);
         [done|by autorewrite with len|]; intros r; apply (entry_int_le 4 _ 32); [auto|done|done]
      |apply (read_entry_of_content (print_Z n) (z2b 0xf4 :: to_le_bytes 8 n) 9);
         [done|by autorewrite with len|]; intros r; apply (entry_int_le 8 _ 64); [auto|done|done]])))).
  - destruct (Z.leb_spec (len data) 63); [|destruct (Z.ltb_spec (len data) 4096)].
    + change (z2b (Z.lor 128 (len data)) :: data ++ append_backlen (1 + len data))
        with ((z2b (Z.lor 128 (len data)) :: data) ++ append_backlen (1 + len data)).
      apply read_entry_of_content; [done|autorewrite with len; lia|]. intros r. by apply entry_str6.
    + match goal with |- context [?a :: ?b :: data ++ append_backlen ?c] =>
        change (a :: b :: data ++ append_backlen c) with ((a :: b :: data) ++ append_backlen c) end.
      apply read_entry_of_content; [done|autorewrite with len; lia|]. intros r. apply entry_str12. lia.
    + rewrite app_assoc. apply read_entry_of_content; [done|autorewrite with len; lia|].
      intros r. rewrite <- app_assoc. by apply entry_str32.
Qed.

Lemma append_string_pos data : 0 < len (listpack_append_string data).
Proof.
  unfold listpack_append_string. repeat case_match; cbn [app]; rewrite len_cons;
    match goal with |- 0 < len ?l + 1 => pose proof (len_nonneg l) end; lia.
Qed.

Definition short (l : list (list byte)) : Prop := Forall (fun d => len d < 2 ^ 32) l.

Lemma listpack_walk_roundtrip l fuel out :
  short l -> (length (flat_map listpack_append_string l) < fuel)%nat ->
  listpack_walk fuel (flat_map listpack_append_string l) out = Ok (out ++ l).
Proof.
  intros Hl. revert fuel out. induction Hl as [|d l Hd Hl IH]; intros fuel out Hf.
  - destruct fuel; [cbn in Hf; lia|]. cbn. by rewrite app_nil_r.
  - cbn [flat_map] in *. rewrite length_app in Hf. pose proof (append_string_pos d) as Hp. unfold len in Hp.
    destruct fuel as [|f]; [lia|]. cbn [listpack_walk].
    destruct (listpack_append_string d ++ flat_map listpack_append_string l) as [|b t] eqn:E.
    { apply app_eq_nil in E as [E _]. rewrite E in Hp. cbn in Hp. lia. }
    rewrite <- E, listpack_entry_roundtrip by done. cbn [rbind].
    unfold len. rewrite Nat2Z.id, drop_app_length, IH by lia. by rewrite <- app_assoc.
Qed.

Lemma slice_whole_prefix {A} (p d : list A) x : slice (p ++ d ++ [x]) (len p) (len (p ++ d ++ [x]) - 1) = d.
Proof. replace (len (p ++ d ++ [x]) - 1) with (len (p ++ d)) by (autorewrite with len; lia). apply slice_app_mid. Qed.

Lemma listpack_roundtrip l n :
  short l -> len (listpack_encode n l) < 2 ^ 32 -> listpack_decode (listpack_encode n l) = Ok l.
Proof.
  intros Hs. unfold listpack_encode. set (num := if 65535 <? n then 65535 else n).
  set (rest := to_le_bytes 2 num ++ _). set (body := flat_map listpack_append_string l).
  assert (Er : rest = to_le_bytes 2 num ++ body ++ [z2b 0xff]) by done.
  assert (El : 7 <= len rest + 4) by (rewrite Er; autorewrite with len; pose proof (len_nonneg body); lia).
  intros Hb. autorewrite with len in Hb. set (buf := to_le_bytes 4 (4 + len rest) ++ rest).
  assert (Ebl : len buf = 4 + len rest) by (unfold buf; autorewrite with len; lia).
  unfold listpack_decode. rewrite Ebl. destruct (Z.ltb_spec (4 + len rest) 7); [lia|].
  assert (E1 : slice buf 0 4 = to_le_bytes 4 (4 + len rest)).
  { unfold buf. apply (slice_prefix [] (to_le_bytes 4 (4 + len rest)) rest); autorewrite with len; done. }
  rewrite E1, from_to_le_bytes, Z.mod_small by (change (256 ^ Z.of_nat 4) with (2 ^ 32); lia). rewrite Z.eqb_refl. cbn [negb].
  set (pre := to_le_bytes 4 (4 + len rest) ++ to_le_bytes 2 num).
  assert (Ebuf : buf = pre ++ body ++ [z2b 0xff]) by (unfold buf, pre; by rewrite Er, <- app_assoc).
  assert (Epre : len pre = 6) by (unfold pre; by autorewrite with len).
  assert (Eend : 4 + len rest - 1 = len (pre ++ body)) by (rewrite <- Ebl, Ebuf; autorewrite with len; lia).
  rewrite Eend, Ebuf. rewrite (app_assoc pre body [z2b 0xff]), rd_app_0, b2z_z2b_small by lia.
  rewrite Z.eqb_refl. cbn [negb]. rewrite <- (app_assoc pre body), <- Epre, slice_app_mid.
  apply (listpack_walk_roundtrip l _ []); [done|]. fold body. lia.
Qed.

(** A listpack decodes to exactly the elements encoded, whatever
    mix of small and large integers, short and long strings they are. *)
Theorem listpack_decode_encode l n :
  short l -> len (listpack_encode n l) < 2 ^ 32 -> listpack_decode (listpack_encode n l) = Ok l.
Proof. apply listpack_roundtrip. Qed.

(** ** CRC64 *)

Lemma u64_lxor a b : 0 <= a < 2 ^ 64 -> 0 <= b < 2 ^ 64 -> 0 <= Z.lxor a b < 2 ^ 64.
Proof.
  intros Ha Hb. assert (H0 : 0 <= Z.lxor a b) by (apply Z.lxor_nonneg; lia). split; [done|].
  destruct (decide (Z.lxor a b = 0)) as [->|]; [done|]. apply Z.log2_lt_pow2; [lia|].
  eapply Z.le_lt_trans; [apply Z.log2_lxor; lia|].
  assert (Hl : forall x, 0 <= x < 2 ^ 64 -> Z.log2 x < 64).
  { intros x Hx. destruct (decide (x = 0)) as [->|]; [done|]. apply Z.log2_lt_pow2; lia. }
  apply Z.max_lub_lt; by apply Hl.
Qed.

Lemma crc64_bit_range c : 0 <= c < 2 ^ 64 -> 0 <= crc64_bit c < 2 ^ 64.
Proof.
  intros Hc. unfold crc64_bit. assert (H1 : 0 <= Z.shiftr c 1 < 2 ^ 64).
  { rewrite shiftr_div by lia. change (2 ^ 1) with 2. Z.div_mod_to_equations; lia. }
  destruct (negb _); [|done]. apply u64_lxor; [done|]. unfold CRC64_REFLECTED_POLY. lia.
Qed.

Lemma crc64_bit_eq c :
  crc64_bit c = if Z.testbit c 0 then Z.lxor (Z.shiftr c 1) CRC64_REFLECTED_POLY else Z.shiftr c 1.
Proof.
  unfold crc64_bit. pose proof (land_pow2_eqb c 0 ltac:(lia)) as E. change (2 ^ 0) with 1 in E.
  by rewrite E, negb_involutive.
Qed.

(** One bit is linear over exclusive or. *)
Lemma crc64_bit_lxor a b : crc64_bit (Z.lxor a b) = Z.lxor (crc64_bit a) (crc64_bit b).
Proof.
  rewrite !crc64_bit_eq, Z.lxor_spec, Z.shiftr_lxor. apply Z.bits_inj'. intros k Hk.
  destruct (Z.testbit a 0), (Z.testbit b 0); cbn [xorb]; rewrite !Z.lxor_spec;
    destruct (Z.testbit (Z.shiftr a 1) k), (Z.testbit (Z.shiftr b 1) k), (Z.testbit CRC64_REFLECTED_POLY k); done.
Qed.

Lemma crc64_entry_eq c : crc64_entry c =
  crc64_bit (crc64_bit (crc64_bit (crc64_bit (crc64_bit (crc64_bit (crc64_bit (crc64_bit c))))))).
Proof. reflexivity. Qed.

Lemma crc64_entry_lxor a b : crc64_entry (Z.lxor a b) = Z.lxor (crc64_entry a) (crc64_entry b).
Proof. by rewrite !crc64_entry_eq, !crc64_bit_lxor. Qed.

(** Eight bits without a carry are a plain shift. *)
Lemma crc64_bit_even c : Z.testbit c 0 = false -> crc64_bit c = Z.shiftr c 1.
Proof.
  intros H. by rewrite crc64_bit_eq, H.
Qed.
Lemma crc64_entry_shift c : crc64_entry (Z.shiftl c 8) = c.
Proof.
  rewrite crc64_entry_eq.
  assert (G : forall n m, 0 <= n < 8 -> m = n + 1 -> crc64_bit (Z.shiftl c m) = Z.shiftl c n).
  { intros n m Hn ->. rewrite crc64_bit_even by (rewrite Z.shiftl_spec_low by lia; done).
    rewrite Z.shiftr_shiftl_l by lia. f_equal. lia. }
  rewrite (G 7 8), (G 6 7), (G 5 6), (G 4 5), (G 3 4), (G 2 3), (G 1 2), (G 0 1) by lia. apply Z.shiftl_0_r.
Qed.

Lemma crc64_table_entry i : 0 <= i < 256 -> nth (Z.to_nat i) crc64_build_table 0 = crc64_entry i.
Proof.
  intros Hi. unfold crc64_build_table. rewrite (nth_indep _ 0 (crc64_entry (Z.of_nat 0)))
    by (rewrite length_map, length_seq; lia).
  rewrite (map_nth (fun i => crc64_entry (Z.of_nat i))), seq_nth by lia. f_equal. lia.
Qed.

(** A number as its high part and its low byte. *)
Lemma low_byte_split c : c = Z.lxor (Z.shiftl (Z.shiftr c 8) 8) (Z.land c 0xff).
Proof.
  rewrite land_ff.
  apply Z.bits_inj'. intros k Hk. rewrite Z.lxor_spec. change 256 with (2 ^ 8). destruct (Z.ltb_spec k 8).
  - rewrite Z.shiftl_spec_low, Z.mod_pow2_bits_low by lia. by rewrite xorb_false_l.
  - rewrite Z.shiftl_spec, Z.shiftr_spec, Z.mod_pow2_bits_high by lia. rewrite xorb_false_r. f_equal. lia.
Qed.

Lemma crc64_step_bits crc b : 0 <= crc < 2 ^ 64 -> crc64_step crc b = crc64_entry (Z.lxor crc (b2z b)).
Proof.
  intros Hc. unfold crc64_step. set (x := Z.lxor crc (b2z b)).
  rewrite crc64_table_entry by (rewrite land_ff; apply Z.mod_pos_bound; lia).
  rewrite (low_byte_split x) at 2. rewrite crc64_entry_lxor, crc64_entry_shift, Z.lxor_comm. f_equal.
  unfold x. rewrite Z.shiftr_lxor. pose proof (b2z_range b) as Hb. rewrite (shiftr_div (b2z b)) by lia.
  rewrite (Z.div_small (b2z b)) by done. by rewrite Z.lxor_0_r.
Qed.

Lemma crc64_entry_range c : 0 <= c < 2 ^ 64 -> 0 <= crc64_entry c < 2 ^ 64.
Proof. intros Hc. rewrite crc64_entry_eq. do 8 apply crc64_bit_range. done. Qed.

Lemma crc64_step_range crc b : 0 <= crc < 2 ^ 64 -> 0 <= crc64_step crc b < 2 ^ 64.
Proof.
  intros Hc. rewrite crc64_step_bits by done. apply crc64_entry_range, u64_lxor; [done|].
  pose proof (b2z_range b). lia.
Qed.
Lemma crc64_range seed data : 0 <= seed < 2 ^ 64 -> 0 <= crc64 seed data < 2 ^ 64.
Proof.
  unfold crc64. revert seed. induction data as [|b data IH]; intros seed Hs; cbn [fold_left]; [done|].
  by apply IH, crc64_step_range.
Qed.

Lemma shiftr1_inj a b : Z.testbit a 0 = Z.testbit b 0 -> Z.shiftr a 1 = Z.shiftr b 1 -> a = b.
Proof.
  intros H0 H1. apply Z.bits_inj'. intros k Hk. destruct (decide (k = 0)) as [->|]; [done|].
  apply (f_equal (fun z => Z.testbit z (k - 1))) in H1. rewrite !Z.shiftr_spec in H1 by lia.
  by replace (k - 1 + 1) with k in H1 by lia.
Qed.

Lemma crc64_bit_top c : 0 <= c < 2 ^ 64 -> Z.testbit (crc64_bit c) 63 = Z.testbit c 0.
Proof.
  intros Hc. rewrite crc64_bit_eq.
  assert (H63 : Z.testbit (Z.shiftr c 1) 63 = false).
  { rewrite Z.shiftr_spec by lia. change (63 + 1) with 64. apply Z.testbit_false; [lia|].
    by rewrite Z.div_small by lia. }
  destruct (Z.testbit c 0); [|done]. rewrite Z.lxor_spec, H63. reflexivity.
Qed.

Lemma crc64_bit_inj a b : 0 <= a < 2 ^ 64 -> 0 <= b < 2 ^ 64 -> crc64_bit a = crc64_bit b -> a = b.
Proof.
  intros Ha Hb E. assert (H0 : Z.testbit a 0 = Z.testbit b 0).
  { rewrite <- (crc64_bit_top a), <- (crc64_bit_top b) by done. by rewrite E. }
  apply shiftr1_inj; [done|]. rewrite !crc64_bit_eq, H0 in E. destruct (Z.testbit b 0); [|done].
  apply (f_equal (fun z => Z.lxor z CRC64_REFLECTED_POLY)) in E.
  by rewrite !Z.lxor_assoc, Z.lxor_nilpotent, !Z.lxor_0_r in E.
Qed.

Lemma crc64_entry_inj a b : 0 <= a < 2 ^ 64 -> 0 <= b < 2 ^ 64 -> crc64_entry a = crc64_entry b -> a = b.
Proof.
  intros Ha Hb. rewrite !crc64_entry_eq. intros E.
  do 8 (apply crc64_bit_inj in E; [|by repeat apply crc64_bit_range..]). done.
Qed.

Lemma lxor_inj_l a b c : Z.lxor a b = Z.lxor a c -> b = c.
Proof.
  intros E. apply (f_equal (Z.lxor a)) in E. by rewrite <- !Z.lxor_assoc, Z.lxor_nilpotent, !Z.lxor_0_l in E.
Qed.

Lemma crc64_step_inj a b x y :
  0 <= a < 2 ^ 64 -> 0 <= b < 2 ^ 64 -> crc64_step a x = crc64_step b y -> x = y \/ a = b -> a = b /\ x = y.
Proof.
  intros Ha Hb. rewrite !crc64_step_bits by done. pose proof (b2z_range x). pose proof (b2z_range y).
  intros E%crc64_entry_inj; [|apply u64_lxor; lia..]. intros [->| ->].
  - split; [|done]. rewrite !(Z.lxor_comm _ (b2z y)) in E. by apply lxor_inj_l in E.
  - split; [done|]. by apply lxor_inj_l, b2z_inj in E.
Qed.

Lemma crc64_inj_seed data a b : 0 <= a < 2 ^ 64 -> 0 <= b < 2 ^ 64 -> crc64 a data = crc64 b data -> a = b.
Proof.
  unfold crc64. revert a b. induction data as [|x data IH]; intros a b Ha Hb; cbn [fold_left]; [done|].
  intros E%IH; [|by apply crc64_step_range..]. apply crc64_step_inj in E; [|done..|by left]. by destruct E.
Qed.

Lemma crc64_detects_byte p x y q : crc64 0 (p ++ x :: q) = crc64 0 (p ++ y :: q) -> x = y.
Proof.
  unfold crc64. rewrite !fold_left_app. cbn [fold_left]. fold (crc64 0 p).
  set (c := crc64 0 p). assert (Hc : 0 <= c < 2 ^ 64) by (apply crc64_range; lia).
  fold (crc64 (crc64_step c x) q) (crc64 (crc64_step c y) q).
  intros E%crc64_inj_seed; [|by apply crc64_step_range..]. apply crc64_step_inj in E; [|done..|by right]. by destruct E.
Qed.

(** The table-driven CRC64 computes the bit-serial reflected CRC - eight
    shift-and-xor steps of the polynomial per byte - and it tells apart any two
    inputs that differ in exactly one byte. *)
Theorem crc64_bitwise seed data :
  0 <= seed < 2 ^ 64 ->
  crc64 seed data = fold_left (fun c b => Nat.iter 8 crc64_bit (Z.lxor c (b2z b))) data seed /\
  (forall p x y q, crc64 0 (p ++ x :: q) = crc64 0 (p ++ y :: q) -> x = y).
Proof.
  intros Hs. split; [|apply crc64_detects_byte]. unfold crc64. revert seed Hs.
  induction data as [|b data IH]; intros seed Hs; cbn [fold_left]; [done|].
  rewrite IH by by apply crc64_step_range. by rewrite crc64_step_bits.
Qed.

(** ** Corruption *)

Lemma from_le_bytes_inj l k : length l = length k -> from_le_bytes l = from_le_bytes k -> l = k.
Proof. intros Hl E. rewrite <- (to_from_le_bytes l), <- (to_from_le_bytes k), Hl. by f_equal. Qed.

Lemma restore_crc p v :
  restore_value p = Some (Ok v) ->
  10 <= len p /\ from_le_bytes (drop (length p - 8) p) = crc64 0 (take (length p - 8) p).
Proof.
  unfold restore_value. destruct (Z.ltb_spec (len p) 10); [done|]. unfold len in *.
  destruct (_ <? _); [done|]. set (t := drop (Z.to_nat (Z.of_nat (length p) - 10)) p).
  destruct (Z.eqb_spec (from_le_bytes (slice t 2 10)) (crc64 0 (take (Z.to_nat (Z.of_nat (length p) - 10)) p ++ slice t 0 2)));
    [|done]. intros _. split; [lia|].
  assert (E1 : slice t 2 10 = drop (length p - 8) p).
  { unfold slice, t. rewrite drop_drop, take_ge by (rewrite length_drop; lia). f_equal. lia. }
  assert (E2 : take (Z.to_nat (Z.of_nat (length p) - 10)) p ++ slice t 0 2 = take (length p - 8) p).
  { unfold slice, t. rewrite drop_0. change (Z.to_nat (2 - 0)) with 2%nat.
    rewrite <- (take_drop (Z.to_nat (Z.of_nat (length p) - 10)) (take (length p - 8) p)).
    rewrite take_take, Nat.min_l by lia. f_equal. rewrite skipn_firstn_comm || rewrite <- take_drop_commute.
    f_equal. lia. }
  by rewrite <- E1, <- E2.
Qed.

Lemma restore_bad_crc p :
  10 <= len p -> from_le_bytes (drop (length p - 8) p) <> crc64 0 (take (length p - 8) p) ->
  restore_value p = Some (Err bad_payload).
Proof.
  intros Hl Hc. unfold restore_value. destruct (Z.ltb_spec (len p) 10); [lia|]. unfold len in *.
  destruct (_ <? _); [done|]. set (t := drop (Z.to_nat (Z.of_nat (length p) - 10)) p).
  destruct (Z.eqb_spec (from_le_bytes (slice t 2 10)) (crc64 0 (take (Z.to_nat (Z.of_nat (length p) - 10)) p ++ slice t 0 2)))
    as [E|]; [|done]. exfalso. apply Hc.
  assert (E1 : slice t 2 10 = drop (length p - 8) p).
  { unfold slice, t. rewrite drop_drop, take_ge by (rewrite length_drop; lia). f_equal. lia. }
  assert (E2 : take (Z.to_nat (Z.of_nat (length p) - 10)) p ++ slice t 0 2 = take (length p - 8) p).
  { unfold slice, t. rewrite drop_0. change (Z.to_nat (2 - 0)) with 2%nat.
    rewrite <- (take_drop (Z.to_nat (Z.of_nat (length p) - 10)) (take (length p - 8) p)).
    rewrite take_take, Nat.min_l by lia. f_equal. rewrite skipn_firstn_comm || rewrite <- take_drop_commute.
    f_equal. lia. }
  by rewrite <- E1, <- E2.
Qed.


(** A string length of [u64::MAX] overflows the reader's bound check: RESTORE
    of this payload panics, which aborts a release build. *)
Definition panicking_payload : list byte :=
  let body := z2b 0 :: z2b 0x81 :: repeat (z2b 0xff) 8 ++ to_le_bytes 2 RDB_VERSION in
  body ++ to_le_bytes 8 (crc64 0 body).
Lemma restore_can_panic : restore_value panicking_payload = None.
Proof. by vm_compute. Qed.

(** ** Round trip *)

Lemma append_string_len d : len d <= Z.max 20 (len (listpack_append_string d)).
Proof.
  unfold listpack_append_string. destruct (try_parse_ascii_int d) as [n|] eqn:E.
  - unfold try_parse_ascii_int in E. destruct d as [|b d]; [unfold len; cbn; lia|].
    destruct (Z.ltb_spec 20 (len (b :: d))); [done|]. lia.
  - destruct (len d <=? 63); [|destruct (len d <? 4096)]; autorewrite with len;
      pose proof (len_nonneg (append_backlen (1 + len d))); pose proof (len_nonneg (append_backlen (2 + len d)));
      pose proof (len_nonneg (append_backlen (5 + len d))); lia.
Qed.

Lemma short_of_blob n l : len (listpack_encode n l) < 2 ^ 32 -> short l.
Proof.
  unfold listpack_encode. autorewrite with len. intros Hb.
  assert (Hf : len (flat_map listpack_append_string l) < 2 ^ 32) by lia. clear Hb.
  induction l as [|d l IH]; constructor.
  - cbn [flat_map] in Hf. autorewrite with len in Hf. pose proof (len_nonneg (flat_map listpack_append_string l)).
    pose proof (append_string_len d). lia.
  - apply IH. cbn [flat_map] in Hf. autorewrite with len in Hf. pose proof (len_nonneg (listpack_append_string d)). lia.
Qed.

Lemma blob_roundtrip n l : len (listpack_encode n l) < 2 ^ 32 -> listpack_decode (listpack_encode n l) = Ok l.
Proof. intros Hb. apply listpack_roundtrip; [by eapply short_of_blob|done]. Qed.

(** What can be dumped and read back: names are UTF-8 (they are Rust
    [String]s), the listpack fits its 32-bit length field, scores survive their
    text form. *)
Definition fits (n : Z) (l : list (list byte)) : Prop := len (listpack_encode n l) < 2 ^ 32.
Definition dumpable (v : Value) : Prop :=
  match v with
  | VString _ => True
  | VHash m => bt_wf m /\ Forall (fun kv => utf8_valid (fst kv) = true) m /\
               fits (len m * 2) (flat_map (fun kv => [fst kv; snd kv]) m)
  | VList l => fits (len l) l
  | VSet s => bt_wf s /\ Forall (fun k => utf8_valid k = true) (bs_elems s) /\ fits (len s) (bs_elems s)
  | VZSet m => bt_wf m /\ Forall (fun kv => utf8_valid (fst kv) = true /\
                 parse_score (format_rdb_double (snd kv)) = Ok (snd kv)) m /\
               fits (len m * 2) (flat_map (fun kv => [fst kv; format_rdb_double (snd kv)]) m)
  | VStream _ => False
  end.

Lemma from_utf8_valid k : utf8_valid k = true -> from_utf8 k = Some k.
Proof. unfold from_utf8. by intros ->. Qed.

Lemma pairs_to_map_roundtrip {V} (parse : list byte -> Result V) (print : V -> list byte) m acc :
  Forall (fun kv => utf8_valid (fst kv) = true /\ parse (print (snd kv)) = Ok (snd kv)) m ->
  pairs_to_map parse (flat_map (fun kv => [fst kv; print (snd kv)]) m) acc =
    Ok (fold_left (fun m '(k, v) => bt_insert m k v) m acc).
Proof.
  intros Hm. revert acc. induction Hm as [|[k v] m [Hk Hv] _ IH]; intros acc; cbn [flat_map app pairs_to_map fold_left]; [done|].
  cbn [fst snd] in *. rewrite from_utf8_valid, Hv by done. cbn [ok_or rbind]. apply IH.
Qed.
Lemma members_to_set_roundtrip l acc :
  Forall (fun k => utf8_valid k = true) l -> members_to_set l acc = Ok (fold_left bs_insert l acc).
Proof.
  intros Hl. revert acc. induction Hl as [|k l Hk _ IH]; intros acc; cbn [members_to_set fold_left]; [done|].
  rewrite from_utf8_valid by done. cbn [ok_or rbind]. apply IH.
Qed.

Lemma flat_pairs_even {V} (f : Str * V -> list (list byte)) (m : btree Str V) :
  (forall kv, len (f kv) = 2) -> (len (flat_map f m) mod 2 =? 0) = true.
Proof.
  intros Hf. apply Z.eqb_eq. assert (E : len (flat_map f m) = 2 * len m).
  { induction m as [|kv m IH]; cbn [flat_map]; [done|]. autorewrite with len. rewrite Hf, IH. lia. }
  rewrite E, Z.mul_comm. apply Z.mod_mul. lia.
Qed.

Lemma reads_lift {A} (a : A) : reads (rlift (Ok a)) [] a.
Proof. apply reads_ret. Qed.

Lemma fits_len n l : fits n l -> len (listpack_encode n l) < 2 ^ 64.
Proof. unfold fits. lia. Qed.

Lemma rdb_string_len d : len d <= Z.max 20 (len (write_rdb_string d)).
Proof.
  unfold write_rdb_string, write_plain. destruct (try_parse_ascii_int d) as [n|] eqn:E.
  - unfold try_parse_ascii_int in E. destruct d as [|b d]; [unfold len; cbn; lia|].
    destruct (Z.ltb_spec 20 (len (b :: d))); [done|]. lia.
  - autorewrite with len. pose proof (len_nonneg (write_rdb_length (len d))). lia.
Qed.

Lemma reads_blob n l {B} (f : list (list byte) -> reader B) b :
  fits n l -> reads (f l) [] b ->
  reads (let* lp_bytes := read_rdb_string in let* items := rlift (listpack_decode lp_bytes) in f items)
    (write_rdb_string (listpack_encode n l)) b.
Proof.
  intros Hf Hb. eapply reads_seq_nil; [by apply reads_string, fits_len|].
  rewrite blob_roundtrip by done. by eapply reads_seq_nil; [apply reads_lift|].
Qed.

Lemma reads_one_node l f :
  fits (len l) l -> (0 < f)%nat ->
  reads (read_times f 1 quicklist_node [])
    (write_rdb_length QUICKLIST_NODE_PACKED ++ write_rdb_string (listpack_encode (len l) l)) l.
Proof.
  intros Hl Hf. destruct f as [|f]; [lia|]. cbn [read_times Z.leb Z.compare]. eapply reads_seq_nil.
  - unfold quicklist_node. eapply reads_seq; [by apply reads_length|]. cbn [Z.eqb Pos.eqb QUICKLIST_NODE_PACKED].
    apply (reads_blob _ _ (fun l => rret ([] ++ l))); [done|apply reads_ret].
  - destruct f; apply reads_ret.
Qed.

Lemma reads_body v body fuel :
  dumpable v -> dump_body v = Ok body -> len body < 2 ^ 63 -> (0 < fuel)%nat -> reads (restore_body fuel) body v.
Proof.
  intros Hd Hb Hl Hf. destruct v as [d|m|l|s|m|s]; cbn [dump_body dumpable] in *; try done; injection Hb as <-;
    unfold restore_body; apply reads_u8_then; rewrite b2z_z2b_small by (split; by vm_compute);
    match goal with |- context [?a =? RDB_TYPE_STRING] => unfold a end;
    cbn [Z.eqb Pos.eqb RDB_TYPE_STRING RDB_TYPE_HASH_LISTPACK RDB_TYPE_LIST_QUICKLIST_2 RDB_TYPE_SET_LISTPACK RDB_TYPE_ZSET_LISTPACK RDB_TYPE_SET RDB_TYPE_SET_INTSET].
  - eapply reads_seq_nil; [apply reads_string|apply reads_ret]. autorewrite with len in Hl.
    pose proof (rdb_string_len d). lia.
  - destruct Hd as (Hm & Hk & Hs). apply (reads_blob (len m * 2) (flat_map (fun kv => [fst kv; snd kv]) m)); [done|].
    rewrite flat_pairs_even by done. cbn [negb]. rewrite (pairs_to_map_roundtrip Ok (fun v => v)).
    + fold (bt_collect m). rewrite bt_collect_wf by done. apply reads_ret.
    + eapply Forall_impl; [exact Hk|]. intros kv Hkv. by split.
  - change (z2b 1 :: z2b QUICKLIST_NODE_PACKED :: write_rdb_string (listpack_encode (len l) l))
      with (write_rdb_length 1 ++ (write_rdb_length QUICKLIST_NODE_PACKED ++ write_rdb_string (listpack_encode (len l) l))).
    eapply reads_seq; [by apply reads_length|]. eapply reads_seq_nil; [by apply reads_one_node|apply reads_ret].
  - destruct Hd as (Hm & Hk & Hs). apply (reads_blob (len s) (bs_elems s)); [done|].
    rewrite members_to_set_roundtrip by done. fold (bs_collect (bs_elems s)). rewrite bs_collect_elems by done. apply reads_ret.
  - destruct Hd as (Hm & Hk & Hs). apply (reads_blob (len m * 2) (flat_map (fun kv => [fst kv; format_rdb_double (snd kv)]) m)); [done|].
    rewrite flat_pairs_even by done. cbn [negb]. rewrite (pairs_to_map_roundtrip parse_score format_rdb_double) by done.
    fold (bt_collect m). rewrite bt_collect_wf by done. apply reads_ret.
Qed.

Lemma restore_dump_value v payload :
  dumpable v -> dump_value v = Ok payload -> len payload <= i64_max -> restore_value payload = Some (Ok v).
Proof.
  intros Hd Hp Hl. unfold dump_value in Hp. destruct (dump_body v) as [body|] eqn:Eb; [|done]. cbn [rbind] in Hp.
  set (ver := to_le_bytes 2 RDB_VERSION) in *. set (crc := to_le_bytes 8 (crc64 0 (body ++ ver))) in *.
  assert (payload = (body ++ ver) ++ crc) as -> by congruence. clear Hp.
  assert (Hver : length ver = 2%nat) by apply length_to_le_bytes. assert (Hcrc : length crc = 8%nat) by apply length_to_le_bytes.
  assert (Hlen : len ((body ++ ver) ++ crc) = len body + 10) by (unfold len; rewrite !length_app; lia).
  unfold restore_value. rewrite Hlen. destruct (Z.ltb_spec (len body + 10) 10); [pose proof (len_nonneg body); lia|].
  replace (Z.to_nat (len body + 10 - 10)) with (length body) by (unfold len; lia).
  rewrite <- app_assoc, take_app_length, drop_app_length.
  assert (E1 : slice (ver ++ crc) 0 2 = ver) by (apply (slice_prefix [] ver crc); unfold len; rewrite ?Hver; done).
  assert (E2 : slice (ver ++ crc) 2 10 = crc).
  { rewrite <- (app_nil_r crc). apply (slice_prefix ver crc []); unfold len; rewrite ?Hver, ?Hcrc; done. }
  rewrite E1, E2. unfold ver at 1. rewrite from_to_le_bytes. change (RDB_MAX_ACCEPT_VERSION <? RDB_VERSION mod 256 ^ Z.of_nat 2) with false.
  unfold crc. rewrite from_to_le_bytes, Z.mod_small by (apply crc64_range; lia). rewrite Z.eqb_refl. cbn [negb].
  assert (Hb : len body + 10 <= i64_max) by lia. unfold i64_max in *.
  pose proof (reads_body v body (S (length body)) Hd Eb ltac:(lia) ltac:(lia) [] []) as Hr.
  cbn [app] in Hr. rewrite app_nil_r in Hr. rewrite len_nil in Hr. by rewrite Hr by (unfold i64_max; lia).
Qed.



(** ** Termination: the fuel is enough *)

(** A reader that moves at least [k] bytes forward, never past the end. *)
Definition advances {A} (k : Z) (r : reader A) : Prop :=
  forall buf pos a pos', 0 <= pos -> r buf pos = ROk a pos' -> pos + k <= pos' /\ (pos' = pos \/ pos' <= len buf).

Lemma adv_ret {A} (a : A) : advances 0 (rret a).
Proof. intros buf pos a' pos' H0 [= <- <-]. lia. Qed.
Lemma adv_fail {A} k e : advances k (@rfail A e).
Proof. done. Qed.
Lemma adv_panic {A} k : advances k (@rpanic A).
Proof. done. Qed.
Lemma adv_lift {A} (r : Result A) : advances 0 (rlift r).
Proof. destruct r; [apply adv_ret|apply adv_fail]. Qed.
Lemma adv_weak {A} k (r : reader A) : 0 <= k -> advances k r -> advances 0 r.
Proof. intros Hk H buf pos a pos' H0 E. apply H in E; [lia|done]. Qed.
Lemma adv_seq {A B} j k (r : reader A) (f : A -> reader B) :
  0 <= j -> 0 <= k -> advances j r -> (forall a, advances k (f a)) -> advances (j + k) (rseq r f).
Proof.
  intros Hj Hk Hr Hf buf pos b pos2 H0. unfold rseq. destruct (r buf pos) as [a pos1| |] eqn:E; try done.
  intros E2. apply Hr in E; [|done]. apply Hf in E2; [|lia]. lia.
Qed.
Lemma adv_seq_l {A B} (r : reader A) (f : A -> reader B) :
  advances 1 r -> (forall a, advances 0 (f a)) -> advances 1 (rseq r f).
Proof. intros. apply (adv_seq 1 0); done || lia. Qed.
Lemma adv_seq_0 {A B} (r : reader A) (f : A -> reader B) :
  advances 0 r -> (forall a, advances 0 (f a)) -> advances 0 (rseq r f).
Proof. intros. apply (adv_seq 0 0); done || lia. Qed.
Lemma adv_u8 : advances 1 read_u8.
Proof. intros buf pos a pos' H0. unfold read_u8. destruct (Z.leb_spec (len buf) pos); [done|]. intros [= <- <-]. lia. Qed.
Lemma adv_slice n : advances 0 (read_slice n).
Proof.
  intros buf pos a pos' H0. unfold read_slice. destruct (Z.ltb_spec (len buf) (wrap_u64 (pos + n))); [done|].
  destruct (Z.ltb_spec (wrap_u64 (pos + n)) pos); [done|]. intros [= <- <-]. lia.
Qed.
Lemma adv_if {A} (b : bool) k (r s : reader A) : advances k r -> advances k s -> advances k (if b then r else s).
Proof. by destruct b. Qed.

Ltac adv := repeat first
  [ apply adv_ret | apply adv_fail | apply adv_panic | apply adv_lift | apply adv_slice | apply adv_if
  | apply adv_seq_0; [|intros ?] | apply (adv_weak 1); [lia|apply adv_u8] | done ].

Lemma adv_length : advances 1 read_rdb_length.
Proof. unfold read_rdb_length. apply adv_seq_l; [apply adv_u8|]. intros b. cbv zeta. adv. Qed.
Lemma adv_str_len : advances 1 read_rdb_str_len.
Proof. unfold read_rdb_str_len. apply adv_seq_l; [apply adv_u8|]. intros b. cbv zeta. adv. Qed.
Lemma adv_string : advances 1 read_rdb_string.
Proof.
  unfold read_rdb_string. apply adv_seq_l; [apply adv_str_len|]. intros [n|n|]; [apply adv_slice|apply adv_ret|].
  apply adv_seq_0; [apply (adv_weak 1); [lia|apply adv_length]|]. intros ?.
  apply adv_seq_0; [apply (adv_weak 1); [lia|apply adv_length]|]. intros ?. adv.
Qed.
Lemma adv_node items : advances 1 (quicklist_node items).
Proof.
  unfold quicklist_node. apply adv_seq_l; [apply adv_length|]. intros c.
  apply adv_if; [|apply adv_if; [|adv]]; (apply adv_seq_0; [apply (adv_weak 1); [lia|apply adv_string]|]; intros ?; adv).
Qed.
Lemma adv_member s : advances 1 (set_member s).
Proof. unfold set_member. apply adv_seq_l; [apply adv_string|]. intros ?. adv. Qed.
Lemma adv_zset2 m : advances 1 (zset2_member m).
Proof. unfold zset2_member. apply adv_seq_l; [apply adv_string|]. intros ?. adv. Qed.

Lemma read_times_fuel {St} (turn : St -> reader St) buf f1 f2 n st pos :
  (forall st, advances 1 (turn st)) -> 0 <= pos ->
  (Z.to_nat (len buf - pos) < f1)%nat -> (Z.to_nat (len buf - pos) < f2)%nat ->
  read_times f1 n turn st buf pos = read_times f2 n turn st buf pos.
Proof.
  intros Ht. revert f2 n st pos. induction f1 as [|f1 IH]; intros f2 n st pos H0 H1 H2; [lia|].
  destruct f2 as [|f2]; [lia|]. cbn [read_times]. destruct (n <=? 0); [done|]. unfold rseq.
  destruct (turn st buf pos) as [st' pos'| |] eqn:E; [|done|done].
  apply Ht in E as [E1 E2]; [|done]. apply IH; lia.
Qed.

Lemma restore_body_fuel body f :
  (length body < f)%nat -> restore_body f body 0 = restore_body (S (length body)) body 0.
Proof.
  intros Hf. unfold restore_body.
  assert (Hrt : forall St (turn : St -> reader St) n st (g : St -> reader Value) pos, 0 <= pos ->
    (forall st, advances 1 (turn st)) ->
    rseq (read_times f n turn st) g body pos = rseq (read_times (S (length body)) n turn st) g body pos).
  { intros St turn n st g pos H0 Ht. unfold rseq at 1 2. rewrite (read_times_fuel turn body f (S (length body)));
      [done|done|done|unfold len; lia|unfold len; lia]. }
  assert (Hcong : forall A (r : reader A) (g1 g2 : A -> reader Value) pos, 0 <= pos -> advances 0 r ->
    (forall a pos, 0 <= pos -> g1 a body pos = g2 a body pos) -> rseq r g1 body pos = rseq r g2 body pos).
  { intros A r g1 g2 pos H0 Ha Hg. unfold rseq. destruct (r body pos) as [a pos'| |] eqn:E; [|done|done].
    apply Hg. apply Ha in E; [lia|done]. }
  apply Hcong; [lia|apply (adv_weak 1); [lia|apply adv_u8]|]. intros t pos H0.
  destruct (t =? RDB_TYPE_STRING); [done|]. destruct (t =? RDB_TYPE_HASH_LISTPACK); [done|].
  destruct (t =? RDB_TYPE_LIST_QUICKLIST_2).
  { apply Hcong; [done|apply (adv_weak 1); [lia|apply adv_length]|]. intros n pos' H0'. apply Hrt; [done|apply adv_node]. }
  destruct (t =? RDB_TYPE_SET_LISTPACK); [done|]. destruct (t =? RDB_TYPE_SET).
  { apply Hcong; [done|apply (adv_weak 1); [lia|apply adv_length]|]. intros n pos' H0'. apply Hrt; [done|apply adv_member]. }
  destruct (t =? RDB_TYPE_SET_INTSET); [done|]. destruct (t =? RDB_TYPE_ZSET_LISTPACK); [done|].
  destruct (t =? RDB_TYPE_ZSET_2); [|done].
  apply Hcong; [done|apply (adv_weak 1); [lia|apply adv_length]|]. intros n pos' H0'. apply Hrt; [done|apply adv_zset2].
Qed.

Lemma lzf_fuel f1 f2 input out :
  (length input < f1)%nat -> (length input < f2)%nat -> lzf_loop f1 input out = lzf_loop f2 input out.
Proof.
  revert f2 input out. induction f1 as [|f1 IH]; intros f2 input out H1 H2; [lia|]. destruct f2 as [|f2]; [lia|].
  destruct input as [|c rest]; [done|]. cbn [lzf_loop]. cbn [length] in *. destruct (b2z c <? 32).
  - destruct (len rest <? b2z c + 1); [done|]. apply IH; rewrite length_drop; lia.
  - destruct (Z.shiftr (b2z c) 5 =? 7); [destruct rest as [|x rest]|]; cbn [rbind length] in *; try done;
      (destruct rest as [|y rest]; [done|]); cbn [length] in *; (destruct (len out <? _); [done|]); apply IH; lia.
Qed.

Lemma entry_consumes buf d n : listpack_read_entry buf = Ok (d, n) -> 0 < n.
Proof.
  unfold listpack_read_entry. destruct buf as [|b buf]; [done|].
  destruct (listpack_entry_content (b :: buf)) as [[d' el]|] eqn:E; cbn [rbind]; [|done].
  destruct (_ <? _); [done|]. intros [= <- <-]. pose proof (backlen_pos el).
  assert (0 <= el); [|lia]. unfold listpack_entry_content in E.
  set (b0 := rd (b :: buf) 0) in *. assert (Hb0 : 0 <= b0 < 256) by apply rd_range.
  pose proof (rd_range (b :: buf) 1) as Hb1.
  assert (Hbe : forall l, 0 <= from_be_bytes l) by (intros l; apply from_le_bytes_range).
  repeat match type of E with
  | (if ?c then _ else _) = _ => destruct c; [|]
  | Err _ = _ => done
  | Ok _ = Ok _ => injection E as <- <-
  end; try done; rewrite ?land_3f, ?land_0f; try lia.
  - pose proof (Z.mod_pos_bound b0 64 eq_refl). lia.
  - match goal with |- context [from_be_bytes ?l] => pose proof (Hbe l) end. lia.
  - rewrite lor_shiftl by divmod. pose proof (Z.mod_pos_bound b0 16 eq_refl). lia.
Qed.

Lemma walk_fuel f1 f2 buf out :
  (length buf < f1)%nat -> (length buf < f2)%nat -> listpack_walk f1 buf out = listpack_walk f2 buf out.
Proof.
  revert f2 buf out. induction f1 as [|f1 IH]; intros f2 buf out H1 H2; [lia|]. destruct f2 as [|f2]; [lia|].
  destruct buf as [|b buf]; [done|]. cbn [listpack_walk].
  destruct (listpack_read_entry (b :: buf)) as [[d n]|] eqn:E; cbn [rbind]; [|done].
  apply entry_consumes in E. apply IH; rewrite length_drop; cbn [length] in *; lia.
Qed.

(** C39: every loop of the decoder ends within the bytes it is
    given: with any larger bound on the number of turns RESTORE, the listpack
    walk and the LZF loop answer the same, so the bounds are never what stops
    them - even for a payload that announces 2^64 elements. *)
Theorem rdb_loops_terminate body f :
  (length body < f)%nat ->
  restore_body f body 0 = restore_body (S (length body)) body 0 /\
  (forall out, listpack_walk f body out = listpack_walk (S (length body)) body out) /\
  (forall out, lzf_loop f body out = lzf_loop (S (length body)) body out).
Proof.
  intros Hf. split; [by apply restore_body_fuel|]. split; intros out; [apply walk_fuel|apply lzf_fuel]; lia.
Qed.

(** ** Concrete payloads *)

Definition sample_hash : Value := VHash [(bs "f", bs "v"); (bs "n", bs "12")].

Lemma sample_hash_dumpable : dumpable sample_hash.
Proof.
  split; [|split].
  - repeat (constructor; [repeat constructor|]). constructor.
  - repeat constructor.
  - vm_compute. reflexivity.
Qed.


Definition sample_payload : list byte := match dump_value (VString (bs "hi")) with Ok p => p | Err _ => [] end.


Lemma listpack_decode_encode_witness :
  listpack_decode (listpack_encode 3 [bs "12"; bs "abc"; []]) = Ok [bs "12"; bs "abc"; []].
Proof.
  apply (listpack_decode_encode [bs "12"; bs "abc"; []] 3); [|vm_compute; reflexivity].
  repeat (constructor; [vm_compute; reflexivity|]). constructor.
Defined.

Lemma crc64_bitwise_witness :
  crc64 0 (bs "12") = fold_left (fun c b => Nat.iter 8 crc64_bit (Z.lxor c (b2z b))) (bs "12") 0.
Proof. apply (crc64_bitwise 0 (bs "12")). split; [lia|reflexivity]. Defined.

Lemma rdb_loops_terminate_witness :
  restore_body 100 [x00; x02; x68; x69] 0 = restore_body 5 [x00; x02; x68; x69] 0.
Proof. apply (rdb_loops_terminate [x00; x02; x68; x69] 100). cbn. lia. Defined.
