(* ===== verification/Keyspace.v ===== *)
(** * Keyspace

    The operations of [impl Storage for KVStorage] (src/storage.rs) on whole
    keys: existence and type, expiry, RENAME and COPY, the keyspace walks,
    DUMP and RESTORE. *)

From S2P Require Import Prelude.
From S2P Require Import Text.
From S2P Require Import BTree.
From S2P Require Import F64.
From S2P Require Import Stream.
From S2P Require Import Value.
From S2P Require Import Hll.
From S2P Require Import Backend.
From S2P Require Import Linearizability.
From S2P Require Import Contracts.
From S2P Require Import Collections.
From S2P Require Import Strings.
From S2P Require Import Rdb.

(** ** Existence and type *)

Definition delete (key : Str) : prog kvE (Result bool) :=
  let!? e := load key in
  match e with
  | Some _ => let!? _ := trigger (KvDelete key DAny) in Ret (Ok true)
  | None => Ret (Ok false)
  end.

Definition exists_ (key : Str) : prog kvE (Result bool) :=
  let!? e := load key in Ret (Ok (match e with Some _ => true | None => false end)).

Definition kind (key : Str) : prog kvE (Result (option Str)) :=
  let!? e := load key in Ret (Ok (option_map (fun v => value_kind (value v)) e)).

(** [to_vec] is [serde_json::to_vec] at [Value]. *)
Definition mem_usage (to_vec : Value -> Result (list byte)) (key : Str) : prog kvE (Result (option Z)) :=
  let!? e := load key in
  match e with
  | None => Ret (Ok None)
  | Some entry =>
      match to_vec (value entry) with
      | Err err => Ret (Err err)
      | Ok serialized => Ret (Ok (Some (len_i64 serialized)))
      end
  end.

(** ** Expiry *)

Definition expire_at_mod (t : Z) (entry : option StoredValue) : Result (CasAction bool) :=
  match entry with
  | None => Ok (NoOp false)
  | Some existing => Ok (Write (mk_entry (Some t) (value existing)) true)
  end.
Definition expire_at (key : Str) (t : Z) : prog kvE (Result bool) := cas key (pure_mod (expire_at_mod t)).

Definition ttl_ms (key : Str) : prog kvE (Result TtlResult) :=
  let!? e := load key in
  match e with
  | None => Ret (Ok NoKey)
  | Some v =>
      match expires_at_ms v with
      | None => Ret (Ok NoExpire)
      | Some exp => let! now := trigger KvNowMs in Ret (Ok (Ms (Z.max (wrap_i64 (exp - now)) 0)))
      end
  end.

Definition expire_time_ms (key : Str) : prog kvE (Result TtlResult) :=
  let!? e := load key in
  match e with
  | None => Ret (Ok NoKey)
  | Some v => Ret (Ok (match expires_at_ms v with None => NoExpire | Some exp => Ms exp end))
  end.

Definition persist_mod (entry : option StoredValue) : Result (CasAction bool) :=
  match entry with
  | Some {| expires_at_ms := Some _; value := v |} => Ok (Write (mk_entry None v) true)
  | _ => Ok (NoOp false)
  end.
Definition persist (key : Str) : prog kvE (Result bool) := cas key (pure_mod persist_mod).

(** ** RENAME, RENAMENX, COPY: two keys, three backend calls *)

Definition no_such_key : RustyAntError := Parse "no such key".

Definition rename (from to : Str) : prog kvE (Result unit) :=
  let!? e := load from in
  match e with
  | None => Ret (Err no_such_key)
  | Some entry =>
      if str_eqb from to then Ret (Ok tt)
      else
        let!? dest := trigger (KvLoad to) in
        let cond := match dest with None => CreateOnly | Some (_, etag) => IfMatch etag end in
        let!? _ := trigger (KvSave to entry cond) in
        let!? _ := trigger (KvDelete from DAny) in
        Ret (Ok tt)
  end.

Definition renamenx (from to : Str) : prog kvE (Result bool) :=
  let!? e := load from in
  match e with
  | None => Ret (Err no_such_key)
  | Some entry =>
      if str_eqb from to then Ret (Ok false)
      else
        let!? dest := load to in
        match dest with
        | Some _ => Ret (Ok false)
        | None =>
            let! s := trigger (KvSave to entry CreateOnly) in
            match s with
            | Ok _ => let!? _ := trigger (KvDelete from DAny) in Ret (Ok true)
            | Err Contention => Ret (Ok false)
            | Err e => Ret (Err e)
            end
        end
  end.

Definition copy (from to : Str) (replace : bool) : prog kvE (Result bool) :=
  if str_eqb from to then Ret (Ok false)
  else
    let!? e := load from in
    match e with
    | None => Ret (Ok false)
    | Some entry =>
        let!? dest := trigger (KvLoad to) in
        match dest, replace with
        | Some _, false => Ret (Ok false)
        | _, _ =>
            let cond := match dest with Some (_, etag) => IfMatch etag | None => CreateOnly end in
            let! s := trigger (KvSave to entry cond) in
            match s with
            | Ok _ => Ret (Ok true)
            | Err Contention => Ret (Ok false)
            | Err e => Ret (Err e)
            end
        end
    end.

(** ** Walking the keyspace *)

Section walks.
(** [wildmatch::WildMatch::new(p).matches(s)]: a crate the code only calls. *)
Variable matches : Str -> Str -> bool.

Fixpoint keys_walk (fuel : nat) (pattern : Str) (cursor : option Str) (out : list Str)
    : prog kvE (option (Result (list Str))) :=
  match fuel with
  | O => Ret None
  | S f =>
      let! page := trigger (KvListPage cursor 1000) in
      match page with
      | Err e => Ret (Some (Err e))
      | Ok page =>
          let out := out ++ List.filter (matches pattern) (lp_keys page) in
          match lp_next_cursor page with
          | Some next => keys_walk f pattern (Some next) out
          | None => Ret (Some (Ok out))
          end
      end
  end.
Definition keys (fuel : nat) (pattern : Str) : prog kvE (option (Result (list Str))) :=
  keys_walk fuel pattern None [].

Definition scan (cursor : option Str) (pattern : option Str) (count : Z)
    : prog kvE (Result (list Str * option Str)) :=
  let!? page := trigger (KvListPage cursor count) in
  let matched := match pattern with
                 | Some p => List.filter (matches p) (lp_keys page)
                 | None => lp_keys page
                 end in
  Ret (Ok (matched, lp_next_cursor page)).

(** A client that follows the cursors of SCAN from the start. *)
Fixpoint scan_client (fuel : nat) (cursor : option Str) (pattern : option Str) (count : Z)
    : prog kvE (option (Result (list Str))) :=
  match fuel with
  | O => Ret None
  | S f =>
      let! r := scan cursor pattern count in
      match r with
      | Err e => Ret (Some (Err e))
      | Ok (ks, None) => Ret (Some (Ok ks))
      | Ok (ks, Some c) =>
          let! rest := scan_client f (Some c) pattern count in
          Ret (option_map (rmap (app ks)) rest)
      end
  end.

Definition random_key (fuel : nat) : prog kvE (option (Result (option Str))) :=
  let! all := keys fuel (bs "*") in
  match all with
  | None => Ret None
  | Some (Err e) => Ret (Some (Err e))
  | Some (Ok []) => Ret (Some (Ok None))
  | Some (Ok all) =>
      let! r := pseudo_rand_u64 in
      Ret (Some (Ok (all !! Z.to_nat (r mod len all))))
  end.
End walks.

Definition dbsize (fuel : nat) : prog kvE (option (Result Z)) := count_keys fuel.

Definition keyspace_stats (fuel : nat) : prog kvE (option (Result KeyspaceStats)) :=
  let! n := dbsize fuel in
  Ret (option_map (rmap (fun n => {| total_keys := n; keys_with_expire := 0 |})) n).

Definition flushall : prog kvE (Result unit) := trigger KvFlushAll.

(** ** DUMP and RESTORE *)

Definition dump (key : Str) : prog kvE (Result (option (list byte))) :=
  let!? e := load key in
  match e with
  | None => Ret (Ok None)
  | Some entry => match dump_value (value entry) with
                  | Ok p => Ret (Ok (Some p))
                  | Err err => Ret (Err err)
                  end
  end.

Definition busykey : RustyAntError := Parse "BUSYKEY Target key name already exists.".

(** [None]: the payload decoder panics. *)
Definition restore (key : Str) (payload : list byte) (ttl : Z) (replace abs_ttl : bool)
    : prog kvE (option (Result unit)) :=
  match restore_value payload with
  | None => Ret None
  | Some (Err e) => Ret (Some (Err e))
  | Some (Ok v) =>
      let! expires_at :=
        (if ttl =? 0 then Ret None
         else if abs_ttl then Ret (Some ttl)
         else let! now := trigger KvNowMs in Ret (Some (saturating_add_i64 now ttl))) in
      let new_entry := mk_entry expires_at v in
      if replace then
        let! s := trigger (KvSave key new_entry WAny) in
        Ret (Some (let? _ := s in Ok tt))
      else
        let! s := trigger (KvSave key new_entry CreateOnly) in
        match s with
        | Ok _ => Ret (Some (Ok tt))
        | Err Contention => Ret (Some (Err busykey))
        | Err e => Ret (Some (Err e))
        end
  end.

(** ** Sequential semantics of the two-key commands *)

Lemma str_eqb_spec a b : str_eqb a b = bool_decide (a = b).
Proof. done. Qed.

Lemma gc_lookup_live key w :
  match store (gc key w) !! key with
  | Some (e, _) => live w key = Some e
  | None => live w key = None
  end.
Proof.
  rewrite <- gc_live_lookup. by destruct (store (gc key w) !! key) as [[e v]|].
Qed.

Lemma gc_lookup_ne key k2 w : key <> k2 -> store (gc key w) !! k2 = store w !! k2.
Proof.
  intros Hne. unfold gc. destruct (store w !! key) as [[e v]|]; [|done].
  destruct (is_expired _ e); [|done]. cbn. by rewrite lookup_delete_ne.
Qed.

(** Saving under the condition a load of the same key yields always succeeds
    when nobody else writes in between. *)
Definition load_cond (w : world) (key : Str) : WriteCondition :=
  match store w !! key with Some (_, v) => IfMatch (tok v) | None => CreateOnly end.

Lemma kv_save_load_cond key e w : kv_save key e (load_cond w key) w = (Ok tt, put key e w).
Proof.
  unfold kv_save, load_cond. destruct (store w !! key) as [[e' v]|]; [|done].
  by rewrite bool_decide_true.
Qed.

Definition rename_effect (from to : Str) (e : StoredValue) (w : world) : world :=
  remove from (put to e (gc to (gc from w))).

Lemma run_rename from to w :
  run (rename from to) w =
    match live w from with
    | None => (Err no_such_key, gc from w)
    | Some e => if decide (from = to) then (Ok tt, gc from w) else (Ok tt, rename_effect from to e w)
    end.
Proof.
  unfold rename. autorewrite with kv. destruct (live w from) as [e|]; [|done].
  rewrite str_eqb_spec. destruct (decide (from = to)) as [->|Hne]; [by rewrite bool_decide_true|].
  rewrite bool_decide_false by done. rewrite run_bind. cbn [trigger run handle].
  rewrite kv_load_spec. cbn [run]. rewrite run_bind.
  pose proof (kv_save_load_cond to e (gc to (gc from w))) as Hs. unfold load_cond in Hs.
  destruct (store (gc to (gc from w)) !! to) as [[e2 v2]|]; cbn [trigger run handle];
    rewrite Hs; cbn [run trigger handle pbind kv_delete]; done.
Qed.

Lemma run_renamenx from to w :
  run (renamenx from to) w =
    match live w from with
    | None => (Err no_such_key, gc from w)
    | Some e =>
        if decide (from = to) then (Ok false, gc from w)
        else match live w to with
             | Some _ => (Ok false, gc to (gc from w))
             | None => (Ok true, rename_effect from to e w)
             end
    end.
Proof.
  unfold renamenx. autorewrite with kv. destruct (live w from) as [e|]; [|done].
  rewrite str_eqb_spec. destruct (decide (from = to)) as [->|Hne]; [by rewrite bool_decide_true|].
  rewrite bool_decide_false by done. autorewrite with kv.
  destruct (live w to) as [e2|] eqn:E; [done|]. rewrite run_bind. cbn [trigger run handle].
  pose proof (gc_lookup_live to (gc from w)) as Hg. rewrite live_gc_any, E in Hg.
  unfold kv_save. destruct (store (gc to (gc from w)) !! to) as [[e3 v3]|]; [done|].
  done.
Qed.

Lemma run_copy from to replace w :
  from <> to ->
  run (copy from to replace) w =
    match live w from with
    | None => (Ok false, gc from w)
    | Some e =>
        if negb replace && bool_decide (is_Some (live w to)) then (Ok false, gc to (gc from w))
        else (Ok true, put to e (gc to (gc from w)))
    end.
Proof.
  intros Hne. unfold copy. rewrite str_eqb_spec, bool_decide_false by done. autorewrite with kv.
  destruct (live w from) as [e|]; [|done]. rewrite run_bind. cbn [trigger run handle].
  rewrite kv_load_spec. cbn [run].
  pose proof (gc_lookup_live to (gc from w)) as Hg. rewrite live_gc_any in Hg.
  pose proof (kv_save_load_cond to e (gc to (gc from w))) as Hs. unfold load_cond in Hs.
  destruct (store (gc to (gc from w)) !! to) as [[e2 v2]|]; rewrite Hg.
  - rewrite (bool_decide_true (is_Some (Some e2))) by eauto. destruct replace; [|done].
    cbn [negb andb]. rewrite run_bind. cbn [trigger run handle]. by rewrite Hs.
  - rewrite (bool_decide_false (is_Some None)) by (by intros [? ?]). rewrite andb_false_r.
    destruct replace; rewrite run_bind; cbn [trigger run handle]; by rewrite Hs.
Qed.

Lemma live_rename_effect from to e w k :
  live w from = Some e -> from <> to ->
  live (rename_effect from to e w) k =
    if decide (k = from) then None else if decide (k = to) then Some e else live w k.
Proof.
  intros He Hne. unfold rename_effect. destruct (decide (k = from)) as [->|Hf].
  { by rewrite live_remove_eq. }
  rewrite live_remove_ne by done. destruct (decide (k = to)) as [->|Ht].
  - rewrite live_put_eq. rewrite !clock_gc. by rewrite (live_not_expired _ _ _ He).
  - rewrite live_put_ne by done. by rewrite !live_gc_any.
Qed.

(** RENAME moves the value with its TTL, replacing the destination
    whatever it held; the source is gone and every other key is untouched.  A
    missing or expired source is an error and changes nothing a client can see,
    and renaming a key to itself is a no-op.  RENAMENX does the same when the
    destination is free and refuses otherwise. *)
Theorem rename_spec from to w :
  from <> to ->
  let '(r, w1) := run (rename from to) w in
  let '(r', w2) := run (renamenx from to) w in
  (forall e, live w from = Some e ->
     r = Ok tt /\
     (forall k, live w1 k = if decide (k = from) then None else if decide (k = to) then Some e else live w k) /\
     r' = Ok (bool_decide (live w to = None)) /\
     (forall k, live w2 k = if decide (live w to = None) then live w1 k else live w k)) /\
  (live w from = None ->
     r = Err no_such_key /\ r' = Err no_such_key /\
     (forall k, live w1 k = live w k /\ live w2 k = live w k)).
Proof.
  intros Hne. rewrite run_rename, run_renamenx. destruct (live w from) as [e|] eqn:He.
  - rewrite !decide_False by done.
    destruct (live w to) as [e2|] eqn:Ht; (split; [|done]); intros e' [= <-]; (split; [done|]);
      (split; [intros k; by apply live_rename_effect|]); (split; [done|]); intros k; cbn.
    + by rewrite !live_gc_any.
    + by rewrite decide_True.
  - split; [done|]. intros _. split; [done|]. split; [done|]. intros k. by rewrite !live_gc_any.
Qed.

(** COPY duplicates value and TTL onto the destination and leaves the
    source and every other key alone.  It refuses a missing source, a source
    equal to the destination, and without REPLACE a live destination. *)
Theorem copy_spec from to replace w :
  let '(r, w') := run (copy from to replace) w in
  exists b, r = Ok b /\
    b = (bool_decide (from <> to) && bool_decide (is_Some (live w from)) &&
         (replace || bool_decide (live w to = None))) /\
    (forall k, live w' k = if b && bool_decide (k = to) then live w from else live w k).
Proof.
  destruct (decide (from = to)) as [->|Hne].
  { unfold copy. rewrite str_eqb_spec, bool_decide_true by done. exists false. split; [done|].
    rewrite (bool_decide_false (to <> to)) by tauto. done. }
  rewrite run_copy by done. rewrite (bool_decide_true (from <> to)) by done.
  destruct (live w from) as [e|] eqn:He.
  2: { exists false. rewrite (bool_decide_false (is_Some None)) by (by intros [? ?]).
       split; [done|]. split; [done|]. intros k. by rewrite live_gc_any. }
  rewrite (bool_decide_true (is_Some (Some e))) by eauto.
  assert (Hput : forall k, live (put to e (gc to (gc from w))) k = if bool_decide (k = to) then Some e else live w k).
  { intros k. case_bool_decide as Hk.
    - subst k. rewrite live_put_eq, !clock_gc. by rewrite (live_not_expired _ _ _ He).
    - rewrite live_put_ne by done. by rewrite !live_gc_any. }
  destruct (live w to) as [e2|] eqn:Ht.
  - rewrite (bool_decide_true (is_Some (Some e2))) by eauto. destruct replace; cbn [negb andb orb].
    + by exists true.
    + exists false. split; [done|]. split; [done|]. intros k. by rewrite !live_gc_any.
  - rewrite (bool_decide_false (is_Some None)) by (by intros [? ?]). rewrite andb_false_r.
    exists true. split; [done|]. split; [by rewrite (bool_decide_true (None = None)), orb_true_r|]. done.
Qed.

(** ** Expiry *)

Lemma run_expire_at key t w :
  run (expire_at key t) w =
    match live w key with
    | Some e => (Ok true, put key (mk_entry (Some t) (value e)) (gc key w))
    | None => (Ok false, gc key w)
    end.
Proof.
  unfold expire_at. rewrite run_cas. unfold atomic_update. rewrite live_gc.
  by destruct (live w key).
Qed.

Lemma run_persist key w :
  run (persist key) w =
    match live w key with
    | Some e => match expires_at_ms e with
                | Some _ => (Ok true, put key (mk_entry None (value e)) (gc key w))
                | None => (Ok false, gc key w)
                end
    | None => (Ok false, gc key w)
    end.
Proof.
  unfold persist. rewrite run_cas. unfold atomic_update. rewrite live_gc.
  by destruct (live w key) as [[[exp|] v]|].
Qed.

Lemma run_ttl_ms key w :
  fst (run (ttl_ms key) w) = Ok
    match live w key with
    | None => NoKey
    | Some e => match expires_at_ms e with
                | None => NoExpire
                | Some exp => Ms (Z.max (wrap_i64 (exp - clock_ms w)) 0)
                end
    end.
Proof.
  unfold ttl_ms. autorewrite with kv. destruct (live w key) as [[[exp|] v]|]; [|done|done].
  cbn [expires_at_ms]. autorewrite with kv. cbn [trigger run handle fst]. by rewrite clock_gc.
Qed.

Lemma run_expire_time_ms key w :
  fst (run (expire_time_ms key) w) = Ok
    match live w key with
    | None => NoKey
    | Some e => match expires_at_ms e with None => NoExpire | Some exp => Ms exp end
    end.
Proof. unfold expire_time_ms. autorewrite with kv. by destruct (live w key) as [[[exp|] v]|]. Qed.

(** EXPIREAT on a live key sets exactly its TTL: TTL then answers the
    time left and EXPIRETIME the deadline, PERSIST takes the TTL off again and
    gives back the same value, and a deadline not in the future makes the key
    disappear at once.  Other keys are untouched. *)
Theorem expire_spec key t e w :
  live w key = Some e -> 0 <= clock_ms w -> t <= i64_max ->
  let '(r, w1) := run (expire_at key t) w in
  r = Ok true /\ (forall k, k <> key -> live w1 k = live w k) /\
  if clock_ms w <? t then
    live w1 key = Some (mk_entry (Some t) (value e)) /\
    fst (run (ttl_ms key) w1) = Ok (Ms (t - clock_ms w)) /\
    fst (run (expire_time_ms key) w1) = Ok (Ms t) /\
    let '(r2, w2) := run (persist key) w1 in
    r2 = Ok true /\ live w2 key = Some (mk_entry None (value e)) /\
    fst (run (ttl_ms key) w2) = Ok NoExpire
  else
    live w1 key = None /\ fst (run (ttl_ms key) w1) = Ok NoKey /\ fst (run (persist key) w1) = Ok false.
Proof.
  intros He Hc Ht. rewrite run_expire_at, He. split; [done|]. split.
  { intros k Hk. by rewrite live_put_ne, live_gc_any by done. }
  set (w1 := put key _ _).
  assert (Hl : live w1 key = if clock_ms w <? t then Some (mk_entry (Some t) (value e)) else None).
  { unfold w1. rewrite live_put_eq, clock_gc. unfold is_expired. cbn.
    destruct (Z.leb_spec t (clock_ms w)), (Z.ltb_spec (clock_ms w) t); lia || done. }
  assert (Hcl : clock_ms w1 = clock_ms w) by (unfold w1; by rewrite clock_put, clock_gc).
  rewrite run_ttl_ms, run_expire_time_ms, run_persist, Hl, Hcl. destruct (Z.ltb_spec (clock_ms w) t); [|done].
  cbn [mk_entry expires_at_ms value]. split; [done|]. split.
  { do 2 f_equal. unfold wrap_i64. rewrite wrap_i_small by (unfold i64_max in *; lia). lia. }
  split; [done|]. split; [done|].
  match goal with |- live ?w2 _ = _ /\ _ => assert (Hl2 : live w2 key = Some (mk_entry None (value e))) by (by rewrite live_put_eq) end.
  split; [done|]. by rewrite run_ttl_ms, Hl2.
Qed.

(** ** Complete walks *)

Lemma bt_wf_sorted {V} (m : btree Str V) : bt_wf m -> StronglySorted klt (bt_keys m).
Proof. induction 1 as [|k v m Hf _ IH]; cbn; constructor; [done|]. by apply List.Forall_map. Qed.

Lemma sorted_keys_strict w : StronglySorted klt (sorted_keys w).
Proof. apply bt_wf_sorted, bt_wf_bs_collect. Qed.

Lemma sorted_keys_spec w k : In k (sorted_keys w) <-> is_Some (store w !! k).
Proof.
  unfold sorted_keys, bs_elems. rewrite <- (bt_contains_In _ k (bt_wf_bs_collect _)), bs_contains_collect.
  rewrite in_map_iff. split.
  - intros ([k' v] & <- & Hin). apply list_elem_of_In, elem_of_map_to_list in Hin. eauto.
  - intros [v Hv]. exists (k, v). split; [done|]. by apply list_elem_of_In, elem_of_map_to_list.
Qed.

(** The keys after the last one of a prefix are the rest. *)
Lemma after_cursor_last (ks : list Str) n c :
  StronglySorted klt ks -> last (take n ks) = Some c -> after_cursor (Some c) ks = drop n ks.
Proof.
  intros Hs Hl. apply last_Some in Hl as [l' Hl'].
  rewrite <- (take_drop n ks) in Hs at 1. unfold after_cursor. rewrite <- (take_drop n ks) at 1.
  rewrite Hl' in *. clear Hl'. revert Hs. induction l' as [|x l' IH]; cbn [app List.filter]; intros Hs.
  - assert (kltb c c = false) as -> by (destruct (kltb c c) eqn:E; [by apply kltb_lt, klt_irrefl in E|done]).
    apply StronglySorted_inv in Hs as [_ Hf]. induction Hf as [|y l Hy Hf IH]; cbn; [done|].
    apply kltb_lt in Hy. by rewrite Hy, IH.
  - apply StronglySorted_inv in Hs as [Hs Hf].
    assert (Hx : klt x c).
    { eapply List.Forall_forall in Hf; [done|]. rewrite !in_app_iff. left. right. by left. }
    assert (kltb c x = false) as ->; [|by apply IH].
    destruct (kltb c x) eqn:E; [|done]. apply kltb_lt in E.
    exfalso. by apply (klt_irrefl x), (kcmp_trans x c x).
Qed.

Lemma list_page_at w max_keys m cursor :
  0 < max_keys -> after_cursor cursor (sorted_keys w) = drop m (sorted_keys w) ->
  let n := Z.to_nat max_keys in
  exists next,
    kv_list_page cursor max_keys w =
      (Ok {| lp_keys := take n (drop m (sorted_keys w)); lp_next_cursor := next |}, w) /\
    match next with
    | None => drop (m + n) (sorted_keys w) = []
    | Some c => after_cursor (Some c) (sorted_keys w) = drop (m + n) (sorted_keys w) /\
                drop (m + n) (sorted_keys w) <> []
    end.
Proof.
  intros Hmax Hc. cbv zeta. set (n := Z.to_nat max_keys). unfold kv_list_page. rewrite Hc. fold n.
  set (ks := sorted_keys w). eexists. split; [reflexivity|]. rewrite <- drop_drop.
  destruct (Z.leb_spec (len (drop m ks)) max_keys) as [Hle|Hgt].
  { apply drop_ge. unfold len, n in *. lia. }
  assert (Hne : drop n (drop m ks) <> []).
  { intros E. apply (f_equal length) in E. rewrite length_drop in E. cbn in E. unfold len, n in *. lia. }
  destruct (last (take n (drop m ks))) as [c|] eqn:El.
  - split; [|done]. rewrite drop_drop. apply after_cursor_last; [apply sorted_keys_strict|].
    apply last_Some in El as [l' El]. apply last_Some. exists (take m ks ++ l').
    rewrite <- app_assoc, <- El. symmetry. apply take_take_drop.
  - apply last_None in El. apply (f_equal length) in El. rewrite length_take in El. cbn in El.
    unfold len, n in *. lia.
Qed.

Lemma len_drop {A} (l : list A) n : len (drop n l) = Z.max 0 (len l - Z.of_nat n).
Proof. unfold len. rewrite length_drop. lia. Qed.

Lemma filter_take_drop {A} (f : A -> bool) n l :
  List.filter f (take n l) ++ List.filter f (drop n l) = List.filter f l.
Proof. by rewrite <- List.filter_app, take_drop. Qed.

Lemma keys_walk_from matches pattern fuel w m cursor out :
  after_cursor cursor (sorted_keys w) = drop m (sorted_keys w) ->
  (0 < fuel)%nat -> len (drop m (sorted_keys w)) <= 1000 * Z.of_nat fuel ->
  run (keys_walk matches fuel pattern cursor out) w =
    (Some (Ok (out ++ List.filter (matches pattern) (drop m (sorted_keys w)))), w).
Proof.
  revert m cursor out. induction fuel as [|f IH]; intros m cursor out Hc Hf Hl; [lia|].
  cbn [keys_walk]. rewrite run_bind. cbn [trigger run handle].
  destruct (list_page_at w 1000 m cursor eq_refl Hc) as (next & -> & Hn). cbn [run lp_keys lp_next_cursor].
  change (Z.to_nat 1000) with 1000%nat in *.
  rewrite <- (filter_take_drop _ 1000 (drop m (sorted_keys w))), drop_drop.
  destruct next as [c|].
  - destruct Hn as [Hc2 Hne]. rewrite len_drop in Hl.
    assert (0 < len (drop (m + 1000) (sorted_keys w))) as Hpos.
    { destruct (drop (m + 1000) (sorted_keys w)); [done|]. unfold len. cbn. lia. }
    rewrite len_drop in Hpos. rewrite (IH (m + 1000)%nat) by (done || rewrite ?len_drop; lia).
    by rewrite app_assoc.
  - cbn [run]. by rewrite Hn, app_nil_r.
Qed.

(** KEYS visits every stored key exactly once, whatever the number of
    pages: with fuel for one page per thousand keys the walk ends, and its
    answer is the sorted key list filtered by the pattern. *)
Theorem keys_complete matches pattern fuel w :
  (0 < fuel)%nat -> len (sorted_keys w) <= 1000 * Z.of_nat fuel ->
  run (keys matches fuel pattern) w = (Some (Ok (List.filter (matches pattern) (sorted_keys w))), w) /\
  NoDup (sorted_keys w) /\ (forall k, In k (sorted_keys w) <-> is_Some (store w !! k)).
Proof.
  intros Hf Hl. split; [by apply (keys_walk_from matches pattern fuel w 0%nat)|].
  split; [apply bt_wf_NoDup, bt_wf_bs_collect|apply sorted_keys_spec].
Qed.

Lemma len_i64_small {A} (l : list A) : len l <= i64_max -> len_i64 l = len l.
Proof. intros H. unfold len_i64, i64_of_usize. by rewrite (proj2 (Z.leb_le _ _)). Qed.

Lemma len_take_drop {A} (l : list A) n : len (take n l) + len (drop n l) = len l.
Proof. rewrite <- len_app. by rewrite take_drop. Qed.

Lemma count_keys_walk_from fuel w m cursor count :
  after_cursor cursor (sorted_keys w) = drop m (sorted_keys w) ->
  (0 < fuel)%nat -> len (drop m (sorted_keys w)) <= 1000 * Z.of_nat fuel ->
  0 <= count -> count + len (drop m (sorted_keys w)) <= i64_max ->
  run (count_keys_walk fuel cursor count) w = (Some (Ok (count + len (drop m (sorted_keys w)))), w).
Proof.
  revert m cursor count. induction fuel as [|f IH]; intros m cursor count Hc Hf Hl H0 Hmax; [lia|].
  cbn [count_keys_walk]. rewrite run_bind. cbn [trigger run handle].
  destruct (list_page_at w 1000 m cursor eq_refl Hc) as (next & -> & Hn). cbn [run lp_keys lp_next_cursor].
  change (Z.to_nat 1000) with 1000%nat in *. set (d := drop m (sorted_keys w)) in *.
  pose proof (len_take_drop d 1000) as Hlen. pose proof (len_nonneg (take 1000 d)). pose proof (len_nonneg (drop 1000 d)).
  assert (Hd : drop (m + 1000) (sorted_keys w) = drop 1000 d) by (unfold d; by rewrite drop_drop).
  rewrite Hd in Hn. rewrite len_i64_small by lia.
  assert (Hs : saturating_add_i64 count (len (take 1000 d)) = count + len (take 1000 d)).
  { unfold saturating_add_i64, i64_min, i64_max in *. lia. }
  rewrite Hs. destruct next as [c|].
  - destruct Hn as [Hc2 Hne]. assert (0 < len (drop 1000 d)) as Hpos.
    { destruct (drop 1000 d); [done|]. unfold len. cbn. lia. }
    assert (Hdl : len (drop 1000 d) = len d - 1000) by (rewrite len_drop in *; lia).
    rewrite (IH (m + 1000)%nat) by (rewrite ?Hd; done || lia). rewrite Hd, <- Hlen. by rewrite Z.add_assoc.
  - cbn [run]. rewrite Hn in Hlen. rewrite <- Hlen. by rewrite len_nil, Z.add_0_r.
Qed.

Lemma scan_client_from matches pattern count fuel w m cursor :
  0 < count -> after_cursor cursor (sorted_keys w) = drop m (sorted_keys w) ->
  (0 < fuel)%nat -> len (drop m (sorted_keys w)) <= count * Z.of_nat fuel ->
  run (scan_client matches fuel cursor pattern count) w =
    (Some (Ok (List.filter (fun k => match pattern with Some p => matches p k | None => true end)
                           (drop m (sorted_keys w)))), w).
Proof.
  intros Hcount. revert m cursor. induction fuel as [|f IH]; intros m cursor Hc Hf Hl; [lia|].
  cbn [scan_client]. unfold scan. rewrite !run_bind. cbn [trigger run handle].
  destruct (list_page_at w count m cursor Hcount Hc) as (next & -> & Hn). cbn [run lp_keys lp_next_cursor].
  set (n := Z.to_nat count) in *. set (flt := fun k => match pattern with Some p => matches p k | None => true end).
  assert (Hpage : forall l, match pattern with Some p => List.filter (matches p) l | None => l end = List.filter flt l).
  { intros l. unfold flt. destruct pattern; [done|]. induction l; cbn; congruence. }
  rewrite Hpage. rewrite <- (filter_take_drop flt n (drop m (sorted_keys w))), drop_drop.
  destruct next as [c|].
  - destruct Hn as [Hc2 Hne]. rewrite len_drop in Hl.
    assert (0 < len (drop (m + n) (sorted_keys w))) as Hpos.
    { destruct (drop (m + n) (sorted_keys w)); [done|]. unfold len. cbn. lia. }
    rewrite len_drop in Hpos. rewrite run_bind.
    rewrite (IH (m + n)%nat) by (done || rewrite ?len_drop; unfold n in *; nia). done.
  - cbn [run]. by rewrite Hn, app_nil_r.
Qed.

(** A client that follows SCAN's cursors, with any COUNT of at
    least 1 and any MATCH pattern, terminates and sees every stored matching key
    exactly once; DBSIZE and INFO's keyspace count are the number of those keys. *)
Theorem keyspace_scan_complete matches pattern count fuel fuel2 w :
  0 < count -> (0 < fuel)%nat -> len (sorted_keys w) <= count * Z.of_nat fuel ->
  (0 < fuel2)%nat -> len (sorted_keys w) <= 1000 * Z.of_nat fuel2 -> len (sorted_keys w) <= i64_max ->
  run (scan_client matches fuel None pattern count) w =
    (Some (Ok (List.filter (fun k => match pattern with Some p => matches p k | None => true end)
                           (sorted_keys w))), w) /\
  run (dbsize fuel2) w = (Some (Ok (len (sorted_keys w))), w) /\
  run (keyspace_stats fuel2) w =
    (Some (Ok {| total_keys := len (sorted_keys w); keys_with_expire := 0 |}), w).
Proof.
  intros. assert (Hn : run (dbsize fuel2) w = (Some (Ok (len (sorted_keys w))), w)).
  { by apply (count_keys_walk_from fuel2 w 0%nat). }
  split; [by apply (scan_client_from matches pattern count fuel w 0%nat)|]. split; [done|].
  unfold keyspace_stats. by rewrite run_bind, Hn.
Qed.

(** RANDOMKEY answers a stored key, and none only when the
    keyspace is empty. *)
Theorem random_key_spec matches fuel w :
  (forall k, matches (bs "*") k = true) -> (0 < fuel)%nat -> len (sorted_keys w) <= 1000 * Z.of_nat fuel ->
  exists r, run (random_key matches fuel) w = (Some (Ok r), w) /\
    match r with Some k => is_Some (store w !! k) | None => store w = ∅ end.
Proof.
  intros Hm Hf Hl. unfold random_key. rewrite run_bind. unfold keys.
  rewrite (keys_walk_from matches (bs "*") fuel w 0%nat) by done. rewrite drop_0. cbn [app].
  assert (Hall : List.filter (matches (bs "*")) (sorted_keys w) = sorted_keys w).
  { rewrite (List.filter_ext _ (fun _ => true)) by auto. clear. by induction (sorted_keys w) as [|k l IH]; cbn; [|rewrite IH]. }
  rewrite Hall. destruct (sorted_keys w) as [|k0 ks] eqn:E.
  - eexists. split; [reflexivity|]. apply map_eq. intros k. rewrite lookup_empty.
    destruct (store w !! k) eqn:Ek; [|done]. assert (In k (sorted_keys w)) as Hin by (by apply sorted_keys_spec).
    by rewrite E in Hin.
  - rewrite <- E in *. eexists. split; [reflexivity|]. cbn.
    match goal with |- match ?o with _ => _ end => destruct o as [k|] eqn:Ek end.
    + apply sorted_keys_spec. apply list_elem_of_lookup_2 in Ek. by apply list_elem_of_In.
    + apply lookup_ge_None in Ek. exfalso.
      assert (0 < len (sorted_keys w)) by (rewrite E; unfold len; cbn; lia).
      match goal with _ : (_ <= Z.to_nat (?a mod _))%nat |- _ => pose proof (Z.mod_pos_bound a (len (sorted_keys w)) ltac:(lia)) end.
      unfold len in *. lia.
Qed.

(** ** DUMP and RESTORE through the store *)

(** The deadline RESTORE stamps. *)
Definition restore_deadline (now ttl : Z) (abs_ttl : bool) : option Z :=
  if ttl =? 0 then None else if abs_ttl then Some ttl else Some (saturating_add_i64 now ttl).

Lemma run_restore key payload ttl replace abs_ttl w :
  run (restore key payload ttl replace abs_ttl) w =
    match restore_value payload with
    | None => (None, w)
    | Some (Err e) => (Some (Err e), w)
    | Some (Ok v) =>
        if replace || bool_decide (store w !! key = None)
        then (Some (Ok tt), put key (mk_entry (restore_deadline (clock_ms w) ttl abs_ttl) v) w)
        else (Some (Err busykey), w)
    end.
Proof.
  unfold restore, restore_deadline. destruct (restore_value payload) as [[v|e]|]; [|done|done].
  assert (H : forall d, run (if replace then
        let! s := trigger (KvSave key (mk_entry d v) WAny) in Ret (Some (let? _ := s in Ok tt))
      else
        let! s := trigger (KvSave key (mk_entry d v) CreateOnly) in
        match s with
        | Ok _ => Ret (Some (Ok tt))
        | Err Contention => Ret (Some (Err busykey))
        | Err e => Ret (Some (Err e))
        end) w =
    if replace || bool_decide (store w !! key = None) then (Some (Ok tt), put key (mk_entry d v) w)
    else (Some (Err busykey), w)).
  { intros d. destruct replace; cbn [orb]; rewrite run_bind; cbn [trigger run handle]; unfold kv_save; [done|].
    by destruct (store w !! key). }
  destruct (ttl =? 0), abs_ttl; apply H.
Qed.

(** DUMP of one key and RESTORE to another puts an equal value
    there - for every kind but streams - under exactly the requested deadline,
    without touching any other key. *)
Theorem dump_restore_copies from to e p ttl abs_ttl w :
  live w from = Some e -> dumpable (value e) -> dump_value (value e) = Ok p -> len p <= i64_max ->
  run (dump from) w = (Ok (Some p), gc from w) /\
  let '(r, w') := run (restore to p ttl true abs_ttl) (gc from w) in
  r = Some (Ok tt) /\
  option_map fst (store w' !! to) = Some (mk_entry (restore_deadline (clock_ms w) ttl abs_ttl) (value e)) /\
  (forall k, k <> to -> live w' k = live w k).
Proof.
  intros He Hd Hp Hl. split.
  { unfold dump. autorewrite with kv. by rewrite He, Hp. }
  rewrite run_restore, (restore_dump_value (value e)) by done. cbn [orb]. rewrite clock_gc.
  split; [done|]. split; [cbn; by rewrite lookup_insert_eq|].
  intros k Hk. by rewrite live_put_ne, live_gc_any.
Qed.

(** RESTORE without REPLACE does not load the key first, so
    an expired entry that no read has swept yet still makes it answer BUSYKEY,
    although no client can see a value there; SET NX, which loads first, creates
    the key in the same state. *)
Theorem restore_busy_on_expired key payload v ttl abs_ttl e ver s d w :
  restore_value payload = Some (Ok v) ->
  store w !! key = Some (e, ver) -> is_expired (clock_ms w) e = true ->
  live w key = None /\
  run (restore key payload ttl false abs_ttl) w = (Some (Err busykey), w) /\
  fst (run (set_string_nx key s d) w) = Ok true.
Proof.
  intros Hv Hk Hexp. split; [unfold live; by rewrite Hk, Hexp|]. split.
  - rewrite run_restore, Hv, Hk. by rewrite bool_decide_false.
  - unfold set_string_nx. rewrite !run_bind. cbn [trigger run handle]. unfold kv_load. rewrite Hk, Hexp.
    cbn [run]. rewrite run_bind. cbn [trigger run handle]. unfold kv_save, remove. cbn [store with_store].
    by rewrite lookup_delete_eq.
Qed.

(** ** FLUSHALL

    The default [flush_all] deletes page by page while it walks: the cursor
    stays valid because only keys at or before it are deleted. *)

Lemma run_deletes (ks : list Str) (p0 : prog kvE unit) w :
  snd (run p0 w) = w ->
  snd (run (fold_left (fun p k => let! _ := p in let! _ := trigger (KvDelete k DAny) in Ret tt) ks p0) w) =
  fold_left (fun w k => remove k w) ks w.
Proof.
  intros H0. revert p0 H0.
  assert (G : forall p0 w0, snd (run (fold_left (fun p k => let! _ := p in let! _ := trigger (KvDelete k DAny) in Ret tt) ks p0) w0)
    = fold_left (fun w k => remove k w) ks (snd (run p0 w0))).
  { induction ks as [|k ks IH]; intros p0 w0; cbn [fold_left]; [done|].
    rewrite IH. f_equal. rewrite run_bind. by destruct (run p0 w0). }
  intros p0 H0. by rewrite G, H0.
Qed.

Lemma removes_lookup ks w k :
  store (fold_left (fun w k => remove k w) ks w) !! k = if decide (k ∈ ks) then None else store w !! k.
Proof.
  revert w. induction ks as [|k0 ks IH]; intros w; cbn [fold_left]; [done|].
  rewrite IH. unfold remove. cbn [store with_store]. destruct (decide (k ∈ ks)) as [Hi|Hi].
  - by rewrite decide_True by by right.
  - destruct (decide (k0 = k)) as [->|Hne].
    + rewrite lookup_delete_eq, decide_True; [done|by left].
    + rewrite lookup_delete_ne, decide_False by (done || by rewrite elem_of_cons; intros [?|?]). done.
Qed.

Lemma klt_sorted_ext (l1 l2 : list Str) :
  StronglySorted klt l1 -> StronglySorted klt l2 -> (forall k, In k l1 <-> In k l2) -> l1 = l2.
Proof.
  intros H1. revert l2. induction H1 as [|x l1 H1 IH Hx]; intros l2 H2 Hin.
  - destruct l2 as [|y l2]; [done|]. exfalso. apply (Hin y). by left.
  - destruct H2 as [|y l2 H2 Hy]; [exfalso; apply (Hin x); by left|].
    rewrite List.Forall_forall in Hx, Hy.
    assert (x = y) as ->.
    { destruct (proj1 (Hin x) (or_introl eq_refl)) as [?|Hxl]; [done|].
      destruct (proj2 (Hin y) (or_introl eq_refl)) as [?|Hyl]; [done|].
      exfalso. by apply (klt_irrefl x), (kcmp_trans x y x); [apply Hx|apply Hy]. }
    f_equal. apply IH; [done|]. intros k. split; intros Hk.
    + destruct (proj1 (Hin k) (or_intror Hk)) as [<-|?]; [|done]. exfalso. apply (klt_irrefl y). by apply Hx.
    + destruct (proj2 (Hin k) (or_intror Hk)) as [<-|?]; [|done]. exfalso. apply (klt_irrefl y). by apply Hy.
Qed.

Lemma StronglySorted_drop (l : list Str) n : StronglySorted klt l -> StronglySorted klt (drop n l).
Proof.
  intros H. revert n. induction H as [|x l H IH Hx]; intros [|n]; cbn; try constructor; auto.
Qed.

(** Deleting a prefix of the sorted keys leaves the suffix. *)
Lemma sorted_keys_removes n w :
  sorted_keys (fold_left (fun w k => remove k w) (take n (sorted_keys w)) w) = drop n (sorted_keys w).
Proof.
  apply klt_sorted_ext; [apply sorted_keys_strict|apply StronglySorted_drop, sorted_keys_strict|].
  intros k. rewrite sorted_keys_spec, removes_lookup.
  pose proof (bt_wf_NoDup _ (bt_wf_bs_collect (map fst (map_to_list (store w))))) as Hnd.
  fold (bs_elems (bs_collect (map fst (map_to_list (store w))))) in Hnd. fold (sorted_keys w) in Hnd.
  rewrite <- (take_drop n (sorted_keys w)) in Hnd. apply NoDup_app in Hnd as (_ & Hdis & _).
  destruct (decide (k ∈ take n (sorted_keys w))) as [Hi|Hi].
  - split; [by intros [? ?]|]. intros Hd. exfalso. apply (Hdis k); [done|by apply list_elem_of_In].
  - rewrite <- sorted_keys_spec. rewrite <- (take_drop n (sorted_keys w)) at 1. rewrite in_app_iff.
    rewrite list_elem_of_In in Hi. tauto.
Qed.

Lemma sorted_keys_nil w : sorted_keys w = [] -> store w = ∅.
Proof.
  intros E. apply map_eq. intros k. rewrite lookup_empty. destruct (store w !! k) eqn:Ek; [|done].
  assert (In k (sorted_keys w)) as Hin by (by apply sorted_keys_spec). by rewrite E in Hin.
Qed.

Lemma filter_idem {A} (f : A -> bool) l : List.filter f (List.filter f l) = List.filter f l.
Proof. induction l as [|x l IH]; cbn; [done|]. destruct (f x) eqn:E; cbn; [by rewrite E, IH|done]. Qed.

Lemma flush_walk_from fuel w cursor :
  after_cursor cursor (sorted_keys w) = sorted_keys w ->
  (0 < fuel)%nat -> len (sorted_keys w) <= 1000 * Z.of_nat fuel ->
  fst (run (flush_all_walk fuel cursor) w) = Some (Ok tt) /\
  store (snd (run (flush_all_walk fuel cursor) w)) = ∅.
Proof.
  revert w cursor. induction fuel as [|f IH]; intros w cursor Hc Hf Hl; [lia|].
  cbn [flush_all_walk]. rewrite run_bind. cbn [trigger run handle].
  rewrite <- (drop_0 (sorted_keys w)) in Hc at 2.
  destruct (list_page_at w 1000 0 cursor eq_refl Hc) as (next & -> & Hn).
  cbn [run lp_keys lp_next_cursor]. change (Z.to_nat 1000) with 1000%nat in *. rewrite drop_0 in *.
  rewrite run_bind. set (ks := sorted_keys w) in *. cbn [Nat.add] in Hn.
  pose proof (run_deletes (take 1000 ks) (Ret tt) w eq_refl) as Hw1.
  destruct (run (fold_left _ (take 1000 ks) (Ret tt)) w) as [u w1] eqn:Er. cbn [snd] in Hw1.
  assert (Hk1 : sorted_keys w1 = drop 1000 ks) by (rewrite Hw1; apply sorted_keys_removes).
  destruct next as [c|].
  - destruct Hn as [Hc2 Hne]. apply IH.
    + rewrite Hk1, <- Hc2. unfold after_cursor. apply filter_idem.
    + assert (0 < len (drop 1000 ks)) by (destruct (drop 1000 ks); [done|unfold len; cbn; lia]).
      rewrite len_drop in *. lia.
    + rewrite Hk1, len_drop. lia.
  - cbn [run fst snd]. split; [done|]. apply sorted_keys_nil. by rewrite Hk1.
Qed.

(** The default [flush_all], which deletes page by page while it
    walks, ends and leaves an empty keyspace however many pages there are. *)
Theorem flush_all_complete fuel w :
  (0 < fuel)%nat -> len (sorted_keys w) <= 1000 * Z.of_nat fuel ->
  fst (run (flush_all_default fuel) w) = Some (Ok tt) /\
  store (snd (run (flush_all_default fuel) w)) = ∅.
Proof. by apply flush_walk_from. Qed.

(** ** Concrete keyspaces *)

Definition two_keys : world :=
  world_of [(bs "a", mk_entry (Some 4000) (VString (bs "1"))); (bs "b", mk_entry None (VList [bs "x"]))].

Lemma rename_spec_witness :
  let '(r, w1) := run (rename (bs "a") (bs "b")) two_keys in
  r = Ok tt /\ live w1 (bs "b") = Some (mk_entry (Some 4000) (VString (bs "1"))) /\ live w1 (bs "a") = None.
Proof.
  pose proof (rename_spec (bs "a") (bs "b") two_keys ltac:(discriminate)) as H.
  destruct (run (rename (bs "a") (bs "b")) two_keys) as [r w1].
  destruct (run (renamenx (bs "a") (bs "b")) two_keys) as [r' w2].
  destruct H as [H _]. destruct (H (mk_entry (Some 4000) (VString (bs "1"))) ltac:(vm_compute; reflexivity)) as (Hr & Hl & _).
  split; [exact Hr|]. rewrite !Hl. split; reflexivity.
Defined.

Lemma expire_spec_witness :
  let '(r, w1) := run (expire_at (bs "b") 3000) two_keys in
  r = Ok true /\ fst (run (ttl_ms (bs "b")) w1) = Ok (Ms 2000).
Proof.
  pose proof (expire_spec (bs "b") 3000 (mk_entry None (VList [bs "x"])) two_keys
    ltac:(vm_compute; reflexivity) ltac:(vm_compute; discriminate) ltac:(vm_compute; discriminate)) as H.
  destruct (run (expire_at (bs "b") 3000) two_keys) as [r w1]. destruct H as (Hr & _ & _ & Ht & _).
  split; [exact Hr|exact Ht].
Defined.

Lemma keyspace_scan_complete_witness :
  run (scan_client (fun p s => bool_decide (p = s)) 2 None (Some (bs "b")) 1) two_keys = (Some (Ok [bs "b"]), two_keys) /\
  run (dbsize 1) two_keys = (Some (Ok 2), two_keys).
Proof.
  destruct (keyspace_scan_complete (fun p s => bool_decide (p = s)) (Some (bs "b")) 1 2 1 two_keys
    ltac:(lia) ltac:(lia) ltac:(vm_compute; discriminate) ltac:(lia) ltac:(vm_compute; discriminate)
    ltac:(vm_compute; discriminate)) as (H1 & H2 & _).
  split; [exact H1|exact H2].
Defined.

Definition zombie_world : world := world_of [(bs "k", mk_entry (Some 10) (VString (bs "old")))].
Lemma restore_busy_on_expired_witness :
  run (restore (bs "k") sample_payload 0 false false) zombie_world = (Some (Err busykey), zombie_world).
Proof.
  apply (restore_busy_on_expired (bs "k") sample_payload (VString (bs "hi")) 0 false
    (mk_entry (Some 10) (VString (bs "old"))) 0 (bs "x") None zombie_world); vm_compute; reflexivity.
Defined.
