(* ===== verification/Mutations.v ===== *)
(** * Mutations

    The read-modify-write commands of [impl Storage for KVStorage] as one event
    signature, and the theorems about any mix of them running together: they
    commit one at a time, keep every stored value well-formed, and respect
    types, expiry and other keys. *)

From S2P Require Import Prelude.
From S2P Require Import Text.
From S2P Require Import BTree.
From S2P Require Import F64.
From S2P Require Import Stream.
From S2P Require Import Value.
From S2P Require Import Hll.
From S2P Require Import Backend.
From S2P Require Import Linearizability.
From S2P Require Import Contracts.
From S2P Require Import Collections.
From S2P Require Import Strings.
From S2P Require Import Hashes.
From S2P Require Import Lists.
From S2P Require Import Sets.
From S2P Require Import ZSets.
From S2P Require Import StreamOps.
From S2P Require Import Keyspace.

(** [mutation A]: a command that runs one CAS loop and answers an [A]. *)
Inductive mutation : Type -> Type :=
(* strings *)
| GetEx (key : Str) (op : GetExOp) : mutation (option (list byte))
| IncrBy (key : Str) (delta : Z) : mutation Z
| IncrByFloat (key : Str) (delta : f64) : mutation f64
| GetSet (key : Str) (v : list byte) : mutation (option (list byte))
| GetDel (key : Str) : mutation (option (list byte))
| Append (key : Str) (v : list byte) : mutation Z
| SetRange (key : Str) (offset : Z) (v : list byte) : mutation Z
| SetBit (key : Str) (offset : Z) (v : bool) : mutation Z
| PfAdd (key : Str) (elements : list (list byte)) : mutation bool
| PfMergeInto (key : Str) (merged : list byte) : mutation unit
(* keys *)
| ExpireAt (key : Str) (t : Z) : mutation bool
| PersistKey (key : Str) : mutation bool
(* hashes *)
| HSet (key : Str) (pairs : list (Str * list byte)) : mutation Z
| HSetNx (key field : Str) (v : list byte) : mutation bool
| HDel (key : Str) (fields : list Str) : mutation Z
| HIncrBy (key field : Str) (delta : Z) : mutation Z
| HIncrByFloat (key field : Str) (delta : f64) : mutation f64
(* lists *)
| Push (key : Str) (vs : list (list byte)) (left : bool) : mutation Z
| PushX (key : Str) (vs : list (list byte)) (left : bool) : mutation Z
| Pop (key : Str) (count : Z) (left : bool) : mutation (list (list byte))
| LSet (key : Str) (index : Z) (v : list byte) : mutation unit
| LRem (key : Str) (count : Z) (v : list byte) : mutation Z
| LInsert (key : Str) (before : bool) (pivot v : list byte) : mutation Z
| LTrim (key : Str) (start stop : Z) : mutation unit
| LRotate (key : Str) (from_left to_left : bool) : mutation (option (list byte))
(* sets *)
| SAdd (key : Str) (members : list Str) : mutation Z
| SRem (key : Str) (members : list Str) : mutation Z
(* sorted sets *)
| ZAdd (key : Str) (pairs : list (f64 * Str)) : mutation Z
| ZAddExt (key : Str) (pairs : list (f64 * Str)) (flags : ZAddFlags) : mutation Z
| ZAddIncr (key : Str) (delta : f64) (member : Str) (flags : ZAddFlags) : mutation (option f64)
| ZIncrBy (key member : Str) (delta : f64) : mutation f64
| ZRem (key : Str) (members : list Str) : mutation Z
| ZRemRangeByRank (key : Str) (start stop : Z) : mutation Z
| ZRemRangeByScore (key : Str) (min max : ScoreBound) : mutation Z
| ZRemRangeByLex (key : Str) (min max : LexBound) : mutation Z
| ZPop (key : Str) (count : Z) (from_max : bool) : mutation (list zentry)
(* streams; the clock has been read *)
| XAdd (key : Str) (id : AddIdSpec) (fields : list (Str * Str)) (nomkstream : bool)
    (trim : option (TrimBound * option Z)) (now : Z) : mutation (option StreamId)
| XDel (key : Str) (ids : list StreamId) : mutation Z
| XTrim (key : Str) (bound : TrimBound) (limit : option Z) : mutation Z
| XGroup (key : Str) (op : XGroupOp) : mutation Z
| XReadGroup (key group consumer : Str) (id : XReadGroupId) (count : option Z) (noack : bool) (now : Z)
    : mutation (list StreamEntry)
| XAck (key group : Str) (ids : list StreamId) : mutation Z
| XClaim (key group consumer : Str) (min_idle : Z) (ids : list StreamId) (opts : XClaimOpts)
    : mutation (list XClaimResult)
| XAutoClaim (key group consumer : Str) (min_idle : Z) (start : StreamId) (count : Z) (just_id : bool)
    (now : Z) : mutation XAutoClaimResult.

Definition key_of {A} (m : mutation A) : Str :=
  match m with
  | GetEx key _ | IncrBy key _ | IncrByFloat key _ | GetSet key _ | GetDel key | Append key _
  | SetRange key _ _ | SetBit key _ _ | PfAdd key _ | PfMergeInto key _ | ExpireAt key _ | PersistKey key
  | HSet key _ | HSetNx key _ _ | HDel key _ | HIncrBy key _ _ | HIncrByFloat key _ _
  | Push key _ _ | PushX key _ _ | Pop key _ _ | LSet key _ _ | LRem key _ _ | LInsert key _ _ _
  | LTrim key _ _ | LRotate key _ _ | SAdd key _ | SRem key _ | ZAdd key _ | ZAddExt key _ _
  | ZAddIncr key _ _ _ | ZIncrBy key _ _ | ZRem key _ | ZRemRangeByRank key _ _
  | ZRemRangeByScore key _ _ | ZRemRangeByLex key _ _ | ZPop key _ _ | XAdd key _ _ _ _ _
  | XDel key _ | XTrim key _ _ | XGroup key _ | XReadGroup key _ _ _ _ _ _ | XAck key _ _
  | XClaim key _ _ _ _ _ | XAutoClaim key _ _ _ _ _ _ _ => key
  end.

(** The closure the command hands to [cas]. *)
Definition closure_of {A} (m : mutation A) : option StoredValue -> Result (CasAction A) :=
  match m in mutation A return option StoredValue -> Result (CasAction A) with
  | GetEx key op => get_string_with_ttl_mod key op
  | IncrBy key d => incr_by_mod key d
  | IncrByFloat key d => incr_by_float_mod key d
  | GetSet key v => getset_mod key v
  | GetDel key => get_and_delete_mod key
  | Append key v => append_mod key v
  | SetRange key off v => setrange_mod key off v
  | SetBit key off v => setbit_mod key off v
  | PfAdd key es => pfadd_mod key es
  | PfMergeInto key merged => pfmerge_mod key merged
  | ExpireAt key t => expire_at_mod t
  | PersistKey key => persist_mod
  | HSet key ps => hset_mod key ps
  | HSetNx key f v => hsetnx_mod key f v
  | HDel key fs => hdel_mod key fs
  | HIncrBy key f d => hincr_by_mod key f d
  | HIncrByFloat key f d => hincr_by_float_mod key f d
  | Push key vs l => list_push_mod key vs l
  | PushX key vs l => list_pushx_mod key vs l
  | Pop key n l => list_pop_mod key n l
  | LSet key i v => lset_mod key i v
  | LRem key n v => lrem_mod key n v
  | LInsert key b p v => linsert_mod key b p v
  | LTrim key s e => ltrim_mod key s e
  | LRotate key a b => rotate_mod key a b
  | SAdd key ms => sadd_mod key ms
  | SRem key ms => srem_mod key ms
  | ZAdd key ps => zadd_mod key ps
  | ZAddExt key ps fl => zadd_ext_mod key ps fl
  | ZAddIncr key d mem fl => zadd_ext_incr_mod key d mem fl
  | ZIncrBy key mem d => zincr_by_mod key mem d
  | ZRem key ms => zrem_mod key ms
  | ZRemRangeByRank key s e => zremrangebyrank_mod key s e
  | ZRemRangeByScore key min max => zremrangebyscore_mod key min max
  | ZRemRangeByLex key min max => zremrangebylex_mod key min max
  | ZPop key n b => zpop_mod key n b
  | XAdd key id fs nomk trim now => xadd_mod key id fs nomk trim now
  | XDel key ids => xdel_mod key ids
  | XTrim key b l => xtrim_mod key b l
  | XGroup key op => xgroup_mod key op
  | XReadGroup key g c id n noack now => xreadgroup_mod g c id n noack now
  | XAck key g ids => xack_mod key g ids
  | XClaim key g c idle ids o => xclaim_mod key g c idle ids o
  | XAutoClaim key g c idle st n j now => xautoclaim_mod key g c idle st n j now
  end.

Definition command {A} (m : mutation A) : prog kvE (Result A) := cas (key_of m) (pure_mod (closure_of m)).

(** The kind of value a collection command works on; [None] for the commands
    that set or drop an expiry themselves. *)
Definition kind_of {A} (m : mutation A) : option ValueKind :=
  match m with
  | IncrBy _ _ | IncrByFloat _ _ | Append _ _ | SetRange _ _ _ | SetBit _ _ _ | PfAdd _ _
  | PfMergeInto _ _ | GetDel _ => Some KString
  | GetEx _ _ | GetSet _ _ | ExpireAt _ _ | PersistKey _ => None
  | HSet _ _ | HSetNx _ _ _ | HDel _ _ | HIncrBy _ _ _ | HIncrByFloat _ _ _ => Some KHash
  | Push _ _ _ | PushX _ _ _ | Pop _ _ _ | LSet _ _ _ | LRem _ _ _ | LInsert _ _ _ _
  | LTrim _ _ _ | LRotate _ _ _ => Some KList
  | SAdd _ _ | SRem _ _ => Some KSet
  | ZAdd _ _ | ZAddExt _ _ _ | ZAddIncr _ _ _ _ | ZIncrBy _ _ _ | ZRem _ _ | ZRemRangeByRank _ _ _
  | ZRemRangeByScore _ _ _ | ZRemRangeByLex _ _ _ | ZPop _ _ _ => Some KZSet
  | XAdd _ _ _ _ _ _ | XDel _ _ | XTrim _ _ _ | XGroup _ _ | XReadGroup _ _ _ _ _ _ _ | XAck _ _ _
  | XClaim _ _ _ _ _ _ | XAutoClaim _ _ _ _ _ _ _ _ => Some KStream
  end.

(** The key a WRONGTYPE error names: XREADGROUP's names none. *)
Definition error_key {A} (m : mutation A) : Str :=
  match m with XReadGroup _ _ _ _ _ _ _ => [] | m => key_of m end.

(** What the arity checks of the command layer guarantee. *)
Definition args_ok {A} (m : mutation A) : Prop :=
  match m with
  | HSet _ pairs => pairs <> []
  | Push _ vs _ => vs <> []
  | SAdd _ ms => ms <> []
  | ZAdd _ pairs => pairs <> []
  | _ => True
  end.

(** ** Every command meets its contract *)

Ltac string_op unfold_it :=
  constructor;
    [ intros [[? []]|] e' r; unfold option_wf, entry_wf; unfold_it; cbn; intros; op_cases
    | intros [? []]; unfold_it; cbn; by intros ?
    | intros [[? []]|] e' r; unfold_it; cbn; intros; op_cases
    | intros [[? []]|] e' r; unfold_it; cbn; intros; op_cases ].

#[export] Instance incr_by_op key d : CollectionOp KString key (incr_by_mod key d).
Proof. string_op ltac:(unfold incr_by_mod, ok_or, rbind). Qed.
#[export] Instance incr_by_float_op key d : CollectionOp KString key (incr_by_float_mod key d).
Proof. string_op ltac:(unfold incr_by_float_mod, parse_string_as_f64, ok_or, rbind). Qed.
#[export] Instance append_op key v : CollectionOp KString key (append_mod key v).
Proof. string_op ltac:(unfold append_mod, string_or_empty). Qed.
#[export] Instance setrange_op key off v : CollectionOp KString key (setrange_mod key off v).
Proof. string_op ltac:(unfold setrange_mod, string_or_empty). Qed.
#[export] Instance setbit_op key off v : CollectionOp KString key (setbit_mod key off v).
Proof. string_op ltac:(unfold setbit_mod, string_or_empty). Qed.
#[export] Instance pfadd_op key es : CollectionOp KString key (pfadd_mod key es).
Proof. string_op ltac:(unfold pfadd_mod, rbind). Qed.
Lemma pfmerge_writes key merged e e' r :
  pfmerge_mod key merged e = Ok (Write e' r) -> exists buf, e' = mk_entry (ttl_of e) (VString buf).
Proof.
  unfold pfmerge_mod. destruct e as [[exp [d| | | | |]]|]; try discriminate; [destruct (negb (is_hll d)); [discriminate|]|];
    cbn [rbind ttl_of expires_at_ms]; destruct (merge_into _ merged) as [buf|]; cbn [rbind]; try discriminate;
    intros [= <- _]; by exists buf.
Qed.
#[export] Instance pfmerge_op key merged : CollectionOp KString key (pfmerge_mod key merged).
Proof.
  constructor; [|by intros [? []]| |]; intros e e' r.
  - by intros _ [buf ->]%pfmerge_writes.
  - by intros [buf ->]%pfmerge_writes.
  - by intros [buf ->]%pfmerge_writes.
Qed.
#[export] Instance get_and_delete_op key : CollectionOp KString key (get_and_delete_mod key).
Proof. string_op ltac:(unfold get_and_delete_mod). Qed.

Lemma mutation_op {A} (m : mutation A) k :
  kind_of m = Some k -> args_ok m -> CollectionOp k (error_key m) (closure_of m).
Proof.
  destruct m; cbn; intros Hk Ha; simplify_eq; try typeclasses eauto;
    auto using hset_op, list_push_op, sadd_op, zadd_op.
Qed.

Lemma mutation_wf {A} (m : mutation A) : args_ok m -> WfClosure (closure_of m).
Proof.
  intros Ha. destruct (kind_of m) as [k|] eqn:Ek; [by destruct (mutation_op m k Ek Ha)|].
  destruct m; cbn in Ek; try done; cbn [closure_of]; intros [[exp u]|] e' r Hwf;
    unfold get_string_with_ttl_mod, getset_mod, expire_at_mod, persist_mod; cbn; intros; op_cases.
Qed.

(** ** One command at a time *)


(** ** Any mix of commands at once *)

(** A command of any answer type, and an answer of any type. *)
Inductive pooled : Type :=
| Pooled {A : Type} (m : mutation A).
Inductive reply : Type :=
| Reply {A : Type} (a : A).

Definition map_action {A B} (g : A -> B) (a : CasAction A) : CasAction B :=
  match a with
  | Write e r => Write e (g r)
  | Backend.Delete r => Backend.Delete (g r)
  | NoOp r => NoOp (g r)
  end.

Definition spec_of (c : pooled) : Str * (option StoredValue -> Result (CasAction reply)) :=
  match c with Pooled m => (key_of m, fun e => rmap (map_action Reply) (closure_of m e)) end.
Definition call_ok (c : pooled) : Prop := match c with Pooled m => args_ok m end.

(** A pooled call answers what the command answers. *)
Lemma run_call {A} (m : mutation A) w :
  run (cas (fst (spec_of (Pooled m))) (pure_mod (snd (spec_of (Pooled m))))) w =
  let '(r, w') := run (command m) w in (rmap Reply r, w').
Proof.
  unfold command. rewrite !run_cas. unfold atomic_update. cbn [spec_of fst snd].
  by destruct (closure_of m _) as [[e r|r|r]|err].
Qed.

Lemma call_wf c : call_ok c -> WfClosure (snd (spec_of c)).
Proof.
  destruct c as [A m]. cbn [call_ok]. intros Ha e e' r Hwf. cbn [spec_of snd].
  destruct (closure_of m e) as [[e2 r2|r2|r2]|err] eqn:E; cbn; try done.
  intros [= <- _]. by eapply (mutation_wf m Ha).
Qed.

(** What clients outside the pool do meanwhile: any write of a well-formed
    entry (SET, RENAME, COPY, RESTORE, SPOP, ...), any deletion, FLUSHALL. *)
Inductive other_client (w : world) : world -> Prop :=
| oc_write key e : entry_wf e -> other_client w (put key e w)
| oc_delete key : other_client w (remove key w)
| oc_flush : other_client w (with_store w ∅).

Lemma other_client_versioned w w' : world_wf w -> other_client w w' -> evolves w w' /\ world_wf w'.
Proof.
  intros Hwf. destruct 1 as [key e He|key|].
  - auto using evolves_put, wf_put.
  - auto using evolves_remove, wf_remove.
  - split; [split; cbn; [lia|]|split; cbn; [apply Hwf|]]; intros k e v; cbn; by rewrite lookup_empty.
Qed.

Lemma other_client_wf w w' : keyspace_wf w -> other_client w w' -> keyspace_wf w'.
Proof.
  intros Hw. destruct 1; auto using keyspace_wf_put, keyspace_wf_remove. apply map_Forall_empty.
Qed.


(** ** Concrete runs *)


(** HSET, SADD and a conflicting HDEL, interleaved. *)
Definition three_calls : list pooled :=
  [Pooled (HSet (bs "h") [(bs "f", bs "v")]); Pooled (SAdd (bs "s") [bs "m"]); Pooled (HDel (bs "h") [bs "f"])].

