(* ===== verification/S3.v ===== *)
(** * S3

    [S3Storage] of src/storage.rs: the [KVBackend] over an S3 bucket.  Its
    methods are programs over the SDK's calls; the service and the JSON codec
    are parameters, with the documented behaviour the code relies on as laws. *)

From S2P Require Import Prelude.
From S2P Require Import Text.
From S2P Require Import BTree.
From S2P Require Import Pages.
From S2P Require Import F64.
From S2P Require Import Stream.
From S2P Require Import Value.
From S2P Require Import Backend.
From S2P Require Import Linearizability.
From S2P Require Import Contracts.
From S2P Require Import Strings.

(** ** The SDK calls and the clock *)

(** [GetObject]: the collected body (or the error of collecting it) and the
    [ETag]; a [NoSuchKey] service error; any other error. *)
Inductive get_object_output :=
| GetOk (body : Result (list byte)) (e_tag : option Str)
| GetNoSuchKey
| GetError (msg : string).

(** A call whose error carries the HTTP status, when there was a response. *)
Inductive sdk_result := SdkOk | SdkError (status : option Z) (msg : string).

Arguments SdkError status msg%_string_scope.

Inductive list_output := ListOk (contents : list (option Str)) (next_continuation_token : option Str)
                       | ListError (msg : string).

Inductive s3E : Type -> Type :=
| GetObject (bucket key : Str) : s3E get_object_output
| PutObject (bucket key : Str) (body : list byte) (if_none_match if_match : option Str) : s3E sdk_result
| DeleteObject (bucket key : Str) (if_match : option Str) : s3E sdk_result
| ListObjectsV2 (bucket prefix : Str) (continuation_token : option Str) (max_keys : option Z) : s3E list_output
| DeleteObjects (bucket : Str) (ids : list Str) : s3E sdk_result
| S3NowMs : s3E Z
| S3NowNanos : s3E Z.

Record S3Storage := { bucket : Str; prefix : Str }.

Definition s3_key (self : S3Storage) (redis_key : Str) : Str := prefix self ++ redis_key.

(** [str::strip_prefix] *)
Fixpoint strip_prefix (p s : Str) : option Str :=
  match p, s with
  | [], _ => Some s
  | x :: p', y :: s' => if bool_decide (x = y) then strip_prefix p' s' else None
  | _ :: _, [] => None
  end.

(** [i32::try_from(n).unwrap_or(i32::MAX)] *)
Definition i32_of_usize (n : Z) : Z := Z.min n (2 ^ 31 - 1).

(** ** The methods *)

Definition put_error (status : option Z) (msg : string) : RustyAntError :=
  if bool_decide (status = Some 412) then Contention else S3 msg.

Definition s3_delete (self : S3Storage) (redis_key : Str) (cond : DeleteCondition) : prog s3E (Result unit) :=
  let if_match := match cond with DIfMatch etag => Some etag | DAny => None end in
  let! r := trigger (DeleteObject (bucket self) (s3_key self redis_key) if_match) in
  match r with
  | SdkOk => Ret (Ok tt)
  | SdkError status msg => Ret (Err (put_error status msg))
  end.

Section codec.
(** [serde_json::from_slice] and [to_vec] at [StoredValue]. *)
Variable from_slice : list byte -> Result StoredValue.
Variable to_vec : StoredValue -> Result (list byte).

Definition s3_load (self : S3Storage) (redis_key : Str) : prog s3E (Result (option (StoredValue * Str))) :=
  let! res := trigger (GetObject (bucket self) (s3_key self redis_key)) in
  match res with
  | GetOk body e_tag =>
      let etag := match e_tag with Some t => t | None => [] end in
      match (let? bytes := body in from_slice bytes) with
      | Err e => Ret (Err e)
      | Ok entry =>
          let! now := trigger S3NowMs in
          if is_expired now entry then
            let! _ := s3_delete self redis_key DAny in Ret (Ok None)
          else Ret (Ok (Some (entry, etag)))
      end
  | GetNoSuchKey => Ret (Ok None)
  | GetError msg => Ret (Err (S3 msg))
  end.

Definition s3_save (self : S3Storage) (redis_key : Str) (entry : StoredValue) (cond : WriteCondition)
    : prog s3E (Result unit) :=
  match to_vec entry with
  | Err e => Ret (Err e)
  | Ok body =>
      let '(if_none_match, if_match) :=
        match cond with
        | WAny => (None, None)
        | CreateOnly => (Some (bs "*"), None)
        | IfMatch etag => (None, Some etag)
        end in
      let! r := trigger (PutObject (bucket self) (s3_key self redis_key) body if_none_match if_match) in
      match r with
      | SdkOk => Ret (Ok tt)
      | SdkError status msg => Ret (Err (put_error status msg))
      end
  end.

Definition s3_list_page (self : S3Storage) (cursor : option Str) (max_keys : Z) : prog s3E (Result ListPage) :=
  let! resp := trigger (ListObjectsV2 (bucket self) (prefix self) cursor (Some (i32_of_usize max_keys))) in
  match resp with
  | ListError msg => Ret (Err (S3 msg))
  | ListOk contents next =>
      let keys := omap (strip_prefix (prefix self)) (omap id contents) in
      Ret (Ok {| lp_keys := keys; lp_next_cursor := next |})
  end.

(** The batch delete, page by page; [None]: more pages than [fuel]. *)
Fixpoint s3_flush_walk (self : S3Storage) (fuel : nat) (cursor : option Str) : prog s3E (option (Result unit)) :=
  match fuel with
  | O => Ret None
  | S f =>
      let! resp := trigger (ListObjectsV2 (bucket self) (prefix self) cursor None) in
      match resp with
      | ListError msg => Ret (Some (Err (S3 msg)))
      | ListOk contents next =>
          let continue :=
            match next with Some c => s3_flush_walk self f (Some c) | None => Ret (Some (Ok tt)) end in
          match omap id contents with
          | [] => continue
          | ids =>
              let! r := trigger (DeleteObjects (bucket self) ids) in
              match r with
              | SdkError _ msg => Ret (Some (Err (S3 msg)))
              | SdkOk => continue
              end
          end
      end
  end.
Definition s3_flush_all (self : S3Storage) (fuel : nat) : prog s3E (option (Result unit)) :=
  s3_flush_walk self fuel None.
End codec.

(** ** The service *)

(** Backend calls implemented by programs over another layer. *)
Fixpoint interp {E F : Type -> Type} (h : forall A, E A -> prog F A) {R} (p : prog E R) : prog F R :=
  match p with
  | Ret r => Ret r
  | Vis e k => pbind (h _ e) (fun a => interp h (k a))
  end.

Definition put_allowed (o : option (list byte * Str)) (if_none_match if_match : option Str) : bool :=
  match if_none_match with Some _ => bool_decide (o = None) | None => true end &&
  match if_match with Some t => match o with Some (_, t') => bool_decide (t = t') | None => false end | None => true end.

(** Keys on a page of a listing. *)
Definition page_limit (max_keys : option Z) : Z := match max_keys with Some n => Z.min n 1000 | None => 1000 end.

(** What the S3 documentation promises of an available service: strong
    consistency, conditional writes and deletes decided by the current [ETag],
    412 when an object is there and the condition fails.  When the object is gone, a
    conditional write fails with some status; what a conditional delete answers
    is left open.  A listing walks the keys of a prefix in a fixed order, at most
    a thousand to a page, and a batch delete takes at most a thousand keys. *)
Class S3Service (St : Type) := {
  s3_handle : forall A, s3E A -> St -> A * St;
  objects : St -> Str -> gmap Str (list byte * Str);
  s3_clock : St -> Z;
  s3_get : forall s b k, s3_handle _ (GetObject b k) s =
    (match objects s b !! k with Some (body, t) => GetOk (Ok body) (Some t) | None => GetNoSuchKey end, s);
  s3_put_ok : forall s b k body inm im, put_allowed (objects s b !! k) inm im = true ->
    exists t s', s3_handle _ (PutObject b k body inm im) s = (SdkOk, s') /\
      objects s' b = <[k := (body, t)]> (objects s b) /\ s3_clock s' = s3_clock s;
  s3_put_412 : forall s b k body inm im o, objects s b !! k = Some o -> put_allowed (Some o) inm im = false ->
    exists msg, s3_handle _ (PutObject b k body inm im) s = (SdkError (Some 412) msg, s);
  s3_put_missing : forall s b k body inm t, objects s b !! k = None ->
    exists status msg, s3_handle _ (PutObject b k body inm (Some t)) s = (SdkError status msg, s);
  s3_delete_ok : forall s b k im, put_allowed (objects s b !! k) None im = true ->
    exists s', s3_handle _ (DeleteObject b k im) s = (SdkOk, s') /\
      objects s' b = base.delete k (objects s b) /\ s3_clock s' = s3_clock s;
  s3_delete_412 : forall s b k im o, objects s b !! k = Some o -> put_allowed (Some o) None im = false ->
    exists msg, s3_handle _ (DeleteObject b k im) s = (SdkError (Some 412) msg, s);
  s3_delete_missing : forall s b k t, objects s b !! k = None ->
    exists r, s3_handle _ (DeleteObject b k (Some t)) s = (r, s);
  s3_now : forall s, s3_handle _ S3NowMs s = (s3_clock s, s);
  s3_after : option Str -> Str -> Prop;
  s3_after_none : forall k, s3_after None k;
  s3_list : forall s b p cursor max_keys, (forall n, max_keys = Some n -> 1 <= n) -> exists page next,
    s3_handle _ (ListObjectsV2 b p cursor max_keys) s = (ListOk (map Some page) next, s) /\
    lists_page (fun k => is_Some (objects s b !! k) /\ is_Some (strip_prefix p k)) s3_after cursor page next /\
    len page <= page_limit max_keys;
  s3_delete_objects : forall s b ids, len ids <= 1000 -> exists s',
    s3_handle _ (DeleteObjects b ids) s = (SdkOk, s') /\
    objects s' b = fold_left (fun m k => base.delete k m) ids (objects s b) /\ s3_clock s' = s3_clock s;
  s3_nanos : forall s, exists n, s3_handle _ S3NowNanos s = (n, s);
}.

Fixpoint run_s3 {St} `{S3Service St} {R} (p : prog s3E R) (s : St) : R * St :=
  match p with
  | Ret r => (r, s)
  | Vis e k => let '(a, s') := s3_handle _ e s in run_s3 (k a) s'
  end.

(** Two clients of one bucket: [true] lets the first make its next SDK call. *)
Fixpoint schedule {St} `{S3Service St} {R1 R2} (sch : list bool) (p1 : prog s3E R1) (p2 : prog s3E R2) (s : St)
    : prog s3E R1 * prog s3E R2 * St :=
  match sch with
  | [] => (p1, p2, s)
  | true :: sch =>
      match p1 with
      | Ret _ => schedule sch p1 p2 s
      | Vis e k => let '(a, s') := s3_handle _ e s in schedule sch (k a) p2 s'
      end
  | false :: sch =>
      match p2 with
      | Ret _ => schedule sch p1 p2 s
      | Vis e k => let '(a, s') := s3_handle _ e s in schedule sch p1 (k a) s'
      end
  end.

Lemma run_s3_bind {St} `{S3Service St} {R R2} (p : prog s3E R) (g : R -> prog s3E R2) s :
  run_s3 (pbind p g) s = let '(r, s') := run_s3 p s in run_s3 (g r) s'.
Proof.
  revert s. induction p as [r|A e k IH]; intros s; cbn; [done|].
  destruct (s3_handle _ e s) as [a s']. apply IH.
Qed.

Section refinement.
Context {St : Type} `{S3Service St}.
Variable from_slice : list byte -> Result StoredValue.
Variable to_vec : StoredValue -> Result (list byte).
Variable self : S3Storage.

(** An entry the codec carries. *)
Definition encodable (e : StoredValue) : Prop := exists b, to_vec e = Ok b /\ from_slice b = Ok e.

(** The calls [cas] makes.  [flush] and [list] implement the other two. *)
Variable flush : prog s3E (Result unit).
Definition s3_backend (A : Type) (e : kvE A) : prog s3E A :=
  match e in kvE A return prog s3E A with
  | KvLoad key => s3_load from_slice self key
  | KvSave key entry cond => s3_save to_vec self key entry cond
  | KvDelete key cond => s3_delete self key cond
  | KvListPage cursor n => s3_list_page self cursor n
  | KvFlushAll => flush
  | KvNowMs => trigger S3NowMs
  | KvNowNanos => trigger S3NowNanos
  | KvSleep _ => Ret tt
  end.

(** The bucket and the reference world hold the same entries. *)
Definition same_entries (s : St) (w : world) : Prop :=
  s3_clock s = clock_ms w /\
  forall k, match objects s (bucket self) !! s3_key self k, store w !! k with
            | Some (b, _), Some (e, _) => from_slice b = Ok e
            | None, None => True
            | _, _ => False
            end.

Lemma s3_key_inj k1 k2 : s3_key self k1 = s3_key self k2 -> k1 = k2.
Proof. apply app_inv_head. Qed.

Lemma same_entries_put s w s' k b t e :
  same_entries s w -> from_slice b = Ok e ->
  objects s' (bucket self) = <[s3_key self k := (b, t)]> (objects s (bucket self)) ->
  s3_clock s' = s3_clock s -> same_entries s' (put k e w).
Proof.
  intros [Hc Hs] Hb Ho Hc'. split; [by rewrite Hc', clock_put|]. intros k2. rewrite Ho. cbn.
  destruct (decide (k = k2)) as [<-|Hne]; [by rewrite !lookup_insert_eq|].
  rewrite !lookup_insert_ne by (done || intros ?%s3_key_inj; done). apply Hs.
Qed.

Lemma same_entries_delete s w s' k :
  same_entries s w -> objects s' (bucket self) = base.delete (s3_key self k) (objects s (bucket self)) ->
  s3_clock s' = s3_clock s -> same_entries s' (remove k w).
Proof.
  intros [Hc Hs] Ho Hc'. split; [by rewrite Hc'|]. intros k2. rewrite Ho. cbn.
  destruct (decide (k = k2)) as [<-|Hne]; [by rewrite !lookup_delete_eq|].
  rewrite !lookup_delete_ne by (done || intros ?%s3_key_inj; done). apply Hs.
Qed.

Lemma s3_load_spec s w k :
  same_entries s w ->
  exists s', same_entries s' (gc k w) /\
    run_s3 (s3_load from_slice self k) s =
      (Ok (match store (gc k w) !! k with
           | Some (e, _) => option_map (fun o => (e, snd o)) (objects s' (bucket self) !! s3_key self k)
           | None => None end), s').
Proof.
  intros Hs. pose proof Hs as [Hc Hk]. specialize (Hk k). unfold s3_load. rewrite run_s3_bind.
  cbn [trigger run_s3]. rewrite s3_get. cbn [run_s3].
  unfold gc. destruct (objects s (bucket self) !! s3_key self k) as [[b t]|] eqn:Eo,
    (store w !! k) as [[e v]|] eqn:Ew; try done.
  - cbn [rbind]. rewrite Hk, run_s3_bind. cbn [trigger run_s3]. rewrite s3_now, Hc. cbn [run_s3].
    destruct (is_expired (clock_ms w) e) eqn:Ex.
    + unfold s3_delete. rewrite run_s3_bind, run_s3_bind. cbn [trigger run_s3].
      destruct (s3_delete_ok s (bucket self) (s3_key self k) None eq_refl) as (s' & -> & Ho & Hc').
      cbn [run_s3]. exists s'. split; [by eapply same_entries_delete|]. cbn. by rewrite lookup_delete_eq.
    + exists s. split; [done|]. cbn [run_s3]. by rewrite Ew, Eo.
  - exists s. split; [done|]. by rewrite Ew.
Qed.

Lemma run_interp_bind {R R2} (p : prog kvE R) (g : R -> prog kvE R2) s :
  run_s3 (interp s3_backend (pbind p g)) s =
  let '(r, s') := run_s3 (interp s3_backend p) s in run_s3 (interp s3_backend (g r)) s'.
Proof.
  revert s. induction p as [r|A e k IH]; intros s; cbn; [done|]. rewrite !run_s3_bind.
  destruct (run_s3 (s3_backend A e) s) as [a s']. apply IH.
Qed.
Lemma run_interp_trigger {A} (e : kvE A) s :
  run_s3 (interp s3_backend (trigger e)) s = run_s3 (s3_backend A e) s.
Proof. cbn. rewrite run_s3_bind. by destruct (run_s3 (s3_backend A e) s). Qed.

Lemma s3_save_spec s w k e cond :
  same_entries s w -> encodable e ->
  put_allowed (objects s (bucket self) !! s3_key self k)
    (match cond with CreateOnly => Some (bs "*") | _ => None end)
    (match cond with IfMatch t => Some t | _ => None end) = true ->
  exists s', run_s3 (s3_save to_vec self k e cond) s = (Ok tt, s') /\ same_entries s' (put k e w).
Proof.
  intros Hs (b & Hb & Hd) Ha. unfold s3_save. rewrite Hb.
  assert (G : exists s', run_s3 (let! r := trigger (PutObject (bucket self) (s3_key self k) b
      (match cond with CreateOnly => Some (bs "*") | _ => None end)
      (match cond with IfMatch t => Some t | _ => None end)) in
      match r with SdkOk => Ret (Ok tt) | SdkError st msg => Ret (Err (put_error st msg)) end) s = (Ok tt, s') /\
      same_entries s' (put k e w)).
  { rewrite run_s3_bind. cbn [trigger run_s3].
    destruct (s3_put_ok s (bucket self) (s3_key self k) b _ _ Ha) as (t & s' & -> & Ho & Hc). cbn [run_s3].
    exists s'. split; [done|]. by eapply same_entries_put. }
  by destruct cond.
Qed.

(** Over an available S3 service a CAS call on [S3Storage] is,
    with no concurrent writer, the atomic read-modify-write of the reference
    backend: the same answer, and a bucket that still holds exactly the
    reference's entries - whatever the ETags the service hands out - provided
    the entries the closure writes survive the JSON codec. *)
Theorem s3_cas_refines {R} key (f : option StoredValue -> Result (CasAction R)) s w :
  same_entries s w ->
  (forall e e' r, f e = Ok (Write e' r) -> encodable e') ->
  exists s', run_s3 (interp s3_backend (cas key (pure_mod f))) s = (fst (atomic_update key f w), s') /\
    same_entries s' (snd (atomic_update key f w)).
Proof.
  intros Hs Hf. unfold cas, MAX_CAS_RETRIES. cbn [cas_from]. unfold cas_backoff at 1. cbn [Z.eqb pbind].
  rewrite run_interp_bind, run_interp_trigger.
  destruct (s3_load_spec s w key Hs) as (s1 & Hs1 & E). cbn [s3_backend]. rewrite E. clear E.
  unfold atomic_update. rewrite <- gc_live_lookup, gc_idem. pose proof (proj2 Hs1 key) as Hk.
  destruct (store (gc key w) !! key) as [[e v]|] eqn:Est;
    destruct (objects s1 (bucket self) !! s3_key self key) as [[b t]|] eqn:Eo; try done;
    cbn [option_map fst snd pure_mod pbind].
  - destruct (f (Some e)) as [[e' r|r|r]|err] eqn:Ef; try (eexists; split; [reflexivity|exact Hs1]).
    + rewrite run_interp_bind, run_interp_trigger. cbn [s3_backend].
      destruct (s3_save_spec s1 (gc key w) key e' (IfMatch t) Hs1 ltac:(eauto)) as (s2 & -> & Hs2).
      { rewrite Eo. cbn. by rewrite ?bool_decide_true. }
      by exists s2.
    + rewrite run_interp_bind, run_interp_trigger. cbn [s3_backend]. unfold s3_delete.
      rewrite run_s3_bind. cbn [trigger run_s3].
      destruct (s3_delete_ok s1 (bucket self) (s3_key self key) (Some t)) as (s2 & -> & Ho & Hc).
      { rewrite Eo. cbn. by rewrite ?bool_decide_true. }
      exists s2. split; [done|]. by eapply same_entries_delete.
  - destruct (f None) as [[e' r|r|r]|err] eqn:Ef; try (eexists; split; [reflexivity|exact Hs1]).
    + rewrite run_interp_bind, run_interp_trigger. cbn [s3_backend].
      destruct (s3_save_spec s1 (gc key w) key e' CreateOnly Hs1 ltac:(eauto)) as (s2 & -> & Hs2).
      { rewrite Eo. cbn. by rewrite ?bool_decide_true. }
      by exists s2.
    + eexists. split; [reflexivity|]. unfold remove. rewrite delete_id by done. by destruct (gc key w).
Qed.
End refinement.

(** [load]'s sweep of an expired entry is an unconditional delete.
    When another client writes the key between the sweep's read and its delete,
    the write is acknowledged and then destroyed: after both clients have
    finished the object is gone, although the value written has not expired.
    (The reference backend sweeps atomically; this is where S3 departs from it.) *)
Theorem s3_gc_loses_write {St} `{S3Service St} from_slice to_vec self key old new b body t (s : St) :
  objects s (bucket self) !! s3_key self key = Some (b, t) ->
  from_slice b = Ok old -> is_expired (s3_clock s) old = true ->
  to_vec new = Ok body -> is_expired (s3_clock s) new = false ->
  exists s', schedule [true; true; false; true] (s3_load from_slice self key) (s3_save to_vec self key new WAny) s
               = (Ret (Ok None), Ret (Ok tt), s') /\
             objects s' (bucket self) !! s3_key self key = None.
Proof.
  intros Ho Hd Hx Hb Hn. unfold s3_load, s3_save. rewrite Hb. cbn [trigger pbind schedule].
  rewrite s3_get, Ho. cbn [rbind]. rewrite Hd. cbn [trigger pbind schedule]. rewrite s3_now, Hx.
  destruct (s3_put_ok s (bucket self) (s3_key self key) body None None eq_refl) as (t' & s1 & -> & Ho1 & Hc1).
  unfold s3_delete. cbn [trigger pbind schedule].
  destruct (s3_delete_ok s1 (bucket self) (s3_key self key) None eq_refl) as (s2 & -> & Ho2 & Hc2).
  exists s2. split; [done|]. by rewrite Ho2, lookup_delete_eq.
Qed.

(** ** A service that keeps the promises

    One bucket in memory; an [ETag] is a write counter; deleting an object that is
    not there succeeds. *)
Record mem := { mem_objects : gmap Str (list byte * Str); mem_next : Z; mem_clock : Z }.

(** [ListObjectsV2], in key order: a token is the last key of its page. *)
Definition prefixed_keys {V} (m : gmap Str V) (p : Str) : list Str :=
  List.filter (fun k => bool_decide (is_Some (strip_prefix p k))) (map_keys m).
Definition list_objects {V} (m : gmap Str V) (p : Str) (cursor : option Str) (max_keys : option Z) : list_output :=
  let '(page, next) := take_page (prefixed_keys m p) cursor (Z.to_nat (page_limit max_keys)) in
  ListOk (map Some page) next.

Lemma list_objects_spec {V} (m : gmap Str V) p cursor max_keys :
  (forall n, max_keys = Some n -> 1 <= n) -> exists page next,
    list_objects m p cursor max_keys = ListOk (map Some page) next /\
    lists_page (fun k => is_Some (m !! k) /\ is_Some (strip_prefix p k)) key_after cursor page next /\
    len page <= page_limit max_keys.
Proof.
  intros Hn. unfold list_objects. set (limit := page_limit max_keys).
  assert (Hl : 1 <= limit) by (unfold limit, page_limit; destruct max_keys; [specialize (Hn z eq_refl)|]; lia).
  pose proof (take_page_spec (prefixed_keys m p) cursor (Z.to_nat limit)) as Hp.
  destruct (take_page _ _ _) as [page next]. destruct Hp as [Hp Hlen]; [apply sorted_filter, collected_sorted|lia|].
  exists page, next. split; [done|]. split; [|unfold len; lia].
  eapply lists_page_ext, Hp. intros k. unfold prefixed_keys. cbn beta.
  rewrite list_elem_of_In, List.filter_In, bool_decide_eq_true, <- list_elem_of_In, elem_of_map_keys. done.
Qed.

Definition mem_handle {A} (e : s3E A) (s : mem) : A * mem :=
  match e in s3E A return A * mem with
  | GetObject _ k =>
      (match mem_objects s !! k with Some (body, t) => GetOk (Ok body) (Some t) | None => GetNoSuchKey end, s)
  | PutObject _ k body inm im =>
      if put_allowed (mem_objects s !! k) inm im then
        (SdkOk, {| mem_objects := <[k := (body, print_Z (mem_next s))]> (mem_objects s);
                   mem_next := mem_next s + 1; mem_clock := mem_clock s |})
      else if bool_decide (mem_objects s !! k = None) then (SdkError (Some 404) "NoSuchKey", s)
      else (SdkError (Some 412) "PreconditionFailed", s)
  | DeleteObject _ k im =>
      if bool_decide (mem_objects s !! k = None) then (SdkOk, s)
      else if put_allowed (mem_objects s !! k) None im then
        (SdkOk, {| mem_objects := base.delete k (mem_objects s); mem_next := mem_next s; mem_clock := mem_clock s |})
      else (SdkError (Some 412) "PreconditionFailed", s)
  | ListObjectsV2 _ p cursor max_keys => (list_objects (mem_objects s) p cursor max_keys, s)
  | DeleteObjects _ ids =>
      (SdkOk, {| mem_objects := fold_left (fun m k => base.delete k m) ids (mem_objects s);
                 mem_next := mem_next s; mem_clock := mem_clock s |})
  | S3NowMs => (mem_clock s, s)
  | S3NowNanos => (mem_clock s * 1000000, s)
  end.

#[export] Instance mem_service : S3Service mem.
Proof.
  refine {| s3_handle := @mem_handle; objects := fun s _ => mem_objects s; s3_clock := mem_clock; s3_after := key_after |};
    intros; cbn -[put_allowed list_objects] in *; try done.
  - rewrite H. by eexists _, _.
  - rewrite H, H0. by eexists.
  - rewrite H. destruct inm; by eexists _, _.
  - case_bool_decide as Hk.
    + exists s. by rewrite delete_id.
    + rewrite H. by eexists.
  - rewrite H. cbn -[put_allowed]. rewrite H0. by eexists.
  - rewrite H. by eexists.
  - destruct (list_objects_spec (mem_objects s) p cursor max_keys H) as (page & next & -> & ?). by exists page, next.
  - by eexists.
  - by eexists.
Defined.

(** A codec that carries two entries, for concrete runs. *)
Definition old_entry : StoredValue := mk_entry (Some 10) (VString (bs "old")).
Definition new_entry : StoredValue := mk_entry None (VString (bs "new")).
Definition tiny_from_slice (b : list byte) : Result StoredValue :=
  if bool_decide (b = bs "old") then Ok old_entry else Ok new_entry.
Definition tiny_to_vec (e : StoredValue) : Result (list byte) :=
  Ok (if bool_decide (e = old_entry) then bs "old" else bs "new").
Definition tiny_storage : S3Storage := {| bucket := bs "b"; prefix := bs "p/" |}.

Lemma s3_cas_refines_witness :
  exists s', run_s3 (interp (s3_backend tiny_from_slice tiny_to_vec tiny_storage (Ret (Ok tt)))
      (cas (bs "k") (pure_mod (fun _ => Ok (Write new_entry 7))))) {| mem_objects := ∅; mem_next := 0; mem_clock := 1000 |}
    = (Ok 7, s') /\ same_entries tiny_from_slice tiny_storage s' (put (bs "k") new_entry empty_world).
Proof.
  destruct (s3_cas_refines tiny_from_slice tiny_to_vec tiny_storage (Ret (Ok tt)) (bs "k")
    (fun _ => Ok (Write new_entry 7)) {| mem_objects := ∅; mem_next := 0; mem_clock := 1000 |} empty_world) as (s' & E & Hs).
  - split; [reflexivity|]. intros k. cbn. rewrite !lookup_empty. exact I.
  - intros e e' r [= <- _]. exists (bs "new"). split; reflexivity.
  - exists s'. split; [exact E|exact Hs].
Defined.

Lemma s3_gc_loses_write_witness :
  exists s', schedule [true; true; false; true] (s3_load tiny_from_slice tiny_storage (bs "k"))
      (s3_save tiny_to_vec tiny_storage (bs "k") new_entry WAny)
      {| mem_objects := {[ bs "p/k" := (bs "old", bs "etag") ]}; mem_next := 0; mem_clock := 1000 |}
    = (Ret (Ok None), Ret (Ok tt), s') /\ mem_objects s' !! bs "p/k" = None.
Proof.
  destruct (s3_gc_loses_write tiny_from_slice tiny_to_vec tiny_storage (bs "k") old_entry new_entry (bs "old") (bs "new") (bs "etag")
    {| mem_objects := {[ bs "p/k" := (bs "old", bs "etag") ]}; mem_next := 0; mem_clock := 1000 |}) as (s' & E & Ho);
    [vm_compute; reflexivity..|].
  exists s'. split; [exact E|exact Ho].
Defined.
