(* ===== verification/Geo.v ===== *)
(** * Geo

    src/geo.rs: the 52-bit interleaved geohash stored as a ZSET score, the
    base32 geohash string, units, and the distance functions.  Floating-point
    arithmetic is IEEE ([spec_float]); the trigonometric functions, which Rust
    leaves to the platform's libm, are parameters. *)

From S2P Require Import Prelude.
From S2P Require Import Text.
From S2P Require Import F64.

(** ** More of [f64] *)

(** [a.mul_add(b, c)]: one rounding. *)
Definition f64_parts (v : f64) : option (Z * Z * bool) :=
  match v with
  | S754_zero s => Some (0, 0, s)
  | S754_finite s m e => Some (if s then Z.neg m else Z.pos m, e, s)
  | _ => None
  end.
Definition f64_mul_add (a b c : f64) : f64 :=
  match f64_parts a, f64_parts b, f64_parts c with
  | Some (ma, ea, sa), Some (mb, eb, sb), Some (mc, ec, sc) =>
      let ep := ea + eb in
      let e := Z.min ep ec in
      if mc =? 0 then
        if ma * mb =? 0 then S754_zero (xorb sa sb && sc)
        else binary_normalize 53 1024 (ma * mb) ep false
      else
      binary_normalize 53 1024 (ma * mb * 2 ^ (ep - e) + mc * 2 ^ (ec - e)) e false
  | Some _, Some _, None => c
  | _, _, _ => f64_add (f64_mul a b) c
  end.

(** [format!("{v:.p}")]: the nearest decimal of [p] digits, ties to even. *)
Definition display_fixed (p : Z) (v : f64) : Str :=
  match v with
  | S754_nan => bs "NaN"
  | S754_infinity s => if s then bs "-inf" else bs "inf"
  | S754_zero s => (if s then [x2d] else []) ++ bs "0." ++ repeat_zero p
  | S754_finite s m e =>
      let n := if 0 <=? e then Z.pos m * 2 ^ e * 10 ^ p else Z.pos m * 10 ^ p in
      let d := if 0 <=? e then 1 else 2 ^ (- e) in
      let q := n / d in
      let q := match Z.compare (2 * (n mod d)) d with
               | Lt => q | Gt => q + 1 | Eq => if Z.even q then q else q + 1 end in
      let frac := print_nonneg (q mod 10 ^ p) in
      (if s then [x2d] else []) ++ print_nonneg (q / 10 ^ p) ++ x2e :: repeat_zero (p - len frac) ++ frac
  end.
Definition display_fixed6 : f64 -> Str := display_fixed 6.

(** ** Constants and units *)

Definition LON_MIN : f64 := f64_lit "-180.0".
Definition LON_MAX : f64 := f64_lit "180.0".
Definition LAT_MIN : f64 := f64_lit "-85.05112878".
Definition LAT_MAX : f64 := f64_lit "85.05112878".
Definition STD_LAT_MIN : f64 := f64_lit "-90.0".
Definition STD_LAT_MAX : f64 := f64_lit "90.0".
Definition GEO_BITS : Z := 26.
Definition EARTH_RADIUS_M : f64 := f64_lit "6372797.560856".
Definition BASE32_ALPHABET : Str := bs "0123456789bcdefghjkmnpqrstuvwxyz".

Inductive GeoUnit := Meters | Kilometers | Miles | Feet.

Definition GeoUnit_parse (s : Str) : Result GeoUnit :=
  let l := to_ascii_lowercase s in
  if str_eqb l (bs "m") then Ok Meters
  else if str_eqb l (bs "km") then Ok Kilometers
  else if str_eqb l (bs "mi") then Ok Miles
  else if str_eqb l (bs "ft") then Ok Feet
  else Err (Parse (String.string_of_list_byte (bs "unsupported unit of distance: " ++ l))).

Definition GeoUnit_to_meters (u : GeoUnit) : f64 :=
  match u with
  | Meters => f64_lit "1.0"
  | Kilometers => f64_lit "1000.0"
  | Miles => f64_lit "1609.344"
  | Feet => f64_lit "0.3048"
  end.

(** [(lo..=hi).contains(&v)] *)
Definition range_contains (lo hi v : f64) : bool := f64_le lo v && f64_le v hi.

Definition validate_lon_lat (lon lat : f64) : Result unit :=
  if negb (range_contains LON_MIN LON_MAX lon) || negb (range_contains LAT_MIN LAT_MAX lat) then
    Err (Parse (String.string_of_list_byte
      (bs "invalid longitude,latitude pair " ++ display_fixed6 lon ++ x2c :: display_fixed6 lat)))
  else Ok tt.

(** ** Interleaving *)

Definition spread_bits (v : Z) : Z :=
  let x := Z.land v 0x3ffffff in
  let x := Z.land (Z.lor x (Z.shiftl x 16)) 0x0000ffff0000ffff in
  let x := Z.land (Z.lor x (Z.shiftl x 8)) 0x00ff00ff00ff00ff in
  let x := Z.land (Z.lor x (Z.shiftl x 4)) 0x0f0f0f0f0f0f0f0f in
  let x := Z.land (Z.lor x (Z.shiftl x 2)) 0x3333333333333333 in
  Z.land (Z.lor x (Z.shiftl x 1)) 0x5555555555555555.

Definition gather_bits (v : Z) : Z :=
  let x := Z.land v 0x5555555555555555 in
  let x := Z.land (Z.lor x (Z.shiftr x 1)) 0x3333333333333333 in
  let x := Z.land (Z.lor x (Z.shiftr x 2)) 0x0f0f0f0f0f0f0f0f in
  let x := Z.land (Z.lor x (Z.shiftr x 4)) 0x00ff00ff00ff00ff in
  let x := Z.land (Z.lor x (Z.shiftr x 8)) 0x0000ffff0000ffff in
  let x := Z.land (Z.lor x (Z.shiftr x 16)) 0x00000000ffffffff in
  Z.land x 0xffffffff.

Definition quantize (value min max : f64) (bits : Z) : Z :=
  let frac := f64_div (f64_sub value min) (f64_sub max min) in
  let cell := f64_as_uint 32 (f64_mul frac (f64_of_uint (Z.shiftl 1 bits))) in
  Z.min cell (Z.shiftl 1 bits - 1).

Definition dequantize (cell : Z) (min max : f64) (bits : Z) : f64 :=
  let span := f64_sub max min in
  let step := f64_div span (f64_of_uint (Z.shiftl 1 bits)) in
  f64_mul_add (f64_add (f64_of_uint cell) (f64_lit "0.5")) step min.

Definition encode_interleaved (lon lat lon_min lon_max lat_min lat_max : f64) : Z :=
  let lon_cell := quantize lon lon_min lon_max GEO_BITS in
  let lat_cell := quantize lat lat_min lat_max GEO_BITS in
  Z.lor (spread_bits lat_cell) (Z.shiftl (spread_bits lon_cell) 1).

Definition decode_interleaved (hash : Z) (lon_min lon_max lat_min lat_max : f64) : f64 * f64 :=
  let lat_cell := gather_bits hash in
  let lon_cell := gather_bits (Z.shiftr hash 1) in
  let lon := dequantize lon_cell lon_min lon_max GEO_BITS in
  let lat := dequantize lat_cell lat_min lat_max GEO_BITS in
  (lon, lat).

Definition encode_score (lon lat : f64) : Z := encode_interleaved lon lat LON_MIN LON_MAX LAT_MIN LAT_MAX.
Definition decode_score (score : Z) : f64 * f64 := decode_interleaved score LON_MIN LON_MAX LAT_MIN LAT_MAX.
Definition score_to_u64 (score : f64) : Z := f64_as_uint 64 score.

Definition base32 (idx : Z) : byte := nth (Z.to_nat idx) BASE32_ALPHABET x00.

Definition geohash_string (score : f64) : Str :=
  let '(lon, lat) := decode_score (score_to_u64 score) in
  let standard := encode_interleaved lon lat LON_MIN LON_MAX STD_LAT_MIN STD_LAT_MAX in
  map (fun i => base32 (Z.land (Z.shiftr standard (52 - (Z.of_nat i + 1) * 5)) 0x1f)) (List.seq 0 10)
    ++ [base32 0].

(** ** Distances *)

Section libm.
Variables sin cos : f64 -> f64.
Variable atan2 : f64 -> f64 -> f64.

(** [v.to_radians()]: multiply by [PI / 180]. *)
Definition to_radians (v : f64) : f64 :=
  f64_mul v (f64_div (f64_lit "3.14159265358979323846264338327950288") (f64_lit "180.0")).
Definition square (v : f64) : f64 := f64_mul v v.

Definition haversine_meters (lon1 lat1 lon2 lat2 : f64) : f64 :=
  let two := f64_lit "2.0" in
  let lat1r := to_radians lat1 in
  let lat2r := to_radians lat2 in
  let dlat := f64_div (to_radians (f64_sub lat2 lat1)) two in
  let dlon := f64_div (to_radians (f64_sub lon2 lon1)) two in
  let lat_term := square (sin dlat) in
  let lon_term := square (sin dlon) in
  let a := f64_mul_add (cos lat1r) (f64_mul (cos lat2r) lon_term) lat_term in
  let c := f64_mul two (atan2 (f64_sqrt a) (f64_sqrt (f64_sub (f64_lit "1.0") a))) in
  f64_mul EARTH_RADIUS_M c.

Definition point_in_box (centre_lon centre_lat width_m height_m point_lon point_lat : f64) : option f64 :=
  let two := f64_lit "2.0" in
  let lat_distance := haversine_meters f64_zero centre_lat f64_zero point_lat in
  let lon_distance := haversine_meters centre_lon centre_lat point_lon centre_lat in
  if f64_gt lat_distance (f64_div height_m two) || f64_gt lon_distance (f64_div width_m two) then None
  else Some (haversine_meters centre_lon centre_lat point_lon point_lat).
End libm.

(** ** Test vectors of src/geo.rs *)

Example palermo_score :
  geohash_string (f64_of_uint (encode_score (f64_lit "13.361389") (f64_lit "38.115556"))) = bs "sqc8b49rny0".
Proof. by vm_compute. Qed.
Example catania_score :
  geohash_string (f64_of_uint (encode_score (f64_lit "15.087269") (f64_lit "37.502669"))) = bs "sqdtr74hyu0".
Proof. by vm_compute. Qed.
Example lon_181_rejected :
  validate_lon_lat (f64_lit "-181.0") f64_zero = Err (Parse "invalid longitude,latitude pair -181.000000,0.000000").
Proof. by vm_compute. Qed.

(** ** The bit shuffles

    Both distribute over [Z.lor], so they are determined by the single bits. *)

Definition or_linear (f : Z -> Z) : Prop := f 0 = 0 /\ forall a b, f (Z.lor a b) = Z.lor (f a) (f b).

Lemma or_linear_id : or_linear (fun x => x).
Proof. done. Qed.
Lemma or_linear_land f m : or_linear f -> or_linear (fun x => Z.land (f x) m).
Proof. intros [H0 H]. split; [by rewrite H0|]. intros a b. by rewrite H, Z.land_lor_distr_l. Qed.
Lemma or_linear_shiftl f n : 0 <= n -> or_linear f -> or_linear (fun x => Z.shiftl (f x) n).
Proof. intros Hn [H0 H]. split; [by rewrite H0, Z.shiftl_0_l|]. intros a b. by rewrite H, Z.shiftl_lor. Qed.
Lemma or_linear_shiftr f n : or_linear f -> or_linear (fun x => Z.shiftr (f x) n).
Proof. intros [H0 H]. split; [by rewrite H0, Z.shiftr_0_l|]. intros a b. by rewrite H, Z.shiftr_lor. Qed.
Lemma or_linear_lor f g : or_linear f -> or_linear g -> or_linear (fun x => Z.lor (f x) (g x)).
Proof.
  intros [H0 H] [G0 G]. split; [by rewrite H0, G0|]. intros a b. rewrite H, G.
  rewrite !Z.lor_assoc. f_equal. by rewrite <- !Z.lor_assoc, (Z.lor_comm (f b)).
Qed.
Lemma or_linear_compose f g : or_linear f -> or_linear g -> or_linear (fun x => f (g x)).
Proof. intros [H0 H] [G0 G]. split; [by rewrite G0|]. intros a b. by rewrite G, H. Qed.

Create HintDb or_linear.
#[export] Hint Resolve or_linear_id or_linear_land or_linear_shiftr or_linear_lor : or_linear.
#[export] Hint Extern 1 (or_linear (fun x => Z.shiftl _ _)) => apply or_linear_shiftl; [lia|] : or_linear.

Lemma spread_linear : or_linear spread_bits.
Proof. unfold spread_bits. cbn zeta. auto 20 with or_linear. Qed.
Lemma gather_linear : or_linear gather_bits.
Proof. unfold gather_bits. cbn zeta. auto 20 with or_linear. Qed.

(** The top bit of a number below [2 ^ (n + 1)], split off. *)
Lemma split_top_bit n v : 0 <= n -> 0 <= v < 2 ^ (n + 1) ->
  exists r, 0 <= r < 2 ^ n /\ (v = r \/ v = Z.lor r (2 ^ n)).
Proof.
  intros Hn Hv. rewrite Z.pow_add_r in Hv by lia. destruct (decide (v < 2 ^ n)) as [|Hge]; [exists v; split; [lia|by left]|].
  exists (v - 2 ^ n). split; [lia|]. right.
  pose proof (Z.add_lor_land (v - 2 ^ n) (2 ^ n)) as E.
  assert (Hl : Z.land (v - 2 ^ n) (2 ^ n) = 0); [|rewrite Hl in E; lia].
  apply Z.bits_inj'. intros k Hk. rewrite Z.land_spec, Z.bits_0, Z.pow2_bits_eqb by done.
  destruct (Z.eqb_spec n k) as [<-|]; [|apply andb_false_r]. rewrite andb_true_r.
  destruct (decide (v - 2 ^ n = 0)) as [->|]; [apply Z.bits_0|].
  apply Z.bits_above_log2; [lia|]. apply Z.log2_lt_pow2; lia.
Qed.

(** Two [or_linear] functions that agree on every bit below [n] agree below [2 ^ n]. *)
Lemma or_linear_ext f g (n : nat) :
  or_linear f -> or_linear g -> forallb (fun i => f (2 ^ Z.of_nat i) =? g (2 ^ Z.of_nat i)) (List.seq 0 n) = true ->
  forall v, 0 <= v < 2 ^ Z.of_nat n -> f v = g v.
Proof.
  intros [Hf0 Hf] [Hg0 Hg]. induction n as [|n IH]; intros Hb v Hv.
  { cbn in Hv. assert (v = 0) as -> by lia. congruence. }
  rewrite seq_S, forallb_app in Hb. apply andb_prop in Hb as [Hb Hn]. cbn in Hn. rewrite andb_true_r in Hn.
  apply Z.eqb_eq in Hn. rewrite Nat2Z.inj_succ in Hv.
  destruct (split_top_bit (Z.of_nat n) v ltac:(lia) Hv) as (r & Hr & [-> | ->]); [auto|].
  rewrite Hf, Hg, Hn. f_equal. auto.
Qed.

Lemma gather_spread v : 0 <= v < 2 ^ 26 -> gather_bits (spread_bits v) = v.
Proof.
  apply (or_linear_ext (fun v => gather_bits (spread_bits v)) (fun v => v) 26).
  - apply or_linear_compose; [apply gather_linear|apply spread_linear].
  - apply or_linear_id.
  - by vm_compute.
Qed.
Lemma gather_spread_odd v : 0 <= v < 2 ^ 26 -> gather_bits (Z.shiftl (spread_bits v) 1) = 0.
Proof.
  apply (or_linear_ext (fun v => gather_bits (Z.shiftl (spread_bits v) 1)) (fun v => 0) 26); [|done|by vm_compute].
  apply (or_linear_compose gather_bits (fun v => Z.shiftl (spread_bits v) 1)); [apply gather_linear|].
  apply or_linear_shiftl; [lia|apply spread_linear].
Qed.
Lemma gather_spread_even v : 0 <= v < 2 ^ 26 -> gather_bits (Z.shiftr (spread_bits v) 1) = 0.
Proof.
  apply (or_linear_ext (fun v => gather_bits (Z.shiftr (spread_bits v) 1)) (fun v => 0) 26); [|done|by vm_compute].
  apply (or_linear_compose gather_bits (fun v => Z.shiftr (spread_bits v) 1)); [apply gather_linear|].
  apply or_linear_shiftr, spread_linear.
Qed.

Lemma spread_range v : 0 <= v < 2 ^ 26 -> 0 <= spread_bits v < 2 ^ 51.
Proof.
  intros Hv. assert (E : Z.land (spread_bits v) (Z.ones 51) = spread_bits v).
  { revert v Hv. apply (or_linear_ext (fun v => Z.land (spread_bits v) (Z.ones 51)) spread_bits 26).
    - apply or_linear_land, spread_linear.
    - apply spread_linear.
    - by vm_compute. }
  rewrite <- E, Z.land_ones by lia. apply Z.mod_pos_bound. lia.
Qed.

(** ** Integers below [2 ^ 53] are exact doubles *)

Lemma iter_xO_pow m p : Z.pos (Pos.iter xO m p) = Z.pos m * 2 ^ Z.pos p.
Proof.
  induction p as [|p IH] using Pos.peano_ind; [cbn; lia|].
  rewrite Pos.iter_succ, Pos2Z.inj_xO, IH, Pos2Z.inj_succ, Z.pow_succ_r by lia. lia.
Qed.

Lemma digits2_iter_xO m p : Z.pos (digits2_pos (Pos.iter xO m p)) = Z.pos (digits2_pos m) + Z.pos p.
Proof.
  induction p as [|p IH] using Pos.peano_ind; [cbn; lia|].
  rewrite Pos.iter_succ. cbn [digits2_pos]. rewrite Pos2Z.inj_succ, IH. lia.
Qed.

Lemma digits2_bounds m : 2 ^ (Z.pos (digits2_pos m) - 1) <= Z.pos m.
Proof.
  induction m as [m IH|m IH|]; cbn [digits2_pos]; [| |done];
    rewrite Pos2Z.inj_succ; replace (Z.succ (Z.pos (digits2_pos m)) - 1) with (Z.succ (Z.pos (digits2_pos m) - 1)) by lia;
    rewrite Z.pow_succ_r by lia; lia.
Qed.

Lemma binary_round_aux_exact mz ez :
  Z.pos (digits2_pos mz) = 53 -> -1074 <= ez <= 0 ->
  binary_round_aux 53 1024 false (Z.pos mz) ez loc_Exact = S754_finite false mz ez.
Proof.
  intros Hd He. unfold binary_round_aux, shr_fexp. cbn [shr_record_of_loc Zdigits2].
  assert (Hf : fexp 53 1024 (Z.pos (digits2_pos mz) + ez) - ez = 0) by (unfold fexp, emin; lia).
  rewrite Hf. cbn [shr shr_m loc_of_shr_record round_nearest_even Zdigits2 shr_record_of_loc]. rewrite Hf.
  cbn [shr shr_m]. by destruct (Z.leb_spec ez (1024 - 53)); [|lia].
Qed.

Lemma f64_of_uint_exact m : Z.pos m < 2 ^ 53 ->
  exists m' e, f64_of_uint (Z.pos m) = S754_finite false m' e /\ e <= 0 /\ Z.pos m' = Z.pos m * 2 ^ (- e).
Proof.
  intros Hm. unfold f64_of_uint. cbn [binary_normalize]. unfold binary_round.
  pose proof (digits2_bounds m) as Hb.
  assert (Hd : Z.pos (digits2_pos m) <= 53).
  { destruct (decide (Z.pos (digits2_pos m) <= 53)) as [|Hn]; [done|].
    assert (2 ^ 53 <= 2 ^ (Z.pos (digits2_pos m) - 1)) by (apply Z.pow_le_mono_r; lia). lia. }
  assert (Hf : fexp 53 1024 (Z.pos (digits2_pos m) + 0) = Z.pos (digits2_pos m) - 53) by (unfold fexp, emin; lia).
  rewrite Hf. unfold shl_align. rewrite Z.sub_0_r.
  destruct (Z.pos (digits2_pos m) - 53) as [|p|p] eqn:E; [|lia|].
  - rewrite binary_round_aux_exact by lia. exists m, 0. split; [done|]. split; [done|]. cbn. lia.
  - assert (Hd2 : Z.pos (digits2_pos (Pos.iter xO m p)) = 53) by (rewrite digits2_iter_xO; lia).
    rewrite binary_round_aux_exact by lia.
    eexists _, _. split; [reflexivity|]. split; [lia|]. apply iter_xO_pow.
Qed.

Lemma score_roundtrip n : 0 <= n < 2 ^ 53 -> score_to_u64 (f64_of_uint n) = n.
Proof.
  intros Hn. destruct n as [|m|m]; [done| |lia].
  destruct (f64_of_uint_exact m ltac:(lia)) as (m' & e & -> & He & Hm). unfold score_to_u64, f64_as_uint.
  assert (Hv : (if 0 <=? e then Z.pos m' * 2 ^ e else Z.pos m' / 2 ^ (- e)) = Z.pos m).
  { destruct (Z.leb_spec 0 e).
    - assert (e = 0) as -> by lia. cbn in *. lia.
    - rewrite Hm, Z.div_mul; [done|]. apply Z.pow_nonzero; lia. }
  rewrite Hv. apply Z.min_r. assert (2 ^ 53 <= 2 ^ 64 - 1) by done. lia.
Qed.

Lemma f64_as_uint_range w v : 0 <= w -> 0 <= f64_as_uint w v <= 2 ^ w - 1.
Proof.
  intros Hw. assert (1 <= 2 ^ w) by (pose proof (Z.pow_pos_nonneg 2 w); lia).
  destruct v as [s|s| |s m e]; cbn; [lia|destruct s; lia|lia|destruct s; [lia|]].
  assert (0 <= (if 0 <=? e then Z.pos m * 2 ^ e else Z.pos m / 2 ^ (- e))); [|lia].
  destruct (Z.leb_spec 0 e); [pose proof (Z.pow_pos_nonneg 2 e); nia|].
  apply Z.div_pos; [lia|]. apply Z.pow_pos_nonneg; lia.
Qed.

Lemma quantize_range v min max : 0 <= quantize v min max GEO_BITS < 2 ^ 26.
Proof.
  unfold quantize. cbv zeta. match goal with |- context [f64_as_uint 32 ?x] => pose proof (f64_as_uint_range 32 x ltac:(lia)) end.
  match goal with |- context [f64_as_uint 32 ?x] => set (c := f64_as_uint 32 x) in * end.
  change (Z.shiftl 1 GEO_BITS - 1) with (2 ^ 26 - 1). lia.
Qed.

Lemma interleave_spec a b :
  0 <= a < 2 ^ 26 -> 0 <= b < 2 ^ 26 ->
  let h := Z.lor (spread_bits a) (Z.shiftl (spread_bits b) 1) in
  0 <= h < 2 ^ 52 /\ gather_bits h = a /\ gather_bits (Z.shiftr h 1) = b.
Proof.
  intros Ha Hb. cbv zeta. destruct gather_linear as [_ Hg].
  pose proof (spread_range a Ha). pose proof (spread_range b Hb). split.
  - assert (Hs : 0 <= Z.shiftl (spread_bits b) 1 < 2 ^ 52) by (rewrite Z.shiftl_mul_pow2 by lia; lia).
    split; [apply Z.lor_nonneg; lia|].
    destruct (decide (Z.lor (spread_bits a) (Z.shiftl (spread_bits b) 1) = 0)) as [->|Hne]; [done|].
    assert (0 <= Z.lor (spread_bits a) (Z.shiftl (spread_bits b) 1)) by (apply Z.lor_nonneg; lia).
    apply Z.log2_lt_pow2; [lia|]. rewrite Z.log2_lor by lia.
    assert (forall x n, 0 <= x < 2 ^ n -> 0 < n -> Z.log2 x < n) as Hlog.
    { intros x n Hx Hn. destruct (decide (x = 0)) as [->|]; [done|]. apply Z.log2_lt_pow2; lia. }
    apply Z.max_lub_lt; apply Hlog; lia.
  - split.
    + by rewrite Hg, gather_spread, gather_spread_odd, Z.lor_0_r.
    + rewrite Z.shiftr_lor, Z.shiftr_shiftl_l, Z.sub_diag, Z.shiftl_0_r by lia.
      by rewrite Hg, gather_spread_even, gather_spread.
Qed.

(** C40: a geohash score is a 52-bit integer that survives the trip through
    the [f64] of the sorted set, and decoding gives back exactly the two 26-bit
    cells that longitude and latitude were quantized to, whatever the
    coordinates; the geohash string has eleven characters. *)
Theorem geo_score_roundtrip lon lat :
  let score := encode_score lon lat in
  let lon_cell := quantize lon LON_MIN LON_MAX GEO_BITS in
  let lat_cell := quantize lat LAT_MIN LAT_MAX GEO_BITS in
  0 <= score < 2 ^ 52 /\
  score_to_u64 (f64_of_uint score) = score /\
  0 <= lon_cell < 2 ^ 26 /\ 0 <= lat_cell < 2 ^ 26 /\
  decode_score (score_to_u64 (f64_of_uint score)) =
    (dequantize lon_cell LON_MIN LON_MAX GEO_BITS, dequantize lat_cell LAT_MIN LAT_MAX GEO_BITS) /\
  length (geohash_string (f64_of_uint score)) = 11%nat.
Proof.
  cbv zeta. pose proof (quantize_range lon LON_MIN LON_MAX) as Hlon. pose proof (quantize_range lat LAT_MIN LAT_MAX) as Hlat.
  unfold encode_score, encode_interleaved.
  set (a := quantize lon LON_MIN LON_MAX GEO_BITS) in *. set (b := quantize lat LAT_MIN LAT_MAX GEO_BITS) in *.
  destruct (interleave_spec b a Hlat Hlon) as (Hr & Hb & Ha). cbv zeta in Hr, Hb, Ha.
  set (h := Z.lor _ _) in *. split; [done|]. assert (h < 2 ^ 53) by lia.
  rewrite score_roundtrip by lia. split; [done|]. split; [done|]. split; [done|]. split.
  - unfold decode_score, decode_interleaved. by rewrite Hb, Ha.
  - unfold geohash_string. by destruct (decode_score _).
Qed.
