(* ===== verification/Dynamo.v ===== *)
(** * Dynamo

    src/dynamodb.rs: [DynamoDbBackend], the [KVBackend] over DynamoDB - one
    table per kind, an index table from key to kind, transactional writes.  The
    service and the JSON codec are parameters, with the documented behaviour
    the code relies on as laws. *)

From S2P Require Import Prelude.
From S2P Require Import Text.
From S2P Require Import BTree.
From S2P Require Import Pages.
From S2P Require Import F64.
From S2P Require Import Stream.
From S2P Require Import Value.
From S2P Require Import Backend.
From S2P Require Import Linearizability.
From S2P Require Import Contracts.
From S2P Require Import Collections.
From S2P Require Import Strings.
From S2P Require Import Keyspace.
From S2P Require Import S3.

(** ** Tables, attributes, tokens *)

Definition DEFAULT_TABLE_PREFIX : Str := bs "rustyant-".
Definition ATTR_PK : Str := bs "pk".
Definition ATTR_DATA : Str := bs "data".
Definition ATTR_VERSION : Str := bs "version".
Definition ATTR_KIND : Str := bs "kind".
Definition ATTR_TTL : Str := bs "ttl".
Definition MAX_ITEM_BYTES : Z := 380000.

Record TableNames := {
  t_index : Str; t_string : Str; t_hash : Str; t_list : Str; t_set : Str; t_zset : Str; t_stream : Str;
}.

Definition with_prefix (p : Str) : TableNames := {|
  t_index := p ++ bs "index"; t_string := p ++ bs "string"; t_hash := p ++ bs "hash"; t_list := p ++ bs "list";
  t_set := p ++ bs "set"; t_zset := p ++ bs "zset"; t_stream := p ++ bs "stream";
|}.
Definition TableNames_default : TableNames := with_prefix DEFAULT_TABLE_PREFIX.

Definition for_kind (t : TableNames) (k : ValueKind) : Str :=
  match k with
  | KString => t_string t
  | KHash => t_hash t
  | KList => t_list t
  | KSet => t_set t
  | KZSet => t_zset t
  | KStream => t_stream t
  end.

Definition iter_tables (t : TableNames) : list (ValueKind * Str) :=
  [(KString, t_string t); (KHash, t_hash t); (KList, t_list t); (KSet, t_set t); (KZSet, t_zset t);
   (KStream, t_stream t)].

(** [RustyAntError::Parse(format!(..))] and [S3(format!(..))] of runtime text. *)
Definition parse_err (s : Str) : RustyAntError := Parse (String.string_of_list_byte s).
Definition s3_err (what : Str) (msg : string) : RustyAntError :=
  S3 (String.string_of_list_byte (what ++ String.list_byte_of_string msg)).

Definition parse_kind (s : Str) : Result ValueKind :=
  if str_eqb s (bs "string") then Ok KString
  else if str_eqb s (bs "hash") then Ok KHash
  else if str_eqb s (bs "list") then Ok KList
  else if str_eqb s (bs "set") then Ok KSet
  else if str_eqb s (bs "zset") then Ok KZSet
  else if str_eqb s (bs "stream") then Ok KStream
  else Err (parse_err (bs "unknown kind: " ++ s)).

Definition encode_token (k : ValueKind) (version : Str) : Str := ValueKind_as_str k ++ x3a :: version.

Definition parse_token (token : Str) : Result (ValueKind * Str) :=
  let? (kind_str, version) := ok_or (split_once x3a token) (parse_err (bs "malformed CAS token: " ++ token)) in
  let? kind := parse_kind kind_str in
  Ok (kind, version).

(** [format!("{:016x}", n)] *)
Definition hex_digit (n : Z) : byte := nth (Z.to_nat n) (bs "0123456789abcdef") x00.
Definition hex16 (n : Z) : Str :=
  map (fun i => hex_digit (Z.land (Z.shiftr n (60 - 4 * Z.of_nat i)) 15)) (List.seq 0 16).

(** ** The SDK calls and the clock *)

Inductive AttributeValue := AvS (s : Str) | AvN (n : Str) | AvB (b : list byte) | AvOther.
#[export] Instance AttributeValue_eq_dec : EqDecision AttributeValue.
Proof. solve_decision. Defined.
Abbreviation item := (gmap Str AttributeValue).

(** The condition expressions the code builds: [attr = :v] and
    [attribute_not_exists(attr)]. *)
Inductive condition := AttrEq (attr : Str) (v : AttributeValue) | AttrNotExists (attr : Str).

Inductive TransactItem :=
| TPut (table : Str) (row : item) (cond : option condition)
| TDelete (table pk : Str) (cond : option condition).

Inductive get_item_output := ItemOk (row : option item) | ItemErr (msg : string).
Inductive scan_output := ScanOk (rows : list item) (last_evaluated_key : option item) | ScanErr (msg : string).
Inductive transact_output := TxOk | TxCancelled | TxErr (msg : string).

Inductive dynE : Type -> Type :=
| GetItem (table pk : Str) : dynE get_item_output
| Scan (table : Str) (limit : Z) (exclusive_start : option Str) : dynE scan_output
| TransactWriteItems (items : list TransactItem) : dynE transact_output
| DynNowMs : dynE Z
| DynNowNanos : dynE Z.

(** ** Reading rows *)

Definition as_s (v : AttributeValue) : option Str := match v with AvS s => Some s | _ => None end.
Definition as_b (v : AttributeValue) : option (list byte) := match v with AvB b => Some b | _ => None end.

Definition missing_attr (a : Str) : RustyAntError := S3 (String.string_of_list_byte
  (bs "dynamodb item missing `" ++ a ++ bs "` attribute")).
Definition attr_not (a : Str) (ty : Str) : RustyAntError := S3 (String.string_of_list_byte
  (bs "`" ++ a ++ bs "` attribute is not " ++ ty)).

Definition read_version_attr (row : item) : Result Str :=
  let? v := ok_or (row !! ATTR_VERSION) (missing_attr ATTR_VERSION) in
  ok_or (as_s v) (attr_not ATTR_VERSION (bs "String")).

Definition read_index_kind (tables : TableNames) (key : Str) : prog dynE (Result (option ValueKind)) :=
  let! res := trigger (GetItem (t_index tables) key) in
  match res with
  | ItemErr msg => Ret (Err (s3_err (bs "dynamodb get_item (index): ") msg))
  | ItemOk None => Ret (Ok None)
  | ItemOk (Some row) =>
      match row !! ATTR_KIND with
      | None => Ret (Ok None)
      | Some kind_attr =>
          Ret (let? kind_str := ok_or (as_s kind_attr) (attr_not ATTR_KIND (bs "String")) in
               rmap Some (parse_kind kind_str))
      end
  end.

Definition scan_index (tables : TableNames) (start_pk : option Str) (max_keys : Z)
    : prog dynE (Result (list Str * option Str)) :=
  let! resp := trigger (Scan (t_index tables) (i32_of_usize max_keys) start_pk) in
  match resp with
  | ScanErr msg => Ret (Err (s3_err (bs "dynamodb scan: ") msg))
  | ScanOk rows last =>
      let pk_of (row : item) := match row !! ATTR_PK with Some v => as_s v | None => None end in
      Ret (Ok (omap pk_of rows, match last with Some m => pk_of m | None => None end))
  end.

(** ** The methods *)

Definition tx_result (what : Str) (r : transact_output) : Result unit :=
  match r with
  | TxOk => Ok tt
  | TxCancelled => Err Contention
  | TxErr msg => Err (s3_err (bs "dynamodb transact_write_items (" ++ what ++ bs "): ") msg)
  end.

Definition dyn_delete (tables : TableNames) (key : Str) (cond : DeleteCondition) : prog dynE (Result unit) :=
  match cond with
  | DAny =>
      let!? kind := read_index_kind tables key in
      match kind with
      | None => Ret (Ok tt)
      | Some kind =>
          let! r := trigger (TransactWriteItems
            [TDelete (for_kind tables kind) key None; TDelete (t_index tables) key None]) in
          Ret (tx_result (bs "delete") r)
      end
  | DIfMatch token =>
      match parse_token token with
      | Err e => Ret (Err e)
      | Ok (token_kind, old_version) =>
          let! r := trigger (TransactWriteItems
            [TDelete (for_kind tables token_kind) key (Some (AttrEq ATTR_VERSION (AvS old_version)));
             TDelete (t_index tables) key (Some (AttrEq ATTR_KIND (AvS (ValueKind_as_str token_kind))))]) in
          Ret (tx_result (bs "delete") r)
      end
  end.

Section codec.
Variable from_slice : list byte -> Result StoredValue.
Variable to_vec : StoredValue -> Result (list byte).
Variable tables : TableNames.

Definition decode_item (row : item) : Result StoredValue :=
  let? data := ok_or (row !! ATTR_DATA) (missing_attr ATTR_DATA) in
  let? bytes := ok_or (as_b data) (attr_not ATTR_DATA (bs "Binary")) in
  from_slice bytes.

Definition get_one (kind : ValueKind) (key : Str) : prog dynE (Result (option (StoredValue * Str))) :=
  let! res := trigger (GetItem (for_kind tables kind) key) in
  match res with
  | ItemErr msg => Ret (Err (s3_err (bs "dynamodb get_item: ") msg))
  | ItemOk None => Ret (Ok None)
  | ItemOk (Some row) =>
      match (let? entry := decode_item row in let? version := read_version_attr row in Ok (entry, version)) with
      | Err e => Ret (Err e)
      | Ok (entry, version) =>
          let! now := trigger DynNowMs in
          if is_expired now entry then
            let! _ := dyn_delete tables key (DIfMatch (encode_token kind version)) in Ret (Ok None)
          else Ret (Ok (Some (entry, encode_token kind version)))
      end
  end.

Definition dyn_load (key : Str) : prog dynE (Result (option (StoredValue * Str))) :=
  let!? kind := read_index_kind tables key in
  match kind with
  | None => Ret (Ok None)
  | Some kind => get_one kind key
  end.

(** [(exp_ms / 1000).to_string()] of the rows' [ttl] attribute. *)
Definition with_ttl (entry : StoredValue) (row : item) : item :=
  match expires_at_ms entry with
  | Some exp => <[ATTR_TTL := AvN (print_Z (Z.quot exp 1000))]> row
  | None => row
  end.

Definition data_row (key : Str) (entry : StoredValue) (body : list byte) (version : Str) : item :=
  with_ttl entry (<[ATTR_VERSION := AvS version]> (<[ATTR_DATA := AvB body]> (<[ATTR_PK := AvS key]> ∅))).
Definition index_row (key : Str) (entry : StoredValue) (kind : ValueKind) : item :=
  with_ttl entry (<[ATTR_KIND := AvS (ValueKind_as_str kind)]> (<[ATTR_PK := AvS key]> ∅)).

Definition dyn_save (key : Str) (entry : StoredValue) (cond : WriteCondition) : prog dynE (Result unit) :=
  let new_kind := ValueKind_of (value entry) in
  match to_vec entry with
  | Err e => Ret (Err e)
  | Ok body =>
      if MAX_ITEM_BYTES <? len body then
        Ret (Err (parse_err (bs "value exceeds DynamoDB per-item limit (" ++ print_Z (len body) ++
                             bs " bytes > " ++ print_Z MAX_ITEM_BYTES ++ bs ")")))
      else
        let! nanos := trigger DynNowNanos in
        let new_version := hex16 (rand_of_nanos nanos) in
        let!? observed_kind :=
          match cond with
          | WAny | CreateOnly => read_index_kind tables key
          | IfMatch token =>
              match parse_token token with
              | Err e => Ret (Err e)
              | Ok (token_kind, _) =>
                  if bool_decide (token_kind <> new_kind) then Ret (Err Contention)
                  else Ret (Ok (Some token_kind))
              end
          end in
        match cond, observed_kind with
        | CreateOnly, Some _ => Ret (Err Contention)
        | _, _ =>
            match (match cond with
                   | IfMatch token =>
                       let? (_, old_version) := parse_token token in
                       Ok (Some (AttrEq ATTR_VERSION (AvS old_version)))
                   | _ => Ok None
                   end) with
            | Err e => Ret (Err e)
            | Ok data_cond =>
                let data_put := TPut (for_kind tables new_kind) (data_row key entry body new_version) data_cond in
                let index_cond :=
                  match observed_kind with
                  | None => AttrNotExists ATTR_PK
                  | Some k => AttrEq ATTR_KIND (AvS (ValueKind_as_str k))
                  end in
                let index_put := TPut (t_index tables) (index_row key entry new_kind) (Some index_cond) in
                let orphan :=
                  match observed_kind with
                  | Some old_kind =>
                      if bool_decide (old_kind <> new_kind) then [TDelete (for_kind tables old_kind) key None] else []
                  | None => []
                  end in
                let! r := trigger (TransactWriteItems (data_put :: index_put :: orphan)) in
                Ret (tx_result (bs "save") r)
            end
        end
  end.

Definition dyn_list_page (cursor : option Str) (max_keys : Z) : prog dynE (Result ListPage) :=
  let!? (keys, next) := scan_index tables cursor max_keys in
  Ret (Ok {| lp_keys := keys; lp_next_cursor := next |}).
End codec.

(** ** The service *)

Definition cond_holds (row : option item) (c : option condition) : bool :=
  match c with
  | None => true
  | Some (AttrEq a v) => match row with Some r => bool_decide (r !! a = Some v) | None => false end
  | Some (AttrNotExists a) => match row with Some r => bool_decide (r !! a = None) | None => true end
  end.

(** All tables of the service: table name, then partition key. *)
Abbreviation db := (gmap (Str * Str) item).

Definition pk_of_row (row : item) : Str :=
  match row !! ATTR_PK with Some v => match as_s v with Some k => k | None => [] end | None => [] end.
Definition tx_key (t : TransactItem) : Str * Str :=
  match t with
  | TPut table row _ => (table, pk_of_row row)
  | TDelete table pk _ => (table, pk)
  end.
Definition tx_holds (d : db) (t : TransactItem) : bool :=
  cond_holds (d !! tx_key t) match t with TPut _ _ c | TDelete _ _ c => c end.
Definition tx_apply (d : db) (t : TransactItem) : db :=
  match t with
  | TPut _ row _ => <[tx_key t := row]> d
  | TDelete _ _ _ => base.delete (tx_key t) d
  end.

(** The items of a page of a scan: [ProjectionExpression] is the partition key. *)
Definition pk_item (k : Str) : item := {[ATTR_PK := AvS k]}.

(** What the DynamoDB documentation promises of an available service:
    consistent reads, transactions that apply every item or - when a condition
    fails - none and are cancelled, and scans that walk a table's items in a fixed
    order and resume after the key they are given.  A scan is eventually consistent:
    of a row written lately it may show an earlier state. *)
Class DynService (St : Type) := {
  dyn_handle : forall A, dynE A -> St -> A * St;
  rows : St -> db;
  dyn_clock : St -> Z;
  dyn_get : forall s t k, dyn_handle _ (GetItem t k) s = (ItemOk (rows s !! (t, k)), s);
  dyn_tx_ok : forall s items, NoDup (map tx_key items) -> forallb (tx_holds (rows s)) items = true ->
    exists s', dyn_handle _ (TransactWriteItems items) s = (TxOk, s') /\
      rows s' = fold_left tx_apply items (rows s) /\ dyn_clock s' = dyn_clock s;
  dyn_tx_cancel : forall s items, NoDup (map tx_key items) -> forallb (tx_holds (rows s)) items = false ->
    dyn_handle _ (TransactWriteItems items) s = (TxCancelled, s);
  dyn_now : forall s, dyn_handle _ DynNowMs s = (dyn_clock s, s);
  dyn_nanos : forall s, exists n, dyn_handle _ DynNowNanos s = (n, s);
  dyn_after : option Str -> Str -> Prop;
  dyn_after_none : forall k, dyn_after None k;
  dyn_recent : St -> Str -> Str -> Prop;
  dyn_tx_recent : forall s items r s', dyn_handle _ (TransactWriteItems items) s = (r, s') ->
    forall t k, dyn_recent s' t k -> dyn_recent s t k \/ (t, k) ∈ map tx_key items;
  dyn_scan : forall s t n start, 1 <= n -> exists view page next,
    dyn_handle _ (Scan t n start) s = (ScanOk (map pk_item page) (pk_item <$> next), s) /\
    (forall k, ~ dyn_recent s t k -> (view k <-> is_Some (rows s !! (t, k)))) /\
    lists_page view dyn_after start page next /\ len page <= n;
}.

Fixpoint run_dyn {St} `{DynService St} {R} (p : prog dynE R) (s : St) : R * St :=
  match p with
  | Ret r => (r, s)
  | Vis e k => let '(a, s') := dyn_handle _ e s in run_dyn (k a) s'
  end.

(** ** Tokens *)

Lemma parse_kind_as_str k : parse_kind (ValueKind_as_str k) = Ok k.
Proof. by destruct k. Qed.

Lemma kind_no_colon k : Forall (fun b => b <> x3a) (ValueKind_as_str k).
Proof. destruct k; cbn; repeat constructor; done. Qed.

Lemma parse_encode_token k v : parse_token (encode_token k v) = Ok (k, v).
Proof.
  unfold parse_token, encode_token. rewrite split_once_app by apply kind_no_colon.
  cbn [ok_or rbind]. by rewrite parse_kind_as_str.
Qed.

Lemma kind_str_inj k1 k2 : ValueKind_as_str k1 = ValueKind_as_str k2 -> k1 = k2.
Proof. by destruct k1, k2. Qed.

(** The seven tables have different names. *)
Definition tables_distinct (t : TableNames) : Prop := NoDup (t_index t :: map snd (iter_tables t)).

Lemma with_prefix_distinct p : tables_distinct (with_prefix p).
Proof.
  unfold tables_distinct. cbn. repeat (apply NoDup_cons; split; [|]); try apply NoDup_nil_2;
    rewrite ?elem_of_cons, elem_of_nil; intros H; destruct_or?; try done;
    match goal with E : p ++ _ = p ++ _ |- _ => by apply app_inv_head in E end.
Qed.

Lemma for_kind_inj t k1 k2 : tables_distinct t -> for_kind t k1 = for_kind t k2 -> k1 = k2.
Proof.
  intros H E. unfold tables_distinct in H. cbn in H. rewrite !NoDup_cons, !elem_of_cons in H.
  destruct k1, k2; cbn in E; try done; exfalso; naive_solver.
Qed.
Lemma for_kind_not_index t k : tables_distinct t -> for_kind t k <> t_index t.
Proof.
  intros H E. unfold tables_distinct in H. cbn in H. rewrite !NoDup_cons, !elem_of_cons in H.
  destruct k; cbn in E; naive_solver.
Qed.

Lemma run_dyn_bind {St} `{DynService St} {R R2} (p : prog dynE R) (g : R -> prog dynE R2) s :
  run_dyn (pbind p g) s = let '(r, s') := run_dyn p s in run_dyn (g r) s'.
Proof.
  revert s. induction p as [r|A e k IH]; intros s; cbn; [done|].
  destruct (dyn_handle _ e s) as [a s']. apply IH.
Qed.

(** Evaluates the conditions of a transaction. *)
Ltac tx_eval := unfold tx_holds; cbn [forallb tx_key cond_holds].

(** ** Refinement of the reference backend *)

Section refinement.
Context {St : Type} `{DynService St}.
Variable from_slice : list byte -> Result StoredValue.
Variable to_vec : StoredValue -> Result (list byte).
Variable tables : TableNames.
Hypothesis distinct : tables_distinct tables.

(** An entry the codec carries and DynamoDB's item limit admits. *)
Definition storable (e : StoredValue) : Prop :=
  exists b, to_vec e = Ok b /\ from_slice b = Ok e /\ len b <= MAX_ITEM_BYTES.

Abbreviation kind_of_entry e := (ValueKind_of (value e)).
Abbreviation data_table e := (for_kind tables (kind_of_entry e)).

(** The key's data row is in the table of its kind and nowhere else, and the
    index row names that kind. *)
Definition stored_as (d : db) (k : Str) (e : StoredValue) : Prop :=
  (exists irow, d !! (t_index tables, k) = Some irow /\
                irow !! ATTR_KIND = Some (AvS (ValueKind_as_str (kind_of_entry e)))) /\
  (exists drow v, d !! (data_table e, k) = Some drow /\ decode_item from_slice drow = Ok e /\
                  drow !! ATTR_VERSION = Some (AvS v)) /\
  (forall k', k' <> kind_of_entry e -> d !! (for_kind tables k', k) = None).
Definition absent (d : db) (k : Str) : Prop :=
  d !! (t_index tables, k) = None /\ forall k', d !! (for_kind tables k', k) = None.

Definition same_rows (s : St) (w : world) : Prop :=
  dyn_clock s = clock_ms w /\
  forall k, match store w !! k with
            | Some (e, _) => stored_as (rows s) k e
            | None => absent (rows s) k
            end.

Definition version_of (d : db) (k : Str) (e : StoredValue) : option Str :=
  match d !! (data_table e, k) with Some r => match r !! ATTR_VERSION with Some v => as_s v | None => None end
  | None => None end.

Lemma stored_as_ne d d' k e : (forall t, d' !! (t, k) = d !! (t, k)) -> stored_as d k e -> stored_as d' k e.
Proof.
  intros E (H1 & H2 & H3). unfold stored_as. rewrite !E. split; [done|]. split; [done|].
  intros k' Hk'. rewrite E. auto.
Qed.
Lemma absent_ne d d' k : (forall t, d' !! (t, k) = d !! (t, k)) -> absent d k -> absent d' k.
Proof. intros E [H1 H2]. unfold absent. rewrite E. split; [done|]. intros k'. by rewrite E. Qed.

Lemma stored_as_version d k e : stored_as d k e -> exists v, version_of d k e = Some v.
Proof. intros (_ & (r & v & Hr & _ & Hv) & _). exists v. unfold version_of. by rewrite Hr, Hv. Qed.

(** *** Deleting *)

Lemma same_rows_remove s w s' k e :
  same_rows s w -> stored_as (rows s) k e ->
  rows s' = base.delete (t_index tables, k) (base.delete (data_table e, k) (rows s)) ->
  dyn_clock s' = dyn_clock s -> same_rows s' (remove k w).
Proof.
  intros [Hc Hs] Hk Hr Hc'. split; [by rewrite Hc'|]. intros k2. cbn.
  destruct (decide (k = k2)) as [<-|Hne].
  - rewrite lookup_delete_eq. rewrite Hr. split; [by rewrite lookup_delete_eq|]. intros k'.
    destruct Hk as (_ & _ & Hn). pose proof (for_kind_not_index tables k' distinct).
    rewrite lookup_delete_ne by congruence.
    destruct (decide (k' = kind_of_entry e)) as [->|Hk']; [by rewrite lookup_delete_eq|].
    rewrite lookup_delete_ne; [by apply Hn|]. intros [= E]. by apply for_kind_inj in E.
  - rewrite lookup_delete_ne by done. specialize (Hs k2).
    assert (E : forall t, rows s' !! (t, k2) = rows s !! (t, k2)).
    { intros t. by rewrite Hr, !lookup_delete_ne by congruence. }
    destruct (store w !! k2) as [[e2 v2]|]; [by apply (stored_as_ne (rows s))|by apply (absent_ne (rows s))].
Qed.

Lemma dyn_delete_match s w k e v :
  same_rows s w -> stored_as (rows s) k e -> version_of (rows s) k e = Some v ->
  exists s', run_dyn (dyn_delete tables k (DIfMatch (encode_token (kind_of_entry e) v))) s = (Ok tt, s') /\
    same_rows s' (remove k w).
Proof.
  intros Hs Hk Hv. unfold dyn_delete. rewrite parse_encode_token, run_dyn_bind. cbn [trigger run_dyn].
  pose proof Hk as ((irow & Hi & Hik) & (drow & v' & Hd & _ & Hdv) & _).
  assert (v' = v) as -> by (unfold version_of in Hv; rewrite Hd, Hdv in Hv; by injection Hv).
  match goal with |- context [dyn_handle _ (TransactWriteItems ?l) s] =>
    destruct (dyn_tx_ok s l) as (s' & -> & Hr & Hc) end.
  - cbn. pose proof (for_kind_not_index tables (kind_of_entry e) distinct).
    apply NoDup_cons; split; [rewrite list_elem_of_singleton; congruence|apply NoDup_singleton].
  - tx_eval. rewrite Hd, Hi, Hdv, Hik. by rewrite !bool_decide_true.
  - exists s'. split; [done|]. by eapply same_rows_remove.
Qed.

(** *** Loading *)

Lemma read_index_stored s k e :
  stored_as (rows s) k e -> run_dyn (read_index_kind tables k) s = (Ok (Some (kind_of_entry e)), s).
Proof.
  intros ((irow & Hi & Hik) & _). unfold read_index_kind. rewrite run_dyn_bind. cbn [trigger run_dyn].
  rewrite dyn_get. cbn [run_dyn]. rewrite Hi, Hik. cbn [as_s ok_or rbind]. by rewrite parse_kind_as_str.
Qed.
Lemma read_index_absent s k : absent (rows s) k -> run_dyn (read_index_kind tables k) s = (Ok None, s).
Proof.
  intros [Hi _]. unfold read_index_kind. rewrite run_dyn_bind. cbn [trigger run_dyn].
  rewrite dyn_get. cbn [run_dyn]. by rewrite Hi.
Qed.

Lemma dyn_load_spec s w k :
  same_rows s w ->
  exists s', same_rows s' (gc k w) /\
    run_dyn (dyn_load from_slice tables k) s =
      (Ok (match store (gc k w) !! k with
           | Some (e, _) => option_map (fun v => (e, encode_token (kind_of_entry e) v)) (version_of (rows s') k e)
           | None => None end), s').
Proof.
  intros Hs. pose proof Hs as [Hc Hk]. specialize (Hk k). unfold dyn_load. rewrite run_dyn_bind.
  unfold gc. destruct (store w !! k) as [[e ver]|] eqn:Ew.
  - rewrite (read_index_stored s k e Hk). unfold get_one. rewrite run_dyn_bind. cbn [trigger run_dyn].
    rewrite dyn_get. cbn [run_dyn]. destruct (stored_as_version _ _ _ Hk) as [v Hv].
    pose proof Hk as (_ & (drow & v' & Hd & Hdec & Hdv) & _).
    assert (v' = v) as -> by (unfold version_of in Hv; rewrite Hd, Hdv in Hv; by injection Hv).
    rewrite Hd, Hdec. unfold read_version_attr. rewrite Hdv. cbn [ok_or as_s rbind].
    rewrite run_dyn_bind. cbn [trigger run_dyn]. rewrite dyn_now, Hc. cbn [run_dyn].
    destruct (is_expired (clock_ms w) e) eqn:Ex.
    + rewrite run_dyn_bind. destruct (dyn_delete_match s w k e v Hs Hk Hv) as (s' & -> & Hs').
      exists s'. split; [done|]. cbn. by rewrite lookup_delete_eq.
    + exists s. split; [done|]. by rewrite Ew, Hv.
  - rewrite (read_index_absent s k Hk). exists s. split; [done|]. by rewrite Ew.
Qed.

(** *** Saving *)

Lemma with_ttl_lookup e r a : a <> ATTR_TTL -> with_ttl e r !! a = r !! a.
Proof. intros Ha. unfold with_ttl. destruct (expires_at_ms e); [by rewrite lookup_insert_ne|done]. Qed.

Lemma data_row_lookup k e b v :
  data_row k e b v !! ATTR_VERSION = Some (AvS v) /\ data_row k e b v !! ATTR_DATA = Some (AvB b) /\
  pk_of_row (data_row k e b v) = k.
Proof. unfold data_row, pk_of_row. by rewrite !with_ttl_lookup by done. Qed.
Lemma index_row_lookup k e kd :
  index_row k e kd !! ATTR_KIND = Some (AvS (ValueKind_as_str kd)) /\ pk_of_row (index_row k e kd) = k.
Proof. unfold index_row, pk_of_row. by rewrite !with_ttl_lookup by done. Qed.

Lemma same_rows_put s w s' k e b v :
  same_rows s w -> from_slice b = Ok e ->
  (forall k', k' <> kind_of_entry e -> rows s !! (for_kind tables k', k) = None) ->
  rows s' = <[(t_index tables, k) := index_row k e (kind_of_entry e)]>
              (<[(data_table e, k) := data_row k e b v]> (rows s)) ->
  dyn_clock s' = dyn_clock s -> same_rows s' (put k e w).
Proof.
  intros [Hc Hs] Hb Hother Hr Hc'. split; [by rewrite Hc', clock_put|]. intros k2. cbn.
  pose proof (for_kind_not_index tables) as Hni.
  destruct (decide (k = k2)) as [<-|Hne].
  - rewrite lookup_insert_eq, Hr. destruct (data_row_lookup k e b v) as (H1 & H2 & _).
    destruct (index_row_lookup k e (kind_of_entry e)) as [H3 _].
    split; [|split].
    + eexists. by rewrite lookup_insert_eq.
    + exists (data_row k e b v), v. rewrite lookup_insert_ne by (intros [= E]; by apply (Hni (kind_of_entry e) distinct)).
      rewrite lookup_insert_eq. split; [done|]. split; [|done]. unfold decode_item. by rewrite H2.
    + intros k' Hk'. rewrite lookup_insert_ne by (intros [= E]; by apply (Hni k' distinct)).
      rewrite lookup_insert_ne; [by apply Hother|]. intros [= E]. by apply for_kind_inj in E.
  - rewrite lookup_insert_ne by done. specialize (Hs k2).
    assert (E : forall t, rows s' !! (t, k2) = rows s !! (t, k2)).
    { intros t. by rewrite Hr, !lookup_insert_ne by congruence. }
    destruct (store w !! k2) as [[e2 v2]|]; [by apply (stored_as_ne (rows s))|by apply (absent_ne (rows s))].
Qed.

(** Saving over the version just loaded, or creating an absent key. *)
Definition save_ready (d : db) (k : Str) (e : StoredValue) (cond : WriteCondition) : Prop :=
  match cond with
  | IfMatch t => exists e0 v, stored_as d k e0 /\ kind_of_entry e0 = kind_of_entry e /\
                              version_of d k e0 = Some v /\ t = encode_token (kind_of_entry e0) v
  | _ => absent d k
  end.

Lemma tx_keys_distinct k e b v c1 c2 :
  NoDup (map tx_key [TPut (data_table e) (data_row k e b v) c1; TPut (t_index tables) (index_row k e (kind_of_entry e)) c2]).
Proof.
  cbn [map tx_key]. destruct (data_row_lookup k e b v) as (_ & _ & ->). destruct (index_row_lookup k e (kind_of_entry e)) as [_ ->].
  pose proof (for_kind_not_index tables (kind_of_entry e) distinct).
  apply NoDup_cons; split; [rewrite list_elem_of_singleton; congruence|apply NoDup_singleton].
Qed.

Lemma dyn_save_spec s w k e cond :
  same_rows s w -> storable e -> save_ready (rows s) k e cond ->
  exists s', run_dyn (dyn_save to_vec tables k e cond) s = (Ok tt, s') /\ same_rows s' (put k e w).
Proof.
  intros Hs (b & Hb & Hdec & Hl) Hr. unfold dyn_save. rewrite Hb.
  destruct (Z.ltb_spec MAX_ITEM_BYTES (len b)); [lia|]. rewrite run_dyn_bind. cbn [trigger run_dyn].
  destruct (dyn_nanos s) as [n ->]. cbn [run_dyn]. set (v := hex16 _).
  assert (Hfin : forall s1 c1 c2 K, rows s1 = rows s -> dyn_clock s1 = dyn_clock s -> same_rows s1 w ->
    (forall k', k' <> kind_of_entry e -> rows s !! (for_kind tables k', k) = None) ->
    forallb (tx_holds (rows s)) [TPut (data_table e) (data_row k e b v) c1;
      TPut (t_index tables) (index_row k e (kind_of_entry e)) c2] = true ->
    (forall r, K r = Ret (tx_result (bs "save") r)) ->
    exists s', run_dyn (pbind (trigger (TransactWriteItems [TPut (data_table e) (data_row k e b v) c1;
      TPut (t_index tables) (index_row k e (kind_of_entry e)) c2])) K) s1 = (Ok tt, s') /\ same_rows s' (put k e w)).
  { intros s1 c1 c2 K Hr1 Hc1 Hs1 Hother Hh HK. rewrite run_dyn_bind. cbn [trigger run_dyn].
    rewrite <- Hr1 in Hh.
    destruct (dyn_tx_ok s1 _ (tx_keys_distinct k e b v c1 c2) Hh) as (s' & -> & Hrows & Hclk).
    cbn [run_dyn]. rewrite HK. exists s'. split; [done|].
    eapply same_rows_put; [done|done|by rewrite Hr1| |done].
    rewrite Hrows. cbn [fold_left tx_apply tx_key]. destruct (data_row_lookup k e b v) as (_ & _ & ->).
    by destruct (index_row_lookup k e (kind_of_entry e)) as [_ ->]. }
  destruct cond as [| |t]; cbn [save_ready] in Hr.
  - rewrite run_dyn_bind, (read_index_absent s k Hr). cbn [app]. apply Hfin; try done; [intros k' _; by apply Hr|].
    tx_eval. destruct (index_row_lookup k e (kind_of_entry e)) as [_ ->]. by rewrite (proj1 Hr).
  - rewrite run_dyn_bind, (read_index_absent s k Hr). cbn [app]. apply Hfin; try done; [intros k' _; by apply Hr|].
    tx_eval. destruct (index_row_lookup k e (kind_of_entry e)) as [_ ->]. by rewrite (proj1 Hr).
  - destruct Hr as (e0 & v0 & Hst & Hkd & Hv0 & ->). rewrite parse_encode_token. cbn [rbind].
    rewrite Hkd. rewrite bool_decide_false by tauto. cbn [pbind].
    rewrite bool_decide_false by tauto.
    pose proof Hst as ((irow & Hi & Hik) & (drow & v' & Hd & _ & Hdv) & Hother). rewrite Hkd in *.
    assert (v' = v0) as -> by (unfold version_of in Hv0; rewrite Hkd, Hd, Hdv in Hv0; by injection Hv0).
    apply Hfin; try done. tx_eval. destruct (data_row_lookup k e b v) as (_ & _ & ->).
    destruct (index_row_lookup k e (kind_of_entry e)) as [_ ->]. rewrite Hd, Hi, Hdv, Hik.
    by rewrite !bool_decide_true.
Qed.

(** *** Unconditional saves and deletes, and creation *)

(** A save replaces whatever rows the key has, an orphan of another kind
    included. *)
Lemma same_rows_replace s w s' k e b v :
  same_rows s w -> from_slice b = Ok e ->
  rows s' !! (t_index tables, k) = Some (index_row k e (kind_of_entry e)) ->
  rows s' !! (data_table e, k) = Some (data_row k e b v) ->
  (forall k', k' <> kind_of_entry e -> rows s' !! (for_kind tables k', k) = None) ->
  (forall t k2, k2 <> k -> rows s' !! (t, k2) = rows s !! (t, k2)) ->
  dyn_clock s' = dyn_clock s -> same_rows s' (put k e w).
Proof.
  intros [Hc Hs] Hb Hi Hd Ho Hne Hc'. split; [by rewrite Hc', clock_put|]. intros k2. cbn.
  destruct (decide (k = k2)) as [<-|Hk].
  - rewrite lookup_insert_eq. destruct (data_row_lookup k e b v) as (H1 & H2 & _).
    destruct (index_row_lookup k e (kind_of_entry e)) as [H3 _]. split; [by eexists|]. split; [|done].
    exists (data_row k e b v), v. unfold decode_item. by rewrite H2.
  - rewrite lookup_insert_ne by done. specialize (Hs k2).
    destruct (store w !! k2) as [[e2 v2]|]; [apply (stored_as_ne (rows s))|apply (absent_ne (rows s))]; auto.
Qed.

Lemma dyn_save_any_spec s w k e :
  same_rows s w -> storable e ->
  exists s', run_dyn (dyn_save to_vec tables k e WAny) s = (Ok tt, s') /\ same_rows s' (put k e w).
Proof.
  intros Hs He. pose proof (proj2 Hs k) as Hk. destruct (store w !! k) as [[e0 ver]|] eqn:Ew; [|by apply dyn_save_spec].
  destruct He as (b & Hb & Hdec & Hl). unfold dyn_save. rewrite Hb.
  destruct (Z.ltb_spec MAX_ITEM_BYTES (len b)); [lia|]. rewrite run_dyn_bind. cbn [trigger run_dyn].
  destruct (dyn_nanos s) as [n ->]. cbn [run_dyn]. set (v := hex16 _).
  rewrite run_dyn_bind, (read_index_stored s k e0 Hk).
  destruct (data_row_lookup k e b v) as (_ & _ & Hpk). destruct (index_row_lookup k e (kind_of_entry e)) as [_ Hpi].
  pose proof Hk as ((irow & Hi & Hik) & (drow & v0 & Hd0 & _ & Hdv0) & Hother).
  pose proof (for_kind_not_index tables (kind_of_entry e) distinct) as Hni.
  pose proof (for_kind_not_index tables (kind_of_entry e0) distinct) as Hni0.
  set (items := _ :: _ :: _). rewrite run_dyn_bind. cbn [trigger run_dyn].
  assert (Hne : kind_of_entry e0 <> kind_of_entry e -> data_table e0 <> data_table e).
  { intros Hk0 E. apply Hk0. by eapply for_kind_inj. }
  destruct (dyn_tx_ok s items) as (s' & -> & Hr & Hclk).
  - unfold items. case_bool_decide as Hk0; cbn [map tx_key]; rewrite Hpk, Hpi.
    + specialize (Hne Hk0). rewrite !NoDup_cons, !elem_of_cons. pose proof (@NoDup_nil_2 (Str * Str)). set_solver.
    + rewrite !NoDup_cons, !elem_of_cons. pose proof (@NoDup_nil_2 (Str * Str)). set_solver.
  - unfold items. case_bool_decide; tx_eval; rewrite Hpi, Hi, Hik; by rewrite bool_decide_true.
  - exists s'. split; [done|]. unfold items in Hr.
    assert (Hr' : rows s' = (if bool_decide (kind_of_entry e0 <> kind_of_entry e)
                             then base.delete (data_table e0, k) else id)
        (<[(t_index tables, k) := index_row k e (kind_of_entry e)]> (<[(data_table e, k) := data_row k e b v]> (rows s)))).
    { rewrite Hr. case_bool_decide; cbn [fold_left tx_apply tx_key]; by rewrite Hpk, Hpi. }
    clear Hr. apply (same_rows_replace s w s' k e b v); try done.
    + rewrite Hr'. case_bool_decide; cbn; rewrite ?lookup_delete_ne by congruence; by rewrite lookup_insert_eq.
    + rewrite Hr'. case_bool_decide; cbn; rewrite ?lookup_delete_ne by naive_solver;
        by rewrite lookup_insert_ne, lookup_insert_eq by congruence.
    + intros k' Hk'. assert (Hi' : t_index tables <> for_kind tables k') by (pose proof (for_kind_not_index tables k' distinct); congruence).
      assert (Hd' : data_table e <> for_kind tables k') by (intros E; by apply for_kind_inj in E).
      rewrite Hr'. case_bool_decide as Hk0; cbn.
      * destruct (decide (k' = kind_of_entry e0)) as [->|Hk2]; [by rewrite lookup_delete_eq|].
        rewrite lookup_delete_ne by (intros [= E]; by apply for_kind_inj in E).
        rewrite !lookup_insert_ne by congruence. by apply Hother.
      * rewrite !lookup_insert_ne by congruence. apply Hother. intros ->. by apply Hk'.
    + intros t k2 Hk2. rewrite Hr'. case_bool_decide; cbn; rewrite ?lookup_delete_ne by congruence;
        by rewrite !lookup_insert_ne by congruence.
Qed.

Lemma dyn_create_spec s w k e :
  same_rows s w -> storable e ->
  exists s', run_dyn (dyn_save to_vec tables k e CreateOnly) s = (fst (kv_save k e CreateOnly w), s') /\
    same_rows s' (snd (kv_save k e CreateOnly w)).
Proof.
  intros Hs He. pose proof (proj2 Hs k) as Hk. unfold kv_save.
  destruct (store w !! k) as [[e0 ver]|] eqn:Ew; cbn [fst snd]; [|by apply dyn_save_spec].
  exists s. split; [|done]. destruct He as (b & Hb & _ & Hl). unfold dyn_save. rewrite Hb.
  destruct (Z.ltb_spec MAX_ITEM_BYTES (len b)); [lia|]. rewrite run_dyn_bind. cbn [trigger run_dyn].
  destruct (dyn_nanos s) as [n ->]. cbn [run_dyn]. by rewrite run_dyn_bind, (read_index_stored s k e0 Hk).
Qed.

Lemma dyn_delete_any_spec s w k :
  same_rows s w ->
  exists s', run_dyn (dyn_delete tables k DAny) s = (Ok tt, s') /\ same_rows s' (remove k w).
Proof.
  intros Hs. pose proof (proj2 Hs k) as Hk. unfold dyn_delete. rewrite run_dyn_bind.
  destruct (store w !! k) as [[e ver]|] eqn:Ew.
  - rewrite (read_index_stored s k e Hk), run_dyn_bind. cbn [trigger run_dyn].
    pose proof (for_kind_not_index tables (kind_of_entry e) distinct).
    match goal with |- context [dyn_handle _ (TransactWriteItems ?l) s] =>
      destruct (dyn_tx_ok s l) as (s' & -> & Hr & Hc) end; [|done|].
    + cbn. apply NoDup_cons; split; [rewrite list_elem_of_singleton; congruence|apply NoDup_singleton].
    + exists s'. split; [done|]. by eapply same_rows_remove.
  - rewrite (read_index_absent s k Hk). exists s. split; [done|].
    unfold remove. rewrite delete_id by done. by destruct w.
Qed.

(** *** The CAS loop over DynamoDB *)

(** The calls [cas] and the two-key commands make; [flush] implements FLUSHALL. *)
Variable flush : prog dynE (Result unit).
Definition dyn_backend (A : Type) (e : kvE A) : prog dynE A :=
  match e in kvE A return prog dynE A with
  | KvLoad key => dyn_load from_slice tables key
  | KvSave key entry cond => dyn_save to_vec tables key entry cond
  | KvDelete key cond => dyn_delete tables key cond
  | KvListPage cursor n => dyn_list_page tables cursor n
  | KvFlushAll => flush
  | KvNowMs => trigger DynNowMs
  | KvNowNanos => trigger DynNowNanos
  | KvSleep _ => Ret tt
  end.

Lemma run_dyn_interp_bind {R R2} (p : prog kvE R) (g : R -> prog kvE R2) s :
  run_dyn (interp dyn_backend (pbind p g)) s =
  let '(r, s') := run_dyn (interp dyn_backend p) s in run_dyn (interp dyn_backend (g r)) s'.
Proof.
  revert s. induction p as [r|A e k IH]; intros s; cbn; [done|]. rewrite !run_dyn_bind.
  destruct (run_dyn (dyn_backend A e) s) as [a s']. apply IH.
Qed.
Lemma run_dyn_interp_trigger {A} (e : kvE A) s :
  run_dyn (interp dyn_backend (trigger e)) s = run_dyn (dyn_backend A e) s.
Proof. cbn. rewrite run_dyn_bind. by destruct (run_dyn (dyn_backend A e) s). Qed.

(** What a load found is what a conditional save or delete may build on. *)
Lemma loaded_ready s w k e v :
  same_rows s w -> store w !! k = Some (e, v) ->
  exists ver, version_of (rows s) k e = Some ver /\ stored_as (rows s) k e.
Proof.
  intros [_ Hk] Ew. specialize (Hk k). rewrite Ew in Hk.
  destruct (stored_as_version _ _ _ Hk) as [ver Hv]. by exists ver.
Qed.

(** Over an available DynamoDB service a CAS call on
    [DynamoDbBackend] is, with no concurrent writer, the atomic
    read-modify-write of the reference backend, and the tables still hold
    exactly the reference's entries - each key with one data row, in the table
    of its kind, and an index row naming that kind - provided the closure
    writes entries that can be stored and never changes the kind of a key. *)
Theorem dyn_cas_refines {R} key (f : option StoredValue -> Result (CasAction R)) s w :
  same_rows s w ->
  (forall e e' r, f e = Ok (Write e' r) -> storable e') ->
  (forall e e' r, f (Some e) = Ok (Write e' r) -> ValueKind_of (value e') = ValueKind_of (value e)) ->
  exists s', run_dyn (interp dyn_backend (cas key (pure_mod f))) s = (fst (atomic_update key f w), s') /\
    same_rows s' (snd (atomic_update key f w)).
Proof.
  intros Hs Hf Hkind. unfold cas, MAX_CAS_RETRIES. cbn [cas_from]. unfold cas_backoff at 1. cbn [Z.eqb pbind].
  rewrite run_dyn_interp_bind, run_dyn_interp_trigger.
  destruct (dyn_load_spec s w key Hs) as (s1 & Hs1 & E). cbn [dyn_backend]. rewrite E. clear E.
  unfold atomic_update. rewrite <- gc_live_lookup, gc_idem. pose proof (proj2 Hs1 key) as Hk.
  destruct (store (gc key w) !! key) as [[e v]|] eqn:Est; cbn [option_map fst].
  - destruct (loaded_ready s1 _ key e v Hs1 Est) as (ver & Hver & Hst). rewrite Hver. cbn [option_map pure_mod pbind].
    destruct (f (Some e)) as [[e' r|r|r]|err] eqn:Ef; try (eexists; split; [reflexivity|exact Hs1]).
    + rewrite run_dyn_interp_bind, run_dyn_interp_trigger. cbn [dyn_backend].
      destruct (dyn_save_spec s1 (gc key w) key e' (IfMatch (encode_token (ValueKind_of (value e)) ver)) Hs1 ltac:(eauto))
        as (s2 & -> & Hs2); [|by exists s2].
      exists e, ver. by rewrite (Hkind _ _ _ Ef).
    + rewrite run_dyn_interp_bind, run_dyn_interp_trigger. cbn [dyn_backend].
      destruct (dyn_delete_match s1 (gc key w) key e ver Hs1 Hst Hver) as (s2 & -> & Hs2). by exists s2.
  - cbn [pure_mod pbind]. destruct (f None) as [[e' r|r|r]|err] eqn:Ef; try (eexists; split; [reflexivity|exact Hs1]).
    + rewrite run_dyn_interp_bind, run_dyn_interp_trigger. cbn [dyn_backend].
      destruct (dyn_save_spec s1 (gc key w) key e' CreateOnly Hs1 ltac:(eauto) Hk) as (s2 & -> & Hs2). by exists s2.
    + eexists. split; [reflexivity|]. unfold remove. rewrite delete_id by done. by destruct (gc key w).
Qed.

(** A conditional save of another kind is refused without asking the service. *)
Lemma dyn_save_other_kind s k e kd v :
  storable e -> kd <> kind_of_entry e ->
  run_dyn (dyn_save to_vec tables k e (IfMatch (encode_token kd v))) s = (Err Contention, s).
Proof.
  intros (b & Hb & _ & Hl) Hne. unfold dyn_save. rewrite Hb.
  destruct (Z.ltb_spec MAX_ITEM_BYTES (len b)); [lia|]. rewrite run_dyn_bind. cbn [trigger run_dyn].
  destruct (dyn_nanos s) as [n ->]. cbn [run_dyn]. rewrite parse_encode_token. by rewrite bool_decide_true.
Qed.

Lemma run_dyn_read s w k :
  same_rows s w -> exists s', same_rows s' (gc k w) /\ run_dyn (interp dyn_backend (load k)) s = (Ok (live w k), s').
Proof.
  intros Hs. unfold load. rewrite run_dyn_interp_bind, run_dyn_interp_trigger. cbn [dyn_backend].
  destruct (dyn_load_spec s w k Hs) as (s' & Hs' & ->). exists s'. split; [done|].
  rewrite <- gc_live_lookup. destruct (store (gc k w) !! k) as [[e v]|] eqn:E; [|done].
  destruct (loaded_ready s' _ k e v Hs' E) as (ver & -> & _). done.
Qed.

(** On DynamoDB, RENAME onto an existing key of another kind
    never succeeds, with nobody else writing: the save's precondition is the
    token of the destination, whose kind differs from the entry's, and that is
    answered [Contention] at once.  Nothing a client can see changes.  On the
    reference backend - and on S3 - the destination is replaced. *)
Theorem dyn_rename_other_kind from to e e2 s w :
  same_rows s w -> from <> to -> storable e ->
  live w from = Some e -> live w to = Some e2 -> ValueKind_of (value e2) <> ValueKind_of (value e) ->
  fst (run (rename from to) w) = Ok tt /\
  exists s', run_dyn (interp dyn_backend (rename from to)) s = (Err Contention, s') /\
    same_rows s' (gc to (gc from w)).
Proof.
  intros Hs Hne Hst Hfrom Hto Hkind. split; [by rewrite run_rename, Hfrom, decide_False|].
  unfold rename. rewrite run_dyn_interp_bind. destruct (run_dyn_read s w from Hs) as (s1 & Hs1 & ->). rewrite Hfrom.
  rewrite str_eqb_spec, bool_decide_false by done. rewrite run_dyn_interp_bind, run_dyn_interp_trigger. cbn [dyn_backend].
  destruct (dyn_load_spec s1 _ to Hs1) as (s2 & Hs2 & ->). exists s2. split; [|done].
  pose proof (gc_live_lookup to (gc from w)) as Hl. rewrite live_gc_any, Hto in Hl.
  destruct (store (gc to (gc from w)) !! to) as [[e3 v]|] eqn:E; [|done]. injection Hl as ->.
  destruct (loaded_ready s2 _ to e2 v Hs2 E) as (ver & -> & _). cbn [option_map].
  rewrite run_dyn_interp_bind, run_dyn_interp_trigger. cbn [dyn_backend]. by rewrite dyn_save_other_kind.
Qed.
End refinement.

(** ** Version tokens

    A version is the hexadecimal of the time-seeded xorshift.  Both are
    injective, so only two writes in the same nanosecond can share a version. *)

Lemma bits_ext_64 x y :
  0 <= x < 2 ^ 64 -> 0 <= y < 2 ^ 64 -> (forall i, 0 <= i < 64 -> Z.testbit x i = Z.testbit y i) -> x = y.
Proof.
  intros Hx Hy H. apply Z.bits_inj'. intros i Hi. destruct (decide (i < 64)); [auto|].
  rewrite <- (Z.mod_small x (2 ^ 64)), <- (Z.mod_small y (2 ^ 64)) by lia. by rewrite !Z.mod_pow2_bits_high by lia.
Qed.

Lemma xor_shl_inj a x y :
  0 < a -> 0 <= x < 2 ^ 64 -> 0 <= y < 2 ^ 64 ->
  Z.lxor x (wrap_u64 (Z.shiftl x a)) = Z.lxor y (wrap_u64 (Z.shiftl y a)) -> x = y.
Proof.
  intros Ha Hx Hy E. apply bits_ext_64; [done|done|]. intros i Hi.
  assert (G : forall n i, 0 <= i < 64 -> (Z.to_nat i < n)%nat -> Z.testbit x i = Z.testbit y i); [|by eapply (G (S (Z.to_nat i))); lia].
  clear i Hi. induction n as [|n IH]; intros i Hi Hn; [lia|].
  apply (f_equal (fun z => Z.testbit z i)) in E. rewrite !Z.lxor_spec in E. unfold wrap_u64, wrap_u in E.
  rewrite !Z.mod_pow2_bits_low, !Z.shiftl_spec in E by lia.
  destruct (decide (i < a)).
  - by rewrite !(Z.testbit_neg_r _ (i - a)), !xorb_false_r in E by lia.
  - rewrite (IH (i - a)) in E by lia. by destruct (Z.testbit x i), (Z.testbit y i), (Z.testbit y (i - a)).
Qed.

Lemma xor_shr_inj a x y :
  0 < a -> 0 <= x < 2 ^ 64 -> 0 <= y < 2 ^ 64 -> Z.lxor x (Z.shiftr x a) = Z.lxor y (Z.shiftr y a) -> x = y.
Proof.
  intros Ha Hx Hy E. apply bits_ext_64; [done|done|]. intros i Hi.
  assert (G : forall n i, 0 <= i -> (64 - Z.to_nat i < n)%nat -> Z.testbit x i = Z.testbit y i); [|by eapply (G 65%nat); lia].
  clear i Hi. induction n as [|n IH]; intros i Hi Hn; [lia|].
  destruct (decide (64 <= i)) as [Hge|Hlt].
  { rewrite <- (Z.mod_small x (2 ^ 64)), <- (Z.mod_small y (2 ^ 64)) by lia. by rewrite !Z.mod_pow2_bits_high by lia. }
  apply (f_equal (fun z => Z.testbit z i)) in E. rewrite !Z.lxor_spec, !Z.shiftr_spec in E by lia.
  rewrite (IH (i + a)) in E by lia. by destruct (Z.testbit x i), (Z.testbit y i), (Z.testbit y (i + a)).
Qed.

Lemma lxor_range x y : 0 <= x < 2 ^ 64 -> 0 <= y < 2 ^ 64 -> 0 <= Z.lxor x y < 2 ^ 64.
Proof.
  intros Hx Hy. assert (0 <= Z.lxor x y) by (apply Z.lxor_nonneg; lia). split; [done|].
  rewrite <- (Z.mod_small (Z.lxor x y) (2 ^ Z.max 64 (Z.log2 (Z.lxor x y) + 1))).
  - apply Z.le_lt_trans with (Z.lxor x y mod 2 ^ 64); [|apply Z.mod_pos_bound; lia].
    apply Z.eq_le_incl. apply Z.bits_inj'. intros i Hi. destruct (decide (i < 64)).
    + by rewrite !Z.mod_pow2_bits_low by lia.
    + rewrite (Z.mod_pow2_bits_high _ 64) by lia.
      destruct (decide (i < Z.max 64 (Z.log2 (Z.lxor x y) + 1))); [|by rewrite Z.mod_pow2_bits_high by lia].
      rewrite Z.mod_pow2_bits_low, Z.lxor_spec by lia.
      rewrite <- (Z.mod_small x (2 ^ 64)), <- (Z.mod_small y (2 ^ 64)) by lia. by rewrite !Z.mod_pow2_bits_high by lia.
  - split; [done|]. destruct (decide (Z.lxor x y = 0)) as [->|]; [apply Z.pow_pos_nonneg; lia|].
    pose proof (Z.log2_spec (Z.lxor x y) ltac:(lia)).
    apply Z.lt_le_trans with (2 ^ Z.succ (Z.log2 (Z.lxor x y))); [lia|]. apply Z.pow_le_mono_r; lia.
Qed.

Lemma shiftr_range x a : 0 <= a -> 0 <= x < 2 ^ 64 -> 0 <= Z.shiftr x a < 2 ^ 64.
Proof.
  intros Ha Hx. rewrite Z.shiftr_div_pow2 by lia. pose proof (Z.pow_pos_nonneg 2 a ltac:(lia) Ha).
  split; [by apply Z.div_pos; lia|]. apply Z.le_lt_trans with x; [|lia]. apply Z.div_le_upper_bound; nia.
Qed.

Lemma wrap_u64_range x : 0 <= wrap_u64 x < 2 ^ 64.
Proof. apply wrap_u_range. lia. Qed.

Lemma xorshift_spec x : 0 <= x < 2 ^ 64 -> 0 <= xorshift x < 2 ^ 64.
Proof. intros Hx. unfold xorshift. cbv zeta. auto 10 using lxor_range, shiftr_range, wrap_u64_range with lia. Qed.

Lemma xorshift_inj x y : 0 <= x < 2 ^ 64 -> 0 <= y < 2 ^ 64 -> xorshift x = xorshift y -> x = y.
Proof.
  intros Hx Hy E. unfold xorshift in E. cbv zeta in E.
  apply xor_shl_inj in E; [|lia|auto 10 using lxor_range, shiftr_range, wrap_u64_range with lia..].
  apply xor_shr_inj in E; [|lia|auto 10 using lxor_range, wrap_u64_range with lia..].
  by apply xor_shl_inj in E; [|lia|..].
Qed.

Lemma hex_digit_inj a b : 0 <= a < 16 -> 0 <= b < 16 -> hex_digit a = hex_digit b -> a = b.
Proof.
  intros Ha Hb E.
  assert (T : forallb (fun i => forallb (fun j => bool_decide (hex_digit (Z.of_nat i) = hex_digit (Z.of_nat j) -> i = j))
                (List.seq 0 16)) (List.seq 0 16) = true) by by vm_compute.
  rewrite forallb_forall in T. specialize (T (Z.to_nat a)). rewrite in_seq in T. specialize (T ltac:(lia)).
  rewrite forallb_forall in T. specialize (T (Z.to_nat b)). rewrite in_seq in T. specialize (T ltac:(lia)).
  apply bool_decide_eq_true in T. rewrite !Z2Nat.id in T by lia. apply T in E. lia.
Qed.

Lemma nth_map_seq {B} (f : nat -> B) n k d : (k < n)%nat -> nth k (map f (List.seq 0 n)) d = f k.
Proof.
  intros Hk. rewrite (nth_indep _ d (f 0%nat)) by (by rewrite length_map, length_seq).
  by rewrite map_nth, seq_nth.
Qed.

Lemma hex16_inj x y : 0 <= x < 2 ^ 64 -> 0 <= y < 2 ^ 64 -> hex16 x = hex16 y -> x = y.
Proof.
  intros Hx Hy E. apply bits_ext_64; [done|done|]. intros i Hi.
  assert (Hn : forall k, (k < 16)%nat -> Z.land (Z.shiftr x (60 - 4 * Z.of_nat k)) 15 = Z.land (Z.shiftr y (60 - 4 * Z.of_nat k)) 15).
  { intros k Hk. change 15 with (Z.ones 4). rewrite !Z.land_ones by lia. apply hex_digit_inj; try (apply Z.mod_pos_bound; lia).
    apply (f_equal (fun l => nth k l x00)) in E. unfold hex16 in E. rewrite !nth_map_seq in E by done.
    rewrite <- !(Z.land_ones _ 4) by lia. exact E. }
  specialize (Hn (Z.to_nat (15 - i / 4)) ltac:(pose proof (Z.div_lt_upper_bound i 4 16); pose proof (Z.div_pos i 4); lia)).
  apply (f_equal (fun z => Z.testbit z (i mod 4))) in Hn. rewrite !Z.land_spec in Hn.
  pose proof (Z.mod_pos_bound i 4 ltac:(lia)). pose proof (Z.div_mod i 4 ltac:(lia)). pose proof (Z.div_pos i 4 ltac:(lia) ltac:(lia)).
  assert (i / 4 < 16) by (apply Z.div_lt_upper_bound; lia).
  rewrite !Z.shiftr_spec in Hn by lia. change 15 with (Z.ones 4) in Hn at 2 4. rewrite Z.ones_spec_low in Hn by lia.
  rewrite !andb_true_r in Hn. replace (i mod 4 + (60 - 4 * Z.of_nat (Z.to_nat (15 - i / 4)))) with i in Hn by lia. done.
Qed.

Lemma rand_of_nanos_inj m n :
  0 <= m <= u64_max -> 0 <= n <= u64_max -> rand_of_nanos m = rand_of_nanos n -> m = n.
Proof.
  unfold rand_of_nanos, u64_max. intros Hm Hn E.
  rewrite !(proj2 (Z.leb_le _ (2 ^ 64 - 1))) in E by lia.
  assert (Hk : 0 <= 0x2545F4914F6CDD1D < 2 ^ 64) by done.
  apply xorshift_inj in E; [|by apply lxor_range; lia..].
  apply (f_equal (fun z => Z.lxor z 0x2545F4914F6CDD1D)) in E.
  by rewrite !Z.lxor_assoc, Z.lxor_nilpotent, !Z.lxor_0_r in E.
Qed.

(** Two writes at different nanoseconds carry different
    versions, whatever their kinds, so a token of one never matches the other;
    and a token reads back as the kind and version it was made of. *)
Theorem version_tokens_distinct k1 k2 m n :
  0 <= m <= u64_max -> 0 <= n <= u64_max ->
  (encode_token k1 (hex16 (rand_of_nanos m)) = encode_token k2 (hex16 (rand_of_nanos n)) -> m = n /\ k1 = k2) /\
  parse_token (encode_token k1 (hex16 (rand_of_nanos m))) = Ok (k1, hex16 (rand_of_nanos m)).
Proof.
  intros Hm Hn. split; [|apply parse_encode_token]. intros E.
  apply (f_equal parse_token) in E. rewrite !parse_encode_token in E.
  assert (k1 = k2 /\ hex16 (rand_of_nanos m) = hex16 (rand_of_nanos n)) as [-> E2] by (split; congruence).
  split; [|done]. clear E. rename E2 into E.
  apply rand_of_nanos_inj; [done|done|]. apply hex16_inj in E; [done|..]; unfold rand_of_nanos, u64_max in *;
    rewrite (proj2 (Z.leb_le _ (2 ^ 64 - 1))) by lia; apply xorshift_spec, lxor_range; done || lia.
Qed.

(** ** A service that keeps the promises: the tables in memory *)

Record dyn_mem := { dm_rows : db; dm_clock : Z }.

(** A scan in key order. *)
Definition table_keys (d : db) (t : Str) : list Str :=
  bs_elems (bs_collect (omap (fun '((t', k), _) => if bool_decide (t' = t) then Some k else None) (map_to_list d))).
Definition scan_table (d : db) (t : Str) (n : Z) (start : option Str) : scan_output :=
  let '(page, next) := take_page (table_keys d t) start (Z.to_nat n) in
  ScanOk (map pk_item page) (pk_item <$> next).

Lemma elem_of_table_keys d t k : k ∈ table_keys d t <-> is_Some (d !! (t, k)).
Proof.
  unfold table_keys. rewrite elem_of_collected, list_elem_of_omap. split.
  - intros ([[t' k'] r] & Hin & E). apply elem_of_map_to_list in Hin. case_bool_decide; [|done]. injection E as ->. subst. by exists r.
  - intros [r Hr]. exists (t, k, r). split; [by apply elem_of_map_to_list|]. by rewrite bool_decide_true.
Qed.

Definition dyn_mem_handle {A} (e : dynE A) (s : dyn_mem) : A * dyn_mem :=
  match e in dynE A return A * dyn_mem with
  | GetItem t k => (ItemOk (dm_rows s !! (t, k)), s)
  | Scan t n start => (scan_table (dm_rows s) t n start, s)
  | TransactWriteItems items =>
      if forallb (tx_holds (dm_rows s)) items
      then (TxOk, {| dm_rows := fold_left tx_apply items (dm_rows s); dm_clock := dm_clock s |})
      else (TxCancelled, s)
  | DynNowMs => (dm_clock s, s)
  | DynNowNanos => (dm_clock s * 1000000, s)
  end.

#[export] Instance dyn_mem_service : DynService dyn_mem.
Proof.
  refine {| dyn_handle := @dyn_mem_handle; rows := dm_rows; dyn_clock := dm_clock; dyn_after := key_after;
      dyn_recent := fun _ _ _ => False |};
    intros; cbn -[forallb scan_table]; try done.
  - rewrite H0. eexists. split; [reflexivity|done].
  - by rewrite H0.
  - by eexists.
  - unfold scan_table. pose proof (take_page_spec (table_keys (dm_rows s) t) start (Z.to_nat n)) as Hp.
    destruct (take_page _ _ _) as [page next]. destruct Hp as [Hp Hl]; [apply collected_sorted|lia|].
    eexists _, page, next. split; [done|]. split; [intros k _; apply elem_of_table_keys|]. split; [exact Hp|unfold len; lia].
Defined.

(** A codec that carries a string and a list, for concrete runs. *)
Definition string_entry : StoredValue := mk_entry None (VString (bs "s")).
Definition list_entry : StoredValue := mk_entry None (VList [bs "l"]).
Definition pair_from_slice (b : list byte) : Result StoredValue :=
  if bool_decide (b = bs "s") then Ok string_entry else Ok list_entry.
Definition pair_to_vec (e : StoredValue) : Result (list byte) :=
  Ok (if bool_decide (e = string_entry) then bs "s" else bs "l").
Definition empty_tables : dyn_mem := {| dm_rows := ∅; dm_clock := 1000 |}.

Lemma default_distinct : tables_distinct TableNames_default.
Proof. apply with_prefix_distinct. Qed.
Lemma string_storable : storable pair_from_slice pair_to_vec string_entry.
Proof. exists (bs "s"). split; [reflexivity|]. split; [reflexivity|]. vm_compute. discriminate. Qed.
Lemma list_storable : storable pair_from_slice pair_to_vec list_entry.
Proof. exists (bs "l"). split; [reflexivity|]. split; [reflexivity|]. vm_compute. discriminate. Qed.
Lemma empty_same_rows : same_rows pair_from_slice TableNames_default empty_tables empty_world.
Proof.
  split; [done|]. intros k. cbn [store empty_world]. rewrite lookup_empty. split; [|intros k']; apply lookup_empty.
Qed.

(** Both keys can be stored. *)
Lemma two_kinds_stored :
  exists s, same_rows pair_from_slice TableNames_default s (world_of [(bs "a", string_entry); (bs "b", list_entry)]).
Proof.
  destruct (dyn_save_spec pair_from_slice pair_to_vec TableNames_default default_distinct empty_tables empty_world (bs "a")
    string_entry CreateOnly empty_same_rows string_storable) as (s1 & _ & H1).
  { apply (proj2 empty_same_rows (bs "a")). }
  destruct (dyn_save_spec pair_from_slice pair_to_vec TableNames_default default_distinct s1 _ (bs "b")
    list_entry CreateOnly H1 list_storable) as (s2 & _ & H2).
  { pose proof (proj2 H1 (bs "b")) as H. by replace (store (put (bs "a") string_entry empty_world) !! bs "b") with (@None (StoredValue * Z)) in H by (by vm_compute). }
  exists s2. exact H2.
Qed.

Lemma dyn_cas_refines_witness :
  exists s', run_dyn (interp (dyn_backend pair_from_slice pair_to_vec TableNames_default (Ret (Ok tt)))
      (cas (bs "a") (pure_mod (fun e => match e with None => Ok (Write string_entry 1) | Some _ => Ok (NoOp 0) end)))) empty_tables
    = (Ok 1, s') /\ same_rows pair_from_slice TableNames_default s' (put (bs "a") string_entry empty_world).
Proof.
  destruct (dyn_cas_refines pair_from_slice pair_to_vec TableNames_default default_distinct (Ret (Ok tt)) (bs "a")
    (fun e => match e with None => Ok (Write string_entry 1) | Some _ => Ok (NoOp 0) end)
    empty_tables empty_world empty_same_rows) as (s' & E & Hs).
  - intros [e|] e' r H; [discriminate H|]. injection H as <- _. exact string_storable.
  - intros e e' r H. discriminate H.
  - exists s'. split; [exact E|exact Hs].
Defined.

Lemma dyn_rename_other_kind_witness :
  exists s s', run_dyn (interp (dyn_backend pair_from_slice pair_to_vec TableNames_default (Ret (Ok tt)))
      (rename (bs "a") (bs "b"))) s = (Err Contention, s').
Proof.
  destruct two_kinds_stored as [s Hs]. exists s.
  destruct (dyn_rename_other_kind pair_from_slice pair_to_vec TableNames_default default_distinct (Ret (Ok tt)) (bs "a") (bs "b")
    string_entry list_entry s (world_of [(bs "a", string_entry); (bs "b", list_entry)]) Hs) as (_ & s' & E & _).
  - discriminate.
  - exact string_storable.
  - vm_compute. reflexivity.
  - vm_compute. reflexivity.
  - discriminate.
  - exists s'. exact E.
Defined.

Lemma version_tokens_distinct_witness :
  encode_token KHash (hex16 (rand_of_nanos 1700000000000000000)) <> encode_token KHash (hex16 (rand_of_nanos 1700000000000000001)).
Proof.
  intros E. destruct (version_tokens_distinct KHash KHash 1700000000000000000 1700000000000000001
    ltac:(vm_compute; split; discriminate) ltac:(vm_compute; split; discriminate)) as [H _].
  destruct (H E) as [Hn _]. discriminate Hn.
Defined.
