(* ===== verification/Resp.v ===== *)
(** * Resp

    src/resp.rs: the replies of the server, their RESP2 frames, and the parsing
    of a request into its argument vector.  The frame codec itself is the
    [redis-protocol] crate's and is a parameter. *)

From S2P Require Import Prelude.

#[local] Set Warnings "-register-all".

Inductive RespReply :=
| RSimpleString (s : Str)
| RError (s : Str)
| RInteger (n : Z)
| RBulkString (b : option (list byte))
| RArray (items : list RespReply)
| RNil.

(** [redis_protocol]'s [BytesFrame]. *)
Inductive BytesFrame :=
| FSimpleString (s : list byte)
| FError (s : Str)
| FInteger (n : Z)
| FBulkString (b : list byte)
| FArray (items : list BytesFrame)
| FNull.

Definition reply_ok : RespReply := RSimpleString (bs "OK").
Definition reply_err (msg : Str) : RespReply := RError msg.

Fixpoint to_frame (r : RespReply) : BytesFrame :=
  match r with
  | RSimpleString s => FSimpleString s
  | RError s => FError s
  | RInteger n => FInteger n
  | RBulkString (Some b) => FBulkString b
  | RBulkString None | RNil => FNull
  | RArray items => FArray (map to_frame items)
  end.

Definition frame_to_bytes (f : BytesFrame) : Result (list byte) :=
  match f with
  | FBulkString b | FSimpleString b => Ok b
  | _ => Err (RespParse "argument must be bulk string")
  end.

(** [iter.map(f).collect::<Result<Vec<_>, _>>()]: the first error stops it. *)
Fixpoint collect_results {A B} (f : A -> Result B) (l : list A) : Result (list B) :=
  match l with
  | [] => Ok []
  | x :: l => let? y := f x in let? ys := collect_results f l in Ok (y :: ys)
  end.

Definition command_of_frame (frame : BytesFrame) : Result (list (list byte)) :=
  match frame with
  | FArray items => collect_results frame_to_bytes items
  | FBulkString b => Ok [b]
  | _ => Err (RespParse "expected array of bulk strings")
  end.

Section codec.
(** [extend_encode] into an empty buffer and [decode_bytes_mut]; their errors
    are given by their text. *)
Variable extend_encode : BytesFrame -> list byte + string.
Variable decode : list byte -> option BytesFrame + string.

Definition with_prefix_text (p : Str) (e : string) : string :=
  String.string_of_list_byte (p ++ bs e).

Definition encode (r : RespReply) : Result (list byte) :=
  match extend_encode (to_frame r) with
  | inl b => Ok b
  | inr e => Err (RespParse (with_prefix_text (bs "encode: ") e))
  end.

Definition parse_command (body : list byte) : Result (list (list byte)) :=
  match decode body with
  | inr e => Err (RespParse (with_prefix_text (bs "decode: ") e))
  | inl None => Err (RespParse "incomplete frame")
  | inl (Some frame) => command_of_frame frame
  end.
End codec.

Lemma collect_results_ok {A B} (f : A -> Result B) (g : A -> B) l :
  (forall x, In x l -> f x = Ok (g x)) -> collect_results f l = Ok (map g l).
Proof.
  induction l as [|x l IH]; intros H; [done|]. cbn [collect_results].
  rewrite (H x) by (by left). cbn [rbind]. rewrite IH by (intros; apply H; by right). done.
Qed.

Lemma collect_results_length {A B} (f : A -> Result B) l ys :
  collect_results f l = Ok ys -> length ys = length l.
Proof.
  revert ys. induction l as [|x l IH]; intros ys; cbn [collect_results]; [by intros [= <-]|].
  destruct (f x); cbn [rbind]; [|done]. destruct (collect_results f l); cbn [rbind]; [|done].
  intros [= <-]. cbn. by rewrite (IH _ eq_refl).
Qed.

(** A request a client encodes as an array of bulk strings arrives as its
    arguments, if decoding inverts encoding. *)
Lemma parse_command_request (extend_encode : BytesFrame -> list byte + string)
    (decode : list byte -> option BytesFrame + string) argv body :
  (forall f b, extend_encode f = inl b -> decode b = inl (Some f)) ->
  extend_encode (FArray (map FBulkString argv)) = inl body ->
  parse_command decode body = Ok argv.
Proof.
  intros Hcodec He. unfold parse_command. rewrite (Hcodec _ _ He). cbn [command_of_frame].
  assert (E : forall l, collect_results frame_to_bytes (map FBulkString l) = Ok l).
  { induction l as [|x l IH]; [done|]. cbn. by rewrite IH. }
  apply E.
Qed.
