(* ===== verification/Commands.v ===== *)
(** * Commands

    The helpers that every handler of src/commands.rs shares: arguments as text
    and numbers, arity, option lists, scores, and the shape of replies.

    A handler is a program over the backend; [None] as its answer means that
    there is none: the handler panicked, or a walk over the keyspace was cut off
    by its fuel.  Handlers that can do neither have type [handler]. *)

From S2P Require Import Prelude.
From S2P Require Import Text.
From S2P Require Import BTree.
From S2P Require Import F64.
From S2P Require Import Stream.
From S2P Require Import Value.
From S2P Require Import Backend.
From S2P Require Import Strings.
From S2P Require Import Resp.

Abbreviation handler := (prog kvE (Result RespReply)).
Abbreviation partial_handler := (prog kvE (option (Result RespReply))).

Definition total (h : handler) : partial_handler := let! r := h in Ret (Some r).

(** [let x = r?;] for a pure [r] in a handler. *)
Notation "'let#' x ':=' r 'in' q" :=
  (match r with Ok x => q | Err e => Ret (Err e) end)
  (at level 10, x pattern, r at level 100, q at level 200) : rust_scope.

(** [Err(WrongArity { command: c.into() })] *)
Definition wrong_arity (c : string) : handler := Ret (Err (WrongArity c)).
Arguments wrong_arity c%_string_scope.

(** [p.await?], formatted as a reply. *)
Definition answer {A} (p : prog kvE (Result A)) (f : A -> RespReply) : handler :=
  let!? x := p in Ret (Ok (f x)).
Definition answer_partial {A} (p : prog kvE (option (Result A))) (f : A -> RespReply) : partial_handler :=
  let! r := p in Ret (option_map (rmap f) r).

(** ** Errors *)

(** [RustyAntError::Parse(format!(..))] of runtime text. *)
Definition parse_fmt (s : Str) : RustyAntError := Parse (String.string_of_list_byte s).
Definition syntax_err : RustyAntError := Parse "syntax error".

(** ** Arguments *)

Definition arg_as_str (arg : list byte) : Result Str :=
  ok_or (from_utf8 arg) (RespParse "argument not utf8").
Definition arg_as_string : list byte -> Result Str := arg_as_str.

Definition arity (command : string) (expected : bool) : Result unit :=
  if expected then Ok tt else Err (WrongArity command).
Arguments arity command%_string_scope.

Definition parse_i64 (arg : list byte) (label : Str) : Result Z :=
  let? s := arg_as_str arg in ok_or (Text.parse_i64 s) (parse_fmt (label ++ bs " is not an integer")).
Definition parse_f64 (arg : list byte) (label : Str) : Result f64 :=
  let? s := arg_as_str arg in ok_or (F64.parse_f64 s) (parse_fmt (label ++ bs " is not a float")).

Definition parse_delta (args : list (list byte)) : Result Z :=
  match args with
  | [_; v] => parse_i64 v (bs "increment")
  | _ => Err (WrongArity "INCRBY")
  end.

Definition strings (args : list (list byte)) : Result (list Str) := collect_results arg_as_string args.

(** [arg_as_str(a)?.to_ascii_uppercase()] *)
Definition upper (arg : list byte) : Result Str := let? s := arg_as_str arg in Ok (to_ascii_uppercase s).
(** [arg_as_str(a)?.eq_ignore_ascii_case(word)] *)
Definition is_word (arg : list byte) (word : Str) : Result bool :=
  let? s := arg_as_str arg in Ok (eq_ignore_ascii_case s word).

Definition saturating_mul_i64 (a b : Z) : Z := Z.max i64_min (Z.min i64_max (a * b)).
(** [i64::checked_neg], [checked_abs]. *)
Definition checked_neg_i64 (a : Z) : option Z := if a =? i64_min then None else Some (- a).
Definition checked_abs_i64 (a : Z) : option Z := if a =? i64_min then None else Some (Z.abs a).

Definition now_ms : prog kvE Z := trigger KvNowMs.

(** ** Replies *)

Definition bulk (b : list byte) : RespReply := RBulkString (Some b).
Definition bulk_array (l : list (list byte)) : RespReply := RArray (map bulk l).
Definition reply_unit (_ : unit) : RespReply := reply_ok.
Definition nil_or_bulk (o : option (list byte)) : RespReply := match o with Some b => bulk b | None => RNil end.
Definition int_of_bool (b : bool) : RespReply := RInteger (if b then 1 else 0).

(** [format_score]: the same text as [storage::format_float] of a finite score,
    and Redis's names for the others. *)
Definition format_score (s : f64) : Str :=
  if f64_is_nan s then bs "nan"
  else if f64_is_infinite s then (if f64_gt s f64_zero then bs "inf" else bs "-inf")
  else match f64_integral s with
       | Some z => if Z.abs z <? 2 ^ 53 then print_Z z else display_f64 s
       | None => display_f64 s
       end.

Definition pairs_to_reply (pairs : list (Str * f64)) (with_scores : bool) : RespReply :=
  RArray (flat_map (fun '(m, s) => bulk m :: (if with_scores then [bulk (format_score s)] else [])) pairs).

(** ** Option lists shared by the scans *)

Fixpoint parse_scan_opts_loop (cmd : Str) (args : list (list byte)) (pattern : option Str) (count : Z)
    : Result (option Str * Z) :=
  match args with
  | [] => Ok (pattern, count)
  | o :: args' =>
      let? opt := upper o in
      if str_eqb opt (bs "MATCH") then
        match args' with
        | v :: rest => let? p := arg_as_string v in parse_scan_opts_loop cmd rest (Some p) count
        | [] => Err (Parse "MATCH requires a pattern")
        end
      else if str_eqb opt (bs "COUNT") then
        match args' with
        | v :: rest =>
            let? c := parse_i64 v (bs "COUNT") in
            if c <=? 0 then Err (Parse "COUNT must be positive")
            else parse_scan_opts_loop cmd rest pattern (usize_of_i64 c 10)
        | [] => Err (Parse "COUNT requires a value")
        end
      else Err (parse_fmt (bs "unsupported " ++ cmd ++ bs " option: " ++ opt))
  end.
Definition parse_scan_opts (args : list (list byte)) (cmd : Str) : Result (option Str * Z) :=
  parse_scan_opts_loop cmd args None 10.

Definition parse_scan_cursor (arg : list byte) : Result Z :=
  let? n := parse_i64 arg (bs "cursor") in
  if 0 <=? n then Ok n else Err (Parse "cursor must be >= 0").

Definition scan_reply (next_cursor : Z) (items : list RespReply) : RespReply :=
  RArray [bulk (print_Z next_cursor); RArray items].

(** ** [LIMIT] tails *)

Definition apply_limit_pairs {A} (pairs : list A) (limit : option (Z * Z)) : list A :=
  match limit with
  | None => pairs
  | Some (offset, count) =>
      let offset_usize := Z.max offset 0 in
      if len pairs <=? offset_usize then []
      else
        let pairs := drop (Z.to_nat offset_usize) pairs in
        if 0 <=? count then take (Z.to_nat count) pairs else pairs
  end.

(** An optional [LIMIT n]; [LIMIT 0] is no limit. *)
Definition parse_optional_limit (tail : list (list byte)) : Result (option Z) :=
  match tail with
  | [] => Ok None
  | [w; v] =>
      let? l := is_word w (bs "LIMIT") in
      if negb l then Err syntax_err
      else
        let? n := parse_i64 v (bs "LIMIT") in
        if n <? 0 then Err (Parse "LIMIT can't be negative")
        else if n =? 0 then Ok None else Ok (Some n)
  | _ => Err syntax_err
  end.
