(* ===== verification/CmdStrings.v ===== *)
(** * CmdStrings

    The handlers of src/commands.rs for strings, counters and HyperLogLogs. *)

From S2P Require Import Prelude.
From S2P Require Import Text.
From S2P Require Import BTree.
From S2P Require Import F64.
From S2P Require Import Stream.
From S2P Require Import Value.
From S2P Require Import Hll.
From S2P Require Import Backend.
From S2P Require Import Strings.
From S2P Require Import Resp.
From S2P Require Import Commands.

(** ** GET, GETEX, SET *)

Definition handle_get (args : list (list byte)) : handler :=
  match args with
  | [k] => let# key := arg_as_str k in answer (get_string key) nil_or_bulk
  | _ => wrong_arity "GET"
  end.

Definition parse_getex_op (opts : list (list byte)) : prog kvE (Result GetExOp) :=
  match opts with
  | [] => Ret (Ok Leave)
  | o :: rest =>
      let# name := upper o in
      if str_eqb name (bs "PERSIST") then
        match rest with
        | [] => Ret (Ok Persist)
        | _ => Ret (Err (Parse "PERSIST takes no value"))
        end
      else
        match rest with
        | [] => Ret (Err (parse_fmt (name ++ bs " requires a value")))
        | _ :: _ :: _ =>
            Ret (Err (parse_fmt (bs "GETEX accepts at most one option; extra args after " ++ name)))
        | [v] =>
            let# n := parse_i64 v name in
            if str_eqb name (bs "EX") then
              let! now := now_ms in Ret (Ok (SetExpireAtMs (wrap_i64 (now + saturating_mul_i64 n 1000))))
            else if str_eqb name (bs "PX") then
              let! now := now_ms in Ret (Ok (SetExpireAtMs (wrap_i64 (now + n))))
            else if str_eqb name (bs "EXAT") then Ret (Ok (SetExpireAtMs (saturating_mul_i64 n 1000)))
            else if str_eqb name (bs "PXAT") then Ret (Ok (SetExpireAtMs n))
            else Ret (Err (parse_fmt (bs "unsupported GETEX option: " ++ name)))
        end
  end.

Definition handle_getex (args : list (list byte)) : handler :=
  match args with
  | k :: opts =>
      if 2 <? len opts then wrong_arity "GETEX"
      else
        let# key := arg_as_string k in
        let!? op := parse_getex_op opts in
        answer (get_string_with_ttl key op) nil_or_bulk
  | [] => wrong_arity "GETEX"
  end.

(** The options of SET: each [EX] or [PX] reads the clock, the last one wins. *)
Fixpoint parse_set_opts (opts : list (list byte)) (expires_at_ms : option Z) : prog kvE (Result (option Z)) :=
  match opts with
  | [] => Ret (Ok expires_at_ms)
  | o :: rest =>
      let# opt := upper o in
      if str_eqb opt (bs "EX") then
        match rest with
        | [] => Ret (Err (Parse "EX requires a value"))
        | v :: rest =>
            let# secs := parse_i64 v (bs "EX") in
            let! now := now_ms in
            parse_set_opts rest (Some (wrap_i64 (now + wrap_i64 (secs * 1000))))
        end
      else if str_eqb opt (bs "PX") then
        match rest with
        | [] => Ret (Err (Parse "PX requires a value"))
        | v :: rest =>
            let# ms := parse_i64 v (bs "PX") in
            let! now := now_ms in
            parse_set_opts rest (Some (wrap_i64 (now + ms)))
        end
      else Ret (Err (parse_fmt (bs "unsupported SET option: " ++ opt)))
  end.

Definition handle_set (args : list (list byte)) : handler :=
  match args with
  | k :: v :: opts =>
      let# key := arg_as_string k in
      let!? expires := parse_set_opts opts None in
      answer (set_string key v expires) reply_unit
  | _ => wrong_arity "SET"
  end.

Definition handle_setnx (args : list (list byte)) : handler :=
  match args with
  | [k; v] => let# key := arg_as_str k in answer (set_string_nx key v None) int_of_bool
  | _ => wrong_arity "SETNX"
  end.

Definition handle_setex (args : list (list byte)) : handler :=
  match args with
  | [k; s; v] =>
      let# key := arg_as_str k in
      let# secs := parse_i64 s (bs "seconds") in
      if secs <=? 0 then Ret (Err (Parse "SETEX seconds must be positive"))
      else
        let! now := now_ms in
        answer (set_string key v (Some (wrap_i64 (now + wrap_i64 (secs * 1000))))) reply_unit
  | _ => wrong_arity "SETEX"
  end.

Definition handle_getset (args : list (list byte)) : handler :=
  match args with
  | [k; v] => let# key := arg_as_str k in answer (getset key v) nil_or_bulk
  | _ => wrong_arity "GETSET"
  end.

Definition handle_getdel (args : list (list byte)) : handler :=
  match args with
  | [k] => let# key := arg_as_str k in answer (get_and_delete key) nil_or_bulk
  | _ => wrong_arity "GETDEL"
  end.

Definition handle_strlen (args : list (list byte)) : handler :=
  match args with
  | [k] => let# key := arg_as_str k in answer (strlen key) RInteger
  | _ => wrong_arity "STRLEN"
  end.

Definition handle_append (args : list (list byte)) : handler :=
  match args with
  | [k; v] => let# key := arg_as_str k in answer (append key v) RInteger
  | _ => wrong_arity "APPEND"
  end.

Definition handle_getrange (args : list (list byte)) : handler :=
  match args with
  | [k; s; e] =>
      let# key := arg_as_str k in
      let# start := parse_i64 s (bs "start") in
      let# end_ := parse_i64 e (bs "end") in
      answer (getrange key start end_) bulk
  | _ => wrong_arity "GETRANGE"
  end.

Definition handle_setrange (args : list (list byte)) : handler :=
  match args with
  | [k; o; v] =>
      let# key := arg_as_str k in
      let# offset := parse_i64 o (bs "offset") in
      if offset <? 0 then Ret (Err (Parse "offset must be >= 0"))
      else answer (setrange key offset v) RInteger
  | _ => wrong_arity "SETRANGE"
  end.

(** ** Several keys *)

Definition handle_mget (args : list (list byte)) : handler :=
  match args with
  | [] => wrong_arity "MGET"
  | _ => let# keys := strings args in answer (mget keys) (fun vals => RArray (map nil_or_bulk vals))
  end.

(** [while i < args.len() { pairs.push((key, value)); i += 2 }] over an even
    number of arguments. *)
Fixpoint key_value_pairs (args : list (list byte)) : Result (list (Str * list byte)) :=
  match args with
  | k :: v :: rest =>
      let? key := arg_as_string k in
      let? pairs := key_value_pairs rest in
      Ok ((key, v) :: pairs)
  | _ => Ok []
  end.

Definition handle_mset (args : list (list byte)) : handler :=
  if (len args =? 0) || negb (len args mod 2 =? 0) then wrong_arity "MSET"
  else
    let# pairs := key_value_pairs args in
    answer (mset pairs) reply_unit.

Definition handle_msetnx (args : list (list byte)) : handler :=
  if (len args =? 0) || negb (len args mod 2 =? 0) then wrong_arity "MSETNX"
  else
    let# pairs := key_value_pairs args in
    answer (msetnx pairs) int_of_bool.

(** ** Counters *)

(** INCR and DECR, and INCRBY and DECRBY after their delta is parsed: the
    arguments after the key are not looked at. *)
Definition handle_incrby (args : list (list byte)) (delta : Z) : handler :=
  match args with
  | k :: _ => let# key := arg_as_str k in answer (incr_by key delta) RInteger
  | [] => wrong_arity "INCR"
  end.

Definition handle_incrbyfloat (args : list (list byte)) : handler :=
  match args with
  | [k; d] =>
      let# key := arg_as_str k in
      let# delta := parse_f64 d (bs "increment") in
      answer (incr_by_float key delta) (fun n => bulk (format_score n))
  | _ => wrong_arity "INCRBYFLOAT"
  end.

(** ** HyperLogLog *)

Definition handle_pfadd (args : list (list byte)) : handler :=
  match args with
  | k :: elements => let# key := arg_as_str k in answer (pfadd key elements) int_of_bool
  | [] => wrong_arity "PFADD"
  end.

Definition handle_pfcount (ln : f64 -> f64) (args : list (list byte)) : handler :=
  match args with
  | [] => wrong_arity "PFCOUNT"
  | _ => let# keys := strings args in answer (pfcount ln keys) (fun n => RInteger (i64_of_usize n))
  end.

Definition handle_pfmerge (args : list (list byte)) : handler :=
  match args with
  | d :: srcs =>
      let# dest := arg_as_str d in
      let# sources := strings srcs in
      answer (pfmerge dest sources) reply_unit
  | [] => wrong_arity "PFMERGE"
  end.
