(* ===== verification/CmdKeys.v ===== *)
(** * CmdKeys

    The handlers of src/commands.rs for keys of any kind: deletion, expiry,
    renaming, the keyspace walks, DUMP and RESTORE, OBJECT and MEMORY. *)

From S2P Require Import Prelude.
From S2P Require Import Text.
From S2P Require Import BTree.
From S2P Require Import F64.
From S2P Require Import Stream.
From S2P Require Import Value.
From S2P Require Import Backend.
From S2P Require Import Strings.
From S2P Require Import Keyspace.
From S2P Require Import Resp.
From S2P Require Import Commands.

(** ** Existence *)

Fixpoint delete_each (args : list (list byte)) (deleted : Z) : prog kvE (Result Z) :=
  match args with
  | [] => Ret (Ok deleted)
  | a :: args =>
      let# key := arg_as_str a in
      let!? d := delete key in
      delete_each args (if d : bool then deleted + 1 else deleted)
  end.

Definition handle_del (args : list (list byte)) : handler :=
  match args with
  | [] => wrong_arity "DEL"
  | _ => answer (delete_each args 0) RInteger
  end.

Fixpoint count_existing (args : list (list byte)) (count : Z) : prog kvE (Result Z) :=
  match args with
  | [] => Ret (Ok count)
  | a :: args =>
      let# key := arg_as_str a in
      let!? e := exists_ key in
      count_existing args (if e : bool then count + 1 else count)
  end.

Definition handle_exists (args : list (list byte)) : handler :=
  match args with
  | [] => wrong_arity "EXISTS"
  | _ => answer (count_existing args 0) RInteger
  end.

Definition handle_touch (args : list (list byte)) : handler :=
  match args with
  | [] => wrong_arity "TOUCH"
  | _ => answer (count_existing args 0) RInteger
  end.

Definition handle_type (args : list (list byte)) : handler :=
  match args with
  | [k] =>
      let# key := arg_as_str k in
      answer (kind key) (fun t => RSimpleString (match t with Some t => t | None => bs "none" end))
  | _ => wrong_arity "TYPE"
  end.

(** ** Expiry *)

Definition handle_expire (args : list (list byte)) : handler :=
  match args with
  | [k; s] =>
      let# key := arg_as_str k in
      let# secs := parse_i64 s (bs "seconds") in
      let! now := now_ms in
      answer (expire_at key (wrap_i64 (now + wrap_i64 (secs * 1000)))) int_of_bool
  | _ => wrong_arity "EXPIRE"
  end.

Definition handle_expireat (args : list (list byte)) : handler :=
  match args with
  | [k; s] =>
      let# key := arg_as_str k in
      let# unix_secs := parse_i64 s (bs "unix-time-seconds") in
      answer (expire_at key (saturating_mul_i64 unix_secs 1000)) int_of_bool
  | _ => wrong_arity "EXPIREAT"
  end.

Definition handle_pexpire (args : list (list byte)) : handler :=
  match args with
  | [k; m] =>
      let# key := arg_as_str k in
      let# ms := parse_i64 m (bs "milliseconds") in
      let! now := now_ms in
      answer (expire_at key (wrap_i64 (now + ms))) int_of_bool
  | _ => wrong_arity "PEXPIRE"
  end.

Definition handle_pexpireat (args : list (list byte)) : handler :=
  match args with
  | [k; m] =>
      let# key := arg_as_str k in
      let# unix_ms := parse_i64 m (bs "unix-time-milliseconds") in
      answer (expire_at key unix_ms) int_of_bool
  | _ => wrong_arity "PEXPIREAT"
  end.

Definition handle_persist (args : list (list byte)) : handler :=
  match args with
  | [k] => let# key := arg_as_str k in answer (persist key) int_of_bool
  | _ => wrong_arity "PERSIST"
  end.

(** [-2] for no key, [-1] for no TTL, [f ms] otherwise. *)
Definition ttl_reply (f : Z -> Z) (r : TtlResult) : RespReply :=
  match r with
  | NoKey => RInteger (-2)
  | NoExpire => RInteger (-1)
  | Ms ms => RInteger (f ms)
  end.

(** [i64] division truncates. *)
Definition handle_ttl (args : list (list byte)) : handler :=
  match args with
  | [k] =>
      let# key := arg_as_str k in
      answer (ttl_ms key) (ttl_reply (fun ms => Z.quot (wrap_i64 (ms + 999)) 1000))
  | _ => wrong_arity "TTL"
  end.
Definition handle_pttl (args : list (list byte)) : handler :=
  match args with
  | [k] => let# key := arg_as_str k in answer (ttl_ms key) (ttl_reply (fun ms => ms))
  | _ => wrong_arity "PTTL"
  end.
Definition handle_expiretime (args : list (list byte)) : handler :=
  match args with
  | [k] =>
      let# key := arg_as_str k in
      answer (expire_time_ms key) (ttl_reply (fun ms => Z.quot ms 1000))
  | _ => wrong_arity "EXPIRETIME"
  end.
Definition handle_pexpiretime (args : list (list byte)) : handler :=
  match args with
  | [k] => let# key := arg_as_str k in answer (expire_time_ms key) (ttl_reply (fun ms => ms))
  | _ => wrong_arity "PEXPIRETIME"
  end.

(** ** Two keys *)

Definition handle_rename (args : list (list byte)) : handler :=
  match args with
  | [a; b] =>
      let# from := arg_as_str a in
      let# to := arg_as_str b in
      answer (rename from to) reply_unit
  | _ => wrong_arity "RENAME"
  end.

Definition handle_renamenx (args : list (list byte)) : handler :=
  match args with
  | [a; b] =>
      let# from := arg_as_str a in
      let# to := arg_as_str b in
      answer (renamenx from to) int_of_bool
  | _ => wrong_arity "RENAMENX"
  end.

Fixpoint parse_copy_opts (opts : list (list byte)) (replace : bool) : Result bool :=
  match opts with
  | [] => Ok replace
  | o :: rest =>
      let? opt := upper o in
      if str_eqb opt (bs "REPLACE") then parse_copy_opts rest true
      else if str_eqb opt (bs "DB") then
        match rest with
        | [] => Err (Parse "DB requires a value")
        | v :: rest =>
            let? db := parse_i64 v (bs "DB") in
            if negb (db =? 0) then Err (Parse "DB must be 0 — rustyant exposes a single namespace")
            else parse_copy_opts rest replace
        end
      else Err (parse_fmt (bs "unsupported COPY option: " ++ opt))
  end.

Definition handle_copy (args : list (list byte)) : handler :=
  match args with
  | a :: b :: opts =>
      let# from := arg_as_str a in
      let# to := arg_as_str b in
      let# replace := parse_copy_opts opts false in
      answer (copy from to replace) int_of_bool
  | _ => wrong_arity "COPY"
  end.

(** ** The keyspace *)

Section walks.
(** [wildmatch]'s matcher, and the fuel of the walks over [list_page]. *)
Variable matches : Str -> Str -> bool.
Variable fuel : nat.

Definition handle_keys (args : list (list byte)) : partial_handler :=
  match args with
  | [p] =>
      match arg_as_str p with
      | Ok pattern => answer_partial (keys matches fuel pattern) bulk_array
      | Err e => Ret (Some (Err e))
      end
  | _ => total (wrong_arity "KEYS")
  end.

Definition handle_scan (args : list (list byte)) : handler :=
  match args with
  | c :: opts =>
      let# cursor_arg := arg_as_str c in
      let cursor := if str_eqb cursor_arg (bs "0") then None else Some cursor_arg in
      let# (pattern, count) := parse_scan_opts opts (bs "SCAN") in
      answer (scan matches cursor pattern count) (fun '(keys, next) =>
        RArray [bulk (match next with Some c => c | None => bs "0" end); bulk_array keys])
  | [] => wrong_arity "SCAN"
  end.

Definition handle_randomkey (args : list (list byte)) : partial_handler :=
  match args with
  | [] => answer_partial (random_key matches fuel) nil_or_bulk
  | _ => total (wrong_arity "RANDOMKEY")
  end.

Definition handle_dbsize (args : list (list byte)) : partial_handler :=
  match args with
  | [] => answer_partial (dbsize fuel) RInteger
  | _ => total (wrong_arity "DBSIZE")
  end.
End walks.

(** [cmd] is FLUSHDB or FLUSHALL, upper-cased. *)
Definition handle_flushall (args : list (list byte)) (cmd : Str) : handler :=
  match args with
  | _ :: _ :: _ => Ret (Err (WrongArity (String.string_of_list_byte cmd)))
  | _ =>
      let# _ :=
        (match args with
         | mode :: _ =>
             let? m := upper mode in
             if str_eqb m (bs "ASYNC") || str_eqb m (bs "SYNC") then Ok tt
             else Err (parse_fmt (bs "unsupported " ++ cmd ++ bs " option: " ++ m))
         | [] => Ok tt
         end) in
      answer flushall reply_unit
  end.

(** ** DUMP, RESTORE *)

Definition handle_dump (args : list (list byte)) : handler :=
  match args with
  | [k] => let# key := arg_as_str k in answer (dump key) nil_or_bulk
  | _ => wrong_arity "DUMP"
  end.

Fixpoint parse_restore_opts (opts : list (list byte)) (replace abs_ttl : bool) : Result (bool * bool) :=
  match opts with
  | [] => Ok (replace, abs_ttl)
  | o :: rest =>
      let? opt := upper o in
      if str_eqb opt (bs "REPLACE") then parse_restore_opts rest true abs_ttl
      else if str_eqb opt (bs "ABSTTL") then parse_restore_opts rest replace true
      else if str_eqb opt (bs "IDLETIME") || str_eqb opt (bs "FREQ") then
        match rest with
        | [] => Err (parse_fmt (opt ++ bs " requires a value"))
        | v :: rest =>
            let? _ := parse_i64 v opt in
            parse_restore_opts rest replace abs_ttl
        end
      else Err (parse_fmt (bs "unsupported RESTORE option: " ++ opt))
  end.

Definition handle_restore (args : list (list byte)) : partial_handler :=
  match args with
  | k :: t :: payload :: opts =>
      let r :=
        (let? key := arg_as_string k in
         let? ttl_ms := parse_i64 t (bs "ttl") in
         if ttl_ms <? 0 then Err (Parse "Invalid TTL value, must be >= 0")
         else let? flags := parse_restore_opts opts false false in Ok (key, ttl_ms, flags)) in
      match r with
      | Ok (key, ttl_ms, (replace, abs_ttl)) =>
          answer_partial (restore key payload ttl_ms replace abs_ttl) reply_unit
      | Err e => Ret (Some (Err e))
      end
  | _ => total (wrong_arity "RESTORE")
  end.

(** ** OBJECT, MEMORY *)

Definition object_help : RespReply :=
  RArray
    [bulk (bs "OBJECT ENCODING <key> -- Return the kind of internal representation used in order to store the value.");
     bulk (bs "OBJECT FREQ <key> -- Return the access frequency index of the key (LFU-only, not supported).");
     bulk (bs "OBJECT IDLETIME <key> -- Return the idle time of the key (seconds).");
     bulk (bs "OBJECT REFCOUNT <key> -- Return the number of references of the value.");
     bulk (bs "OBJECT HELP -- Prints this help.")].

Definition encoding_name (k : Str) : Str :=
  if str_eqb k (bs "string") then bs "raw"
  else if str_eqb k (bs "hash") || str_eqb k (bs "list") || str_eqb k (bs "zset") then bs "listpack"
  else if str_eqb k (bs "set") then bs "hashtable"
  else k.

Definition handle_object (args : list (list byte)) : handler :=
  match args with
  | [] => wrong_arity "OBJECT"
  | s :: rest =>
      let# sub := upper s in
      if str_eqb sub (bs "HELP") then Ret (Ok object_help)
      else
        match rest with
        | [k] =>
            let# key := arg_as_str k in
            if str_eqb sub (bs "ENCODING") then
              let!? t := kind key in
              Ret (match t with Some t => Ok (bulk (encoding_name t)) | None => Err no_such_key end)
            else if str_eqb sub (bs "IDLETIME") then
              let!? e := exists_ key in Ret (if e : bool then Ok (RInteger 0) else Err no_such_key)
            else if str_eqb sub (bs "REFCOUNT") then
              let!? e := exists_ key in Ret (if e : bool then Ok (RInteger 1) else Err no_such_key)
            else if str_eqb sub (bs "FREQ") then
              Ret (Err (Parse "An LFU maxmemory policy is not selected, access frequency not tracked. Please note that when switching between maxmemory policies at runtime LFU and LRU data will take some time to adjust."))
            else Ret (Err (parse_fmt (bs "unsupported OBJECT subcommand: " ++ sub)))
        | _ => Ret (Err (WrongArity (String.string_of_list_byte (bs "OBJECT " ++ sub))))
        end
  end.

(** [to_vec] is [serde_json::to_vec] at [Value]. *)
Definition handle_memory (to_vec : Value -> Result (list byte)) (args : list (list byte)) : handler :=
  match args with
  | [] => wrong_arity "MEMORY"
  | s :: rest =>
      let# sub := upper s in
      if str_eqb sub (bs "USAGE") then
        match rest with
        | [k] => let# key := arg_as_str k in
                 answer (mem_usage to_vec key) (fun n => match n with Some n => RInteger n | None => RNil end)
        | [k; w; n] =>
            let# key := arg_as_str k in
            let# samples := is_word w (bs "SAMPLES") in
            if negb samples then Ret (Err syntax_err)
            else
              let# _ := parse_i64 n (bs "SAMPLES") in
              answer (mem_usage to_vec key) (fun n => match n with Some n => RInteger n | None => RNil end)
        | _ => wrong_arity "MEMORY USAGE"
        end
      else if str_eqb sub (bs "DOCTOR") then
        Ret (Ok (bulk (bs "Sam, I detected a few issues in this Redis instance memory implants:" ++ [x0a; x0a]
          ++ bs " * rustyant runs on S3, so no in-process heap signals are collected." ++ [x0a])))
      else if str_eqb sub (bs "PURGE") then Ret (Ok reply_ok)
      else if str_eqb sub (bs "STATS") || str_eqb sub (bs "MALLOC-STATS") then Ret (Ok (RArray []))
      else Ret (Err (parse_fmt (bs "unsupported MEMORY subcommand: " ++ sub)))
  end.
