(* ===== verification/CmdCollections.v ===== *)
(** * CmdCollections

    The handlers of src/commands.rs for hashes, lists and sets. *)

From S2P Require Import Prelude.
From S2P Require Import Text.
From S2P Require Import BTree.
From S2P Require Import F64.
From S2P Require Import Stream.
From S2P Require Import Value.
From S2P Require Import Backend.
From S2P Require Import Strings.
From S2P Require Import Hashes.
From S2P Require Import Lists.
From S2P Require Import Sets.
From S2P Require Import Keyspace.
From S2P Require Import Resp.
From S2P Require Import Commands.
From S2P Require Import CmdStrings.

(** ** Hashes *)

(** [[k1, v1, k2, v2, ..]] *)
Definition flat_pairs (pairs : list (Str * list byte)) : list RespReply :=
  flat_map (fun '(f, v) => [bulk f; bulk v]) pairs.

Definition handle_hset (args : list (list byte)) : handler :=
  match args with
  | k :: rest =>
      if (len args <? 3) || negb (len rest mod 2 =? 0) then wrong_arity "HSET"
      else
        let# key := arg_as_string k in
        let# pairs := key_value_pairs rest in
        answer (hset key pairs) RInteger
  | [] => wrong_arity "HSET"
  end.

Definition handle_hsetnx (args : list (list byte)) : handler :=
  match args with
  | [k; f; v] =>
      let# key := arg_as_str k in
      let# field := arg_as_str f in
      answer (hsetnx key field v) int_of_bool
  | _ => wrong_arity "HSETNX"
  end.

Definition handle_hget (args : list (list byte)) : handler :=
  match args with
  | [k; f] =>
      let# key := arg_as_str k in
      let# field := arg_as_str f in
      answer (hget key field) nil_or_bulk
  | _ => wrong_arity "HGET"
  end.

Definition handle_hdel (args : list (list byte)) : handler :=
  match args with
  | k :: ((_ :: _) as fs) =>
      let# key := arg_as_str k in
      let# fields := strings fs in
      answer (hdel key fields) RInteger
  | _ => wrong_arity "HDEL"
  end.

Definition handle_hgetall (args : list (list byte)) : handler :=
  match args with
  | [k] => let# key := arg_as_str k in answer (hgetall key) (fun pairs => RArray (flat_pairs pairs))
  | _ => wrong_arity "HGETALL"
  end.

Definition handle_hlen (args : list (list byte)) : handler :=
  match args with
  | [k] => let# key := arg_as_str k in answer (hlen key) RInteger
  | _ => wrong_arity "HLEN"
  end.

Definition handle_hkeys (args : list (list byte)) : handler :=
  match args with
  | [k] => let# key := arg_as_str k in answer (hkeys key) bulk_array
  | _ => wrong_arity "HKEYS"
  end.

Definition handle_hvals (args : list (list byte)) : handler :=
  match args with
  | [k] => let# key := arg_as_str k in answer (hvals key) bulk_array
  | _ => wrong_arity "HVALS"
  end.

Definition handle_hexists (args : list (list byte)) : handler :=
  match args with
  | [k; f] =>
      let# key := arg_as_str k in
      let# field := arg_as_str f in
      answer (hexists key field) int_of_bool
  | _ => wrong_arity "HEXISTS"
  end.

Definition handle_hstrlen (args : list (list byte)) : handler :=
  match args with
  | [k; f] =>
      let# key := arg_as_str k in
      let# field := arg_as_str f in
      answer (hstrlen key field) RInteger
  | _ => wrong_arity "HSTRLEN"
  end.

Definition handle_hmget (args : list (list byte)) : handler :=
  match args with
  | k :: ((_ :: _) as fs) =>
      let# key := arg_as_str k in
      let# fields := strings fs in
      answer (hmget key fields) (fun vals => RArray (map nil_or_bulk vals))
  | _ => wrong_arity "HMGET"
  end.

Definition handle_hincrby (args : list (list byte)) : handler :=
  match args with
  | [k; f; d] =>
      let# key := arg_as_str k in
      let# field := arg_as_str f in
      let# delta := parse_i64 d (bs "increment") in
      answer (hincr_by key field delta) RInteger
  | _ => wrong_arity "HINCRBY"
  end.

Definition handle_hincrbyfloat (args : list (list byte)) : handler :=
  match args with
  | [k; f; d] =>
      let# key := arg_as_str k in
      let# field := arg_as_str f in
      let# delta := parse_f64 d (bs "increment") in
      if f64_is_nan delta || f64_is_infinite delta then
        Ret (Err (Parse "increment would produce NaN or infinity"))
      else answer (hincr_by_float key field delta) (fun n => bulk (format_score n))
  | _ => wrong_arity "HINCRBYFLOAT"
  end.

(** [count] of the random pickers: [(|count|, count < 0)]. *)
Definition signed_count (count : Z) : Result (Z * bool) :=
  let? abs_count := ok_or (checked_abs_i64 count) (Parse "count overflow") in
  Ok (abs_count, count <? 0).

(** [Vec::pop] *)
Definition last_of {A} (l : list A) : option A := last l.

Definition handle_hrandfield (args : list (list byte)) : handler :=
  match args with
  | [k] =>
      let# key := arg_as_str k in
      answer (hrandfield key 1 false) (fun picked => nil_or_bulk (option_map fst (last_of picked)))
  | k :: c :: opts =>
      if 1 <? len opts then wrong_arity "HRANDFIELD"
      else
        let# key := arg_as_str k in
        let# count := parse_i64 c (bs "count") in
        let# with_values :=
          (match opts with
           | w :: _ => let? ok := is_word w (bs "WITHVALUES") in if ok : bool then Ok true else Err syntax_err
           | [] => Ok false
           end) in
        let# (abs_count, allow_duplicates) := signed_count count in
        answer (hrandfield key abs_count allow_duplicates) (fun picked =>
          if with_values : bool then RArray (flat_pairs picked) else bulk_array (map fst picked))
  | [] => wrong_arity "HRANDFIELD"
  end.

Definition handle_hscan (matches : Str -> Str -> bool) (args : list (list byte)) : handler :=
  match args with
  | k :: c :: opts =>
      let# key := arg_as_str k in
      let# cursor := parse_scan_cursor c in
      let# (pattern, count) := parse_scan_opts opts (bs "HSCAN") in
      answer (hscan matches key cursor pattern count) (fun '(next, pairs) => scan_reply next (flat_pairs pairs))
  | _ => wrong_arity "HSCAN"
  end.

(** ** Lists *)

Definition handle_push (args : list (list byte)) (left : bool) : handler :=
  match args with
  | k :: ((_ :: _) as vs) =>
      let# key := arg_as_string k in answer (list_push key vs left) RInteger
  | _ => if left then wrong_arity "LPUSH" else wrong_arity "RPUSH"
  end.

Definition handle_pushx (args : list (list byte)) (left : bool) : handler :=
  match args with
  | k :: ((_ :: _) as vs) =>
      let# key := arg_as_string k in answer (list_pushx key vs left) RInteger
  | _ => if left then wrong_arity "LPUSHX" else wrong_arity "RPUSHX"
  end.

(** A count that must not be negative. *)
Definition parse_count (c : list byte) : Result Z :=
  let? count := parse_i64 c (bs "count") in
  if count <? 0 then Err (Parse "count must be >= 0") else Ok count.

Definition handle_pop (args : list (list byte)) (left : bool) : handler :=
  match args with
  | [k; c] =>
      let# key := arg_as_str k in
      let# count := parse_count c in
      answer (list_pop key count left) (fun popped =>
        match popped with [] => RNil | _ => bulk_array popped end)
  | [k] =>
      let# key := arg_as_str k in
      answer (list_pop key 1 left) (fun popped => nil_or_bulk (last_of popped))
  | _ => if left then wrong_arity "LPOP" else wrong_arity "RPOP"
  end.

Definition handle_lrange (args : list (list byte)) : handler :=
  match args with
  | [k; s; e] =>
      let# key := arg_as_str k in
      let# start := parse_i64 s (bs "start") in
      let# stop := parse_i64 e (bs "stop") in
      answer (lrange key start stop) bulk_array
  | _ => wrong_arity "LRANGE"
  end.

Definition handle_llen (args : list (list byte)) : handler :=
  match args with
  | [k] => let# key := arg_as_str k in answer (llen key) RInteger
  | _ => wrong_arity "LLEN"
  end.

Definition handle_lindex (args : list (list byte)) : handler :=
  match args with
  | [k; i] =>
      let# key := arg_as_str k in
      let# index := parse_i64 i (bs "index") in
      answer (lindex key index) nil_or_bulk
  | _ => wrong_arity "LINDEX"
  end.

Definition handle_lset (args : list (list byte)) : handler :=
  match args with
  | [k; i; v] =>
      let# key := arg_as_str k in
      let# index := parse_i64 i (bs "index") in
      answer (lset key index v) reply_unit
  | _ => wrong_arity "LSET"
  end.

Definition handle_lrem (args : list (list byte)) : handler :=
  match args with
  | [k; c; v] =>
      let# key := arg_as_str k in
      let# count := parse_i64 c (bs "count") in
      answer (lrem key count v) RInteger
  | _ => wrong_arity "LREM"
  end.

Definition handle_linsert (args : list (list byte)) : handler :=
  match args with
  | [k; d; pivot; v] =>
      let# key := arg_as_str k in
      let# before :=
        (let? u := upper d in
         if str_eqb u (bs "BEFORE") then Ok true
         else if str_eqb u (bs "AFTER") then Ok false
         else Err (parse_fmt (bs "LINSERT direction must be BEFORE or AFTER, got " ++ u))) in
      answer (linsert key before pivot v) RInteger
  | _ => wrong_arity "LINSERT"
  end.

Definition handle_ltrim (args : list (list byte)) : handler :=
  match args with
  | [k; s; e] =>
      let# key := arg_as_str k in
      let# start := parse_i64 s (bs "start") in
      let# stop := parse_i64 e (bs "stop") in
      answer (ltrim key start stop) reply_unit
  | _ => wrong_arity "LTRIM"
  end.

(** [true] for LEFT. *)
Definition parse_side (arg : list byte) (label : Str) : Result bool :=
  let? u := upper arg in
  if str_eqb u (bs "LEFT") then Ok true
  else if str_eqb u (bs "RIGHT") then Ok false
  else Err (parse_fmt (label ++ bs " must be LEFT or RIGHT, got " ++ u)).

Definition handle_lmove (args : list (list byte)) : handler :=
  match args with
  | [a; b; s; d] =>
      let# from := arg_as_str a in
      let# to := arg_as_str b in
      let# from_left := parse_side s (bs "LMOVE source side") in
      let# to_left := parse_side d (bs "LMOVE destination side") in
      answer (list_move from to from_left to_left) nil_or_bulk
  | _ => wrong_arity "LMOVE"
  end.

Definition handle_rpoplpush (args : list (list byte)) : handler :=
  match args with
  | [a; b] =>
      let# from := arg_as_str a in
      let# to := arg_as_str b in
      answer (list_move from to false true) nil_or_bulk
  | _ => wrong_arity "RPOPLPUSH"
  end.

Record LPosOpts := { lp_rank : Z; lp_count : option Z; lp_maxlen : Z }.

Fixpoint parse_lpos_opts (opts : list (list byte)) (o : LPosOpts) : Result LPosOpts :=
  match opts with
  | [] => Ok o
  | w :: rest =>
      let? opt := upper w in
      if str_eqb opt (bs "RANK") then
        match rest with
        | [] => Err (Parse "RANK requires a value")
        | v :: rest =>
            let? rank := parse_i64 v (bs "RANK") in
            if rank =? 0 then Err (Parse "RANK can't be zero")
            else parse_lpos_opts rest {| lp_rank := rank; lp_count := lp_count o; lp_maxlen := lp_maxlen o |}
        end
      else if str_eqb opt (bs "COUNT") then
        match rest with
        | [] => Err (Parse "COUNT requires a value")
        | v :: rest =>
            let? n := parse_i64 v (bs "COUNT") in
            if n <? 0 then Err (Parse "COUNT can't be negative")
            else parse_lpos_opts rest {| lp_rank := lp_rank o; lp_count := Some n; lp_maxlen := lp_maxlen o |}
        end
      else if str_eqb opt (bs "MAXLEN") then
        match rest with
        | [] => Err (Parse "MAXLEN requires a value")
        | v :: rest =>
            let? n := parse_i64 v (bs "MAXLEN") in
            if n <? 0 then Err (Parse "MAXLEN can't be negative")
            else parse_lpos_opts rest {| lp_rank := lp_rank o; lp_count := lp_count o; lp_maxlen := n |}
        end
      else Err (parse_fmt (bs "unsupported LPOS option: " ++ opt))
  end.

Definition handle_lpos (args : list (list byte)) : handler :=
  match args with
  | k :: element :: opts =>
      let# key := arg_as_str k in
      let# o := parse_lpos_opts opts {| lp_rank := 1; lp_count := None; lp_maxlen := 0 |} in
      answer (lpos key element (lp_rank o) (lp_count o) (lp_maxlen o)) (fun hits =>
        match lp_count o with
        | Some _ => RArray (map RInteger hits)
        | None => match hits with h :: _ => RInteger h | [] => RNil end
        end)
  | _ => wrong_arity "LPOS"
  end.

(** ** Sets *)

Definition handle_sadd (args : list (list byte)) : handler :=
  match args with
  | k :: ((_ :: _) as ms) =>
      let# key := arg_as_string k in
      let# members := strings ms in
      answer (sadd key members) RInteger
  | _ => wrong_arity "SADD"
  end.

Definition handle_srem (args : list (list byte)) : handler :=
  match args with
  | k :: ((_ :: _) as ms) =>
      let# key := arg_as_str k in
      let# members := strings ms in
      answer (srem key members) RInteger
  | _ => wrong_arity "SREM"
  end.

Definition handle_smembers (args : list (list byte)) : handler :=
  match args with
  | [k] => let# key := arg_as_str k in answer (smembers key) bulk_array
  | _ => wrong_arity "SMEMBERS"
  end.

Definition handle_sismember (args : list (list byte)) : handler :=
  match args with
  | [k; m] =>
      let# key := arg_as_str k in
      let# member := arg_as_str m in
      answer (sismember key member) int_of_bool
  | _ => wrong_arity "SISMEMBER"
  end.

Definition handle_smismember (args : list (list byte)) : handler :=
  match args with
  | k :: ((_ :: _) as ms) =>
      let# key := arg_as_str k in
      let# members := strings ms in
      answer (smismember key members) (fun flags => RArray (map int_of_bool flags))
  | _ => wrong_arity "SMISMEMBER"
  end.

Definition handle_scard (args : list (list byte)) : handler :=
  match args with
  | [k] => let# key := arg_as_str k in answer (scard key) RInteger
  | _ => wrong_arity "SCARD"
  end.

Definition handle_sinter (args : list (list byte)) : handler :=
  match args with
  | [] => wrong_arity "SINTER"
  | _ => let# keys := strings args in answer (sinter keys) bulk_array
  end.
Definition handle_sunion (args : list (list byte)) : handler :=
  match args with
  | [] => wrong_arity "SUNION"
  | _ => let# keys := strings args in answer (sunion keys) bulk_array
  end.
Definition handle_sdiff (args : list (list byte)) : handler :=
  match args with
  | [] => wrong_arity "SDIFF"
  | _ => let# keys := strings args in answer (sdiff keys) bulk_array
  end.

(** [numkeys key [key ...]] and what follows; [too_few] is the error for a
    count that is not positive. *)
Definition parse_numkeys (n : list byte) (rest : list (list byte)) (too_few : RustyAntError)
    : Result (list Str * list (list byte)) :=
  let? numkeys := parse_i64 n (bs "numkeys") in
  if numkeys <=? 0 then Err too_few
  else if len rest <? numkeys then Err (Parse "Number of keys can't be greater than number of args")
  else
    let? keys := strings (take (Z.to_nat numkeys) rest) in
    Ok (keys, drop (Z.to_nat numkeys) rest).

(** [limit.map_or(n, |cap| n.min(cap))] *)
Definition capped (limit : option Z) (n : Z) : Z := match limit with Some cap => Z.min n cap | None => n end.

Definition handle_sintercard (args : list (list byte)) : handler :=
  match args with
  | [] => wrong_arity "SINTERCARD"
  | n :: rest =>
      let# (keys, tail) := parse_numkeys n rest (Parse "numkeys should be greater than 0") in
      let# limit := parse_optional_limit tail in
      answer (sinter keys) (fun members => RInteger (i64_of_usize (capped limit (len members))))
  end.

Inductive SetOp := SetInter | SetUnion | SetDiff.

Definition SetOp_wrong_arity (op : SetOp) : handler :=
  match op with
  | SetInter => wrong_arity "SINTERSTORE"
  | SetUnion => wrong_arity "SUNIONSTORE"
  | SetDiff => wrong_arity "SDIFFSTORE"
  end.

Definition run_set_op (op : SetOp) (keys : list Str) : prog kvE (Result (list Str)) :=
  match op with
  | SetInter => sinter keys
  | SetUnion => sunion keys
  | SetDiff => sdiff keys
  end.

Definition handle_sstore (args : list (list byte)) (op : SetOp) : handler :=
  match args with
  | d :: ((_ :: _) as srcs) =>
      let# dest := arg_as_string d in
      let# src_keys := strings srcs in
      let!? members := run_set_op op src_keys in
      let!? _ := delete dest in
      match members with
      | [] => Ret (Ok (RInteger 0))
      | _ => answer (sadd dest members) RInteger
      end
  | _ => SetOp_wrong_arity op
  end.

Definition handle_smove (args : list (list byte)) : handler :=
  match args with
  | [s; d; m] =>
      let# source := arg_as_string s in
      let# destination := arg_as_string d in
      let# member := arg_as_string m in
      let!? t := kind destination in
      if match t with Some t => negb (str_eqb t (bs "set")) | None => false end then
        Ret (Err (wrong_type destination))
      else
        let!? present := sismember source member in
        if negb present then Ret (Ok (RInteger 0))
        else if str_eqb source destination then Ret (Ok (RInteger 1))
        else
          let!? _ := srem source [member] in
          let!? _ := sadd destination [member] in
          Ret (Ok (RInteger 1))
  | _ => wrong_arity "SMOVE"
  end.

Definition handle_spop (args : list (list byte)) : handler :=
  match args with
  | [k; c] =>
      let# key := arg_as_str k in
      let# count := parse_count c in
      answer (spop key count) bulk_array
  | [k] =>
      let# key := arg_as_str k in
      answer (spop key 1) (fun popped => nil_or_bulk (last_of popped))
  | _ => wrong_arity "SPOP"
  end.

Definition handle_srandmember (args : list (list byte)) : handler :=
  match args with
  | [k; c] =>
      let# key := arg_as_str k in
      let# count := parse_i64 c (bs "count") in
      let# (abs_count, allow_duplicates) := signed_count count in
      answer (srandmember key abs_count allow_duplicates) bulk_array
  | [k] =>
      let# key := arg_as_str k in
      answer (srandmember key 1 false) (fun picked => nil_or_bulk (last_of picked))
  | _ => wrong_arity "SRANDMEMBER"
  end.

Definition handle_sscan (matches : Str -> Str -> bool) (args : list (list byte)) : handler :=
  match args with
  | k :: c :: opts =>
      let# key := arg_as_str k in
      let# cursor := parse_scan_cursor c in
      let# (pattern, count) := parse_scan_opts opts (bs "SSCAN") in
      answer (sscan matches key cursor pattern count) (fun '(next, members) => scan_reply next (map bulk members))
  | _ => wrong_arity "SSCAN"
  end.
