(* ===== verification/CmdZSets.v ===== *)
(** * CmdZSets

    The handlers of src/commands.rs for sorted sets: ZADD's flags, the unified
    ZRANGE, the BYSCORE and BYLEX families, and the aggregates ZINTER, ZUNION
    and ZDIFF with their STORE forms. *)

From S2P Require Import Prelude.
From S2P Require Import Text.
From S2P Require Import BTree.
From S2P Require Import F64.
From S2P Require Import Stream.
From S2P Require Import Value.
From S2P Require Import Backend.
From S2P Require Import Collections.
From S2P Require Import Strings.
From S2P Require Import Sets.
From S2P Require Import ZSets.
From S2P Require Import Keyspace.
From S2P Require Import Resp.
From S2P Require Import Commands.
From S2P Require Import CmdCollections.

Definition score_reply (s : f64) : RespReply := bulk (format_score s).
Definition opt_score_reply (s : option f64) : RespReply := match s with Some s => score_reply s | None => RNil end.

(** ** ZADD *)

Definition ZAddFlags_default : ZAddFlags := {| nx := false; xx := false; gt := false; lt := false; ch := false |}.

(** The flags before the first score: [(flags, incr, remaining arguments)]. *)
Fixpoint parse_zadd_flags (args : list (list byte)) (f : ZAddFlags) (incr : bool)
    : Result (ZAddFlags * bool * list (list byte)) :=
  match args with
  | [] => Ok (f, incr, [])
  | a :: rest =>
      let? u := upper a in
      if str_eqb u (bs "NX") then
        parse_zadd_flags rest {| nx := true; xx := xx f; gt := gt f; lt := lt f; ch := ch f |} incr
      else if str_eqb u (bs "XX") then
        parse_zadd_flags rest {| nx := nx f; xx := true; gt := gt f; lt := lt f; ch := ch f |} incr
      else if str_eqb u (bs "GT") then
        parse_zadd_flags rest {| nx := nx f; xx := xx f; gt := true; lt := lt f; ch := ch f |} incr
      else if str_eqb u (bs "LT") then
        parse_zadd_flags rest {| nx := nx f; xx := xx f; gt := gt f; lt := true; ch := ch f |} incr
      else if str_eqb u (bs "CH") then
        parse_zadd_flags rest {| nx := nx f; xx := xx f; gt := gt f; lt := lt f; ch := true |} incr
      else if str_eqb u (bs "INCR") then parse_zadd_flags rest f true
      else Ok (f, incr, args)
  end.

Definition check_zadd_flags (f : ZAddFlags) : Result unit :=
  if nx f && xx f then Err (Parse "XX and NX options at the same time are not compatible")
  else if gt f && lt f then Err (Parse "GT, LT, and/or NX options at the same time are not compatible")
  else if nx f && (gt f || lt f) then Err (Parse "GT, LT, and/or NX options at the same time are not compatible")
  else Ok tt.

(** An even number of arguments as [(score, member)] pairs. *)
Fixpoint score_pairs (args : list (list byte)) : Result (list (f64 * Str)) :=
  match args with
  | s :: m :: rest =>
      let? score := parse_f64 s (bs "score") in
      let? member := arg_as_string m in
      let? pairs := score_pairs rest in
      Ok ((score, member) :: pairs)
  | _ => Ok []
  end.

Definition handle_zadd (args : list (list byte)) : handler :=
  match args with
  | k :: rest =>
      if len args <? 3 then wrong_arity "ZADD"
      else
        let# key := arg_as_string k in
        let# (flags, incr, remaining) := parse_zadd_flags rest ZAddFlags_default false in
        let# _ := check_zadd_flags flags in
        if (len remaining <? 2) || negb (len remaining mod 2 =? 0) then wrong_arity "ZADD"
        else
          let# pairs := score_pairs remaining in
          if incr : bool then
            match pairs with
            | [(delta, member)] => answer (zadd_ext_incr key delta member flags) opt_score_reply
            | _ => Ret (Err (Parse "INCR option supports a single increment-element pair"))
            end
          else if nx flags || xx flags || gt flags || lt flags || ch flags then
            answer (zadd_ext key pairs flags) RInteger
          else answer (zadd key pairs) RInteger
  | [] => wrong_arity "ZADD"
  end.

(** ** ZRANGE *)

Inductive ZRangeMode := Rank | Score | Lex.
Record ZRangeOpts := { zr_mode : ZRangeMode; zr_rev : bool; zr_limit : option (Z * Z); zr_with_scores : bool }.

Definition exclusive_modes : RustyAntError := Parse "syntax error, BYSCORE and BYLEX are mutually exclusive".

Fixpoint parse_zrange_opts_loop (cmd_name : Str) (tail : list (list byte)) (o : ZRangeOpts) : Result ZRangeOpts :=
  match tail with
  | [] => Ok o
  | w :: rest =>
      let? u := upper w in
      if str_eqb u (bs "BYSCORE") then
        match zr_mode o with
        | Lex => Err exclusive_modes
        | _ => parse_zrange_opts_loop cmd_name rest
                 {| zr_mode := Score; zr_rev := zr_rev o; zr_limit := zr_limit o; zr_with_scores := zr_with_scores o |}
        end
      else if str_eqb u (bs "BYLEX") then
        match zr_mode o with
        | Score => Err exclusive_modes
        | _ => parse_zrange_opts_loop cmd_name rest
                 {| zr_mode := Lex; zr_rev := zr_rev o; zr_limit := zr_limit o; zr_with_scores := zr_with_scores o |}
        end
      else if str_eqb u (bs "REV") then
        parse_zrange_opts_loop cmd_name rest
          {| zr_mode := zr_mode o; zr_rev := true; zr_limit := zr_limit o; zr_with_scores := zr_with_scores o |}
      else if str_eqb u (bs "LIMIT") then
        match rest with
        | a :: b :: rest =>
            let? offset := parse_i64 a (bs "offset") in
            let? count := parse_i64 b (bs "count") in
            parse_zrange_opts_loop cmd_name rest
              {| zr_mode := zr_mode o; zr_rev := zr_rev o; zr_limit := Some (offset, count);
                 zr_with_scores := zr_with_scores o |}
        | _ => Err syntax_err
        end
      else if str_eqb u (bs "WITHSCORES") then
        parse_zrange_opts_loop cmd_name rest
          {| zr_mode := zr_mode o; zr_rev := zr_rev o; zr_limit := zr_limit o; zr_with_scores := true |}
      else Err (parse_fmt (bs "syntax error in " ++ cmd_name))
  end.

Definition parse_zrange_opts (cmd_name : Str) (tail : list (list byte)) : Result ZRangeOpts :=
  let? o := parse_zrange_opts_loop cmd_name tail
              {| zr_mode := Rank; zr_rev := false; zr_limit := None; zr_with_scores := false |} in
  match zr_mode o, zr_limit o with
  | Rank, Some _ =>
      Err (Parse "syntax error, LIMIT is only supported in combination with either BYSCORE or BYLEX")
  | _, _ =>
      match zr_mode o, zr_with_scores o with
      | Lex, true => Err (Parse "syntax error, WITHSCORES not supported in combination with BYLEX")
      | _, _ => Ok o
      end
  end.

(** A copy of storage.rs's [resolve_range]. *)
Definition normalize_rank_range (l start stop : Z) : option (Z * Z) :=
  if l =? 0 then None
  else
    let norm i := if i <? 0 then Z.max (l + i) 0 else Z.min i (l - 1) in
    let s := norm start in
    let e := norm stop in
    if e <? s then None else Some (usize_of_i64 s 0, usize_of_i64 e 0).

Definition rev_if {A} (rev_ : bool) (l : list A) : list A := if rev_ then rev l else l.

Definition range_by_rank (key : Str) (start stop : Z) (rev_ : bool) : prog kvE (Result (list zentry)) :=
  let!? items := zitems key in
  let sorted := rev_if rev_ (sort_by zcmp items) in
  Ret (Ok (match normalize_rank_range (len_i64 sorted) start stop with
           | None => []
           | Some (s, e) => slice_incl sorted s e
           end)).

Definition range_by_score (key : Str) (min max : ScoreBound) (rev_ : bool) (limit : option (Z * Z))
    : prog kvE (Result (list zentry)) :=
  let!? items := zitems key in
  let pairs := sort_by zcmp (List.filter (fun ms => in_score min max (snd ms)) items) in
  Ret (Ok (apply_limit_pairs (rev_if rev_ pairs) limit)).

Definition range_by_lex (key : Str) (min max : LexBound) (rev_ : bool) (limit : option (Z * Z))
    : prog kvE (Result (list zentry)) :=
  let!? items := zitems key in
  let pairs := sort_by (fun a b => kcmp (fst a) (fst b)) (List.filter (fun ms => in_lex min max (fst ms)) items) in
  Ret (Ok (apply_limit_pairs (rev_if rev_ pairs) limit)).

Definition score_bound_arg (a : list byte) : Result ScoreBound := let? s := arg_as_str a in ScoreBound_parse s.
Definition lex_bound_arg (a : list byte) : Result LexBound := let? s := arg_as_str a in LexBound_parse s.

(** The pairs of a ZRANGE; with [REV] the first bound is the maximum. *)
Definition zrange_pairs (key : Str) (lo hi : list byte) (o : ZRangeOpts) : prog kvE (Result (list zentry)) :=
  let min_arg := if zr_rev o then hi else lo in
  let max_arg := if zr_rev o then lo else hi in
  match zr_mode o with
  | Rank =>
      let# start := parse_i64 lo (bs "start") in
      let# stop := parse_i64 hi (bs "stop") in
      range_by_rank key start stop (zr_rev o)
  | Score =>
      let# min := score_bound_arg min_arg in
      let# max := score_bound_arg max_arg in
      range_by_score key min max (zr_rev o) (zr_limit o)
  | Lex =>
      let# min := lex_bound_arg min_arg in
      let# max := lex_bound_arg max_arg in
      range_by_lex key min max (zr_rev o) (zr_limit o)
  end.

Definition execute_zrange (key : Str) (lo hi : list byte) (o : ZRangeOpts) : handler :=
  answer (zrange_pairs key lo hi o) (fun pairs => pairs_to_reply pairs (zr_with_scores o)).

Definition handle_zrange (args : list (list byte)) : handler :=
  match args with
  | k :: lo :: hi :: tail =>
      let# key := arg_as_str k in
      let# opts := parse_zrange_opts (bs "ZRANGE") tail in
      execute_zrange key lo hi opts
  | _ => wrong_arity "ZRANGE"
  end.

Definition handle_zrevrange (args : list (list byte)) : handler :=
  match args with
  | k :: lo :: hi :: tail =>
      let# key := arg_as_str k in
      let# with_scores :=
        (match tail with
         | [] => Ok false
         | [w] => let? b := is_word w (bs "WITHSCORES") in if b : bool then Ok true else Err syntax_err
         | _ => Err syntax_err
         end) in
      execute_zrange key lo hi
        {| zr_mode := Rank; zr_rev := true; zr_limit := None; zr_with_scores := with_scores |}
  | _ => wrong_arity "ZREVRANGE"
  end.

(** ** BYSCORE and BYLEX *)

Fixpoint parse_zrangebyscore_tail (tail : list (list byte)) (with_scores : bool) (limit : option (Z * Z))
    : Result (bool * option (Z * Z)) :=
  match tail with
  | [] => Ok (with_scores, limit)
  | w :: rest =>
      let? u := upper w in
      if str_eqb u (bs "WITHSCORES") then parse_zrangebyscore_tail rest true limit
      else if str_eqb u (bs "LIMIT") then
        match rest with
        | a :: b :: rest =>
            let? offset := parse_i64 a (bs "offset") in
            let? count := parse_i64 b (bs "count") in
            parse_zrangebyscore_tail rest with_scores (Some (offset, count))
        | _ => Err syntax_err
        end
      else Err syntax_err
  end.

Definition handle_zrangebyscore (args : list (list byte)) : handler :=
  match args with
  | k :: a :: b :: tail =>
      let# key := arg_as_str k in
      let# min := score_bound_arg a in
      let# max := score_bound_arg b in
      let# (with_scores, limit) := parse_zrangebyscore_tail tail false None in
      answer (range_by_score key min max false limit) (fun pairs => pairs_to_reply pairs with_scores)
  | _ => wrong_arity "ZRANGEBYSCORE"
  end.

Definition handle_zrevrangebyscore (args : list (list byte)) : handler :=
  match args with
  | k :: a :: b :: tail =>
      let# key := arg_as_str k in
      let# max := score_bound_arg a in
      let# min := score_bound_arg b in
      let# (with_scores, limit) := parse_zrangebyscore_tail tail false None in
      answer (range_by_score key min max true limit) (fun pairs => pairs_to_reply pairs with_scores)
  | _ => wrong_arity "ZREVRANGEBYSCORE"
  end.

Definition parse_lex_limit (tail : list (list byte)) : Result (option (Z * Z)) :=
  match tail with
  | [] => Ok None
  | [w; a; b] =>
      let? l := is_word w (bs "LIMIT") in
      if negb l then Err syntax_err
      else
        let? offset := parse_i64 a (bs "offset") in
        let? count := parse_i64 b (bs "count") in
        Ok (Some (offset, count))
  | _ => Err syntax_err
  end.

Definition lex_arity_ok (tail : list (list byte)) : bool := (len tail =? 0) || (len tail =? 3).

Definition handle_zrangebylex (args : list (list byte)) : handler :=
  match args with
  | k :: a :: b :: tail =>
      if negb (lex_arity_ok tail) then wrong_arity "ZRANGEBYLEX"
      else
        let# key := arg_as_str k in
        let# min := lex_bound_arg a in
        let# max := lex_bound_arg b in
        let# limit := parse_lex_limit tail in
        answer (zrangebylex key min max limit) bulk_array
  | _ => wrong_arity "ZRANGEBYLEX"
  end.

Definition handle_zrevrangebylex (args : list (list byte)) : handler :=
  match args with
  | k :: a :: b :: tail =>
      if negb (lex_arity_ok tail) then wrong_arity "ZREVRANGEBYLEX"
      else
        let# key := arg_as_str k in
        let# max := lex_bound_arg a in
        let# min := lex_bound_arg b in
        let# limit := parse_lex_limit tail in
        answer (zrevrangebylex key max min limit) bulk_array
  | _ => wrong_arity "ZREVRANGEBYLEX"
  end.

Definition handle_zlexcount (args : list (list byte)) : handler :=
  match args with
  | [k; a; b] =>
      let# key := arg_as_str k in
      let# min := lex_bound_arg a in
      let# max := lex_bound_arg b in
      answer (zlexcount key min max) RInteger
  | _ => wrong_arity "ZLEXCOUNT"
  end.

Definition handle_zremrangebylex (args : list (list byte)) : handler :=
  match args with
  | [k; a; b] =>
      let# key := arg_as_str k in
      let# min := lex_bound_arg a in
      let# max := lex_bound_arg b in
      answer (zremrangebylex key min max) RInteger
  | _ => wrong_arity "ZREMRANGEBYLEX"
  end.

Definition handle_zremrangebyrank (args : list (list byte)) : handler :=
  match args with
  | [k; s; e] =>
      let# key := arg_as_str k in
      let# start := parse_i64 s (bs "start") in
      let# stop := parse_i64 e (bs "stop") in
      answer (zremrangebyrank key start stop) RInteger
  | _ => wrong_arity "ZREMRANGEBYRANK"
  end.

Definition handle_zremrangebyscore (args : list (list byte)) : handler :=
  match args with
  | [k; a; b] =>
      let# key := arg_as_str k in
      let# min := score_bound_arg a in
      let# max := score_bound_arg b in
      answer (zremrangebyscore key min max) RInteger
  | _ => wrong_arity "ZREMRANGEBYSCORE"
  end.

(** ** Reads and removals *)

Definition handle_zscore (args : list (list byte)) : handler :=
  match args with
  | [k; m] =>
      let# key := arg_as_str k in
      let# member := arg_as_str m in
      answer (zscore key member) opt_score_reply
  | _ => wrong_arity "ZSCORE"
  end.

Definition handle_zcard (args : list (list byte)) : handler :=
  match args with
  | [k] => let# key := arg_as_str k in answer (zcard key) RInteger
  | _ => wrong_arity "ZCARD"
  end.

Definition handle_zrank (args : list (list byte)) (reverse : bool) : handler :=
  match args with
  | [k; m] =>
      let# key := arg_as_str k in
      let# member := arg_as_str m in
      answer (if reverse then zrevrank key member else zrank key member)
        (fun r => match r with Some n => RInteger n | None => RNil end)
  | _ => if reverse then wrong_arity "ZREVRANK" else wrong_arity "ZRANK"
  end.

Definition handle_zcount (args : list (list byte)) : handler :=
  match args with
  | [k; a; b] =>
      let# key := arg_as_str k in
      let# min := score_bound_arg a in
      let# max := score_bound_arg b in
      answer (zcount key min max) RInteger
  | _ => wrong_arity "ZCOUNT"
  end.

Definition handle_zmscore (args : list (list byte)) : handler :=
  match args with
  | k :: ((_ :: _) as ms) =>
      let# key := arg_as_str k in
      let# members := strings ms in
      answer (zmscore key members) (fun scores => RArray (map opt_score_reply scores))
  | _ => wrong_arity "ZMSCORE"
  end.

Definition handle_zrem (args : list (list byte)) : handler :=
  match args with
  | k :: ((_ :: _) as ms) =>
      let# key := arg_as_str k in
      let# members := strings ms in
      answer (zrem key members) RInteger
  | _ => wrong_arity "ZREM"
  end.

Definition handle_zincrby (args : list (list byte)) : handler :=
  match args with
  | [k; d; m] =>
      let# key := arg_as_str k in
      let# delta := parse_f64 d (bs "increment") in
      let# member := arg_as_str m in
      answer (zincr_by key member delta) score_reply
  | _ => wrong_arity "ZINCRBY"
  end.

Definition handle_zpop (args : list (list byte)) (from_max : bool) : handler :=
  match args with
  | k :: c =>
      if 1 <? len c then (if from_max then wrong_arity "ZPOPMAX" else wrong_arity "ZPOPMIN")
      else
        let# key := arg_as_str k in
        let# count := (match c with c :: _ => parse_count c | [] => Ok 1 end) in
        answer (if from_max then zpopmax key count else zpopmin key count)
          (fun popped => pairs_to_reply popped true)
  | [] => if from_max then wrong_arity "ZPOPMAX" else wrong_arity "ZPOPMIN"
  end.

Definition handle_zrandmember (args : list (list byte)) : handler :=
  match args with
  | [k] =>
      let# key := arg_as_str k in
      answer (zrandmember key 1 false) (fun picked => nil_or_bulk (option_map fst (last_of picked)))
  | k :: c :: opts =>
      if 1 <? len opts then wrong_arity "ZRANDMEMBER"
      else
        let# key := arg_as_str k in
        let# count := parse_i64 c (bs "count") in
        let# with_scores :=
          (match opts with
           | w :: _ => let? ok := is_word w (bs "WITHSCORES") in if ok : bool then Ok true else Err syntax_err
           | [] => Ok false
           end) in
        let# (abs_count, allow_duplicates) := signed_count count in
        answer (zrandmember key abs_count allow_duplicates) (fun picked => pairs_to_reply picked with_scores)
  | [] => wrong_arity "ZRANDMEMBER"
  end.

Definition handle_zscan (matches : Str -> Str -> bool) (args : list (list byte)) : handler :=
  match args with
  | k :: c :: opts =>
      let# key := arg_as_str k in
      let# cursor := parse_scan_cursor c in
      let# (pattern, count) := parse_scan_opts opts (bs "ZSCAN") in
      answer (zscan matches key cursor pattern count) (fun '(next, pairs) =>
        scan_reply next (flat_map (fun '(m, s) => [bulk m; score_reply s]) pairs))
  | _ => wrong_arity "ZSCAN"
  end.

(** ** Aggregates *)

Inductive ZStoreOp := ZInter | ZUnion | ZDiff.
Inductive Aggregate := Sum | Min | Max.

#[export] Instance ZStoreOp_eq_dec : EqDecision ZStoreOp.
Proof. solve_decision. Defined.

Definition combine_scores (a b : f64) (agg : Aggregate) : f64 :=
  match agg with
  | Sum => f64_add a b
  | Min => if f64_lt b a then b else a
  | Max => if f64_gt b a then b else a
  end.

(** [parse_f64] of one weight per key, into a vector of ones. *)
Fixpoint parse_weights (args : list (list byte)) : Result (list f64) :=
  match args with
  | [] => Ok []
  | a :: args => let? w := parse_f64 a (bs "weight") in let? ws := parse_weights args in Ok (w :: ws)
  end.

Definition parse_aggregate (a : list byte) : Result Aggregate :=
  let? u := upper a in
  if str_eqb u (bs "SUM") then Ok Sum
  else if str_eqb u (bs "MIN") then Ok Min
  else if str_eqb u (bs "MAX") then Ok Max
  else Err (parse_fmt (bs "unsupported AGGREGATE mode: " ++ u)).

(** One unit of fuel per token; a turn consumes at least one. *)
Fixpoint parse_weights_aggregate_loop (fuel : nat) (tail : list (list byte)) (numkeys : nat)
    (weights : list f64) (aggregate : Aggregate) : Result (list f64 * Aggregate) :=
  match fuel, tail with
  | S fuel, w :: rest =>
      let? token := upper w in
      if str_eqb token (bs "WEIGHTS") then
        if (length rest <? numkeys)%nat then Err (Parse "WEIGHTS needs one value per input key")
        else
          let? weights := parse_weights (take numkeys rest) in
          parse_weights_aggregate_loop fuel (drop numkeys rest) numkeys weights aggregate
      else if str_eqb token (bs "AGGREGATE") then
        match rest with
        | [] => Err (Parse "AGGREGATE requires SUM, MIN, or MAX")
        | m :: rest =>
            let? aggregate := parse_aggregate m in
            parse_weights_aggregate_loop fuel rest numkeys weights aggregate
        end
      else Err (parse_fmt (bs "syntax error near '" ++ token ++ bs "'"))
  | _, _ => Ok (weights, aggregate)
  end.
Definition f64_one : f64 := f64_lit "1.0".
Definition parse_weights_aggregate (tail : list (list byte)) (numkeys : nat) : Result (list f64 * Aggregate) :=
  parse_weights_aggregate_loop (length tail) tail numkeys (repeat f64_one numkeys) Sum.

Definition load_zset_or_set (key : Str) : prog kvE (Result (list zentry)) :=
  let!? t := kind key in
  match t with
  | Some t =>
      if str_eqb t (bs "zset") then zitems key
      else if str_eqb t (bs "set") then
        let!? members := smembers key in Ret (Ok (map (fun m => (m, f64_one)) members))
      else Ret (Err (wrong_type key))
  | None => Ret (Ok [])
  end.

Fixpoint load_inputs (keys : list Str) (out : list (list zentry)) : prog kvE (Result (list (list zentry))) :=
  match keys with
  | [] => Ret (Ok out)
  | k :: keys => let!? items := load_zset_or_set k in load_inputs keys (out ++ [items])
  end.

Fixpoint load_weighted (inputs : list (Str * f64)) (out : list (list zentry)) : prog kvE (Result (list (list zentry))) :=
  match inputs with
  | [] => Ret (Ok out)
  | (k, w) :: inputs =>
      let!? items := load_zset_or_set k in
      load_weighted inputs (out ++ [map (fun '(m, s) => (m, f64_mul s w)) items])
  end.

(** [collect::<HashMap<_, _>>()]: the last score of a member wins. *)
Definition hash_collect (l : list zentry) : gmap Str f64 := fold_left (fun m '(k, v) => <[k := v]> m) l ∅.

Section hashing.
(** [HashMap::into_iter]: Rust leaves its order unspecified. *)
Variable into_iter : gmap Str f64 -> list zentry.

Definition swap_pairs (l : list zentry) : list (f64 * Str) := map (fun '(m, s) => (s, m)) l.

(** [current.retain(..)] against the next input. *)
Definition intersect_step (agg : Aggregate) (current : gmap Str f64) (input : list zentry) : gmap Str f64 :=
  merge (fun a b => match a, b with Some a, Some b => Some (combine_scores a b agg) | _, _ => None end)
    current (hash_collect input).

(** The loop over the other inputs, left as soon as nothing is left. *)
Fixpoint intersect_rest (agg : Aggregate) (inputs : list (list zentry)) (current : gmap Str f64) : list (f64 * Str) :=
  match inputs with
  | [] => swap_pairs (into_iter current)
  | input :: inputs =>
      if bool_decide (current = ∅) then [] else intersect_rest agg inputs (intersect_step agg current input)
  end.

Definition aggregate_intersection (per_input : list (list zentry)) (agg : Aggregate) : list (f64 * Str) :=
  match per_input with
  | [] => []
  | first :: rest => intersect_rest agg rest (hash_collect first)
  end.

Definition union_step (agg : Aggregate) (acc : gmap Str f64) (ms : zentry) : gmap Str f64 :=
  match acc !! fst ms with
  | Some existing => <[fst ms := combine_scores existing (snd ms) agg]> acc
  | None => <[fst ms := snd ms]> acc
  end.
Definition aggregate_union (per_input : list (list zentry)) (agg : Aggregate) : list (f64 * Str) :=
  swap_pairs (into_iter (fold_left (union_step agg) (concat per_input) ∅)).

Definition aggregate_difference (per_input : list (list zentry)) : list (f64 * Str) :=
  match per_input with
  | [] => []
  | first :: rest =>
      let dropped : gset Str := list_to_set (map fst (concat rest)) in
      swap_pairs (List.filter (fun ms => negb (bool_decide (fst ms ∈ dropped))) first)
  end.

Definition too_few_inputs : RustyAntError := Parse "at least 1 input key is needed for this command".

(** [WITHSCORES] at the end of a tail. *)
Definition ends_with_scores (tail : list (list byte)) : Result bool :=
  match last tail with Some l => is_word l (bs "WITHSCORES") | None => Ok false end.

Definition compute_zset_aggregate (args : list (list byte)) (op : ZStoreOp) (cmd_name : string)
    (allow_withscores : bool) : prog kvE (Result (list (f64 * Str))) :=
  match args with
  | [] => Ret (Err (WrongArity cmd_name))
  | n :: rest =>
      let# (src_keys, tail) := parse_numkeys n rest too_few_inputs in
      let# strip := (if allow_withscores then ends_with_scores tail else Ok false) in
      let tail := if strip : bool then removelast tail else tail in
      let numkeys := length src_keys in
      let# (weights, aggregate) :=
        (match op with
         | ZDiff =>
             match tail with
             | [] => Ok (repeat f64_one numkeys, Sum)
             | t :: _ => let? s := arg_as_str t in Err (parse_fmt (bs "syntax error near '" ++ s ++ bs "'"))
             end
         | _ => parse_weights_aggregate tail numkeys
         end) in
      let!? per_input := load_weighted (zip src_keys weights) [] in
      Ret (Ok (match op with
               | ZInter => aggregate_intersection per_input aggregate
               | ZUnion => aggregate_union per_input aggregate
               | ZDiff => aggregate_difference per_input
               end))
  end.

Arguments compute_zset_aggregate args op cmd_name%_string_scope allow_withscores.

Definition ZStoreOp_wrong_arity (op : ZStoreOp) : handler :=
  match op with
  | ZInter => wrong_arity "ZINTERSTORE"
  | ZUnion => wrong_arity "ZUNIONSTORE"
  | ZDiff => wrong_arity "ZDIFFSTORE"
  end.
Definition ZStoreOp_compute (args : list (list byte)) (op : ZStoreOp) : prog kvE (Result (list (f64 * Str))) :=
  match op with
  | ZInter => compute_zset_aggregate args op "ZINTERSTORE" false
  | ZUnion => compute_zset_aggregate args op "ZUNIONSTORE" false
  | ZDiff => compute_zset_aggregate args op "ZDIFFSTORE" false
  end.

Definition handle_zstore (args : list (list byte)) (op : ZStoreOp) : handler :=
  match args with
  | d :: rest =>
      if len args <? 3 then ZStoreOp_wrong_arity op
      else
        let# dest := arg_as_string d in
        let!? pairs := ZStoreOp_compute rest op in
        let!? _ := delete dest in
        match pairs with
        | [] => Ret (Ok (RInteger 0))
        | _ => answer (zadd dest pairs) RInteger
        end
  | [] => ZStoreOp_wrong_arity op
  end.

(** [args.last().is_some_and(..)]: text that is not UTF-8 is not the word. *)
Definition wants_scores (args : list (list byte)) : bool :=
  match last args with
  | Some b => match arg_as_str b with Ok s => eq_ignore_ascii_case s (bs "WITHSCORES") | Err _ => false end
  | None => false
  end.

Definition handle_zset_aggregate (args : list (list byte)) (op : ZStoreOp) (cmd_name : string) : handler :=
  let with_scores := wants_scores args in
  answer (compute_zset_aggregate args op cmd_name true) (fun pairs =>
    pairs_to_reply (sort_by zcmp (map (fun '(s, m) => (m, s)) pairs)) with_scores).
Arguments handle_zset_aggregate args op cmd_name%_string_scope.

Definition handle_zinter (args : list (list byte)) : handler := handle_zset_aggregate args ZInter "ZINTER".
Definition handle_zunion (args : list (list byte)) : handler := handle_zset_aggregate args ZUnion "ZUNION".
Definition handle_zdiff (args : list (list byte)) : handler := handle_zset_aggregate args ZDiff "ZDIFF".

Definition handle_zintercard (args : list (list byte)) : handler :=
  match args with
  | [] => wrong_arity "ZINTERCARD"
  | n :: rest =>
      let# (keys, tail) := parse_numkeys n rest too_few_inputs in
      let# limit := parse_optional_limit tail in
      answer (load_inputs keys []) (fun per_input =>
        RInteger (i64_of_usize (capped limit (len (aggregate_intersection per_input Sum)))))
  end.
End hashing.
