(* ===== verification/CmdStreams.v ===== *)
(** * CmdStreams

    The handlers of src/commands.rs for streams and consumer groups.  The option
    loops of XREAD and XREADGROUP index the arguments without a test: [None] is
    the panic past their end. *)

From S2P Require Import Prelude.
From S2P Require Import Text.
From S2P Require Import BTree.
From S2P Require Import F64.
From S2P Require Import Stream.
From S2P Require Import Value.
From S2P Require Import Backend.
From S2P Require Import Strings.
From S2P Require Import StreamOps.
From S2P Require Import Keyspace.
From S2P Require Import Resp.
From S2P Require Import Commands.
From S2P Require Import CmdStrings.
From S2P Require Import CmdCollections.

(** ** Replies *)

Definition stream_id_bulk (id : StreamId) : RespReply := bulk (StreamId_display id).

Definition entry_to_reply (entry : StreamEntry) : RespReply :=
  RArray [stream_id_bulk (se_id entry); RArray (flat_pairs (se_fields entry))].

Definition claim_result_to_reply (result : XClaimResult) : RespReply :=
  match xc_fields result with
  | Some fields => RArray [stream_id_bulk (xc_id result); RArray (flat_pairs fields)]
  | None => stream_id_bulk (xc_id result)
  end.

Definition per_stream_reply (per_stream : list (Str * list StreamEntry)) : RespReply :=
  match per_stream with
  | [] => RNil
  | _ => RArray (map (fun '(key, es) => RArray [bulk key; RArray (map entry_to_reply es)]) per_stream)
  end.

(** [i64::try_from(n).unwrap_or(i64::MAX)] of a [u64] or [usize]. *)
Definition count_reply (n : Z) : RespReply := RInteger (i64_of_usize n).

(** ** Arguments *)

Definition stream_id_arg (a : list byte) : Result StreamId := let? s := arg_as_str a in StreamId_parse s.
Definition range_id_arg (a : list byte) : Result RangeId := let? s := arg_as_str a in RangeId_parse s.

Definition stream_count (v : list byte) : Result Z :=
  let? n := parse_i64 v (bs "COUNT") in
  if n <? 0 then Err (Parse "COUNT must be non-negative") else Ok n.

(** ** The log *)

Record XAddArgs := {
  xa_nomkstream : bool;
  xa_trim : option (TrimBound * option Z);
  xa_id : AddIdSpec;
  xa_fields : list (Str * list byte);
}.

(** What follows the key: [[NOMKSTREAM] [trim] id field value ..]. *)
Definition parse_xadd (rest : list (list byte)) : Result XAddArgs :=
  match rest with
  | [] => Err (WrongArity "XADD")
  | first :: _ =>
      let? nomkstream := is_word first (bs "NOMKSTREAM") in
      let rest := if nomkstream : bool then tail rest else rest in
      match rest with
      | [] => Err (WrongArity "XADD")
      | head :: _ =>
          let? h := arg_as_str head in
          let? (trim, rest) :=
            (if eq_ignore_ascii_case h (bs "MAXLEN") || eq_ignore_ascii_case h (bs "MINID") then
               let? remaining := strings rest in
               let? (bound, limit, consumed) := parse_trim remaining in
               Ok (Some (bound, limit), drop (Z.to_nat consumed) rest)
             else Ok (None, rest)) in
          match rest with
          | [] => Err (WrongArity "XADD")
          | id :: pairs =>
              let? id_spec := (let? s := arg_as_str id in AddIdSpec_parse s) in
              if (len pairs =? 0) || negb (len pairs mod 2 =? 0) then Err (WrongArity "XADD")
              else
                let? fields := key_value_pairs pairs in
                Ok {| xa_nomkstream := nomkstream; xa_trim := trim; xa_id := id_spec; xa_fields := fields |}
          end
      end
  end.

Definition handle_xadd (args : list (list byte)) : handler :=
  match args with
  | k :: rest =>
      if len args <? 4 then wrong_arity "XADD"
      else
        let# key := arg_as_string k in
        let# a := parse_xadd rest in
        answer (xadd key (xa_id a) (xa_fields a) (xa_nomkstream a) (xa_trim a))
          (fun r => match r with Some id => stream_id_bulk id | None => RNil end)
  | [] => wrong_arity "XADD"
  end.

Definition handle_xlen (args : list (list byte)) : handler :=
  match args with
  | [k] => let# key := arg_as_str k in answer (xlen key) RInteger
  | _ => wrong_arity "XLEN"
  end.

Definition handle_xrange (args : list (list byte)) (reverse : bool) : handler :=
  match args with
  | k :: a :: b :: opts =>
      if negb ((len opts =? 0) || (len opts =? 2)) then
        (if reverse then wrong_arity "XREVRANGE" else wrong_arity "XRANGE")
      else
        let# key := arg_as_str k in
        let# start := range_id_arg (if reverse then b else a) in
        let# end_ := range_id_arg (if reverse then a else b) in
        let# count :=
          (match opts with
           | [w; n] =>
               let? c := is_word w (bs "COUNT") in
               if negb c then Err syntax_err else let? n := stream_count n in Ok (Some n)
           | _ => Ok None
           end) in
        answer (xrange key start end_ count reverse) (fun es => RArray (map entry_to_reply es))
  | _ => if reverse then wrong_arity "XREVRANGE" else wrong_arity "XRANGE"
  end.

Definition handle_xdel (args : list (list byte)) : handler :=
  match args with
  | k :: ((_ :: _) as is_) =>
      let# key := arg_as_str k in
      let# ids := collect_results stream_id_arg is_ in
      answer (xdel key ids) RInteger
  | _ => wrong_arity "XDEL"
  end.

Definition handle_xtrim (args : list (list byte)) : handler :=
  match args with
  | k :: ((_ :: _ :: _) as rest) =>
      let# key := arg_as_str k in
      let# remaining := strings rest in
      let# (bound, limit, consumed) := parse_trim remaining in
      if negb (consumed =? len remaining) then Ret (Err syntax_err)
      else answer (xtrim key bound limit) RInteger
  | _ => wrong_arity "XTRIM"
  end.

(** ** XREAD *)

(** The options before STREAMS: the count and what follows STREAMS. *)
Fixpoint parse_xread_opts (args : list (list byte)) (count : option Z)
    : option (Result (option Z * list (list byte))) :=
  match args with
  | [] => None
  | a :: rest =>
      match upper a with
      | Err e => Some (Err e)
      | Ok tok =>
          if str_eqb tok (bs "COUNT") then
            match rest with
            | [] => Some (Err syntax_err)
            | v :: rest =>
                match stream_count v with
                | Ok n => parse_xread_opts rest (Some n)
                | Err e => Some (Err e)
                end
            end
          else if str_eqb tok (bs "BLOCK") then
            match rest with
            | [] => Some (Err syntax_err)
            | v :: rest =>
                match parse_i64 v (bs "BLOCK") with
                | Ok _ => parse_xread_opts rest count
                | Err e => Some (Err e)
                end
            end
          else if str_eqb tok (bs "STREAMS") then Some (Ok (count, rest))
          else Some (Err syntax_err)
      end
  end.

(** [$] reads as the greatest id. *)
Definition xread_id_arg (a : list byte) : Result StreamId :=
  let? s := arg_as_str a in if str_eqb s (bs "$") then Ok StreamId_MAX else StreamId_parse s.

(** [key .. id ..] split in the middle. *)
Definition split_streams {I} (id_arg : list byte -> Result I) (unbalanced : RustyAntError) (rest : list (list byte))
    : Result (list Str * list I) :=
  let remaining := len rest in
  if (remaining =? 0) || negb (remaining mod 2 =? 0) then Err unbalanced
  else
    let half := Z.to_nat (remaining / 2) in
    let? keys := strings (take half rest) in
    let? ids := collect_results id_arg (drop half rest) in
    Ok (keys, ids).

Definition unbalanced_xread : RustyAntError :=
  Parse "Unbalanced XREAD list of streams: for each stream key an ID or '$' must be specified.".

Definition handle_xread (args : list (list byte)) : partial_handler :=
  if len args <? 3 then total (wrong_arity "XREAD")
  else
    match parse_xread_opts args None with
    | None => Ret None
    | Some opts =>
        total (let# (count, rest) := opts in
               let# (keys, after_ids) := split_streams xread_id_arg unbalanced_xread rest in
               answer (xread keys after_ids count) per_stream_reply)
    end.

(** ** XINFO *)

Definition opt_entry_reply (e : option StreamEntry) : RespReply :=
  match e with Some e => entry_to_reply e | None => RNil end.

Definition xinfo_stream_reply (s : StreamValue) : RespReply :=
  RArray
    [bulk (bs "length"); count_reply (len (entries s));
     bulk (bs "last-generated-id"); stream_id_bulk (last_generated_id s);
     bulk (bs "max-deleted-entry-id"); stream_id_bulk (max_deleted_entry_id s);
     bulk (bs "entries-added"); count_reply (entries_added s);
     bulk (bs "groups"); count_reply (len (groups s));
     bulk (bs "first-entry"); opt_entry_reply (head (entries s));
     bulk (bs "last-entry"); opt_entry_reply (last (entries s))].

Definition xinfo_group_reply (g : XInfoGroup) : RespReply :=
  RArray
    [bulk (bs "name"); bulk (xg_name g);
     bulk (bs "consumers"); count_reply (xg_consumers g);
     bulk (bs "pending"); count_reply (xg_pending g);
     bulk (bs "last-delivered-id"); stream_id_bulk (xg_last_delivered_id g)].

Definition xinfo_consumer_reply (c : XInfoConsumer) : RespReply :=
  RArray
    [bulk (bs "name"); bulk (xi_name c);
     bulk (bs "pending"); count_reply (xi_pending c);
     bulk (bs "idle"); RInteger (xi_idle_ms c)].

(** The [FULL [COUNT n]] tail of XINFO STREAM, validated and ignored. *)
Definition check_full_tail (tail : list (list byte)) : Result unit :=
  match tail with
  | [] => Ok tt
  | f :: rest =>
      let? full := is_word f (bs "FULL") in
      if negb full then Err syntax_err
      else
        match rest with
        | [] => Ok tt
        | [c; n] =>
            let? count := is_word c (bs "COUNT") in
            if negb count then Err syntax_err else let? _ := parse_i64 n (bs "COUNT") in Ok tt
        | _ => Err syntax_err
        end
  end.

Definition handle_xinfo (args : list (list byte)) : handler :=
  match args with
  | [] => wrong_arity "XINFO"
  | s :: rest =>
      let# sub := upper s in
      if str_eqb sub (bs "STREAM") then
        match rest with
        | [] => wrong_arity "XINFO STREAM"
        | k :: tail =>
            let# key := arg_as_str k in
            let# _ := check_full_tail tail in
            let!? stream := xinfo_stream key in
            Ret (match stream with Some s => Ok (xinfo_stream_reply s) | None => Err no_such_key end)
        end
      else if str_eqb sub (bs "GROUPS") then
        match rest with
        | [k] =>
            let# key := arg_as_str k in
            answer (xinfo_groups key) (fun gs => RArray (map xinfo_group_reply gs))
        | _ => wrong_arity "XINFO GROUPS"
        end
      else if str_eqb sub (bs "CONSUMERS") then
        match rest with
        | [k; g] =>
            let# key := arg_as_str k in
            let# group := arg_as_str g in
            answer (xinfo_consumers key group) (fun cs => RArray (map xinfo_consumer_reply cs))
        | _ => wrong_arity "XINFO CONSUMERS"
        end
      else if str_eqb sub (bs "HELP") then
        Ret (Ok (RArray
          [bulk (bs "XINFO STREAM <key> [FULL [COUNT n]] -- summary for the stream at <key>.");
           bulk (bs "XINFO GROUPS <key> -- groups defined on <key>.");
           bulk (bs "XINFO CONSUMERS <key> <group> -- consumers in <group> on <key>.")]))
      else Ret (Err (parse_fmt (bs "unsupported XINFO subcommand: " ++ sub)))
  end.

(** ** XGROUP *)

Definition start_id_arg (a : list byte) : Result GroupStartId := let? s := arg_as_str a in GroupStartId_parse s.

Fixpoint parse_create_opts (opts : list (list byte)) (mkstream : bool) : Result bool :=
  match opts with
  | [] => Ok mkstream
  | a :: rest =>
      let? tok := upper a in
      if str_eqb tok (bs "MKSTREAM") then parse_create_opts rest true
      else if str_eqb tok (bs "ENTRIESREAD") then
        match rest with
        | [] => Err syntax_err
        | v :: rest => let? _ := parse_i64 v (bs "ENTRIESREAD") in parse_create_opts rest mkstream
        end
      else Err syntax_err
  end.

(** The subcommand, upper-cased, and what follows the key. *)
Definition parse_xgroup_op (sub : Str) (rest : list (list byte)) : Result XGroupOp :=
  if str_eqb sub (bs "CREATE") then
    match rest with
    | g :: i :: opts =>
        let? group := arg_as_string g in
        let? start_id := start_id_arg i in
        let? mkstream := parse_create_opts opts false in
        Ok (XG_Create group start_id mkstream)
    | _ => Err (WrongArity "XGROUP CREATE")
    end
  else if str_eqb sub (bs "SETID") then
    match rest with
    | g :: i :: _ =>
        let? group := arg_as_string g in
        let? start_id := start_id_arg i in
        Ok (XG_SetId group start_id)
    | _ => Err (WrongArity "XGROUP SETID")
    end
  else if str_eqb sub (bs "DESTROY") then
    match rest with
    | [g] => let? group := arg_as_string g in Ok (XG_Destroy group)
    | _ => Err (WrongArity "XGROUP DESTROY")
    end
  else if str_eqb sub (bs "CREATECONSUMER") then
    match rest with
    | [g; c] =>
        let? group := arg_as_string g in
        let? consumer := arg_as_string c in
        Ok (XG_CreateConsumer group consumer)
    | _ => Err (WrongArity "XGROUP CREATECONSUMER")
    end
  else if str_eqb sub (bs "DELCONSUMER") then
    match rest with
    | [g; c] =>
        let? group := arg_as_string g in
        let? consumer := arg_as_string c in
        Ok (XG_DelConsumer group consumer)
    | _ => Err (WrongArity "XGROUP DELCONSUMER")
    end
  else Err (parse_fmt (bs "unsupported XGROUP subcommand: " ++ sub)).

Definition handle_xgroup (args : list (list byte)) : handler :=
  match args with
  | s :: k :: rest =>
      let# sub := upper s in
      let# key := arg_as_str k in
      if str_eqb sub (bs "HELP") then
        Ret (Ok (RArray [bulk (bs "XGROUP CREATE | SETID | DESTROY | CREATECONSUMER | DELCONSUMER")]))
      else
        let# op := parse_xgroup_op sub rest in
        answer (xgroup key op) (fun n =>
          if str_eqb sub (bs "CREATE") || str_eqb sub (bs "SETID") then reply_ok else RInteger n)
  | _ => wrong_arity "XGROUP"
  end.

(** ** XREADGROUP, XACK *)

Fixpoint parse_xreadgroup_opts (args : list (list byte)) (count : option Z) (noack : bool)
    : option (Result (option Z * bool * list (list byte))) :=
  match args with
  | [] => None
  | a :: rest =>
      match upper a with
      | Err e => Some (Err e)
      | Ok tok =>
          if str_eqb tok (bs "COUNT") then
            match rest with
            | [] => Some (Err syntax_err)
            | v :: rest =>
                match stream_count v with
                | Ok n => parse_xreadgroup_opts rest (Some n) noack
                | Err e => Some (Err e)
                end
            end
          else if str_eqb tok (bs "BLOCK") then
            match rest with
            | [] => Some (Err syntax_err)
            | v :: rest =>
                match parse_i64 v (bs "BLOCK") with
                | Ok _ => parse_xreadgroup_opts rest count noack
                | Err e => Some (Err e)
                end
            end
          else if str_eqb tok (bs "NOACK") then parse_xreadgroup_opts rest count true
          else if str_eqb tok (bs "STREAMS") then Some (Ok (count, noack, rest))
          else Some (Err syntax_err)
      end
  end.

Definition xreadgroup_id_arg (a : list byte) : Result XReadGroupId := let? s := arg_as_str a in XReadGroupId_parse s.

Definition unbalanced_xreadgroup : RustyAntError :=
  Parse "Unbalanced XREADGROUP list of streams: for each stream key an ID or '>' must be specified.".

Definition handle_xreadgroup (args : list (list byte)) : partial_handler :=
  match args with
  | g0 :: g :: c :: opts =>
      if len args <? 6 then total (wrong_arity "XREADGROUP")
      else
        let head :=
          (let? is_group := is_word g0 (bs "GROUP") in
           if negb is_group then Err syntax_err
           else
             let? group := arg_as_string g in
             let? consumer := arg_as_string c in
             Ok (group, consumer)) in
        match head with
        | Err e => Ret (Some (Err e))
        | Ok (group, consumer) =>
            match parse_xreadgroup_opts opts None false with
            | None => Ret None
            | Some o =>
                total (let# (count, noack, rest) := o in
                       let# (keys, ids) := split_streams xreadgroup_id_arg unbalanced_xreadgroup rest in
                       let! now := now_ms in
                       answer (xreadgroup group consumer keys ids count noack now) per_stream_reply)
            end
        end
  | _ => total (wrong_arity "XREADGROUP")
  end.

Definition handle_xack (args : list (list byte)) : handler :=
  match args with
  | k :: g :: ((_ :: _) as is_) =>
      let# key := arg_as_str k in
      let# group := arg_as_str g in
      let# ids := collect_results stream_id_arg is_ in
      answer (xack key group ids) RInteger
  | _ => wrong_arity "XACK"
  end.

(** ** XCLAIM *)

Definition is_claim_keyword (u : Str) : bool :=
  str_eqb u (bs "IDLE") || str_eqb u (bs "TIME") || str_eqb u (bs "RETRYCOUNT")
    || str_eqb u (bs "FORCE") || str_eqb u (bs "JUSTID").

(** The ids up to the first keyword, and the arguments from it on. *)
Fixpoint parse_claim_ids (args : list (list byte)) : Result (list StreamId * list (list byte)) :=
  match args with
  | [] => Ok ([], [])
  | a :: rest =>
      let? tok := arg_as_str a in
      if is_claim_keyword (to_ascii_uppercase tok) then Ok ([], args)
      else
        let? id := StreamId_parse tok in
        let? (ids, rest) := parse_claim_ids rest in
        Ok (id :: ids, rest)
  end.

Fixpoint parse_claim_opts (args : list (list byte)) (o : XClaimOpts) : Result XClaimOpts :=
  match args with
  | [] => Ok o
  | a :: rest =>
      let? tok := upper a in
      if str_eqb tok (bs "IDLE") then
        match rest with
        | [] => Err syntax_err
        | v :: rest =>
            let? n := parse_i64 v (bs "IDLE") in
            parse_claim_opts rest
              {| idle_ms := Some n; time_ms := time_ms o; retry_count := retry_count o;
                 force := force o; just_id := just_id o; xc_now_ms := xc_now_ms o |}
        end
      else if str_eqb tok (bs "TIME") then
        match rest with
        | [] => Err syntax_err
        | v :: rest =>
            let? n := parse_i64 v (bs "TIME") in
            parse_claim_opts rest
              {| idle_ms := idle_ms o; time_ms := Some n; retry_count := retry_count o;
                 force := force o; just_id := just_id o; xc_now_ms := xc_now_ms o |}
        end
      else if str_eqb tok (bs "RETRYCOUNT") then
        match rest with
        | [] => Err syntax_err
        | v :: rest =>
            let? n := parse_i64 v (bs "RETRYCOUNT") in
            if n <? 0 then Err (Parse "RETRYCOUNT must be non-negative")
            else
              parse_claim_opts rest
                {| idle_ms := idle_ms o; time_ms := time_ms o; retry_count := Some n;
                   force := force o; just_id := just_id o; xc_now_ms := xc_now_ms o |}
        end
      else if str_eqb tok (bs "FORCE") then
        parse_claim_opts rest
          {| idle_ms := idle_ms o; time_ms := time_ms o; retry_count := retry_count o;
             force := true; just_id := just_id o; xc_now_ms := xc_now_ms o |}
      else if str_eqb tok (bs "JUSTID") then
        parse_claim_opts rest
          {| idle_ms := idle_ms o; time_ms := time_ms o; retry_count := retry_count o;
             force := force o; just_id := true; xc_now_ms := xc_now_ms o |}
      else Err syntax_err
  end.

Definition XClaimOpts_default (now : Z) : XClaimOpts :=
  {| idle_ms := None; time_ms := None; retry_count := None; force := false; just_id := false; xc_now_ms := now |}.

Definition handle_xclaim (args : list (list byte)) : handler :=
  match args with
  | k :: g :: c :: m :: rest =>
      if len args <? 5 then wrong_arity "XCLAIM"
      else
        let# key := arg_as_str k in
        let# group := arg_as_str g in
        let# consumer := arg_as_str c in
        let# min_idle := parse_i64 m (bs "min-idle-time") in
        let# (ids, rest) := parse_claim_ids rest in
        let! now := now_ms in
        let# opts := parse_claim_opts rest (XClaimOpts_default now) in
        answer (xclaim key group consumer min_idle ids opts) (fun claimed =>
          RArray (map claim_result_to_reply claimed))
  | _ => wrong_arity "XCLAIM"
  end.

(** ** XPENDING, XAUTOCLAIM *)

Definition pending_summary_reply (s : option XPendingSummary) : RespReply :=
  match s with
  | None => RArray [RInteger 0; RNil; RNil; RNil]
  | Some s =>
      RArray [count_reply (xp_count s); stream_id_bulk (xp_min s); stream_id_bulk (xp_max s);
              RArray (map (fun '(c, n) => RArray [bulk c; bulk (print_Z n)]) (xp_per_consumer s))]
  end.

Definition pending_row_reply (r : XPendingDetailRow) : RespReply :=
  RArray [stream_id_bulk (xd_id r); bulk (xd_consumer r); RInteger (xd_idle_ms r); count_reply (xd_delivery_count r)].

Record XPendingArgs := {
  xpa_idle : option Z;
  xpa_start : RangeId;
  xpa_end : RangeId;
  xpa_count : Z;
  xpa_consumer : option Str;
}.

(** [[IDLE ms] start end count [consumer]]; further arguments are ignored. *)
Definition parse_xpending (rest : list (list byte)) : Result XPendingArgs :=
  match rest with
  | [] => Err syntax_err
  | w :: after =>
      let? idle := is_word w (bs "IDLE") in
      let? (idle_ms, rest) :=
        (if idle : bool then
           match after with
           | [] => Err syntax_err
           | v :: after => let? n := parse_i64 v (bs "IDLE") in Ok (Some n, after)
           end
         else Ok (None, rest)) in
      match rest with
      | a :: b :: n :: more =>
          let? start := range_id_arg a in
          let? end_ := range_id_arg b in
          let? count := parse_i64 n (bs "count") in
          if count <? 0 then Err (Parse "count must be non-negative")
          else
            let? consumer :=
              (match more with c :: _ => let? c := arg_as_str c in Ok (Some c) | [] => Ok None end) in
            Ok {| xpa_idle := idle_ms; xpa_start := start; xpa_end := end_; xpa_count := count;
                  xpa_consumer := consumer |}
      | _ => Err syntax_err
      end
  end.

Definition handle_xpending (args : list (list byte)) : handler :=
  match args with
  | k :: g :: rest =>
      let# key := arg_as_str k in
      let# group := arg_as_str g in
      match rest with
      | [] => answer (xpending_summary key group) pending_summary_reply
      | _ =>
          let# a := parse_xpending rest in
          let! now := now_ms in
          answer (xpending_detail key group (xpa_start a) (xpa_end a) (xpa_count a) (xpa_consumer a) (xpa_idle a) now)
            (fun rows => RArray (map pending_row_reply rows))
      end
  | _ => wrong_arity "XPENDING"
  end.

Fixpoint parse_autoclaim_opts (opts : list (list byte)) (count : Z) (just_id : bool) : Result (Z * bool) :=
  match opts with
  | [] => Ok (count, just_id)
  | a :: rest =>
      let? tok := upper a in
      if str_eqb tok (bs "COUNT") then
        match rest with
        | [] => Err syntax_err
        | v :: rest => let? n := stream_count v in parse_autoclaim_opts rest n just_id
        end
      else if str_eqb tok (bs "JUSTID") then parse_autoclaim_opts rest count true
      else Err syntax_err
  end.

Definition handle_xautoclaim (args : list (list byte)) : handler :=
  match args with
  | k :: g :: c :: m :: s :: opts =>
      let# key := arg_as_str k in
      let# group := arg_as_str g in
      let# consumer := arg_as_str c in
      let# min_idle := parse_i64 m (bs "min-idle-time") in
      let# start := stream_id_arg s in
      let# (count, just_id) := parse_autoclaim_opts opts 100 false in
      let! now := now_ms in
      answer (xautoclaim key group consumer min_idle start count just_id now) (fun result =>
        RArray [stream_id_bulk (next_cursor result);
                RArray (map claim_result_to_reply (claimed result));
                RArray (map stream_id_bulk (deleted_ids result))])
  | _ => wrong_arity "XAUTOCLAIM"
  end.
