(* ===== verification/CmdServer.v ===== *)
(** * CmdServer

    The handlers of src/commands.rs that do not touch a key, except to count:
    the connection handshake, introspection, and the stubs of commands the
    transport cannot serve. *)

From S2P Require Import Prelude.
From S2P Require Import Text.
From S2P Require Import BTree.
From S2P Require Import F64.
From S2P Require Import Stream.
From S2P Require Import Value.
From S2P Require Import Backend.
From S2P Require Import Strings.
From S2P Require Import Keyspace.
From S2P Require Import Resp.
From S2P Require Import Commands.

(** [env!("CARGO_PKG_VERSION")], the version of Cargo.toml. *)
Definition CARGO_PKG_VERSION : Str := bs "0.1.0".
Definition crlf : Str := [x0d; x0a].

(** ** ECHO, TIME *)

Definition handle_echo (args : list (list byte)) : Result RespReply :=
  match args with
  | [a] => Ok (bulk a)
  | _ => Err (WrongArity "ECHO")
  end.

Definition handle_time (args : list (list byte)) : handler :=
  match args with
  | [] =>
      let! nanos := trigger KvNowNanos in
      let secs := nanos / 1000000000 in
      let micros := nanos mod 1000000000 / 1000 in
      Ret (Ok (RArray [bulk (print_Z secs); bulk (print_Z micros)]))
  | _ => wrong_arity "TIME"
  end.

(** ** INFO *)

Definition info_section_included (requested : option Str) (section : Str) : bool :=
  match requested with
  | None => true
  | Some r => str_eqb r section || str_eqb r (bs "everything") || str_eqb r (bs "default") || str_eqb r (bs "all")
  end.

Definition info_lines (ls : list Str) : Str := flat_map (fun l => l ++ crlf) ls.

Section info.
Variable fuel : nat.
(** [std::process::id()] and [State::started_at_ms]. *)
Variable process_id started_at_ms : Z.

Definition info_server : prog kvE Str :=
  let! now := now_ms in
  let since := Z.max i64_min (Z.min i64_max (now - started_at_ms)) in
  let uptime := Z.quot since 1000 in
  Ret (info_lines
    [bs "# Server"; bs "redis_version:7.4.0"; bs "rustyant_version:" ++ CARGO_PKG_VERSION;
     bs "process_id:" ++ print_Z process_id; bs "uptime_in_seconds:" ++ print_Z uptime;
     bs "os:Linux-lambda"; bs "arch_bits:64"; []]).

Definition info_clients : Str := info_lines [bs "# Clients"; bs "connected_clients:1"; []].
Definition info_stats : Str :=
  info_lines [bs "# Stats"; bs "total_connections_received:0"; bs "total_commands_processed:0";
              bs "instantaneous_ops_per_sec:0"; []].
Definition info_keyspace (ks : KeyspaceStats) : Str :=
  info_lines
    (bs "# Keyspace" ::
     (if 0 <? total_keys ks then
        [bs "db0:keys=" ++ print_Z (total_keys ks) ++ bs ",expires=" ++ print_Z (keys_with_expire ks) ++ bs ",avg_ttl=0"]
      else []) ++ [[]]).

Definition handle_info (args : list (list byte)) : partial_handler :=
  let section :=
    match args with
    | [] => Ok None
    | [a] => let? s := arg_as_str a in Ok (Some (to_ascii_lowercase s))
    | _ => Err (WrongArity "INFO")
    end in
  match section with
  | Err e => Ret (Some (Err e))
  | Ok section =>
      let! server := (if info_section_included section (bs "server") then info_server else Ret []) in
      let out := server ++
        (if info_section_included section (bs "clients") then info_clients else []) ++
        (if info_section_included section (bs "stats") then info_stats else []) in
      if info_section_included section (bs "keyspace") then
        answer_partial (keyspace_stats fuel) (fun ks => bulk (out ++ info_keyspace ks))
      else Ret (Some (Ok (bulk out)))
  end.
End info.

(** ** HELLO *)

Fixpoint check_hello_opts (args : list (list byte)) : Result unit :=
  match args with
  | [] => Ok tt
  | a :: rest =>
      let? opt := upper a in
      if str_eqb opt (bs "AUTH") then
        match rest with
        | _ :: _ :: rest => check_hello_opts rest
        | _ => Err (Parse "AUTH requires username and password")
        end
      else if str_eqb opt (bs "SETNAME") then
        match rest with
        | _ :: rest => check_hello_opts rest
        | _ => Err (Parse "SETNAME requires a value")
        end
      else Err (parse_fmt (bs "unsupported HELLO option: " ++ opt))
  end.

Definition hello_info_reply : RespReply :=
  RArray
    [bulk (bs "server"); bulk (bs "rustyant"); bulk (bs "version"); bulk CARGO_PKG_VERSION;
     bulk (bs "proto"); RInteger 2; bulk (bs "id"); RInteger 1; bulk (bs "mode"); bulk (bs "standalone");
     bulk (bs "role"); bulk (bs "master"); bulk (bs "modules"); RArray []].

Definition handle_hello (args : list (list byte)) : Result RespReply :=
  match args with
  | [] => Ok hello_info_reply
  | first :: rest =>
      let? proto_str := arg_as_str first in
      let? proto :=
        ok_or (Text.parse_i64 proto_str)
          (parse_fmt (bs "Protocol version is not an integer or out of range: " ++ proto_str)) in
      if negb (proto =? 2) then Err (Parse "NOPROTO unsupported protocol version — rustyant speaks RESP2 only")
      else
        let? _ := check_hello_opts rest in
        Ok hello_info_reply
  end.

(** ** CONFIG *)

Definition CONFIG_STUB : list (Str * Str) :=
  [(bs "maxmemory", bs "0"); (bs "maxmemory-policy", bs "noeviction"); (bs "save", bs "");
   (bs "appendonly", bs "no"); (bs "timeout", bs "0"); (bs "tcp-keepalive", bs "0"); (bs "databases", bs "1");
   (bs "hash-max-listpack-entries", bs "0"); (bs "list-max-listpack-size", bs "0");
   (bs "zset-max-listpack-entries", bs "0")].

Definition config_matching (matches : Str -> Str -> bool) (pattern : Str) : list RespReply :=
  flat_map (fun '(k, v) => if matches pattern k then [bulk k; bulk v] else []) CONFIG_STUB.

Definition handle_config (matches : Str -> Str -> bool) (args : list (list byte)) : Result RespReply :=
  match args with
  | [] => Err (WrongArity "CONFIG")
  | s :: rest =>
      let? sub := upper s in
      if str_eqb sub (bs "GET") then
        match rest with
        | [] => Err (WrongArity "CONFIG GET")
        | _ => let? patterns := strings rest in Ok (RArray (flat_map (config_matching matches) patterns))
        end
      else if str_eqb sub (bs "SET") || str_eqb sub (bs "RESETSTAT") || str_eqb sub (bs "REWRITE") then Ok reply_ok
      else Err (parse_fmt (bs "unsupported CONFIG subcommand: " ++ sub))
  end.

(** ** CLIENT and other stubs *)

Definition client_quiet (sub : Str) : bool :=
  str_eqb sub (bs "SETINFO") || str_eqb sub (bs "SETNAME") || str_eqb sub (bs "NO-EVICT") ||
  str_eqb sub (bs "NO-TOUCH") || str_eqb sub (bs "REPLY") || str_eqb sub (bs "UNPAUSE") ||
  str_eqb sub (bs "PAUSE") || str_eqb sub (bs "TRACKING") || str_eqb sub (bs "TRACKINGINFO").

Definition handle_client (args : list (list byte)) : Result RespReply :=
  match args with
  | [] => Err (WrongArity "CLIENT")
  | s :: _ =>
      let? sub := upper s in
      if client_quiet sub then Ok reply_ok
      else if str_eqb sub (bs "ID") then Ok (RInteger 1)
      else if str_eqb sub (bs "GETNAME") then Ok (bulk [])
      else if str_eqb sub (bs "INFO") || str_eqb sub (bs "LIST") then
        Ok (bulk (bs "id=1 addr=lambda name= age=0 idle=0 flags=N db=0" ++ crlf))
      else Err (parse_fmt (bs "unsupported CLIENT subcommand: " ++ sub))
  end.

Definition handle_auth (args : list (list byte)) : Result RespReply :=
  match args with [_] | [_; _] => Ok reply_ok | _ => Err (WrongArity "AUTH") end.

Definition handle_select (args : list (list byte)) : Result RespReply :=
  match args with
  | [i] =>
      let? idx := parse_i64 i (bs "DB index") in
      if idx =? 0 then Ok reply_ok else Err (Parse "DB index is out of range")
  | _ => Err (WrongArity "SELECT")
  end.

Definition handle_wait (args : list (list byte)) : Result RespReply :=
  match args with
  | [n; t] =>
      let? _ := parse_i64 n (bs "numreplicas") in
      let? _ := parse_i64 t (bs "timeout") in
      Ok (RInteger 0)
  | _ => Err (WrongArity "WAIT")
  end.

Definition handle_bgsave (args : list (list byte)) : Result RespReply :=
  match args with
  | [] => Ok (RSimpleString (bs "Background saving started"))
  | [o] =>
      let? u := upper o in
      if str_eqb u (bs "SCHEDULE") then Ok (RSimpleString (bs "Background saving started"))
      else Err (parse_fmt (bs "unsupported BGSAVE option: " ++ u))
  | _ => Err (WrongArity "BGSAVE")
  end.

Definition handle_latency (args : list (list byte)) : Result RespReply :=
  match args with
  | [] => Err (WrongArity "LATENCY")
  | s :: rest =>
      let? sub := upper s in
      if str_eqb sub (bs "RESET") then Ok (RInteger 0)
      else if str_eqb sub (bs "HISTORY") || str_eqb sub (bs "GRAPH") then
        match rest with
        | [_] => Ok (if str_eqb sub (bs "GRAPH") then bulk [] else RArray [])
        | _ => Err (WrongArity (String.string_of_list_byte (bs "LATENCY " ++ sub)))
        end
      else if str_eqb sub (bs "LATEST") then Ok (RArray [])
      else if str_eqb sub (bs "DOCTOR") then
        Ok (bulk (bs "Dave, I have observed the system for a while and I have no latency issues to report." ++ [x0a]))
      else Err (parse_fmt (bs "unsupported LATENCY subcommand: " ++ sub))
  end.

(** [secs.min(5.0) * 1000.0], truncated: milliseconds. *)
Definition debug_sleep_ms (secs : f64) : Z :=
  f64_as_uint 64 (f64_mul (if f64_lt secs (f64_lit "5.0") then secs else f64_lit "5.0") (f64_lit "1000.0")).

Definition handle_debug (args : list (list byte)) : handler :=
  match args with
  | [] => wrong_arity "DEBUG"
  | s :: rest =>
      let# sub := upper s in
      if str_eqb sub (bs "SLEEP") then
        match rest with
        | [v] =>
            let# secs := (let? t := arg_as_str v in ok_or (F64.parse_f64 t) (Parse "DEBUG SLEEP takes a number")) in
            if f64_is_nan secs || f64_is_infinite secs || f64_lt secs f64_zero then
              Ret (Err (Parse "DEBUG SLEEP takes a non-negative number"))
            else
              let! _ := trigger (KvSleep (debug_sleep_ms secs)) in
              Ret (Ok reply_ok)
        | _ => wrong_arity "DEBUG SLEEP"
        end
      else Ret (Err (parse_fmt (bs "DEBUG " ++ sub ++
             bs " is not supported on rustyant (S3-backed; no engine-internal state to inspect)")))
  end.

Definition not_supported_on_this_transport (cmd : Str) : RustyAntError :=
  parse_fmt (cmd ++ bs " is not supported on rustyant: requires connection-level state or server-initiated push, which rustyant's one-command-per-request transport does not provide").

Definition handle_multi (args : list (list byte)) : Result RespReply :=
  let? _ := arity "MULTI" (len args =? 0) in Err (not_supported_on_this_transport (bs "MULTI")).
Definition handle_exec (args : list (list byte)) : Result RespReply :=
  let? _ := arity "EXEC" (len args =? 0) in Err (Parse "EXEC without MULTI").
Definition handle_discard (args : list (list byte)) : Result RespReply :=
  let? _ := arity "DISCARD" (len args =? 0) in Err (Parse "DISCARD without MULTI").
Definition handle_watch (args : list (list byte)) : Result RespReply :=
  let? _ := arity "WATCH" (negb (len args =? 0)) in Err (not_supported_on_this_transport (bs "WATCH")).
Definition handle_unwatch (args : list (list byte)) : Result RespReply :=
  let? _ := arity "UNWATCH" (len args =? 0) in Ok reply_ok.
Definition handle_subscribe (args : list (list byte)) : Result RespReply :=
  let? _ := arity "SUBSCRIBE" (negb (len args =? 0)) in Err (not_supported_on_this_transport (bs "SUBSCRIBE")).
Definition handle_psubscribe (args : list (list byte)) : Result RespReply :=
  let? _ := arity "PSUBSCRIBE" (negb (len args =? 0)) in Err (not_supported_on_this_transport (bs "PSUBSCRIBE")).
Definition handle_unsubscribe (args : list (list byte)) : Result RespReply :=
  Err (not_supported_on_this_transport (bs "UNSUBSCRIBE")).
Definition handle_punsubscribe (args : list (list byte)) : Result RespReply :=
  Err (not_supported_on_this_transport (bs "PUNSUBSCRIBE")).
Definition handle_publish (args : list (list byte)) : Result RespReply :=
  let? _ := arity "PUBLISH" (len args =? 2) in Ok (RInteger 0).

Definition handle_pubsub (args : list (list byte)) : Result RespReply :=
  match args with
  | [] => Err (WrongArity "PUBSUB")
  | s :: rest =>
      let? sub := upper s in
      if str_eqb sub (bs "CHANNELS") then
        match rest with _ :: _ :: _ => Err (WrongArity "PUBSUB CHANNELS") | _ => Ok (RArray []) end
      else if str_eqb sub (bs "NUMSUB") then Ok (RArray (flat_map (fun name => [bulk name; RInteger 0]) rest))
      else if str_eqb sub (bs "NUMPAT") then
        match rest with [] => Ok (RInteger 0) | _ => Err (WrongArity "PUBSUB NUMPAT") end
      else Err (parse_fmt (bs "unsupported PUBSUB subcommand: " ++ sub))
  end.

(** ** COMMAND *)

Record CommandMeta := {
  cm_name : Str;
  cm_arity : Z;
  cm_flags : list Str;
  cm_first_key : Z;
  cm_last_key : Z;
  cm_step : Z;
}.
Definition meta (name : string) (arity : Z) (flags : list Str) (first_key last_key step : Z) : CommandMeta :=
  {| cm_name := bs name; cm_arity := arity; cm_flags := flags; cm_first_key := first_key;
     cm_last_key := last_key; cm_step := step |}.
Arguments meta name%_string_scope arity flags first_key last_key step.

Definition COMMAND_META : list CommandMeta := [
  meta "ping" (-1) [bs "fast"] 0 0 0;
  meta "echo" 2 [bs "fast"] 0 0 0;
  meta "time" 1 [bs "fast"; bs "loading"; bs "stale"] 0 0 0;
  meta "info" (-1) [bs "loading"; bs "stale"] 0 0 0;
  meta "command" (-1) [bs "loading"; bs "stale"] 0 0 0;
  meta "hello" (-1) [bs "fast"; bs "loading"; bs "stale"] 0 0 0;
  meta "client" (-2) [bs "admin"; bs "noscript"] 0 0 0;
  meta "reset" 1 [bs "fast"; bs "loading"; bs "stale"] 0 0 0;
  meta "auth" (-2) [bs "fast"; bs "loading"; bs "stale"] 0 0 0;
  meta "wait" 3 [bs "admin"] 0 0 0;
  meta "save" 1 [bs "admin"; bs "noscript"] 0 0 0;
  meta "bgsave" (-1) [bs "admin"] 0 0 0;
  meta "bgrewriteaof" 1 [bs "admin"] 0 0 0;
  meta "lastsave" 1 [bs "readonly"; bs "fast"; bs "admin"] 0 0 0;
  meta "latency" (-2) [bs "admin"; bs "noscript"; bs "loading"; bs "stale"] 0 0 0;
  meta "debug" (-2) [bs "admin"; bs "noscript"] 0 0 0;
  meta "multi" 1 [bs "noscript"; bs "loading"; bs "stale"; bs "fast"] 0 0 0;
  meta "exec" 1 [bs "noscript"; bs "loading"; bs "stale"; bs "skip_monitor"; bs "skip_slowlog"] 0 0 0;
  meta "discard" 1 [bs "noscript"; bs "loading"; bs "stale"; bs "fast"] 0 0 0;
  meta "watch" (-2) [bs "noscript"; bs "loading"; bs "stale"; bs "fast"] 1 (-1) 1;
  meta "unwatch" 1 [bs "noscript"; bs "loading"; bs "stale"; bs "fast"] 0 0 0;
  meta "subscribe" (-2) [bs "pubsub"; bs "loading"; bs "stale"; bs "fast"] 0 0 0;
  meta "psubscribe" (-2) [bs "pubsub"; bs "loading"; bs "stale"; bs "fast"] 0 0 0;
  meta "unsubscribe" (-1) [bs "pubsub"; bs "loading"; bs "stale"; bs "fast"] 0 0 0;
  meta "punsubscribe" (-1) [bs "pubsub"; bs "loading"; bs "stale"; bs "fast"] 0 0 0;
  meta "publish" 3 [bs "pubsub"; bs "loading"; bs "stale"; bs "fast"] 0 0 0;
  meta "pubsub" (-2) [bs "pubsub"; bs "admin"; bs "loading"; bs "stale"] 0 0 0;
  meta "geoadd" (-5) [bs "write"; bs "denyoom"] 1 1 1;
  meta "geopos" (-3) [bs "readonly"] 1 1 1;
  meta "geodist" (-4) [bs "readonly"] 1 1 1;
  meta "geohash" (-3) [bs "readonly"] 1 1 1;
  meta "geosearch" (-7) [bs "readonly"] 1 1 1;
  meta "geosearchstore" (-8) [bs "write"; bs "denyoom"] 1 2 1;
  meta "dbsize" 1 [bs "readonly"; bs "fast"] 0 0 0;
  meta "flushdb" (-1) [bs "write"] 0 0 0;
  meta "flushall" (-1) [bs "write"] 0 0 0;
  meta "randomkey" 1 [bs "readonly"] 0 0 0;
  meta "del" (-2) [bs "write"] 1 (-1) 1;
  meta "unlink" (-2) [bs "write"; bs "fast"] 1 (-1) 1;
  meta "copy" (-3) [bs "write"] 1 2 1;
  meta "exists" (-2) [bs "readonly"; bs "fast"] 1 (-1) 1;
  meta "expire" (-3) [bs "write"; bs "fast"] 1 1 1;
  meta "expireat" (-3) [bs "write"; bs "fast"] 1 1 1;
  meta "pexpire" (-3) [bs "write"; bs "fast"] 1 1 1;
  meta "pexpireat" (-3) [bs "write"; bs "fast"] 1 1 1;
  meta "persist" 2 [bs "write"; bs "fast"] 1 1 1;
  meta "ttl" 2 [bs "readonly"; bs "fast"] 1 1 1;
  meta "pttl" 2 [bs "readonly"; bs "fast"] 1 1 1;
  meta "expiretime" 2 [bs "readonly"; bs "fast"] 1 1 1;
  meta "pexpiretime" 2 [bs "readonly"; bs "fast"] 1 1 1;
  meta "keys" 2 [bs "readonly"] 0 0 0;
  meta "scan" (-2) [bs "readonly"] 0 0 0;
  meta "type" 2 [bs "readonly"; bs "fast"] 1 1 1;
  meta "rename" 3 [bs "write"] 1 2 1;
  meta "renamenx" 3 [bs "write"; bs "fast"] 1 2 1;
  meta "get" 2 [bs "readonly"; bs "fast"] 1 1 1;
  meta "getex" (-2) [bs "write"; bs "fast"] 1 1 1;
  meta "getset" 3 [bs "write"; bs "fast"] 1 1 1;
  meta "getdel" 2 [bs "write"; bs "fast"] 1 1 1;
  meta "getrange" 4 [bs "readonly"] 1 1 1;
  meta "setrange" 4 [bs "write"; bs "denyoom"] 1 1 1;
  meta "strlen" 2 [bs "readonly"; bs "fast"] 1 1 1;
  meta "append" 3 [bs "write"; bs "denyoom"; bs "fast"] 1 1 1;
  meta "set" (-3) [bs "write"; bs "denyoom"] 1 1 1;
  meta "setnx" 3 [bs "write"; bs "denyoom"; bs "fast"] 1 1 1;
  meta "setex" 4 [bs "write"; bs "denyoom"] 1 1 1;
  meta "mget" (-2) [bs "readonly"; bs "fast"] 1 (-1) 1;
  meta "mset" (-3) [bs "write"; bs "denyoom"] 1 (-1) 2;
  meta "msetnx" (-3) [bs "write"; bs "denyoom"] 1 (-1) 2;
  meta "incr" 2 [bs "write"; bs "denyoom"; bs "fast"] 1 1 1;
  meta "incrby" 3 [bs "write"; bs "denyoom"; bs "fast"] 1 1 1;
  meta "incrbyfloat" 3 [bs "write"; bs "denyoom"; bs "fast"] 1 1 1;
  meta "decr" 2 [bs "write"; bs "denyoom"; bs "fast"] 1 1 1;
  meta "decrby" 3 [bs "write"; bs "denyoom"; bs "fast"] 1 1 1;
  meta "getbit" 3 [bs "readonly"; bs "fast"] 1 1 1;
  meta "setbit" 4 [bs "write"; bs "denyoom"] 1 1 1;
  meta "bitcount" (-2) [bs "readonly"] 1 1 1;
  meta "bitpos" (-3) [bs "readonly"] 1 1 1;
  meta "bitop" (-4) [bs "write"; bs "denyoom"] 2 (-1) 1;
  meta "hset" (-4) [bs "write"; bs "denyoom"; bs "fast"] 1 1 1;
  meta "hsetnx" 4 [bs "write"; bs "denyoom"; bs "fast"] 1 1 1;
  meta "hget" 3 [bs "readonly"; bs "fast"] 1 1 1;
  meta "hdel" (-3) [bs "write"; bs "fast"] 1 1 1;
  meta "hexists" 3 [bs "readonly"; bs "fast"] 1 1 1;
  meta "hgetall" 2 [bs "readonly"] 1 1 1;
  meta "hincrby" 4 [bs "write"; bs "denyoom"; bs "fast"] 1 1 1;
  meta "hkeys" 2 [bs "readonly"] 1 1 1;
  meta "hlen" 2 [bs "readonly"; bs "fast"] 1 1 1;
  meta "hmget" (-3) [bs "readonly"; bs "fast"] 1 1 1;
  meta "hscan" (-3) [bs "readonly"] 1 1 1;
  meta "hstrlen" 3 [bs "readonly"; bs "fast"] 1 1 1;
  meta "hvals" 2 [bs "readonly"] 1 1 1;
  meta "lpush" (-3) [bs "write"; bs "denyoom"; bs "fast"] 1 1 1;
  meta "lpushx" (-3) [bs "write"; bs "denyoom"; bs "fast"] 1 1 1;
  meta "rpush" (-3) [bs "write"; bs "denyoom"; bs "fast"] 1 1 1;
  meta "rpushx" (-3) [bs "write"; bs "denyoom"; bs "fast"] 1 1 1;
  meta "lpop" (-2) [bs "write"; bs "fast"] 1 1 1;
  meta "rpop" (-2) [bs "write"; bs "fast"] 1 1 1;
  meta "lrange" 4 [bs "readonly"] 1 1 1;
  meta "lindex" 3 [bs "readonly"] 1 1 1;
  meta "llen" 2 [bs "readonly"; bs "fast"] 1 1 1;
  meta "lset" 4 [bs "write"; bs "denyoom"] 1 1 1;
  meta "ltrim" 4 [bs "write"] 1 1 1;
  meta "linsert" 5 [bs "write"; bs "denyoom"] 1 1 1;
  meta "lrem" 4 [bs "write"] 1 1 1;
  meta "lmove" 5 [bs "write"] 1 2 1;
  meta "rpoplpush" 3 [bs "write"; bs "denyoom"] 1 2 1;
  meta "lpos" (-3) [bs "readonly"] 1 1 1;
  meta "sadd" (-3) [bs "write"; bs "denyoom"; bs "fast"] 1 1 1;
  meta "srem" (-3) [bs "write"; bs "fast"] 1 1 1;
  meta "scard" 2 [bs "readonly"; bs "fast"] 1 1 1;
  meta "sismember" 3 [bs "readonly"; bs "fast"] 1 1 1;
  meta "smismember" (-3) [bs "readonly"; bs "fast"] 1 1 1;
  meta "smembers" 2 [bs "readonly"] 1 1 1;
  meta "srandmember" (-2) [bs "readonly"] 1 1 1;
  meta "spop" (-2) [bs "write"; bs "fast"] 1 1 1;
  meta "sinter" (-2) [bs "readonly"] 1 (-1) 1;
  meta "sunion" (-2) [bs "readonly"] 1 (-1) 1;
  meta "sdiff" (-2) [bs "readonly"] 1 (-1) 1;
  meta "sinterstore" (-3) [bs "write"; bs "denyoom"] 1 (-1) 1;
  meta "sunionstore" (-3) [bs "write"; bs "denyoom"] 1 (-1) 1;
  meta "sdiffstore" (-3) [bs "write"; bs "denyoom"] 1 (-1) 1;
  meta "sscan" (-3) [bs "readonly"] 1 1 1;
  meta "zadd" (-4) [bs "write"; bs "denyoom"; bs "fast"] 1 1 1;
  meta "zrem" (-3) [bs "write"; bs "fast"] 1 1 1;
  meta "zcard" 2 [bs "readonly"; bs "fast"] 1 1 1;
  meta "zcount" 4 [bs "readonly"; bs "fast"] 1 1 1;
  meta "zrange" (-4) [bs "readonly"] 1 1 1;
  meta "zrevrange" (-4) [bs "readonly"] 1 1 1;
  meta "zrangebyscore" (-4) [bs "readonly"] 1 1 1;
  meta "zrevrangebyscore" (-4) [bs "readonly"] 1 1 1;
  meta "zscore" 3 [bs "readonly"; bs "fast"] 1 1 1;
  meta "zmscore" (-3) [bs "readonly"; bs "fast"] 1 1 1;
  meta "zrank" (-3) [bs "readonly"; bs "fast"] 1 1 1;
  meta "zrevrank" (-3) [bs "readonly"; bs "fast"] 1 1 1;
  meta "zincrby" 4 [bs "write"; bs "denyoom"; bs "fast"] 1 1 1;
  meta "zpopmin" (-2) [bs "write"; bs "fast"] 1 1 1;
  meta "zpopmax" (-2) [bs "write"; bs "fast"] 1 1 1;
  meta "zremrangebyrank" 4 [bs "write"] 1 1 1;
  meta "zremrangebyscore" 4 [bs "write"] 1 1 1;
  meta "zinterstore" (-4) [bs "write"; bs "denyoom"] 1 1 1;
  meta "zunionstore" (-4) [bs "write"; bs "denyoom"] 1 1 1;
  meta "zdiffstore" (-4) [bs "write"; bs "denyoom"] 1 1 1;
  meta "zscan" (-3) [bs "readonly"] 1 1 1].

Definition command_meta_reply (m : CommandMeta) : RespReply :=
  RArray [bulk (cm_name m); RInteger (cm_arity m); bulk_array (cm_flags m);
          RInteger (cm_first_key m); RInteger (cm_last_key m); RInteger (cm_step m)].

Definition find_meta (want : Str) : option CommandMeta :=
  List.find (fun m => str_eqb (cm_name m) want) COMMAND_META.

Definition handle_command (args : list (list byte)) : Result RespReply :=
  match args with
  | [] => Ok (RArray (map command_meta_reply COMMAND_META))
  | s :: rest =>
      let? sub := upper s in
      if str_eqb sub (bs "COUNT") then
        match rest with
        | [] => Ok (RInteger (len_i64 COMMAND_META))
        | _ => Err (WrongArity "COMMAND COUNT")
        end
      else if str_eqb sub (bs "LIST") then
        match rest with
        | [] => Ok (bulk_array (map cm_name COMMAND_META))
        | _ => Err (WrongArity "COMMAND LIST")
        end
      else if str_eqb sub (bs "INFO") then
        match rest with
        | [] => Ok (RArray (map command_meta_reply COMMAND_META))
        | _ =>
            let? wants := strings rest in
            Ok (RArray (map (fun want => match find_meta (to_ascii_lowercase want) with
                                         | Some m => command_meta_reply m
                                         | None => RNil
                                         end) wants))
        end
      else Err (parse_fmt (bs "unsupported COMMAND subcommand: " ++ sub))
  end.
