(* ===== verification/CmdGeo.v ===== *)
(** * CmdGeo

    The handlers of src/commands.rs for geo members: GEOADD, GEOPOS, GEODIST,
    GEOHASH, and the linear scan of GEOSEARCH and GEOSEARCHSTORE. *)

From S2P Require Import Prelude.
From S2P Require Import Text.
From S2P Require Import BTree.
From S2P Require Import F64.
From S2P Require Import Stream.
From S2P Require Import Value.
From S2P Require Import Backend.
From S2P Require Import Collections.
From S2P Require Import Strings.
From S2P Require Import ZSets.
From S2P Require Import Keyspace.
From S2P Require Import Geo.
From S2P Require Import Resp.
From S2P Require Import Commands.
From S2P Require Import CmdZSets.

(** ** GEOADD *)

Fixpoint parse_geoadd_flags (args : list (list byte)) (f : ZAddFlags) : Result (ZAddFlags * list (list byte)) :=
  match args with
  | [] => Ok (f, [])
  | a :: rest =>
      let? u := upper a in
      if str_eqb u (bs "NX") then
        parse_geoadd_flags rest {| nx := true; xx := xx f; gt := gt f; lt := lt f; ch := ch f |}
      else if str_eqb u (bs "XX") then
        parse_geoadd_flags rest {| nx := nx f; xx := true; gt := gt f; lt := lt f; ch := ch f |}
      else if str_eqb u (bs "CH") then
        parse_geoadd_flags rest {| nx := nx f; xx := xx f; gt := gt f; lt := lt f; ch := true |}
      else Ok (f, args)
  end.

(** [lon lat member] triples as scored members. *)
Fixpoint geo_triples (args : list (list byte)) : Result (list (f64 * Str)) :=
  match args with
  | a :: b :: m :: rest =>
      let? lon := parse_f64 a (bs "longitude") in
      let? lat := parse_f64 b (bs "latitude") in
      let? _ := validate_lon_lat lon lat in
      let? member := arg_as_string m in
      let score := f64_of_uint (encode_score lon lat) in
      let? pairs := geo_triples rest in
      Ok ((score, member) :: pairs)
  | _ => Ok []
  end.

Definition handle_geoadd (args : list (list byte)) : handler :=
  match args with
  | k :: rest =>
      if len args <? 4 then wrong_arity "GEOADD"
      else
        let# key := arg_as_string k in
        let# (flags, remaining) := parse_geoadd_flags rest ZAddFlags_default in
        if nx flags && xx flags then
          Ret (Err (Parse "XX and NX options at the same time are not compatible"))
        else if (len remaining <? 3) || negb (len remaining mod 3 =? 0) then wrong_arity "GEOADD"
        else
          let# pairs := geo_triples remaining in
          answer (zadd_ext key pairs flags) RInteger
  | [] => wrong_arity "GEOADD"
  end.

(** ** Positions *)

(** [{v:.17}] *)
Definition format_lon_lat : f64 -> Str := display_fixed 17.
(** [{v:.4}] *)
Definition format_distance : f64 -> Str := display_fixed 4.

Definition coord_reply (lon lat : f64) : RespReply :=
  RArray [bulk (format_lon_lat lon); bulk (format_lon_lat lat)].

Definition handle_geopos (args : list (list byte)) : handler :=
  match args with
  | k :: ((_ :: _) as ms) =>
      let# key := arg_as_str k in
      let# members := strings ms in
      answer (zmscore key members) (fun scores =>
        RArray (map (fun s => match s with
                              | Some score => let '(lon, lat) := decode_score (score_to_u64 score) in coord_reply lon lat
                              | None => RNil
                              end) scores))
  | _ => wrong_arity "GEOPOS"
  end.

Definition handle_geohash (args : list (list byte)) : handler :=
  match args with
  | k :: ((_ :: _) as ms) =>
      let# key := arg_as_str k in
      let# members := strings ms in
      answer (zmscore key members) (fun scores =>
        RArray (map (fun s => nil_or_bulk (option_map geohash_string s)) scores))
  | _ => wrong_arity "GEOHASH"
  end.

(** ** GEOSEARCH options *)

Inductive GeoSort := GeoAsc | GeoDesc.
Inductive GeoCentre := FromMember (m : Str) | FromLonLat (lon lat : f64).
(** In metres. *)
Inductive GeoShape := Radius (r : f64) | Box (w h : f64).

Record GeoSearchOpts := {
  gs_centre : option GeoCentre;
  gs_shape : option (GeoShape * GeoUnit);
  gs_sort : option GeoSort;
  gs_count : option (Z * bool);
  gs_with_coord : bool;
  gs_with_dist : bool;
  gs_with_hash : bool;
  gs_store_dist : bool;
}.

Definition set_centre (o : GeoSearchOpts) (c : GeoCentre) : GeoSearchOpts :=
  {| gs_centre := Some c; gs_shape := gs_shape o; gs_sort := gs_sort o; gs_count := gs_count o;
     gs_with_coord := gs_with_coord o; gs_with_dist := gs_with_dist o; gs_with_hash := gs_with_hash o;
     gs_store_dist := gs_store_dist o |}.
Definition set_shape (o : GeoSearchOpts) (s : GeoShape * GeoUnit) : GeoSearchOpts :=
  {| gs_centre := gs_centre o; gs_shape := Some s; gs_sort := gs_sort o; gs_count := gs_count o;
     gs_with_coord := gs_with_coord o; gs_with_dist := gs_with_dist o; gs_with_hash := gs_with_hash o;
     gs_store_dist := gs_store_dist o |}.
Definition set_sort (o : GeoSearchOpts) (s : GeoSort) : GeoSearchOpts :=
  {| gs_centre := gs_centre o; gs_shape := gs_shape o; gs_sort := Some s; gs_count := gs_count o;
     gs_with_coord := gs_with_coord o; gs_with_dist := gs_with_dist o; gs_with_hash := gs_with_hash o;
     gs_store_dist := gs_store_dist o |}.
Definition set_count (o : GeoSearchOpts) (c : Z * bool) : GeoSearchOpts :=
  {| gs_centre := gs_centre o; gs_shape := gs_shape o; gs_sort := gs_sort o; gs_count := Some c;
     gs_with_coord := gs_with_coord o; gs_with_dist := gs_with_dist o; gs_with_hash := gs_with_hash o;
     gs_store_dist := gs_store_dist o |}.
Definition set_geo_flags (o : GeoSearchOpts) (coord dist hash store : bool) : GeoSearchOpts :=
  {| gs_centre := gs_centre o; gs_shape := gs_shape o; gs_sort := gs_sort o; gs_count := gs_count o;
     gs_with_coord := coord; gs_with_dist := dist; gs_with_hash := hash; gs_store_dist := store |}.

Definition geo_opts_default : GeoSearchOpts :=
  {| gs_centre := None; gs_shape := None; gs_sort := None; gs_count := None; gs_with_coord := false;
     gs_with_dist := false; gs_with_hash := false; gs_store_dist := false |}.

(** [!v.is_finite() || v < 0.0] *)
Definition not_a_size (v : f64) : bool := f64_is_nan v || f64_is_infinite v || f64_lt v f64_zero.

Definition geo_unit_arg (a : list byte) : Result GeoUnit := let? s := arg_as_str a in GeoUnit_parse s.

(** A trailing [ANY]: text that is not UTF-8 is not the word. *)
Definition is_any (rest : list (list byte)) : bool :=
  match rest with
  | a :: _ => match arg_as_str a with Ok s => eq_ignore_ascii_case s (bs "ANY") | Err _ => false end
  | [] => false
  end.

Fixpoint parse_geosearch_loop (args : list (list byte)) (is_store : bool) (o : GeoSearchOpts) : Result GeoSearchOpts :=
  match args with
  | [] => Ok o
  | a :: rest =>
      let? token := upper a in
      if str_eqb token (bs "FROMMEMBER") then
        match rest with
        | m :: rest =>
            let? member := arg_as_string m in
            parse_geosearch_loop rest is_store (set_centre o (FromMember member))
        | _ => Err (Parse "FROMMEMBER requires a member")
        end
      else if str_eqb token (bs "FROMLONLAT") then
        match rest with
        | x :: y :: rest =>
            let? lon := parse_f64 x (bs "longitude") in
            let? lat := parse_f64 y (bs "latitude") in
            let? _ := validate_lon_lat lon lat in
            parse_geosearch_loop rest is_store (set_centre o (FromLonLat lon lat))
        | _ => Err (Parse "FROMLONLAT requires lon and lat")
        end
      else if str_eqb token (bs "BYRADIUS") then
        match rest with
        | r :: u :: rest =>
            let? radius := parse_f64 r (bs "radius") in
            if not_a_size radius then Err (Parse "radius must be a non-negative number")
            else
              let? unit := geo_unit_arg u in
              parse_geosearch_loop rest is_store (set_shape o (Radius (f64_mul radius (GeoUnit_to_meters unit)), unit))
        | _ => Err (Parse "BYRADIUS requires radius and unit")
        end
      else if str_eqb token (bs "BYBOX") then
        match rest with
        | x :: y :: u :: rest =>
            let? w := parse_f64 x (bs "width") in
            let? h := parse_f64 y (bs "height") in
            if not_a_size w || not_a_size h then Err (Parse "BYBOX width and height must be non-negative")
            else
              let? unit := geo_unit_arg u in
              let m := GeoUnit_to_meters unit in
              parse_geosearch_loop rest is_store (set_shape o (Box (f64_mul w m) (f64_mul h m), unit))
        | _ => Err (Parse "BYBOX requires width, height and unit")
        end
      else if str_eqb token (bs "ASC") then parse_geosearch_loop rest is_store (set_sort o GeoAsc)
      else if str_eqb token (bs "DESC") then parse_geosearch_loop rest is_store (set_sort o GeoDesc)
      else if str_eqb token (bs "COUNT") then
        match rest with
        | v :: rest =>
            let? n := parse_i64 v (bs "COUNT") in
            if n <=? 0 then Err (Parse "COUNT must be positive")
            else if is_any rest then
              match rest with
              | _ :: rest => parse_geosearch_loop rest is_store (set_count o (n, true))
              | [] => Ok o
              end
            else parse_geosearch_loop rest is_store (set_count o (n, false))
        | _ => Err (Parse "COUNT requires a value")
        end
      else if str_eqb token (bs "WITHCOORD") && negb is_store then
        parse_geosearch_loop rest is_store
          (set_geo_flags o true (gs_with_dist o) (gs_with_hash o) (gs_store_dist o))
      else if str_eqb token (bs "WITHDIST") && negb is_store then
        parse_geosearch_loop rest is_store
          (set_geo_flags o (gs_with_coord o) true (gs_with_hash o) (gs_store_dist o))
      else if str_eqb token (bs "WITHHASH") && negb is_store then
        parse_geosearch_loop rest is_store
          (set_geo_flags o (gs_with_coord o) (gs_with_dist o) true (gs_store_dist o))
      else if str_eqb token (bs "STOREDIST") && is_store then
        parse_geosearch_loop rest is_store
          (set_geo_flags o (gs_with_coord o) (gs_with_dist o) (gs_with_hash o) true)
      else Err (parse_fmt (bs "unsupported GEOSEARCH option: " ++ token))
  end.

(** The options with their centre, shape and unit, which are required. *)
Definition parse_geosearch_opts (args : list (list byte)) (is_store : bool)
    : Result (GeoCentre * GeoShape * GeoUnit * GeoSearchOpts) :=
  let? o := parse_geosearch_loop args is_store geo_opts_default in
  let? centre := ok_or (gs_centre o) (Parse "exactly one of FROMMEMBER | FROMLONLAT is required") in
  let? (shape, unit) := ok_or (gs_shape o) (Parse "exactly one of BYRADIUS | BYBOX is required") in
  Ok (centre, shape, unit, o).

(** ** Searching *)

Record GeoMatch := {
  gm_member : Str;
  gm_score : f64;
  gm_lon : f64;
  gm_lat : f64;
  gm_distance_m : f64;
}.

Section libm.
Variables sin cos : f64 -> f64.
Variable atan2 : f64 -> f64 -> f64.

Definition handle_geodist (args : list (list byte)) : handler :=
  match args with
  | k :: a :: b :: u =>
      if 1 <? len u then wrong_arity "GEODIST"
      else
        let# key := arg_as_str k in
        let# m1 := arg_as_string a in
        let# m2 := arg_as_string b in
        let# unit := (match u with u :: _ => geo_unit_arg u | [] => Ok Meters end) in
        answer (zmscore key [m1; m2]) (fun scores =>
          match scores with
          | [Some s1; Some s2] =>
              let '(lon1, lat1) := decode_score (score_to_u64 s1) in
              let '(lon2, lat2) := decode_score (score_to_u64 s2) in
              let meters := haversine_meters sin cos atan2 lon1 lat1 lon2 lat2 in
              bulk (format_distance (f64_div meters (GeoUnit_to_meters unit)))
          | _ => RNil
          end)
  | _ => wrong_arity "GEODIST"
  end.

(** The distance of a point the shape covers. *)
Definition geo_distance (shape : GeoShape) (centre : f64 * f64) (point : f64 * f64) : option f64 :=
  match shape with
  | Radius r =>
      let d := haversine_meters sin cos atan2 (fst centre) (snd centre) (fst point) (snd point) in
      if f64_gt d r then None else Some d
  | Box w h => point_in_box sin cos atan2 (fst centre) (snd centre) w h (fst point) (snd point)
  end.

Definition geo_match (shape : GeoShape) (centre : f64 * f64) (item : zentry) : list GeoMatch :=
  let '(member, score) := item in
  let point := decode_score (score_to_u64 score) in
  match geo_distance shape centre point with
  | Some d => [{| gm_member := member; gm_score := score; gm_lon := fst point; gm_lat := snd point;
                  gm_distance_m := d |}]
  | None => []
  end.

Definition geo_sort (sort : option GeoSort) (matches : list GeoMatch) : list GeoMatch :=
  match sort with
  | Some GeoAsc => sort_by (fun a b => f64_cmp_or_eq (gm_distance_m a) (gm_distance_m b)) matches
  | Some GeoDesc => sort_by (fun a b => f64_cmp_or_eq (gm_distance_m b) (gm_distance_m a)) matches
  | None => matches
  end.

Definition geo_truncate (count : option (Z * bool)) (matches : list GeoMatch) : list GeoMatch :=
  match count with Some (n, _) => take (Z.to_nat n) matches | None => matches end.

Definition resolve_centre (key : Str) (c : GeoCentre) : prog kvE (Result (f64 * f64)) :=
  match c with
  | FromLonLat lon lat => Ret (Ok (lon, lat))
  | FromMember m =>
      let!? score := zscore key m in
      Ret (match score with
           | Some score => Ok (decode_score (score_to_u64 score))
           | None => Err (parse_fmt (bs "could not decode requested zset member '" ++ m ++ bs "'"))
           end)
  end.

Definition run_geo_search (key : Str) (centre : GeoCentre) (shape : GeoShape) (o : GeoSearchOpts)
    : prog kvE (Result (list GeoMatch)) :=
  let!? c := resolve_centre key centre in
  let!? items := zitems key in
  Ret (Ok (geo_truncate (gs_count o) (geo_sort (gs_sort o) (flat_map (geo_match shape c) items)))).

(** [geo::score_to_u64(m.score) as i64] *)
Definition geo_entry_reply (o : GeoSearchOpts) (unit : GeoUnit) (m : GeoMatch) : RespReply :=
  RArray
    (bulk (gm_member m) ::
     (if gs_with_dist o then [bulk (format_distance (f64_div (gm_distance_m m) (GeoUnit_to_meters unit)))] else []) ++
     (if gs_with_hash o then [RInteger (wrap_i64 (score_to_u64 (gm_score m)))] else []) ++
     (if gs_with_coord o then [coord_reply (gm_lon m) (gm_lat m)] else [])).

Definition format_geosearch_reply (matches : list GeoMatch) (o : GeoSearchOpts) (unit : GeoUnit) : RespReply :=
  if negb (gs_with_coord o || gs_with_dist o || gs_with_hash o) then bulk_array (map gm_member matches)
  else RArray (map (geo_entry_reply o unit) matches).

Definition handle_geosearch (args : list (list byte)) : handler :=
  match args with
  | k :: rest =>
      if len args <? 6 then wrong_arity "GEOSEARCH"
      else
        let# key := arg_as_string k in
        let# (centre, shape, unit, o) := parse_geosearch_opts rest false in
        answer (run_geo_search key centre shape o) (fun matches => format_geosearch_reply matches o unit)
  | [] => wrong_arity "GEOSEARCH"
  end.

Definition handle_geosearchstore (args : list (list byte)) : handler :=
  match args with
  | d :: s :: rest =>
      if len args <? 7 then wrong_arity "GEOSEARCHSTORE"
      else
        let# destination := arg_as_string d in
        let# source := arg_as_string s in
        let# (centre, shape, unit, o) := parse_geosearch_opts rest true in
        let!? matches := run_geo_search source centre shape o in
        let!? _ := delete destination in
        match matches with
        | [] => Ret (Ok (RInteger 0))
        | _ =>
            let pairs := map (fun m =>
              (if gs_store_dist o then f64_div (gm_distance_m m) (GeoUnit_to_meters unit) else gm_score m,
               gm_member m)) matches in
            answer (zadd destination pairs) (fun _ => RInteger (len_i64 matches))
        end
  | _ => wrong_arity "GEOSEARCHSTORE"
  end.
End libm.

(** Test vectors. *)
Example format_lon_lat_vector : format_lon_lat (f64_lit "13.361389338970184") = bs "13.36138933897018433".
Proof. by vm_compute. Qed.
Example format_distance_half : format_distance (f64_lit "0.03125") = bs "0.0312".
Proof. by vm_compute. Qed.
