(* ===== verification/Bits.v ===== *)
(** * Bits

    The bit commands of src/commands.rs: GETBIT, SETBIT, BITCOUNT, BITPOS and
    BITOP, with their byte-level algorithms. *)

From S2P Require Import Prelude.
From S2P Require Import Text.
From S2P Require Import BTree.
From S2P Require Import F64.
From S2P Require Import Stream.
From S2P Require Import Value.
From S2P Require Import Hll.
From S2P Require Import Backend.
From S2P Require Import Contracts.
From S2P Require Import Strings.
From S2P Require Import Keyspace.
From S2P Require Import Resp.
From S2P Require Import Commands.

Definition parse_bit_offset (arg : list byte) : Result Z :=
  let? n := parse_i64 arg (bs "offset") in
  if 0 <=? n then Ok n else Err (Parse "offset must be >= 0").

Definition handle_getbit (args : list (list byte)) : handler :=
  match args with
  | [k; o] =>
      let# key := arg_as_str k in
      let# offset := parse_bit_offset o in
      let!? v := getbit key offset in
      Ret (Ok (RInteger v))
  | _ => Ret (Err (WrongArity "GETBIT"))
  end.

Definition handle_setbit (args : list (list byte)) : handler :=
  match args with
  | [k; o; v] =>
      let# key := arg_as_str k in
      let# offset := parse_bit_offset o in
      let# n := parse_i64 v (bs "value") in
      let# bit := (if n =? 0 then Ok false else if n =? 1 then Ok true
                   else Err (Parse "bit value must be 0 or 1")) in
      let!? prev := setbit key offset bit in
      Ret (Ok (RInteger prev))
  | _ => Ret (Err (WrongArity "SETBIT"))
  end.

(** ** Ranges *)

Definition resolve_inclusive_range (start end_ len_units : Z) : option (Z * Z) :=
  if len_units =? 0 then None
  else
    let len_i := i64_of_usize len_units in
    let s := if start <? 0 then Z.max (len_i + start) 0 else start in
    let e := if end_ <? 0 then len_i + end_ else Z.min end_ (len_i - 1) in
    if (len_i <=? s) || (e <? 0) || (e <? s) then None
    else Some (usize_of_i64 s 0, usize_of_i64 e 0).

(** [true] for [BIT]. *)
Definition parse_range_unit (arg : option (list byte)) : Result bool :=
  match arg with
  | None => Ok false
  | Some arg =>
      let? u := upper arg in
      if str_eqb u (bs "BYTE") then Ok false
      else if str_eqb u (bs "BIT") then Ok true
      else Err (parse_fmt (bs "range unit must be BYTE or BIT, got " ++ u))
  end.

(** ** BITCOUNT *)

(** [u8::count_ones] *)
Definition count_ones (b : byte) : Z :=
  fold_right (fun i n => (if Z.testbit (b2z b) (Z.of_nat i) then 1 else 0) + n) 0 (List.seq 0 8).

(** [iter().map(|b| b.count_ones()).sum::<u32>()], converted to [i64]. *)
Definition sum_ones (data : list byte) : Z := wrap_u 32 (fold_right (fun b n => count_ones b + n) 0 data).

Definition count_bits_byte_range (data : list byte) (start end_ : Z) : Z := sum_ones (slice data start (end_ + 1)).

(** [for bit in start..=end] *)
Fixpoint count_bits_from (data : list byte) (n : nat) (bit count : Z) : Z :=
  match n with
  | O => count
  | S n => count_bits_from data n (bit + 1) (count + bit_at data bit)
  end.
Definition count_bits_bit_range (data : list byte) (start end_ : Z) : Z :=
  count_bits_from data (Z.to_nat (end_ - start + 1)) start 0.

Definition saturating_mul_u64 (a b : Z) : Z := Z.min u64_max (a * b).

Definition handle_bitcount (args : list (list byte)) : handler :=
  match args with
  | k :: range =>
      if (len args =? 2) || (4 <? len args) then Ret (Err (WrongArity "BITCOUNT"))
      else
        let# key := arg_as_str k in
        let!? data := get_string key in
        match data, range with
        | None, _ => Ret (Ok (RInteger 0))
        | Some data, [] => Ret (Ok (RInteger (sum_ones data)))
        | Some data, start :: rest =>
            let# start := parse_i64 start (bs "start") in
            let# end_ := parse_i64 (nth 0 rest []) (bs "end") in
            let# in_bits := parse_range_unit (nth_error rest 1) in
            let len_units := if in_bits then saturating_mul_u64 (len data) 8 else len data in
            match resolve_inclusive_range start end_ len_units with
            | None => Ret (Ok (RInteger 0))
            | Some (s, e) =>
                Ret (Ok (RInteger (if in_bits then count_bits_bit_range data s e
                                   else count_bits_byte_range data s e)))
            end
        end
  | [] => Ret (Err (WrongArity "BITCOUNT"))
  end.

(** ** BITPOS *)

(** [(start_bit..=end_bit).find(..)] *)
Fixpoint find_bit_from (data : list byte) (target : Z) (n : nat) (bit : Z) : option Z :=
  match n with
  | O => None
  | S n => if bit_at data bit =? target then Some bit else find_bit_from data target n (bit + 1)
  end.
Definition find_first_bit (data : list byte) (target start_bit end_bit : Z) : option Z :=
  find_bit_from data target (Z.to_nat (end_bit - start_bit + 1)) start_bit.

(** The window of BITPOS in bits; [None]: an empty one. *)
Definition bitpos_window (data : list byte) (opts : list (list byte)) (in_bits : bool) : Result (option (Z * Z)) :=
  let total_bits := saturating_mul_u64 (len data) 8 in
  match opts with
  | [] => Ok (Some (0, total_bits - 1))
  | start :: rest =>
      let? start := parse_i64 start (bs "start") in
      let? end_unit := match rest with e :: _ => parse_i64 e (bs "end") | [] => Ok i64_max end in
      let len_units := if in_bits then saturating_mul_u64 (len data) 8 else len data in
      Ok (match resolve_inclusive_range start end_unit len_units with
          | None => None
          | Some (s, e) => Some (if in_bits then (s, e) else (s * 8, (e + 1) * 8 - 1))
          end)
  end.

Definition bitpos_answer (data : list byte) (target : Z) (end_explicit : bool) (window : option (Z * Z)) : Z :=
  match window with
  | None => -1
  | Some (start_bit, end_bit) =>
      match find_first_bit data target start_bit end_bit with
      | Some pos => i64_of_usize pos
      | None =>
          if (target =? 0) && negb end_explicit then i64_of_usize (saturating_mul_u64 (len data) 8) else -1
      end
  end.

Definition handle_bitpos (args : list (list byte)) : handler :=
  match args with
  | k :: bit :: opts =>
      if 5 <? len args then Ret (Err (WrongArity "BITPOS"))
      else
        let# key := arg_as_str k in
        let# n := parse_i64 bit (bs "bit") in
        let# target := (if (n =? 0) || (n =? 1) then Ok n else Err (Parse "bit must be 0 or 1")) in
        let!? d := get_string key in
        let data := match d with Some d => d | None => [] end in
        match data with
        | [] => Ret (Ok (RInteger (if target =? 0 then 0 else -1)))
        | _ =>
            let# in_bits := parse_range_unit (nth_error opts 2) in
            let# window := bitpos_window data opts in_bits in
            Ret (Ok (RInteger (bitpos_answer data target (2 <=? len opts) window)))
        end
  | _ => Ret (Err (WrongArity "BITPOS"))
  end.

(** ** BITOP *)

Inductive BitOp := BitAnd | BitOr | BitXor | BitNot.

#[export] Instance BitOp_eq_dec : EqDecision BitOp.
Proof. solve_decision. Defined.

Definition BitOp_parse (s : Str) : Result BitOp :=
  let u := to_ascii_uppercase s in
  if str_eqb u (bs "AND") then Ok BitAnd
  else if str_eqb u (bs "OR") then Ok BitOr
  else if str_eqb u (bs "XOR") then Ok BitXor
  else if str_eqb u (bs "NOT") then Ok BitNot
  else Err (parse_fmt (bs "BITOP operation must be AND/OR/XOR/NOT, got " ++ u)).

(** [!b] of a byte. *)
Definition not_byte (b : byte) : byte := z2b (255 - b2z b).

Definition combine_byte (op : BitOp) (a b : byte) : byte :=
  z2b (match op with
       | BitAnd => Z.land (b2z a) (b2z b)
       | BitOr => Z.lor (b2z a) (b2z b)
       | BitXor => Z.lxor (b2z a) (b2z b)
       | BitNot => b2z a
       end).

(** One turn of [for src in sources]: every slot takes the source's byte, or
    zero past its end, the first source replacing the initial contents. *)
Definition bitop_turn (op : BitOp) (st : list byte * bool) (src : list byte) : list byte * bool :=
  let '(out, first) := st in
  (imap (fun i slot =>
     let b := match src !! i with Some b => b | None => x00 end in
     if first : bool then b else combine_byte op slot b) out, false).

Definition apply_bitop (op : BitOp) (sources : list (list byte)) : list byte :=
  match op with
  | BitNot => match sources with s :: _ => map not_byte s | [] => [] end
  | _ =>
      let max_len := fold_right Nat.max 0%nat (map length sources) in
      let init := match op with BitAnd => xff | _ => x00 end in
      fst (fold_left (bitop_turn op) sources (replicate max_len init, true))
  end.

Fixpoint load_strings (keys : list Str) (sources : list (list byte)) : prog kvE (Result (list (list byte))) :=
  match keys with
  | [] => Ret (Ok sources)
  | k :: keys =>
      let!? b := get_string k in
      load_strings keys (sources ++ [match b with Some b => b | None => [] end])
  end.

Definition handle_bitop (args : list (list byte)) : handler :=
  match args with
  | o :: d :: srcs =>
      if len args <? 3 then Ret (Err (WrongArity "BITOP"))
      else
        let# op := (let? s := arg_as_str o in BitOp_parse s) in
        let# dest := arg_as_string d in
        let# src_keys := strings srcs in
        if match op with BitNot => negb (len src_keys =? 1) | _ => false end then
          Ret (Err (Parse "BITOP NOT takes exactly one source key"))
        else
          let!? sources := load_strings src_keys [] in
          let result := apply_bitop op sources in
          let l := len_i64 result in
          let!? _ := (match result with
                      | [] => let!? _ := Keyspace.delete dest in Ret (Ok tt)
                      | _ => set_string dest result None
                      end) in
          Ret (Ok (RInteger l))
  | _ => Ret (Err (WrongArity "BITOP"))
  end.

(** ** A buffer as its bits

    Redis numbers bits from the most significant bit of the first byte. *)

Definition byte_bits (b : byte) : list bool :=
  map (fun k => Z.testbit (b2z b) (7 - Z.of_nat k)) (List.seq 0 8).
Definition bits (data : list byte) : list bool := flat_map byte_bits data.
Definition ones (l : list bool) : Z := fold_right (fun b n => Z.b2z b + n) 0 l.
(** The bit at a position, [false] past the end. *)
Definition bit (l : list bool) (i : Z) : bool := default false (l !! Z.to_nat i).

Lemma byte_bits_lookup b k : (k < 8)%nat -> byte_bits b !! k = Some (Z.testbit (b2z b) (7 - Z.of_nat k)).
Proof. intros H. do 8 (destruct k as [|k]; [done|]). lia. Qed.

Lemma length_bits data : length (bits data) = (8 * length data)%nat.
Proof. induction data; cbn [bits flat_map]; [done|]. rewrite length_app. cbn. unfold bits in IHdata. lia. Qed.

Lemma len_bits data : len (bits data) = 8 * len data.
Proof. unfold len. rewrite length_bits. lia. Qed.

Lemma bits_app a b : bits (a ++ b) = bits a ++ bits b.
Proof. apply flat_map_app. Qed.

Lemma bits_take n data : bits (take n data) = take (8 * n) (bits data).
Proof.
  revert n. induction data as [|b data IH]; intros [|n]; rewrite ?Nat.mul_0_r; [done..|].
  replace (8 * S n)%nat with (8 + 8 * n)%nat by lia. cbn [take bits flat_map].
  change (flat_map byte_bits (take n data)) with (bits (take n data)). by rewrite IH.
Qed.

Lemma bits_drop n data : bits (drop n data) = drop (8 * n) (bits data).
Proof.
  revert n. induction data as [|b data IH]; intros [|n]; rewrite ?Nat.mul_0_r; [done..|].
  replace (8 * S n)%nat with (8 + 8 * n)%nat by lia. cbn [drop bits flat_map].
  change (flat_map byte_bits data) with (bits data). by rewrite IH.
Qed.

Lemma bits_slice data s e : 0 <= s -> 0 <= e -> bits (slice data s e) = slice (bits data) (8 * s) (8 * e).
Proof.
  intros Hs He. unfold slice. rewrite bits_take, bits_drop. f_equal; [lia|]. f_equal. lia.
Qed.


Lemma bits_lookup data i : 0 <= i ->
  bits data !! Z.to_nat i =
    if len data <=? i / 8 then None else Some (Z.testbit (rd data (i / 8)) (7 - i mod 8)).
Proof.
  intros Hi. pose proof (Z.div_mod i 8 ltac:(lia)) as Hd. pose proof (Z.mod_pos_bound i 8 eq_refl).
  assert (Hq : 0 <= i / 8) by (apply Z.div_pos; lia).
  remember (i / 8) as q. remember (i mod 8) as r. clear Heqq Heqr. subst i. unfold rd.
  replace (Z.to_nat (8 * q + r)) with (8 * Z.to_nat q + Z.to_nat r)%nat by lia.
  rewrite <- lookup_drop, <- bits_drop. unfold len.
  destruct (Z.leb_spec (Z.of_nat (length data)) q).
  - rewrite drop_ge by lia. done.
  - destruct (lookup_lt_is_Some_2 data (Z.to_nat q)) as [b Hb]; [lia|].
    rewrite (drop_S _ b) by done. rewrite Hb. cbn [bits flat_map].
    rewrite lookup_app_l by (cbn; lia). rewrite byte_bits_lookup by lia. do 2 f_equal. lia.
Qed.

Lemma land_1 a n : 0 <= n -> Z.land (Z.shiftr a n) 1 = Z.b2z (Z.testbit a n).
Proof.
  intros. rewrite (Z.land_ones _ 1) by lia. rewrite Z.shiftr_div_pow2 by done. symmetry. by apply Z.testbit_spec'.
Qed.

Lemma bit_at_bits data i : 0 <= i -> bit_at data i = Z.b2z (bit (bits data) i).
Proof.
  intros Hi. unfold bit_at, bit. rewrite bits_lookup by done.
  destruct (len data <=? i / 8); [done|]. cbn. apply land_1.
  pose proof (Z.mod_pos_bound i 8 eq_refl). lia.
Qed.

Lemma bit_lookup l i : 0 <= i < len l -> l !! Z.to_nat i = Some (bit l i).
Proof.
  intros Hi. unfold bit. destruct (lookup_lt_is_Some_2 l (Z.to_nat i)) as [b Hb]; [unfold len in Hi; lia|].
  by rewrite Hb.
Qed.

Lemma ones_app a b : ones (a ++ b) = ones a + ones b.
Proof. unfold ones. induction a; cbn; lia. Qed.

Lemma ones_bounds l : 0 <= ones l <= len l.
Proof. unfold ones, len. induction l as [|[] l]; cbn in *; lia. Qed.

Lemma count_ones_bits b : count_ones b = ones (byte_bits b).
Proof. by destruct b. Qed.

Lemma sum_ones_bits data : 8 * len data < 2 ^ 32 -> sum_ones data = ones (bits data).
Proof.
  intros Hl. unfold sum_ones.
  assert (E : fold_right (fun b n => count_ones b + n) 0 data = ones (bits data)).
  { clear. induction data as [|b data IH]; [done|]. cbn [fold_right bits flat_map].
    change (flat_map byte_bits data) with (bits data). by rewrite ones_app, IH, count_ones_bits. }
  rewrite E. apply wrap_u_small. pose proof (ones_bounds (bits data)). rewrite len_bits in *. lia.
Qed.

Lemma count_bits_from_spec data n i c : 0 <= i ->
  count_bits_from data n i c = c + ones (take n (drop (Z.to_nat i) (bits data))).
Proof.
  revert i c. induction n as [|n IH]; intros i c Hi; cbn [count_bits_from]; [by rewrite take_0, Z.add_0_r|].
  rewrite IH by lia. rewrite bit_at_bits by done. unfold bit.
  destruct (bits data !! Z.to_nat i) as [b|] eqn:E.
  - rewrite (drop_S _ _ _ E). cbn. replace (Z.to_nat (i + 1)) with (S (Z.to_nat i)) by lia. unfold ones. lia.
  - apply lookup_ge_None_1 in E. rewrite !drop_ge by lia. rewrite !take_nil. cbn. unfold ones. cbn. lia.
Qed.

(** ** Windows *)

(** A Redis index: negative ones count from the end. *)
Definition norm (n i : Z) : Z := if i <? 0 then n + i else i.
(** The elements from [start] to [end_], both included. *)
Definition window {A} (l : list A) (start end_ : Z) : list A :=
  slice l (Z.max 0 (norm (len l) start)) (Z.min (len l - 1) (norm (len l) end_) + 1).

Lemma resolve_inclusive_range_spec start end_ n :
  0 <= n <= i64_max ->
  resolve_inclusive_range start end_ n =
    let lo := Z.max 0 (norm n start) in let hi := Z.min (n - 1) (norm n end_) in
    if lo <=? hi then Some (lo, hi) else None.
Proof.
  intros Hn. unfold resolve_inclusive_range, norm, i64_of_usize, usize_of_i64. cbv zeta.
  destruct (Z.leb_spec n i64_max); [|lia].
  destruct (Z.eqb_spec n 0) as [->|]; [|].
  - destruct (Z.leb_spec (Z.max 0 (if start <? 0 then 0 + start else start))
      (Z.min (0 - 1) (if end_ <? 0 then 0 + end_ else end_))); [lia|done].
  - destruct (Z.ltb_spec start 0), (Z.ltb_spec end_ 0);
      repeat match goal with |- context [?a <=? ?b] => destruct (Z.leb_spec a b); cbn [orb] end;
      repeat match goal with |- context [?a <? ?b] => destruct (Z.ltb_spec a b); cbn [orb] end;
      try lia; try done; do 2 f_equal; lia.
Qed.

Lemma slice_nil {A} (l : list A) s e : e <= s -> slice l s e = [].
Proof. intros. unfold slice. by replace (Z.to_nat (e - s)) with 0%nat by lia. Qed.

Lemma count_bits_byte_window data start end_ :
  8 * len data < 2 ^ 32 ->
  match resolve_inclusive_range start end_ (len data) with
  | None => 0
  | Some (s, e) => count_bits_byte_range data s e
  end = ones (bits (window data start end_)).
Proof.
  intros Hl. pose proof (len_nonneg data). rewrite resolve_inclusive_range_spec by (unfold i64_max; lia).
  cbv zeta. unfold window. destruct (Z.leb_spec (Z.max 0 (norm (len data) start)) (Z.min (len data - 1) (norm (len data) end_))).
  - unfold count_bits_byte_range. apply sum_ones_bits. unfold slice, len in *. rewrite length_take, length_drop. lia.
  - by rewrite slice_nil by lia.
Qed.

Lemma count_bits_bit_window data start end_ :
  8 * len data < 2 ^ 32 ->
  match resolve_inclusive_range start end_ (saturating_mul_u64 (len data) 8) with
  | None => 0
  | Some (s, e) => count_bits_bit_range data s e
  end = ones (window (bits data) start end_).
Proof.
  intros Hl. pose proof (len_nonneg data). unfold saturating_mul_u64. rewrite Z.min_r by (unfold u64_max; lia).
  rewrite (Z.mul_comm (len data)), <- len_bits in *. pose proof (len_nonneg (bits data)).
  rewrite resolve_inclusive_range_spec by (unfold i64_max; lia).
  cbv zeta. unfold window.
  destruct (Z.leb_spec (Z.max 0 (norm (len (bits data)) start)) (Z.min (len (bits data) - 1) (norm (len (bits data)) end_))).
  - unfold count_bits_bit_range. rewrite count_bits_from_spec by lia. rewrite Z.add_0_l. unfold slice. do 3 f_equal. lia.
  - by rewrite slice_nil by lia.
Qed.

(** A window of bytes is a window of bits. *)
Lemma bits_window data start end_ :
  bits (window data start end_) = window (bits data) (8 * start) (8 * end_ + 7).
Proof.
  pose proof (len_nonneg data). unfold window. rewrite !len_bits.
  set (lo := Z.max 0 (norm (len data) start)). set (hi := Z.min (len data - 1) (norm (len data) end_)).
  replace (Z.max 0 (norm (8 * len data) (8 * start))) with (8 * lo).
  2: { unfold lo, norm. destruct (Z.ltb_spec start 0), (Z.ltb_spec (8 * start) 0); lia. }
  destruct (Z.leb_spec 0 (hi + 1)).
  - replace (Z.min (8 * len data - 1) (norm (8 * len data) (8 * end_ + 7)) + 1) with (8 * (hi + 1)).
    2: { unfold hi, norm. destruct (Z.ltb_spec end_ 0), (Z.ltb_spec (8 * end_ + 7) 0); lia. }
    apply bits_slice; lia.
  - rewrite !slice_nil; [done| |lia].
    unfold hi, lo, norm in *. destruct (Z.ltb_spec end_ 0), (Z.ltb_spec (8 * end_ + 7) 0); lia.
Qed.

(** ** Handlers *)

(** Decide the arity test of a handler at an explicit argument list. *)
Ltac arity_ok :=
  repeat match goal with
  | |- context [if ?c then Ret (Err (WrongArity _)) else _] =>
      let v := eval vm_compute in c in change c with v; cbv iota
  end.

Lemma arg_as_str_utf8 k s : from_utf8 k = Some s -> arg_as_str k = Ok s.
Proof. unfold arg_as_str. by intros ->. Qed.

Lemma parse_i64_print n label : in_i64 n = true -> parse_i64 (print_Z n) label = Ok n.
Proof.
  intros Hn. unfold parse_i64. rewrite (arg_as_str_utf8 _ _ (from_utf8_print n)). cbn [rbind].
  by rewrite parse_print_i64.
Qed.

Lemma run_get_string k w :
  run (get_string k) w =
    (match live w k with
     | Some {| value := VString d |} => Ok (Some d)
     | Some _ => Err (wrong_type k)
     | None => Ok None
     end, gc k w).
Proof.
  unfold get_string. rewrite run_bind, run_load. cbv beta iota zeta.
  destruct (live w k) as [[? []]|]; done.
Qed.

Definition unit_word (in_bits : bool) : list byte := if in_bits then bs "BIT" else bs "BYTE".

Lemma parse_range_unit_word in_bits : parse_range_unit (Some (unit_word in_bits)) = Ok in_bits.
Proof. by destruct in_bits. Qed.

(** The string BITCOUNT and BITPOS see at a key: a missing key is empty. *)
Definition string_at (w : world) (key : Str) (data : list byte) : Prop :=
  (live w key = None /\ data = []) \/ exists exp, live w key = Some (mk_entry exp (VString data)).

(** BITCOUNT answers the number of set bits: of the whole string, of a
    window of its bytes, or of a window of its bits, with negative indexes
    counted from the end.  Its two walks agree: a byte window counts as the bit
    window with the same bits. *)
Theorem bitcount_spec w k key data start end_ in_bits :
  from_utf8 k = Some key -> string_at w key data -> 8 * len data < 2 ^ 32 ->
  in_i64 start = true -> in_i64 end_ = true ->
  fst (run (handle_bitcount [k]) w) = Ok (RInteger (ones (bits data))) /\
  fst (run (handle_bitcount [k; print_Z start; print_Z end_; unit_word in_bits]) w) =
    Ok (RInteger (ones (if in_bits then window (bits data) start end_ else bits (window data start end_)))) /\
  bits (window data start end_) = window (bits data) (8 * start) (8 * end_ + 7).
Proof.
  intros Hk Hd Hl Hs He. split; [|split; [|apply bits_window]].
  - unfold handle_bitcount. arity_ok.
    rewrite (arg_as_str_utf8 _ _ Hk). rewrite run_bind, run_get_string.
    destruct Hd as [[-> ->]|[exp ->]]; cbn [mk_entry run fst]; [done|]. by rewrite sum_ones_bits.
  - unfold handle_bitcount. arity_ok.
    rewrite (arg_as_str_utf8 _ _ Hk). rewrite run_bind, run_get_string.
    rewrite !parse_i64_print by done. cbn [nth_error nth]. rewrite parse_i64_print, parse_range_unit_word by done.
    destruct Hd as [[-> ->]|[exp ->]]; cbn [mk_entry run fst].
    { destruct in_bits; cbn; unfold window, slice; by rewrite drop_nil, take_nil. }
    destruct in_bits.
    + rewrite <- count_bits_bit_window by done. by destruct (resolve_inclusive_range _ _ _) as [[? ?]|].
    + rewrite <- count_bits_byte_window by done. by destruct (resolve_inclusive_range _ _ _) as [[? ?]|].
Qed.

(** ** BITPOS *)

Lemma b2z_eqb a b : (Z.b2z a =? Z.b2z b) = Bool.eqb a b.
Proof. by destruct a, b. Qed.

Lemma find_bit_from_spec data t n i : 0 <= i ->
  match find_bit_from data (Z.b2z t) n i with
  | Some p => i <= p < i + Z.of_nat n /\ bit (bits data) p = t /\
      forall q, i <= q < p -> bit (bits data) q = negb t
  | None => forall q, i <= q < i + Z.of_nat n -> bit (bits data) q = negb t
  end.
Proof.
  revert i. induction n as [|n IH]; intros i Hi; cbn [find_bit_from]; [lia|].
  rewrite bit_at_bits, b2z_eqb by done. destruct (Bool.eqb _ t) eqn:E.
  - apply Bool.eqb_prop in E. split; [lia|]. split; [done|]. lia.
  - assert (Hn : bit (bits data) i = negb t) by (by destruct (bit (bits data) i), t).
    specialize (IH (i + 1) ltac:(lia)). destruct (find_bit_from _ _ n _) as [p|].
    + destruct IH as (? & ? & Hq). split; [lia|]. split; [done|]. intros q ?.
      destruct (decide (q = i)) as [->|]; [done|]. apply Hq. lia.
    + intros q ?. destruct (decide (q = i)) as [->|]; [done|]. apply IH. lia.
Qed.

Lemma find_first_bit_spec data t lo hi : 0 <= lo ->
  match find_first_bit data (Z.b2z t) lo hi with
  | Some p => lo <= p <= hi /\ bit (bits data) p = t /\ forall q, lo <= q < p -> bit (bits data) q = negb t
  | None => forall q, lo <= q <= hi -> bit (bits data) q = negb t
  end.
Proof.
  intros Hlo. unfold find_first_bit. pose proof (find_bit_from_spec data t (Z.to_nat (hi - lo + 1)) lo Hlo) as H.
  destruct (find_bit_from _ _ _ _) as [p|].
  - destruct H as (? & ? & ?). split; [lia|]. done.
  - intros q Hq. apply H. lia.
Qed.

(** The tail of a BITPOS request. *)
Definition bitpos_opts (start end_ : option Z) (in_bits : bool) : list (list byte) :=
  match start, end_ with
  | None, _ => []
  | Some s, None => [print_Z s]
  | Some s, Some e => [print_Z s; print_Z e; unit_word in_bits]
  end.

(** Does the request name an end? *)
Definition explicit_end (start end_ : option Z) : bool :=
  match start, end_ with Some _, Some _ => true | _, _ => false end.

(** The bits it ranges over, both ends included, in a string of [n] bytes. *)
Definition bitpos_bounds (n : Z) (start end_ : option Z) (in_bits : bool) : Z * Z :=
  let in_bits := explicit_end start end_ && in_bits in
  let units := if in_bits then 8 * n else n in
  let lo := match start with Some s => Z.max 0 (norm units s) | None => 0 end in
  let hi := match start, end_ with Some _, Some e => Z.min (units - 1) (norm units e) | _, _ => units - 1 end in
  if in_bits then (lo, hi) else (8 * lo, 8 * hi + 7).

Lemma bitpos_window_spec data start end_ in_bits :
  0 < len data -> 8 * len data <= i64_max ->
  (forall s, start = Some s -> in_i64 s = true) -> (forall e, end_ = Some e -> in_i64 e = true) ->
  bitpos_window data (bitpos_opts start end_ in_bits)
      (explicit_end start end_ && in_bits) =
    let '(lo, hi) := bitpos_bounds (len data) start end_ in_bits in
    Ok (if lo <=? hi then Some (lo, hi) else None).
Proof.
  intros Hpos Hl Hs He. unfold bitpos_window, bitpos_bounds, saturating_mul_u64.
  rewrite Z.min_r by (unfold u64_max, i64_max in *; lia). rewrite (Z.mul_comm (len data)).
  destruct start as [s|]; [|destruct end_; cbn [bitpos_opts explicit_end andb]; cbv zeta; destruct (Z.leb_spec (8 * 0) (8 * (len data - 1) + 7));
    (lia || (do 3 f_equal; lia))].
  specialize (Hs s eq_refl). assert (Hmax : norm (len data) i64_max = i64_max) by done.
  destruct end_ as [e|]; cbn [bitpos_opts]; rewrite !parse_i64_print by eauto; cbn [rbind explicit_end andb].
  - destruct in_bits; cbn [andb]; rewrite resolve_inclusive_range_spec by lia; cbv zeta;
      repeat match goal with |- context [?a <=? ?b] => destruct (Z.leb_spec a b) end;
      try lia; try done; do 3 f_equal; lia.
  - rewrite resolve_inclusive_range_spec by lia; cbv zeta. rewrite Hmax.
      repeat match goal with |- context [?a <=? ?b] => destruct (Z.leb_spec a b) end;
      try lia; try done; do 3 f_equal; lia.
Qed.

Lemma parse_unit_of_opts start end_ in_bits :
  parse_range_unit (nth_error (bitpos_opts start end_ in_bits) 2) =
    Ok (explicit_end start end_ && in_bits).
Proof. by destruct start, end_, in_bits. Qed.

Lemma explicit_end_opts start end_ in_bits : (2 <=? len (bitpos_opts start end_ in_bits)) = explicit_end start end_.
Proof. by destruct start, end_. Qed.

Lemma bitpos_bounds_range n start end_ in_bits : 0 <= n ->
  let '(lo, hi) := bitpos_bounds n start end_ in_bits in 0 <= lo /\ hi < 8 * n.
Proof. intros Hn. unfold bitpos_bounds, explicit_end. destruct start, end_, in_bits; cbn [andb]; lia. Qed.

Lemma bitpos_answer_spec data t pinned lo hi :
  0 <= lo -> hi < 8 * len data -> 8 * len data <= i64_max ->
  let r := bitpos_answer data (Z.b2z t) pinned (if lo <=? hi then Some (lo, hi) else None) in
  let clear lo hi := forall q, lo <= q < hi -> bit (bits data) q = negb t in
  (lo <= r <= hi /\ bit (bits data) r = t /\ clear lo r) \/
  (clear lo (hi + 1) /\ r = if negb t && negb pinned && (lo <=? hi) then 8 * len data else -1).
Proof.
  intros Hlo Hhi Hl r clear. subst r. destruct (Z.leb_spec lo hi); [|right; split; [unfold clear; lia|]].
  2: { by destruct (negb t && negb pinned). }
  unfold bitpos_answer. pose proof (find_first_bit_spec data t lo hi Hlo) as Hf.
  assert (Hi : forall z, z <= i64_max -> i64_of_usize z = z).
  { intros z Hz. unfold i64_of_usize. by destruct (Z.leb_spec z i64_max); [|lia]. }
  destruct (find_first_bit _ _ _ _) as [p|].
  - left. by rewrite Hi by lia.
  - right. split; [intros q ?; apply Hf; lia|]. unfold saturating_mul_u64.
    rewrite Z.min_r by (unfold u64_max, i64_max in *; lia). rewrite Z.mul_comm, Hi by done.
    by destruct t, pinned.
Qed.

(** C32: BITPOS answers the first position in its window, in bytes or in bits and
    with negative indexes counted from the end, that holds the bit it looks for;
    when there is none it answers -1, or, for a zero bit and without an explicit
    end, the position just past the string (0 for an empty one). *)
Theorem bitpos_spec w k key data t start end_ in_bits :
  from_utf8 k = Some key -> string_at w key data -> 8 * len data <= i64_max ->
  (forall s, start = Some s -> in_i64 s = true) -> (forall e, end_ = Some e -> in_i64 e = true) ->
  exists r, fst (run (handle_bitpos (k :: print_Z (Z.b2z t) :: bitpos_opts start end_ in_bits)) w) = Ok (RInteger r) /\
    let '(lo, hi) := bitpos_bounds (len data) start end_ in_bits in
    let clear lo hi := forall q, lo <= q < hi -> bit (bits data) q = negb t in
    if len data =? 0 then r = (if t then -1 else 0)
    else (lo <= r <= hi /\ bit (bits data) r = t /\ clear lo r) \/
         (clear lo (hi + 1) /\
          r = if negb t && negb (explicit_end start end_) && (lo <=? hi) then 8 * len data else -1).
Proof.
  intros Hk Hd Hl Hs He. unfold handle_bitpos.
  assert (Ha : (5 <? len (k :: print_Z (Z.b2z t) :: bitpos_opts start end_ in_bits)) = false)
    by (by destruct start, end_).
  rewrite Ha, (arg_as_str_utf8 _ _ Hk), parse_i64_print by (by destruct t).
  replace ((Z.b2z t =? 0) || (Z.b2z t =? 1)) with true by (by destruct t).
  rewrite run_bind, run_get_string.
  assert (E : match live w key with
     | Some {| value := VString d |} => Ok (Some d)
     | Some _ => Err (wrong_type key)
     | None => Ok None
     end = Ok (if len data =? 0 then (match live w key with None => None | Some _ => Some [] end) else Some data)).
  { destruct Hd as [[-> ->]|[exp ->]]; [done|]. by destruct data. }
  rewrite E. clear E Ha. destruct data as [|b data'].
  { exists (if t then -1 else 0). split; [|by destruct (bitpos_bounds _ _ _ _)].
    cbn. destruct (live w key), t; done. }
  set (data := b :: data') in *. assert (Hp : 0 < len data) by (unfold data; rewrite len_cons; pose proof (len_nonneg data'); lia).
  destruct (Z.eqb_spec (len data) 0); [lia|].
  rewrite parse_unit_of_opts, bitpos_window_spec by done.
  pose proof (bitpos_bounds_range (len data) start end_ in_bits ltac:(lia)) as Hb.
  destruct (bitpos_bounds _ _ _ _) as [lo hi]. rewrite explicit_end_opts.
  eexists. split; [reflexivity|]. apply bitpos_answer_spec; [lia..|done].
Qed.

(** ** BITOP *)

(** The byte a source gives at a position, zero past its end. *)
Definition byte_at (s : list byte) (i : nat) : byte := match s !! i with Some b => b | None => x00 end.

Definition bop (op : BitOp) (a b : bool) : bool :=
  match op with BitAnd => a && b | BitOr => a || b | BitXor => xorb a b | BitNot => a end.

Lemma bit_byte_at s i : 0 <= i ->
  bit (bits s) i = Z.testbit (b2z (byte_at s (Z.to_nat (i / 8)))) (7 - i mod 8).
Proof.
  intros Hi. unfold bit. rewrite bits_lookup by done. unfold byte_at, rd.
  assert (0 <= i / 8) by (apply Z.div_pos; lia). unfold len.
  destruct (Z.leb_spec (Z.of_nat (length s)) (i / 8)); cbn [default].
  - rewrite lookup_ge_None_2 by lia. by rewrite Z.testbit_0_l.
  - destruct (lookup_lt_is_Some_2 s (Z.to_nat (i / 8))) as [b Hb]; [lia|]. by rewrite Hb.
Qed.

Lemma combine_byte_testbit op a b k : 0 <= k < 8 ->
  Z.testbit (b2z (combine_byte op a b)) k = bop op (Z.testbit (b2z a) k) (Z.testbit (b2z b) k).
Proof.
  intros Hk. unfold combine_byte. rewrite b2z_z2b, (Z.mod_pow2_bits_low _ 8) by lia.
  destruct op; cbn [bop]; [apply Z.land_spec|apply Z.lor_spec|apply Z.lxor_spec|done].
Qed.

Lemma fold_combine_testbit op (f : list byte -> byte) (g : list byte -> bool) rest k slot : 0 <= k < 8 ->
  (forall s, Z.testbit (b2z (f s)) k = g s) ->
  Z.testbit (b2z (fold_left (fun acc s => combine_byte op acc (f s)) rest slot)) k =
    fold_left (bop op) (map g rest) (Z.testbit (b2z slot) k).
Proof.
  intros Hk Hf. revert slot. induction rest as [|s rest IH]; intros slot; [done|].
  cbn [fold_left map]. by rewrite IH, combine_byte_testbit, Hf.
Qed.

Lemma bitop_turns op rest out :
  fold_left (bitop_turn op) rest (out, false) =
    (imap (fun i slot => fold_left (fun acc s => combine_byte op acc (byte_at s i)) rest slot) out, false).
Proof.
  revert out. induction rest as [|s rest IH]; intros out.
  - cbn [fold_left]. f_equal. symmetry. clear. induction out as [|b out IH]; [done|]. cbn. by rewrite <- IH at 2.
  - cbn [fold_left]. unfold bitop_turn at 2. rewrite IH. f_equal. clear IH. apply list_eq. intros i.
    rewrite !list_lookup_imap. by destruct (out !! i).
Qed.

Definition max_length (sources : list (list byte)) : nat := fold_right Nat.max 0%nat (map length sources).

Lemma apply_bitop_lookup op s0 rest i : op <> BitNot ->
  apply_bitop op (s0 :: rest) !! i =
    if decide (i < max_length (s0 :: rest))%nat
    then Some (fold_left (fun acc s => combine_byte op acc (byte_at s i)) rest (byte_at s0 i)) else None.
Proof.
  intros Hop.
  assert (E : apply_bitop op (s0 :: rest) =
    imap (fun i slot => fold_left (fun acc s => combine_byte op acc (byte_at s i)) rest slot)
      (imap (fun i _ => byte_at s0 i)
        (replicate (max_length (s0 :: rest)) (match op with BitAnd => xff | _ => x00 end)))).
  { unfold apply_bitop. change (fold_right Nat.max 0%nat (map length (s0 :: rest))) with (max_length (s0 :: rest)).
    destruct op; [..|done]; cbn [fold_left]; unfold bitop_turn at 2; rewrite bitop_turns; done. }
  rewrite E, !list_lookup_imap. destruct (decide _).
  - by rewrite lookup_replicate_2.
  - rewrite lookup_ge_None_2; [done|]. rewrite length_replicate. lia.
Qed.

Lemma length_apply_bitop op s0 rest : op <> BitNot ->
  length (apply_bitop op (s0 :: rest)) = max_length (s0 :: rest).
Proof.
  intros Hop. set (m := max_length _). set (l := apply_bitop _ _).
  assert (H : forall i, is_Some (l !! i) <-> (i < m)%nat).
  { intros i. unfold l. rewrite apply_bitop_lookup by done. fold m. destruct (decide _); split; intros H; try lia; eauto.
    by destruct H. }
  destruct (decide (length l = m)) as [|Hne]; [done|exfalso].
  pose proof (H (length l)) as H1. pose proof (H m) as H2. rewrite lookup_lt_is_Some in H1, H2. lia.
Qed.

Lemma apply_bitop_bits op s0 rest i : op <> BitNot -> 0 <= i < 8 * len (apply_bitop op (s0 :: rest)) ->
  bit (bits (apply_bitop op (s0 :: rest))) i =
    fold_left (bop op) (map (fun s => bit (bits s) i) rest) (bit (bits s0) i).
Proof.
  intros Hop Hi. unfold len in Hi. rewrite length_apply_bitop in Hi by done.
  assert (0 <= i / 8 < Z.of_nat (max_length (s0 :: rest))) by (split; [apply Z.div_pos; lia|apply Z.div_lt_upper_bound; lia]).
  rewrite (bit_byte_at (apply_bitop _ _)) by lia. unfold byte_at at 1. rewrite apply_bitop_lookup by done.
  destruct (decide _); [|lia]. pose proof (Z.mod_pos_bound i 8 eq_refl).
  rewrite (bit_byte_at s0) by lia. apply fold_combine_testbit; [lia|].
  intros s. by rewrite bit_byte_at by lia.
Qed.

Lemma not_bits s : bits (map not_byte s) = map negb (bits s).
Proof.
  induction s as [|b s IH]; [done|]. cbn [map bits flat_map].
  change (flat_map byte_bits ?l) with (bits l). rewrite IH, map_app. f_equal. by destruct b.
Qed.

(** BITOP as an operation on bits. *)
Definition bitop_bits (op : BitOp) (sources : list (list byte)) (out : list byte) : Prop :=
  match op, sources with
  | BitNot, s :: _ => bits out = map negb (bits s)
  | _, s0 :: rest =>
      length out = max_length sources /\
      forall i, 0 <= i < 8 * len out ->
        bit (bits out) i = fold_left (bop op) (map (fun s => bit (bits s) i) rest) (bit (bits s0) i)
  | _, [] => out = []
  end.

Lemma apply_bitop_spec op sources : bitop_bits op sources (apply_bitop op sources).
Proof.
  destruct sources as [|s0 rest]; [by destruct op|].
  destruct op; [..|apply not_bits]; (split; [by apply length_apply_bitop|intros; by apply apply_bitop_bits]).
Qed.

Definition BitOp_word (op : BitOp) : list byte :=
  match op with BitAnd => bs "AND" | BitOr => bs "OR" | BitXor => bs "XOR" | BitNot => bs "NOT" end.

Lemma string_at_live w w' key data : (forall k, live w' k = live w k) -> string_at w key data -> string_at w' key data.
Proof. unfold string_at. by intros ->. Qed.

Lemma run_load_strings keys datas w acc : Forall2 (string_at w) keys datas ->
  exists w', run (load_strings keys acc) w = (Ok (acc ++ datas), w') /\ (forall k, live w' k = live w k) /\ clock_ms w' = clock_ms w.
Proof.
  intros H. revert w acc H. induction keys as [|k keys IH] in datas |- *; intros w acc H.
  - inversion H; subst. exists w. by rewrite app_nil_r.
  - destruct datas as [|d datas]; [inversion H|]. apply Forall2_cons in H as [Hd H].
    cbn [load_strings]. rewrite run_bind, run_get_string.
    destruct (IH datas (gc k w) (acc ++ [d])) as (w' & E & Hl & Hc).
    { eapply Forall2_impl; [done|]. intros ? ?. apply string_at_live. intros. apply live_gc_any. }
    exists w'. split; [|split].
    + destruct Hd as [[-> ->]|[exp ->]]; cbn [mk_entry]; rewrite E, <- app_assoc; done.
    + intros k'. by rewrite Hl, live_gc_any.
    + rewrite Hc. unfold gc. destruct (store w !! k) as [[? ?]|]; [|done]. by destruct (is_expired _ _).
Qed.

Lemma collect_results_args ks keys : Forall2 (fun k key => from_utf8 k = Some key) ks keys ->
  strings ks = Ok keys.
Proof.
  unfold strings. induction 1 as [|k key ks keys Hk _ IH]; [done|]. cbn [collect_results].
  unfold arg_as_string at 1. by rewrite (arg_as_str_utf8 _ _ Hk), IH.
Qed.

Lemma length_apply_bitop_bound op sources : Forall (fun s => len s <= i64_max) sources ->
  len (apply_bitop op sources) <= i64_max.
Proof.
  intros H. unfold len. destruct (decide (op = BitNot)) as [->|Hop].
  - destruct H as [|s rest Hs _]; [done|]. cbn [apply_bitop]. by rewrite length_map.
  - destruct sources as [|s0 rest]; [by destruct op|]. rewrite length_apply_bitop by done.
    unfold max_length. induction H as [|s l Hs _ IH]; [done|]. cbn [map fold_right]. unfold len in Hs. lia.
Qed.

Lemma run_delete key w :
  exists b w', run (Keyspace.delete key) w = (Ok b, w') /\ live w' key = None /\
    forall k, k <> key -> live w' k = live w k.
Proof.
  unfold Keyspace.delete. rewrite run_bind, run_load. destruct (live w key) as [e|] eqn:El; cbv beta iota.
  - exists true, (remove key (gc key w)). split; [done|]. split; [apply live_remove_eq|].
    intros k Hk. by rewrite live_remove_ne, live_gc_any.
  - exists false, (gc key w). split; [done|]. rewrite live_gc. split; [done|]. intros. apply live_gc_any.
Qed.

(** C33: BITOP stores at its destination, without a TTL, the bitwise AND, OR or
    XOR of its sources - as long as the longest, shorter ones continued by
    zeros, a missing key empty - or the complement of its single source;
    it answers the length in bytes, deletes the destination when that is 0, and
    touches no other key. *)
Theorem bitop_spec w op d dest ks keys datas :
  from_utf8 d = Some dest -> Forall2 (fun k key => from_utf8 k = Some key) ks keys ->
  Forall2 (string_at w) keys datas -> Forall (fun s => len s <= i64_max) datas ->
  keys <> [] -> (op = BitNot -> length keys = 1%nat) ->
  exists out w', run (handle_bitop (BitOp_word op :: d :: ks)) w = (Ok (RInteger (len out)), w') /\
    bitop_bits op datas out /\
    live w' dest = (match out with [] => None | _ => Some (mk_entry None (VString out)) end) /\
    forall k, k <> dest -> live w' k = live w k.
Proof.
  intros Hd Hks Hat Hb Hne Hnot. exists (apply_bitop op datas).
  destruct (run_load_strings keys datas w [] Hat) as (w1 & E & Hl & Hc).
  unfold handle_bitop.
  replace (len (BitOp_word op :: d :: ks) <? 3) with false.
  2: { apply Forall2_length in Hks. destruct ks; [by destruct keys|]. unfold len. cbn [length]. symmetry. apply Z.ltb_ge. lia. }
  assert (Ep : (let? s := arg_as_str (BitOp_word op) in BitOp_parse s) = Ok op) by (by destruct op). rewrite Ep.
  rewrite (arg_as_str_utf8 _ _ Hd : arg_as_string d = _), (collect_results_args _ _ Hks).
  replace (match op with BitNot => negb (len keys =? 1) | _ => false end) with false.
  2: { destruct op; try done. unfold len. by rewrite Hnot. }
  rewrite run_bind, E. cbn [app]. pose proof (length_apply_bitop_bound op datas Hb) as Hlen.
  assert (Hli : len_i64 (apply_bitop op datas) = len (apply_bitop op datas)).
  { unfold len_i64, i64_of_usize. by destruct (Z.leb_spec (len (apply_bitop op datas)) i64_max); [|lia]. }
  cbv zeta. rewrite Hli. pose proof (apply_bitop_spec op datas) as Hspec.
  destruct (apply_bitop op datas) as [|b out] eqn:Eo; rewrite !run_bind.
  - destruct (run_delete dest w1) as (r & w' & -> & Hn & Ho). exists w'. cbn [run].
    split; [done|]. split; [done|]. split; [done|]. intros. by rewrite Ho.
  - exists (put dest (mk_entry None (VString (b :: out))) w1). split; [done|]. split; [done|].
    split; [by rewrite live_put_eq|]. intros k Hk. by rewrite live_put_ne, Hl.
Qed.

(** ** SETBIT and GETBIT *)

Lemma bit_rd l i : 0 <= i -> bit (bits l) i = Z.testbit (rd l (i / 8)) (7 - i mod 8).
Proof. intros Hi. rewrite bit_byte_at by done. unfold byte_at, rd. by destruct (l !! _). Qed.

Lemma rd_resize0 l n j : 0 <= j -> rd (resize0 l n) j = rd l j.
Proof.
  intros Hj. unfold rd, resize0. destruct (decide (Z.to_nat j < length l)%nat).
  - by rewrite lookup_app_l.
  - rewrite lookup_app_r, (lookup_ge_None_2 l) by lia.
    destruct (repeat x00 _ !! _) as [b|] eqn:E; [|done].
    apply list_elem_of_lookup_2, list_elem_of_In, repeat_spec in E. by subst.
Qed.

Lemma apply_setbit_spec data o v : 0 <= o ->
  snd (apply_setbit data o v) = Z.b2z (bit (bits data) o) /\
  forall i, 0 <= i -> bit (bits (fst (apply_setbit data o v))) i = if i =? o then v else bit (bits data) i.
Proof.
  intros Ho. pose proof (Z.mod_pos_bound o 8 eq_refl) as Hm. pose proof (Z.div_mod o 8 ltac:(lia)) as Hdm.
  assert (Hq : 0 <= o / 8) by (apply Z.div_pos; lia).
  set (l := if len data <=? o / 8 then resize0 data (o / 8 + 1) else data).
  assert (Hrd : forall j, 0 <= j -> rd l j = rd data j).
  { intros j Hj. unfold l. destruct (_ <=? _); [by apply rd_resize0|done]. }
  assert (Hlen : o / 8 < len l).
  { unfold l. destruct (Z.leb_spec (len data) (o / 8)); [|done].
    unfold resize0. rewrite len_app. unfold len at 2. rewrite repeat_length. lia. }
  unfold apply_setbit. fold l. cbv zeta. cbn [fst snd]. rewrite !Hrd by done. split.
  - rewrite bit_rd by done. apply Z.bits_inj'. intros q Hq'.
    rewrite Z.shiftr_spec, Z.land_spec, Z.shiftl_spec by lia.
    replace (q + (7 - o mod 8) - (7 - o mod 8)) with q by lia.
    destruct (Z.eqb_spec q 0) as [->|].
    + rewrite Z.add_0_l. change (Z.testbit 1 0) with true. by rewrite andb_true_r, Z.b2z_bit0.
    + rewrite (Z.bits_above_log2 1), andb_false_r by (cbn; lia). symmetry.
      destruct (Z.testbit (rd data _) _); [apply Z.bits_above_log2; cbn; lia|apply Z.testbit_0_l].
  - intros i Hi. pose proof (Z.mod_pos_bound i 8 eq_refl). pose proof (Z.div_mod i 8 ltac:(lia)).
    assert (0 <= i / 8) by (apply Z.div_pos; lia).
    assert (Hw : forall z, rd (wr l (o / 8) z) (i / 8) = if o / 8 =? i / 8 then z mod 256 else rd l (i / 8))
      by (intros; apply rd_wr; lia).
    assert (Hbit : Z.testbit (Z.shiftl 1 (7 - o mod 8)) (7 - i mod 8) = (i mod 8 =? o mod 8)).
    { rewrite Z.shiftl_1_l, Z.pow2_bits_eqb by lia. lia. }
    rewrite !bit_rd by done.
    assert (Hrw : Z.testbit (rd (if v then wr l (o / 8) (Z.lor (rd data (o / 8)) (Z.shiftl 1 (7 - o mod 8)))
        else wr l (o / 8) (Z.ldiff (rd data (o / 8)) (Z.shiftl 1 (7 - o mod 8)))) (i / 8)) (7 - i mod 8) =
      if o / 8 =? i / 8
      then if i mod 8 =? o mod 8 then v else Z.testbit (rd data (i / 8)) (7 - i mod 8)
      else Z.testbit (rd data (i / 8)) (7 - i mod 8)).
    { assert (Hmod : forall z, Z.testbit (z mod 256) (7 - i mod 8) = Z.testbit z (7 - i mod 8))
        by (intros; apply (Z.mod_pow2_bits_low _ 8); lia).
      destruct v; rewrite Hw; (destruct (Z.eqb_spec (o / 8) (i / 8)) as [<-|]; [|by rewrite Hrd]); rewrite Hmod;
        first [rewrite Z.lor_spec|rewrite Z.ldiff_spec]; rewrite Hbit;
        destruct (i mod 8 =? o mod 8); cbn; by rewrite ?orb_true_r, ?orb_false_r, ?andb_true_r, ?andb_false_r. }
    rewrite Hrw. destruct (Z.eqb_spec (o / 8) (i / 8)), (Z.eqb_spec (i mod 8) (o mod 8)), (Z.eqb_spec i o); try done; lia.
Qed.

Lemma run_handle_getbit w k key data o : from_utf8 k = Some key -> string_at w key data -> in_i64 o = true -> 0 <= o ->
  fst (run (handle_getbit [k; print_Z o]) w) = Ok (RInteger (Z.b2z (bit (bits data) o))).
Proof.
  intros Hk Hd Hi Ho. unfold handle_getbit. rewrite (arg_as_str_utf8 _ _ Hk).
  unfold parse_bit_offset. rewrite parse_i64_print by done. cbn [rbind].
  destruct (Z.leb_spec 0 o); [|lia]. unfold getbit. rewrite !run_bind, run_get_string.
  destruct Hd as [[-> ->]|[exp ->]]; cbn [mk_entry run fst].
  - unfold bit. cbn [bits flat_map]. by rewrite lookup_nil.
  - by rewrite bit_at_bits.
Qed.

(** SETBIT answers the bit it replaces and changes that bit alone: GETBIT
    at any offset, inside the string or past its end, then answers the new bit
    there and the old one everywhere else. *)
Theorem setbit_getbit w k key data o v :
  from_utf8 k = Some key -> string_at w key data -> in_i64 o = true -> 0 <= o ->
  exists w', run (handle_setbit [k; print_Z o; print_Z (Z.b2z v)]) w =
      (Ok (RInteger (Z.b2z (bit (bits data) o))), w') /\
    forall i, in_i64 i = true -> 0 <= i ->
      fst (run (handle_getbit [k; print_Z i]) w') =
        Ok (RInteger (Z.b2z (if i =? o then v else bit (bits data) i))).
Proof.
  intros Hk Hd Hi Ho. destruct (apply_setbit_spec data o v Ho) as [Hprev Hbits].
  unfold handle_setbit. rewrite (arg_as_str_utf8 _ _ Hk).
  unfold parse_bit_offset at 1. rewrite !parse_i64_print by (done || by destruct v). cbn [rbind].
  destruct (Z.leb_spec 0 o); [|lia].
  replace (if Z.b2z v =? 0 then Ok false else if Z.b2z v =? 1 then Ok true else Err _) with (Ok v) by (by destruct v).
  rewrite run_bind. unfold setbit. rewrite run_cas. unfold atomic_update. rewrite live_gc. unfold setbit_mod.
  assert (exists exp, string_or_empty key (live w key) = Ok (data, exp) /\
      is_expired (clock_ms w) (mk_entry exp (VString (fst (apply_setbit data o v)))) = false)
    as (exp & -> & Hexp).
  { destruct Hd as [[E ->]|[exp E]]; rewrite E; [by exists None|]. exists exp. split; [done|].
    by apply live_not_expired in E. }
  cbn [rbind]. destruct (apply_setbit data o v) as [out prev]. cbn [fst snd] in *. subst prev.
  eexists. split; [reflexivity|]. intros i Hi2 Hi0.
  rewrite (run_handle_getbit _ k key out) by (try done; right; exists exp; rewrite live_put_eq;
    replace (clock_ms (gc key w)) with (clock_ms w) by (by rewrite clock_gc); by rewrite Hexp).
  by rewrite Hbits.
Qed.

(** ** Examples *)

Definition ab : list byte := [x61; x62].
Definition two_strings : world :=
  world_of [(bs "p", mk_entry None (VString ab)); (bs "q", mk_entry None (VString [x0f]))].

Lemma bitcount_spec_witness :
  fst (run (handle_bitcount [bs "p"; bs "-1"; bs "-1"; bs "BYTE"]) two_strings) = Ok (RInteger 3) /\
  fst (run (handle_bitcount [bs "p"; bs "-1"; bs "-1"; bs "BYTE"]) two_strings) =
    Ok (RInteger (ones (bits (window ab (-1) (-1))))).
Proof.
  split; [reflexivity|].
  exact (proj1 (proj2 (bitcount_spec two_strings (bs "p") (bs "p") ab (-1) (-1) false eq_refl
    (or_intror (ex_intro _ None eq_refl)) eq_refl eq_refl eq_refl))).
Defined.

Lemma bitpos_spec_witness :
  fst (run (handle_bitpos [bs "p"; bs "1"]) two_strings) = Ok (RInteger 1) /\
  exists r, fst (run (handle_bitpos [bs "p"; bs "1"]) two_strings) = Ok (RInteger r) /\ bit (bits ab) r = true.
Proof.
  split; [reflexivity|].
  destruct (bitpos_spec two_strings (bs "p") (bs "p") ab true None None false eq_refl
    (or_intror (ex_intro _ None eq_refl))) as (r & E & H).
  - vm_compute. discriminate.
  - intros s Hs. discriminate Hs.
  - intros s Hs. discriminate Hs.
  - exists r. split; [exact E|]. vm_compute in H. destruct H as [(_ & Hb & _)|[Hc _]]; [exact Hb|].
    specialize (Hc 1). vm_compute in Hc. discriminate Hc; split; [discriminate|reflexivity].
Defined.

Lemma bitop_spec_witness :
  fst (run (handle_bitop [bs "AND"; bs "r"; bs "p"; bs "q"]) two_strings) = Ok (RInteger 2) /\
  exists out w', run (handle_bitop [bs "AND"; bs "r"; bs "p"; bs "q"]) two_strings = (Ok (RInteger (len out)), w') /\
    bitop_bits BitAnd [ab; [x0f]] out.
Proof.
  split; [reflexivity|].
  destruct (bitop_spec two_strings BitAnd (bs "r") (bs "r") [bs "p"; bs "q"] [bs "p"; bs "q"] [ab; [x0f]])
    as (out & w' & E & H & _).
  - reflexivity.
  - repeat constructor.
  - constructor; [right; exists None; reflexivity|]. constructor; [right; exists None; reflexivity|constructor].
  - repeat constructor; vm_compute; discriminate.
  - discriminate.
  - discriminate.
  - exists out, w'. split; [exact E|exact H].
Defined.

Lemma setbit_getbit_witness :
  exists w', run (handle_setbit [bs "p"; bs "20"; bs "1"]) two_strings = (Ok (RInteger 0), w') /\
    fst (run (handle_getbit [bs "p"; bs "20"]) w') = Ok (RInteger 1).
Proof.
  destruct (setbit_getbit two_strings (bs "p") (bs "p") ab 20 true eq_refl
    (or_intror (ex_intro _ None eq_refl)) eq_refl ltac:(discriminate)) as (w' & E & H).
  exists w'. split; [exact E|]. exact (H 20 eq_refl ltac:(discriminate)).
Defined.
