(* ===== verification/Lcs.v ===== *)
(** * Lcs

    LCS (src/commands.rs): the dynamic-programming table, its backtracking into
    a subsequence and into matching runs, and the handler, against the
    definition of a longest common subsequence. *)

From S2P Require Import Prelude.
From S2P Require Import Text.
From S2P Require Import BTree.
From S2P Require Import F64.
From S2P Require Import Stream.
From S2P Require Import Value.
From S2P Require Import Hll.
From S2P Require Import Backend.
From S2P Require Import Contracts.
From S2P Require Import Strings.
From S2P Require Import Resp.
From S2P Require Import Commands.
From S2P Require Import Bits.

(** ** The table

    Indices and lengths are natural numbers: they are bounded by the lengths of
    the two strings. *)

Abbreviation table := (list (list nat)).

Definition dp_get (dp : table) (i j : nat) : nat :=
  match dp !! i with Some row => nth j row 0%nat | None => 0%nat end.
Definition dp_set (dp : table) (i j v : nat) : table := alter (fun row => <[j := v]> row) i dp.

(** [a[i] == b[j]] *)
Definition same_at (a b : list byte) (i j : nat) : bool := bool_decide (nth i a x00 = nth j b x00).

Definition lcs_cell (a b : list byte) (i : nat) (dp : table) (j : nat) : table :=
  dp_set dp (S i) (S j)
    (if same_at a b i j then S (dp_get dp i j)
     else Nat.max (dp_get dp i (S j)) (dp_get dp (S i) j)).
Definition lcs_row (a b : list byte) (dp : table) (i : nat) : table :=
  fold_left (lcs_cell a b i) (List.seq 0 (length b)) dp.
Definition lcs_dp_table (a b : list byte) : table :=
  fold_left (lcs_row a b) (List.seq 0 (length a)) (repeat (repeat 0%nat (S (length b))) (S (length a))).

(** ** Backtracking

    [while i > 0 && j > 0]: every turn lowers [i + j], so [i + j] turns are
    enough. *)

Fixpoint lcs_backtrack (fuel : nat) (a b : list byte) (dp : table) (i j : nat) (out : list byte) : list byte :=
  match fuel, i, j with
  | S fuel, S i', S j' =>
      if same_at a b i' j' then lcs_backtrack fuel a b dp i' j' (out ++ [nth i' a x00])
      else if (dp_get dp (S i') j' <=? dp_get dp i' (S j'))%nat then lcs_backtrack fuel a b dp i' j out
      else lcs_backtrack fuel a b dp i j' out
  | _, _, _ => out
  end.
Definition lcs_sequence (a b : list byte) (dp : table) : list byte :=
  rev (lcs_backtrack (length a + length b) a b dp (length a) (length b) []).

(** [while i > 0 && j > 0 && a[i - 1] == b[j - 1]] *)
Fixpoint run_start (a b : list byte) (i j : nat) : nat * nat :=
  match i, j with
  | S i', S j' => if same_at a b i' j' then run_start a b i' j' else (i, j)
  | _, _ => (i, j)
  end.

(** [(a_lo, a_hi, b_lo, b_hi)] *)
Definition lcs_match : Type := nat * nat * nat * nat.
Definition match_len (m : lcs_match) : nat := let '(a_lo, a_hi, _, _) := m in (a_hi - a_lo + 1)%nat.

Fixpoint lcs_matches_loop (fuel : nat) (a b : list byte) (dp : table) (min_len i j : nat) (out : list lcs_match)
    : list lcs_match :=
  match fuel, i, j with
  | S fuel, S i', S j' =>
      if same_at a b i' j' then
        let '(a_lo, b_lo) := run_start a b i j in
        let out := if (min_len <=? i' - a_lo + 1)%nat then out ++ [(a_lo, i', b_lo, j')] else out in
        lcs_matches_loop fuel a b dp min_len a_lo b_lo out
      else if (dp_get dp (S i') j' <=? dp_get dp i' (S j'))%nat then lcs_matches_loop fuel a b dp min_len i' j out
      else lcs_matches_loop fuel a b dp min_len i j' out
  | _, _, _ => out
  end.
Definition lcs_matches (a b : list byte) (dp : table) (min_len : nat) : list lcs_match :=
  lcs_matches_loop (length a + length b) a b dp min_len (length a) (length b) [].

(** ** The handler *)

Record LcsOpts := { want_len : bool; want_idx : bool; min_match_len : nat; with_match_len : bool }.

Fixpoint parse_lcs_opts (opts : list (list byte)) (o : LcsOpts) : Result LcsOpts :=
  match opts with
  | [] => Ok o
  | w :: rest =>
      let? opt := upper w in
      if str_eqb opt (bs "LEN") then
        parse_lcs_opts rest {| want_len := true; want_idx := want_idx o; min_match_len := min_match_len o;
                               with_match_len := with_match_len o |}
      else if str_eqb opt (bs "IDX") then
        parse_lcs_opts rest {| want_len := want_len o; want_idx := true; min_match_len := min_match_len o;
                               with_match_len := with_match_len o |}
      else if str_eqb opt (bs "MINMATCHLEN") then
        match rest with
        | [] => Err syntax_err
        | v :: rest =>
            let? n := parse_i64 v (bs "MINMATCHLEN") in
            parse_lcs_opts rest {| want_len := want_len o; want_idx := want_idx o;
                                   min_match_len := Z.to_nat (Z.max n 0); with_match_len := with_match_len o |}
        end
      else if str_eqb opt (bs "WITHMATCHLEN") then
        parse_lcs_opts rest {| want_len := want_len o; want_idx := want_idx o; min_match_len := min_match_len o;
                               with_match_len := true |}
      else Err syntax_err
  end.

Definition check_lcs_opts (o : LcsOpts) : Result unit :=
  if want_len o && want_idx o then
    Err (Parse "If you want both the length and indexes, please just use IDX.")
  else if negb (want_idx o) && ((0 <? min_match_len o)%nat || with_match_len o) then Err syntax_err
  else Ok tt.

Definition nat_reply (n : nat) : RespReply := RInteger (i64_of_usize (Z.of_nat n)).

Definition lcs_match_reply (with_len : bool) (m : lcs_match) : RespReply :=
  let '(a_lo, a_hi, b_lo, b_hi) := m in
  RArray ([RArray [nat_reply a_lo; nat_reply a_hi]; RArray [nat_reply b_lo; nat_reply b_hi]] ++
          (if with_len then [nat_reply (match_len m)] else [])).

Definition total_len (ms : list lcs_match) : nat := fold_right (fun m n => (match_len m + n)%nat) 0%nat ms.

Definition lcs_reply (a b : list byte) (o : LcsOpts) : RespReply :=
  let dp := lcs_dp_table a b in
  if want_len o then nat_reply (dp_get dp (length a) (length b))
  else if want_idx o then
    let matches := lcs_matches a b dp (min_match_len o) in
    RArray [bulk (bs "matches"); RArray (map (lcs_match_reply (with_match_len o)) matches);
            bulk (bs "len"); nat_reply (total_len matches)]
  else bulk (lcs_sequence a b dp).

Definition bytes_or_empty (o : option (list byte)) : list byte := match o with Some b => b | None => [] end.

Definition handle_lcs (args : list (list byte)) : handler :=
  match args with
  | x :: y :: opts =>
      let# key_a := arg_as_str x in
      let# key_b := arg_as_str y in
      let# o := parse_lcs_opts opts {| want_len := false; want_idx := false; min_match_len := 0; with_match_len := false |} in
      let# _ := check_lcs_opts o in
      let!? a := get_string key_a in
      let!? b := get_string key_b in
      Ret (Ok (lcs_reply (bytes_or_empty a) (bytes_or_empty b) o))
  | _ => wrong_arity "LCS"
  end.

(** The example of Redis's documentation. *)
Example lcs_example :
  lcs_sequence (bs "ohmytext") (bs "mynewtext") (lcs_dp_table (bs "ohmytext") (bs "mynewtext")) = bs "mytext".
Proof. by vm_compute. Qed.
Example lcs_matches_example :
  lcs_matches (bs "ohmytext") (bs "mynewtext") (lcs_dp_table (bs "ohmytext") (bs "mynewtext")) 0 =
    [(4, 7, 5, 8); (2, 3, 0, 1)]%nat.
Proof. by vm_compute. Qed.

(** ** The table holds the lengths of longest common subsequences *)

Section lcs.
Variables a b : list byte.
Abbreviation n := (length a).
Abbreviation m := (length b).

(** The recurrence. *)
Fixpoint lcs_len (i : nat) : nat -> nat :=
  match i with
  | O => fun _ => 0%nat
  | S i' => fix go (j : nat) : nat :=
      match j with
      | O => 0%nat
      | S j' => if same_at a b i' j' then S (lcs_len i' j') else Nat.max (lcs_len i' j) (go j')
      end
  end.

Lemma lcs_len_0_r i : lcs_len i 0 = 0%nat.
Proof. by destruct i. Qed.
Lemma lcs_len_SS i j :
  lcs_len (S i) (S j) =
    if same_at a b i j then S (lcs_len i j) else Nat.max (lcs_len i (S j)) (lcs_len (S i) j).
Proof. done. Qed.

Definition table_shape (dp : table) : Prop := length dp = S n /\ Forall (fun row => length row = S m) dp.

Lemma dp_get_set dp i j v i' j' :
  table_shape dp -> (i <= n)%nat -> (j <= m)%nat ->
  dp_get (dp_set dp i j v) i' j' = if decide (i' = i /\ j' = j) then v else dp_get dp i' j'.
Proof.
  intros [Hl Hr] Hi Hj. unfold dp_get, dp_set.
  destruct (lookup_lt_is_Some_2 dp i) as [row Hrow]; [lia|].
  pose proof (proj1 (Forall_lookup _ _) Hr _ _ Hrow) as Hlen. cbn in Hlen.
  destruct (decide (i' = i)) as [->|Hne].
  - rewrite list_lookup_alter_eq, Hrow. cbn. rewrite !nth_lookup.
    destruct (decide (j' = j)) as [->|Hne].
    + rewrite decide_True by done. by rewrite list_lookup_insert_eq by lia.
    + rewrite decide_False by naive_solver. by rewrite list_lookup_insert_ne.
  - rewrite decide_False by naive_solver. by rewrite list_lookup_alter_ne.
Qed.

Lemma dp_set_shape dp i j v : table_shape dp -> table_shape (dp_set dp i j v).
Proof.
  intros [Hl Hr]. split; [by unfold dp_set; rewrite length_alter|].
  apply Forall_alter; [done|]. intros row Hrow Hlen. by rewrite length_insert.
Qed.

(** The cells filled after [i] full rows and [j] cells of the next. *)
Definition filled (i j : nat) (dp : table) : Prop :=
  table_shape dp /\ forall i' j', (i' <= n)%nat -> (j' <= m)%nat ->
    dp_get dp i' j' = if decide (i' <= i \/ i' = S i /\ j' <= j)%nat then lcs_len i' j' else 0%nat.

Lemma lookup_repeat {A} (x : A) k i : (i < k)%nat -> repeat x k !! i = Some x.
Proof. revert i. induction k as [|k IH]; intros [|i] Hi; cbn; [lia..|done|]. apply IH. lia. Qed.

Lemma filled_start : filled 0 0 (repeat (repeat 0%nat (S m)) (S n)).
Proof.
  split.
  - split; [apply repeat_length|]. apply Forall_forall. intros row Hrow.
    apply list_elem_of_In, repeat_spec in Hrow as ->. apply repeat_length.
  - intros i j Hi Hj. unfold dp_get.
    assert (Hr : repeat (repeat 0%nat (S m)) (S n) !! i = Some (repeat 0%nat (S m))).
    { apply lookup_repeat. lia. }
    rewrite Hr, nth_repeat.
    destruct (decide _) as [[?|[-> ?]]|]; [|by replace j with 0%nat by lia|done].
    by replace i with 0%nat by lia.
Qed.

Lemma filled_cell i j dp : (i < n)%nat -> (j < m)%nat -> filled i j dp -> filled i (S j) (lcs_cell a b i dp j).
Proof.
  intros Hi Hj [Hs Hd]. split; [by apply dp_set_shape|]. intros i' j' Hi' Hj'. unfold lcs_cell.
  rewrite dp_get_set by (done || lia). rewrite (Hd i j), (Hd i (S j)), (Hd (S i) j), (Hd i' j') by lia.
  do 3 rewrite (decide_True (P := ((_ <= i)%nat \/ _))) by lia. rewrite <- lcs_len_SS.
  destruct (decide (i' = S i /\ j' = S j)) as [[-> ->]|Hne]; [by rewrite decide_True by lia|].
  destruct (decide (i' <= i \/ i' = S i /\ j' <= j)%nat); [by rewrite decide_True by lia|].
  by rewrite decide_False by lia.
Qed.

Lemma filled_row i dp : (i < n)%nat -> filled i 0 dp -> filled (S i) 0 (lcs_row a b dp i).
Proof.
  intros Hi Hf. assert (G : forall k, (k <= m)%nat -> filled i k (fold_left (lcs_cell a b i) (List.seq 0 k) dp)).
  { induction k as [|k IH]; intros Hk; [done|]. rewrite seq_S, fold_left_app. apply filled_cell; [done|lia|].
    apply IH. lia. }
  destruct (G m (le_n m)) as [Hs Hd]. split; [exact Hs|]. intros i' j' Hi' Hj'. unfold lcs_row. rewrite Hd by done.
  destruct (decide (i' <= i \/ i' = S i /\ j' <= m)%nat).
  - by rewrite decide_True by lia.
  - destruct (decide _) as [[?|[-> ?]]|]; [lia| |done]. by replace j' with 0%nat by lia.
Qed.

Lemma lcs_dp_table_len i j :
  (i <= n)%nat -> (j <= m)%nat -> dp_get (lcs_dp_table a b) i j = lcs_len i j.
Proof.
  assert (G : forall k, (k <= n)%nat ->
            filled k 0 (fold_left (lcs_row a b) (List.seq 0 k) (repeat (repeat 0%nat (S m)) (S n)))).
  { induction k as [|k IH]; intros Hk; [apply filled_start|]. rewrite seq_S, fold_left_app.
    apply filled_row; [done|]. apply IH. lia. }
  intros Hi Hj. destruct (G n (le_n n)) as [_ Hd]. unfold lcs_dp_table. rewrite Hd by done.
  by rewrite decide_True by lia.
Qed.

(** ** Common subsequences *)

Definition common (s : list byte) (i j : nat) : Prop := sublist s (take i a) /\ sublist s (take j b).

Lemma sublist_snoc_inv (s l : list byte) y x :
  sublist (s ++ [y]) (l ++ [x]) -> sublist s l /\ (y <> x -> sublist (s ++ [y]) l).
Proof.
  intros (l1 & l2 & E & H1 & H2)%sublist_app_r.
  apply sublist_cons_r in H2 as [->%sublist_nil_r|(l' & -> & ->%sublist_nil_r)].
  - rewrite app_nil_r in E. subst l1. split; [|done]. apply sublist_app_l in H1 as (k1 & k2 & -> & H1 & H2).
    by apply sublist_inserts_r.
  - apply app_inj_tail in E as [<- <-]. by split.
Qed.

Lemma take_S_nth (l : list byte) i : (i < length l)%nat -> take (S i) l = take i l ++ [nth i l x00].
Proof.
  intros Hi. destruct (lookup_lt_is_Some_2 l i Hi) as [x Hx]. rewrite (take_S_r _ _ x Hx).
  by rewrite (nth_lookup_Some _ _ _ _ Hx).
Qed.

Lemma common_le s i j : (i <= n)%nat -> (j <= m)%nat -> common s i j -> (length s <= lcs_len i j)%nat.
Proof.
  revert s j. induction i as [|i IHi]; intros s j Hi Hj [Ha Hb].
  { apply sublist_nil_r in Ha as ->. cbn. lia. }
  induction j as [|j IHj] in s, Hj, Ha, Hb |- *; [by apply sublist_nil_r in Hb as ->|].
  rewrite lcs_len_SS. destruct s as [|y s _] using rev_ind; [cbn; lia|].
  rewrite take_S_nth in Ha by lia. pose proof Hb as Hb'. rewrite take_S_nth in Hb' by lia.
  apply sublist_snoc_inv in Ha as [Ha Hay]. pose proof Hb' as Hb0. apply sublist_snoc_inv in Hb' as [Hb1 Hby].
  unfold same_at. destruct (bool_decide_reflect (nth i a x00 = nth j b x00)) as [E|E].
  - rewrite length_app. cbn. pose proof (IHi s j ltac:(lia) ltac:(lia) (conj Ha Hb1)). lia.
  - destruct (decide (y = nth i a x00)) as [->|Hy].
    + pose proof (IHj (s ++ [nth i a x00]) ltac:(lia)) as H. rewrite take_S_nth in H by lia.
      specialize (H ltac:(by apply sublist_app) (Hby E)). rewrite length_app in H |- *. lia.
    + pose proof (IHi (s ++ [y]) (S j) ltac:(lia) Hj (conj (Hay Hy) Hb)). lia.
Qed.

Lemma common_weaken s i j i' j' : (i <= i')%nat -> (j <= j')%nat -> common s i j -> common s i' j'.
Proof.
  intros Hi Hj [Ha Hb]. split.
  - etrans; [exact Ha|]. rewrite <- (Nat.min_l i i') by lia. rewrite <- take_take. apply sublist_take.
  - etrans; [exact Hb|]. rewrite <- (Nat.min_l j j') by lia. rewrite <- take_take. apply sublist_take.
Qed.

Lemma common_snoc s i j :
  (i < n)%nat -> (j < m)%nat -> same_at a b i j = true -> common s i j -> common (s ++ [nth i a x00]) (S i) (S j).
Proof.
  intros Hi Hj E%bool_decide_eq_true [Ha Hb]. split; rewrite take_S_nth by lia.
  - by apply sublist_app.
  - rewrite E. by apply sublist_app.
Qed.

Lemma lcs_backtrack_spec fuel i j out :
  (i + j <= fuel)%nat -> (i <= n)%nat -> (j <= m)%nat ->
  exists s, lcs_backtrack fuel a b (lcs_dp_table a b) i j out = out ++ rev s /\
    common s i j /\ length s = lcs_len i j.
Proof.
  assert (Hnil : forall i j, common [] i j) by (split; apply sublist_nil_l).
  revert i j out. induction fuel as [|fuel IH]; intros i j out Hf Hi Hj.
  { exists []. cbn. rewrite app_nil_r. replace i with 0%nat by lia. by split_and!. }
  destruct i as [|i]; [exists []; cbn; rewrite app_nil_r; by split_and!|].
  destruct j as [|j]; [exists []; cbn; rewrite app_nil_r; by split_and!|].
  cbn [lcs_backtrack]. rewrite !lcs_dp_table_len by lia. rewrite lcs_len_SS. destruct (same_at a b i j) eqn:E.
  - destruct (IH i j (out ++ [nth i a x00])) as (s & -> & Hc & Hl); [lia..|].
    exists (s ++ [nth i a x00]). rewrite rev_unit, <- app_assoc, length_app, Hl. cbn.
    split_and!; [done|by apply common_snoc|lia].
  - destruct (Nat.leb_spec (lcs_len (S i) j) (lcs_len i (S j))).
    + destruct (IH i (S j) out) as (s & -> & Hc & Hl); [lia..|]. exists s.
      split_and!; [done|by eapply common_weaken; [..|exact Hc]; lia|lia].
    + destruct (IH (S i) j out) as (s & -> & Hc & Hl); [lia..|]. exists s.
      split_and!; [done|by eapply common_weaken; [..|exact Hc]; lia|lia].
Qed.

(** ** Matching runs *)

(** A run of equal bytes inside [a[..i]] and [b[..j]]. *)
Definition run_in (i j : nat) (r : lcs_match) : Prop :=
  let '(a_lo, a_hi, b_lo, b_hi) := r in
  (a_lo <= a_hi < i)%nat /\ (b_lo <= b_hi < j)%nat /\ (a_hi - a_lo = b_hi - b_lo)%nat /\
  forall t, (t <= a_hi - a_lo)%nat -> nth (a_lo + t) a x00 = nth (b_lo + t) b x00.

(** Runs from the end towards the start, apart from one another in both strings. *)
Fixpoint runs_down (i j : nat) (ms : list lcs_match) : Prop :=
  match ms with
  | [] => True
  | r :: ms => run_in i j r /\ let '(a_lo, _, b_lo, _) := r in runs_down a_lo b_lo ms
  end.

Lemma run_start_spec i j :
  let '(a_lo, b_lo) := run_start a b i j in
  exists k, (i = a_lo + k)%nat /\ (j = b_lo + k)%nat /\ lcs_len i j = (lcs_len a_lo b_lo + k)%nat /\
    (forall t, (t < k)%nat -> nth (a_lo + t) a x00 = nth (b_lo + t) b x00) /\
    (forall i' j', i = S i' -> j = S j' -> same_at a b i' j' = true -> (0 < k)%nat).
Proof.
  revert j. induction i as [|i IH]; intros j; cbn [run_start].
  { exists 0%nat. split_and!; first [lia | intros; lia]. }
  destruct j as [|j]; [exists 0%nat; split_and!; first [lia | intros; lia]|].
  destruct (same_at a b i j) eqn:E.
  - specialize (IH j). destruct (run_start a b i j) as [a_lo b_lo]. destruct IH as (k & -> & -> & Hl & He & _).
    exists (S k). split_and!; [lia|lia| | |lia].
    + rewrite lcs_len_SS, E, Hl. lia.
    + intros t Ht. destruct (decide (t = k)) as [->|]; [by apply bool_decide_eq_true in E|]. apply He. lia.
  - exists 0%nat. split_and!; [lia|lia|lia|intros; lia|]. intros i' j' [= <-] [= <-]. by rewrite E.
Qed.

Lemma lcs_matches_loop_spec fuel i j :
  (i + j <= fuel)%nat -> (i <= n)%nat -> (j <= m)%nat ->
  exists ms, runs_down i j ms /\ total_len ms = lcs_len i j /\
    forall min_len out, lcs_matches_loop fuel a b (lcs_dp_table a b) min_len i j out =
      out ++ List.filter (fun r => (min_len <=? match_len r)%nat) ms.
Proof.
  assert (Hnil : forall out : list lcs_match, out = out ++ []) by (intros; by rewrite app_nil_r).
  revert i j. induction fuel as [|fuel IH]; intros i j Hf Hi Hj.
  { exists []. by replace i with 0%nat by lia. }
  destruct i as [|i]; [by exists []|]. destruct j as [|j]; [by exists []|].
  destruct (same_at a b i j) eqn:E.
  - pose proof (run_start_spec (S i) (S j)) as Hr. destruct (run_start a b (S i) (S j)) as [a_lo b_lo] eqn:Er.
    destruct Hr as (k & Hik & Hjk & Hl & He & Hk). specialize (Hk i j eq_refl eq_refl E).
    destruct (IH a_lo b_lo) as (ms & Hd & Ht & Hloop); [lia..|].
    exists ((a_lo, i, b_lo, j) :: ms). split_and!.
    + split; [|exact Hd]. split_and!; [lia..|]. intros t Htk. apply He. lia.
    + cbn [total_len fold_right match_len]. fold (total_len ms). rewrite Ht, Hl. lia.
    + intros min_len out. cbn [lcs_matches_loop]. rewrite E, Er, Hloop. cbn [List.filter match_len].
      by destruct (min_len <=? i - a_lo + 1)%nat; rewrite <- ?app_assoc.
  - destruct (Nat.leb_spec (lcs_len (S i) j) (lcs_len i (S j))) as [Hle|Hle].
    + destruct (IH i (S j)) as (ms & Hd & Ht & Hloop); [lia..|]. exists ms. split_and!.
      * destruct ms as [|[[[? ?] ?] ?] ms]; [done|]. destruct Hd as [(? & ? & ? & ?) Hd]. split; [|done]. split_and!; [lia..|done].
      * rewrite lcs_len_SS, E. lia.
      * intros min_len out. cbn [lcs_matches_loop]. rewrite !lcs_dp_table_len by lia.
        by rewrite E, (proj2 (Nat.leb_le _ _) Hle).
    + destruct (IH (S i) j) as (ms & Hd & Ht & Hloop); [lia..|]. exists ms. split_and!.
      * destruct ms as [|[[[? ?] ?] ?] ms]; [done|]. destruct Hd as [(? & ? & ? & ?) Hd]. split; [|done]. split_and!; [lia..|done].
      * rewrite lcs_len_SS, E. lia.
      * intros min_len out. cbn [lcs_matches_loop]. rewrite !lcs_dp_table_len by lia.
        by rewrite E, (proj2 (Nat.leb_gt _ _) Hle).
Qed.
End lcs.

(** [s] is a longest common subsequence of [a] and [b]. *)
Definition longest_common (a b s : list byte) : Prop :=
  sublist s a /\ sublist s b /\ forall s', sublist s' a -> sublist s' b -> (length s' <= length s)%nat.

Lemma run_handle_lcs k1 k2 key1 key2 a b o opts w :
  from_utf8 k1 = Some key1 -> from_utf8 k2 = Some key2 -> string_at w key1 a -> string_at w key2 b ->
  parse_lcs_opts opts {| want_len := false; want_idx := false; min_match_len := 0; with_match_len := false |} = Ok o ->
  check_lcs_opts o = Ok tt ->
  fst (run (handle_lcs (k1 :: k2 :: opts)) w) = Ok (lcs_reply a b o).
Proof.
  intros H1 H2 Ha Hb Ho Hc. unfold handle_lcs. rewrite (arg_as_str_utf8 _ _ H1), (arg_as_str_utf8 _ _ H2), Ho, Hc.
  rewrite run_bind, run_get_string. eapply (string_at_live _ (gc key1 w)) in Hb; [|intros; apply live_gc_any].
  destruct Ha as [[-> ->]|[exp ->]]; cbn [mk_entry]; rewrite run_bind, run_get_string;
    by destruct Hb as [[-> ->]|[exp' ->]].
Qed.

(** C18: LCS answers a longest common subsequence.  On two keys that hold
    strings, or nothing, the reply is a common subsequence that no other exceeds in
    length; LEN answers that length; and IDX answers matching runs, apart from one
    another and in order in both strings, whose lengths add up to it, or those of
    them that MINMATCHLEN keeps. *)
Theorem lcs_spec k1 k2 key1 key2 a b w :
  from_utf8 k1 = Some key1 -> from_utf8 k2 = Some key2 -> string_at w key1 a -> string_at w key2 b ->
  exists s ms, longest_common a b s /\
    fst (run (handle_lcs [k1; k2]) w) = Ok (bulk s) /\
    fst (run (handle_lcs [k1; k2; bs "LEN"]) w) = Ok (nat_reply (length s)) /\
    runs_down a b (length a) (length b) ms /\ total_len ms = length s /\
    forall min_len, in_i64 min_len = true ->
      let kept := List.filter (fun r => (Z.to_nat min_len <=? match_len r)%nat) ms in
      fst (run (handle_lcs [k1; k2; bs "IDX"; bs "MINMATCHLEN"; print_Z min_len]) w) =
        Ok (RArray [bulk (bs "matches"); RArray (map (lcs_match_reply false) kept);
                    bulk (bs "len"); nat_reply (total_len kept)]).
Proof.
  intros H1 H2 Ha Hb.
  destruct (lcs_backtrack_spec a b (length a + length b) (length a) (length b) []) as (s & Hs & [Hsa Hsb] & Hl); [lia..|].
  rewrite !firstn_all in Hsa, Hsb.
  destruct (lcs_matches_loop_spec a b (length a + length b) (length a) (length b)) as (ms & Hd & Ht & Hm); [lia..|].
  exists s, ms. split_and!.
  - split_and!; [done..|]. intros s' H1' H2'. rewrite Hl. apply common_le; [lia..|]. by split; rewrite firstn_all.
  - erewrite run_handle_lcs by done. unfold lcs_reply, lcs_sequence. cbn [want_len want_idx].
    rewrite Hs. cbn [app]. by rewrite rev_involutive.
  - erewrite run_handle_lcs by done. unfold lcs_reply. cbn [want_len]. by rewrite lcs_dp_table_len, Hl by lia.
  - done.
  - by rewrite Ht, Hl.
  - intros min_len Hmin kept.
    erewrite run_handle_lcs with (o := {| want_len := false; want_idx := true; min_match_len := Z.to_nat (Z.max min_len 0);
        with_match_len := false |}); [|done..| |done].
    + unfold lcs_reply. cbn [want_len want_idx min_match_len with_match_len]. unfold lcs_matches. rewrite Hm. cbn [app].
      replace (Z.to_nat (Z.max min_len 0)) with (Z.to_nat min_len) by lia. done.
    + cbn [parse_lcs_opts]. change (upper (bs "IDX")) with (Ok (bs "IDX")). cbn [rbind].
      change (upper (bs "MINMATCHLEN")) with (Ok (bs "MINMATCHLEN")). cbn [rbind]. by rewrite parse_i64_print.
Qed.

Lemma lcs_spec_witness :
  let w := put (bs "x") (mk_entry None (VString (bs "ohmytext"))) (put (bs "y") (mk_entry None (VString (bs "mynewtext"))) empty_world) in
  exists s, longest_common (bs "ohmytext") (bs "mynewtext") s /\
    fst (run (handle_lcs [bs "x"; bs "y"]) w) = Ok (bulk s).
Proof.
  intros w. destruct (lcs_spec (bs "x") (bs "y") (bs "x") (bs "y") (bs "ohmytext") (bs "mynewtext") w) as (s & ms & Hl & Hr & _).
  - done.
  - done.
  - right. exists None. by vm_compute.
  - right. exists None. by vm_compute.
  - by exists s.
Defined.

(** IDX's [len] is the sum of the runs MINMATCHLEN keeps: 4 here, where the
    longest common subsequence has length 6. *)
Example lcs_idx_len_counts_kept :
  total_len (lcs_matches (bs "ohmytext") (bs "mynewtext") (lcs_dp_table (bs "ohmytext") (bs "mynewtext")) 4) = 4%nat /\
  dp_get (lcs_dp_table (bs "ohmytext") (bs "mynewtext")) 8 9 = 6%nat.
Proof. by vm_compute. Qed.
