(* ===== verification/Dispatch.v ===== *)
(** * Dispatch

    src/commands.rs [run] and [dispatch]: from the argument vector of a request
    to its reply, through the table of commands; and src/error.rs's texts. *)

From S2P Require Import Prelude.
From S2P Require Import Text.
From S2P Require Import BTree.
From S2P Require Import F64.
From S2P Require Import Stream.
From S2P Require Import Value.
From S2P Require Import Hll.
From S2P Require Import ZSets.
From S2P Require Import Backend.
From S2P Require Import Resp.
From S2P Require Import Commands.
From S2P Require Import CmdStrings.
From S2P Require Import CmdKeys.
From S2P Require Import CmdCollections.
From S2P Require Import CmdZSets.
From S2P Require Import CmdStreams.
From S2P Require Import CmdServer.
From S2P Require Import CmdGeo.
From S2P Require Import Bits.
From S2P Require Import Lcs.

(** ** What the handlers take from outside

    Glob matching, the elementary functions, the iteration order of a
    [HashMap], [serde_json::to_vec], the process, and the fuel of the walks over
    the whole keyspace. *)
Record Env := {
  matches : Str -> Str -> bool;
  fuel : nat;
  ln : f64 -> f64;
  sin : f64 -> f64;
  cos : f64 -> f64;
  atan2 : f64 -> f64 -> f64;
  into_iter : gmap Str f64 -> list zentry;
  to_vec : Value -> Result (list byte);
  process_id : Z;
  started_at_ms : Z;
}.

(** ** The text of an error *)

Definition display_error (e : RustyAntError) : Str :=
  match e with
  | Config m => bs "config: " ++ bs m
  | RespParse m => bs "resp parse: " ++ bs m
  | UnknownCommand m => bs "unknown command: " ++ bs m
  | WrongArity command => bs "wrong number of arguments for '" ++ bs command ++ bs "'"
  | WrongType key => bs "wrong type for key '" ++ key ++ bs "'"
  | Parse m => bs "parse: " ++ bs m
  | S3 m => bs "s3: " ++ bs m
  | Contention => bs "too much contention on key — retries exhausted"
  | Io m => bs "io: " ++ bs m
  | Serde m => bs "serde: " ++ bs m
  end.

(** ** The outcome of the log line *)

Inductive Outcome :=
| OOk | OUnknownCommand | OWrongArity | OWrongType | OParse | ORespParse | OContention | OS3 | OConfig | OIo | OSerde.

Definition Outcome_as_str (o : Outcome) : Str :=
  match o with
  | OOk => bs "ok"
  | OUnknownCommand => bs "unknown_command"
  | OWrongArity => bs "wrong_arity"
  | OWrongType => bs "wrong_type"
  | OParse => bs "parse"
  | ORespParse => bs "resp_parse"
  | OContention => bs "contention"
  | OS3 => bs "s3"
  | OConfig => bs "config"
  | OIo => bs "io"
  | OSerde => bs "serde"
  end.

Definition classify (result : Result RespReply) : Outcome :=
  match result with
  | Ok _ => OOk
  | Err (UnknownCommand _) => OUnknownCommand
  | Err (WrongArity _) => OWrongArity
  | Err (WrongType _) => OWrongType
  | Err (Parse _) => OParse
  | Err (RespParse _) => ORespParse
  | Err Contention => OContention
  | Err (S3 _) => OS3
  | Err (Config _) => OConfig
  | Err (Io _) => OIo
  | Err (Serde _) => OSerde
  end.

(** ** The arms of [run] *)

Definition pure (f : list (list byte) -> Result RespReply) (args : list (list byte)) : partial_handler :=
  Ret (Some (f args)).
Definition full (f : list (list byte) -> handler) (args : list (list byte)) : partial_handler := total (f args).

Definition inline_arity (command : string) (reply : RespReply) (args : list (list byte)) : Result RespReply :=
  let? _ := arity command (len args =? 0) in Ok reply.
Arguments inline_arity command%_string_scope.

Definition run_incrby (args : list (list byte)) : handler :=
  let# delta := parse_delta args in handle_incrby args delta.
Definition run_decrby (args : list (list byte)) : handler :=
  let# delta := parse_delta args in
  let# neg := ok_or (checked_neg_i64 delta) (Parse "decrement overflow") in
  handle_incrby args neg.

Definition command_table (env : Env) : list (Str * (list (list byte) -> partial_handler)) :=
  [
   (bs "PING", pure (fun _ => Ok (RSimpleString (bs "PONG"))));
   (bs "ECHO", pure handle_echo);
   (bs "TIME", full handle_time);
   (bs "INFO", handle_info (fuel env) (process_id env) (started_at_ms env));
   (bs "COMMAND", pure handle_command);
   (bs "CONFIG", pure (handle_config (matches env)));
   (bs "HELLO", pure handle_hello);
   (bs "CLIENT", pure handle_client);
   (bs "OBJECT", full handle_object);
   (bs "RESET", pure (fun _ => Ok (RSimpleString (bs "RESET"))));
   (bs "QUIT", pure (inline_arity "QUIT" reply_ok));
   (bs "SELECT", pure handle_select);
   (bs "AUTH", pure handle_auth);
   (bs "WAIT", pure handle_wait);
   (bs "SAVE", pure (inline_arity "SAVE" reply_ok));
   (bs "BGSAVE", pure handle_bgsave);
   (bs "BGREWRITEAOF", pure (inline_arity "BGREWRITEAOF" (RSimpleString (bs "Background append only file rewriting started"))));
   (bs "LASTSAVE", pure (inline_arity "LASTSAVE" (RInteger (Z.quot (started_at_ms env) 1000))));
   (bs "LATENCY", pure handle_latency);
   (bs "MEMORY", full (handle_memory (to_vec env)));
   (bs "DEBUG", full handle_debug);
   (bs "MULTI", pure handle_multi);
   (bs "EXEC", pure handle_exec);
   (bs "DISCARD", pure handle_discard);
   (bs "WATCH", pure handle_watch);
   (bs "UNWATCH", pure handle_unwatch);
   (bs "SUBSCRIBE", pure handle_subscribe);
   (bs "PSUBSCRIBE", pure handle_psubscribe);
   (bs "UNSUBSCRIBE", pure handle_unsubscribe);
   (bs "PUNSUBSCRIBE", pure handle_punsubscribe);
   (bs "PUBLISH", pure handle_publish);
   (bs "PUBSUB", pure handle_pubsub);
   (bs "GEOADD", full handle_geoadd);
   (bs "GEOPOS", full handle_geopos);
   (bs "GEODIST", full (handle_geodist (sin env) (cos env) (atan2 env)));
   (bs "GEOHASH", full handle_geohash);
   (bs "GEOSEARCH", full (handle_geosearch (sin env) (cos env) (atan2 env)));
   (bs "GEOSEARCHSTORE", full (handle_geosearchstore (sin env) (cos env) (atan2 env)));
   (bs "DBSIZE", handle_dbsize (fuel env));
   (bs "FLUSHDB", full (fun args => handle_flushall args (bs "FLUSHDB")));
   (bs "FLUSHALL", full (fun args => handle_flushall args (bs "FLUSHALL")));
   (bs "RANDOMKEY", handle_randomkey (matches env) (fuel env));
   (bs "DEL", full handle_del);
   (bs "UNLINK", full handle_del);
   (bs "COPY", full handle_copy);
   (bs "DUMP", full handle_dump);
   (bs "RESTORE", handle_restore);
   (bs "GETBIT", full handle_getbit);
   (bs "SETBIT", full handle_setbit);
   (bs "BITCOUNT", full handle_bitcount);
   (bs "BITPOS", full handle_bitpos);
   (bs "BITOP", full handle_bitop);
   (bs "PFADD", full handle_pfadd);
   (bs "PFCOUNT", full (handle_pfcount (ln env)));
   (bs "PFMERGE", full handle_pfmerge);
   (bs "GET", full handle_get);
   (bs "GETEX", full handle_getex);
   (bs "GETSET", full handle_getset);
   (bs "GETDEL", full handle_getdel);
   (bs "GETRANGE", full handle_getrange);
   (bs "SETRANGE", full handle_setrange);
   (bs "STRLEN", full handle_strlen);
   (bs "LCS", full handle_lcs);
   (bs "APPEND", full handle_append);
   (bs "SET", full handle_set);
   (bs "SETNX", full handle_setnx);
   (bs "SETEX", full handle_setex);
   (bs "MGET", full handle_mget);
   (bs "MSET", full handle_mset);
   (bs "MSETNX", full handle_msetnx);
   (bs "EXISTS", full handle_exists);
   (bs "TOUCH", full handle_touch);
   (bs "EXPIRE", full handle_expire);
   (bs "EXPIREAT", full handle_expireat);
   (bs "PEXPIRE", full handle_pexpire);
   (bs "PEXPIREAT", full handle_pexpireat);
   (bs "PERSIST", full handle_persist);
   (bs "TTL", full handle_ttl);
   (bs "PTTL", full handle_pttl);
   (bs "EXPIRETIME", full handle_expiretime);
   (bs "PEXPIRETIME", full handle_pexpiretime);
   (bs "RENAME", full handle_rename);
   (bs "RENAMENX", full handle_renamenx);
   (bs "KEYS", handle_keys (matches env) (fuel env));
   (bs "SCAN", full (handle_scan (matches env)));
   (bs "TYPE", full handle_type);
   (bs "INCR", full (fun args => handle_incrby args 1));
   (bs "INCRBY", full run_incrby);
   (bs "INCRBYFLOAT", full handle_incrbyfloat);
   (bs "DECR", full (fun args => handle_incrby args (-1)));
   (bs "DECRBY", full run_decrby);
   (bs "HSET", full handle_hset);
   (bs "HSETNX", full handle_hsetnx);
   (bs "HGET", full handle_hget);
   (bs "HDEL", full handle_hdel);
   (bs "HGETALL", full handle_hgetall);
   (bs "HLEN", full handle_hlen);
   (bs "HKEYS", full handle_hkeys);
   (bs "HVALS", full handle_hvals);
   (bs "HEXISTS", full handle_hexists);
   (bs "HSTRLEN", full handle_hstrlen);
   (bs "HMGET", full handle_hmget);
   (bs "HINCRBY", full handle_hincrby);
   (bs "HINCRBYFLOAT", full handle_hincrbyfloat);
   (bs "HRANDFIELD", full handle_hrandfield);
   (bs "HSCAN", full (handle_hscan (matches env)));
   (bs "LPUSH", full (fun args => handle_push args true));
   (bs "RPUSH", full (fun args => handle_push args false));
   (bs "LPUSHX", full (fun args => handle_pushx args true));
   (bs "RPUSHX", full (fun args => handle_pushx args false));
   (bs "LPOP", full (fun args => handle_pop args true));
   (bs "RPOP", full (fun args => handle_pop args false));
   (bs "LRANGE", full handle_lrange);
   (bs "LLEN", full handle_llen);
   (bs "LINDEX", full handle_lindex);
   (bs "LSET", full handle_lset);
   (bs "LREM", full handle_lrem);
   (bs "LINSERT", full handle_linsert);
   (bs "LTRIM", full handle_ltrim);
   (bs "LMOVE", full handle_lmove);
   (bs "RPOPLPUSH", full handle_rpoplpush);
   (bs "LPOS", full handle_lpos);
   (bs "SADD", full handle_sadd);
   (bs "SREM", full handle_srem);
   (bs "SMEMBERS", full handle_smembers);
   (bs "SISMEMBER", full handle_sismember);
   (bs "SMISMEMBER", full handle_smismember);
   (bs "SCARD", full handle_scard);
   (bs "SINTER", full handle_sinter);
   (bs "SUNION", full handle_sunion);
   (bs "SDIFF", full handle_sdiff);
   (bs "SINTERCARD", full handle_sintercard);
   (bs "SINTERSTORE", full (fun args => handle_sstore args SetInter));
   (bs "SUNIONSTORE", full (fun args => handle_sstore args SetUnion));
   (bs "SDIFFSTORE", full (fun args => handle_sstore args SetDiff));
   (bs "SMOVE", full handle_smove);
   (bs "SPOP", full handle_spop);
   (bs "SRANDMEMBER", full handle_srandmember);
   (bs "SSCAN", full (handle_sscan (matches env)));
   (bs "ZADD", full handle_zadd);
   (bs "ZINTER", full (handle_zinter (into_iter env)));
   (bs "ZUNION", full (handle_zunion (into_iter env)));
   (bs "ZDIFF", full (handle_zdiff (into_iter env)));
   (bs "ZINTERCARD", full (handle_zintercard (into_iter env)));
   (bs "ZINTERSTORE", full (fun args => handle_zstore (into_iter env) args ZInter));
   (bs "ZUNIONSTORE", full (fun args => handle_zstore (into_iter env) args ZUnion));
   (bs "ZDIFFSTORE", full (fun args => handle_zstore (into_iter env) args ZDiff));
   (bs "ZREM", full handle_zrem);
   (bs "ZINCRBY", full handle_zincrby);
   (bs "ZRANGE", full handle_zrange);
   (bs "ZREVRANGE", full handle_zrevrange);
   (bs "ZRANGEBYSCORE", full handle_zrangebyscore);
   (bs "ZREVRANGEBYSCORE", full handle_zrevrangebyscore);
   (bs "ZRANGEBYLEX", full handle_zrangebylex);
   (bs "ZREVRANGEBYLEX", full handle_zrevrangebylex);
   (bs "ZLEXCOUNT", full handle_zlexcount);
   (bs "ZREMRANGEBYLEX", full handle_zremrangebylex);
   (bs "ZREMRANGEBYRANK", full handle_zremrangebyrank);
   (bs "ZREMRANGEBYSCORE", full handle_zremrangebyscore);
   (bs "ZPOPMIN", full (fun args => handle_zpop args false));
   (bs "ZPOPMAX", full (fun args => handle_zpop args true));
   (bs "ZSCORE", full handle_zscore);
   (bs "ZCARD", full handle_zcard);
   (bs "ZRANK", full (fun args => handle_zrank args false));
   (bs "ZREVRANK", full (fun args => handle_zrank args true));
   (bs "ZCOUNT", full handle_zcount);
   (bs "ZMSCORE", full handle_zmscore);
   (bs "ZRANDMEMBER", full handle_zrandmember);
   (bs "ZSCAN", full (handle_zscan (matches env)));
   (bs "XADD", full handle_xadd);
   (bs "XLEN", full handle_xlen);
   (bs "XRANGE", full (fun args => handle_xrange args false));
   (bs "XREVRANGE", full (fun args => handle_xrange args true));
   (bs "XDEL", full handle_xdel);
   (bs "XTRIM", full handle_xtrim);
   (bs "XREAD", handle_xread);
   (bs "XINFO", full handle_xinfo);
   (bs "XGROUP", full handle_xgroup);
   (bs "XREADGROUP", handle_xreadgroup);
   (bs "XACK", full handle_xack);
   (bs "XCLAIM", full handle_xclaim);
   (bs "XPENDING", full handle_xpending);
   (bs "XAUTOCLAIM", full handle_xautoclaim)
  ].

Definition find_command (env : Env) (cmd : Str) : option (list (list byte) -> partial_handler) :=
  option_map snd (List.find (fun row => str_eqb (fst row) cmd) (command_table env)).

Definition run (env : Env) (tokens : list (list byte)) : partial_handler :=
  match tokens with
  | [] => Ret (Some (Err (RespParse "empty command array")))
  | cmd_bytes :: args =>
      match from_utf8 cmd_bytes with
      | None => Ret (Some (Err (RespParse "command not utf8")))
      | Some c =>
          let cmd := to_ascii_uppercase c in
          match find_command env cmd with
          | Some f => f args
          | None => Ret (Some (Err (UnknownCommand (String.string_of_list_byte cmd))))
          end
      end
  end.

Definition reply_of (result : Result RespReply) : RespReply :=
  match result with
  | Ok reply => reply
  | Err e => reply_err (bs "ERR " ++ display_error e)
  end.

(** The reply of [dispatch]; its log and metrics lines, which change neither the
    reply nor the store, are [dispatch_logged] of the file Metrics. *)
Definition dispatch (env : Env) (command_tokens : list (list byte)) : prog kvE (option RespReply) :=
  let! result := run env command_tokens in
  Ret (option_map reply_of result).

