(* ===== verification/Frontend.v ===== *)
(** * Frontend

    The two entry points of the server: the HTTP handler (src/handler.rs) and
    the API Gateway WebSocket handler (src/ws.rs), from the bytes of a request to
    the bytes of its reply; and the settings read at startup (src/settings.rs).

    The RESP codec, base64 and the environment are parameters. *)

From S2P Require Import Prelude.
From S2P Require Import Text.
From S2P Require Import Value.
From S2P Require Import Backend.
From S2P Require Import Resp.
From S2P Require Import Commands.
From S2P Require Import Dispatch.

(** ** Settings *)

Inductive BackendKind := BK_S3 | BK_Dynamodb.
#[export] Instance BackendKind_eq_dec : EqDecision BackendKind.
Proof. solve_decision. Defined.

Definition BackendKind_parse (s : Str) : Result BackendKind :=
  let l := to_ascii_lowercase s in
  if str_eqb l (bs "s3") then Ok BK_S3
  else if str_eqb l (bs "dynamodb") || str_eqb l (bs "dynamo") then Ok BK_Dynamodb
  else
    Err (Config (String.string_of_list_byte
      (bs "RUSTYANT_BACKEND must be 's3' or 'dynamodb', got '" ++ l ++ bs "'"))).

Record Settings := {
  backend : BackendKind;
  bucket : Str;
  key_prefix : Str;
  dynamodb_table_prefix : Str;
  aws_region : option Str;
  aws_endpoint_url : option Str;
  emf_namespace : option Str;
}.

(** [var] is [env::var(name).ok()]. *)
Definition Settings_from_env (var : Str -> option Str) : Result Settings :=
  let? backend :=
    (match var (bs "RUSTYANT_BACKEND") with None => Ok BK_S3 | Some s => BackendKind_parse s end) in
  let? bucket :=
    (match backend with
     | BK_S3 => ok_or (var (bs "BUCKET")) (Config "BUCKET is required when RUSTYANT_BACKEND=s3")
     | BK_Dynamodb => Ok (default [] (var (bs "BUCKET")))
     end) in
  Ok {| backend := backend;
        bucket := bucket;
        key_prefix := default (bs "rustyant/") (var (bs "KEY_PREFIX"));
        dynamodb_table_prefix := default (bs "rustyant-") (var (bs "RUSTYANT_DYNAMODB_TABLE_PREFIX"));
        aws_region := var (bs "AWS_REGION");
        aws_endpoint_url := var (bs "AWS_ENDPOINT_URL");
        emf_namespace :=
          match var (bs "RUSTYANT_EMF_NAMESPACE") with
          | Some [] | None => None
          | Some s => Some s
          end |}.

(** ** HTTP *)

Inductive Body := BodyEmpty | BodyText (s : Str) | BodyBinary (b : list byte).
Record Response := { status : Z; content_type : Str; response_body : Body }.

Definition body_bytes (b : Body) : list byte :=
  match b with BodyEmpty => [] | BodyText s => s | BodyBinary b => b end.

(** A response, or the text of the transport error. *)
Definition transport (A : Type) : Type := (A + Str)%type.

Section frontend.
Variable extend_encode : BytesFrame -> list byte + string.
Variable decode : list byte -> option BytesFrame + string.
Variable env : Env.

Definition encode_reply (prefix : Str) (r : RespReply) : transport (list byte) :=
  match encode extend_encode r with
  | Ok b => inl b
  | Err e => inr (prefix ++ display_error e)
  end.

Definition response (code : Z) (r : RespReply) : transport Response :=
  match encode_reply (bs "encode: ") r with
  | inl b => inl {| status := code; content_type := bs "application/resp"; response_body := BodyBinary b |}
  | inr e => inr e
  end.

Definition error_response (msg : Str) : transport Response := response 400 (reply_err msg).

(** [None]: the handler of the command panicked, or was cut off. *)
Definition handle (body : Body) : prog kvE (option (transport Response)) :=
  match parse_command decode (body_bytes body) with
  | Err e => Ret (Some (error_response (bs "PARSE " ++ display_error e)))
  | Ok [] => Ret (Some (error_response (bs "empty command")))
  | Ok argv =>
      let! reply := dispatch env argv in
      Ret (option_map (response 200) reply)
  end.

(** ** WebSocket *)

Inductive WsOutcome := WsEmpty | WsReply (connection_id : Str) (data : list byte).

(** The fields of [ApiGatewayWebsocketProxyRequest] the handler reads. *)
Record WsRequest := {
  route_key : option Str;
  connection_id : option Str;
  body : option Str;
  is_base64_encoded : bool;
}.

Definition is_control_route (route_key : option Str) : bool :=
  match route_key with
  | Some r => str_eqb r (bs "$connect") || str_eqb r (bs "$disconnect")
  | None => false
  end.

(** [STANDARD.decode]; its error is given by its text. *)
Variable base64_decode : Str -> list byte + Str.

Definition decode_body (body : option Str) (is_base64 : bool) : transport (list byte) :=
  let body := default [] body in
  if is_base64 then
    match base64_decode body with
    | inl b => inl b
    | inr e => inr (bs "base64 decode: " ++ e)
    end
  else inl body.

Definition ws_reply (connection_id : Str) (reply : RespReply) : transport WsOutcome :=
  match encode_reply (bs "encode reply: ") reply with
  | inl b => inl (WsReply connection_id b)
  | inr e => inr e
  end.

Definition ws_handle (event : WsRequest) : prog kvE (option (transport WsOutcome)) :=
  if is_control_route (route_key event) then Ret (Some (inl WsEmpty))
  else
    match connection_id event with
    | None => Ret (Some (inr (bs "missing connection_id in request context")))
    | Some connection_id =>
        match decode_body (body event) (is_base64_encoded event) with
        | inr e => Ret (Some (inr e))
        | inl bytes =>
            match parse_command decode bytes with
            | Ok argv =>
                let! reply := dispatch env argv in
                Ret (option_map (ws_reply connection_id) reply)
            | Err e => Ret (Some (ws_reply connection_id (reply_err (bs "PARSE " ++ display_error e))))
            end
        end
    end.
End frontend.
