(* ===== verification/Obeys.v ===== *)
(** * Obeys

    A program logic for code that calls the backend.  A discipline says which
    calls a program may make and what it may assume of their answers; [obeys] is
    the judgement that a program keeps to it whatever the backend answers, so it
    holds under any interleaving with other clients.

    Two disciplines: reading only, and saving well-formed entries only.  The
    operations of [Storage] are placed in one or the other here, the handlers of
    the commands in Requests.v. *)

From S2P Require Import Prelude.
From S2P Require Import Text.
From S2P Require Import BTree.
From S2P Require Import F64.
From S2P Require Import Stream.
From S2P Require Import Value.
From S2P Require Import Backend.
From S2P Require Import Linearizability.
From S2P Require Import Contracts.
From S2P Require Import Collections.
From S2P Require Import Strings.
From S2P Require Import Hashes.
From S2P Require Import Lists.
From S2P Require Import Sets.
From S2P Require Import ZSets.
From S2P Require Import StreamOps.
From S2P Require Import Rdb.
From S2P Require Import Keyspace.
From S2P Require Import Mutations.

(** ** The judgement *)

Record discipline := {
  may_call : forall A, kvE A -> Prop;
  may_answer : forall A, kvE A -> A -> Prop;
}.
Arguments may_call d {A} e.
Arguments may_answer d {A} e a.

Fixpoint obeys (d : discipline) {R} (Q : R -> Prop) (p : prog kvE R) : Prop :=
  match p with
  | Ret r => Q r
  | Vis e k => may_call d e /\ forall a, may_answer d e a -> obeys d Q (k a)
  end.

Section obeys_rules.
Context (d : discipline).

Lemma obeys_bind {R S} (p : prog kvE R) (f : R -> prog kvE S) Q Q' :
  obeys d Q' p -> (forall r, Q' r -> obeys d Q (f r)) -> obeys d Q (pbind p f).
Proof.
  intros Hp Hf. induction p as [r|A e k IH]; cbn in *; [auto|].
  destruct Hp as [He Hk]. split; [done|]. intros a Ha. auto.
Qed.

Lemma obeys_mono {R} (p : prog kvE R) (Q Q' : R -> Prop) :
  obeys d Q p -> (forall r, Q r -> Q' r) -> obeys d Q' p.
Proof.
  intros Hp HQ. induction p as [r|A e k IH]; cbn in *; [auto|].
  destruct Hp as [He Hk]. split; [done|]. intros a Ha. auto.
Qed.

End obeys_rules.

(** ** Judgements that follow the structure of programs

    What is proved call by call, like keeping to a discipline or behaving the same
    on two backends, only needs its own proofs at the calls: the rest of a program
    is binds and returns.  The loops of the code are proved once, for any such
    judgement. *)
Record judgement := {
  judged : forall R, prog kvE R -> Prop;
  judge_ret : forall R (r : R), judged R (Ret r);
  judge_bind : forall R S (p : prog kvE R) (f : R -> prog kvE S),
    judged R p -> (forall r, judged S (f r)) -> judged S (pbind p f);
}.

Definition safe (J : judgement) {R} (p : prog kvE R) : Prop := judged J R p.

Definition keeps (d : discipline) : judgement.
Proof.
  refine {| judged := fun R p => obeys d (fun _ => True) p |}; [done|].
  intros R S p f Hp Hf. apply (obeys_bind _ _ _ _ _ Hp). intros r _. apply Hf.
Defined.
Coercion keeps : discipline >-> judgement.

Section judgement_rules.
Context (d : judgement).

Lemma safe_bind {R S} (p : prog kvE R) (f : R -> prog kvE S) :
  safe d p -> (forall r, safe d (f r)) -> safe d (pbind p f).
Proof. apply judge_bind. Qed.

Lemma safe_ret {R} (r : R) : safe d (Ret r).
Proof. apply judge_ret. Qed.

Lemma safe_fold {A B} (f : prog kvE B -> A -> prog kvE B) (l : list A) p :
  (forall p a, safe d p -> safe d (f p a)) -> safe d p -> safe d (fold_left f l p).
Proof. intros Hf. revert p. induction l as [|a l IH]; intros p Hp; [exact Hp|]. apply IH, Hf, Hp. Qed.
End judgement_rules.

(** A goal on [obeys] as one on [safe]. *)
Ltac as_safe := match goal with |- obeys ?d _ ?p => change (safe (keeps d) p) end.

Section discipline_rules.
Context (d : discipline).

Lemma safe_trigger {A} (e : kvE A) : may_call d e -> safe d (trigger e).
Proof. by split. Qed.

Lemma safe_cas {R} key (modify : modifier R) :
  (forall A (e : kvE A), match e with KvSave _ _ _ => False | _ => True end -> may_call d e) ->
  (forall loaded, may_answer d (KvLoad key) (Ok loaded) ->
     obeys d (fun r => forall e v c, r = Ok (Write e v) -> may_call d (KvSave key e c))
       (modify (option_map fst loaded))) ->
  safe d (cas key modify).
Proof.
  intros Hcalls Hmod. unfold cas. generalize MAX_CAS_RETRIES, 0. intros n.
  induction n as [|n IH]; intros a; cbn [cas_from]; [done|].
  apply safe_bind; [unfold cas_backoff; destruct (a =? 0); [done|by apply safe_trigger, Hcalls]|]. intros _.
  eapply obeys_bind with (Q' := fun r => may_answer d (KvLoad key) r).
  { split; [by apply Hcalls|]. by intros. }
  intros [loaded|err] Hl; [|done].
  assert (E : (let '(existing, _) := match loaded with Some (e, t) => (Some e, Some t) | None => (None, None) end
               in existing) = option_map fst loaded) by (by destruct loaded as [[]|]).
  destruct (match loaded with Some (e, t) => (Some e, Some t) | None => (None, None) end) as [existing etag].
  subst existing. eapply obeys_bind; [by apply Hmod|]. intros [act|err] Hact; [|done].
  destruct act as [e r|r|r]; cbn in Hact; [| |done]; as_safe.
  - apply safe_bind; [apply safe_trigger; by eapply Hact|]. intros [|[]]; try done; apply IH.
  - destruct etag; [|done]. apply safe_bind; [by apply safe_trigger, Hcalls|]. intros [|[]]; try done; apply IH.
Qed.
End discipline_rules.

(** ** Reading *)

(** A judgement of every load and of reading the clock. *)
Class Reads (J : judgement) : Prop := {
  reads_load : forall key, safe J (load key);
  reads_now : safe J (trigger KvNowMs);
}.

Definition reading {A} (e : kvE A) : bool :=
  match e with
  | KvSave _ _ _ | KvDelete _ _ | KvFlushAll => false
  | _ => true
  end.

Class AllowsReading (d : discipline) : Prop := allows_reading :
  forall A (e : kvE A), reading e = true -> may_call d e.

Definition read_only : discipline :=
  {| may_call := fun A e => reading e = true; may_answer := fun A e a => True |}.

#[export] Instance read_only_reads : AllowsReading read_only.
Proof. by intros A e. Qed.

(** ** Well-formed entries *)

Definition loaded_wf (a : Result (option (StoredValue * Str))) : Prop :=
  match a with Ok (Some (e, _)) => entry_wf e | _ => True end.

Definition saves_wf : discipline := {|
  may_call := fun A e => match e with KvSave _ entry _ => entry_wf entry | _ => True end;
  may_answer := fun A (e : kvE A) =>
    match e in kvE A return A -> Prop with
    | KvLoad _ => loaded_wf
    | _ => fun _ => True
    end;
|}.

#[export] Instance saves_wf_reads : AllowsReading saves_wf.
Proof. by intros A []. Qed.

#[export] Instance keeps_reads (d : discipline) `{!AllowsReading d} : Reads (keeps d).
Proof.
  split; [|by apply safe_trigger, allows_reading]. intros key. apply safe_bind; [by apply safe_trigger, allows_reading|].
  intros [l|err]; apply safe_ret.
Qed.

Create HintDb safe.
#[export] Hint Resolve safe_ret reads_load reads_now keeps_reads read_only_reads saves_wf_reads : safe.

(** Follows a program: its binds, its matches and the definitions it calls,
    with the lemmas of the [safe] database at the leaves. *)
Ltac head_of t := lazymatch t with ?f _ => head_of f | _ => t end.
Ltac safe_step :=
  match goal with
  | |- forall _, _ => intro
  | |- safe _ (Ret _) => apply safe_ret
  | |- safe _ _ => solve [auto with safe nocore]
  | |- safe _ (pbind _ _) => apply safe_bind
  | |- safe _ (trigger _) => apply safe_trigger; solve [by apply allows_reading | exact I | assumption]
  | |- safe _ (match ?x with _ => _ end) => destruct x eqn:?
  | |- safe _ ?p => let h := head_of p in unfold h
  end.
Ltac safe_walk := repeat (safe_step; cbv beta zeta).

(** ** The loops that only read *)

Section readers.
Context (d : judgement) `{!Reads d}.

Lemma safe_mget_loop ks out : safe d (mget_loop ks out).
Proof. revert out. induction ks; intros out; cbn [mget_loop]; safe_walk. Qed.

Lemma safe_any_exists ks : safe d (any_exists ks).
Proof. induction ks; cbn [any_exists]; safe_walk. Qed.

Lemma safe_merge_sources ss : forall merged, safe d (merge_sources merged ss).
Proof. induction ss; intros merged; cbn [merge_sources]; safe_walk. Qed.

Lemma safe_load_sets_seq ks : forall out, safe d (load_sets_seq ks out).
Proof. induction ks; intros out; cbn [load_sets_seq]; safe_walk. Qed.

Lemma safe_xread_loop ks count : forall out, safe d (xread_loop ks count out).
Proof. induction ks; intros out; cbn [xread_loop]; safe_walk. Qed.

End readers.

Section listers.
Context (d : discipline) `{!AllowsReading d}.

Lemma safe_keys_walk matches fuel pattern : forall cursor out, safe d (keys_walk matches fuel pattern cursor out).
Proof. induction fuel; intros cursor out; cbn [keys_walk]; safe_walk. Qed.

Lemma safe_count_keys_walk fuel : forall cursor count, safe d (count_keys_walk fuel cursor count).
Proof. induction fuel; intros cursor count; cbn [count_keys_walk]; safe_walk. Qed.
End listers.
#[export] Hint Resolve safe_mget_loop safe_any_exists safe_merge_sources safe_load_sets_seq safe_xread_loop
  safe_keys_walk safe_count_keys_walk : safe.

(** ** The operations that write *)

#[export] Instance get_string_with_ttl_wf key op : WfClosure (get_string_with_ttl_mod key op).
Proof. exact (mutation_wf (GetEx key op) I). Qed.
#[export] Instance getset_wf key v : WfClosure (getset_mod key v).
Proof. exact (mutation_wf (GetSet key v) I). Qed.
#[export] Instance expire_at_wf t : WfClosure (expire_at_mod t).
Proof. exact (mutation_wf (ExpireAt [] t) I). Qed.
#[export] Instance persist_wf : WfClosure persist_mod.
Proof. exact (mutation_wf (PersistKey []) I). Qed.

Lemma safe_cas_wf {R} key (f : option StoredValue -> Result (CasAction R)) :
  WfClosure f -> safe saves_wf (cas key (pure_mod f)).
Proof.
  intros Hf. apply safe_cas; [by intros A []|]. intros loaded Hl. cbn. intros e v c E.
  eapply Hf; [|exact E]. by destruct loaded as [[]|].
Qed.
#[export] Hint Extern 1 (safe (keeps saves_wf) (cas _ (pure_mod _))) => (apply safe_cas_wf; typeclasses eauto) : safe.

Lemma safe_hset key pairs : pairs <> [] -> safe saves_wf (hset key pairs).
Proof. intros H. apply safe_cas_wf, (hset_op key pairs H). Qed.
Lemma safe_list_push key vs left : vs <> [] -> safe saves_wf (list_push key vs left).
Proof. intros H. apply safe_cas_wf, (list_push_op key vs left H). Qed.
Lemma safe_sadd key ms : ms <> [] -> safe saves_wf (sadd key ms).
Proof. intros H. apply safe_cas_wf, (sadd_op key ms H). Qed.
Lemma safe_zadd key pairs : pairs <> [] -> safe saves_wf (zadd key pairs).
Proof. intros H. apply safe_cas_wf, (zadd_op key pairs H). Qed.

Lemma fold_remove_wf (picked : list Str) (s : bset Str) : bt_wf s -> bt_wf (fold_left bt_remove picked s).
Proof. revert s. induction picked; cbn; intros s Hs; [done|]. auto with btree. Qed.

Lemma safe_spop key count : safe saves_wf (spop key count).
Proof.
  unfold spop. destruct (count =? 0); [safe_walk|]. apply safe_cas; [by intros A []|].
  intros [[[exp [| | |s| |]] etag]|] Hl; cbn in Hl |- *; try done.
  apply obeys_bind with (Q' := fun _ => True); [change (safe saves_wf (pick_random_unique s count)); safe_walk|].
  intros picked _. destruct (bt_is_empty _) eqn:E; cbn; [done|]. intros e v c [= <- <-].
  split; [by apply fold_remove_wf, Hl|]. by intros Hnil; rewrite Hnil in E.
Qed.
#[export] Hint Resolve safe_hset safe_list_push safe_sadd safe_zadd safe_spop : safe.

(** RENAME, RENAMENX and COPY save what they loaded. *)
Lemma obeys_load key : obeys saves_wf (fun r => match r with Ok (Some e) => entry_wf e | _ => True end) (load key).
Proof. split; [done|]. intros [[[e t]|]|err] Ha; exact Ha. Qed.

Ltac moves_entry :=
  eapply obeys_bind; [apply obeys_load|]; intros [[e|]|err] He; try exact I;
  as_safe; safe_walk.

Lemma safe_rename from to : safe saves_wf (rename from to).
Proof. unfold rename. moves_entry. Qed.
Lemma safe_renamenx from to : safe saves_wf (renamenx from to).
Proof. unfold renamenx. moves_entry. Qed.
Lemma safe_copy from to replace : safe saves_wf (copy from to replace).
Proof. unfold copy. destruct (str_eqb from to); [exact I|]. moves_entry. Qed.
#[export] Hint Resolve safe_rename safe_renamenx safe_copy : safe.

Lemma safe_xreadgroup_loop group consumer ks count noack now :
  forall out, safe saves_wf (xreadgroup_loop group consumer ks count noack now out).
Proof. induction ks; intros out; cbn [xreadgroup_loop]; safe_walk. Qed.
Lemma safe_mset pairs : safe saves_wf (mset pairs).
Proof. induction pairs; cbn [mset]; safe_walk. Qed.
#[export] Hint Resolve safe_xreadgroup_loop safe_mset : safe.
