(* ===== verification/Requests.v ===== *)
(** * Requests

    Theorems about any request: every command of [Dispatch.command_table] is put
    under the disciplines of Obeys.v, row by row, and what COMMAND's table says of
    a command is checked against its row. *)

From S2P Require Import Prelude.
From S2P Require Import Text.
From S2P Require Import BTree.
From S2P Require Import F64.
From S2P Require Import Stream.
From S2P Require Import Value.
From S2P Require Import Hll.
From S2P Require Import Backend.
From S2P Require Import Linearizability.
From S2P Require Import Contracts.
From S2P Require Import Collections.
From S2P Require Import Strings.
From S2P Require Import Hashes.
From S2P Require Import Lists.
From S2P Require Import Sets.
From S2P Require Import ZSets.
From S2P Require Import StreamOps.
From S2P Require Import Rdb.
From S2P Require Import Keyspace.
From S2P Require Import Mutations.
From S2P Require Import Geo.
From S2P Require Import Resp.
From S2P Require Import Commands.
From S2P Require Import CmdStrings.
From S2P Require Import CmdKeys.
From S2P Require Import CmdCollections.
From S2P Require Import CmdZSets.
From S2P Require Import CmdStreams.
From S2P Require Import CmdServer.
From S2P Require Import CmdGeo.
From S2P Require Import Bits.
From S2P Require Import Lcs.
From S2P Require Import Dispatch.
From S2P Require Import Obeys.

Section readers.
Context (d : judgement) `{!Reads d}.

Lemma safe_count_existing args : forall count, safe d (count_existing args count).
Proof. induction args; intros count; cbn [count_existing]; safe_walk. Qed.

Lemma safe_load_inputs ks : forall out, safe d (load_inputs ks out).
Proof. induction ks; intros out; cbn [load_inputs]; safe_walk. Qed.

Lemma safe_load_weighted ks : forall out, safe d (load_weighted ks out).
Proof. induction ks; intros out; cbn [load_weighted]; safe_walk. Qed.

Lemma safe_load_strings ks : forall out, safe d (load_strings ks out).
Proof. induction ks; intros out; cbn [load_strings]; safe_walk. Qed.

Lemma safe_parse_set_opts opts expires : safe d (parse_set_opts opts expires).
Proof.
  revert expires. induction (Wf_nat.well_founded_ltof _ (@length (list byte)) opts) as [opts _ IH].
  intros expires. destruct opts as [|o [|v rest]]; cbn [parse_set_opts]; safe_walk.
  all: apply IH; unfold ltof; cbn; lia.
Qed.
End readers.
#[export] Hint Resolve safe_count_existing safe_load_inputs safe_load_weighted safe_load_strings safe_parse_set_opts : safe.


(** ** Commands that write

    Every other command only reads. *)
Definition WRITERS : list Str := [
  bs "GEOADD"; bs "GEOSEARCHSTORE"; bs "FLUSHDB"; bs "FLUSHALL"; bs "DEL"; bs "UNLINK"; bs "COPY"; bs "RESTORE";
  bs "SETBIT"; bs "BITOP"; bs "PFADD"; bs "PFMERGE"; bs "GETEX"; bs "GETSET"; bs "GETDEL"; bs "SETRANGE";
  bs "APPEND"; bs "SET"; bs "SETNX"; bs "SETEX"; bs "MSET"; bs "MSETNX"; bs "EXPIRE"; bs "EXPIREAT"; bs "PEXPIRE";
  bs "PEXPIREAT"; bs "PERSIST"; bs "RENAME"; bs "RENAMENX"; bs "INCR"; bs "INCRBY"; bs "INCRBYFLOAT"; bs "DECR";
  bs "DECRBY"; bs "HSET"; bs "HSETNX"; bs "HDEL"; bs "HINCRBY"; bs "HINCRBYFLOAT"; bs "LPUSH"; bs "RPUSH";
  bs "LPUSHX"; bs "RPUSHX"; bs "LPOP"; bs "RPOP"; bs "LSET"; bs "LREM"; bs "LINSERT"; bs "LTRIM"; bs "LMOVE";
  bs "RPOPLPUSH"; bs "SADD"; bs "SREM"; bs "SINTERSTORE"; bs "SUNIONSTORE"; bs "SDIFFSTORE"; bs "SMOVE"; bs "SPOP";
  bs "ZADD"; bs "ZINTERSTORE"; bs "ZUNIONSTORE"; bs "ZDIFFSTORE"; bs "ZREM"; bs "ZINCRBY"; bs "ZREMRANGEBYLEX";
  bs "ZREMRANGEBYRANK"; bs "ZREMRANGEBYSCORE"; bs "ZPOPMIN"; bs "ZPOPMAX"; bs "XADD"; bs "XDEL"; bs "XTRIM";
  bs "XGROUP"; bs "XREADGROUP"; bs "XACK"; bs "XCLAIM"; bs "XAUTOCLAIM"
].
Definition is_writer (cmd : Str) : bool := existsb (str_eqb cmd) WRITERS.

Lemma find_command_in env cmd f : find_command env cmd = Some f -> In (cmd, f) (command_table env).
Proof.
  unfold find_command. destruct (List.find _ _) as [[c g]|] eqn:E; [|done]. intros [= <-].
  apply List.find_some in E as [Hin Hc]. cbn in Hc. unfold str_eqb in Hc. apply bool_decide_eq_true in Hc. by subst.
Qed.

(** One goal per row of the table. *)
Ltac each_row := unfold command_table; repeat (apply Forall_cons_2; cbn [fst snd]); [..|apply Forall_nil_2; exact I].

Lemma readers_safe d `{!AllowsReading d} env :
  Forall (fun row => is_writer (fst row) = false -> forall args, safe d (snd row args)) (command_table env).
Proof.
  each_row.
  all: intros Hw; first [by (vm_compute in Hw; discriminate Hw) | clear Hw; intros args; unfold full, pure, total; safe_walk].
Qed.

(** ** Commands that write save well-formed entries *)

Section nonempty.
Lemma strings_nonempty a l ys : strings (a :: l) = Ok ys -> ys <> [].
Proof. intros H%collect_results_length. by destruct ys. Qed.
Lemma key_value_pairs_nonempty l ps k b :
  (len (k :: l) <? 3) || b = false -> key_value_pairs l = Ok ps -> ps <> [].
Proof.
  intros Hl. destruct l as [|x [|y l]]; [done..|]. cbn [key_value_pairs].
  destruct (arg_as_string x); cbn [rbind]; [|done]. destruct (key_value_pairs l); cbn [rbind]; [|done].
  by intros [= <-].
Qed.
Lemma score_pairs_nonempty l ps b : (len l <? 2) || b = false -> score_pairs l = Ok ps -> ps <> [].
Proof.
  intros Hl. destruct l as [|x [|y l]]; [done..|]. cbn [score_pairs].
  destruct (parse_f64 x _); cbn [rbind]; [|done]. destruct (arg_as_string y); cbn [rbind]; [|done].
  destruct (score_pairs l); cbn [rbind]; [|done]. by intros [= <-].
Qed.
End nonempty.

Lemma safe_delete_each args : forall n, safe saves_wf (delete_each args n).
Proof. induction args; intros n; cbn [delete_each]; safe_walk. Qed.
#[export] Hint Resolve safe_delete_each : safe.
#[export] Hint Extern 1 (_ <> []) => done : safe.
#[export] Hint Extern 1 (_ <> []) => (eapply strings_nonempty; eassumption) : safe.
#[export] Hint Extern 1 (_ <> []) => (eapply score_pairs_nonempty; eassumption) : safe.
#[export] Hint Extern 1 (_ <> []) => (eapply key_value_pairs_nonempty; eassumption) : safe.

Lemma writers_safe env :
  Forall (fun row => fst row <> bs "RESTORE" -> forall args, safe saves_wf (snd row args)) (command_table env).
Proof.
  each_row.
  all: intros Hw; intros args; unfold full, pure, total.
  all: first [by destruct Hw | safe_walk].
Qed.

(** ** Names *)

Lemma ascii_lower_upper b : ascii_lower (ascii_upper b) = ascii_lower b.
Proof. by destruct b. Qed.
Lemma ascii_upper_lower b : ascii_upper (ascii_lower b) = ascii_upper b.
Proof. by destruct b. Qed.
Lemma ascii_lower_range b : in_range 0 127 (ascii_lower b) = true -> in_range 0 127 b = true.
Proof. by destruct b. Qed.

Lemma lower_upper s : to_ascii_lowercase (to_ascii_uppercase s) = to_ascii_lowercase s.
Proof. unfold to_ascii_lowercase, to_ascii_uppercase. rewrite map_map. apply map_ext, ascii_lower_upper. Qed.
Lemma upper_lower s : to_ascii_uppercase (to_ascii_lowercase s) = to_ascii_uppercase s.
Proof. unfold to_ascii_lowercase, to_ascii_uppercase. rewrite map_map. apply map_ext, ascii_upper_lower. Qed.
Lemma lower_utf8 s : forallb (in_range 0 127) (to_ascii_lowercase s) = true -> from_utf8 s = Some s.
Proof.
  intros H. unfold from_utf8. rewrite utf8_valid_ascii; [done|].
  induction s as [|b s IH]; [done|]. cbn in H |- *. apply andb_prop in H as [Hb Hs].
  by rewrite ascii_lower_range, IH.
Qed.

(** Every row of COMMAND's table names a command that exists, in ASCII. *)
Lemma find_meta_in c m : find_meta c = Some m -> In m COMMAND_META /\ cm_name m = c.
Proof.
  unfold find_meta. intros H. apply List.find_some in H as [Hin Hc]. unfold str_eqb in Hc.
  by apply bool_decide_eq_true in Hc.
Qed.

Lemma command_meta_names :
  forallb (fun m => forallb (in_range 0 127) (cm_name m)) COMMAND_META = true.
Proof. by vm_compute. Qed.

Definition command_names (env : Env) : list Str := map fst (command_table env).

Lemma command_meta_known env :
  forallb (fun m => existsb (str_eqb (to_ascii_uppercase (cm_name m))) (command_names env)) COMMAND_META = true.
Proof. by vm_compute. Qed.

Lemma find_command_known env cmd :
  existsb (str_eqb cmd) (command_names env) = true -> exists f, find_command env cmd = Some f.
Proof.
  unfold command_names, find_command. induction (command_table env) as [|[c f] t IH]; [done|].
  cbn [map existsb List.find fst]. unfold str_eqb. destruct (bool_decide_reflect (c = cmd)) as [->|Hne]; [by eexists|].
  rewrite bool_decide_false by congruence. exact IH.
Qed.

Lemma find_meta_command env c m :
  find_meta (to_ascii_lowercase c) = Some m ->
  from_utf8 c = Some c /\
  exists f, find_command env (to_ascii_uppercase c) = Some f /\ In (to_ascii_uppercase c, f) (command_table env).
Proof.
  intros H. apply find_meta_in in H as [Hin Hname].
  pose proof (proj1 (forallb_forall _ _) command_meta_names m Hin) as Ha.
  pose proof (proj1 (forallb_forall _ _) (command_meta_known env) m Hin) as Hk. cbn beta in Ha, Hk.
  rewrite Hname in Ha, Hk. rewrite upper_lower in Hk. split; [by apply lower_utf8|].
  apply find_command_known in Hk as [f Hf]. eauto using find_command_in.
Qed.

Lemma run_known env c f args :
  from_utf8 c = Some c -> find_command env (to_ascii_uppercase c) = Some f -> Dispatch.run env (c :: args) = f args.
Proof. intros Hc Hf. unfold Dispatch.run. by rewrite Hc, Hf. Qed.

(** ** Arity *)

(** What the arity column of COMMAND promises of [n] tokens, the name included. *)
Definition arity_ok (m : CommandMeta) (n : Z) : bool :=
  if 0 <=? cm_arity m then n =? cm_arity m else - cm_arity m <=? n.

Definition refused (p : partial_handler) : Prop := exists s, p = Ret (Some (Err (WrongArity s))).

Definition lax : list Str := [bs "RESET"; bs "INCR"; bs "DECR"].

Lemma rows_check_arity env :
  Forall (fun row => existsb (str_eqb (fst row)) lax = false ->
    forall m, find_meta (to_ascii_lowercase (fst row)) = Some m ->
    forall args, arity_ok m (len args + 1) = false -> refused (snd row args)) (command_table env).
Proof.
  each_row.
  all: intros Hl m Hm; first [by (vm_compute in Hl; discriminate Hl) | by (vm_compute in Hm; discriminate Hm) | clear Hl].
  all: vm_compute in Hm; injection Hm as <-; unfold arity_ok; cbn [cm_arity Z.leb Z.opp Z.compare].
  all: intros [|a1 [|a2 [|a3 [|a4 [|a5 [|a6 [|a7 args]]]]]]] Hn;
    first [ by (exfalso; unfold len in Hn; cbn [length] in Hn; first [apply Z.leb_gt in Hn | apply Z.eqb_neq in Hn]; lia)
          | by eexists; reflexivity
          | by (unfold refused, pure, handle_publish; rewrite (proj2 (Z.eqb_neq (len _) 2)) by (unfold len; cbn; lia);
                eexists) ].
Qed.

(** C17: COMMAND's arity column is enforced.  A request whose number of
    tokens the table rules out is refused with the arity error before any
    backend call, whatever its arguments are, for every command of the table but
    RESET, INCR and DECR, which ignore what follows. *)
Theorem arity_enforced env c args m :
  find_meta (to_ascii_lowercase c) = Some m ->
  existsb (str_eqb (to_ascii_uppercase c)) lax = false ->
  arity_ok m (len (c :: args)) = false ->
  exists s, Dispatch.run env (c :: args) = Ret (Some (Err (WrongArity s))).
Proof.
  intros Hm Hl Ha. destruct (find_meta_command env c m Hm) as (Hc & f & Hf & Hin).
  rewrite (run_known _ _ _ _ Hc Hf). rewrite len_cons in Ha.
  pose proof (proj1 (List.Forall_forall _ _) (rows_check_arity env) _ Hin Hl m) as H. cbn [fst snd] in H.
  rewrite lower_upper in H. exact (H Hm args Ha).
Qed.

(** An environment to run requests in: no glob but [*], no libm, one page of
    keyspace. *)
Definition sample_env : Env := {|
  matches := fun p s => str_eqb p (bs "*") || str_eqb p s; fuel := 4; ln := id; sin := id; cos := id;
  atan2 := fun a _ => a; into_iter := map_to_list; to_vec := fun _ => Ok []; process_id := 1; started_at_ms := 0;
|}.

Lemma arity_enforced_witness :
  exists s, Dispatch.run sample_env [bs "geTrange"; bs "k"; bs "0"] = Ret (Some (Err (WrongArity s))).
Proof. eapply (arity_enforced sample_env (bs "geTrange") [bs "k"; bs "0"]); by vm_compute. Defined.

(** INCR and DECR run whatever follows their key. *)
Example incr_ignores_rest :
  fst (Backend.run (dispatch sample_env [bs "INCR"; bs "k"; bs "surplus"]) empty_world) = Some (RInteger 1).
Proof. by vm_compute. Qed.

(** ** Reading commands change nothing *)

Definition same_live (w w' : world) : Prop :=
  (forall k, live w' k = live w k) /\ store w' ⊆ store w /\ clock_ms w' = clock_ms w.

Lemma same_live_refl w : same_live w w.
Proof. by split_and!. Qed.
Lemma same_live_trans w1 w2 w3 : same_live w1 w2 -> same_live w2 w3 -> same_live w1 w3.
Proof.
  intros (H1 & H2 & H3) (G1 & G2 & G3). split_and!; [intros k; congruence|by etrans|congruence].
Qed.
Lemma same_live_gc k w : same_live w (gc k w).
Proof.
  split_and!; [intros k'; apply live_gc_any| |by destruct (gc_cases k w) as [-> | ->]].
  destruct (gc_cases k w) as [-> | ->]; [done|apply delete_subseteq].
Qed.

Lemma read_only_run {R} (p : prog kvE R) : safe read_only p -> forall w, same_live w (snd (Backend.run p w)).
Proof.
  induction p as [r|A e k IH]; intros Hp w; [apply same_live_refl|]. destruct Hp as [He Hk]. cbn [Backend.run].
  destruct e; try done; cbn [handle]; try (apply IH, Hk, I).
  rewrite kv_load_spec. eapply same_live_trans; [apply same_live_gc|]. apply IH, Hk, I.
Qed.

Lemma dispatch_safe d env c f args :
  from_utf8 c = Some c -> find_command env (to_ascii_uppercase c) = Some f -> safe d (f args) ->
  safe d (dispatch env (c :: args)).
Proof. intros Hc Hf H. unfold dispatch. rewrite (run_known _ _ _ _ Hc Hf). apply safe_bind; [done|]. intros r. apply safe_ret. Qed.

Lemma readonly_flags :
  forallb (fun m => negb (existsb (str_eqb (bs "readonly")) (cm_flags m)) ||
                    negb (is_writer (to_ascii_uppercase (cm_name m)))) COMMAND_META = true.
Proof. by vm_compute. Qed.

(** C11: COMMAND's [readonly] flag is true.  Whatever the arguments and
    whatever the store holds, a request for a command the table flags as readonly
    makes no write, delete or flush call, and leaves every live entry as it was;
    all that can go is entries that had expired. *)
Theorem readonly_commands env c args m w :
  find_meta (to_ascii_lowercase c) = Some m -> In (bs "readonly") (cm_flags m) ->
  safe read_only (dispatch env (c :: args)) /\
  same_live w (snd (Backend.run (dispatch env (c :: args)) w)).
Proof.
  intros Hm Hr. assert (Hs : safe read_only (dispatch env (c :: args))); [|split; [done|by apply read_only_run]].
  destruct (find_meta_command env c m Hm) as (Hc & f & Hf & Hin). apply find_meta_in in Hm as [Hinm Hname].
  eapply dispatch_safe; [done..|].
  pose proof (proj1 (forallb_forall _ _) readonly_flags m Hinm) as Hw. cbn beta in Hw.
  apply (proj1 (List.Forall_forall _ _) (readers_safe read_only env) _ Hin). cbn [fst].
  rewrite Hname, upper_lower in Hw. apply orb_prop in Hw as [Hw|Hw]; [|by destruct (is_writer _)].
  rewrite (proj2 (existsb_exists _ _)) in Hw; [done|]. exists (bs "readonly"). split; [done|]. by apply bool_decide_eq_true.
Qed.

Lemma readonly_commands_witness :
  same_live empty_world (snd (Backend.run (dispatch sample_env [bs "zrange"; bs "k"; bs "0"; bs "-1"]) empty_world)).
Proof.
  eapply (readonly_commands sample_env (bs "zrange") [bs "k"; bs "0"; bs "-1"]); [by vm_compute|]. cbn. by left.
Defined.

(** ** The server

    Requests arrive at any time; each one in flight makes its backend calls one
    by one, between those of the others; the clock moves forward; a request that
    has its reply leaves. *)

Definition in_flight : Type := list (prog kvE (option RespReply)).

Section server.
Variable env : Env.
(** The requests clients send. *)
Variable sends : list (list byte) -> Prop.

Inductive server_step : in_flight * world -> in_flight * world -> Prop :=
| server_arrival ps w tokens : sends tokens -> server_step (ps, w) (ps ++ [dispatch env tokens], w)
| server_call ps w i p p' w' :
    ps !! i = Some p -> step1 p w = Some (p', w') -> server_step (ps, w) (<[i := p']> ps, w')
| server_reply ps w i r : ps !! i = Some (Ret r) -> server_step (ps, w) (base.delete i ps, w)
| server_tick ps w ms nanos : clock_ms w <= ms -> server_step (ps, w) (ps, tick ms nanos w).

Inductive server_steps (c : in_flight * world) : in_flight * world -> Prop :=
| server_start : server_steps c c
| server_next c' c'' : server_steps c c' -> server_step c' c'' -> server_steps c c''.
End server.

Lemma server_steps_trans env sends c1 c2 c3 :
  server_steps env sends c1 c2 -> server_steps env sends c2 c3 -> server_steps env sends c1 c3.
Proof. intros H1. induction 1; eauto using server_next. Qed.

(** A request alone on the server runs as [Backend.run] says. *)
Lemma server_runs env sends p w r w' :
  Backend.run p w = (r, w') -> server_steps env sends ([p], w) ([Ret r], w').
Proof.
  revert w. induction p as [r0|A e k IH]; intros w; cbn [Backend.run]; [intros [= -> ->]; apply server_start|].
  destruct (handle e w) as [a w1] eqn:E. intros Hrun. eapply server_steps_trans; [|by apply IH].
  eapply server_next; [apply server_start|]. apply (server_call env sends [Vis e k] w 0 (Vis e k)); [done|].
  cbn [step1]. by rewrite E.
Qed.

(** The command of a request, as [run] looks it up. *)
Definition is_command (name : Str) (tokens : list (list byte)) : bool :=
  match tokens with c :: _ => str_eqb (to_ascii_uppercase c) name | [] => false end.

Lemma dispatch_saves_wf env tokens :
  is_command (bs "RESTORE") tokens = false -> safe saves_wf (dispatch env tokens).
Proof.
  intros Hr. unfold dispatch. apply safe_bind; [|intros r; apply safe_ret].
  destruct tokens as [|c args]; [exact I|]. unfold Dispatch.run.
  destruct (from_utf8 c) as [s|] eqn:Hc; [|exact I].
  assert (s = c) as -> by (unfold from_utf8 in Hc; by destruct (utf8_valid c); simplify_eq).
  destruct (find_command _ _) as [f|] eqn:Hf; [|exact I]. apply find_command_in in Hf.
  apply (proj1 (List.Forall_forall _ _) (writers_safe env) _ Hf). cbn [fst]. intros E.
  cbn in Hr. unfold str_eqb in Hr. by rewrite bool_decide_true in Hr.
Qed.

Lemma saves_wf_step {R} (p p' : prog kvE R) w w' :
  safe saves_wf p -> keyspace_wf w -> step1 p w = Some (p', w') -> safe saves_wf p' /\ keyspace_wf w'.
Proof.
  destruct p as [r|A e k]; [done|]. intros [He Hk] Hw. cbn [step1].
  destruct (handle e w) as [a w1] eqn:E. intros [= <- <-].
  assert (may_answer saves_wf e a /\ keyspace_wf w1) as [Ha Hw1]; [|split; [by apply Hk|done]].
  destruct e; cbn in E; try (injection E as <- <-; done).
  - rewrite kv_load_spec in E. injection E as <- <-. split; [|by apply keyspace_wf_gc].
    cbn. destruct (store (gc key w) !! key) as [[e v]|] eqn:L; [|done].
    exact (keyspace_wf_gc key w Hw key (e, v) L).
  - unfold kv_save in E. split; [done|].
    destruct (match cond with WAny => _ | _ => _ end); injection E as <- <-; [by apply keyspace_wf_put|done].
  - unfold kv_delete in E. split; [done|].
    destruct (match cond with DAny => _ | _ => _ end); injection E as <- <-; [by apply keyspace_wf_remove|done].
Qed.

(** C1: the store stays well-formed under any traffic.  From a well-formed
    store, with any number of requests of any commands but RESTORE, whatever their
    arguments, arriving at any time and interleaved at every backend call while
    the clock runs, every stored entry stays well-formed: maps and sets ordered
    without duplicates, no empty hash, list, set or sorted set, streams in id
    order. *)
Theorem server_keeps_wf env sends w ps' w' :
  (forall tokens, sends tokens -> is_command (bs "RESTORE") tokens = false) ->
  keyspace_wf w -> server_steps env sends ([], w) (ps', w') -> keyspace_wf w'.
Proof.
  intros Hs Hw Hsteps.
  enough (G : forall c, server_steps env sends ([], w) c -> Forall (safe saves_wf) (fst c) /\ keyspace_wf (snd c))
    by exact (proj2 (G _ Hsteps)).
  clear Hsteps ps' w'. induction 1 as [|c c' _ [IHp IHw] Hstep]; [by split; [apply Forall_nil_2|]|].
  destruct Hstep as [ps w1 tokens Ht|ps w1 i p p' w2 Hi Hp|ps w1 i r Hi|ps w1 ms nanos Hc]; cbn [fst snd] in *.
  - split; [|done]. apply Forall_app_2; [done|]. apply Forall_singleton, dispatch_saves_wf, Hs, Ht.
  - pose proof (proj1 (Forall_lookup _ _) IHp _ _ Hi) as Hsafe.
    destruct (saves_wf_step p p' w1 w2 Hsafe IHw Hp). split; [by apply Forall_insert|done].
  - split; [by apply Forall_delete|done].
  - by split.
Qed.

Lemma server_keeps_wf_witness :
  exists ps w', server_steps sample_env (fun tokens => tokens = [bs "SADD"; bs "s"; bs "a"])
                  ([], empty_world) (ps, w') /\ keyspace_wf w' /\ live w' (bs "s") <> None.
Proof.
  set (sends := fun tokens => tokens = [bs "SADD"; bs "s"; bs "a"]).
  set (p := dispatch sample_env [bs "SADD"; bs "s"; bs "a"]).
  assert (Hsteps : server_steps sample_env sends ([], empty_world)
                     ([Ret (fst (Backend.run p empty_world))], snd (Backend.run p empty_world))).
  { eapply server_steps_trans; [|apply server_runs, surjective_pairing].
    eapply server_next; [apply server_start|]. by apply (server_arrival _ _ [] empty_world). }
  eexists _, _. split; [exact Hsteps|]. split; [|by vm_compute].
  eapply (server_keeps_wf sample_env sends empty_world); [by intros tokens ->|by apply map_Forall_empty|exact Hsteps].
Defined.

(** RESTORE is the exception: it trusts the element count of its payload. *)
Definition empty_list_payload : list byte :=
  let body := [z2b RDB_TYPE_LIST_QUICKLIST_2; x00] ++ to_le_bytes 2 RDB_MAX_ACCEPT_VERSION in
  body ++ to_le_bytes 8 (crc64 0 body).

(** A payload with a valid checksum that announces no elements is accepted:
    the key exists and holds a list of length 0, which no other command can
    leave behind. *)
Lemma restore_empty_list :
  let '(r, w) := Backend.run (dispatch sample_env [bs "RESTORE"; bs "k"; bs "0"; empty_list_payload]) empty_world in
  r = Some reply_ok /\ live w (bs "k") = Some (mk_entry None (VList [])) /\
  fst (Backend.run (dispatch sample_env [bs "EXISTS"; bs "k"]) w) = Some (RInteger 1) /\
  fst (Backend.run (dispatch sample_env [bs "LLEN"; bs "k"]) w) = Some (RInteger 0).
Proof. by vm_compute. Qed.

(** ** Looking a command up *)

Lemma command_names_nodup env : NoDup (command_names env).
Proof. apply (bool_decide_unpack _). by vm_compute. Qed.

Lemma find_command_of env cmd f : In (cmd, f) (command_table env) -> find_command env cmd = Some f.
Proof.
  pose proof (command_names_nodup env) as Hnd. unfold command_names in Hnd. unfold find_command.
  induction (command_table env) as [|[c g] t IH]; [done|]. cbn [map fst] in Hnd. apply NoDup_cons in Hnd as [Hc Hnd].
  cbn [List.find fst]. unfold str_eqb. destruct (bool_decide_reflect (c = cmd)) as [->|Hne].
  - intros [[= ->]|Hin]; [done|]. exfalso. apply Hc, list_elem_of_In. by apply (in_map fst) in Hin.
  - intros [[= -> ->]|Hin]; [done|]. by apply IH.
Qed.

(** Finds the row of a command in the table. *)
Ltac find_in_table := unfold command_table; repeat first [left; reflexivity | right].
Ltac find_row := apply find_command_of; find_in_table.

Lemma find_SET env : find_command env (bs "SET") = Some (full handle_set).
Proof. find_row. Qed.
Lemma find_GET env : find_command env (bs "GET") = Some (full handle_get).
Proof. find_row. Qed.
