(* ===== verification/Answers.v ===== *)
(** * Answers

    Every request is answered: which requests make a handler panic, and that
    all others get a reply. *)

From S2P Require Import Prelude.
From S2P Require Import Text.
From S2P Require Import BTree.
From S2P Require Import F64.
From S2P Require Import Stream.
From S2P Require Import Value.
From S2P Require Import Hll.
From S2P Require Import Backend.
From S2P Require Import Linearizability.
From S2P Require Import Contracts.
From S2P Require Import Collections.
From S2P Require Import Strings.
From S2P Require Import Hashes.
From S2P Require Import Lists.
From S2P Require Import Sets.
From S2P Require Import ZSets.
From S2P Require Import StreamOps.
From S2P Require Import Rdb.
From S2P Require Import Keyspace.
From S2P Require Import Mutations.
From S2P Require Import Geo.
From S2P Require Import Resp.
From S2P Require Import Commands.
From S2P Require Import CmdStrings.
From S2P Require Import CmdKeys.
From S2P Require Import CmdCollections.
From S2P Require Import CmdZSets.
From S2P Require Import CmdStreams.
From S2P Require Import CmdServer.
From S2P Require Import CmdGeo.
From S2P Require Import Bits.
From S2P Require Import Lcs.
From S2P Require Import Dispatch.
From S2P Require Import Obeys.
From S2P Require Import Requests.

(** ** The options of XREAD and XREADGROUP that never reach STREAMS *)

Inductive unterminated (noack_allowed : bool) : list (list byte) -> Prop :=
| unterminated_nil : unterminated noack_allowed []
| unterminated_count w v rest n :
    upper w = Ok (bs "COUNT") -> stream_count v = Ok n ->
    unterminated noack_allowed rest -> unterminated noack_allowed (w :: v :: rest)
| unterminated_block w v rest n :
    upper w = Ok (bs "BLOCK") -> parse_i64 v (bs "BLOCK") = Ok n ->
    unterminated noack_allowed rest -> unterminated noack_allowed (w :: v :: rest)
| unterminated_noack w rest :
    noack_allowed = true -> upper w = Ok (bs "NOACK") ->
    unterminated noack_allowed rest -> unterminated noack_allowed (w :: rest).

Lemma str_eqb_refl s : str_eqb s s = true.
Proof. by apply bool_decide_eq_true. Qed.

Ltac words := repeat match goal with
  | H : str_eqb _ _ = true |- _ => apply bool_decide_eq_true in H; subst
  | H : upper _ = Ok _ |- _ => rewrite H
  | H : upper _ = _, H2 : upper _ = Ok _ |- _ => rewrite H in H2; simplify_eq
  end.

Lemma parse_xread_opts_none args : forall count, parse_xread_opts args count = None <-> unterminated false args.
Proof.
  induction (Wf_nat.well_founded_ltof _ (@length (list byte)) args) as [args _ IH]. intros count.
  assert (IH' : forall rest c, (length rest < length args)%nat ->
            parse_xread_opts rest c = None <-> unterminated false rest) by (intros; by apply IH). clear IH.
  split.
  - destruct args as [|w rest]; cbn [parse_xread_opts]; [constructor|].
    destruct (upper w) as [tok|] eqn:Hw; [|done].
    destruct (str_eqb tok (bs "COUNT")) eqn:E1; [|destruct (str_eqb tok (bs "BLOCK")) eqn:E2;
      [|by destruct (str_eqb tok (bs "STREAMS"))]].
    + destruct rest as [|v rest]; [done|]. destruct (stream_count v) as [n|] eqn:Hv; [|done]. words.
      intros H%IH'; [by eapply unterminated_count|cbn; lia].
    + destruct rest as [|v rest]; [done|]. destruct (parse_i64 v _) as [n|] eqn:Hv; [|done]. words.
      intros H%IH'; [by eapply unterminated_block|cbn; lia].
  - intros H. destruct H as [|w v rest n Hw Hv H|w v rest n Hw Hv H|]; [done|..|done]; cbn [parse_xread_opts]; rewrite Hw, Hv.
    + apply IH'; [cbn; lia|done].
    + apply IH'; [cbn; lia|done].
Qed.

Lemma parse_xreadgroup_opts_none args :
  forall count noack, parse_xreadgroup_opts args count noack = None <-> unterminated true args.
Proof.
  induction (Wf_nat.well_founded_ltof _ (@length (list byte)) args) as [args _ IH]. intros count noack.
  assert (IH' : forall rest c b, (length rest < length args)%nat ->
            parse_xreadgroup_opts rest c b = None <-> unterminated true rest) by (intros; by apply IH). clear IH.
  split.
  - destruct args as [|w rest]; cbn [parse_xreadgroup_opts]; [constructor|].
    destruct (upper w) as [tok|] eqn:Hw; [|done].
    destruct (str_eqb tok (bs "COUNT")) eqn:E1; [|destruct (str_eqb tok (bs "BLOCK")) eqn:E2;
      [|destruct (str_eqb tok (bs "NOACK")) eqn:E3; [|by destruct (str_eqb tok (bs "STREAMS"))]]].
    + destruct rest as [|v rest]; [done|]. destruct (stream_count v) as [n|] eqn:Hv; [|done]. words.
      intros H%IH'; [by eapply unterminated_count|cbn; lia].
    + destruct rest as [|v rest]; [done|]. destruct (parse_i64 v _) as [n|] eqn:Hv; [|done]. words.
      intros H%IH'; [by eapply unterminated_block|cbn; lia].
    + words. intros H%IH'; [by eapply unterminated_noack|cbn; lia].
  - intros H. destruct H as [|w v rest n Hw Hv H|w v rest n Hw Hv H|w rest _ Hw H]; [done|..];
      cbn [parse_xreadgroup_opts]; rewrite Hw, ?Hv; (apply IH'; [cbn; lia|done]).
Qed.

(** ** Which requests panic *)

(** The handler of [cmd] panics on [args]: XREAD and XREADGROUP index past
    their arguments when STREAMS is missing, RESTORE's decoder overflows. *)
Definition panics_on (cmd : Str) (args : list (list byte)) : Prop :=
  (cmd = bs "XREAD" /\ 3 <= len args /\ unterminated false args) \/
  (cmd = bs "XREADGROUP" /\ exists g0 g c opts, args = g0 :: g :: c :: opts /\ 6 <= len args /\
     is_word g0 (bs "GROUP") = Ok true /\ utf8_valid g = true /\ utf8_valid c = true /\ unterminated true opts) \/
  (cmd = bs "RESTORE" /\ exists k t payload opts ttl flags, args = k :: t :: payload :: opts /\
     utf8_valid k = true /\ parse_i64 t (bs "ttl") = Ok ttl /\ 0 <= ttl /\
     parse_restore_opts opts false false = Ok flags /\ restore_value payload = None).

Definition panics (tokens : list (list byte)) : Prop :=
  match tokens with
  | c :: args => panics_on (to_ascii_uppercase c) args
  | [] => False
  end.

Lemma arg_as_str_ok a s : arg_as_str a = Ok s <-> utf8_valid a = true /\ s = a.
Proof. unfold arg_as_str, from_utf8. destruct (utf8_valid a); cbn; naive_solver. Qed.

Lemma run_total_some (h : handler) w : fst (Backend.run (total h) w) <> None.
Proof. unfold total. rewrite run_bind. by destruct (Backend.run h w). Qed.

Lemma xread_panics args w :
  fst (Backend.run (handle_xread args) w) = None <-> 3 <= len args /\ unterminated false args.
Proof.
  unfold handle_xread. destruct (Z.ltb_spec (len args) 3).
  { split; [by intros ?%run_total_some|intros []; lia]. }
  rewrite <- (parse_xread_opts_none args None). destruct (parse_xread_opts args None) as [o|].
  - split; [by intros ?%run_total_some|by intros []].
  - split; [done|done].
Qed.

Lemma xreadgroup_panics args w :
  fst (Backend.run (handle_xreadgroup args) w) = None <->
  exists g0 g c opts, args = g0 :: g :: c :: opts /\ 6 <= len args /\ is_word g0 (bs "GROUP") = Ok true /\
    utf8_valid g = true /\ utf8_valid c = true /\ unterminated true opts.
Proof.
  destruct args as [|g0 [|g [|c opts]]]; cbn [handle_xreadgroup];
    try (split; [by intros ?%run_total_some|by intros (? & ? & ? & ? & ? & _)]).
  destruct (Z.ltb_spec (len (g0 :: g :: c :: opts)) 6).
  { split; [by intros ?%run_total_some|intros (? & ? & ? & ? & [= -> -> -> ->] & ? & _); lia]. }
  split.
  - destruct (is_word g0 _) as [[]|] eqn:Hg; cbn; [|done..].
    destruct (arg_as_string g) as [g'|] eqn:Eg; cbn; [|done]. destruct (arg_as_string c) as [c'|] eqn:Ec; cbn; [|done].
    destruct (parse_xreadgroup_opts opts None false) eqn:Eo; [by intros ?%run_total_some|]. intros _.
    apply arg_as_str_ok in Eg as [Eg _]. apply arg_as_str_ok in Ec as [Ec _].
    exists g0, g, c, opts. split_and!; [done..|by eapply parse_xreadgroup_opts_none].
  - intros (? & ? & ? & ? & [= -> -> -> ->] & _ & Hg & Eg & Ec & Ho). rewrite Hg. cbn.
    unfold arg_as_string. rewrite (proj2 (arg_as_str_ok _ _) (conj Eg eq_refl)),
      (proj2 (arg_as_str_ok _ _) (conj Ec eq_refl)). cbn.
    by rewrite (proj2 (parse_xreadgroup_opts_none _ None false) Ho).
Qed.

Lemma restore_panics args w :
  fst (Backend.run (handle_restore args) w) = None <->
  exists k t payload opts ttl flags, args = k :: t :: payload :: opts /\ utf8_valid k = true /\
    parse_i64 t (bs "ttl") = Ok ttl /\ 0 <= ttl /\ parse_restore_opts opts false false = Ok flags /\
    restore_value payload = None.
Proof.
  destruct args as [|k [|t [|payload opts]]]; cbn [handle_restore];
    try (split; [by intros ?%run_total_some|by intros (? & ? & ? & ? & ? & ? & ? & _)]).
  assert (Hrun : forall key ttl replace abs_ttl,
    fst (Backend.run (answer_partial (restore key payload ttl replace abs_ttl) reply_unit) w) = None <->
    restore_value payload = None).
  { intros. unfold answer_partial. rewrite run_bind, run_restore. destruct (restore_value payload) as [[v|e]|]; [|done..].
    by destruct (replace || _). }
  split.
  - destruct (arg_as_string k) as [k'|] eqn:Ek; cbn [rbind]; [|done].
    destruct (parse_i64 t _) as [ttl|] eqn:Et; cbn [rbind]; [|done]. destruct (Z.ltb_spec ttl 0); [done|].
    destruct (parse_restore_opts opts false false) as [[r a]|] eqn:Eo; cbn [rbind]; [|done]. intros Hn%Hrun.
    apply arg_as_str_ok in Ek as [Ek _]. by exists k, t, payload, opts, ttl, (r, a).
  - intros (? & ? & ? & ? & ttl & [r a] & [= -> -> -> ->] & Ek & -> & Ht & -> & Hp).
    unfold arg_as_string. rewrite (proj2 (arg_as_str_ok _ _) (conj Ek eq_refl)). cbn [rbind].
    rewrite (proj2 (Z.ltb_ge _ _) Ht). by apply Hrun.
Qed.

(** ** The walks *)

(** The fuel of the walks is enough for the store: one page of 1000 keys each. *)
Definition enough_fuel (env : Env) (w : world) : Prop :=
  (0 < fuel env)%nat /\ len (sorted_keys w) <= 1000 * Z.of_nat (fuel env) /\ len (sorted_keys w) <= i64_max.

Lemma run_answer_partial {A} (p : prog kvE (option (Result A))) f w :
  fst (Backend.run p w) <> None -> fst (Backend.run (answer_partial p f) w) <> None.
Proof. unfold answer_partial. rewrite run_bind. by destruct (Backend.run p w) as [[r|] w']. Qed.

Lemma run_dbsize_some env w : enough_fuel env w -> fst (Backend.run (dbsize (fuel env)) w) <> None.
Proof.
  intros (H1 & H2 & H3). unfold dbsize, count_keys.
  by rewrite (count_keys_walk_from (fuel env) w 0%nat None 0).
Qed.

Lemma run_keyspace_stats_some env w : enough_fuel env w -> fst (Backend.run (keyspace_stats (fuel env)) w) <> None.
Proof.
  intros H%run_dbsize_some. unfold keyspace_stats. rewrite run_bind. by destruct (Backend.run (dbsize _) w) as [[] w'].
Qed.

Lemma run_keys_some env pattern w :
  enough_fuel env w -> fst (Backend.run (keys (matches env) (fuel env) pattern) w) <> None.
Proof. intros (H1 & H2 & H3). by destruct (keys_complete (matches env) pattern (fuel env) w H1 H2) as [-> _]. Qed.

Lemma run_random_key_some env w :
  enough_fuel env w -> fst (Backend.run (random_key (matches env) (fuel env)) w) <> None.
Proof.
  intros H%(run_keys_some _ (bs "*")). unfold random_key. rewrite run_bind.
  destruct (Backend.run (keys _ _ _) w) as [[[[|k ks]|e]|] w']; [done..| |done|done].
  unfold pseudo_rand_u64. by rewrite run_bind.
Qed.

Lemma run_handle_info_some env args w :
  enough_fuel env w ->
  fst (Backend.run (handle_info (fuel env) (process_id env) (started_at_ms env) args) w) <> None.
Proof.
  intros Hf. unfold handle_info. destruct (match args with [] => _ | _ => _ end) as [section|]; [|done].
  rewrite run_bind. destruct (Backend.run _ w) as [server w1] eqn:E.
  assert (w1 = w) as ->.
  { destruct (info_section_included section (bs "server")); cbn in E; congruence. }
  destruct (info_section_included section (bs "keyspace")); [|done].
  by apply run_answer_partial, run_keyspace_stats_some.
Qed.

Lemma rows_answer env w :
  enough_fuel env w ->
  Forall (fun row => forall args, fst (Backend.run (snd row args) w) = None <-> panics_on (fst row) args)
    (command_table env).
Proof.
  intros Hf. each_row.
  all: intros args; unfold panics_on.
  all: try first [rewrite xread_panics | rewrite xreadgroup_panics | rewrite restore_panics].
  all: first
    [ by (split; [by intros ?%run_total_some|by intros [[] | [[] | []]]])
    | by (split; [done|by intros [[] | [[] | []]]])
    | by (split; [intros H; first [by left | by right; left | by right; right]|by intros [[? ?] | [[? ?] | [? ?]]]])
    | split; [intros H; exfalso; revert H|by intros [[] | [[] | []]]] ].
  - by apply run_handle_info_some.
  - destruct args; [by apply run_answer_partial, run_dbsize_some|by apply run_total_some].
  - destruct args; [by apply run_answer_partial, run_random_key_some|by apply run_total_some].
  - destruct args as [|p [|]]; cbn [handle_keys]; [by apply run_total_some| |by apply run_total_some].
    destruct (arg_as_str p); [by apply run_answer_partial, run_keys_some|done].
Qed.


