(* ===== verification/EndToEnd.v ===== *)
(** * EndToEnd

    From the bytes a client sends to the bytes it gets back, through the RESP
    parser, the dispatch and the storage engine; the two front ends against each
    other; the settings. *)

From S2P Require Import Prelude.
From S2P Require Import Text.
From S2P Require Import BTree.
From S2P Require Import F64.
From S2P Require Import Stream.
From S2P Require Import Value.
From S2P Require Import Hll.
From S2P Require Import Backend.
From S2P Require Import Linearizability.
From S2P Require Import Contracts.
From S2P Require Import Collections.
From S2P Require Import Strings.
From S2P Require Import Hashes.
From S2P Require Import Lists.
From S2P Require Import Sets.
From S2P Require Import ZSets.
From S2P Require Import StreamOps.
From S2P Require Import Rdb.
From S2P Require Import Keyspace.
From S2P Require Import Mutations.
From S2P Require Import Geo.
From S2P Require Import Resp.
From S2P Require Import Commands.
From S2P Require Import CmdStrings.
From S2P Require Import CmdKeys.
From S2P Require Import CmdCollections.
From S2P Require Import CmdZSets.
From S2P Require Import CmdStreams.
From S2P Require Import CmdServer.
From S2P Require Import CmdGeo.
From S2P Require Import Bits.
From S2P Require Import Lcs.
From S2P Require Import Dispatch.
From S2P Require Import Obeys.
From S2P Require Import Requests.
From S2P Require Import Frontend.

(** ** Dispatched SET and GET *)

Lemma dispatch_SET env k v w :
  from_utf8 k = Some k ->
  Backend.run (dispatch env [bs "SET"; k; v]) w = (Some reply_ok, put k (mk_entry None (VString v)) w).
Proof.
  intros Hk. unfold dispatch. rewrite (run_known env (bs "SET") (full handle_set)) by (done || apply find_SET).
  unfold full, total, handle_set, arg_as_string. rewrite (arg_as_str_utf8 _ _ Hk). cbn [parse_set_opts pbind].
  unfold answer, set_string. rewrite !run_bind. cbn [trigger Backend.run handle].
  by unfold kv_save.
Qed.

Lemma dispatch_GET env k w :
  from_utf8 k = Some k ->
  Backend.run (dispatch env [bs "GET"; k]) w =
    (Some match live w k with
          | Some {| value := VString d |} => bulk d
          | Some _ => reply_of (Err (wrong_type k))
          | None => RNil
          end, gc k w).
Proof.
  intros Hk. unfold dispatch. rewrite (run_known env (bs "GET") (full handle_get)) by (done || apply find_GET).
  unfold full, total, handle_get. rewrite (arg_as_str_utf8 _ _ Hk). unfold answer. rewrite !run_bind, run_get_string.
  by destruct (live w k) as [[exp []]|].
Qed.

(** ** Requests on the wire *)

Section wire.
Variable extend_encode : BytesFrame -> list byte + string.
Variable decode : list byte -> option BytesFrame + string.
Variable base64_decode : Str -> list byte + Str.
Variable env : Env.

Definition http_handle : Body -> prog kvE (option (transport Response)) := Frontend.handle extend_encode decode env.
Definition ws_message : WsRequest -> prog kvE (option (transport WsOutcome)) :=
  ws_handle extend_encode decode env base64_decode.

(** The bytes of a request whose arguments are [argv]. *)
Definition requests (body : list byte) (argv : list (list byte)) : Prop :=
  decode body = inl (Some (FArray (map FBulkString argv))).

Definition ok_response (b : list byte) : transport Response :=
  inl {| status := 200; content_type := bs "application/resp"; response_body := BodyBinary b |}.

Lemma requests_parse body argv : requests body argv -> parse_command decode body = Ok argv.
Proof.
  intros H. unfold parse_command. rewrite H. cbn [command_of_frame]. clear H.
  induction argv as [|a argv IH]; [done|]. cbn. by rewrite IH.
Qed.

Lemma http_dispatch body argv w :
  parse_command decode body = Ok argv -> argv <> [] ->
  Backend.run (http_handle (BodyBinary body)) w =
    (let '(reply, w') := Backend.run (dispatch env argv) w in (option_map (response extend_encode 200) reply, w')).
Proof.
  intros H Hne. unfold http_handle, Frontend.handle. cbn [body_bytes]. rewrite H.
  destruct argv as [|c args]; [done|]. rewrite run_bind. by destruct (Backend.run _ w).
Qed.

Lemma response_ok r b : extend_encode (to_frame r) = inl b -> response extend_encode 200 r = ok_response b.
Proof. intros H. unfold response, encode_reply, encode. by rewrite H. Qed.

(** C13: what SET stores over HTTP, GET reads back, byte for byte.  For
    any valid key and any value, if the two bodies decode to SET k v and GET k,
    both responses are 200, carry the encodings of +OK and of v, the second
    request leaves the store alone, and the first no key but k. *)
Theorem http_set_get k v body1 body2 ok val w :
  from_utf8 k = Some k ->
  requests body1 [bs "SET"; k; v] -> requests body2 [bs "GET"; k] ->
  extend_encode (FSimpleString (bs "OK")) = inl ok -> extend_encode (FBulkString v) = inl val ->
  let '(r1, w1) := Backend.run (http_handle (BodyBinary body1)) w in
  let '(r2, w2) := Backend.run (http_handle (BodyBinary body2)) w1 in
  r1 = Some (ok_response ok) /\ r2 = Some (ok_response val) /\ w2 = w1 /\
  (forall k', k <> k' -> live w1 k' = live w k').
Proof.
  intros Hk H1%requests_parse H2%requests_parse Hok Hval.
  rewrite (http_dispatch body1 _ w H1), dispatch_SET by done.
  cbv beta iota. cbn [option_map].
  set (w1 := put k (mk_entry None (VString v)) w).
  assert (Hlive : live w1 k = Some (mk_entry None (VString v))) by (unfold w1; by rewrite live_put_eq).
  rewrite (http_dispatch body2 _ w1 H2), dispatch_GET by done. rewrite Hlive. cbv beta iota. cbn [mk_entry value option_map].
  rewrite (response_ok reply_ok ok) by done. rewrite (response_ok (bulk v) val) by done.
  split_and!; [done..| |].
  - unfold gc, w1. cbn [put store]. rewrite lookup_insert_eq. done.
  - intros k' Hne. unfold w1. by rewrite live_put_ne.
Qed.

(** A message of the default route. *)
Definition message (conn : Str) (body : list byte) : WsRequest :=
  {| route_key := Some (bs "$default"); connection_id := Some conn; Frontend.body := Some body;
     is_base64_encoded := false |}.

(** The bytes a client receives. *)
Definition http_bytes (r : transport Response) : option (list byte) :=
  match r with inl r => Some (body_bytes (response_body r)) | inr _ => None end.
Definition ws_bytes (r : transport WsOutcome) : option (list byte) :=
  match r with inl (WsReply _ b) => Some b | _ => None end.

(** C19: the two front ends are the same server.  The same bytes, sent as
    an HTTP body or as a WebSocket message, leave the same store and bring back
    the same bytes (or no reply, or a failure to encode it, on both), unless they
    decode to an empty array, which HTTP answers with status 400 and WebSocket
    with dispatch's own error, the store untouched by both. *)
Theorem front_ends_agree conn body w :
  let '(h, w1) := Backend.run (http_handle (BodyBinary body)) w in
  let '(s, w2) := Backend.run (ws_message (message conn body)) w in
  w1 = w2 /\
  (parse_command decode body <> Ok [] -> option_map http_bytes h = option_map ws_bytes s) /\
  (parse_command decode body = Ok [] ->
     w1 = w /\ h = Some (response extend_encode 400 (reply_err (bs "empty command"))) /\
     s = Some (ws_reply extend_encode conn (reply_err (bs "ERR resp parse: empty command array")))).
Proof.
  assert (Henc : forall code r, http_bytes (response extend_encode code r) = ws_bytes (ws_reply extend_encode conn r)).
  { intros code r. unfold response, ws_reply, encode_reply. by destruct (encode extend_encode r). }
  unfold http_handle, Frontend.handle, ws_message, ws_handle, message, decode_body. cbn [body_bytes route_key Frontend.connection_id Frontend.body is_base64_encoded default from_option]; unfold id.
  change (is_control_route (Some (bs "$default"))) with false. cbv iota.
  destruct (parse_command decode body) as [[|c args]|e].
  - unfold dispatch, Dispatch.run. cbn [pbind Backend.run option_map]. split_and!; done.
  - rewrite !run_bind. destruct (Backend.run (dispatch env (c :: args)) w) as [[r|] w']; cbn [Backend.run option_map];
      split_and!; try done. intros _. by rewrite Henc.
  - cbn [Backend.run option_map]. split_and!; try done. intros _. unfold error_response. by rewrite Henc.
Qed.
End wire.

(** A codec for the witnesses: two requests by name, and replies as they are. *)
Definition sample_encode (f : BytesFrame) : list byte + string :=
  match f with
  | FSimpleString s => inl (x2b :: s)
  | FError s => inl (x2d :: s)
  | FBulkString b => inl (x24 :: b)
  | _ => inl []
  end.
Definition sample_decode (body : list byte) : option BytesFrame + string :=
  if str_eqb body (bs "set") then inl (Some (FArray (map FBulkString [bs "SET"; bs "k"; bs "v"])))
  else if str_eqb body (bs "get") then inl (Some (FArray (map FBulkString [bs "GET"; bs "k"])))
  else inl None.

Lemma http_set_get_witness :
  let h := http_handle sample_encode sample_decode sample_env in
  let '(r1, w1) := Backend.run (h (BodyBinary (bs "set"))) empty_world in
  let '(r2, w2) := Backend.run (h (BodyBinary (bs "get"))) w1 in
  r1 = Some (ok_response (bs "+OK")) /\ r2 = Some (ok_response (bs "$v")) /\ w2 = w1 /\
  (forall k', bs "k" <> k' -> live w1 k' = live empty_world k').
Proof.
  apply (http_set_get sample_encode sample_decode sample_env (bs "k") (bs "v") (bs "set") (bs "get") (bs "+OK") (bs "$v"));
    by vm_compute.
Defined.

Lemma front_ends_agree_witness :
  let '(h, w1) := Backend.run (http_handle sample_encode sample_decode sample_env (BodyBinary (bs "get"))) empty_world in
  let '(s, w2) := Backend.run (ws_message sample_encode sample_decode inl sample_env (message (bs "conn") (bs "get"))) empty_world in
  option_map http_bytes h = option_map ws_bytes s.
Proof.
  pose proof (front_ends_agree sample_encode sample_decode inl sample_env (bs "conn") (bs "get") empty_world) as H.
  destruct (Backend.run (http_handle _ _ _ _) empty_world) as [h w1]. destruct (Backend.run (ws_message _ _ _ _ _) empty_world) as [s w2].
  apply H. by vm_compute.
Defined.

(** ** Settings *)

(** Reading the settings fails on exactly two mistakes: a backend name that is
    not one of the three spellings, or S3, the default, without a bucket. *)
Lemma settings_from_env_ok var :
  (exists s, Settings_from_env var = Ok s) <->
  match var (bs "RUSTYANT_BACKEND") with
  | None => var (bs "BUCKET") <> None
  | Some b =>
      let l := to_ascii_lowercase b in
      l = bs "s3" /\ var (bs "BUCKET") <> None \/ l = bs "dynamodb" \/ l = bs "dynamo"
  end.
Proof.
  unfold Settings_from_env, BackendKind_parse, str_eqb.
  destruct (var (bs "RUSTYANT_BACKEND")) as [b|]; cbv zeta.
  - destruct (bool_decide_reflect (to_ascii_lowercase b = bs "s3")) as [E|E]; cbn [rbind].
    + destruct (var (bs "BUCKET")); cbn; rewrite ?E; naive_solver.
    + destruct (bool_decide_reflect (to_ascii_lowercase b = bs "dynamodb")) as [E2|E2]; cbn [orb rbind]; [naive_solver|].
      destruct (bool_decide_reflect (to_ascii_lowercase b = bs "dynamo")) as [E3|E3]; cbn [orb rbind]; naive_solver.
  - cbn [rbind]. destruct (var (bs "BUCKET")); cbn; naive_solver.
Qed.
