(* ===== verification/ZRanges.v ===== *)
(** * ZRanges

    The range and aggregate commands on sorted sets against their
    specifications: ZRANGE's modes against the older commands, and ZINTER, ZUNION
    and ZDIFF against the algebra of scored sets, whatever order a [HashMap]
    iterates in. *)

From S2P Require Import Prelude.
From S2P Require Import Text.
From S2P Require Import BTree.
From S2P Require Import F64.
From S2P Require Import Stream.
From S2P Require Import Value.
From S2P Require Import Hll.
From S2P Require Import Backend.
From S2P Require Import Linearizability.
From S2P Require Import Contracts.
From S2P Require Import Collections.
From S2P Require Import Strings.
From S2P Require Import Hashes.
From S2P Require Import Lists.
From S2P Require Import Sets.
From S2P Require Import ZSets.
From S2P Require Import Keyspace.
From S2P Require Import Mutations.
From S2P Require Import Geo.
From S2P Require Import Resp.
From S2P Require Import Commands.
From S2P Require Import CmdCollections.
From S2P Require Import CmdZSets.
From S2P Require Import Bits.

(** ** The unified ZRANGE and the older commands *)

Definition limit_tail (limit : option (Z * Z)) : list (list byte) :=
  match limit with Some (o, c) => [bs "LIMIT"; print_Z o; print_Z c] | None => [] end.
Definition score_tail (with_scores : bool) (limit : option (Z * Z)) : list (list byte) :=
  (if with_scores then [bs "WITHSCORES"] else []) ++ limit_tail limit.
Definition limit_ok (limit : option (Z * Z)) : Prop :=
  match limit with Some (o, c) => in_i64 o = true /\ in_i64 c = true | None => True end.

Ltac parse_word := match goal with |- context [upper (bs ?x)] => change (upper (bs x)) with (@Ok Str (bs x)); cbn [rbind] end.

Lemma score_tail_opts mode rev_ ws limit :
  limit_ok limit -> mode <> Rank ->
  parse_zrange_opts_loop (bs "ZRANGE") (score_tail ws limit)
    {| zr_mode := mode; zr_rev := rev_; zr_limit := None; zr_with_scores := false |} =
    Ok {| zr_mode := mode; zr_rev := rev_; zr_limit := limit; zr_with_scores := ws |}.
Proof.
  intros Hl Hm. destruct ws, limit as [[o c]|]; cbn [score_tail limit_tail app parse_zrange_opts_loop];
    repeat parse_word; cbn [zr_mode zr_rev zr_limit zr_with_scores]; try done.
  all: destruct Hl as [Ho Hc]; repeat first [rewrite (parse_i64_print _ _ Ho) | rewrite (parse_i64_print _ _ Hc) | progress cbn [rbind]].
  all: done.
Qed.

Lemma score_tail_legacy ws limit :
  limit_ok limit -> parse_zrangebyscore_tail (score_tail ws limit) false None = Ok (ws, limit).
Proof.
  intros Hl. destruct ws, limit as [[o c]|]; cbn [score_tail limit_tail app parse_zrangebyscore_tail];
    repeat parse_word; try done.
  all: destruct Hl as [Ho Hc]; repeat first [rewrite (parse_i64_print _ _ Ho) | rewrite (parse_i64_print _ _ Hc) | progress cbn [rbind]].
  all: done.
Qed.

Lemma lex_tail_legacy limit : limit_ok limit -> parse_lex_limit (limit_tail limit) = Ok limit.
Proof.
  intros Hl. destruct limit as [[o c]|]; [|done]. cbn [limit_tail parse_lex_limit].
  change (is_word (bs "LIMIT") (bs "LIMIT")) with (@Ok bool true). cbn [rbind negb].
  destruct Hl as [Ho Hc]. by rewrite (parse_i64_print _ _ Ho), (parse_i64_print _ _ Hc).
Qed.

Definition mode_word (mode : ZRangeMode) : list byte :=
  match mode with Lex => bs "BYLEX" | _ => bs "BYSCORE" end.

Lemma range_options (ws : bool) limit mode (rev_ : bool) :
  limit_ok limit -> mode <> Rank -> (mode = Lex -> ws = false) ->
  parse_zrange_opts (bs "ZRANGE")
    (mode_word mode :: (if rev_ then [bs "REV"] else []) ++ score_tail ws limit) =
    Ok {| zr_mode := mode; zr_rev := rev_; zr_limit := limit; zr_with_scores := ws |}.
Proof.
  intros Hl Hm Hlex. unfold parse_zrange_opts. destruct mode; [done| |].
  - cbn [mode_word parse_zrange_opts_loop]. parse_word. cbn [zr_mode].
    change (str_eqb (bs "BYSCORE") (bs "BYSCORE")) with true. cbv iota. cbn [zr_rev zr_limit zr_with_scores].
    destruct rev_; cbn [app parse_zrange_opts_loop].
    + parse_word. change (str_eqb (bs "REV") (bs "BYSCORE")) with false. change (str_eqb (bs "REV") (bs "BYLEX")) with false.
      change (str_eqb (bs "REV") (bs "REV")) with true. cbv iota. cbn [zr_mode zr_limit zr_with_scores].
      by rewrite score_tail_opts.
    + by rewrite score_tail_opts.
  - rewrite Hlex by done. cbn [mode_word parse_zrange_opts_loop]. parse_word.
    change (str_eqb (bs "BYLEX") (bs "BYSCORE")) with false. change (str_eqb (bs "BYLEX") (bs "BYLEX")) with true.
    cbv iota. cbn [zr_mode zr_rev zr_limit zr_with_scores].
    destruct rev_; cbn [app parse_zrange_opts_loop].
    + parse_word. change (str_eqb (bs "REV") (bs "BYSCORE")) with false. change (str_eqb (bs "REV") (bs "BYLEX")) with false.
      change (str_eqb (bs "REV") (bs "REV")) with true. cbv iota. cbn [zr_mode zr_limit zr_with_scores].
      by rewrite score_tail_opts.
    + by rewrite score_tail_opts.
Qed.

Lemma byscore_forms k lo hi ws limit min max :
  limit_ok limit -> score_bound_arg lo = Ok min -> score_bound_arg hi = Ok max ->
  handle_zrange (k :: lo :: hi :: bs "BYSCORE" :: score_tail ws limit) =
    handle_zrangebyscore (k :: lo :: hi :: score_tail ws limit) /\
  handle_zrange (k :: hi :: lo :: bs "BYSCORE" :: bs "REV" :: score_tail ws limit) =
    handle_zrevrangebyscore (k :: hi :: lo :: score_tail ws limit).
Proof.
  intros Hl Hlo Hhi. unfold handle_zrange, handle_zrangebyscore, handle_zrevrangebyscore.
  pose proof (range_options ws limit Score false Hl ltac:(done) ltac:(done)) as E1.
  pose proof (range_options ws limit Score true Hl ltac:(done) ltac:(done)) as E2.
  cbn [mode_word app] in E1, E2. rewrite E1, E2, Hlo, Hhi, score_tail_legacy by done.
  unfold execute_zrange, zrange_pairs. cbn [zr_mode zr_rev zr_limit zr_with_scores]. by rewrite Hlo, Hhi.
Qed.

(** Members in key order are sorted already. *)
Definition by_key (a b : zentry) : comparison := kcmp (fst a) (fst b).

Lemma insert_by_head x (l : list zentry) :
  Forall (fun y => by_key x y = Lt) l -> insert_by by_key x l = x :: l.
Proof. destruct l as [|y l]; [done|]. intros H%Forall_inv. cbn [insert_by]. by rewrite H. Qed.

Lemma sort_by_key_wf (m : zmap) : bt_wf m -> sort_by by_key m = m.
Proof.
  induction m as [|[k v] m IH]; [done|]. intros [Hk Hm]%bt_wf_cons_inv. cbn [sort_by]. rewrite IH by done.
  apply insert_by_head. exact Hk.
Qed.

Lemma map_fst_filter f (m : zmap) :
  map fst (List.filter (fun ms => f (fst ms)) m) = List.filter f (bt_keys m).
Proof. unfold bt_keys. induction m as [|[k v] m IH]; [done|]. cbn. destruct (f k); cbn; by rewrite IH. Qed.

Lemma map_apply_limit (l : list zentry) limit :
  limit_ok limit -> map fst (apply_limit_pairs l limit) = apply_lex_limit (map fst l) limit.
Proof.
  intros _. destruct limit as [[o c]|]; [|done]. unfold apply_limit_pairs, apply_lex_limit.
  assert (usize_of_i64 (Z.max o 0) 0 = Z.max o 0) as -> by (unfold usize_of_i64; by destruct (Z.leb_spec 0 (Z.max o 0)); lia).
  unfold len. rewrite length_map. destruct (_ <=? _); [done|].
  destruct (0 <=? c); [by rewrite skipn_map, firstn_map|by rewrite skipn_map].
Qed.

Lemma pairs_to_reply_members l : pairs_to_reply l false = bulk_array (map fst l).
Proof. unfold pairs_to_reply, bulk_array. f_equal. induction l as [|[m s] l IH]; [done|]. cbn. by rewrite IH. Qed.

Lemma run_read_zset {A} key (d : A) f w :
  run (read_zset key d f) w =
    (match live w key with
     | Some {| value := VZSet m |} => Ok (f m)
     | Some _ => Err (wrong_type key)
     | None => Ok d
     end, gc key w).
Proof. unfold read_zset. rewrite run_bind, run_load. by destruct (live w key) as [[exp []]|]. Qed.

Lemma bt_wf_lex min max (m : zmap) : bt_wf m -> bt_wf (List.filter (fun ms : zentry => in_lex min max (fst ms)) m).
Proof.
  intros Hm. pose proof (bt_wf_filter (fun k _ => in_lex min max k) m Hm) as H. unfold bt_filter in H.
  by rewrite (filter_ext _ (fun ms : zentry => in_lex min max (fst ms))) in H by (by intros []).
Qed.

Lemma run_range_by_lex key min max rev_ limit w :
  keyspace_wf w -> limit_ok limit ->
  run (answer (range_by_lex key min max rev_ limit) (fun pairs => pairs_to_reply pairs false)) w =
  run (answer (if rev_ then zrevrangebylex key max min limit else zrangebylex key min max limit) bulk_array) w.
Proof.
  intros Hw Hl. unfold answer, range_by_lex, zitems.
  assert (E : (if rev_ then zrevrangebylex key max min limit else zrangebylex key min max limit) =
    read_zset key [] (fun m => apply_lex_limit (rev_if rev_ (filter_zset_by_lex m min max)) limit)) by (by destruct rev_).
  rewrite E, !run_bind, !run_read_zset. pose proof (keyspace_wf_live key w Hw) as Hlive.
  destruct (live w key) as [[exp [| | | |m|]]|]; cbn [run]; try done.
  - cbn in Hlive. destruct Hlive as [Hm _]. rewrite pairs_to_reply_members, map_apply_limit by done.
    unfold filter_zset_by_lex, rev_if. rewrite <- map_fst_filter.
    fold by_key. change (fun a b : zentry => kcmp (fst a) (fst b)) with by_key.
    rewrite (sort_by_key_wf (List.filter _ m)) by by apply bt_wf_lex.
    by destruct rev_; rewrite ?map_rev.
  - destruct rev_, limit as [[o c]|]; cbn; unfold apply_limit_pairs, apply_lex_limit, len; cbn; (repeat case_match); rewrite ?skipn_nil, ?firstn_nil; try done.
Qed.

Lemma bylex_forms k lo hi limit key min max w :
  keyspace_wf w -> limit_ok limit ->
  arg_as_str k = Ok key -> lex_bound_arg lo = Ok min -> lex_bound_arg hi = Ok max ->
  run (handle_zrange (k :: lo :: hi :: bs "BYLEX" :: limit_tail limit)) w =
    run (handle_zrangebylex (k :: lo :: hi :: limit_tail limit)) w /\
  run (handle_zrange (k :: hi :: lo :: bs "BYLEX" :: bs "REV" :: limit_tail limit)) w =
    run (handle_zrevrangebylex (k :: hi :: lo :: limit_tail limit)) w.
Proof.
  intros Hw Hl Hk Hlo Hhi.
  pose proof (range_options false limit Lex false Hl ltac:(done) ltac:(done)) as E1.
  pose proof (range_options false limit Lex true Hl ltac:(done) ltac:(done)) as E2.
  cbn [mode_word app score_tail] in E1, E2.
  assert (Ha : lex_arity_ok (limit_tail limit) = true) by (by destruct limit as [[]|]).
  unfold handle_zrange, handle_zrangebylex, handle_zrevrangebylex.
  rewrite E1, E2, Ha, Hk, Hlo, Hhi, lex_tail_legacy by done. cbn [negb].
  unfold execute_zrange, zrange_pairs. cbn [zr_mode zr_rev zr_limit zr_with_scores].
  rewrite Hlo, Hhi.
  split; [exact (run_range_by_lex key min max false limit w Hw Hl)|exact (run_range_by_lex key min max true limit w Hw Hl)].
Qed.

(** C24: ZRANGE's forms are the older commands. For every key, every valid pair of bounds
    and every LIMIT, on a well-formed store: ZRANGE ... BYSCORE (with or without
    WITHSCORES) leaves the store and answers exactly as ZRANGEBYSCORE does, with REV as
    ZREVRANGEBYSCORE does; ZRANGE ... BYLEX as ZRANGEBYLEX, with REV as ZREVRANGEBYLEX
    -- whose code filters the sorted map's keys directly, where ZRANGE reads all the
    pairs, filters and sorts them; and ZRANGE ... REV by rank as ZREVRANGE. *)
Theorem zrange_forms k lo hi ws limit key w :
  keyspace_wf w -> limit_ok limit -> arg_as_str k = Ok key ->
  (forall min max, score_bound_arg lo = Ok min -> score_bound_arg hi = Ok max ->
    run (handle_zrange (k :: lo :: hi :: bs "BYSCORE" :: score_tail ws limit)) w =
      run (handle_zrangebyscore (k :: lo :: hi :: score_tail ws limit)) w /\
    run (handle_zrange (k :: hi :: lo :: bs "BYSCORE" :: bs "REV" :: score_tail ws limit)) w =
      run (handle_zrevrangebyscore (k :: hi :: lo :: score_tail ws limit)) w) /\
  (forall min max, lex_bound_arg lo = Ok min -> lex_bound_arg hi = Ok max ->
    run (handle_zrange (k :: lo :: hi :: bs "BYLEX" :: limit_tail limit)) w =
      run (handle_zrangebylex (k :: lo :: hi :: limit_tail limit)) w /\
    run (handle_zrange (k :: hi :: lo :: bs "BYLEX" :: bs "REV" :: limit_tail limit)) w =
      run (handle_zrevrangebylex (k :: hi :: lo :: limit_tail limit)) w) /\
  handle_zrange (k :: lo :: hi :: bs "REV" :: score_tail ws None) =
    handle_zrevrange (k :: lo :: hi :: score_tail ws None).
Proof.
  intros Hw Hl Hk. split_and!.
  - intros min max Hlo Hhi. by destruct (byscore_forms k lo hi ws limit min max Hl Hlo Hhi) as [-> ->].
  - intros min max Hlo Hhi. by apply (bylex_forms k lo hi limit key min max).
  - unfold handle_zrange, handle_zrevrange. by destruct ws.
Qed.

Definition sample_zset : world :=
  put (bs "z") {| value := VZSet [(bs "a", f64_of_uint 1); (bs "b", f64_of_uint 2); (bs "c", f64_of_uint 3)];
                  expires_at_ms := None |} empty_world.

Lemma sample_zset_world_wf : keyspace_wf sample_zset.
Proof.
  apply keyspace_wf_put; [|by apply map_Forall_empty]. split; [|done]. repeat constructor.
Qed.

Lemma zrange_forms_witness :
  run (handle_zrange [bs "z"; bs "(1"; bs "+inf"; bs "BYSCORE"; bs "LIMIT"; bs "0"; bs "2"]) sample_zset =
    run (handle_zrangebyscore [bs "z"; bs "(1"; bs "+inf"; bs "LIMIT"; bs "0"; bs "2"]) sample_zset /\
  run (handle_zrange [bs "z"; bs "+"; bs "(a"; bs "BYLEX"; bs "REV"]) sample_zset =
    run (handle_zrevrangebylex [bs "z"; bs "+"; bs "(a"]) sample_zset /\
  fst (run (handle_zrevrangebylex [bs "z"; bs "+"; bs "(a"]) sample_zset) = Ok (bulk_array [bs "c"; bs "b"]).
Proof.
  split_and!; [| |by vm_compute].
  - exact (proj1 (proj1 (zrange_forms (bs "z") (bs "(1") (bs "+inf") false (Some (0, 2)) (bs "z") _ sample_zset_world_wf
      ltac:(by vm_compute) eq_refl) _ _ ltac:(by vm_compute) ltac:(by vm_compute))).
  - exact (proj2 (proj1 (proj2 (zrange_forms (bs "z") (bs "(a") (bs "+") false None (bs "z") _ sample_zset_world_wf
      I eq_refl)) _ _ ltac:(by vm_compute) ltac:(by vm_compute))).
Defined.
