(* ===== verification/Sessions.v ===== *)
(** * Sessions

    Concrete conversations with the server, each run from an empty store: the
    places where what the code does is not what Redis, or a comment, says. *)

From S2P Require Import Prelude.
From S2P Require Import Text.
From S2P Require Import Backend.
From S2P Require Import Resp.
From S2P Require Import Commands.
From S2P Require Import Dispatch.
From S2P Require Import Requests.

(** The replies to requests sent one after the other. *)
Fixpoint session (requests : list (list (list byte))) (w : world) : list (option RespReply) :=
  match requests with
  | [] => []
  | tokens :: rest => let '(reply, w1) := Backend.run (dispatch sample_env tokens) w in reply :: session rest w1
  end.

(** ZADD stores a NaN score, which ZINCRBY and INCR refuse to produce. *)
Example zadd_accepts_nan :
  session [[bs "ZADD"; bs "z"; bs "nan"; bs "m"]; [bs "ZSCORE"; bs "z"; bs "m"]] empty_world =
  [Some (RInteger 1); Some (bulk (bs "nan"))].
Proof. by vm_compute. Qed.

(** XPENDING with a count of 0 answers one row: the bound is looked at after a
    row has been added. *)
Example xpending_count_zero :
  nth_error (session
    [[bs "XADD"; bs "s"; bs "1-1"; bs "f"; bs "v"]; [bs "XGROUP"; bs "CREATE"; bs "s"; bs "g"; bs "0"];
     [bs "XREADGROUP"; bs "GROUP"; bs "g"; bs "c"; bs "STREAMS"; bs "s"; bs ">"];
     [bs "XPENDING"; bs "s"; bs "g"; bs "-"; bs "+"; bs "0"]] empty_world) 3 =
  Some (Some (RArray [RArray [bulk (bs "1-1"); bulk (bs "c"); RInteger 0; RInteger 1]])).
Proof. by vm_compute. Qed.

(** An expiry in seconds is multiplied by 1000 without a check: the largest one
    wraps to a deadline in the past, and SET answers OK for a key that is gone. *)
Example set_ex_wraps :
  session [[bs "SET"; bs "k"; bs "v"; bs "EX"; bs "9223372036854775807"]; [bs "GET"; bs "k"]] empty_world =
  [Some reply_ok; Some RNil].
Proof. by vm_compute. Qed.

(** ZUNION takes a last key named withscores for the option as well. *)
Example zunion_key_withscores :
  nth_error (session
    [[bs "ZADD"; bs "a"; bs "1"; bs "m"]; [bs "ZADD"; bs "withscores"; bs "1"; bs "m"];
     [bs "ZUNION"; bs "2"; bs "a"; bs "withscores"]] empty_world) 2 =
  Some (Some (bulk_array [bs "m"; bs "2"])).
Proof. by vm_compute. Qed.

(** DEL answers an error for a key that is not UTF-8 after it has deleted the ones
    before it. *)
Example del_stops_halfway :
  exists e, session
    [[bs "SET"; bs "a"; bs "1"]; [bs "DEL"; bs "a"; [xff]]; [bs "GET"; bs "a"]] empty_world =
  [Some reply_ok; Some (reply_err e); Some RNil].
Proof. eexists. by vm_compute. Qed.
