(* ===== verification/Implementations.v ===== *)
(** * Implementations

    Whole requests over a real backend.  [Implementation] is what a [KVBackend]
    owes its clients, stated against the reference backend; anything the commands
    do with one - load, compute, save or delete on a condition - then behaves as
    on the reference, request after request.  S3 and DynamoDB are instances. *)

From S2P Require Import Prelude.
From S2P Require Import Text.
From S2P Require Import BTree.
From S2P Require Import F64.
From S2P Require Import Stream.
From S2P Require Import Value.
From S2P Require Import Hll.
From S2P Require Import Backend.
From S2P Require Import Linearizability.
From S2P Require Import Contracts.
From S2P Require Import Collections.
From S2P Require Import Strings.
From S2P Require Import Hashes.
From S2P Require Import Lists.
From S2P Require Import Sets.
From S2P Require Import ZSets.
From S2P Require Import StreamOps.
From S2P Require Import Rdb.
From S2P Require Import Keyspace.
From S2P Require Import Mutations.
From S2P Require Import S3.
From S2P Require Import Geo.
From S2P Require Import Dynamo.
From S2P Require Import Resp.
From S2P Require Import Commands.
From S2P Require Import CmdStrings.
From S2P Require Import CmdKeys.
From S2P Require Import CmdCollections.
From S2P Require Import CmdZSets.
From S2P Require Import CmdStreams.
From S2P Require Import CmdServer.
From S2P Require Import CmdGeo.
From S2P Require Import Bits.
From S2P Require Import Lcs.
From S2P Require Import Dispatch.
From S2P Require Import Obeys.
From S2P Require Import Requests.

(** ** The interface *)

(** The key, if it is there, holds an entry of the kind of [e]. *)
Definition same_kind (key : Str) (e : StoredValue) (w : world) : Prop :=
  forall e0 v, store w !! key = Some (e0, v) -> ValueKind_of (value e0) = ValueKind_of (value e).

Class Implementation (St : Type) := {
  exec : forall A, kvE A -> St -> A * St;
  (** the state holds what the reference backend holds *)
  refines : St -> world -> Prop;
  (** the entries that can be stored *)
  fits : StoredValue -> Prop;
  (** a conditional save must not change the kind of its key *)
  kind_bound : bool;
  (** the key's version token *)
  current : St -> Str -> Str -> Prop;
  exec_load : forall s w key, refines s w -> exists l s',
    exec _ (KvLoad key) s = (Ok l, s') /\ refines s' (gc key w) /\
    option_map fst l = live w key /\ match l with Some (_, t) => current s' key t | None => True end;
  exec_save_any : forall s w key e, refines s w -> fits e -> exists s',
    exec _ (KvSave key e WAny) s = (Ok tt, s') /\ refines s' (put key e w);
  exec_create : forall s w key e, refines s w -> fits e -> exists s',
    exec _ (KvSave key e CreateOnly) s = (fst (kv_save key e CreateOnly w), s') /\
    refines s' (snd (kv_save key e CreateOnly w));
  exec_save_match : forall s w key e t, refines s w -> fits e -> current s key t ->
    (kind_bound = true -> same_kind key e w) -> exists s',
    exec _ (KvSave key e (IfMatch t)) s = (Ok tt, s') /\ refines s' (put key e w);
  exec_delete_any : forall s w key, refines s w -> exists s',
    exec _ (KvDelete key DAny) s = (Ok tt, s') /\ refines s' (remove key w);
  exec_delete_match : forall s w key t, refines s w -> current s key t -> exists s',
    exec _ (KvDelete key (DIfMatch t)) s = (Ok tt, s') /\ refines s' (remove key w);
  exec_now : forall s w, refines s w -> exec _ KvNowMs s = (clock_ms w, s);
  exec_nanos : forall s, exists n, exec _ KvNowNanos s = (n, s);
  exec_sleep : forall s ms, exec _ (KvSleep ms) s = (tt, s);
}.

(** ** Programs that behave alike *)

Section programs.
Context {St : Type} `{I : Implementation St}.

Fixpoint execute {R} (p : prog kvE R) (s : St) : R * St :=
  match p with
  | Ret r => (r, s)
  | Vis e k => let '(a, s') := exec _ e s in execute (k a) s'
  end.

Lemma execute_bind {R S} (p : prog kvE R) (f : R -> prog kvE S) s :
  execute (pbind p f) s = let '(r, s') := execute p s in execute (f r) s'.
Proof. revert s. induction p as [r|A e k IH]; intros s; cbn; [done|]. destruct (exec _ e s). apply IH. Qed.

(** A run of the reference backend whose nanosecond clock reads whatever it may:
    it seeds the samplers, and is no other backend's. *)
Definition ref_step {A} (e : kvE A) : world -> A -> world -> Prop :=
  match e in kvE A return world -> A -> world -> Prop with
  | KvNowNanos => fun w _ w' => w' = w
  | e => fun w a w' => handle e w = (a, w')
  end.
Fixpoint runs {R} (p : prog kvE R) (w : world) (r : R) (w' : world) : Prop :=
  match p with
  | Ret r0 => r = r0 /\ w' = w
  | Vis e k => exists a w1, ref_step e w a w1 /\ runs (k a) w1 r w'
  end.

Definition is_draw {A} (e : kvE A) : bool := match e with KvNowNanos => true | _ => false end.

Lemma ref_step_handle {A} (e : kvE A) w a w' : is_draw e = false -> ref_step e w a w' <-> handle e w = (a, w').
Proof. by destruct e. Qed.

Lemma runs_bind {R S} (p : prog kvE R) (f : R -> prog kvE S) w r w' :
  runs (pbind p f) w r w' <-> exists r1 w1, runs p w r1 w1 /\ runs (f r1) w1 r w'.
Proof.
  revert w. induction p as [r0|A e k IH]; intros w; cbn.
  - split; [by exists r0, w|]. by intros (? & ? & [-> ->] & H).
  - setoid_rewrite IH. naive_solver.
Qed.

Lemma run_runs {R} (p : prog kvE R) w : runs p w (fst (Backend.run p w)) (snd (Backend.run p w)).
Proof.
  revert w. induction p as [r|A e k IH]; intros w; [done|]. exists (fst (handle e w)), (snd (handle e w)). cbn [Backend.run].
  split; [by destruct e; try apply surjective_pairing|]. destruct (handle e w). apply IH.
Qed.

(** What the implementation must be able to store: every entry that a run over
    the reference backend saves. *)
Definition call_fits {A} (e : kvE A) (w : world) : Prop :=
  match e with
  | KvSave key en cond =>
      fits en /\ match cond with IfMatch _ => kind_bound = true -> same_kind key en w | _ => True end
  | _ => True
  end.
Fixpoint saves_fit {R} (p : prog kvE R) (w : world) : Prop :=
  match p with
  | Ret _ => True
  | Vis e k => call_fits e w /\ forall a w1, ref_step e w a w1 -> saves_fit (k a) w1
  end.

Lemma saves_fit_bind {R S} (p : prog kvE R) (f : R -> prog kvE S) w :
  saves_fit (pbind p f) w <-> saves_fit p w /\ forall r w1, runs p w r w1 -> saves_fit (f r) w1.
Proof.
  revert w. induction p as [r|A e k IH]; intros w; cbn.
  - split; [|by intros [_ H]; apply H]. intros H. split; [done|]. by intros ? ? [-> ->].
  - setoid_rewrite IH. naive_solver.
Qed.

(** [p] on the implementation in state [s] does what [q] does on the reference in
    [w].  [p] and [q] differ in the tokens they carry. *)
Definition agree {R} (p q : prog kvE R) (s : St) (w : world) : Prop :=
  exists r s' w', execute p s = (r, s') /\ runs q w r w' /\ refines s' w'.

Definition alike {R} (p : prog kvE R) : Prop :=
  forall s w, refines s w -> saves_fit p w -> agree p p s w.

Definition as_reference : judgement.
Proof.
  refine {| judged := fun R p => alike p |}.
  - intros R r s w Hs _. by exists r, s, w.
  - intros R S p f Hp Hf s w Hs [Hp1 Hf1]%saves_fit_bind. destruct (Hp s w Hs Hp1) as (r & s1 & w1 & E1 & Hr & Hs1).
    destruct (Hf r s1 w1 Hs1 (Hf1 r w1 Hr)) as (r2 & s2 & w2 & E2 & Hr2 & Hs2).
    exists r2, s2, w2. rewrite execute_bind, E1, runs_bind. split; [exact E2|]. split; [by exists r, w1|done].
Defined.

Lemma agree_vis {A R} (e e' : kvE A) (k k' : A -> prog kvE R) s w a s1 w1 :
  exec _ e s = (a, s1) -> ref_step e' w a w1 -> agree (k a) (k' a) s1 w1 ->
  agree (pbind (trigger e) k) (pbind (trigger e') k') s w.
Proof. unfold agree. cbn. intros -> He (r & s' & w' & Ex & Hr & Hs). exists r, s', w'. split; [exact Ex|].
  split; [by exists a, w1|exact Hs]. Qed.

Lemma alike_trigger {A} (e : kvE A) :
  (forall s w, refines s w -> call_fits e w -> exists s', exec _ e s = (fst (handle e w), s') /\ refines s' (snd (handle e w))) ->
  is_draw e = false -> safe as_reference (trigger e).
Proof.
  intros He Hd s w Hs [Hf _]. destruct (He s w Hs Hf) as (s1 & E & Hs1). exists (fst (handle e w)), s1, (snd (handle e w)).
  cbn. rewrite E. split; [done|]. split; [|done]. eexists _, _. split; [|done]. apply ref_step_handle; [done|apply surjective_pairing].
Qed.

Lemma alike_save_any key e : safe as_reference (trigger (KvSave key e WAny)).
Proof. apply alike_trigger; [|done]. intros s w Hs [Hf _]. by apply exec_save_any. Qed.
Lemma alike_create key e : safe as_reference (trigger (KvSave key e CreateOnly)).
Proof. apply alike_trigger; [|done]. intros s w Hs [Hf _]. by apply exec_create. Qed.
Lemma alike_delete_any key : safe as_reference (trigger (KvDelete key DAny)).
Proof. apply alike_trigger; [|done]. intros s w Hs _. by apply exec_delete_any. Qed.
Lemma alike_now : safe as_reference (trigger KvNowMs).
Proof. apply alike_trigger; [|done]. intros s w Hs _. exists s. by rewrite (exec_now s w Hs). Qed.
Lemma alike_nanos : safe as_reference (trigger KvNowNanos).
Proof. intros s w Hs _. destruct (exec_nanos s) as [n E]. exists n, s, w. cbn. rewrite E. split; [done|]. split; [by exists n, w|done]. Qed.
Lemma alike_sleep ms : safe as_reference (trigger (KvSleep ms)).
Proof. apply alike_trigger; [|done]. intros s w Hs _. exists s. by rewrite exec_sleep. Qed.

(** *** Loading, and what is done with the token *)

Definition holds_at (s : St) (w : world) (key : Str) (e : StoredValue) (v : Z) (t : Str) : Prop :=
  refines s w /\ store w !! key = Some (e, v) /\ current s key t.

Lemma alike_load_then {R} key (f : Result (option (StoredValue * Str)) -> prog kvE R) :
  (forall s w e v t, holds_at s w key e v t -> saves_fit (f (Ok (Some (e, tok v)))) w ->
     agree (f (Ok (Some (e, t)))) (f (Ok (Some (e, tok v)))) s w) ->
  safe as_reference (f (Ok None)) ->
  safe as_reference (pbind (trigger (KvLoad key)) f).
Proof.
  intros Hsome Hnone s w Hs Hf.
  destruct (exec_load s w key Hs) as (l & s1 & E & Hs1 & Hl & Ht). rewrite <- gc_live_lookup in Hl.
  pose proof (kv_load_spec key w) as El. cbn [trigger pbind saves_fit] in Hf. destruct Hf as [_ Hf].
  specialize (Hf _ _ El : saves_fit (f _) _). cbn in El.
  assert (Hgo : agree (f (Ok l)) (f (Ok (match store (gc key w) !! key with Some (e, v) => Some (e, tok v) | None => None end))) s1 (gc key w)).
  { destruct (store (gc key w) !! key) as [[e v]|] eqn:Es; cbn in Hf, Hl |- *.
    - destruct l as [[e' t]|]; [|done]. injection Hl as ->. by apply Hsome.
    - destruct l as [[]|]; [done|]. by apply Hnone. }
  destruct Hgo as (r & s' & w' & Ex & Hr & Hs'). exists r, s', w'. cbn. rewrite E. split; [exact Ex|]. split; [|exact Hs'].
  eexists _, _. split; [exact El|exact Hr].
Qed.

Lemma agree_save_match {R} s w key e v t e' (k : Result unit -> prog kvE R) :
  holds_at s w key e v t -> saves_fit (pbind (trigger (KvSave key e' (IfMatch (tok v)))) k) w ->
  safe as_reference (k (Ok tt)) ->
  agree (pbind (trigger (KvSave key e' (IfMatch t))) k) (pbind (trigger (KvSave key e' (IfMatch (tok v)))) k) s w.
Proof.
  intros (Hs & Hk & Ht) [[Hf Hkind] Hfk] Hsafe.
  assert (E : kv_save key e' (IfMatch (tok v)) w = (Ok tt, put key e' w)).
  { unfold kv_save. by rewrite Hk, bool_decide_true. }
  destruct (exec_save_match s w key e' t Hs Hf Ht Hkind) as (s1 & Ex & Hs1).
  eapply agree_vis; [exact Ex|exact E|]. apply Hsafe; [done|]. exact (Hfk _ _ E).
Qed.

Lemma agree_delete_match {R} s w key e v t (k : Result unit -> prog kvE R) :
  holds_at s w key e v t -> saves_fit (pbind (trigger (KvDelete key (DIfMatch (tok v)))) k) w ->
  safe as_reference (k (Ok tt)) ->
  agree (pbind (trigger (KvDelete key (DIfMatch t))) k) (pbind (trigger (KvDelete key (DIfMatch (tok v)))) k) s w.
Proof.
  intros (Hs & Hk & Ht) [_ Hfk] Hsafe.
  assert (E : kv_delete key (DIfMatch (tok v)) w = (Ok tt, remove key w)).
  { unfold kv_delete. by rewrite Hk, bool_decide_true. }
  destruct (exec_delete_match s w key t Hs Ht) as (s1 & Ex & Hs1).
  eapply agree_vis; [exact Ex|exact E|]. apply Hsafe; [done|]. exact (Hfk _ _ E).
Qed.

Lemma agree_same {R} s w key e v t (p : prog kvE R) :
  holds_at s w key e v t -> saves_fit p w -> safe as_reference p -> agree p p s w.
Proof. intros (Hs & _) Hf Hp. by apply Hp. Qed.

Lemma alike_load key : safe as_reference (load key).
Proof. apply alike_load_then; [|apply safe_ret]. intros s w e v t (Hs & _) _. by eexists _, s, w. Qed.

#[export] Instance as_reference_reads : Reads as_reference.
Proof. split; [exact alike_load|exact alike_now]. Qed.
End programs.

(** ** The operations that carry a token *)

Section operations.
Context {St : Type} `{I : Implementation St}.

Lemma alike_backoff a : safe as_reference (cas_backoff a).
Proof. unfold cas_backoff. destruct (a =? 0); [apply safe_ret|apply alike_sleep]. Qed.

(** A closure that makes no call but draws from the nanosecond clock. *)
Fixpoint only_draws {R} (p : prog kvE R) : Prop :=
  match p with
  | Ret _ => True
  | Vis e k => is_draw e = true /\ forall a, only_draws (k a)
  end.

Lemma only_draws_bind {R S} (p : prog kvE R) (f : R -> prog kvE S) :
  only_draws p -> (forall r, only_draws (f r)) -> only_draws (pbind p f).
Proof. intros Hp Hf. induction p as [r|A e k IH]; cbn in *; [apply Hf|]. destruct Hp as [He Hk]. eauto. Qed.

Lemma draws_alike {R} (p : prog kvE R) : only_draws p -> safe as_reference p.
Proof.
  induction p as [r|A e k IH]; [intros _; apply safe_ret|]. intros [He Hk].
  change (Vis e k) with (pbind (trigger e) k). apply safe_bind; [|auto]. destruct e; try done. apply alike_nanos.
Qed.

(** Drawing comes to the same on both sides and changes neither. *)
Lemma draws_run {R} (p : prog kvE R) s w : only_draws p -> exists r, execute p s = (r, s) /\ runs p w r w.
Proof.
  induction p as [r|A e k IH]; [by exists r|]. intros [He Hk]. destruct e; try done.
  destruct (exec_nanos s) as [n E]. destruct (IH n (Hk n)) as (r & Ex & Hr). exists r. cbn. rewrite E. split; [exact Ex|].
  by exists n, w.
Qed.

Lemma agree_draws {R S} (p : prog kvE R) (f g : R -> prog kvE S) s w :
  only_draws p -> saves_fit (pbind p g) w -> (forall r, saves_fit (g r) w -> agree (f r) (g r) s w) ->
  agree (pbind p f) (pbind p g) s w.
Proof.
  intros Hp [_ Hfit]%saves_fit_bind Hfg. destruct (draws_run p s w Hp) as (r & E & Hr).
  destruct (Hfg r (Hfit r w Hr)) as (r' & s' & w' & Ex & Hr' & Hs'). exists r', s', w'.
  rewrite execute_bind, E, runs_bind. split; [exact Ex|]. split; [by exists r, w|done].
Qed.

Lemma alike_cas_draws {R} key (modify : modifier R) :
  (forall entry, only_draws (modify entry)) -> safe as_reference (cas key modify).
Proof.
  intros Hm. unfold cas. generalize MAX_CAS_RETRIES, 0. intros n. induction n as [|n IH]; intros a; cbn [cas_from]; [apply safe_ret|].
  apply safe_bind; [apply alike_backoff|]. intros _. apply alike_load_then.
  - intros s w e v t Hh Hfit. apply agree_draws; [apply Hm|exact Hfit|]. clear Hfit. intros [[e' r|r|r]|err] Hfit.
    + by eapply agree_save_match; [..|apply safe_ret].
    + by eapply agree_delete_match; [..|apply safe_ret].
    + by eapply agree_same; [..|apply safe_ret].
    + by eapply agree_same; [..|apply safe_ret].
  - apply safe_bind; [apply draws_alike, Hm|]. intros [[e' r|r|r]|err]; try apply safe_ret.
    apply safe_bind; [apply alike_create|]. intros [|[]]; first [apply IH|apply safe_ret].
Qed.

Lemma alike_cas {R} key (f : option StoredValue -> Result (CasAction R)) : safe as_reference (cas key (pure_mod f)).
Proof. by apply alike_cas_draws. Qed.

Lemma alike_spop_cas key count : safe as_reference (cas key (spop_mod key count)).
Proof.
  apply alike_cas_draws. intros [[exp []]|]; try done. cbn [spop_mod]. apply only_draws_bind.
  - unfold pick_random_unique. by destruct (_ || _).
  - intros picked. by destruct (bt_is_empty _).
Qed.
End operations.
#[export] Hint Resolve as_reference_reads alike_save_any alike_create alike_delete_any alike_sleep alike_nanos alike_cas alike_spop_cas : safe.

Section two_keys.
Context {St : Type} `{I : Implementation St}.

Lemma alike_set_string_nx key v expires : safe as_reference (set_string_nx key v expires).
Proof.
  assert (H : safe as_reference (let! r := trigger (KvSave key (mk_entry expires (VString v)) CreateOnly) in
    match r with Ok _ => Ret (Ok true) | Err Contention => Ret (Ok false) | Err e => Ret (Err e) end)) by safe_walk.
  apply alike_load_then; [|exact H]. intros s w e n t Hh Hfit. by eapply agree_same.
Qed.

Lemma alike_rename from to : safe as_reference (rename from to).
Proof.
  unfold rename. apply safe_bind; [apply alike_load|]. intros [[entry|]|err]; try apply safe_ret.
  destruct (str_eqb from to); [apply safe_ret|]. apply alike_load_then; [|safe_walk].
  intros s w e v t Hh Hfit. eapply agree_save_match; [exact Hh|exact Hfit|safe_walk].
Qed.

Lemma alike_copy from to replace : safe as_reference (copy from to replace).
Proof.
  unfold copy. destruct (str_eqb from to); [apply safe_ret|]. apply safe_bind; [apply alike_load|].
  intros [[entry|]|err]; try apply safe_ret. apply alike_load_then; [|destruct replace; safe_walk].
  intros s w e v t Hh Hfit. destruct replace.
  - eapply agree_save_match; [exact Hh|exact Hfit|apply safe_ret].
  - eapply agree_same; [exact Hh|exact Hfit|apply safe_ret].
Qed.

Lemma alike_xreadgroup_loop group consumer ks count noack now :
  forall out, safe as_reference (xreadgroup_loop group consumer ks count noack now out).
Proof. induction ks; intros out; cbn [xreadgroup_loop]; safe_walk. Qed.
Lemma alike_mset pairs : safe as_reference (mset pairs).
Proof. induction pairs; cbn [mset]; safe_walk. Qed.
Lemma alike_delete_each args : forall n, safe as_reference (delete_each args n).
Proof. induction args; intros n; cbn [delete_each]; safe_walk. Qed.
End two_keys.
#[export] Hint Resolve alike_set_string_nx alike_rename alike_copy alike_xreadgroup_loop alike_mset alike_delete_each : safe.

(** ** Every command but those that list keys *)

Definition UNSPECIFIED : list Str := [
  bs "SCAN"; bs "KEYS"; bs "DBSIZE"; bs "INFO"; bs "FLUSHDB"; bs "FLUSHALL"; bs "RANDOMKEY"
].

Lemma rows_alike {St} `{I : Implementation St} env :
  Forall (fun row => existsb (str_eqb (fst row)) UNSPECIFIED = false ->
    forall args, safe as_reference (snd row args)) (command_table env).
Proof.
  each_row.
  all: intros Hw; first [by (vm_compute in Hw; discriminate Hw) | clear Hw; intros args; unfold full, pure, total; safe_walk].
Qed.

(** ** Requests, one after the other *)

Definition specified (tokens : list (list byte)) : bool :=
  match tokens with c :: _ => negb (existsb (str_eqb (to_ascii_uppercase c)) UNSPECIFIED) | [] => true end.

Fixpoint serve (env : Env) (requests : list (list (list byte))) : prog kvE (list (option RespReply)) :=
  match requests with
  | [] => Ret []
  | tokens :: rest =>
      let! reply := dispatch env tokens in
      let! replies := serve env rest in
      Ret (reply :: replies)
  end.

Section service.
Context {St : Type} `{I : Implementation St}.

Lemma dispatch_alike env tokens : specified tokens = true -> safe as_reference (dispatch env tokens).
Proof.
  intros Hs. unfold dispatch. apply safe_bind; [|intros r; apply safe_ret].
  destruct tokens as [|c args]; [apply safe_ret|]. unfold Dispatch.run.
  destruct (from_utf8 c) as [s|] eqn:Hc; [|apply safe_ret].
  assert (s = c) as -> by (unfold from_utf8 in Hc; destruct (utf8_valid c); [by injection Hc|done]).
  destruct (find_command _ _) as [f|] eqn:Hf; [|apply safe_ret]. apply find_command_in in Hf.
  apply (proj1 (List.Forall_forall _ _) (rows_alike env) _ Hf). by apply negb_true_iff in Hs.
Qed.

Lemma serve_alike env requests :
  forallb specified requests = true -> safe as_reference (serve env requests).
Proof.
  induction requests as [|tokens rest IH]; cbn [serve forallb]; [intros _; apply safe_ret|].
  intros [Ht Hr]%andb_prop. apply safe_bind; [by apply dispatch_alike|]. intros reply.
  apply safe_bind; [by apply IH|]. intros replies. apply safe_ret.
Qed.
End service.

(** ** S3 *)

Section s3.
Context {St : Type} `{Svc : S3Service St}.
Variable from_slice : list byte -> Result StoredValue.
Variable to_vec : StoredValue -> Result (list byte).
Variable self : S3Storage.
Variable flush : prog s3E (Result unit).

Definition s3_exec (A : Type) (e : kvE A) (s : St) : A * St := run_s3 (s3_backend from_slice to_vec self flush A e) s.
Definition s3_current (s : St) (key t : Str) : Prop := exists b, objects s (bucket self) !! s3_key self key = Some (b, t).

Lemma s3_create_spec s w key e :
  same_entries from_slice self s w -> encodable from_slice to_vec e -> exists s',
    s3_exec _ (KvSave key e CreateOnly) s = (fst (kv_save key e CreateOnly w), s') /\
    same_entries from_slice self s' (snd (kv_save key e CreateOnly w)).
Proof.
  intros Hs He. pose proof (proj2 Hs key) as Hk. unfold kv_save. unfold s3_exec; cbn [s3_backend].
  destruct (objects s (bucket self) !! s3_key self key) as [[b t]|] eqn:Eo, (store w !! key) as [[e0 v]|]; try done; cbn [fst snd].
  - exists s. split; [|done]. destruct He as (b' & Hb & _). unfold s3_save. rewrite Hb, run_s3_bind. cbn [trigger run_s3].
    destruct (s3_put_412 s (bucket self) (s3_key self key) b' (Some (bs "*")) None _ Eo) as [msg ->]; [done|].
    done.
  - destruct (s3_save_spec from_slice to_vec self s w key e CreateOnly Hs He) as (s' & E & Hs'); [by rewrite Eo|].
    by exists s'.
Qed.

Lemma s3_delete_spec s w key cond :
  same_entries from_slice self s w ->
  put_allowed (objects s (bucket self) !! s3_key self key) None
    (match cond with DIfMatch t => Some t | DAny => None end) = true -> exists s',
  s3_exec _ (KvDelete key cond) s = (Ok tt, s') /\ same_entries from_slice self s' (remove key w).
Proof.
  intros Hs Ha. unfold s3_exec; cbn [s3_backend]. unfold s3_delete. rewrite run_s3_bind. cbn [trigger run_s3].
  destruct (s3_delete_ok s (bucket self) (s3_key self key) _ Ha) as (s' & -> & Ho & Hc). cbn [run_s3].
  exists s'. split; [done|]. by eapply same_entries_delete.
Qed.

#[local] Instance s3_implementation : Implementation St.
Proof.
  refine {| exec := s3_exec; refines := same_entries from_slice self; fits := encodable from_slice to_vec;
            kind_bound := false; current := s3_current |}.
  - intros s w key Hs. destruct (s3_load_spec from_slice self s w key Hs) as (s' & Hs' & E).
    pose proof (proj2 Hs' key) as Hk. eexists _, s'. split; [exact E|]. split; [done|]. rewrite <- gc_live_lookup.
    destruct (store (gc key w) !! key) as [[e v]|] eqn:Es; [|done].
    destruct (objects s' (bucket self) !! s3_key self key) as [[b t]|] eqn:Eo; [|done]. split; [done|]. by exists b.
  - intros s w key e Hs He. by apply s3_save_spec.
  - exact s3_create_spec.
  - intros s w key e t Hs He [b Hb] _. apply s3_save_spec; [done..|]. rewrite Hb. cbn. by rewrite bool_decide_true.
  - intros s w key Hs. by apply s3_delete_spec.
  - intros s w key t Hs [b Hb]. apply s3_delete_spec; [done|]. rewrite Hb. cbn. by rewrite bool_decide_true.
  - intros s w Hs. cbn. by rewrite s3_now, (proj1 Hs).
  - intros s. cbn. destruct (s3_nanos s) as [n ->]. by exists n.
  - done.
Defined.

Lemma run_s3_execute {R} (p : prog kvE R) s :
  run_s3 (interp (s3_backend from_slice to_vec self flush) p) s = execute p s.
Proof.
  revert s. induction p as [r|A e k IH]; intros s; cbn; [done|]. rewrite run_s3_bind. unfold s3_exec.
  destruct (run_s3 _ s). apply IH.
Qed.

End s3.

(** ** DynamoDB *)

Section dynamo.
Context {St : Type} `{Svc : DynService St}.
Variable from_slice : list byte -> Result StoredValue.
Variable to_vec : StoredValue -> Result (list byte).
Variable tables : TableNames.
Hypothesis distinct : tables_distinct tables.
Variable flush : prog dynE (Result unit).

Definition dyn_exec (A : Type) (e : kvE A) (s : St) : A * St := run_dyn (dyn_backend from_slice to_vec tables flush A e) s.
Definition dyn_current (s : St) (key t : Str) : Prop := exists e v,
  stored_as from_slice tables (rows s) key e /\ version_of tables (rows s) key e = Some v /\
  t = encode_token (ValueKind_of (value e)) v.

Lemma dyn_current_here s w key e v t :
  same_rows from_slice tables s w -> store w !! key = Some (e, v) -> dyn_current s key t ->
  exists ver, version_of tables (rows s) key e = Some ver /\ t = encode_token (ValueKind_of (value e)) ver /\
    stored_as from_slice tables (rows s) key e.
Proof.
  intros Hs Ew (e1 & v1 & H1 & Hv1 & ->). pose proof (proj2 Hs key) as Hk. rewrite Ew in Hk.
  assert (e1 = e) as ->; [|by exists v1].
  destruct H1 as ((i1 & Hi1 & Hk1) & (r1 & w1 & Hr1 & Hd1 & _) & _), Hk as ((i2 & Hi2 & Hk2) & (r2 & w2 & Hr2 & Hd2 & _) & _).
  rewrite Hi1 in Hi2. injection Hi2 as <-. rewrite Hk1 in Hk2. injection Hk2 as Hkind%kind_str_inj.
  rewrite Hkind in Hr1. rewrite Hr1 in Hr2. injection Hr2 as <-. rewrite Hd1 in Hd2. by injection Hd2.
Qed.

#[local] Instance dyn_implementation : Implementation St.
Proof.
  refine {| exec := dyn_exec; refines := same_rows from_slice tables; fits := storable from_slice to_vec;
            kind_bound := true; current := dyn_current |}.
  - intros s w key Hs. destruct (dyn_load_spec from_slice tables distinct s w key Hs) as (s' & Hs' & E).
    eexists _, s'. split; [exact E|]. split; [done|]. rewrite <- gc_live_lookup.
    destruct (store (gc key w) !! key) as [[e v]|] eqn:Es; [|done].
    destruct (loaded_ready from_slice tables s' _ key e v Hs' Es) as (ver & Hv & Hst). rewrite Hv. cbn.
    split; [done|]. by exists e, ver.
  - intros s w key e Hs He. by apply dyn_save_any_spec.
  - intros s w key e Hs He. by apply dyn_create_spec.
  - intros s w key e t Hs He Ht Hkind. apply dyn_save_spec; [done..|]. destruct Ht as (e0 & v & Hst & Hv & ->).
    exists e0, v. split; [done|]. split; [|done]. pose proof (proj2 Hs key) as Hk.
    destruct (store w !! key) as [[e1 v1]|] eqn:Ew.
    + destruct (dyn_current_here s w key e1 v1 (encode_token (ValueKind_of (value e0)) v)) as (ver & _ & E & _);
        [done..|by exists e0, v|].
      rewrite <- (Hkind eq_refl e1 v1 Ew). apply (f_equal parse_token) in E. rewrite !parse_encode_token in E. by injection E.
    + destruct Hst as ((i & Hi & _) & _). by rewrite (proj1 Hk) in Hi.
  - intros s w key Hs. by apply dyn_delete_any_spec.
  - intros s w key t Hs (e & v & Hst & Hv & ->). by apply (dyn_delete_match from_slice tables distinct s w key e v).
  - intros s w Hs. cbn. by rewrite dyn_now, (proj1 Hs).
  - intros s. cbn. destruct (dyn_nanos s) as [n ->]. by exists n.
  - done.
Defined.

Lemma run_dyn_execute {R} (p : prog kvE R) s :
  run_dyn (interp (dyn_backend from_slice to_vec tables flush) p) s = execute p s.
Proof.
  revert s. induction p as [r|A e k IH]; intros s; cbn; [done|]. rewrite run_dyn_bind. unfold dyn_exec.
  destruct (run_dyn _ s). apply IH.
Qed.

End dynamo.

(** ** Concrete services *)

(** A codec that carries every entry leaves nothing to check where kinds are free. *)
Lemma saves_fit_all {St} `{I : Implementation St} {R} (p : prog kvE R) w :
  (forall e, fits e) -> kind_bound = false -> saves_fit p w.
Proof.
  intros Hf Hk. revert w. induction p as [r|A e k IH]; intros w; [done|]. split; [|intros; apply IH].
  destruct e; try done. split; [apply Hf|]. destruct cond; [done..|]. by rewrite Hk.
Qed.

(** [saves_fit], by running the program. *)
Fixpoint saves_check (ok : StoredValue -> bool) {R} (p : prog kvE R) (w : world) : bool :=
  match p with
  | Ret _ => true
  | Vis e k =>
      match e with
      | KvSave key en cond =>
          ok en && match cond, store w !! key with
                   | IfMatch _, Some (e0, _) => bool_decide (ValueKind_of (value e0) = ValueKind_of (value en))
                   | _, _ => true
                   end
      | KvNowNanos => false
      | _ => true
      end && saves_check ok (k (fst (handle e w))) (snd (handle e w))
  end.

Lemma saves_check_fit {St} `{I : Implementation St} ok {R} (p : prog kvE R) w :
  (forall e, ok e = true -> fits e) -> saves_check ok p w = true -> saves_fit p w.
Proof.
  intros Hok. revert w. induction p as [r|A e k IH]; intros w; cbn [saves_check saves_fit]; [done|].
  intros [He Hk]%andb_prop. split.
  2: { intros a w1 Hs. destruct (is_draw e) eqn:Hd; [by destruct e|]. apply (ref_step_handle e w a w1 Hd) in Hs. rewrite Hs in Hk. by apply IH. }
  destruct e as [|key en cond| | | | | |]; try done. apply andb_prop in He as [Hen Hc]. split; [by apply Hok|].
  destruct cond; try done. intros _ e0 v E. rewrite E in Hc. by apply bool_decide_eq_true in Hc.
Qed.

(** A run that draws nothing is the run. *)
Lemma saves_check_runs ok {R} (p : prog kvE R) w r w' :
  saves_check ok p w = true -> runs p w r w' -> Backend.run p w = (r, w').
Proof.
  revert w. induction p as [r0|A e k IH]; intros w; cbn [saves_check runs Backend.run]; [by intros _ [-> ->]|].
  intros [He Hk]%andb_prop (a & w1 & Hs & Hr). destruct (is_draw e) eqn:Hd; [by destruct e|].
  apply (ref_step_handle e w a w1 Hd) in Hs. rewrite Hs in Hk |- *. by apply IH.
Qed.

Definition rename_session (v : list byte) : list (list (list byte)) := [
  [bs "SET"; bs "k"; v]; [bs "RENAME"; bs "k"; bs "j"]; [bs "GET"; bs "j"]; [bs "DEL"; bs "j"; bs "k"]; [bs "GET"; bs "j"]
].

Lemma rename_replies v :
  fst (Backend.run (serve sample_env (rename_session v)) empty_world) =
  [Some reply_ok; Some reply_ok; Some (bulk v); Some (RInteger 1); Some RNil].
Proof. by vm_compute. Qed.


