(* ===== verification/Listings.v ===== *)
(** * Listings

    The commands that walk the whole keyspace - KEYS, SCAN, RANDOMKEY, DBSIZE, INFO,
    FLUSHALL - over a real backend.  [Listing] is what a backend owes them, on top of
    [Implementation]: pages in an order of its own, and flushing.  The answers are
    those of the reference backend up to the order of keys.  S3 and DynamoDB are
    instances. *)

From S2P Require Import Prelude.
From S2P Require Import Text.
From S2P Require Import BTree.
From S2P Require Import F64.
From S2P Require Import Stream.
From S2P Require Import Value.
From S2P Require Import Hll.
From S2P Require Import Backend.
From S2P Require Import Linearizability.
From S2P Require Import Contracts.
From S2P Require Import Collections.
From S2P Require Import Strings.
From S2P Require Import Hashes.
From S2P Require Import Lists.
From S2P Require Import Sets.
From S2P Require Import ZSets.
From S2P Require Import StreamOps.
From S2P Require Import Rdb.
From S2P Require Import Keyspace.
From S2P Require Import Mutations.
From S2P Require Import S3.
From S2P Require Import Geo.
From S2P Require Import Dynamo.
From S2P Require Import Resp.
From S2P Require Import Commands.
From S2P Require Import CmdStrings.
From S2P Require Import CmdKeys.
From S2P Require Import CmdCollections.
From S2P Require Import CmdZSets.
From S2P Require Import CmdStreams.
From S2P Require Import CmdServer.
From S2P Require Import CmdGeo.
From S2P Require Import Bits.
From S2P Require Import Lcs.
From S2P Require Import Dispatch.
From S2P Require Import Obeys.
From S2P Require Import Requests.
From S2P Require Import Implementations.
From S2P Require Import Pages.

(** ** The interface *)

Definition stored (w : world) (k : Str) : Prop := is_Some (store w !! k).

Class Listing (St : Type) `{I : Implementation St} := {
  (** the keys listed after a cursor *)
  after : option Str -> Str -> Prop;
  after_none : forall k, after None k;
  (** listings show the keys after the cursor as they are *)
  settled : St -> option Str -> Prop;
  exec_list_page : forall s w cursor n, refines s w -> settled s cursor -> 1 <= n -> exists page next,
    exec _ (KvListPage cursor n) s = (Ok {| lp_keys := page; lp_next_cursor := next |}, s) /\
    lists_page (stored w) after cursor page next /\ len page <= n /\ (forall c, next = Some c -> settled s (Some c));
  (** the number of keys that flushing can take *)
  flush_bound : nat;
  exec_flush : forall s w, refines s w -> settled s None -> (size (store w) < flush_bound)%nat -> exists s',
    exec _ KvFlushAll s = (Ok tt, s') /\ refines s' (with_store w ∅);
}.

(** [flush] as the backend's method: its walk, with fuel enough. *)
Definition within {E : Type -> Type} {R} (p : prog E (option (Result R))) : prog E (Result R) :=
  let! r := p in Ret (match r with Some r => r | None => Err (S3 "unfinished") end).

(** ** Walks *)

#[export] Instance filter_perm {A} (f : A -> bool) : Proper (Permutation ==> Permutation) (List.filter f).
Proof.
  intros l k. induction 1 as [|x l k _ IH|x y l|l k m _ IH1 _ IH2]; cbn; [done| | |by etrans].
  - destruct (f x); [by constructor|done].
  - destruct (f x), (f y); try done. constructor.
Qed.

Lemma remaining_all w : remaining (stored w) (fun _ _ => True) None (sorted_keys w).
Proof.
  split; [apply sorted_NoDup, sorted_keys_strict|]. intros k. rewrite list_elem_of_In, sorted_keys_spec. by unfold stored; tauto.
Qed.

Lemma sorted_keys_size w : length (sorted_keys w) = size (store w).
Proof.
  rewrite <- size_dom, <- (size_list_to_set (C := gset Str)) by apply sorted_NoDup, sorted_keys_strict. f_equal.
  apply set_eq. intros k. rewrite elem_of_list_to_set, elem_of_dom, list_elem_of_In. apply sorted_keys_spec.
Qed.

Section walks.
Context {St : Type} `{L : Listing St}.

Lemma remaining_start w : remaining (stored w) after None (sorted_keys w).
Proof.
  destruct (remaining_all w) as [Hn Hr]. split; [done|]. intros k. rewrite Hr. pose proof (after_none k). tauto.
Qed.

(** A page, and what is left. *)
Lemma page_rest s w cursor n rest :
  refines s w -> settled s cursor -> 1 <= n -> remaining (stored w) after cursor rest -> exists page next,
    (forall R (f : Result ListPage -> prog kvE R), execute (pbind (trigger (KvListPage cursor n)) f) s =
      execute (f (Ok {| lp_keys := page; lp_next_cursor := next |})) s) /\ len page <= n /\
    match next with
    | None => rest ≡ₚ page
    | Some c => settled s (Some c) /\ exists rest', remaining (stored w) after (Some c) rest' /\ rest ≡ₚ page ++ rest' /\
                  (length rest' < length rest)%nat
    end.
Proof.
  intros Hs Hq Hn Hr. destruct (exec_list_page s w cursor n Hs Hq Hn) as (page & next & E & Hp & Hl & Hq').
  exists page, next. split; [intros R f; cbn; by rewrite E|]. split; [done|]. pose proof (page_step _ _ _ _ _ _ Hp Hr).
  destruct next as [c|]; [split; [by apply Hq'|done]|done].
Qed.

Lemma keys_walk_lists matches pattern fuel s w cursor rest out :
  refines s w -> settled s cursor -> remaining (stored w) after cursor rest -> (length rest < fuel)%nat -> exists seen,
    execute (keys_walk matches fuel pattern cursor out) s = (Some (Ok (out ++ seen)), s) /\
    seen ≡ₚ List.filter (matches pattern) rest.
Proof.
  intros Hs. revert cursor rest out. induction fuel as [|fuel IH]; intros cursor rest out Hq Hr Hf; [lia|]. cbn [keys_walk].
  destruct (page_rest s w cursor 1000 rest Hs Hq ltac:(lia) Hr) as (page & next & Ep & _ & Hn). rewrite Ep. cbn [lp_keys lp_next_cursor].
  destruct next as [c|].
  - destruct Hn as (Hq' & rest' & Hr' & Hperm & Hlen). destruct (IH (Some c) rest' (out ++ List.filter (matches pattern) page) Hq' Hr') as (seen & -> & Hseen); [lia|].
    eexists. rewrite <- app_assoc. split; [done|]. by rewrite Hseen, Hperm, List.filter_app.
  - eexists. split; [done|]. by rewrite Hn.
Qed.

Lemma count_keys_walk_lists fuel s w cursor rest n :
  refines s w -> settled s cursor -> remaining (stored w) after cursor rest -> (length rest < fuel)%nat ->
  0 <= n -> n + len rest <= i64_max ->
  execute (count_keys_walk fuel cursor n) s = (Some (Ok (n + len rest)), s).
Proof.
  intros Hs. revert cursor rest n. induction fuel as [|fuel IH]; intros cursor rest n Hq Hr Hf H0 Hmax; [lia|]. cbn [count_keys_walk].
  destruct (page_rest s w cursor 1000 rest Hs Hq ltac:(lia) Hr) as (page & next & Ep & _ & Hn). rewrite Ep. cbn [lp_keys lp_next_cursor].
  assert (Hadd : len page <= len rest -> saturating_add_i64 n (len_i64 page) = n + len page).
  { intros Hle. pose proof (len_nonneg page). rewrite len_i64_small by lia. unfold saturating_add_i64, i64_min, i64_max in *. lia. }
  destruct next as [c|].
  - destruct Hn as (Hq' & rest' & Hr' & Hperm & Hlen). assert (E : len rest = len page + len rest').
    { unfold len. rewrite Hperm, length_app. lia. }
    pose proof (len_nonneg page). pose proof (len_nonneg rest'). rewrite Hadd by lia.
    rewrite (IH (Some c) rest') by (done || lia). do 3 f_equal. lia.
  - assert (E : len rest = len page) by (unfold len; by rewrite Hn). rewrite Hadd by lia. by rewrite E.
Qed.

Lemma scan_client_lists matches pattern count fuel s w cursor rest :
  refines s w -> settled s cursor -> 1 <= count -> remaining (stored w) after cursor rest -> (length rest < fuel)%nat -> exists seen,
    execute (scan_client matches fuel cursor pattern count) s = (Some (Ok seen), s) /\
    seen ≡ₚ List.filter (fun k => match pattern with Some p => matches p k | None => true end) rest.
Proof.
  intros Hs Hq Hc. revert cursor rest Hq. induction fuel as [|fuel IH]; intros cursor rest Hq Hr Hf; [lia|]. cbn [scan_client].
  set (flt := fun k => match pattern with Some p => matches p k | None => true end).
  assert (Hpage : forall l, match pattern with Some p => List.filter (matches p) l | None => l end = List.filter flt l).
  { intros l. unfold flt. destruct pattern; [done|]. induction l; cbn; congruence. }
  unfold scan. rewrite execute_bind. 
  destruct (page_rest s w cursor count rest Hs Hq Hc Hr) as (page & next & Ep & _ & Hn). rewrite Ep. cbn [lp_keys lp_next_cursor execute]. rewrite Hpage.
  destruct next as [c|].
  - destruct Hn as (Hq' & rest' & Hr' & Hperm & Hlen). rewrite execute_bind. destruct (IH (Some c) rest' Hq' Hr') as (seen & -> & Hseen); [lia|].
    eexists. split; [done|]. by rewrite Hseen, Hperm, List.filter_app.
  - eexists. split; [done|]. by rewrite Hn.
Qed.
End walks.

(** ** Flushing while walking *)

Definition remove_all (ks : list Str) (w : world) : world := fold_left (fun w k => remove k w) ks w.

Lemma remove_all_stored ks w k : stored (remove_all ks w) k <-> stored w k /\ k ∉ ks.
Proof.
  unfold stored, remove_all. rewrite removes_lookup. case_decide; [|tauto]. split; [by intros [? ?]|by intros [_ ?]].
Qed.

Lemma remove_all_store ks w : remove_all ks w = with_store w (store (remove_all ks w)).
Proof.
  unfold remove_all. revert w. induction ks as [|k ks IH]; intros w; cbn [fold_left]; [by destruct w|]. by rewrite IH at 1.
Qed.

Lemma stored_nothing w : (forall k, ~ stored w k) -> store w = ∅.
Proof. intros Hn. apply map_eq. intros k. rewrite lookup_empty. destruct (store w !! k) eqn:E; [|done]. destruct (Hn k). by eexists. Qed.

(** The page's keys deleted, the cursor still has every other key after it. *)
Lemma flush_step (after : option Str -> Str -> Prop) w cursor page next rest :
  lists_page (stored w) after cursor page next -> remaining (stored w) after cursor rest ->
  (forall k, stored w k -> after cursor k) ->
  match next with
  | None => store (remove_all page w) = ∅
  | Some c => exists rest', remaining (stored (remove_all page w)) after (Some c) rest' /\
                (forall k, stored (remove_all page w) k -> after (Some c) k) /\ (length rest' < length rest)%nat
  end.
Proof.
  intros Hp Hr Hall. pose proof (page_step _ _ _ _ _ _ Hp Hr) as Hn. destruct Hp as [_ _ Hc Hpr]. destruct next as [c|].
  - destruct Hn as (rest' & [Hnd Hrest] & _ & Hlen). exists rest'. split; [|split; [|done]].
    + split; [done|]. intros k. rewrite Hrest, remove_all_stored. destruct (Hpr c eq_refl) as [_ Ha].
      split; [|tauto]. intros [? Hk]. destruct (Ha k Hk). tauto.
    + intros k [Hk Hnp]%remove_all_stored. destruct (Hc k Hk (Hall k Hk)) as [?|(c' & [= <-] & ?)]; done.
  - apply stored_nothing. intros k [Hk Hnp]%remove_all_stored. by destruct (Hc k Hk (Hall k Hk)) as [?|(c & [=] & _)].
Qed.

Section flush.
Context {St : Type} `{I : Implementation St}.
Variable after : option Str -> Str -> Prop.
Variable settled : St -> option Str -> Prop.
Hypothesis list_page : forall s w cursor n, refines s w -> settled s cursor -> 1 <= n -> exists page next,
  exec _ (KvListPage cursor n) s = (Ok {| lp_keys := page; lp_next_cursor := next |}, s) /\
  lists_page (stored w) after cursor page next /\ len page <= n /\ (forall c, next = Some c -> settled s (Some c)).
Hypothesis delete_settles : forall s k c, settled s (Some c) -> ~ after (Some c) k ->
  settled (snd (exec _ (KvDelete k DAny) s)) (Some c).

Lemma execute_trigger {A} (e : kvE A) s : execute (trigger e) s = exec _ e s.
Proof. cbn. by destruct (exec A e s). Qed.

Lemma execute_deletes (Q : St -> Prop) page s w p :
  (forall s k, k ∈ page -> Q s -> Q (snd (exec _ (KvDelete k DAny) s))) ->
  (exists s0, execute p s = (tt, s0) /\ refines s0 w /\ Q s0) -> exists s',
    execute (fold_left (fun p k => let! _ := p in let! _ := trigger (KvDelete k DAny) in Ret tt) page p) s = (tt, s') /\
    refines s' (remove_all page w) /\ Q s'.
Proof.
  revert p w. induction page as [|k page IH]; intros p w HQ (s0 & E & Hs & Hq); cbn [fold_left]; [by exists s0|].
  apply IH; [intros s1 k1 ?; apply HQ; by right|]. rewrite execute_bind, E. specialize (HQ s0 k ltac:(by left) Hq).
  destruct (exec_delete_any s0 w k Hs) as (s1 & E1 & Hs1). exists s1. rewrite E1 in HQ. cbn. by rewrite E1.
Qed.

Lemma flush_all_walk_spec fuel s w cursor rest :
  refines s w -> settled s cursor -> remaining (stored w) after cursor rest -> (forall k, stored w k -> after cursor k) ->
  (length rest < fuel)%nat -> exists s',
    execute (flush_all_walk fuel cursor) s = (Some (Ok tt), s') /\ refines s' (with_store w ∅).
Proof.
  revert s w cursor rest. induction fuel as [|fuel IH]; intros s w cursor rest Hs Hq Hr Hall Hf; [lia|].
  cbn [flush_all_walk]. destruct (list_page s w cursor 1000 Hs Hq ltac:(lia)) as (page & next & E & Hp & _ & Hq').
  rewrite execute_bind, execute_trigger, E. cbn [lp_keys lp_next_cursor]. rewrite execute_bind.
  destruct (execute_deletes (fun s => forall c, next = Some c -> settled s (Some c)) page s w (Ret tt)) as (s1 & -> & Hs1 & Hq1).
  { intros s1 k Hk Hs1 c Ec. apply delete_settles; [by apply Hs1|]. intros Ha.
    destruct (page_progress _ _ _ _ _ Hp c Ec) as [_ Hpg]. by destruct (Hpg k Ha). }
  { by exists s. }
  pose proof (flush_step after w cursor page next rest Hp Hr Hall) as Hn. destruct next as [c|].
  - destruct Hn as (rest' & Hr' & Hall' & Hlen).
    destruct (IH s1 _ (Some c) rest' Hs1 (Hq1 c eq_refl) Hr' Hall') as (s2 & E2 & Hs2); [lia|].
    exists s2. split; [done|]. rewrite remove_all_store in Hs2. exact Hs2.
  - exists s1. split; [done|]. rewrite remove_all_store, Hn in Hs1. exact Hs1.
Qed.
End flush.

(** ** The commands *)

(** KEYS and a client of SCAN answer every stored key that matches, each once, in
    some order; RANDOMKEY answers one of them, or nil when there is none; DBSIZE
    counts them; INFO, whatever its arguments, answers what it does on the reference
    backend; FLUSHALL removes them. *)
Record walks_keyspace {St} (run : forall R, prog kvE R -> St -> R * St) (rel : St -> world -> Prop)
    (env : Env) (s : St) (w : world) : Prop := {
  keys_answer : forall p, utf8_valid p = true -> exists seen,
    run _ (dispatch env [bs "KEYS"; p]) s = (Some (bulk_array seen), s) /\
    seen ≡ₚ List.filter (matches env p) (sorted_keys w);
  scan_answer : forall pattern count, 1 <= count -> exists seen,
    run _ (scan_client (matches env) (fuel env) None pattern count) s = (Some (Ok seen), s) /\
    seen ≡ₚ List.filter (fun k => match pattern with Some p => matches env p k | None => true end) (sorted_keys w);
  randomkey_answer : (forall k, matches env (bs "*") k = true) -> exists r,
    run _ (dispatch env [bs "RANDOMKEY"]) s = (Some (nil_or_bulk r), s) /\
    match r with Some k => is_Some (store w !! k) | None => store w = ∅ end;
  info_answer : forall args, run _ (dispatch env (bs "INFO" :: args)) s = (fst (Backend.run (dispatch env (bs "INFO" :: args)) w), s);
  dbsize_answer : run _ (dispatch env [bs "DBSIZE"]) s = (Some (RInteger (Z.of_nat (size (store w)))), s);
  flushall_answer : exists s', run _ (dispatch env [bs "FLUSHALL"]) s = (Some reply_ok, s') /\ rel s' (with_store w ∅);
}.

Section commands.
Context {St : Type} `{L : Listing St}.

Lemma execute_dispatch env c f args (r : option (Result RespReply)) s s' :
  from_utf8 c = Some c -> find_command env (to_ascii_uppercase c) = Some f ->
  execute (f args) s = (r, s') -> execute (dispatch env (c :: args)) s = (option_map reply_of r, s').
Proof. intros Hc Hf E. unfold dispatch. by rewrite (run_known env c f args Hc Hf), execute_bind, E. Qed.

(** RANDOMKEY picks from what KEYS answers. *)
Lemma random_pick (l : list Str) n : l <> [] -> exists k, l !! Z.to_nat (n mod len l) = Some k /\ In k l.
Proof.
  intros Hl. assert (0 < len l) by (destruct l; [done|unfold len; cbn; lia]).
  pose proof (Z.mod_pos_bound n (len l) ltac:(lia)) as Hb.
  destruct (l !! Z.to_nat (n mod len l)) as [k|] eqn:Ek.
  - exists k. split; [done|]. apply list_elem_of_In. by apply list_elem_of_lookup_2 in Ek.
  - apply lookup_ge_None in Ek. unfold len in *. lia.
Qed.

Lemma random_key_lists env s w :
  refines s w -> settled s None -> (size (store w) < fuel env)%nat -> (forall k, matches env (bs "*") k = true) -> exists r,
  execute (random_key (matches env) (fuel env)) s = (Some (Ok r), s) /\
  match r with Some k => is_Some (store w !! k) | None => store w = ∅ end.
Proof.
  intros Hs Hq Hf Hm. rewrite <- sorted_keys_size in Hf.
  destruct (keys_walk_lists (matches env) (bs "*") (fuel env) s w None (sorted_keys w) [] Hs Hq (remaining_start w) Hf) as (seen & E & Hp).
  unfold random_key, keys. rewrite execute_bind, E. cbn [app].
  assert (Hin : forall k, In k seen <-> is_Some (store w !! k)).
  { intros k. rewrite <- sorted_keys_spec, <- list_elem_of_In, Hp, list_elem_of_In, List.filter_In, Hm. tauto. }
  destruct seen as [|k0 seen].
  - exists None. split; [done|]. apply map_eq. intros k. rewrite lookup_empty. destruct (store w !! k) eqn:Ek; [|done].
    exfalso. by apply (Hin k).
  - unfold pseudo_rand_u64. destruct (exec_nanos s) as [n En]. cbn [trigger pbind execute]. rewrite En.
    destruct (random_pick (k0 :: seen) (rand_of_nanos n) ltac:(done)) as (k & Ek & Hk). exists (Some k). rewrite Ek.
    split; [done|]. by apply Hin.
Qed.

Lemma info_alike env s w args :
  refines s w -> settled s None -> (size (store w) < fuel env)%nat -> Z.of_nat (size (store w)) <= i64_max ->
  execute (handle_info (fuel env) (process_id env) (started_at_ms env) args) s =
    (fst (Backend.run (handle_info (fuel env) (process_id env) (started_at_ms env) args) w), s).
Proof.
  intros Hs Hq Hf Hmax. unfold handle_info. destruct (match args with [] => _ | _ => _ end) as [section|e]; [|done].
  assert (Hn : execute (count_keys (fuel env)) s = (Some (Ok (len (sorted_keys w))), s)).
  { unfold count_keys. rewrite <- sorted_keys_size in Hf.
    apply (count_keys_walk_lists (fuel env) s w None (sorted_keys w) 0 Hs Hq (remaining_start w) Hf); [done|].
    unfold len. rewrite sorted_keys_size. lia. }
  assert (Hr : Backend.run (count_keys (fuel env)) w = (Some (Ok (len (sorted_keys w))), w)).
  { pose proof (sorted_keys_size w) as Hsz. pose proof (len_nonneg (sorted_keys w)). assert (Hl : len (sorted_keys w) = Z.of_nat (size (store w))) by (unfold len; by rewrite Hsz).
    apply (count_keys_walk_from (fuel env) w 0%nat); rewrite ?drop_0; first [done|lia]. }
  assert (Hks : forall f : KeyspaceStats -> RespReply, execute (answer_partial (keyspace_stats (fuel env)) f) s =
    (fst (Backend.run (answer_partial (keyspace_stats (fuel env)) f) w), s)).
  { intros f. unfold answer_partial, keyspace_stats, dbsize. by rewrite !execute_bind, Hn, !run_bind, Hr. }
  assert (Hserver : forall (b : bool) (f : Str -> partial_handler), (forall out, execute (f out) s = (fst (Backend.run (f out) w), s)) ->
    execute (pbind (if b then info_server (process_id env) (started_at_ms env) else Ret []) f) s =
    (fst (Backend.run (pbind (if b then info_server (process_id env) (started_at_ms env) else Ret []) f) w), s)).
  { intros [] f Hf'; [|apply Hf']. unfold info_server, now_ms. cbn [trigger pbind execute Backend.run handle]. rewrite (exec_now s w Hs). apply Hf'. }
  apply Hserver. intros out. destruct (info_section_included section (bs "keyspace")); [apply Hks|done].
Qed.

Lemma listing_walks env s w :
  refines s w -> settled s None -> (size (store w) < fuel env)%nat -> (size (store w) < flush_bound)%nat -> Z.of_nat (size (store w)) <= i64_max ->
  walks_keyspace (fun R => execute) refines env s w.
Proof.
  intros Hs Hq Hf Hfl Hmax. pose proof (remaining_start w) as Hr. pose proof Hf as Hf'. rewrite <- sorted_keys_size in Hf'. split.
  - intros p Hp. destruct (keys_walk_lists (matches env) p (fuel env) s w None (sorted_keys w) [] Hs Hq Hr Hf') as (seen & E & Hseen).
    exists seen. split; [|done]. apply (execute_dispatch env (bs "KEYS") (handle_keys (matches env) (fuel env)) [p] (Some (Ok (bulk_array seen)))); [done..|].
    unfold handle_keys, arg_as_str, from_utf8. rewrite Hp. cbn [ok_or]. unfold answer_partial, keys. by rewrite execute_bind, E.
  - intros pattern count Hc. by apply (scan_client_lists _ _ _ _ s w None).
  - intros Hm. destruct (random_key_lists env s w Hs Hq Hf Hm) as (r & E & Hin). exists r. split; [|done].
    apply (execute_dispatch env (bs "RANDOMKEY") (handle_randomkey (matches env) (fuel env)) [] (Some (Ok (nil_or_bulk r)))); [done..|].
    cbn [handle_randomkey]. unfold answer_partial. by rewrite execute_bind, E.
  - intros args. pose proof (info_alike env s w args Hs Hq Hf Hmax) as E.
    rewrite (execute_dispatch env (bs "INFO") (handle_info (fuel env) (process_id env) (started_at_ms env)) args _ s s eq_refl eq_refl E).
    unfold dispatch. rewrite (run_known env (bs "INFO") (handle_info (fuel env) (process_id env) (started_at_ms env)) args eq_refl eq_refl), run_bind.
    by destruct (Backend.run _ w).
  - apply (execute_dispatch env (bs "DBSIZE") (handle_dbsize (fuel env)) [] (Some (Ok (RInteger (Z.of_nat (size (store w))))))); [done..|].
    cbn [handle_dbsize]. unfold answer_partial, dbsize, count_keys. rewrite execute_bind.
    rewrite (count_keys_walk_lists (fuel env) s w None (sorted_keys w) 0 Hs Hq Hr Hf') by (unfold len; rewrite ?sorted_keys_size; lia).
    unfold len. rewrite sorted_keys_size. done.
  - destruct (exec_flush s w Hs Hq Hfl) as (s' & E & Hs'). exists s'. split; [|done].
    apply (execute_dispatch env (bs "FLUSHALL") (full (fun args => handle_flushall args (bs "FLUSHALL"))) [] (Some (Ok reply_ok))); [done..|].
    cbn. by rewrite E.
Qed.
End commands.

(** ** S3 *)

Section s3.
Context {St : Type} `{Svc : S3Service St}.
Variable from_slice : list byte -> Result StoredValue.
Variable to_vec : StoredValue -> Result (list byte).
Variable self : S3Storage.
Variable pages : nat.

Definition s3_flush : prog s3E (Result unit) := within (s3_flush_all self pages).
Abbreviation on_s3 := (interp (s3_backend from_slice to_vec self s3_flush)).
Definition s3_key_after (cursor : option Str) (k : Str) : Prop := s3_after cursor (s3_key self k).

Lemma strip_prefix_spec p x k : strip_prefix p x = Some k <-> x = p ++ k.
Proof.
  revert x. induction p as [|b p IH]; intros x; cbn; [split; [by intros [= ->]|by intros ->]|].
  destruct x as [|y x]; [done|]. case_bool_decide as E; subst.
  - rewrite IH. split; [by intros ->|by intros [= ->]].
  - split; [done|]. by intros [= ->].
Qed.

Lemma same_entries_stored s w k :
  same_entries from_slice self s w ->
  (is_Some (objects s (bucket self) !! s3_key self k) /\ is_Some (strip_prefix (prefix self) (s3_key self k))) <-> stored w k.
Proof.
  intros [_ Hs]. specialize (Hs k). unfold stored. assert (strip_prefix (prefix self) (s3_key self k) = Some k) as ->.
  { by apply strip_prefix_spec. }
  destruct (objects s (bucket self) !! s3_key self k) as [[]|], (store w !! k) as [[]|]; try done; split; eauto.
  - intros [[? [=]] _].
  - intros [? [=]].
Qed.

(** A page of the bucket is a page of keys. *)
Lemma s3_list_keys s w cursor max_keys :
  same_entries from_slice self s w -> (forall n, max_keys = Some n -> 1 <= n) -> exists names next,
    s3_handle _ (ListObjectsV2 (bucket self) (prefix self) cursor max_keys) s = (ListOk (map Some names) next, s) /\
    lists_page (stored w) s3_key_after cursor (omap (strip_prefix (prefix self)) names) next /\
    names = map (s3_key self) (omap (strip_prefix (prefix self)) names) /\ len names <= page_limit max_keys.
Proof.
  intros Hs Hn. destruct (s3_list s (bucket self) (prefix self) cursor max_keys Hn) as (names & next & E & Hp & Hl).
  exists names, next. split; [done|]. split; [|split; [|done]].
  - eapply lists_page_ext; [intros k _; by eapply same_entries_stored|].
    refine (lists_page_omap _ s3_after cursor names next (s3_key self) (strip_prefix (prefix self)) _ _ Hp).
    { intros x k. apply strip_prefix_spec. }
    intros x [_ Hx]. exact Hx.
  - assert (Hall : forall x, x ∈ names -> is_Some (strip_prefix (prefix self) x)) by (intros x Hx; by apply (page_present _ _ _ _ _ Hp) in Hx as [[_ ?] _]).
    clear -Hall. induction names as [|x names IH]; cbn; [done|]. destruct (Hall x) as [k Ek]; [by left|]. rewrite Ek. cbn.
    apply strip_prefix_spec in Ek as ->. f_equal. apply IH. intros y Hy. apply Hall. by right.
Qed.

Lemma omap_id_Some {A} (l : list A) : omap id (map Some l) = l.
Proof. induction l as [|x l IH]; cbn; [done|]. by rewrite IH. Qed.

Lemma s3_list_page_spec s w cursor n :
  same_entries from_slice self s w -> True -> 1 <= n -> exists page next,
    s3_exec from_slice to_vec self s3_flush _ (KvListPage cursor n) s =
      (Ok {| lp_keys := page; lp_next_cursor := next |}, s) /\
    lists_page (stored w) s3_key_after cursor page next /\ len page <= n /\ (forall c, next = Some c -> True).
Proof.
  intros Hs _ Hn. destruct (s3_list_keys s w cursor (Some (i32_of_usize n)) Hs) as (names & next & E & Hp & Hnames & Hl).
  { intros m [= <-]. unfold i32_of_usize. lia. }
  exists (omap (strip_prefix (prefix self)) names), next. split; [|split; [done|split; [|done]]].
  - unfold s3_exec. cbn [s3_backend]. unfold s3_list_page. cbn [trigger pbind run_s3]. rewrite E. cbn. by rewrite omap_id_Some.
  - unfold len in *. rewrite Hnames, length_map in Hl. cbn [page_limit] in Hl. unfold i32_of_usize in Hl. lia.
Qed.

Lemma fold_delete_lookup {V} (ks : list Str) (m : gmap Str V) k :
  fold_left (fun m k => base.delete k m) ks m !! k = if decide (k ∈ ks) then None else m !! k.
Proof.
  revert m. induction ks as [|k0 ks IH]; intros m; cbn [fold_left]; [done|]. rewrite IH.
  destruct (decide (k ∈ ks)) as [Hi|Hi]; [by rewrite decide_True by by right|]. rewrite lookup_delete.
  case_decide as Hk; [subst; rewrite decide_True; [done|by left]|]. rewrite decide_False; [done|]. intros [->|?]%elem_of_cons; done.
Qed.

Lemma same_entries_remove_all s w s' ks :
  same_entries from_slice self s w ->
  objects s' (bucket self) = fold_left (fun m k => base.delete k m) (map (s3_key self) ks) (objects s (bucket self)) ->
  s3_clock s' = s3_clock s -> same_entries from_slice self s' (remove_all ks w).
Proof.
  intros [Hc Hs] Ho Hc'. split; [rewrite Hc', Hc, remove_all_store; done|]. intros k. rewrite Ho, fold_delete_lookup.
  unfold remove_all. rewrite removes_lookup. specialize (Hs k).
  assert (s3_key self k ∈ map (s3_key self) ks <-> k ∈ ks).
  { rewrite list_elem_of_fmap. split; [by intros (k' & ->%s3_key_inj & ?)|]. intros ?. by exists k. }
  do 2 case_decide; tauto.
Qed.

Lemma s3_flush_walk_spec fuel s w cursor rest :
  same_entries from_slice self s w -> remaining (stored w) s3_key_after cursor rest ->
  (forall k, stored w k -> s3_key_after cursor k) -> (length rest < fuel)%nat -> exists s',
    run_s3 (s3_flush_walk self fuel cursor) s = (Some (Ok tt), s') /\ same_entries from_slice self s' (with_store w ∅).
Proof.
  revert s w cursor rest. induction fuel as [|fuel IH]; intros s w cursor rest Hs Hr Hall Hf; [lia|].
  destruct (s3_list_keys s w cursor None Hs) as (names & next & E & Hp & Hnames & Hl); [done|].
  cbn [s3_flush_walk]. rewrite run_s3_bind. cbn [trigger run_s3]. rewrite E, omap_id_Some.
  set (ks := omap (strip_prefix (prefix self)) names) in *.
  pose proof (flush_step _ w cursor ks next rest Hp Hr Hall) as Hn.
  assert (Hgo : forall s1, same_entries from_slice self s1 (remove_all ks w) -> exists s',
    run_s3 (match next with Some c => s3_flush_walk self fuel (Some c) | None => Ret (Some (Ok tt)) end) s1 = (Some (Ok tt), s') /\
    same_entries from_slice self s' (with_store w ∅)).
  { intros s1 Hs1. destruct next as [c|].
    - destruct Hn as (rest' & Hr' & Hall' & Hlen). destruct (IH s1 _ (Some c) rest' Hs1 Hr' Hall') as (s2 & E2 & Hs2); [lia|].
      exists s2. split; [done|]. rewrite remove_all_store in Hs2. exact Hs2.
    - exists s1. split; [done|]. rewrite remove_all_store, Hn in Hs1. exact Hs1. }
  destruct names as [|x names].
  - apply Hgo. exact Hs.
  - rewrite run_s3_bind. cbn [trigger run_s3].
    destruct (s3_delete_objects s (bucket self) (x :: names)) as (s1 & -> & Ho & Hc); [done|]. apply Hgo.
    eapply same_entries_remove_all; [exact Hs| |done]. by rewrite <- Hnames.
Qed.

#[local] Instance s3_listing : @Listing St (s3_implementation from_slice to_vec self s3_flush).
Proof.
  refine (@Build_Listing St (s3_implementation from_slice to_vec self s3_flush) s3_key_after _ (fun _ _ => True) s3_list_page_spec pages _).
  - intros k. apply s3_after_none.
  - intros s w Hs _ Hsize. destruct (s3_flush_walk_spec pages s w None (sorted_keys w) Hs) as (s' & E & Hs').
    + destruct (remaining_all w) as [Hnd Hr]. split; [done|]. intros k. rewrite Hr. pose proof (s3_after_none (s3_key self k)). tauto.
    + intros k _. apply s3_after_none.
    + by rewrite sorted_keys_size.
    + exists s'. split; [|done]. cbn. unfold s3_exec. cbn [s3_backend]. unfold s3_flush, within, s3_flush_all.
      by rewrite run_s3_bind, E.
Defined.

(** C7: the commands that walk the keyspace, on S3.  Over an available S3
    service KEYS, and a client that follows SCAN's cursors with any COUNT, answer
    every stored key that matches, each exactly once, in whatever pages and order
    the service lists; RANDOMKEY answers one of the keys, DBSIZE counts them, INFO
    answers as on the reference backend; FLUSHALL leaves none, and nothing outside
    the prefix is taken for a key. *)
Theorem s3_walks env s w :
  same_entries from_slice self s w -> (size (store w) < fuel env)%nat -> (size (store w) < pages)%nat ->
  Z.of_nat (size (store w)) <= i64_max ->
  walks_keyspace (fun R p => run_s3 (on_s3 p)) (same_entries from_slice self) env s w.
Proof.
  intros Hs Hf Hp Hm. destruct (listing_walks (L := s3_listing) env s w Hs I Hf Hp Hm) as [H1 H2 H3 H4 H5 H6].
  split; [intros p Hu|intros pattern count Hc|intros Hm'|intros args| |]; rewrite run_s3_execute; auto.
Qed.
End s3.

(** ** DynamoDB *)

Section dynamo.
Context {St : Type} `{Svc : DynService St}.
Variable from_slice : list byte -> Result StoredValue.
Variable to_vec : StoredValue -> Result (list byte).
Variable tables : TableNames.
Hypothesis distinct : tables_distinct tables.
Variable pages : nat.

(** The trait's default. *)
Definition dyn_flush : prog dynE (Result unit) :=
  within (interp (dyn_backend from_slice to_vec tables (Ret (Ok tt))) (flush_all_default pages)).
Abbreviation on_dynamo := (interp (dyn_backend from_slice to_vec tables dyn_flush)).

Lemma same_rows_stored (s : St) w k :
  same_rows from_slice tables s w -> is_Some (rows s !! (t_index tables, k)) <-> stored w k.
Proof.
  intros [_ Hs]. specialize (Hs k). unfold stored. destruct (store w !! k) as [[e v]|].
  - destruct Hs as ((i & -> & _) & _). split; by eexists.
  - rewrite (proj1 Hs). done.
Qed.

Lemma pk_item_lookup k : pk_item k !! ATTR_PK = Some (AvS k).
Proof. apply lookup_singleton_eq. Qed.

Lemma scanned_keys page :
  omap (fun row : item => match row !! ATTR_PK with Some v => as_s v | None => None end) (map pk_item page) = page.
Proof. induction page as [|k page IH]; [done|]. cbn [map omap list_omap]. rewrite pk_item_lookup. cbn [as_s]. by rewrite IH. Qed.

(** No index row after the cursor has been written so lately that a scan may not
    show it. *)
Definition dyn_settled (s : St) (cursor : option Str) : Prop :=
  forall k, dyn_after cursor k -> ~ dyn_recent s (t_index tables) k.

Lemma dyn_list_page_spec fl (s : St) w cursor n :
  same_rows from_slice tables s w -> dyn_settled s cursor -> 1 <= n -> exists page next,
    dyn_exec from_slice to_vec tables fl _ (KvListPage cursor n) s =
      (Ok {| lp_keys := page; lp_next_cursor := next |}, s) /\
    lists_page (stored w) dyn_after cursor page next /\ len page <= n /\ (forall c, next = Some c -> dyn_settled s (Some c)).
Proof.
  intros Hs Hq Hn.
  destruct (dyn_scan s (t_index tables) (i32_of_usize n) cursor) as (view & page & next & E & Hview & Hp & Hl); [unfold i32_of_usize; lia|].
  exists page, next. split; [|split; [|split; [unfold i32_of_usize in Hl; lia|]]].
  - unfold dyn_exec. cbn [dyn_backend]. unfold dyn_list_page, scan_index. rewrite !run_dyn_bind. cbn [trigger run_dyn]. rewrite E. cbn [run_dyn].
    rewrite scanned_keys. destruct next as [c|]; [|done]. cbn [fmap option_fmap option_map]. by rewrite pk_item_lookup.
  - eapply lists_page_ext, Hp. intros k Ha. rewrite (Hview k (Hq k Ha)). by apply same_rows_stored.
  - intros c Ec k Ha. apply Hq. by apply (page_progress _ _ _ _ _ Hp c Ec).
Qed.

Lemma dyn_delete_settles fl (s : St) k c :
  dyn_settled s (Some c) -> ~ dyn_after (Some c) k ->
  dyn_settled (snd (dyn_exec from_slice to_vec tables fl _ (KvDelete k DAny) s)) (Some c).
Proof.
  intros Hq Hk. unfold dyn_exec. cbn [dyn_backend]. unfold dyn_delete, read_index_kind. rewrite !run_dyn_bind. cbn [trigger run_dyn].
  rewrite dyn_get. destruct (rows s !! (t_index tables, k)) as [row|]; cbn [run_dyn]; [|done].
  destruct (row !! ATTR_KIND) as [v|]; cbn [run_dyn]; [|done].
  destruct (let? _ := _ in _) as [[kd|]|err]; cbn [run_dyn]; [|done..]. rewrite run_dyn_bind. cbn [trigger run_dyn].
  destruct (dyn_handle _ (TransactWriteItems _) s) as [r s1] eqn:E. cbn [run_dyn snd]. intros k' Ha Hr.
  destruct (dyn_tx_recent s _ r s1 E _ k' Hr) as [Hold|Hin]; [by apply (Hq k')|].
  cbn in Hin. rewrite !elem_of_cons, elem_of_nil in Hin. destruct Hin as [[= _ ->]|[[= ->]|[]]]; done.
Qed.

#[local] Instance dyn_listing : @Listing St (dyn_implementation from_slice to_vec tables distinct dyn_flush).
Proof.
  refine (@Build_Listing St (dyn_implementation from_slice to_vec tables distinct dyn_flush) dyn_after dyn_after_none
    dyn_settled (dyn_list_page_spec dyn_flush) pages _).
  intros s w Hs Hq Hsize.
  destruct (flush_all_walk_spec (I := dyn_implementation from_slice to_vec tables distinct (Ret (Ok tt))) dyn_after dyn_settled
    (dyn_list_page_spec (Ret (Ok tt))) (dyn_delete_settles (Ret (Ok tt))) pages s w None (sorted_keys w) Hs Hq) as (s' & E & Hs').
  - destruct (remaining_all w) as [Hnd Hr]. split; [done|]. intros k. rewrite Hr. pose proof (dyn_after_none k). tauto.
  - intros k _. apply dyn_after_none.
  - by rewrite sorted_keys_size.
  - exists s'. split; [|done]. cbn. unfold dyn_exec. cbn [dyn_backend]. unfold dyn_flush, within, flush_all_default.
    by rewrite run_dyn_bind, (run_dyn_execute from_slice to_vec tables distinct), E.
Defined.

End dynamo.

(** ** Concrete keyspaces *)

Definition two_entries : world := put (bs "b") new_entry (put (bs "a") new_entry empty_world).
Definition object_outside : mem := {| mem_objects := {[ bs "q/x" := (bs "new", bs "0") ]}; mem_next := 0; mem_clock := 1000 |}.
Definition with_object (k : Str) (s : mem) : mem :=
  {| mem_objects := <[s3_key tiny_storage k := (bs "new", bs "1")]> (mem_objects s); mem_next := 1; mem_clock := mem_clock s |}.
Definition three_objects : mem := with_object (bs "b") (with_object (bs "a") object_outside).

Lemma three_objects_entries : same_entries tiny_from_slice tiny_storage three_objects two_entries.
Proof.
  unfold three_objects, two_entries.
  do 2 (eapply (same_entries_put tiny_from_slice tiny_storage _ _ _ _ (bs "new") (bs "1")); [|reflexivity..]).
  split; [done|]. intros k.
  change (objects object_outside (bucket tiny_storage)) with ({[bs "q/x" := (bs "new", bs "0")]} : gmap Str (list byte * Str)).
  rewrite lookup_singleton_ne by done. done.
Qed.

Lemma s3_walks_witness :
  let run p := run_s3 (interp (s3_backend tiny_from_slice tiny_to_vec tiny_storage (s3_flush tiny_storage 3)) p) three_objects in
  run (dispatch sample_env [bs "DBSIZE"]) = (Some (RInteger 2), three_objects) /\
  exists s', run (dispatch sample_env [bs "FLUSHALL"]) = (Some reply_ok, s') /\
    same_entries tiny_from_slice tiny_storage s' (with_store two_entries ∅).
Proof.
  destruct (s3_walks tiny_from_slice tiny_to_vec tiny_storage 3 sample_env three_objects two_entries three_objects_entries)
    as [_ _ _ _ Hd Hf]; [vm_compute; first [lia|discriminate]..|]. split; [exact Hd|exact Hf].
Defined.

Definition two_rows : dyn_mem :=
  snd (run_dyn (dyn_save pair_to_vec TableNames_default (bs "b") list_entry WAny)
    (snd (run_dyn (dyn_save pair_to_vec TableNames_default (bs "a") string_entry WAny) empty_tables))).
Definition two_kinds : world := put (bs "b") list_entry (put (bs "a") string_entry empty_world).

Lemma two_rows_same : same_rows pair_from_slice TableNames_default two_rows two_kinds.
Proof.
  assert (Hput : forall s w k e, same_rows pair_from_slice TableNames_default s w -> storable pair_from_slice pair_to_vec e ->
    same_rows pair_from_slice TableNames_default (snd (run_dyn (dyn_save pair_to_vec TableNames_default k e WAny) s)) (put k e w)).
  { intros s w k e Hs He. by destruct (dyn_save_any_spec pair_from_slice pair_to_vec TableNames_default default_distinct s w k e Hs He)
      as (s' & -> & ?). }
  apply Hput, list_storable. apply Hput, string_storable. exact empty_same_rows.
Qed.

