(* ===== verification/ZAggregates.v ===== *)
(** * ZAggregates

    ZINTER, ZUNION, ZDIFF and their STORE forms against the algebra of scored
    sets.  The code folds through a [HashMap], whose iteration order Rust leaves
    open; the answers do not depend on it. *)

From S2P Require Import Prelude.
From S2P Require Import Text.
From S2P Require Import BTree.
From S2P Require Import F64.
From S2P Require Import Stream.
From S2P Require Import Value.
From S2P Require Import Backend.
From S2P Require Import Contracts.
From S2P Require Import Collections.
From S2P Require Import Strings.
From S2P Require Import Hashes.
From S2P Require Import Sets.
From S2P Require Import ZSets.
From S2P Require Import Keyspace.
From S2P Require Import Resp.
From S2P Require Import Commands.
From S2P Require Import CmdCollections.
From S2P Require Import CmdZSets.
From S2P Require Import Bits.

(** ** The algebra *)

(** What a key contributes: a sorted set its scores, a set the score 1 for each
    member, a missing key nothing. *)
Definition scored_at (w : world) (k : Str) : option zmap :=
  match live w k with
  | Some {| value := VZSet m |} => Some m
  | Some {| value := VSet s |} => Some (map (fun m => (m, f64_one)) (bs_elems s))
  | Some _ => None
  | None => Some []
  end.

Definition weighted (input : zmap) (weight : f64) : zmap := map (fun '(m, s) => (m, f64_mul s weight)) input.

Definition union_score (agg : Aggregate) (inputs : list zmap) (m : Str) : option f64 :=
  fold_left (fun acc input =>
    match acc, bt_get input m with
    | Some a, Some b => Some (combine_scores a b agg)
    | Some a, None => Some a
    | None, b => b
    end) inputs None.

Definition inter_score (agg : Aggregate) (first : zmap) (rest : list zmap) (m : Str) : option f64 :=
  fold_left (fun acc input =>
    match acc, bt_get input m with
    | Some a, Some b => Some (combine_scores a b agg)
    | _, _ => None
    end) rest (bt_get first m).

Definition diff_score (first : zmap) (rest : list zmap) (m : Str) : option f64 :=
  if existsb (fun input => bt_contains input m) rest then None else bt_get first m.

Definition aggregate_score (op : ZStoreOp) (agg : Aggregate) (inputs : list zmap) (m : Str) : option f64 :=
  match op, inputs with
  | ZUnion, _ => union_score agg inputs m
  | ZInter, first :: rest => inter_score agg first rest m
  | ZDiff, first :: rest => diff_score first rest m
  | _, [] => None
  end.

(** The pairs of a partial function from members to scores, in some order. *)
Definition lists_scores (pairs : list (f64 * Str)) (score : Str -> option f64) : Prop :=
  NoDup (map snd pairs) /\ forall m s, In (s, m) pairs <-> score m = Some s.

(** ** The folds *)

Lemma weighted_wf input weight : bt_wf input -> bt_wf (weighted input weight).
Proof. apply bt_wf_keys. unfold bt_keys, weighted. rewrite map_map. apply map_ext. by intros []. Qed.

Lemma hash_collect_get (l : zmap) acc k :
  bt_wf l -> fold_left (fun m '(k, v) => <[k := v]> m) l acc !! k = (match bt_get l k with Some v => Some v | None => (acc : gmap Str f64) !! k end).
Proof.
  revert acc. induction l as [|[k1 v1] l IH]; intros acc Hl; [done|]. apply bt_wf_cons_inv in Hl as [Hk Hl].
  cbn [fold_left bt_get]. rewrite IH by done. destruct (kcmp k k1) eqn:E.
  - apply kcmp_eq in E as ->. rewrite (bt_get_below l k1 Hk). by rewrite lookup_insert_eq.
  - rewrite lookup_insert_ne by (intros ->; by rewrite kcmp_refl in E).
    rewrite (bt_get_below l k); [done|]. eapply Forall_klt_trans; [exact E|exact Hk].
  - by rewrite lookup_insert_ne by (intros ->; by rewrite kcmp_refl in E).
Qed.

Lemma bt_get_cons_eq k v (l : zmap) : bt_get ((k, v) :: l) k = Some v.
Proof. cbn [bt_get]. by rewrite kcmp_refl. Qed.
Lemma bt_get_cons_ne k k1 v (l : zmap) : bt_wf ((k1, v) :: l) -> k <> k1 -> bt_get ((k1, v) :: l) k = bt_get l k.
Proof.
  intros [Hk _]%bt_wf_cons_inv Hne. cbn [bt_get]. destruct (kcmp k k1) eqn:E; [by apply kcmp_eq in E| |done].
  by rewrite (bt_get_below l k) by (eapply Forall_klt_trans; [exact E|exact Hk]).
Qed.

Lemma union_input agg (l : zmap) acc k :
  bt_wf l ->
  fold_left (union_step agg) l acc !! k =
    match acc !! k, bt_get l k with
    | Some a, Some b => Some (combine_scores a b agg)
    | Some a, None => Some a
    | None, b => b
    end.
Proof.
  revert acc. induction l as [|[k1 v1] l IH]; intros acc Hl; cbn [fold_left].
  { cbn. by destruct (acc !! k). }
  pose proof Hl as [Hk Hl']%bt_wf_cons_inv. rewrite IH by done. unfold union_step. cbn [fst snd].
  destruct (decide (k = k1)) as [->|Hne].
  - rewrite bt_get_cons_eq, (bt_get_below l k1 Hk). destruct (acc !! k1) eqn:E; by rewrite lookup_insert_eq.
  - rewrite bt_get_cons_ne by done. by destruct (acc !! k1); rewrite lookup_insert_ne by done.
Qed.

Lemma union_inputs agg inputs k :
  Forall bt_wf inputs -> fold_left (union_step agg) (concat inputs) ∅ !! k = union_score agg inputs k.
Proof.
  intros Hwf. unfold union_score. change (@None f64) with ((∅ : gmap Str f64) !! k) at 1.
  generalize (∅ : gmap Str f64). induction Hwf as [|l inputs Hl Hwf IH]; intros acc; [done|].
  cbn [concat fold_left]. by rewrite fold_left_app, IH, union_input.
Qed.

Lemma intersect_input agg current (l : zmap) k :
  bt_wf l ->
  intersect_step agg current l !! k =
    match (current : gmap Str f64) !! k, bt_get l k with Some a, Some b => Some (combine_scores a b agg) | _, _ => None end.
Proof.
  intros Hl. unfold intersect_step, hash_collect. rewrite lookup_merge, hash_collect_get, lookup_empty by done.
  by destruct (current !! k), (bt_get l k).
Qed.

Section order.
Variable into_iter : gmap Str f64 -> list zentry.
Hypothesis into_iter_perm : forall m, into_iter m ≡ₚ map_to_list m.

Lemma in_swap (l : list zentry) s m : In (s, m) (swap_pairs l) <-> In (m, s) l.
Proof.
  unfold swap_pairs. rewrite in_map_iff. split; [by intros ([m' s'] & [= -> ->] & H)|]. intros H. by exists (m, s).
Qed.
Lemma swap_members (l : list zentry) : map snd (swap_pairs l) = map fst l.
Proof. unfold swap_pairs. rewrite map_map. apply map_ext. by intros []. Qed.

Lemma lists_map (hm : gmap Str f64) : lists_scores (swap_pairs (into_iter hm)) (fun m => hm !! m).
Proof.
  split.
  - rewrite swap_members. rewrite into_iter_perm. apply NoDup_fst_map_to_list.
  - intros m s. rewrite in_swap, <- list_elem_of_In, into_iter_perm. apply elem_of_map_to_list.
Qed.

Lemma lists_ext pairs f g : (forall m, f m = g m) -> lists_scores pairs f -> lists_scores pairs g.
Proof. intros E [Hn H]. split; [done|]. intros m s. by rewrite <- E. Qed.


Lemma intersect_rest_spec agg rest current :
  Forall bt_wf rest ->
  lists_scores (intersect_rest into_iter agg rest current) (fun m =>
    fold_left (fun acc input =>
      match acc, bt_get input m with
      | Some a, Some b => Some (combine_scores a b agg)
      | _, _ => None
      end) rest (current !! m)).
Proof.
  revert current. induction rest as [|l rest IH]; intros current Hwf; cbn [intersect_rest fold_left]; [apply lists_map|].
  apply Forall_cons in Hwf as [Hl Hwf]. case_bool_decide as E.
  - subst. split; [constructor|]. intros m s. rewrite lookup_empty. split; [done|].
    clear. induction rest as [|l' rest IH]; [done|exact IH].
  - eapply lists_ext; [|by apply IH]. intros m. cbv beta. by rewrite intersect_input.
Qed.

Lemma difference_spec first rest :
  bt_wf first -> Forall bt_wf rest -> lists_scores (aggregate_difference (first :: rest)) (diff_score first rest).
Proof.
  intros Hf Hr. cbn [aggregate_difference]. set (dropped := list_to_set _ : gset Str).
  assert (Hd : forall m, bool_decide (m ∈ dropped) = existsb (fun input => bt_contains input m) rest).
  { intros m. apply eq_iff_eq_true. rewrite bool_decide_eq_true, existsb_exists. unfold dropped.
    rewrite elem_of_list_to_set, list_elem_of_In, in_map_iff. rewrite List.Forall_forall in Hr. split.
    - intros (ms & <- & (input & Hin & Hl)%in_concat). exists input. split; [done|].
      rewrite bt_contains_In by auto. by apply in_map.
    - intros (input & Hin & Hc). rewrite bt_contains_In in Hc by auto. apply in_map_iff in Hc as (ms & <- & Hl).
      exists ms. split; [done|]. apply in_concat. by exists input. }
  split.
  - rewrite swap_members. pose proof (bt_wf_NoDup _ (bt_wf_filter (fun k _ => negb (bool_decide (k ∈ dropped))) first Hf)) as H.
    unfold bt_keys, bt_filter in H. rewrite (List.filter_ext _ (fun ms : zentry => negb (bool_decide (fst ms ∈ dropped)))) in H; [done|].
    by intros [].
  - intros m s. rewrite in_swap, List.filter_In. cbn [fst]. rewrite Hd, <- bt_get_In by done. unfold diff_score.
    destruct (existsb _ rest); naive_solver.
Qed.

Definition aggregate_pairs (op : ZStoreOp) (agg : Aggregate) (inputs : list zmap) : list (f64 * Str) :=
  match op with
  | ZInter => aggregate_intersection into_iter inputs agg
  | ZUnion => aggregate_union into_iter inputs agg
  | ZDiff => aggregate_difference inputs
  end.

Lemma aggregate_pairs_spec op agg inputs :
  inputs <> [] -> Forall bt_wf inputs -> lists_scores (aggregate_pairs op agg inputs) (aggregate_score op agg inputs).
Proof.
  intros Hne Hwf. destruct inputs as [|first rest]; [done|]. pose proof Hwf as [Hf Hr]%Forall_cons. destruct op; cbn [aggregate_pairs].
  - eapply lists_ext; [|by apply intersect_rest_spec]. intros m. cbv beta. unfold hash_collect.
    rewrite hash_collect_get, lookup_empty by done. cbn [aggregate_score]. unfold inter_score. by destruct (bt_get first m).
  - eapply lists_ext; [|apply lists_map]. intros m. cbv beta. by apply union_inputs.
  - by apply difference_spec.
Qed.
End order.

(** ** Reading the inputs *)

Lemma scored_at_view w w' k : same_view w w' -> scored_at w' k = scored_at w k.
Proof. intros [_ H]. unfold scored_at. by rewrite H. Qed.

Lemma members_wf (v : f64) (s : bset Str) : bt_wf s -> bt_wf (map (fun m => (m, v)) (bs_elems s)).
Proof.
  induction 1 as [|k u s Hk Hs IH]; [constructor|]. cbn. constructor; [|exact IH].
  rewrite List.Forall_forall in Hk |- *. unfold bs_elems, bt_keys. intros kv Hin. apply in_map_iff in Hin as (m & <- & Hm).
  apply in_map_iff in Hm as (ms & <- & Hm). by apply Hk.
Qed.

Lemma scored_at_wf w k m : keyspace_wf w -> scored_at w k = Some m -> bt_wf m.
Proof.
  intros Hw. pose proof (keyspace_wf_live k w Hw) as Hl. unfold scored_at.
  destruct (live w k) as [[exp []]|]; intros [= <-]; [|by apply Hl|constructor].
  apply members_wf, Hl.
Qed.

Lemma run_load_scored k w :
  exists w', same_view w w' /\
    run (load_zset_or_set k) w = (match scored_at w k with Some l => Ok l | None => Err (wrong_type k) end, w').
Proof.
  unfold load_zset_or_set, kind. rewrite !run_bind, run_load. cbn [run]. unfold scored_at.
  pose proof (same_view_gc k w) as Hv.
  destruct (live w k) as [[exp [| | |s|m|]]|] eqn:El; cbn [option_map value_kind value run];
    try (by exists (gc k w)).
  - change (value_kind (VSet s)) with (bs "set"). change (str_eqb (bs "set") (bs "zset")) with false.
    change (str_eqb (bs "set") (bs "set")) with true. cbv iota. rewrite run_bind, run_smembers. unfold set_at. rewrite live_gc, El. cbn.
    exists (gc k (gc k w)). split; [|done]. etransitivity; [exact Hv|apply same_view_gc].
  - change (value_kind (VZSet m)) with (bs "zset"). change (str_eqb (bs "zset") (bs "zset")) with true.
    cbv iota. unfold zitems, read_zset. rewrite run_bind, run_load, live_gc, El. cbn.
    exists (gc k (gc k w)). split; [|done]. etransitivity; [exact Hv|apply same_view_gc].
Qed.

Lemma run_load_weighted keys weights inputs w out :
  Forall2 (fun k l => scored_at w k = Some l) keys inputs -> length weights = length keys ->
  exists w', same_view w w' /\
    run (load_weighted (zip keys weights) out) w = (Ok (out ++ zip_with weighted inputs weights), w').
Proof.
  revert inputs weights w out. induction keys as [|k keys IH]; intros inputs weights w out Hk Hw.
  - apply Forall2_nil_inv_l in Hk as ->. exists w. split; [done|]. cbn. by rewrite app_nil_r.
  - apply Forall2_cons_inv_l in Hk as (l & inputs' & Hl & Hk & ->). destruct weights as [|x weights]; [done|].
    cbn [zip zip_with load_weighted]. destruct (run_load_scored k w) as (w1 & Hv & E). rewrite run_bind, E, Hl.
    destruct (IH inputs' weights w1 (out ++ [weighted l x])) as (w2 & Hv2 & E2).
    { eapply Forall2_impl; [exact Hk|]. intros k' l'. by rewrite (scored_at_view _ _ _ Hv). }
    { by injection Hw. }
    exists w2. split; [by etransitivity|]. fold (weighted l x). rewrite E2. by rewrite <- app_assoc.
Qed.

(** ** The arguments *)

Definition weights_tail (wargs : list (list byte)) : list (list byte) :=
  match wargs with [] => [] | _ => bs "WEIGHTS" :: wargs end.
Definition aggregate_word (agg : Aggregate) : list byte :=
  match agg with Sum => bs "SUM" | Min => bs "MIN" | Max => bs "MAX" end.
Definition aggregate_tail (agg : option Aggregate) : list (list byte) :=
  match agg with Some a => [bs "AGGREGATE"; aggregate_word a] | None => [] end.
Definition scores_tail (with_scores : bool) : list (list byte) := if with_scores then [bs "WITHSCORES"] else [].

(** The weights [wargs] stand for: one per key, or none for ones; ZDIFF takes
    neither weights nor an aggregate. *)
Definition weights_ok (op : ZStoreOp) (n : nat) (wargs : list (list byte)) (agg : option Aggregate) (ws : list f64) : Prop :=
  (wargs = [] /\ ws = repeat f64_one n \/
   Forall2 (fun a x => parse_f64 a (bs "weight") = Ok x) wargs ws /\ length wargs = n) /\
  (op = ZDiff -> wargs = [] /\ agg = None).

Lemma parse_weights_ok wargs ws :
  Forall2 (fun a x => parse_f64 a (bs "weight") = Ok x) wargs ws -> parse_weights wargs = Ok ws.
Proof. induction 1 as [|a x wargs ws Ha _ IH]; [done|]. cbn [parse_weights]. by rewrite Ha, IH. Qed.

Lemma parse_aggregate_loop fuel n ws agg agg0 :
  (agg = None -> agg0 = Sum) -> (length (aggregate_tail agg) <= fuel)%nat ->
  parse_weights_aggregate_loop fuel (aggregate_tail agg) n ws Sum = Ok (ws, default Sum agg).
Proof.
  intros _ Hf. destruct agg as [a|]; [|by destruct fuel]. destruct fuel as [|fuel]; [cbn in Hf; lia|].
  cbn [aggregate_tail parse_weights_aggregate_loop].
  change (upper (bs "AGGREGATE")) with (@Ok Str (bs "AGGREGATE")). cbn [rbind].
  change (str_eqb (bs "AGGREGATE") (bs "WEIGHTS")) with false. change (str_eqb (bs "AGGREGATE") (bs "AGGREGATE")) with true.
  cbv iota. assert (parse_aggregate (aggregate_word a) = Ok a) as -> by (by destruct a). by destruct fuel.
Qed.

Lemma parse_weights_loop fuel wargs agg ws ws0 :
  Forall2 (fun a x => parse_f64 a (bs "weight") = Ok x) wargs ws -> (length (aggregate_tail agg) <= fuel)%nat ->
  parse_weights_aggregate_loop (S fuel) (bs "WEIGHTS" :: wargs ++ aggregate_tail agg) (length wargs) ws0 Sum =
    Ok (ws, default Sum agg).
Proof.
  intros Hw Hf. cbn [parse_weights_aggregate_loop]. change (upper (bs "WEIGHTS")) with (@Ok Str (bs "WEIGHTS")). cbn [rbind].
  change (str_eqb (bs "WEIGHTS") (bs "WEIGHTS")) with true. cbv iota.
  assert ((length (wargs ++ aggregate_tail agg) <? length wargs)%nat = false) as -> by (apply Nat.ltb_ge; rewrite length_app; lia).
  rewrite take_app_length, drop_app_length, (parse_weights_ok _ _ Hw). cbn [rbind].
  by apply (parse_aggregate_loop _ _ _ _ Sum).
Qed.

Lemma parse_aggregate_args op n wargs agg ws :
  weights_ok op n wargs agg ws ->
  parse_weights_aggregate (weights_tail wargs ++ aggregate_tail agg) n = Ok (ws, default Sum agg).
Proof.
  intros [[[-> ->]|[Hw <-]] _]; unfold parse_weights_aggregate.
  - by apply (parse_aggregate_loop _ _ _ _ Sum).
  - destruct wargs as [|a wargs]; [apply Forall2_nil_inv_l in Hw as ->; by apply (parse_aggregate_loop _ _ _ _ Sum)|].
    apply (parse_weights_loop (length ((a :: wargs) ++ aggregate_tail agg)) (a :: wargs)); [done|]. rewrite length_app. lia.
Qed.

Lemma weights_length op n wargs agg ws : weights_ok op n wargs agg ws -> length ws = n.
Proof. intros [[[_ ->]|[Hw <-]] _]; [apply repeat_length|]. by rewrite (Forall2_length _ _ _ Hw). Qed.

Lemma parse_numkeys_ok ks keys tail err :
  ks <> [] -> in_i64 (len ks) = true -> Forall2 (fun k key => from_utf8 k = Some key) ks keys ->
  parse_numkeys (print_Z (len ks)) (ks ++ tail) err = Ok (keys, tail).
Proof.
  intros Hne Hi Hk. unfold parse_numkeys. rewrite parse_i64_print by done. cbn [rbind].
  assert (0 < len ks) by (destruct ks; [done|]; rewrite len_cons; pose proof (len_nonneg ks); lia).
  destruct (Z.leb_spec (len ks) 0); [lia|]. rewrite len_app. pose proof (len_nonneg tail).
  destruct (Z.ltb_spec (len ks + len tail) (len ks)); [lia|].
  unfold len at 1 2. rewrite Nat2Z.id, take_app_length, drop_app_length. by rewrite (collect_results_args _ _ Hk).
Qed.

Lemma ends_with_scores_tail op n wargs agg ws sc (head : list (list byte)) :
  weights_ok op n wargs agg ws ->
  let tail := (weights_tail wargs ++ aggregate_tail agg) ++ scores_tail sc in
  wants_scores (head ++ tail) = sc -> ends_with_scores tail = Ok sc.
Proof.
  intros Hw tail Hs. unfold ends_with_scores. destruct sc.
  - unfold tail. cbn [scores_tail]. rewrite last_snoc. reflexivity.
  - unfold tail in *. cbn [scores_tail] in *. rewrite app_nil_r in *. clear tail.
    destruct agg as [a|]; cbn [aggregate_tail] in *.
    + rewrite (app_assoc _ [_] [_] : _ ++ [_; _] = _), last_snoc. by destruct a.
    + rewrite app_nil_r in *. destruct wargs as [|x wargs] using rev_ind; [done|]. clear IHwargs.
      assert (E : weights_tail (wargs ++ [x]) = (bs "WEIGHTS" :: wargs) ++ [x]) by (by destruct wargs).
      rewrite E in *. rewrite last_snoc. unfold wants_scores in Hs. rewrite app_assoc, last_snoc in Hs.
      destruct Hw as [[[H _]|[Hw _]] _]; [by destruct wargs|].
      apply Forall2_app_inv_l in Hw as (? & ? & _ & Hx & _). apply Forall2_cons_inv_l in Hx as (y & ? & Hx & _).
      unfold parse_f64 in Hx. unfold is_word. destruct (arg_as_str x); [|done]. cbn [rbind]. by rewrite Hs.
Qed.

(** ** The commands *)

Section commands.
Variable into_iter : gmap Str f64 -> list zentry.
Hypothesis into_iter_perm : forall m, into_iter m ≡ₚ map_to_list m.

(** The keys of a request and what they hold, its options and what they mean. *)
Record request (w : world) (op : ZStoreOp) (ks : list (list byte)) (keys : list Str) (wargs : list (list byte)) (agg : option Aggregate)
    (inputs : list zmap) (ws : list f64) : Prop := {
  rq_some : ks <> [];
  rq_count : in_i64 (len ks) = true;
  rq_utf8 : Forall2 (fun k key => from_utf8 k = Some key) ks keys;
  rq_inputs : Forall2 (fun key l => scored_at w key = Some l) keys inputs;
  rq_weights : weights_ok op (length ks) wargs agg ws;
}.

Definition request_args (ks wargs : list (list byte)) (agg : option Aggregate) : list (list byte) :=
  print_Z (len ks) :: ks ++ weights_tail wargs ++ aggregate_tail agg.

Lemma run_compute w op ks keys wargs agg inputs ws cmd allow sc :
  keyspace_wf w -> request w op ks keys wargs agg inputs ws ->
  (if allow : bool then wants_scores (request_args ks wargs agg ++ scores_tail sc) = sc else sc = false) ->
  exists pairs w', same_view w w' /\
    run (compute_zset_aggregate into_iter (request_args ks wargs agg ++ scores_tail sc) op cmd allow) w = (Ok pairs, w') /\
    lists_scores pairs (aggregate_score op (default Sum agg) (zip_with weighted inputs ws)).
Proof.
  intros Hw [Hne Hi Hk Hin Hwt] Hsc. unfold request_args, compute_zset_aggregate. cbn [app].
  rewrite <- app_assoc, (parse_numkeys_ok ks keys) by done.
  set (tail := (weights_tail wargs ++ aggregate_tail agg) ++ scores_tail sc).
  assert (Hst : (if allow then ends_with_scores tail else Ok false) = Ok sc).
  { destruct allow; [|by subst]. eapply (ends_with_scores_tail op _ wargs agg ws sc (print_Z (len ks) :: ks)); [exact Hwt|].
    etransitivity; [|exact Hsc]. f_equal. unfold tail, request_args. cbn [app]. by rewrite <- !app_assoc. }
  rewrite Hst.
  assert (Ht : (if sc then removelast tail else tail) = weights_tail wargs ++ aggregate_tail agg).
  { unfold tail. destruct sc; cbn [scores_tail]; [by rewrite removelast_last|by rewrite app_nil_r]. }
  rewrite Ht. pose proof (Forall2_length _ _ _ Hk) as Hlk.
  assert (Hp : match op with
    | ZDiff => match weights_tail wargs ++ aggregate_tail agg with
               | [] => Ok (repeat f64_one (length keys), Sum)
               | t :: _ => let? s := arg_as_str t in Err (parse_fmt (bs "syntax error near '" ++ s ++ bs "'"))
               end
    | _ => parse_weights_aggregate (weights_tail wargs ++ aggregate_tail agg) (length keys)
    end = Ok (ws, default Sum agg)).
  { rewrite <- Hlk. destruct op; try by eapply parse_aggregate_args.
    destruct Hwt as [Hwt Hd]. destruct (Hd eq_refl) as [-> ->]. destruct Hwt as [[_ ->]|[H2 Hn]]; [done|].
    apply Forall2_nil_inv_l in H2 as ->. by rewrite <- Hn. }
  rewrite Hp. destruct (run_load_weighted keys ws inputs w []) as (w' & Hv & E); [done| |].
  { by rewrite (weights_length _ _ _ _ _ Hwt). }
  rewrite run_bind, E. cbn [app run]. eexists _, w'. split; [done|]. split; [done|].
  change (lists_scores (aggregate_pairs into_iter op (default Sum agg) (zip_with weighted inputs ws))
    (aggregate_score op (default Sum agg) (zip_with weighted inputs ws))).
  apply aggregate_pairs_spec; [done| |].
  - apply weights_length in Hwt. apply Forall2_length in Hin. destruct ks, inputs, ws; cbn in *; congruence.
  - assert (Hiw : Forall bt_wf inputs) by (clear -Hw Hin; induction Hin; constructor; eauto using scored_at_wf).
    clear -Hiw. revert ws. induction Hiw as [|l inputs Hl _ IH]; intros [|weight ws]; cbn; constructor; auto using weighted_wf.
Qed.

(** *** The reply *)

Lemma sort_by_zcmp_sorted (l : list zentry) : NoDup (map fst l) -> no_nan l -> StronglySorted zlt (sort_by zcmp l).
Proof.
  induction l as [|x l IH]; intros Hn Hnan; [constructor|]. cbn [map] in Hn. apply NoDup_cons in Hn as [Hx Hn].
  apply Forall_cons in Hnan as [Hxn Hnan]. pose proof (sort_by_perm zcmp l) as Hp. cbn [sort_by].
  apply insert_by_sorted; [| |by apply IH].
  - unfold no_nan. rewrite Hp. by constructor.
  - rewrite Hp. apply Forall_forall. intros y Hy E. apply Hx. rewrite E. by apply list_elem_of_fmap_2.
Qed.

Lemma unswap_scores pairs score :
  lists_scores pairs score ->
  let l := sort_by zcmp (map (fun '(s, m) => (m, s)) pairs) in
  NoDup (map fst l) /\ (forall m s, In (m, s) l <-> score m = Some s) /\ (no_nan l -> StronglySorted zlt l).
Proof.
  intros [Hn Hs] l. pose proof (sort_by_perm zcmp (map (fun '(s, m) => (m, s)) pairs)) as Hp. fold l in Hp.
  assert (Hn' : NoDup (map fst (map (fun '(s, m) => (m, s)) pairs))).
  { rewrite map_map. erewrite map_ext; [exact Hn|]. by intros []. }
  split_and!.
  - by rewrite Hp.
  - intros m s. rewrite <- Hs, <- !list_elem_of_In, Hp, list_elem_of_In, in_map_iff, list_elem_of_In. split.
    + by intros ([s' m'] & [= -> ->] & H).
    + intros H. by exists (s, m).
  - intros Hnan. apply sort_by_zcmp_sorted; [done|]. unfold no_nan in *. by rewrite <- Hp.
Qed.

Definition handle_aggregate (op : ZStoreOp) : list (list byte) -> handler :=
  match op with
  | ZInter => handle_zinter into_iter
  | ZUnion => handle_zunion into_iter
  | ZDiff => handle_zdiff into_iter
  end.

(** C22: ZINTER, ZUNION and ZDIFF compute the algebra of scored sets.  On keys
    that hold sorted sets, sets (each member scoring 1) or nothing, they list each
    member once with its score: the weighted scores combined by SUM, MIN or MAX over
    all the inputs (ZINTER), over those that have the member (ZUNION), or the score
    in the first input when no other has the member (ZDIFF).  The order is that of
    score, then member, unless a NaN came out, and depends on no [HashMap]'s
    iteration order; nothing a reader can see changes. *)
Theorem zset_aggregate_spec w op ks keys wargs agg inputs ws sc :
  keyspace_wf w -> request w op ks keys wargs agg inputs ws ->
  wants_scores (request_args ks wargs agg ++ scores_tail sc) = sc ->
  exists l w', run (handle_aggregate op (request_args ks wargs agg ++ scores_tail sc)) w =
      (Ok (pairs_to_reply l sc), w') /\
    same_view w w' /\ NoDup (map fst l) /\
    (forall m s, In (m, s) l <-> aggregate_score op (default Sum agg) (zip_with weighted inputs ws) m = Some s) /\
    (no_nan l -> StronglySorted zlt l).
Proof.
  intros Hw Hr Hsc.
  assert (E : exists cmd, handle_aggregate op = fun args => handle_zset_aggregate into_iter args op cmd) by (by destruct op; eexists).
  destruct E as [cmd ->]. unfold handle_zset_aggregate, answer.
  destruct (run_compute w op ks keys wargs agg inputs ws cmd true sc Hw Hr Hsc) as (pairs & w' & Hv & E & Hp).
  rewrite run_bind, E, Hsc. cbn [run]. eexists _, w'. split; [done|]. split; [done|]. by apply unswap_scores.
Qed.

(** *** The stored set *)

Lemma last_value_In (l : list (Str * f64)) m s : NoDup (map fst l) -> last_value m l = Some s <-> In (m, s) l.
Proof.
  revert s. induction l as [|[m1 s1] l IH]; intros s Hn; [done|]. cbn [map] in Hn. apply NoDup_cons in Hn as [Hm Hn].
  pose proof (fun s => IH s Hn) as IH'. clear IH. rename IH' into IH.
  cbn [last_value In]. unfold str_eqb. destruct (last_value m l) as [v|] eqn:E.
  - split; [intros [= ->]; right; by apply IH|]. intros [[= <- <-]|H]; [|by apply IH].
    exfalso. apply Hm. rewrite list_elem_of_In. apply in_map_iff. exists (m1, v). split; [done|]. by apply IH.
  - case_bool_decide as Em; split; [naive_solver| |done|]; intros [[= -> ->]|H]; try done; by apply IH in H.
Qed.

Lemma run_zadd_fresh dest pairs score w :
  pairs <> [] -> live w dest = None -> lists_scores pairs score ->
  exists (m : zmap) w', run (zadd dest pairs) w = (Ok (len m), w') /\ bt_wf m /\ (forall x, bt_get m x = score x) /\ m <> [] /\
    live w' dest = Some (mk_entry None (VZSet m)) /\ (forall k, k <> dest -> live w' k = live w k).
Proof.
  intros Hne Hd [Hn Hs]. unfold zadd. rewrite run_cas. unfold atomic_update. rewrite live_gc, Hd. unfold zadd_mod.
  cbn [zset_or_empty rbind]. rewrite hset_loop_spec. set (l := map _ pairs). set (m := insert_all l []).
  assert (Hl : NoDup (map fst l)) by (unfold l; rewrite map_map; exact Hn).
  exists m. eexists. rewrite (len_nil : len (@nil zentry) = 0), Z.sub_0_r. split; [done|]. split; [by apply insert_all_wf; constructor|].
  split; [|split; [|split]].
  - intros x. unfold m. rewrite insert_all_get. apply option_eq. intros s. rewrite <- Hs.
    assert (E : In (s, x) pairs <-> In (x, s) l).
    { unfold l. rewrite in_map_iff. split; [intros H; by exists (s, x)|]. by intros ([] & [= <- <-] & H). }
    rewrite E, <- (last_value_In l x s Hl). by destruct (last_value x l).
  - apply insert_all_nonempty. left. unfold l. by destruct pairs.
  - by rewrite live_put_eq.
  - intros k Hk. rewrite live_put_ne by done. apply live_gc_any.
Qed.
End commands.

(** C23: ZINTERSTORE, ZUNIONSTORE and ZDIFFSTORE store the result of the
    algebra of scored sets at their destination: a well-formed sorted set with
    exactly the scores the algebra gives, without a TTL, whatever the destination
    held before and even if it is one of the inputs; they answer its size, leave no
    destination when it is empty, and touch no other key. *)
Theorem zset_store_spec into_iter w op d dest ks keys wargs agg inputs ws :
  (forall m, into_iter m ≡ₚ map_to_list m) ->
  keyspace_wf w -> from_utf8 d = Some dest -> request w op ks keys wargs agg inputs ws ->
  exists (m : zmap) w', run (handle_zstore into_iter (d :: request_args ks wargs agg) op) w = (Ok (RInteger (len m)), w') /\
    bt_wf m /\ (forall x, bt_get m x = aggregate_score op (default Sum agg) (zip_with weighted inputs ws) x) /\
    live w' dest = (match m with [] => None | _ => Some (mk_entry None (VZSet m)) end) /\
    forall k, k <> dest -> live w' k = live w k.
Proof.
  intros Hit Hw Hd Hr. unfold handle_zstore.
  assert (H3 : (len (d :: request_args ks wargs agg) <? 3) = false).
  { destruct ks; [by destruct (rq_some _ _ _ _ _ _ _ _ Hr)|]. unfold request_args. cbn [app]. rewrite !len_cons.
    pose proof (len_nonneg (ks ++ weights_tail wargs ++ aggregate_tail agg)). apply Z.ltb_ge. lia. }
  rewrite H3, (arg_as_str_utf8 _ _ Hd : arg_as_string d = _).
  assert (E : exists cmd, forall args, ZStoreOp_compute into_iter args op = compute_zset_aggregate into_iter args op cmd false)
    by (by destruct op; eexists).
  destruct E as [cmd E]. rewrite E. clear E.
  destruct (run_compute into_iter Hit w op ks keys wargs agg inputs ws cmd false false Hw Hr eq_refl) as (pairs & w1 & Hv & E & Hp).
  cbn [scores_tail] in E. rewrite app_nil_r in E. rewrite run_bind, E. clear E.
  destruct (run_delete dest w1) as (b & w2 & E & Hnone & Hkeep). rewrite run_bind, E.
  assert (Hkeep' : forall k, k <> dest -> live w2 k = live w k) by (intros k Hk; rewrite Hkeep by done; apply Hv).
  destruct pairs as [|p pairs].
  - exists [], w2. split_and!; [done|constructor| |done|done].
    intros x. destruct (aggregate_score _ _ _ x) eqn:Ex; [|done]. by apply (proj2 Hp) in Ex.
  - destruct (run_zadd_fresh dest (p :: pairs) _ w2 ltac:(done) Hnone Hp) as (m & w3 & Ez & Hm & Hget & Hne & Hl & Hk).
    exists m, w3. unfold answer. rewrite run_bind, Ez. split_and!; [done..| |].
    + rewrite Hl. by destruct m.
    + intros k Hkd. by rewrite Hk, Hkeep'.
Qed.

(** ** A concrete request *)

Definition two_zsets : world :=
  put (bs "b") (mk_entry None (VSet [(bs "y", tt); (bs "z", tt)]))
    (put (bs "a") (mk_entry None (VZSet [(bs "x", f64_lit "1.0"); (bs "y", f64_lit "2.0")])) empty_world).

Lemma two_zsets_wf : keyspace_wf two_zsets.
Proof. repeat (apply keyspace_wf_put; [split; [repeat constructor|done]|]). by apply map_Forall_empty. Qed.

Definition two_inputs : list zmap :=
  [[(bs "x", f64_lit "1.0"); (bs "y", f64_lit "2.0")]; [(bs "y", f64_one); (bs "z", f64_one)]].

Lemma two_zsets_request op wargs agg ws :
  weights_ok op 2 wargs agg ws ->
  request two_zsets op [bs "a"; bs "b"] [bs "a"; bs "b"] wargs agg
    two_inputs ws.
Proof. intros H. split; [done|done|by repeat constructor|by repeat constructor|exact H]. Qed.

(** ZUNION 2 a b WEIGHTS 2 3 AGGREGATE MAX WITHSCORES *)
Lemma zset_aggregate_spec_witness :
  exists l w', run (handle_zunion map_to_list
      [bs "2"; bs "a"; bs "b"; bs "WEIGHTS"; bs "2"; bs "3"; bs "AGGREGATE"; bs "MAX"; bs "WITHSCORES"]) two_zsets =
      (Ok (pairs_to_reply l true), w') /\ In (bs "y", f64_lit "4.0") l.
Proof.
  destruct (zset_aggregate_spec map_to_list (fun m => Permutation_refl _) two_zsets ZUnion [bs "a"; bs "b"] [bs "a"; bs "b"] [bs "2"; bs "3"] (Some Max) two_inputs
    [f64_lit "2.0"; f64_lit "3.0"] true two_zsets_wf) as (l & w' & E & _ & _ & Hl & _).
  - apply two_zsets_request. split; [right; split; [by repeat constructor|done]|done].
  - by vm_compute.
  - exists l, w'. split; [exact E|]. apply Hl. by vm_compute.
Defined.

(** ZDIFFSTORE a 2 a b *)
Lemma zset_store_spec_witness :
  exists m w', run (handle_zstore map_to_list [bs "a"; bs "2"; bs "a"; bs "b"] ZDiff) two_zsets = (Ok (RInteger (len m)), w') /\
    bt_get m (bs "x") = Some (f64_lit "1.0") /\ live w' (bs "a") = Some (mk_entry None (VZSet m)).
Proof.
  destruct (zset_store_spec map_to_list two_zsets ZDiff (bs "a") (bs "a") [bs "a"; bs "b"] [bs "a"; bs "b"] [] None two_inputs [f64_one; f64_one]
    (fun m => Permutation_refl _) two_zsets_wf) as (m & w' & E & _ & Hm & Hl & _).
  - reflexivity.
  - apply two_zsets_request. split; [by left|done].
  - exists m, w'. assert (Hx : bt_get m (bs "x") = Some (f64_lit "1.0")) by (rewrite Hm; by vm_compute).
    split; [exact E|]. split; [exact Hx|]. rewrite Hl. by destruct m.
Defined.
