(* ===== verification/GeoSearch.v ===== *)
(** * GeoSearch

    GEOSEARCH and GEOSEARCHSTORE (src/commands.rs) against their specification:
    the options of a request in any order, the members a shape covers, their
    order and their number, and the set that is stored. *)

From S2P Require Import Prelude.
From S2P Require Import Text.
From S2P Require Import BTree.
From S2P Require Import F64.
From S2P Require Import Stream.
From S2P Require Import Value.
From S2P Require Import Backend.
From S2P Require Import Contracts.
From S2P Require Import Collections.
From S2P Require Import Strings.
From S2P Require Import Sets.
From S2P Require Import ZSets.
From S2P Require Import Keyspace.
From S2P Require Import Geo.
From S2P Require Import Resp.
From S2P Require Import Commands.
From S2P Require Import CmdZSets.
From S2P Require Import CmdGeo.
From S2P Require Import Bits.
From S2P Require Import ZRanges.
From S2P Require Import ZAggregates.

(** ** The options of a request

    Each with the bytes that spell it and what they denote. *)

Inductive geo_option :=
| GoMember (m : list byte) (member : Str)
| GoLonLat (x y : list byte) (lon lat : f64)
| GoRadius (r u : list byte) (radius : f64) (unit : GeoUnit)
| GoBox (w h u : list byte) (width height : f64) (unit : GeoUnit)
| GoSort (s : GeoSort)
| GoCount (n : Z) (any : bool)
| GoWithCoord | GoWithDist | GoWithHash
| GoStoreDist.

Definition geo_option_args (g : geo_option) : list (list byte) :=
  match g with
  | GoMember m _ => [bs "FROMMEMBER"; m]
  | GoLonLat x y _ _ => [bs "FROMLONLAT"; x; y]
  | GoRadius r u _ _ => [bs "BYRADIUS"; r; u]
  | GoBox w h u _ _ _ => [bs "BYBOX"; w; h; u]
  | GoSort GeoAsc => [bs "ASC"]
  | GoSort GeoDesc => [bs "DESC"]
  | GoCount n any => bs "COUNT" :: print_Z n :: (if any then [bs "ANY"] else [])
  | GoWithCoord => [bs "WITHCOORD"]
  | GoWithDist => [bs "WITHDIST"]
  | GoWithHash => [bs "WITHHASH"]
  | GoStoreDist => [bs "STOREDIST"]
  end.
Definition geo_args (opts : list geo_option) : list (list byte) := flat_map geo_option_args opts.

Definition geo_option_ok (is_store : bool) (g : geo_option) : Prop :=
  match g with
  | GoMember m member => from_utf8 m = Some member
  | GoLonLat x y lon lat =>
      parse_f64 x (bs "longitude") = Ok lon /\ parse_f64 y (bs "latitude") = Ok lat /\ validate_lon_lat lon lat = Ok tt
  | GoRadius r u radius unit =>
      parse_f64 r (bs "radius") = Ok radius /\ not_a_size radius = false /\ geo_unit_arg u = Ok unit
  | GoBox w h u width height unit =>
      parse_f64 w (bs "width") = Ok width /\ parse_f64 h (bs "height") = Ok height /\
      not_a_size width = false /\ not_a_size height = false /\ geo_unit_arg u = Ok unit
  | GoSort _ => True
  | GoCount n _ => 0 < n <= i64_max
  | GoWithCoord | GoWithDist | GoWithHash => is_store = false
  | GoStoreDist => is_store = true
  end.

(** A later option of the same kind replaces an earlier one. *)
Definition geo_apply (o : GeoSearchOpts) (g : geo_option) : GeoSearchOpts :=
  match g with
  | GoMember _ member => set_centre o (FromMember member)
  | GoLonLat _ _ lon lat => set_centre o (FromLonLat lon lat)
  | GoRadius _ _ radius unit => set_shape o (Radius (f64_mul radius (GeoUnit_to_meters unit)), unit)
  | GoBox _ _ _ width height unit =>
      set_shape o (Box (f64_mul width (GeoUnit_to_meters unit)) (f64_mul height (GeoUnit_to_meters unit)), unit)
  | GoSort s => set_sort o s
  | GoCount n any => set_count o (n, any)
  | GoWithCoord => set_geo_flags o true (gs_with_dist o) (gs_with_hash o) (gs_store_dist o)
  | GoWithDist => set_geo_flags o (gs_with_coord o) true (gs_with_hash o) (gs_store_dist o)
  | GoWithHash => set_geo_flags o (gs_with_coord o) (gs_with_dist o) true (gs_store_dist o)
  | GoStoreDist => set_geo_flags o (gs_with_coord o) (gs_with_dist o) (gs_with_hash o) true
  end.
Definition geo_options (opts : list geo_option) : GeoSearchOpts := fold_left geo_apply opts geo_opts_default.

Lemma geo_args_any (opts : list geo_option) : is_any (geo_args opts) = false.
Proof. destruct opts as [|[| | | |[]| | | | |] opts]; by vm_compute. Qed.

(** One turn of the loop, by its word. *)
Section words.
Variables (rest : list (list byte)) (is_store : bool) (o : GeoSearchOpts).
Let loop := parse_geosearch_loop.

Lemma word_member m :
  loop (bs "FROMMEMBER" :: m :: rest) is_store o =
    (let? member := arg_as_string m in loop rest is_store (set_centre o (FromMember member))).
Proof. reflexivity. Qed.
Lemma word_lonlat x y :
  loop (bs "FROMLONLAT" :: x :: y :: rest) is_store o =
    (let? lon := parse_f64 x (bs "longitude") in
     let? lat := parse_f64 y (bs "latitude") in
     let? _ := validate_lon_lat lon lat in
     loop rest is_store (set_centre o (FromLonLat lon lat))).
Proof. reflexivity. Qed.
Lemma word_radius r u :
  loop (bs "BYRADIUS" :: r :: u :: rest) is_store o =
    (let? radius := parse_f64 r (bs "radius") in
     if not_a_size radius then Err (Parse "radius must be a non-negative number")
     else
       let? unit := geo_unit_arg u in
       loop rest is_store (set_shape o (Radius (f64_mul radius (GeoUnit_to_meters unit)), unit))).
Proof. reflexivity. Qed.
Lemma word_box x y u :
  loop (bs "BYBOX" :: x :: y :: u :: rest) is_store o =
    (let? w := parse_f64 x (bs "width") in
     let? h := parse_f64 y (bs "height") in
     if not_a_size w || not_a_size h then Err (Parse "BYBOX width and height must be non-negative")
     else
       let? unit := geo_unit_arg u in
       loop rest is_store
         (set_shape o (Box (f64_mul w (GeoUnit_to_meters unit)) (f64_mul h (GeoUnit_to_meters unit)), unit))).
Proof. reflexivity. Qed.
Lemma word_count v :
  loop (bs "COUNT" :: v :: rest) is_store o =
    (let? n := parse_i64 v (bs "COUNT") in
     if n <=? 0 then Err (Parse "COUNT must be positive")
     else if is_any rest then
       match rest with
       | _ :: rest => loop rest is_store (set_count o (n, true))
       | [] => Ok o
       end
     else loop rest is_store (set_count o (n, false))).
Proof. reflexivity. Qed.
End words.

Lemma count_in_i64 n : 0 < n <= i64_max -> in_i64 n = true.
Proof. intros H. unfold in_i64, in_i, i64_max in *. apply andb_true_intro. split; [apply Z.leb_le|apply Z.ltb_lt]; lia. Qed.

Lemma parse_geo_option is_store g (opts : list geo_option) o :
  geo_option_ok is_store g ->
  parse_geosearch_loop (geo_option_args g ++ geo_args opts) is_store o =
    parse_geosearch_loop (geo_args opts) is_store (geo_apply o g).
Proof.
  intros Hg.
  destruct g as [m member|x y lon lat|r u radius unit|w h u width height unit|[]|n any| | | |]; cbn [geo_option_ok] in Hg;
    try (subst is_store); try reflexivity; cbn [geo_option_args app geo_apply].
  - rewrite word_member. by rewrite (arg_as_str_utf8 _ _ Hg : arg_as_string m = _).
  - destruct Hg as (Hx & Hy & Hv). rewrite word_lonlat, Hx. cbn [rbind]. rewrite Hy. cbn [rbind]. by rewrite Hv.
  - destruct Hg as (Hr & Hs & Hu). rewrite word_radius, Hr. cbn [rbind]. by rewrite Hs, Hu.
  - destruct Hg as (Hw & Hh & Hsw & Hsh & Hu). rewrite word_box, Hw. cbn [rbind]. rewrite Hh. cbn [rbind].
    by rewrite Hsw, Hsh, Hu.
  - rewrite word_count, parse_i64_print by by apply count_in_i64. cbn [rbind].
    replace (n <=? 0) with false by (symmetry; apply Z.leb_gt; lia).
    destruct any; cbn [app]; [reflexivity|]. by rewrite geo_args_any.
Qed.

Lemma parse_geo_args is_store opts o :
  Forall (geo_option_ok is_store) opts ->
  parse_geosearch_loop (geo_args opts) is_store o = Ok (fold_left geo_apply opts o).
Proof.
  intros H. revert o. induction H as [|g opts Hg _ IH]; intros o; [done|].
  change (geo_args (g :: opts)) with (geo_option_args g ++ geo_args opts). by rewrite parse_geo_option, IH.
Qed.

(** ** A stable sort *)

Section stable.
Context {A : Type} (P : A -> Prop) (cmp : A -> A -> comparison) (before : A -> A -> Prop).
Hypothesis cmp_antisym : forall a b, P a -> P b -> cmp b a = CompOpp (cmp a b).
Hypothesis cmp_trans : forall a b c, P a -> P b -> P c -> cmp a b <> Gt -> cmp b c <> Gt ->
  cmp a c <> Gt /\ (cmp a c = Eq -> cmp a b = Eq /\ cmp b c = Eq).

(** In the order asked for, and in the order they came where that leaves it open. *)
Definition stably (a b : A) : Prop := cmp a b = Lt \/ (cmp a b = Eq /\ before a b).

Lemma insert_by_stable x l :
  P x -> Forall P l -> Forall (before x) l -> StronglySorted stably l -> StronglySorted stably (insert_by cmp x l).
Proof.
  intros Hx HP Hb Hs. induction Hs as [|y l Hs IH Hy]; cbn [insert_by]; [repeat constructor|].
  apply Forall_cons in HP as [HPy HP]. apply Forall_cons in Hb as [Hby Hb].
  assert (Hle : cmp x y <> Gt -> StronglySorted stably (x :: y :: l)).
  { intros Hc. constructor; [by constructor|]. constructor.
    { unfold stably. destruct (cmp x y); tauto. }
    rewrite Forall_forall in *. intros z Hz. specialize (Hy z Hz).
    destruct (cmp_trans x y z) as [Hn He]; [done|done|by apply HP|done|destruct Hy as [->|[-> _]]; done|].
    unfold stably. destruct (cmp x z) eqn:E; [|tauto|done]. right. split; [done|by apply Hb]. }
  destruct (cmp x y) eqn:E; [by apply Hle|by apply Hle|].
  constructor; [by apply IH|]. rewrite insert_by_perm. constructor; [|done].
  left. by rewrite cmp_antisym, E.
Qed.

Lemma sort_by_stable l : Forall P l -> StronglySorted before l -> StronglySorted stably (sort_by cmp l).
Proof.
  intros HP Hs. induction Hs as [|x l Hs IH Hx]; [constructor|]. apply Forall_cons in HP as [HPx HP]. cbn [sort_by].
  apply insert_by_stable; [done| | |by apply IH]; by rewrite sort_by_perm.
Qed.
End stable.

Lemma sorted_flat_map {A B} (R : A -> A -> Prop) (S : B -> B -> Prop) (f : A -> list B) l :
  (forall a, StronglySorted S (f a)) -> (forall a b x y, R a b -> In x (f a) -> In y (f b) -> S x y) ->
  StronglySorted R l -> StronglySorted S (flat_map f l).
Proof.
  intros Hf HR Hs. induction Hs as [|a l Hs IH Ha]; cbn; [constructor|].
  apply StronglySorted_app. split_and!; [|by apply Hf|done].
  intros x y Hx Hy. rewrite list_elem_of_In in Hx, Hy. apply in_flat_map in Hy as (b & Hb & Hy).
  eapply HR; [|done|done]. rewrite Forall_forall in Ha. by apply Ha, list_elem_of_In.
Qed.

(** ** The search *)

Definition zset_at (w : world) (k : Str) : option zmap :=
  match live w k with
  | Some {| value := VZSet m |} => Some m
  | Some _ => None
  | None => Some []
  end.

Lemma zset_at_wf w k m : keyspace_wf w -> zset_at w k = Some m -> bt_wf m.
Proof.
  intros Hw. pose proof (keyspace_wf_live k w Hw) as Hl. unfold zset_at.
  destruct (live w k) as [[? []]|]; intros [= <-]; [by apply Hl|constructor].
Qed.

(** Where the search starts; a member that is not there has no place. *)
Definition centre_of (m : zmap) (c : GeoCentre) : option (f64 * f64) :=
  match c with
  | FromLonLat lon lat => Some (lon, lat)
  | FromMember x => option_map (fun s => decode_score (score_to_u64 s)) (bt_get m x)
  end.

Definition distance_cmp (a b : GeoMatch) : comparison :=
  rank_cmp (f64_rank (gm_distance_m a)) (f64_rank (gm_distance_m b)).
Definition name_lt (a b : GeoMatch) : Prop := klt (gm_member a) (gm_member b).

(** The order of an answer: by distance, near or far first, members at the same
    distance by name; by name alone when no order is asked for. *)
Definition answer_order (sort : option GeoSort) : GeoMatch -> GeoMatch -> Prop :=
  match sort with
  | None => name_lt
  | Some GeoAsc => stably distance_cmp name_lt
  | Some GeoDesc => stably (fun a b => distance_cmp b a) name_lt
  end.

Definition far_known (g : GeoMatch) : Prop := f64_is_nan (gm_distance_m g) = false.

Section search.
Variables sin cos : f64 -> f64.
Variable atan2 : f64 -> f64 -> f64.

Let distance (a b : f64 * f64) : f64 := haversine_meters sin cos atan2 (fst a) (snd a) (fst b) (snd b).

(** A place no farther than the radius; or, for a box, no farther than half its
    height along the meridian and half its width along the centre's parallel. *)
Definition within (shape : GeoShape) (centre place : f64 * f64) : Prop :=
  match shape with
  | Radius r => f64_gt (distance centre place) r = false
  | Box w h =>
      f64_gt (distance (f64_zero, snd centre) (f64_zero, snd place)) (f64_div h (f64_lit "2.0")) = false /\
      f64_gt (distance centre (fst place, snd centre)) (f64_div w (f64_lit "2.0")) = false
  end.

Lemma unless_some {A} (c : bool) (x y : A) : (if c then None else Some x) = Some y <-> c = false /\ y = x.
Proof. destruct c; naive_solver. Qed.

Lemma geo_distance_within shape centre place d :
  geo_distance sin cos atan2 shape centre place = Some d <-> within shape centre place /\ d = distance centre place.
Proof.
  destruct shape as [r|w h]; cbn [geo_distance within]; unfold distance; [apply unless_some|].
  unfold point_in_box. cbv zeta. cbn [fst snd]. by rewrite unless_some, orb_false_iff.
Qed.

(** A member of the sorted set, with its score, the place it encodes and its
    distance from the centre, which the shape covers. *)
Record covered (shape : GeoShape) (centre : f64 * f64) (m : zmap) (g : GeoMatch) : Prop := {
  cv_score : bt_get m (gm_member g) = Some (gm_score g);
  cv_place : decode_score (score_to_u64 (gm_score g)) = (gm_lon g, gm_lat g);
  cv_within : within shape centre (gm_lon g, gm_lat g);
  cv_distance : gm_distance_m g = distance centre (gm_lon g, gm_lat g);
}.

(** The answer of a search: all the covered members, each once, in order, or
    the first of them when a number is given. *)
Record search_answer (shape : GeoShape) (centre : f64 * f64) (m : zmap) (o : GeoSearchOpts) (all l : list GeoMatch) : Prop := {
  sa_distinct : NoDup (map gm_member all);
  sa_covered : forall g, In g all <-> covered shape centre m g;
  sa_order : gs_sort o = None \/ Forall far_known all -> StronglySorted (answer_order (gs_sort o)) all;
  sa_count : l = match gs_count o with Some (n, _) => take (Z.to_nat n) all | None => all end;
}.

Lemma in_geo_match shape c item g :
  In g (geo_match sin cos atan2 shape c item) <->
    item = (gm_member g, gm_score g) /\ decode_score (score_to_u64 (gm_score g)) = (gm_lon g, gm_lat g) /\
    within shape c (gm_lon g, gm_lat g) /\ gm_distance_m g = distance c (gm_lon g, gm_lat g).
Proof.
  rewrite <- (geo_distance_within shape c (gm_lon g, gm_lat g) (gm_distance_m g)).
  destruct item as [x s]. unfold geo_match. split.
  - destruct (geo_distance _ _ _ shape c (decode_score (score_to_u64 s))) as [d|] eqn:E; [|done].
    intros [<-|[]]. cbn [gm_member gm_score gm_lon gm_lat gm_distance_m]. by rewrite <- surjective_pairing.
  - intros ([= -> ->] & Hp & Hd). rewrite Hp, Hd. left. by destruct g.
Qed.

Lemma geo_match_short shape c item : (length (geo_match sin cos atan2 shape c item) <= 1)%nat.
Proof. destruct item. unfold geo_match. destruct (geo_distance _ _ _ _ _ _); cbn; lia. Qed.

Lemma in_hits shape c (m : zmap) g :
  bt_wf m -> In g (flat_map (geo_match sin cos atan2 shape c) m) <-> covered shape c m g.
Proof.
  intros Hm. rewrite in_flat_map. split.
  - intros (item & Hi & Hg). apply in_geo_match in Hg as (-> & Hp & Hi' & Hd). split; [by apply bt_get_In|exact Hp|exact Hi'|exact Hd].
  - intros [Hs Hp Hi Hd]. exists (gm_member g, gm_score g). split; [by apply bt_get_In|]. apply in_geo_match. auto.
Qed.

Lemma hits_by_name shape c (m : zmap) :
  bt_wf m -> StronglySorted name_lt (flat_map (geo_match sin cos atan2 shape c) m).
Proof.
  intros Hm. apply (sorted_flat_map (fun a b : zentry => klt (fst a) (fst b))).
  - intros item. pose proof (geo_match_short shape c item) as H.
    destruct (geo_match _ _ _ _ _ _) as [|? [|]]; [constructor|repeat constructor|cbn in H; lia].
  - intros a b x y Hab Hx Hy. apply in_geo_match in Hx as (-> & _). apply in_geo_match in Hy as (-> & _). exact Hab.
  - induction Hm; constructor; done.
Qed.

Lemma covered_distinct shape c (m : zmap) :
  bt_wf m -> NoDup (map gm_member (flat_map (geo_match sin cos atan2 shape c) m)).
Proof.
  intros Hm. pose proof (hits_by_name shape c m Hm) as Hs. induction Hs as [|g l Hs IH Hg]; [constructor|].
  cbn [map]. constructor; [|done]. intros (y & E & Hy)%list_elem_of_fmap.
  rewrite Forall_forall in Hg. specialize (Hg y Hy). unfold name_lt in Hg. rewrite E in Hg. by apply klt_irrefl in Hg.
Qed.

Lemma sort_by_ext (f g : GeoMatch -> GeoMatch -> comparison) (P : GeoMatch -> Prop) l :
  (forall a b, P a -> P b -> f a b = g a b) -> Forall P l -> sort_by f l = sort_by g l.
Proof.
  intros E HP. induction HP as [|x l Hx HP IH]; [done|]. cbn [sort_by]. rewrite IH.
  assert (H : Forall P (sort_by g l)) by by rewrite sort_by_perm. clear IH HP.
  induction H as [|y k Hy _ IH]; [done|]. cbn [insert_by]. by rewrite E, IH.
Qed.

Lemma geo_sort_perm sort l : geo_sort sort l ≡ₚ l.
Proof. destruct sort as [[]|]; cbn; [apply sort_by_perm|apply sort_by_perm|done]. Qed.

Lemma geo_sort_order sort l :
  sort = None \/ Forall far_known l -> StronglySorted name_lt l -> StronglySorted (answer_order sort) (geo_sort sort l).
Proof.
  intros Hn Hs. destruct sort as [s|]; [|done]. destruct Hn as [?|Hn]; [done|].
  assert (E : geo_sort (Some s) l =
    sort_by (match s with GeoAsc => distance_cmp | GeoDesc => fun a b => distance_cmp b a end) l).
  { destruct s; cbn [geo_sort]; (eapply sort_by_ext; [|exact Hn]); intros a b Ha Hb;
      unfold f64_cmp_or_eq, distance_cmp, far_known in *; by rewrite f64_cmp_rank. }
  rewrite E. destruct s; cbn [answer_order]; (apply (sort_by_stable far_known); [| |exact Hn|exact Hs]); unfold distance_cmp.
  1, 3: by intros; rewrite <- rank_cmp_antisym.
  all: intros a b c _ _ _; rank_solve.
Qed.

(** *** The run *)

Lemma search_zset shape c o (m : zmap) :
  bt_wf m -> exists all,
    search_answer shape c m o all
      (geo_truncate (gs_count o) (geo_sort (gs_sort o) (flat_map (geo_match sin cos atan2 shape c) m))).
Proof.
  intros Hm. exists (geo_sort (gs_sort o) (flat_map (geo_match sin cos atan2 shape c) m)).
  pose proof (geo_sort_perm (gs_sort o) (flat_map (geo_match sin cos atan2 shape c) m)) as Hp. split.
  - rewrite Hp. by apply covered_distinct.
  - intros g. rewrite <- list_elem_of_In, Hp, list_elem_of_In. by apply in_hits.
  - intros Hn. apply geo_sort_order; [|by apply hits_by_name]. by destruct Hn as [?|Hn]; [left|right; rewrite <- Hp].
  - by destruct (gs_count o) as [[]|].
Qed.

Lemma run_centre w key centre m :
  zset_at w key = Some m ->
  exists w', same_view w w' /\ run (resolve_centre key centre) w =
    (match centre, centre_of m centre with
     | _, Some c => Ok c
     | FromMember x, None => Err (parse_fmt (bs "could not decode requested zset member '" ++ x ++ bs "'"))
     | FromLonLat lon lat, None => Ok (lon, lat)
     end, w').
Proof.
  intros Hm. destruct centre as [x|lon lat]; cbn [resolve_centre centre_of]; [|by exists w].
  exists (gc key w). split; [apply same_view_gc|]. unfold zscore. rewrite run_bind, run_read_zset. unfold zset_at in Hm.
  destruct (live w key) as [[? [| | | |m1|]]|]; try done;
    [injection Hm as ->; cbn [run]; by destruct (bt_get m x)|by injection Hm as <-].
Qed.

(** What a search comes to. *)
Definition search_result (w : world) (key : Str) (centre : GeoCentre) (shape : GeoShape) (o : GeoSearchOpts)
    (r : Result (list GeoMatch)) : Prop :=
  match zset_at w key with
  | None => r = Err (wrong_type key)
  | Some m =>
      match centre_of m centre, centre with
      | Some c, _ => exists all l, search_answer shape c m o all l /\ r = Ok l
      | None, FromMember x => r = Err (parse_fmt (bs "could not decode requested zset member '" ++ x ++ bs "'"))
      | None, FromLonLat _ _ => False
      end
  end.

Lemma run_search w key centre shape o :
  keyspace_wf w ->
  exists r w', same_view w w' /\ run (run_geo_search sin cos atan2 key centre shape o) w = (r, w') /\
    search_result w key centre shape o r.
Proof.
  intros Hw. unfold run_geo_search, search_result, zitems. destruct (zset_at w key) as [m|] eqn:Em.
  - destruct (run_centre w key centre m Em) as (w1 & Hv & E). rewrite run_bind, E.
    assert (Em1 : zset_at w1 key = Some m) by (unfold zset_at in *; by rewrite (proj2 Hv)).
    pose proof (zset_at_wf w key m Hw Em) as Hm.
    destruct (centre_of m centre) as [c|] eqn:Ec; [|destruct centre as [x|]; [|done]; rewrite Ec; eexists _, w1; by split_and!].
    eexists _, (gc key w1). split; [etransitivity; [exact Hv|apply same_view_gc]|].
    destruct (search_zset shape c o m Hm) as [all Ha].
    split; [|eexists all, _; split; [exact Ha|reflexivity]].
    assert (Er : run (read_zset key [] (fun m : zmap => m)) w1 = (Ok m, gc key w1)).
    { rewrite run_read_zset. unfold zset_at in Em1. destruct (live w1 key) as [[? []]|]; try done; by injection Em1 as ->. }
    destruct centre; rewrite ?Ec; cbn [run]; rewrite run_bind, Er; [done|]. cbn [centre_of] in Ec. by injection Ec as <-.
  - eexists (Err (wrong_type key)). destruct centre as [x|lon lat]; cbn [resolve_centre].
    + exists (gc key w). split; [apply same_view_gc|]. split; [|done]. unfold zscore. rewrite !run_bind, run_read_zset.
      unfold zset_at in Em. by destruct (live w key) as [[? []]|].
    + exists (gc key w). split; [apply same_view_gc|]. split; [|done]. cbn [pbind]. rewrite run_bind, run_read_zset.
      unfold zset_at in Em. by destruct (live w key) as [[? []]|].
Qed.

(** *** The commands *)

Lemma parse_geo_request is_store opts centre shape unit :
  Forall (geo_option_ok is_store) opts ->
  gs_centre (geo_options opts) = Some centre -> gs_shape (geo_options opts) = Some (shape, unit) ->
  parse_geosearch_opts (geo_args opts) is_store = Ok (centre, shape, unit, geo_options opts).
Proof.
  intros Ho Hc Hs. unfold parse_geosearch_opts. rewrite parse_geo_args by done. fold (geo_options opts). cbn [rbind].
  by rewrite Hc, Hs.
Qed.

(** A request that gives a centre and a shape has at least five words. *)
Definition places (o : GeoSearchOpts) : nat :=
  (if gs_centre o is Some _ then 2 else 0) + (if gs_shape o is Some _ then 3 else 0).
Lemma geo_args_places opts o : (places (fold_left geo_apply opts o) <= places o + length (geo_args opts))%nat.
Proof.
  revert o. induction opts as [|g opts IH]; intros o; [cbn; lia|]. cbn [fold_left].
  change (geo_args (g :: opts)) with (geo_option_args g ++ geo_args opts). rewrite length_app. etransitivity; [apply IH|].
  enough (places (geo_apply o g) <= places o + length (geo_option_args g))%nat by lia.
  unfold places. destruct g; cbn; destruct (gs_centre o), (gs_shape o); cbn; lia.
Qed.

Lemma geo_args_enough opts centre shape unit :
  gs_centre (geo_options opts) = Some centre -> gs_shape (geo_options opts) = Some (shape, unit) -> 5 <= len (geo_args opts).
Proof.
  intros Hc Hs. pose proof (geo_args_places opts geo_opts_default) as H. fold (geo_options opts) in H.
  unfold places in H. rewrite Hc, Hs in H. cbn in H. unfold len. lia.
Qed.

(** C20: GEOSEARCH answers what its specification says.  The options come in any
    order and number, a later one replacing an earlier one of its kind.  From a
    member that is there, or a place, the answer is every member the shape covers,
    once, near first with ASC, far first with DESC, members at one distance and
    answers without an order by name; or the first COUNT of them.  A centre that is no
    member and a key of another kind are errors.  Nothing a reader can see changes. *)
Theorem geosearch_spec w k key opts centre shape unit :
  keyspace_wf w -> from_utf8 k = Some key -> Forall (geo_option_ok false) opts ->
  gs_centre (geo_options opts) = Some centre -> gs_shape (geo_options opts) = Some (shape, unit) ->
  exists r w', same_view w w' /\ search_result w key centre shape (geo_options opts) r /\
    run (handle_geosearch sin cos atan2 (k :: geo_args opts)) w =
      (rmap (fun l => format_geosearch_reply l (geo_options opts) unit) r, w').
Proof.
  intros Hw Hk Ho Hc Hs. pose proof (geo_args_enough opts centre shape unit Hc Hs) as Hn.
  destruct (run_search w key centre shape (geo_options opts) Hw) as (r & w' & Hv & E & Hr). exists r, w'.
  split; [done|]. split; [done|]. unfold handle_geosearch. rewrite len_cons.
  replace (len (geo_args opts) + 1 <? 6) with false by (symmetry; apply Z.ltb_ge; lia).
  rewrite (arg_as_str_utf8 _ _ Hk : arg_as_string k = _), (parse_geo_request false opts centre shape unit) by done.
  unfold answer. rewrite run_bind, E. by destruct r.
Qed.

(** The score a match is stored with. *)
Definition stored_score (o : GeoSearchOpts) (unit : GeoUnit) (g : GeoMatch) : f64 :=
  if gs_store_dist o then f64_div (gm_distance_m g) (GeoUnit_to_meters unit) else gm_score g.

Lemma answer_distinct shape c m o all l : search_answer shape c m o all l -> NoDup (map gm_member l).
Proof.
  intros [Hn _ _ ->]. destruct (gs_count o) as [[n any]|]; [|done].
  rewrite <- (take_drop (Z.to_nat n) all), map_app in Hn. by apply NoDup_app in Hn as [? _].
Qed.

(** The scores of a list of matches. *)
Definition scores_of (o : GeoSearchOpts) (unit : GeoUnit) (l : list GeoMatch) (x : Str) : option f64 :=
  stored_score o unit <$> List.find (fun g => str_eqb (gm_member g) x) l.

Lemma lists_matches o unit l :
  NoDup (map gm_member l) -> lists_scores (map (fun g => (stored_score o unit g, gm_member g)) l) (scores_of o unit l).
Proof.
  intros Hn. split; [by rewrite map_map|]. intros x s. unfold scores_of. rewrite in_map_iff. split.
  - intros (g & [= <- <-] & Hg). revert Hg. induction l as [|y l IH]; [done|]. cbn [map] in Hn. apply NoDup_cons in Hn as [Hy Hn].
    cbn [List.find]. unfold str_eqb. intros [->|Hg]; [by rewrite bool_decide_true|].
    rewrite bool_decide_false; [by apply IH|]. intros E. apply Hy. rewrite E. apply list_elem_of_In. by apply in_map.
  - intros (g & Hf & ->)%fmap_Some. apply List.find_some in Hf as [Hg E]. exists g. split; [|done].
    unfold str_eqb in E. apply bool_decide_eq_true in E. by rewrite E.
Qed.

(** C21: GEOSEARCHSTORE replaces its destination by what GEOSEARCH would find: a
    well-formed sorted set of exactly the members of the answer, each with its
    score, or with its distance in the unit of the request under STOREDIST, without
    a TTL and whatever the destination held, even when it is the source; or nothing
    when nothing is found.  It answers how many; an error leaves every key as it was,
    and no other key is ever touched. *)
Theorem geosearchstore_spec w d dest k key opts centre shape unit :
  keyspace_wf w -> from_utf8 d = Some dest -> from_utf8 k = Some key -> Forall (geo_option_ok true) opts ->
  gs_centre (geo_options opts) = Some centre -> gs_shape (geo_options opts) = Some (shape, unit) ->
  exists r w', search_result w key centre shape (geo_options opts) r /\
    run (handle_geosearchstore sin cos atan2 (d :: k :: geo_args opts)) w = (rmap (fun l => RInteger (len_i64 l)) r, w') /\
    match r with
    | Err _ => same_view w w'
    | Ok l =>
        (forall x, x <> dest -> live w' x = live w x) /\
        exists m : zmap, bt_wf m /\ (forall x, bt_get m x = scores_of (geo_options opts) unit l x) /\
          live w' dest = match l with [] => None | _ => Some (mk_entry None (VZSet m)) end
    end.
Proof.
  intros Hw Hd Hk Ho Hc Hs. pose proof (geo_args_enough opts centre shape unit Hc Hs) as Hn.
  destruct (run_search w key centre shape (geo_options opts) Hw) as (r & w1 & Hv & E & Hr). exists r.
  unfold handle_geosearchstore. rewrite !len_cons.
  replace (len (geo_args opts) + 1 + 1 <? 7) with false by (symmetry; apply Z.ltb_ge; lia).
  rewrite (arg_as_str_utf8 _ _ Hd : arg_as_string d = _), (arg_as_str_utf8 _ _ Hk : arg_as_string k = _),
    (parse_geo_request true opts centre shape unit) by done.
  rewrite run_bind, E. destruct r as [l|e]; [|by exists w1].
  destruct (run_delete dest w1) as (b & w2 & E2 & Hnone & Hkeep). rewrite run_bind, E2.
  assert (Hkeep' : forall x, x <> dest -> live w2 x = live w x) by (intros x Hx; rewrite Hkeep by done; apply Hv).
  assert (Hl : NoDup (map gm_member l)).
  { unfold search_result in Hr. destruct (zset_at w key) as [m|]; [|done]. destruct (centre_of m centre); [|by destruct centre].
    destruct Hr as (all & l' & Ha & [= ->]). by eapply answer_distinct. }
  destruct l as [|g l].
  - exists w2. split_and!; [done..|]. exists []. split_and!; [constructor|done|done].
  - set (pairs := map (fun g => (stored_score (geo_options opts) unit g, gm_member g)) (g :: l)).
    destruct (run_zadd_fresh dest pairs (scores_of (geo_options opts) unit (g :: l)) w2) as (m & w3 & Ez & Hm & Hget & Hne & Hd3 & Hk3);
      [done|done|by apply lists_matches|].
    exists w3. split; [done|]. split.
    + unfold answer. rewrite run_bind. fold (stored_score (geo_options opts) unit). unfold pairs in Ez.
      unfold stored_score in Ez. by rewrite Ez.
    + split; [intros x Hx; by rewrite Hk3, Hkeep'|]. by exists m.
Qed.
End search.

(** ** Concrete requests

    Two members of a sorted set, and elementary functions to first order. *)

Definition geo_world : world :=
  put (bs "sicily") (mk_entry None (VZSet [(bs "Catania", f64_lit "3479447370796909"); (bs "Palermo", f64_lit "3479099956230698")]))
    empty_world.

Lemma geo_world_wf : keyspace_wf geo_world.
Proof. apply keyspace_wf_put; [split; [repeat constructor|done]|]. by apply map_Forall_empty. Qed.

Definition flat_sin (x : f64) : f64 := x.
Definition flat_cos (_ : f64) : f64 := f64_one.
Definition flat_atan2 (y _ : f64) : f64 := y.

Definition near_palermo : list geo_option :=
  [GoMember (bs "Palermo") (bs "Palermo"); GoSort GeoAsc; GoRadius (bs "300") (bs "km") (f64_lit "300") Kilometers].

Lemma near_palermo_ok is_store : Forall (geo_option_ok is_store) near_palermo.
Proof. repeat constructor. Qed.

(** GEOSEARCH sicily FROMMEMBER Palermo ASC BYRADIUS 300 km: both, Palermo first. *)
Lemma geosearch_spec_witness :
  exists all l w', search_answer flat_sin flat_cos flat_atan2 (Radius (f64_lit "300000"))
      (decode_score 3479099956230698) [(bs "Catania", f64_lit "3479447370796909"); (bs "Palermo", f64_lit "3479099956230698")]
      (geo_options near_palermo) all l /\
    same_view geo_world w' /\
    run (handle_geosearch flat_sin flat_cos flat_atan2 (bs "sicily" :: geo_args near_palermo)) geo_world =
      (Ok (bulk_array [bs "Palermo"; bs "Catania"]), w').
Proof.
  destruct (geosearch_spec flat_sin flat_cos flat_atan2 geo_world (bs "sicily") (bs "sicily") near_palermo
    (FromMember (bs "Palermo")) (Radius (f64_lit "300000")) Kilometers geo_world_wf eq_refl (near_palermo_ok false)) as (r & w' & Hv & Hr & E);
    [by vm_compute|by vm_compute|].
  destruct Hr as (all & l & Ha & ->). exists all, l, w'. split; [exact Ha|]. split; [exact Hv|].
  rewrite E. f_equal. etransitivity; [symmetry; exact (f_equal fst E)|]. by vm_compute.
Defined.

(** GEOSEARCHSTORE sicily sicily FROMMEMBER Palermo ASC BYRADIUS 300 km STOREDIST, onto the source itself. *)
Lemma geosearchstore_spec_witness :
  exists l w', run (handle_geosearchstore flat_sin flat_cos flat_atan2 (bs "sicily" :: bs "sicily" :: geo_args (near_palermo ++ [GoStoreDist])))
      geo_world = (Ok (RInteger (len_i64 l)), w') /\
    exists m, bt_wf m /\ live w' (bs "sicily") = (match l with [] => None | _ => Some (mk_entry None (VZSet m)) end) /\
      forall x, bt_get m x = scores_of (geo_options (near_palermo ++ [GoStoreDist])) Kilometers l x.
Proof.
  destruct (geosearchstore_spec flat_sin flat_cos flat_atan2 geo_world (bs "sicily") (bs "sicily") (bs "sicily") (bs "sicily")
    (near_palermo ++ [GoStoreDist]) (FromMember (bs "Palermo")) (Radius (f64_lit "300000")) Kilometers geo_world_wf eq_refl eq_refl)
    as (r & w' & Hr & E & Hl); [apply Forall_app; split; [apply near_palermo_ok|by repeat constructor]|by vm_compute|by vm_compute|].
  destruct Hr as (all & l & Ha & ->). exists l, w'. split; [exact E|]. destruct Hl as (_ & m & Hm & Hg & Hd). exists m.
  split; [exact Hm|split; [exact Hd|exact Hg]].
Defined.
