(* ===== verification/Metrics.v ===== *)
(** * Metrics

    src/metrics.rs, and the log line and the metrics line that [dispatch] of
    src/commands.rs writes for every command: CloudWatch's embedded metric format
    (EMF), the JSON document from which CloudWatch extracts metrics. *)

From S2P Require Import Prelude.
From S2P Require Import Text.
From S2P Require Import BTree.
From S2P Require Import F64.
From S2P Require Import Stream.
From S2P Require Import Value.
From S2P Require Import Backend.
From S2P Require Import Resp.
From S2P Require Import Commands.
From S2P Require Import Dispatch.
From S2P Require Import Requests.
From S2P Require Import Frontend.

(** ** JSON

    The part of [serde_json::Value] that [json!] builds here.  An object is a
    [BTreeMap]. *)

#[warnings="-register-all"]
Inductive Json :=
| JNumber (n : Z)
| JString (s : Str)
| JArray (items : list Json)
| JObject (fields : btree Str Json).

(** [json!({ ... })] *)
Definition json_object (fields : list (Str * Json)) : Json :=
  JObject (bt_collect fields).

(** [v[key]] of an object. *)
Definition json_get (v : Json) (key : Str) : option Json :=
  match v with JObject fields => bt_get fields key | _ => None end.

(** ** The document *)

Definition build_emf (namespace command outcome : Str) (duration_ms timestamp_ms : Z) : Json :=
  json_object [
    (bs "_aws", json_object [
      (bs "Timestamp", JNumber timestamp_ms);
      (bs "CloudWatchMetrics", JArray [json_object [
        (bs "Namespace", JString namespace);
        (bs "Dimensions", JArray [JArray [JString (bs "Command"); JString (bs "Outcome")]]);
        (bs "Metrics", JArray [
          json_object [(bs "Name", JString (bs "DispatchCount")); (bs "Unit", JString (bs "Count"))];
          json_object [(bs "Name", JString (bs "DispatchLatency")); (bs "Unit", JString (bs "Milliseconds"))]
        ])
      ]])
    ]);
    (bs "Command", JString command);
    (bs "Outcome", JString outcome);
    (bs "DispatchCount", JNumber 1);
    (bs "DispatchLatency", JNumber duration_ms)
  ].

(** The document [emit_command_metrics] prints. *)
Definition emit_command_metrics (namespace command outcome : Str) (duration_ms : Z) : prog kvE Json :=
  let! now := trigger KvNowMs in
  Ret (build_emf namespace command outcome duration_ms now).

(** ** [dispatch] with what it writes *)

(** The fields of the structured log line. *)
Record LogLine := { log_command : Str; log_argc : Z; log_outcome : Str; log_duration_ms : Z }.

(** The name a command is logged under. *)
Definition command_name (command_tokens : list (list byte)) : Str :=
  match command_tokens with
  | b :: _ => match from_utf8 b with Some s => to_ascii_uppercase s | None => bs "?" end
  | [] => bs "?"
  end.

Section dispatch.
Variable env : Env.
(** [settings.emf_namespace], and the milliseconds the command took. *)
Variable emf_namespace : option Str.
Variable elapsed_ms : Z.

(** [None]: the handler panicked, and nothing is written. *)
Definition dispatch_logged (command_tokens : list (list byte)) : prog kvE (option (RespReply * LogLine * list Json)) :=
  let cmd_name := command_name command_tokens in
  let! result := run env command_tokens in
  match result with
  | None => Ret None
  | Some result =>
      let outcome := classify result in
      let duration_ms := Z.min elapsed_ms u64_max in
      let line := {| log_command := cmd_name; log_argc := len command_tokens;
                     log_outcome := Outcome_as_str outcome; log_duration_ms := duration_ms |} in
      let! metrics := (match emf_namespace with
                       | Some ns =>
                           let! m := emit_command_metrics ns cmd_name (Outcome_as_str outcome) duration_ms in Ret [m]
                       | None => Ret []
                       end) in
      Ret (Some (reply_of result, line, metrics))
  end.
End dispatch.

(** ** What CloudWatch makes of a document

    The specification of the embedded metric format, as a function: each directive
    of [_aws.CloudWatchMetrics] names a namespace, sets of dimensions and metrics;
    a dimension or a metric names the member of the root that is its value. *)

Definition as_string (v : Json) : option Str := match v with JString s => Some s | _ => None end.
Definition as_number (v : Json) : option Z := match v with JNumber n => Some n | _ => None end.
Definition as_array (v : Json) : option (list Json) := match v with JArray l => Some l | _ => None end.

Definition field_string (v : Json) (key : Str) : option Str := json_get v key ≫= as_string.
Definition field_number (v : Json) (key : Str) : option Z := json_get v key ≫= as_number.
Definition field_array (v : Json) (key : Str) : option (list Json) := json_get v key ≫= as_array.

(** A data point of a metric. *)
Record datum := {
  d_namespace : Str;
  d_dimensions : list (Str * Str);
  d_metric : Str;
  d_unit : Str;
  d_value : Z;
  d_timestamp : Z;
}.

Definition EMF_UNITS : list Str := [bs "Seconds"; bs "Milliseconds"; bs "Microseconds"; bs "Count"; bs "Bytes"; bs "None"].
Definition bounded_text (s : Str) : option Str := if (1 <=? len s) && (len s <=? 1024) then Some s else None.

Definition emf_dimension (root name : Json) : option (Str * Str) :=
  n ← as_string name; v ← field_string root n; t ← bounded_text v; Some (n, t).
Definition emf_metric (root def : Json) : option (Str * Str * Z) :=
  n ← field_string def (bs "Name");
  u ← field_string def (bs "Unit");
  v ← field_number root n;
  if existsb (str_eqb u) EMF_UNITS then Some (n, u, v) else None.

Definition emf_directive (root : Json) (timestamp : Z) (d : Json) : option (list datum) :=
  namespace ← field_string d (bs "Namespace");
  ns ← bounded_text namespace;
  sets ← field_array d (bs "Dimensions");
  dims ← mapM (fun set => names ← as_array set; mapM (emf_dimension root) names) sets;
  metrics ← field_array d (bs "Metrics");
  defs ← mapM (emf_metric root) metrics;
  Some (flat_map (fun ds => map (fun '(n, u, v) =>
    {| d_namespace := ns; d_dimensions := ds; d_metric := n; d_unit := u; d_value := v; d_timestamp := timestamp |}) defs) dims).

Definition extract_metrics (root : Json) : option (list datum) :=
  aws ← json_get root (bs "_aws");
  timestamp ← field_number aws (bs "Timestamp");
  directives ← field_array aws (bs "CloudWatchMetrics");
  l ← mapM (emf_directive root timestamp) directives;
  Some (concat l).

(** The metrics of one command. *)
Definition command_metrics (namespace command outcome : Str) (duration_ms timestamp_ms : Z) : list datum :=
  let point metric unit value :=
    {| d_namespace := namespace; d_dimensions := [(bs "Command", command); (bs "Outcome", outcome)];
       d_metric := metric; d_unit := unit; d_value := value; d_timestamp := timestamp_ms |} in
  [point (bs "DispatchCount") (bs "Count") 1; point (bs "DispatchLatency") (bs "Milliseconds") duration_ms].

Lemma build_emf_extract ns command outcome d t :
  extract_metrics (build_emf ns command outcome d t) =
    (ns ← bounded_text ns; c ← bounded_text command; o ← bounded_text outcome; Some (command_metrics ns c o d t)).
Proof.
  unfold extract_metrics, emf_directive, emf_dimension. generalize bounded_text. intros bounded. vm_compute.
  by destruct (bounded ns), (bounded command), (bounded outcome).
Qed.

(** ** Outcomes *)

Lemma Outcome_as_str_inj o1 o2 : Outcome_as_str o1 = Outcome_as_str o2 -> o1 = o2.
Proof. destruct o1, o2; vm_compute; congruence. Qed.

Lemma outcome_bounded o : bounded_text (Outcome_as_str o) = Some (Outcome_as_str o).
Proof. by destruct o. Qed.

Lemma outcome_ok result : Outcome_as_str (classify result) = bs "ok" <-> is_ok result = true.
Proof. destruct result as [r|e]; [done|]. split; [|done]. by destruct e. Qed.

(** The class of an error can be read off its text. *)
Lemma display_error_class e1 e2 : display_error e1 = display_error e2 -> classify (Err e1) = classify (Err e2).
Proof. destruct e1, e2; cbn; congruence. Qed.

Lemma reply_err_inj (s t : Str) : reply_err s = reply_err t -> s = t.
Proof. by intros [= ->]. Qed.

Lemma reply_of_class e1 e2 : reply_of (Err e1) = reply_of (Err e2) -> classify (Err e1) = classify (Err e2).
Proof. intros H. apply display_error_class. cbn [reply_of] in H. apply reply_err_inj in H. by simplify_list_eq. Qed.

(** ** Commands and their names *)

Lemma command_table_bounded env :
  forallb (fun row => if bounded_text (fst row) is Some _ then true else false) (command_table env) = true.
Proof. reflexivity. Qed.

Lemma known_bounded env cmd f : find_command env cmd = Some f -> bounded_text cmd = Some cmd.
Proof.
  intros H%find_command_in. pose proof (proj1 (forallb_forall _ _) (command_table_bounded env) _ H) as Hb. cbn [fst] in Hb.
  unfold bounded_text in *. by destruct (_ && _).
Qed.

Lemma bounded_text_spec s t : bounded_text s = Some t <-> t = s /\ 1 <= len s <= 1024.
Proof.
  unfold bounded_text. destruct (Z.leb_spec 1 (len s)), (Z.leb_spec (len s) 1024); cbn [andb]; (split; [intros [= <-]|intros (-> & ? & ?)]); first [done|lia].
Qed.

(** What one document is worth. *)
Lemma emf_points env ns cmd o d t :
  bounded_text ns = Some ns ->
  let m := build_emf ns cmd (Outcome_as_str o) d t in
  (forall points, extract_metrics m = Some points -> points = command_metrics ns cmd (Outcome_as_str o) d t) /\
  (extract_metrics m <> None <-> 1 <= len cmd <= 1024) /\
  (find_command env cmd <> None -> extract_metrics m <> None).
Proof.
  intros Hns m. unfold m. rewrite build_emf_extract, Hns, outcome_bounded. cbn [mbind option_bind].
  destruct (bounded_text cmd) as [c|] eqn:Ec; cbn [mbind option_bind].
  - apply bounded_text_spec in Ec as [-> Hc]. split; [by intros ? [= <-]|]. done.
  - split; [done|]. split.
    + split; [done|]. intros Hc _. assert (H : bounded_text cmd = Some cmd) by by apply bounded_text_spec. congruence.
    + intros Hf. destruct (find_command env cmd) as [f|] eqn:E; [|done]. apply known_bounded in E. congruence.
Qed.

Section spec.
Variable env : Env.
Variable emf_namespace : option Str.
Variable elapsed_ms : Z.
Let logged := dispatch_logged env emf_namespace elapsed_ms.

(** Logging and metrics change neither the reply nor the store. *)
Lemma dispatch_logged_reply tokens w :
  Backend.run (dispatch env tokens) w =
    (let '(r, w') := Backend.run (logged tokens) w in (option_map (fun x => fst (fst x)) r, w')).
Proof.
  unfold dispatch, logged, dispatch_logged. rewrite !run_bind. destruct (Backend.run (Dispatch.run env tokens) w) as [[result|] w']; [|done].
  rewrite run_bind. by destruct emf_namespace.
Qed.

(** C25: what a command writes besides its reply.  Every command that is
    answered writes one log line, with its name, its number of words, how long it
    took, and an outcome that is ok exactly for the commands that succeeded and that
    tells apart the errors that have different texts; with a metrics namespace it writes one
    document too, from which CloudWatch extracts one count and one latency under
    the command's name and that outcome - for every command that exists, whatever
    its case, and for any other whose name is a possible dimension.  A command
    whose handler panics writes neither.  The reply and the store are those of the
    command alone. *)
Theorem dispatch_logged_spec tokens w :
  (forall ns, emf_namespace = Some ns -> 1 <= len ns <= 1024) ->
  let '(result, w') := Backend.run (Dispatch.run env tokens) w in
  Backend.run (dispatch env tokens) w = (option_map reply_of result, w') /\
  match result with
  | None => Backend.run (logged tokens) w = (None, w')
  | Some result => exists line metrics,
      Backend.run (logged tokens) w = (Some (reply_of result, line, metrics), w') /\
      line = {| log_command := command_name tokens; log_argc := len tokens;
                log_outcome := log_outcome line; log_duration_ms := Z.min elapsed_ms u64_max |} /\
      (log_outcome line = bs "ok" <-> is_ok result = true) /\
      (forall e e', result = Err e -> reply_of (Err e') = reply_of result -> log_outcome line = Outcome_as_str (classify (Err e'))) /\
      match emf_namespace with
      | None => metrics = []
      | Some ns => exists m, metrics = [m] /\
          (forall points, extract_metrics m = Some points ->
             points = command_metrics ns (command_name tokens) (log_outcome line) (Z.min elapsed_ms u64_max) (clock_ms w')) /\
          (extract_metrics m <> None <-> 1 <= len (command_name tokens) <= 1024) /\
          (find_command env (command_name tokens) <> None -> extract_metrics m <> None)
      end
  end.
Proof.
  intros Hns. destruct (Backend.run (Dispatch.run env tokens) w) as [result w'] eqn:E. split.
  { unfold dispatch. by rewrite run_bind, E. }
  unfold logged, dispatch_logged. rewrite run_bind, E. destruct result as [result|]; [|done]. rewrite run_bind.
  assert (Hclass : forall e e', result = Err e -> reply_of (Err e') = reply_of result ->
    Outcome_as_str (classify result) = Outcome_as_str (classify (Err e'))).
  { intros e e' -> He. f_equal. by apply reply_of_class. }
  destruct emf_namespace as [ns|]; eexists _, _; (split; [reflexivity|]); (split; [reflexivity|]); cbn [log_outcome];
    (split; [apply outcome_ok|]); (split; [exact Hclass|]); [|reflexivity].
  eexists. split; [reflexivity|]. apply emf_points. apply bounded_text_spec. split; [done|by apply Hns].
Qed.
End spec.

(** A namespace that comes from the environment is not empty. *)
Lemma settings_namespace var s ns :
  Settings_from_env var = Ok s -> Frontend.emf_namespace s = Some ns -> 1 <= len ns.
Proof.
  unfold Settings_from_env. destruct (match var (bs "RUSTYANT_BACKEND") with None => _ | Some s => _ end) as [b|]; [|done]. cbn [rbind].
  destruct (match b with BK_S3 => _ | BK_Dynamodb => _ end) as [bucket|]; [|done]. cbn [rbind]. intros [= <-]. cbn [Frontend.emf_namespace].
  destruct (var (bs "RUSTYANT_EMF_NAMESPACE")) as [[|x l]|]; intros H; [done| |done]. injection H as <-. rewrite len_cons. pose proof (len_nonneg l). lia.
Qed.

(** The value of the Command dimension is whatever the client sent: each word
    that is no command opens a metric of its own. *)
Lemma metric_of_any_word env ns elapsed name w :
  from_utf8 name = Some name -> to_ascii_uppercase name = name -> find_command env name = None ->
  1 <= len name <= 1024 -> 1 <= len ns <= 1024 ->
  exists reply line m, Backend.run (dispatch_logged env (Some ns) elapsed [name]) w = (Some (reply, line, [m]), w) /\
    extract_metrics m = Some (command_metrics ns name (bs "unknown_command") (Z.min elapsed u64_max) (clock_ms w)).
Proof.
  intros Hn Hu Hf Hl Hns. unfold dispatch_logged, command_name, Dispatch.run. rewrite Hn, Hu, Hf.
  eexists _, _, _. split; [reflexivity|].
  rewrite build_emf_extract, (proj2 (bounded_text_spec ns ns) (conj eq_refl Hns)). cbn [mbind option_bind].
  by rewrite (proj2 (bounded_text_spec name name) (conj eq_refl Hl)).
Qed.

(** GET with its word missing, as CloudWatch sees it. *)
Lemma dispatch_logged_spec_witness :
  exists reply line m, Backend.run (dispatch_logged sample_env (Some (bs "rustyant")) 12 [bs "get"]) empty_world =
      (Some (reply, line, [m]), empty_world) /\
    (forall points, extract_metrics m = Some points ->
      points = command_metrics (bs "rustyant") (bs "GET") (bs "wrong_arity") 12 (clock_ms empty_world)) /\
    extract_metrics m <> None.
Proof.
  assert (E : Backend.run (Dispatch.run sample_env [bs "get"]) empty_world = (Some (Err (WrongArity "GET")), empty_world)) by by vm_compute.
  pose proof (dispatch_logged_spec sample_env (Some (bs "rustyant")) 12 [bs "get"] empty_world) as H. rewrite E in H.
  destruct H as (_ & line & metrics & Er & _ & _ & Ho & m & -> & Hp & Hl & _).
  { by intros ns [= <-]. }
  specialize (Ho _ (WrongArity "GET") eq_refl eq_refl). rewrite Ho in Hp.
  exists (reply_of (Err (WrongArity "GET"))), line, m. split; [exact Er|]. split; [exact Hp|]. by apply Hl.
Defined.
