(* ===== verification/Lambda.v ===== *)
(** * Lambda

    The two Lambda functions as they are deployed: the state they build from
    their environment (src/state.rs), the WebSocket function's answer to an event
    (src/bin/ws.rs), and both functions serving one backend, the one the
    environment names. *)

From S2P Require Import Prelude.
From S2P Require Import Text.
From S2P Require Import BTree.
From S2P Require Import Stream.
From S2P Require Import Value.
From S2P Require Import Backend.
From S2P Require Import S3.
From S2P Require Import Dynamo.
From S2P Require Import Resp.
From S2P Require Import Commands.
From S2P Require Import Dispatch.
From S2P Require Import Obeys.
From S2P Require Import Requests.
From S2P Require Import Frontend.
From S2P Require Import EndToEnd.
From S2P Require Import Implementations.

(** ** The state of a container *)

(** What [from_env] builds a client and a backend from: the SDK's own
    configuration aside, the endpoint that replaces the service's. *)
Inductive Storage :=
| OverS3 (backend : S3Storage) (endpoint_url : option Str) (force_path_style : bool)
| OverDynamo (tables : TableNames) (endpoint_url : option Str).

Record State := {
  settings : Settings;
  storage : Storage;
  state_started_at_ms : Z;
}.

(** [now] is the clock when the state is built. *)
Definition State_from_env (var : Str -> option Str) (now : Z) : Result State :=
  let? settings := Settings_from_env var in
  let storage :=
    match Frontend.backend settings with
    | BK_S3 =>
        OverS3 {| S3.bucket := Frontend.bucket settings; prefix := key_prefix settings |}
          (aws_endpoint_url settings) (if aws_endpoint_url settings is Some _ then true else false)
    | BK_Dynamodb => OverDynamo (with_prefix (dynamodb_table_prefix settings)) (aws_endpoint_url settings)
    end in
  Ok {| settings := settings; storage := storage; state_started_at_ms := now |}.

Definition State_with_storage (settings : Settings) (storage : Storage) (now : Z) : State :=
  {| settings := settings; storage := storage; state_started_at_ms := now |}.

(** ** Events *)

(** The event of the WebSocket function, with the rest of its context. *)
Record WsEvent := { ws_request : WsRequest; domain_name : option Str; stage : option Str }.

(** A call of [post_to_connection]. *)
Record Post := { post_endpoint : Str; post_connection_id : Str; post_data : list byte }.

Definition endpoint_of (domain stage : Str) : Str := bs "https://" ++ domain ++ bs "/" ++ stage.

Section functions.
Variable extend_encode : BytesFrame -> list byte + string.
Variable decode : list byte -> option BytesFrame + string.
Variable base64_decode : Str -> list byte + Str.
(** Whether API Gateway takes a post. *)
Variable post_ok : Post -> bool.
Variable env : Env.

(** The status of the Lambda's response and the posts it made.  [None]: the
    handler panicked. *)
Definition handle_event (event : WsEvent) : prog kvE (option (Z * list Post)) :=
  let! outcome := ws_handle extend_encode decode env base64_decode (ws_request event) in
  Ret (match outcome with
       | None => None
       | Some (inr _) => Some (500, [])
       | Some (inl WsEmpty) => Some (200, [])
       | Some (inl (WsReply connection_id data)) =>
           match domain_name event, stage event with
           | None, _ | _, None => Some (500, [])
           | Some domain, Some stage =>
               let post := {| post_endpoint := endpoint_of domain stage; post_connection_id := connection_id; post_data := data |} in
               Some (if post_ok post then 200 else 500, [post])
           end
       end).

(** The HTTP function and the WebSocket function, on the same backend. *)
Inductive Event := EHttp (body : Body) | EWs (event : WsEvent).
Inductive Answer := AHttp (response : option (transport Response)) | AWs (outcome : option (Z * list Post)).

Definition lambda (event : Event) : prog kvE Answer :=
  match event with
  | EHttp body => let! r := Frontend.handle extend_encode decode env body in Ret (AHttp r)
  | EWs event => let! r := handle_event event in Ret (AWs r)
  end.

Fixpoint lambdas (events : list Event) : prog kvE (list Answer) :=
  match events with
  | [] => Ret []
  | event :: rest =>
      let! answer := lambda event in
      let! answers := lambdas rest in
      Ret (answer :: answers)
  end.

(** ** What an event asks for *)

(** The words of the command in a body; [None] for a body without one. *)
Definition body_words (bytes : list byte) : option (list (list byte)) :=
  match parse_command decode bytes with Ok argv => Some argv | Err _ => None end.

Definition event_words (event : Event) : option (list (list byte)) :=
  match event with
  | EHttp body => body_words (body_bytes body)
  | EWs event =>
      let request := ws_request event in
      if is_control_route (route_key request) then None
      else match connection_id request, decode_body base64_decode (body request) (is_base64_encoded request) with
           | Some _, inl bytes => body_words bytes
           | _, _ => None
           end
  end.

(** A command of those the two backends are compared on. *)
Definition specified_event (event : Event) : bool :=
  match event_words event with Some argv => specified argv | None => true end.
End functions.

(** ** The backend of an environment *)

Definition lookup_or (var : Str -> option Str) (name fallback : Str) : Str := default fallback (var name).

(** The backend that an environment names: S3 unless it says otherwise, on the
    bucket it must then name. *)
Definition named_backend (var : Str -> option Str) (storage : Storage) : Prop :=
  match storage with
  | OverS3 self endpoint path_style =>
      (var (bs "RUSTYANT_BACKEND") = None \/
       exists b, var (bs "RUSTYANT_BACKEND") = Some b /\ to_ascii_lowercase b = bs "s3") /\
      var (bs "BUCKET") = Some (S3.bucket self) /\ prefix self = lookup_or var (bs "KEY_PREFIX") (bs "rustyant/") /\
      endpoint = var (bs "AWS_ENDPOINT_URL") /\ path_style = bool_decide (is_Some endpoint)
  | OverDynamo tables endpoint =>
      (exists b, var (bs "RUSTYANT_BACKEND") = Some b /\ (to_ascii_lowercase b = bs "dynamodb" \/ to_ascii_lowercase b = bs "dynamo")) /\
      tables = with_prefix (lookup_or var (bs "RUSTYANT_DYNAMODB_TABLE_PREFIX") (bs "rustyant-")) /\
      endpoint = var (bs "AWS_ENDPOINT_URL")
  end.

Lemma state_names_backend var now st : State_from_env var now = Ok st -> named_backend var (storage st).
Proof.
  unfold State_from_env, Settings_from_env. destruct (var (bs "RUSTYANT_BACKEND")) as [b|] eqn:Eb.
  - unfold BackendKind_parse, str_eqb. cbv zeta.
    destruct (bool_decide_reflect (to_ascii_lowercase b = bs "s3")) as [E|_]; cbn [rbind].
    + destruct (var (bs "BUCKET")) as [bk|] eqn:Ek; [|done]. intros H. injection H as <-. cbn [Frontend.backend storage named_backend].
      split_and!; try done; [right; by exists b|by destruct (var (bs "AWS_ENDPOINT_URL"))].
    + destruct (bool_decide_reflect (to_ascii_lowercase b = bs "dynamodb")) as [E|_]; cbn [orb rbind].
      * intros H. injection H as <-. cbn [Frontend.backend storage named_backend]. split_and!; try done. exists b. auto.
      * destruct (bool_decide_reflect (to_ascii_lowercase b = bs "dynamo")) as [E|_]; cbn [orb rbind]; [|done].
        intros H. injection H as <-. cbn [Frontend.backend storage named_backend]. split_and!; try done. exists b. auto.
  - cbn [rbind]. destruct (var (bs "BUCKET")) as [bk|] eqn:Ek; [|done]. intros H. injection H as <-.
    cbn [Frontend.backend storage named_backend]. split_and!; try done; [by left|by destruct (var (bs "AWS_ENDPOINT_URL"))].
Qed.

(** ** Events over any backend that keeps its promises *)

Section events.
Context {St : Type} `{I : Implementation St}.
Variable extend_encode : BytesFrame -> list byte + string.
Variable decode : list byte -> option BytesFrame + string.
Variable base64_decode : Str -> list byte + Str.
Variable post_ok : Post -> bool.
Variable env : Env.

Lemma http_alike body :
  specified_event decode base64_decode (EHttp body) = true ->
  safe as_reference (Frontend.handle extend_encode decode env body).
Proof.
  unfold specified_event, event_words, body_words, Frontend.handle. destruct (parse_command decode (body_bytes body)) as [[|c args]|e];
    intros Hs; try apply safe_ret.
  apply safe_bind; [by apply dispatch_alike|intros r; apply safe_ret].
Qed.

Lemma ws_alike event :
  specified_event decode base64_decode (EWs event) = true ->
  safe as_reference (handle_event extend_encode decode base64_decode post_ok env event).
Proof.
  unfold specified_event, event_words, body_words, handle_event, ws_handle. intros Hs.
  apply safe_bind; [|intros r; apply safe_ret]. destruct (is_control_route _); [apply safe_ret|].
  destruct (connection_id (ws_request event)) as [conn|]; [|apply safe_ret].
  destruct (decode_body _ _ _) as [bytes|e]; [|apply safe_ret].
  destruct (parse_command decode bytes) as [argv|e]; [|apply safe_ret].
  apply safe_bind; [by apply dispatch_alike|intros r; apply safe_ret].
Qed.

Lemma lambdas_alike events :
  forallb (specified_event decode base64_decode) events = true ->
  safe as_reference (lambdas extend_encode decode base64_decode post_ok env events).
Proof.
  induction events as [|event rest IH]; [intros _; apply safe_ret|]. cbn [forallb lambdas]. intros [He Hr]%andb_prop.
  apply safe_bind; [|intros a; apply safe_bind; [by apply IH|intros l; apply safe_ret]].
  destruct event; cbn [lambda]; (apply safe_bind; [|intros r; apply safe_ret]); [by apply http_alike|by apply ws_alike].
Qed.
End events.

(** ** The deployed functions *)


(** ** The WebSocket function *)

Section ws.
Variable extend_encode : BytesFrame -> list byte + string.
Variable decode : list byte -> option BytesFrame + string.
Variable base64_decode : Str -> list byte + Str.
Variable post_ok : Post -> bool.
Variable env : Env.

(** A message is executed and its reply posted once, to the connection it came
    from, with the bytes HTTP would answer; the status says whether the post was
    taken.  Where the context has no domain or no stage, the command has run, and its
    reply is lost. *)
Lemma handle_event_message conn body argv domain_name stage reply data w w' :
  parse_command decode body = Ok argv -> Backend.run (dispatch env argv) w = (Some reply, w') ->
  encode extend_encode reply = Ok data ->
  Backend.run (handle_event extend_encode decode base64_decode post_ok env
    {| ws_request := message conn body; domain_name := domain_name; stage := stage |}) w =
    (Some match domain_name, stage with
          | Some d, Some st =>
              let post := {| post_endpoint := endpoint_of d st; post_connection_id := conn; post_data := data |} in
              (if post_ok post then 200 else 500, [post])
          | _, _ => (500, [])
          end, w').
Proof.
  intros Hp Hr He. unfold handle_event, ws_handle, message, decode_body.
  cbn [ws_request route_key Frontend.connection_id Frontend.body is_base64_encoded default from_option]. unfold id.
  change (is_control_route (Some (bs "$default"))) with false. cbv iota. rewrite Hp, !run_bind, Hr.
  cbn [Backend.run option_map]. unfold ws_reply, encode_reply. rewrite He. by destruct domain_name, stage.
Qed.

(** Connecting and disconnecting are answered without a call. *)
Lemma handle_event_control event w :
  is_control_route (route_key (ws_request event)) = true ->
  Backend.run (handle_event extend_encode decode base64_decode post_ok env event) w = (Some (200, []), w).
Proof. intros H. unfold handle_event, ws_handle. by rewrite H. Qed.
End ws.

(** ** A concrete deployment *)

Definition s3_environment (name : Str) : option Str :=
  if str_eqb name (bs "BUCKET") then Some (bs "b") else if str_eqb name (bs "KEY_PREFIX") then Some (bs "p/") else None.

Definition new_decode (body : list byte) : option BytesFrame + string :=
  if str_eqb body (bs "set") then inl (Some (FArray (map FBulkString [bs "SET"; bs "k"; bs "new"])))
  else if str_eqb body (bs "get") then inl (Some (FArray (map FBulkString [bs "GET"; bs "k"])))
  else inl None.

(** SET over HTTP, GET over WebSocket, on S3. *)
Definition two_events : list Event := [
  EHttp (BodyText (bs "set"));
  EWs {| ws_request := message (bs "conn") (bs "get"); domain_name := Some (bs "d"); stage := Some (bs "prod") |}
].

