(* ===== verification/S3Race.v ===== *)
(** * S3Race

    CAS calls racing on one bucket, interleaved at the granularity of SDK calls.
    A load is two calls there, reading the object and reading the clock, and a
    version is an [ETag], which comes back when old contents come back; the calls
    are linearizable all the same, on keys without a TTL (with a TTL they are not:
    [S3.s3_gc_loses_write]) - up to the calls that find the object they read gone,
    which is what a conditional call on a missing object leaves open. *)

From S2P Require Import Prelude.
From S2P Require Import Text.
From S2P Require Import BTree.
From S2P Require Import Pages.
From S2P Require Import F64.
From S2P Require Import Stream.
From S2P Require Import Value.
From S2P Require Import Backend.
From S2P Require Import Linearizability.
From S2P Require Import Contracts.
From S2P Require Import Collections.
From S2P Require Import Lists.
From S2P Require Import S3.

(** One SDK call of one client. *)
Definition s3_step {St} `{S3Service St} {R} (p : prog s3E R) (s : St) : option (prog s3E R * St) :=
  match p with
  | Ret _ => None
  | Vis e k => let '(a, s') := s3_handle _ e s in Some (k a, s')
  end.

Definition no_ttl (e : option StoredValue) : Prop := match e with Some e => expires_at_ms e = None | None => True end.

Lemma no_ttl_not_expired e now : expires_at_ms e = None -> is_expired now e = false.
Proof. unfold is_expired. by intros ->. Qed.

Section race.
Context {St : Type} `{Svc : S3Service St} {R : Type}.
Variable from_slice : list byte -> Result StoredValue.
Variable to_vec : StoredValue -> Result (list byte).
Variable self : S3Storage.
Variable flush : prog s3E (Result unit).

(** The [ETag] of an object is a digest of its contents, without collisions. *)
Variable etag : list byte -> Str.
Hypothesis etag_inj : forall b1 b2, etag b1 = etag b2 -> b1 = b2.
Hypothesis tagged : forall s b k body t, objects s b !! k = Some (body, t) -> t = etag body.

Abbreviation closure := (option StoredValue -> Result (CasAction R)).
Abbreviation client := (prog s3E (Result R)).
Variable specs : list (Str * closure).
Hypothesis specs_write : forall i key f, specs !! i = Some (key, f) ->
  forall e e' r, no_ttl e -> f e = Ok (Write e' r) -> encodable from_slice to_vec e' /\ expires_at_ms e' = None.

(** Some call may delete [key]. *)
Definition deleter (key : Str) : Prop := exists i f e r, specs !! i = Some (key, f) /\ f (Some e) = Ok (Delete r).

(** An entry read at [key] is there, unless a call may have deleted it. *)
Definition kept (key : Str) (w : world) : Prop := is_Some (store w !! key) \/ deleter key.

(** What a call answers that found the object it read gone: the result of a
    deletion it did not do, or the error of the refused write. *)
Definition gone (key : Str) (f : closure) (res : Result R) : Prop :=
  deleter key /\ ((exists e r, f (Some e) = Ok (Delete r) /\ res = Ok r) \/ exists msg, res = Err (S3 msg)).

Abbreviation on_s3 := (interp (s3_backend from_slice to_vec self flush)).

Definition clients : list client := (fun kf => on_s3 (cas (fst kf) (pure_mod (snd kf)))) <$> specs.

Inductive race_step : list client * St -> list client * St -> Prop :=
| race_call ths s i p p' s' :
    ths !! i = Some p -> s3_step p s = Some (p', s') -> race_step (ths, s) (<[i := p']> ths, s')
| race_time ths s s' :
    (forall b, objects s' b = objects s b) -> s3_clock s <= s3_clock s' -> race_step (ths, s) (ths, s').

Inductive race_steps : list client * St -> list client * St -> Prop :=
| race_refl c : race_steps c c
| race_snoc c c' c'' : race_steps c c' -> race_step c' c'' -> race_steps c c''.

(** ** The points a call can be at *)

Definition s3_after_write (key : Str) (f : closure) (n : nat) (a : Z) (r : R) (res : sdk_result) : client :=
  match res with
  | SdkOk => Ret (Ok r)
  | SdkError status msg =>
      match put_error status msg with
      | Contention => on_s3 (cas_from key (pure_mod f) n (a + 1))
      | err => Ret (Err err)
      end
  end.

(** [e] is what the contents with tag [t] decode to. *)
Definition read_as (e : StoredValue) (t : Str) : Prop :=
  exists body, t = etag body /\ from_slice body = Ok e /\ expires_at_ms e = None.

Inductive s3_phase (key : Str) (f : closure) (w : world) : client -> Prop :=
| sp_start n a : s3_phase key f w (on_s3 (cas_from key (pure_mod f) n a))
| sp_now n a e t K :
    read_as e t -> kept key w -> (forall now, K now = on_s3 (after_load key f n a (Ok (Some (e, t))))) ->
    (forall r, f (Some e) <> Ok (NoOp r)) -> (forall err, f (Some e) <> Err err) ->
    s3_phase key f w (Vis S3NowMs K)
| sp_create n a e r body K :
    f None = Ok (Write e r) -> to_vec e = Ok body -> (forall res, K res = s3_after_write key f n a r res) ->
    s3_phase key f w (Vis (PutObject (bucket self) (s3_key self key) body (Some (bs "*")) None) K)
| sp_save n a e0 t e r body K :
    read_as e0 t -> kept key w -> f (Some e0) = Ok (Write e r) -> to_vec e = Ok body ->
    (forall res, K res = s3_after_write key f n a r res) ->
    s3_phase key f w (Vis (PutObject (bucket self) (s3_key self key) body None (Some t)) K)
| sp_delete n a e0 t r K :
    read_as e0 t -> kept key w -> f (Some e0) = Ok (Delete r) -> (forall res, K res = s3_after_write key f n a r res) ->
    s3_phase key f w (Vis (DeleteObject (bucket self) (s3_key self key) (Some t)) K).

(** A call that has taken effect and only has to return. *)
Inductive returning (res : Result R) : client -> Prop :=
| returning_now : returning res (Ret res)
| returning_then K : (forall now, K now = Ret res) -> returning res (Vis S3NowMs K).

(** The bucket holds the entries of [w], none with a TTL. *)
Definition same_and_lasting (s : St) (w : world) : Prop :=
  same_entries from_slice self s w /\ forall k e v, store w !! k = Some (e, v) -> expires_at_ms e = None.

Lemma after_load_phase w key f n a e t :
  (exists i, specs !! i = Some (key, f)) -> read_as e t -> kept key w ->
  match f (Some e) with
  | Ok (NoOp r) => on_s3 (after_load key f n a (Ok (Some (e, t)))) = Ret (Ok r)
  | Err err => on_s3 (after_load key f n a (Ok (Some (e, t)))) = Ret (Err err)
  | _ => s3_phase key f w (on_s3 (after_load key f n a (Ok (Some (e, t)))))
  end.
Proof.
  intros [i Hi] Hr Hk. cbn [after_load option_map fst snd]. destruct (f (Some e)) as [[e' r|r|r]|err] eqn:Ef; [| |done|done].
  - destruct Hr as (body & Ht & Hd & Hn). destruct (specs_write i key f Hi (Some e) e' r Hn Ef) as [(b & Hb & _) _].
    cbn [interp s3_backend]. unfold s3_save. rewrite Hb. cbn [pbind].
    eapply sp_save; [by exists body|exact Hk|exact Ef|exact Hb|].
    intros [|st msg]; cbn; [done|]. unfold after_write, put_error. by case_bool_decide.
  - cbn [interp s3_backend]. unfold s3_delete. cbn [pbind trigger].
    eapply sp_delete; [exact Hr|exact Hk|exact Ef|]. intros [|st msg]; cbn; [done|]. unfold after_write, put_error. by case_bool_decide.
Qed.

Lemma lasting_put s w s' key e b t :
  same_and_lasting s w -> from_slice b = Ok e -> expires_at_ms e = None ->
  objects s' (bucket self) = <[s3_key self key := (b, t)]> (objects s (bucket self)) ->
  s3_clock s' = s3_clock s -> same_and_lasting s' (put key e w).
Proof.
  intros [Hs Hl] Hb He Ho Hc. split; [by eapply same_entries_put|]. intros k e' v'. cbn.
  rewrite lookup_insert. case_decide; [by intros [= <- _]|apply Hl].
Qed.
Lemma lasting_remove s w s' key :
  same_and_lasting s w -> objects s' (bucket self) = base.delete (s3_key self key) (objects s (bucket self)) ->
  s3_clock s' = s3_clock s -> same_and_lasting s' (remove key w).
Proof.
  intros [Hs Hl] Ho Hc. split; [by eapply same_entries_delete|]. intros k e' v'. cbn.
  rewrite lookup_delete. case_decide; [done|apply Hl].
Qed.

Lemma start_eq key (f : closure) n a :
  exists K, on_s3 (cas_from key (pure_mod f) (S n) a) = pbind (s3_load from_slice self key) (fun l => on_s3 (K l)) /\
    forall l, K l = after_load key f n a l.
Proof.
  destruct (cas_from_S key f n a) as (K & E & HK). exists K. split; [|exact HK]. rewrite E. unfold cas_backoff.
  by destruct (a =? 0).
Qed.

(** What a conditional call meets: the contents it was computed from ... *)
Lemma tag_match s w key e0 t :
  same_and_lasting s w -> read_as e0 t ->
  put_allowed (objects s (bucket self) !! s3_key self key) None (Some t) = true ->
  exists v, store w !! key = Some (e0, v).
Proof.
  intros [[_ Hs] _] (body & -> & Hd & _) Ha. specialize (Hs key).
  destruct (objects s (bucket self) !! s3_key self key) as [[b' t']|] eqn:Eo; [|done].
  cbn in Ha. apply bool_decide_eq_true in Ha as <-. pose proof (tagged _ _ _ _ _ Eo) as ->%etag_inj.
  destruct (store w !! key) as [[e v]|]; [|done]. rewrite Hd in Hs. injection Hs as ->. by exists v.
Qed.

(** ... other contents, or nothing any more. *)
Lemma tag_missing s w key :
  same_and_lasting s w -> kept key w -> objects s (bucket self) !! s3_key self key = None -> deleter key.
Proof.
  intros [[_ Hs] _] [[ev Hk]|Hk] Ho; [|done]. specialize (Hs key). rewrite Ho, Hk in Hs. by destruct ev.
Qed.

Definition progress (key : Str) (f : closure) (w : world) (p' : client) (s' : St) : Prop :=
  (s3_phase key f w p' /\ same_and_lasting s' w) \/
  (exists res, gone key f res /\ same_and_lasting s' w /\ p' = Ret res) \/
  (exists res w', commit_at key f w = (res, w') /\ same_and_lasting s' w' /\ returning res p').

Lemma get_progress i key (f : closure) n a s w p' s' :
  specs !! i = Some (key, f) -> same_and_lasting s w ->
  s3_step (on_s3 (cas_from key (pure_mod f) (S n) a)) s = Some (p', s') -> progress key f w p' s'.
Proof.
  intros Hi Hsl. pose proof Hsl as [[Hc Hs] Hl]. destruct (start_eq key f n a) as (K & -> & HK).
  unfold s3_load. cbn [trigger pbind s3_step]. rewrite s3_get. intros [= <- <-]. specialize (Hs key). specialize (Hl key).
  destruct (objects s (bucket self) !! s3_key self key) as [[b t]|] eqn:Eo; destruct (store w !! key) as [[e v]|] eqn:Ew; try done.
  - cbn [rbind]. rewrite Hs. cbn [trigger pbind]. specialize (Hl e v eq_refl).
    assert (Hr : read_as e t) by (exists b; split; [by eapply tagged|done]).
    assert (Hk : kept key w) by (left; rewrite Ew; by eexists).
    pose proof (after_load_phase w key f n a e t (ex_intro _ i Hi) Hr Hk) as Hp.
    assert (HK' : forall now, (let! x := (if is_expired now e then
        let! _ := s3_delete self key DAny in Ret (Ok None) else Ret (Ok (Some (e, t)))) in on_s3 (K x)) =
        on_s3 (after_load key f n a (Ok (Some (e, t))))).
    { intros now. rewrite (no_ttl_not_expired e now Hl). cbn [pbind]. by rewrite HK. }
    destruct (f (Some e)) as [[e' r|r|r]|err] eqn:Ef.
    + left. split; [|done]. eapply sp_now; [exact Hr|exact Hk|exact HK'|congruence..].
    + left. split; [|done]. eapply sp_now; [exact Hr|exact Hk|exact HK'|congruence..].
    + right; right. exists (Ok r), w. unfold commit_at. rewrite Ew. cbn [option_map fst]. rewrite Ef. split; [done|]. split; [done|].
      apply returning_then. intros now. by rewrite HK', Hp.
    + right; right. exists (Err err), w. unfold commit_at. rewrite Ew. cbn [option_map fst]. rewrite Ef. split; [done|]. split; [done|].
      apply returning_then. intros now. by rewrite HK', Hp.
  - cbn [pbind]. rewrite HK. cbn [after_load option_map fst snd]. destruct (f None) as [[e' r|r|r]|err] eqn:Ef.
    + left. split; [|done]. destruct (specs_write i key f Hi None e' r I Ef) as [(b & Hb & _) _].
      cbn [interp s3_backend]. unfold s3_save. rewrite Hb. cbn [pbind]. eapply sp_create; [exact Ef|exact Hb|].
      intros [|st msg]; cbn; [done|]. unfold after_write, put_error. by case_bool_decide.
    + right; right. exists (Ok r), (remove key w). unfold commit_at. rewrite Ew. cbn. rewrite Ef. split; [done|].
      split; [|constructor]. unfold remove. rewrite delete_id by done. by destruct w.
    + right; right. exists (Ok r), w. unfold commit_at. rewrite Ew. cbn. rewrite Ef. split; [done|]. split; [done|constructor].
    + right; right. exists (Err err), w. unfold commit_at. rewrite Ew. cbn. rewrite Ef. split; [done|]. split; [done|constructor].
Qed.

Lemma refused_progress key (f : closure) n a r status msg s w K :
  same_and_lasting s w -> (forall res, K res = s3_after_write key f n a r res) ->
  status = Some 412 \/ deleter key -> progress key f w (K (SdkError status msg)) s.
Proof.
  intros Hsl -> Hd. cbn. unfold put_error. case_bool_decide as Hst; [left; split; [constructor|done]|].
  right; left. exists (Err (S3 msg)). destruct Hd as [?|Hd]; [done|]. split; [|done]. split; [done|]. right. by exists msg.
Qed.

Lemma write_progress i key (f : closure) n a s w k' e0 e r body inm im K p' s' :
  specs !! i = Some (key, f) -> same_and_lasting s w ->
  (put_allowed (objects s (bucket self) !! s3_key self key) inm im = true -> option_map fst (store w !! key) = e0) ->
  (im <> None -> kept key w) ->
  k' = s3_key self key -> no_ttl e0 -> f e0 = Ok (Write e r) -> to_vec e = Ok body ->
  (forall res, K res = s3_after_write key f n a r res) ->
  s3_step (Vis (PutObject (bucket self) k' body inm im) K) s = Some (p', s') -> progress key f w p' s'.
Proof.
  intros Hi Hsl Ha Hk -> He0 Hf Hb HK. cbn [s3_step].
  destruct (put_allowed (objects s (bucket self) !! s3_key self key) inm im) eqn:Ep.
  - destruct (s3_put_ok s (bucket self) (s3_key self key) body inm im Ep) as (t & s1 & -> & Ho & Hc). intros [= <- <-].
    destruct (specs_write i key f Hi e0 e r He0 Hf) as [(b & Hb' & Hd) Hne]. rewrite Hb in Hb'. injection Hb' as <-.
    right; right. exists (Ok r), (put key e w). unfold commit_at. rewrite (Ha eq_refl), Hf. split; [done|].
    split; [by eapply lasting_put|]. rewrite HK. constructor.
  - destruct (objects s (bucket self) !! s3_key self key) as [o|] eqn:Eo.
    + destruct (s3_put_412 s (bucket self) (s3_key self key) body inm im o Eo Ep) as [msg ->]. intros [= <- <-].
      eapply refused_progress; [done|done|by left].
    + destruct im as [t|]; [|by destruct inm].
      destruct (s3_put_missing s (bucket self) (s3_key self key) body inm t Eo) as (st & msg & ->). intros [= <- <-].
      eapply refused_progress; [done|done|right]. by eapply tag_missing; eauto.
Qed.

Lemma delete_progress i key (f : closure) n a s w e0 t r K p' s' :
  specs !! i = Some (key, f) -> same_and_lasting s w -> read_as e0 t -> f (Some e0) = Ok (Delete r) ->
  (forall res, K res = s3_after_write key f n a r res) ->
  s3_step (Vis (DeleteObject (bucket self) (s3_key self key) (Some t)) K) s = Some (p', s') -> progress key f w p' s'.
Proof.
  intros Hi Hsl Hr Hf HK. cbn [s3_step]. assert (Hdel : deleter key) by by exists i, f, e0, r.
  destruct (objects s (bucket self) !! s3_key self key) as [o|] eqn:Eo.
  - destruct (put_allowed (Some o) None (Some t)) eqn:Ea.
    + rewrite <- Eo in Ea. destruct (s3_delete_ok s (bucket self) (s3_key self key) (Some t) Ea) as (s1 & -> & Ho & Hc).
      intros [= <- <-]. destruct (tag_match s w key e0 t Hsl Hr Ea) as [v Ew].
      right; right. exists (Ok r), (remove key w). unfold commit_at. rewrite Ew. cbn [option_map fst]. rewrite Hf. split; [done|].
      split; [by eapply lasting_remove|]. rewrite HK. constructor.
    + destruct (s3_delete_412 s (bucket self) (s3_key self key) (Some t) o Eo Ea) as [msg ->]. intros [= <- <-].
      eapply refused_progress; [done|done|by left].
  - destruct (s3_delete_missing s (bucket self) (s3_key self key) t Eo) as [[|st msg] ->]; intros [= <- <-].
    + right; left. exists (Ok r). rewrite HK. split; [|done]. split; [done|]. left. by exists e0, r.
    + eapply refused_progress; [done|done|by right].
Qed.

(** One SDK call of a call that has not taken effect. *)
Lemma phase_progress i key (f : closure) s w p p' s' :
  specs !! i = Some (key, f) -> same_and_lasting s w -> s3_phase key f w p -> s3_step p s = Some (p', s') ->
  progress key f w p' s'.
Proof.
  intros Hi Hsl Hp Hst. destruct Hp as [n a|n a e t K Hr Hk HK Hno Herr|n a e r body K Hf Hb HK|n a e0 t e r body K Hr Hk Hf Hb HK|n a e0 t r K Hr Hk Hf HK].
  - destruct n as [|n]; [done|]. by eapply get_progress.
  - cbn [s3_step] in Hst. rewrite s3_now in Hst. injection Hst as <- <-. left. split; [|done]. rewrite HK.
    pose proof (after_load_phase w key f n a e t (ex_intro _ i Hi) Hr Hk) as Hp.
    destruct (f (Some e)) as [[e' r|r|r]|err] eqn:Ef; [exact Hp|exact Hp|by destruct (Hno r)|by destruct (Herr err)].
  - eapply (write_progress i key f n a s w _ None); try done. intros Ha. destruct Hsl as [[_ Hs] _]. specialize (Hs key).
    destruct (objects s (bucket self) !! s3_key self key) as [[]|]; [done|]. by destruct (store w !! key) as [[]|].
  - eapply (write_progress i key f n a s w _ (Some e0)); try done; [|by destruct Hr as (? & _ & _ & ?)].
    intros Ha. destruct (tag_match s w key e0 t Hsl Hr Ha) as [v ->]. done.
  - by eapply (delete_progress i key f n a).
Qed.

Lemma returning_step res p s p' s' :
  returning res p -> s3_step p s = Some (p', s') -> s' = s /\ returning res p'.
Proof.
  destruct 1 as [|K HK]; cbn [s3_step]; [done|]. rewrite s3_now. intros [= <- <-]. split; [done|]. rewrite HK. constructor.
Qed.

Lemma phase_contended key (f : closure) w res : s3_phase key f w (Ret res) -> res = Err Contention.
Proof.
  remember (Ret res) as p eqn:E. destruct 1; try done. destruct n as [|n]; [by injection E|].
  destruct (start_eq key f n a) as (K & E' & _). rewrite E' in E. done.
Qed.

(** ** The invariant *)

Abbreviation trace := (atomic_trace specs (fun _ _ => False)).

Lemma phase_mono key (f : closure) w w' p : (kept key w -> kept key w') -> s3_phase key f w p -> s3_phase key f w' p.
Proof. intros Hk. destruct 1; econstructor; eauto. Qed.

(** No commit takes away an entry without a call that deletes its key. *)
Lemma commit_keeps i key (f : closure) w res w' key' :
  specs !! i = Some (key, f) -> commit_at key f w = (res, w') -> kept key' w -> kept key' w'.
Proof.
  intros Hi Hc [Hk|Hk]; [|by right]. unfold commit_at in Hc.
  destruct (f (option_map fst (store w !! key))) as [[e r|r|r]|err] eqn:Ef; injection Hc as <- <-; [| |by left|by left].
  - left. cbn. rewrite lookup_insert. case_decide; [by eexists|done].
  - destruct (decide (key = key')) as [<-|Hne]; [|left; cbn; by rewrite lookup_delete_ne].
    destruct Hk as [[e v] Hk]. rewrite Hk in Ef. right. by exists i, f, e, r.
Qed.

Definition thread_at (tr : list (nat * Result R)) (w : world) (i : nat) (p : client) : Prop :=
  forall key f, specs !! i = Some (key, f) ->
    ((i ∉ map fst tr) /\ (s3_phase key f w p \/ exists res, gone key f res /\ p = Ret res)) \/
    (exists res, returning res p /\ (i, res) ∈ tr).

Record race_inv (w0 : world) (tr : list (nat * Result R)) (w : world) (ths : list client) (s : St) : Prop := {
  ri_trace : trace w0 tr w;
  ri_world : same_and_lasting s w;
  ri_nodup : NoDup (map fst tr);
  ri_length : length ths = length specs;
  ri_threads : forall i p, ths !! i = Some p -> thread_at tr w i p;
}.

Lemma race_inv_initial w0 s : same_and_lasting s w0 -> race_inv w0 [] w0 clients s.
Proof.
  intros Hs. split; [constructor|done|constructor|apply length_fmap|].
  intros i p Hp key f Hi. left. split; [apply not_elem_of_nil|left]. unfold clients in Hp. rewrite list_lookup_fmap, Hi in Hp.
  injection Hp as <-. exact (sp_start key f w0 MAX_CAS_RETRIES 0).
Qed.

Lemma same_and_lasting_tick s s' w :
  (forall b, objects s' b = objects s b) -> same_and_lasting s w ->
  same_and_lasting s' (tick (s3_clock s') (clock_nanos w) w).
Proof. intros Ho [[_ Hs] Hl]. split; [|exact Hl]. split; [done|]. intros k. rewrite Ho. apply Hs. Qed.

(** The threads after thread [i] has moved to [p']. *)
Lemma threads_move tr w tr' w' (ths : list client) i p' :
  (forall j p, ths !! j = Some p -> thread_at tr w j p) ->
  (forall j p, j <> i -> thread_at tr w j p -> thread_at tr' w' j p) ->
  thread_at tr' w' i p' -> forall j p, <[i := p']> ths !! j = Some p -> thread_at tr' w' j p.
Proof.
  intros Hths Hother Hi j p Hj. destruct (decide (i = j)) as [<-|Hne].
  - assert (i < length ths)%nat by (apply lookup_lt_Some in Hj; by rewrite length_insert in Hj).
    rewrite list_lookup_insert_eq in Hj by done. by injection Hj as <-.
  - rewrite list_lookup_insert_ne in Hj by done. apply Hother; [done|]. by apply Hths.
Qed.

Lemma thread_at_mono tr w w' i p :
  (forall key, kept key w -> kept key w') -> thread_at tr w i p -> thread_at tr w' i p.
Proof.
  intros Hk Ht key f Hi. destruct (Ht key f Hi) as [[Hn [Hp|Hp]]|Hr]; [left|left|by right]; (split; [done|]); [left|by right].
  exact (phase_mono key f w w' p (Hk key) Hp).
Qed.

Lemma thread_at_commit tr w i key (f : closure) res w' j p :
  specs !! i = Some (key, f) -> commit_at key f w = (res, w') ->
  j <> i -> thread_at tr w j p -> thread_at (tr ++ [(i, res)]) w' j p.
Proof.
  intros Hi Hc Hne Ht key' f' Hj. destruct (Ht key' f' Hj) as [[Hn Hp]|(res' & Hr & Hin)].
  - left. split; [rewrite map_app; cbn; rewrite elem_of_app, list_elem_of_singleton; by intros [?|?]|].
    destruct Hp as [Hp|Hp]; [left|by right]. eapply phase_mono, Hp. exact (commit_keeps i key f w res w' key' Hi Hc).
  - right. exists res'. split; [done|]. apply elem_of_app. by left.
Qed.

Lemma race_inv_move w0 tr w ths s i key (f : closure) p p' s' :
  race_inv w0 tr w ths s -> ths !! i = Some p -> specs !! i = Some (key, f) -> i ∉ map fst tr ->
  progress key f w p' s' -> exists tr' w', race_inv w0 tr' w' (<[i := p']> ths) s'.
Proof.
  intros [Htr Hsl Hnd Hlen Hths] Hi Hspec Hni.
  intros [[Hp Hsl']|[(res & Hg & Hsl' & ->)|(res & w' & Hcommit & Hsl' & Hr)]].
  - exists tr, w. split; [done..|by rewrite length_insert|]. apply (threads_move tr w); [done|auto|].
    intros key' f' Hi'. rewrite Hspec in Hi'. injection Hi' as <- <-. left. split; [done|by left].
  - exists tr, w. split; [done..|by rewrite length_insert|]. apply (threads_move tr w); [done|auto|].
    intros key' f' Hi'. rewrite Hspec in Hi'. injection Hi' as <- <-. left. split; [done|]. right. by exists res.
  - exists (tr ++ [(i, res)]), w'. split; [by eapply at_commit|done| |by rewrite length_insert|].
    + rewrite map_app. apply NoDup_app. split; [done|]. split; [|apply NoDup_singleton].
      intros j Hj. cbn. rewrite list_elem_of_singleton. by intros ->.
    + apply (threads_move tr w); [done|intros; by eapply thread_at_commit|].
      intros key' f' _. right. exists res. split; [done|]. apply elem_of_app. right. by apply list_elem_of_singleton.
Qed.

Lemma race_inv_step w0 tr w c c' :
  race_inv w0 tr w c.1 c.2 -> race_step c c' -> exists tr' w', race_inv w0 tr' w' c'.1 c'.2.
Proof.
  intros Hinv Hst. pose proof Hinv as [Htr Hsl Hnd Hlen Hths].
  destruct Hst as [ths s i p p' s' Hi Hst|ths s s' Ho Hc]; cbn [fst snd] in *.
  - destruct (lookup_lt_is_Some_2 specs i) as [[key f] Hspec]; [rewrite <- Hlen; by eapply lookup_lt_Some|].
    destruct (Hths i p Hi key f Hspec) as [[Hni [Hp|(res & _ & ->)]]|(res & Hr & Hin)]; [|discriminate Hst|].
    + eapply race_inv_move; [done..|]. by eapply phase_progress.
    + destruct (returning_step res p s p' s' Hr Hst) as [-> Hr']. exists tr, w.
      split; [done..|by rewrite length_insert|]. apply (threads_move tr w); [done|auto|].
      intros key' f' _. right. by exists res.
  - exists tr, (tick (s3_clock s') (clock_nanos w) w). split; [|by eapply same_and_lasting_tick|done..|].
    2: { intros i p Hi. eapply thread_at_mono, Hths, Hi. done. }
    apply at_tick; [done|]. by rewrite <- (proj1 (proj1 Hsl)).
Qed.

Lemma race_inv_steps w0 s0 ths s :
  same_and_lasting s0 w0 -> race_steps (clients, s0) (ths, s) -> exists tr w, race_inv w0 tr w ths s.
Proof.
  intros Hs. remember (clients, s0) as c0 eqn:E0. remember (ths, s) as c eqn:E. intros Hsteps. revert ths s E.
  induction Hsteps as [c|c c' c'' Hsteps IH Hst]; intros ths s ->.
  - injection E0 as -> ->. exists [], w0. by apply race_inv_initial.
  - destruct c' as [ths' s']. destruct (IH E0 ths' s' eq_refl) as (tr & w & Hinv).
    by apply (race_inv_step w0 tr w (ths', s')) in Hst.
Qed.

(** C9: CAS calls racing on one S3 bucket are linearizable.  Any number of
    calls on entries without a TTL, interleaved at every SDK call while the clock
    runs: the bucket reached holds the entries of a state the atomic system
    reaches, with a trace of commits in which every call occurs at most once; a
    call that has returned either committed with exactly its result, or is absent
    from the trace, having returned [Contention] or - where some call deletes the
    key - found the object it read gone.  The version an [ETag] gives is only a
    digest of the contents, so it recurs when they do; that is enough. *)
Theorem s3_cas_linearizable s0 w0 ths s :
  same_and_lasting s0 w0 -> race_steps (clients, s0) (ths, s) ->
  exists tr w, trace w0 tr w /\ same_entries from_slice self s w /\ NoDup (map fst tr) /\
    forall i res key f, ths !! i = Some (Ret res) -> specs !! i = Some (key, f) ->
      (i, res) ∈ tr \/ ((i ∉ map fst tr) /\ (res = Err Contention \/ gone key f res)).
Proof.
  intros Hs Hsteps. destruct (race_inv_steps w0 s0 ths s Hs Hsteps) as (tr & w & [Htr Hsl Hnd Hlen Hths]).
  exists tr, w. split; [done|]. split; [apply Hsl|]. split; [done|]. intros i res key f Hi Hspec.
  destruct (Hths i _ Hi key f Hspec) as [[Hni [Hp|(res' & Hg & [= <-])]]|(res' & Hr & Hin)].
  - right. split; [done|]. left. by eapply phase_contended.
  - right. split; [done|by right].
  - left. by inversion Hr; subst.
Qed.
End race.

(** ** A service whose [ETag] is the contents *)

Record digest := { dg_objects : gmap Str (list byte); dg_clock : Z }.

Definition dg_object (s : digest) (k : Str) : option (list byte * Str) := (fun b => (b, b)) <$> dg_objects s !! k.

Definition dg_handle {A} (e : s3E A) (s : digest) : A * digest :=
  match e in s3E A return A * digest with
  | GetObject _ k => (match dg_objects s !! k with Some b => GetOk (Ok b) (Some b) | None => GetNoSuchKey end, s)
  | PutObject _ k body inm im =>
      if put_allowed (dg_object s k) inm im then
        (SdkOk, {| dg_objects := <[k := body]> (dg_objects s); dg_clock := dg_clock s |})
      else (SdkError (Some (if bool_decide (dg_objects s !! k = None) then 404 else 412)) "refused", s)
  | DeleteObject _ k im =>
      if bool_decide (dg_objects s !! k = None) then (SdkOk, s)
      else if put_allowed (dg_object s k) None im then
        (SdkOk, {| dg_objects := base.delete k (dg_objects s); dg_clock := dg_clock s |})
      else (SdkError (Some 412) "PreconditionFailed", s)
  | ListObjectsV2 _ p cursor max_keys => (list_objects (dg_objects s) p cursor max_keys, s)
  | DeleteObjects _ ids =>
      (SdkOk, {| dg_objects := fold_left (fun m k => base.delete k m) ids (dg_objects s); dg_clock := dg_clock s |})
  | S3NowMs => (dg_clock s, s)
  | S3NowNanos => (dg_clock s * 1000000, s)
  end.

Lemma dg_object_lookup s k : ((fun b => (b, b)) <$> dg_objects s) !! k = dg_object s k.
Proof. apply lookup_fmap. Qed.

#[export] Instance digest_service : S3Service digest.
Proof.
  refine {| s3_handle := @dg_handle; objects := fun s _ => (fun b => (b, b)) <$> dg_objects s; s3_clock := dg_clock;
      s3_after := key_after |};
    intros; rewrite ?dg_object_lookup in *; cbn -[put_allowed list_objects] in *; try done.
  - unfold dg_object. by destruct (dg_objects s !! k).
  - rewrite H. exists body. eexists. split; [reflexivity|]. split; [cbn [dg_objects]; by rewrite fmap_insert|done].
  - rewrite H, H0. unfold dg_object in H. rewrite bool_decide_false; [by eexists|]. by intros E; rewrite E in H.
  - rewrite H. destruct inm; by eexists _, _.
  - case_bool_decide as Hk.
    + exists s. split; [done|]. split; [|done]. rewrite delete_id; [done|]. by rewrite lookup_fmap, Hk.
    + rewrite H. eexists. split; [reflexivity|]. split; [cbn [dg_objects]; by rewrite fmap_delete|done].
  - rewrite H. rewrite bool_decide_false; [|intros E; unfold dg_object in H; by rewrite E in H]. rewrite H0. by eexists.
  - unfold dg_object in H. rewrite bool_decide_true; [by eexists|]. by destruct (dg_objects s !! k).
  - destruct (list_objects_spec ((fun b => (b, b)) <$> dg_objects s) p cursor max_keys H) as (page & next & E & Hp & Hl).
    exists page, next. split; [|done]. rewrite <- E. unfold list_objects, prefixed_keys, map_keys.
    by rewrite map_to_list_fmap, map_map.
  - eexists. split; [reflexivity|]. split; [|done]. cbn [dg_objects]. clear. generalize (dg_objects s) as m.
    induction ids as [|k ids IH]; intros m; cbn [fold_left]; [done|]. by rewrite IH, fmap_delete.
  - by eexists.
Defined.

(** The clients of a schedule, by number. *)
Fixpoint race_run {St} `{S3Service St} {R} (sch : list nat) (c : list (prog s3E (Result R)) * St)
    : list (prog s3E (Result R)) * St :=
  match sch with
  | [] => c
  | i :: sch =>
      match c.1 !! i with
      | Some p => match s3_step p c.2 with
                  | Some (p', s') => race_run sch (<[i := p']> c.1, s')
                  | None => race_run sch c
                  end
      | None => race_run sch c
      end
  end.

Lemma race_steps_cons {St} `{S3Service St} {R} (c c' c'' : list (prog s3E (Result R)) * St) :
  race_step c c' -> race_steps c' c'' -> race_steps c c''.
Proof.
  intros Hs. induction 1 as [c'|c' c1 c2 _ IH H2].
  - by eapply race_snoc; [constructor|].
  - eapply race_snoc; [by apply IH|done].
Qed.

Lemma race_run_steps {St} `{S3Service St} {R} sch (c : list (prog s3E (Result R)) * St) : race_steps c (race_run sch c).
Proof.
  revert c. induction sch as [|i sch IH]; intros [ths s]; cbn; [constructor|].
  destruct (ths !! i) as [p|] eqn:Ei; [|apply IH]. destruct (s3_step p s) as [[p' s']|] eqn:Es; [|apply IH].
  eapply race_steps_cons; [by eapply race_call|apply IH].
Qed.

(** Three clients of one key: two writes and a deletion. *)
Definition race_specs : list (Str * (option StoredValue -> Result (CasAction Z))) :=
  [(bs "k", fun _ => Ok (Write new_entry 7));
   (bs "k", fun e => match e with Some _ => Ok (Delete 1) | None => Ok (NoOp 0) end);
   (bs "k", fun _ => Ok (Write new_entry 8))].
Definition empty_digest : digest := {| dg_objects := ∅; dg_clock := 1000 |}.
Definition race_result :=
  race_run [0; 2; 0; 2; 2; 2; 1; 2; 1; 1]%nat
    (clients tiny_from_slice tiny_to_vec tiny_storage (Ret (Ok tt)) race_specs, empty_digest).

Lemma s3_cas_linearizable_witness :
  fst race_result = [Ret (Ok 7); Ret (Ok 1); Ret (Ok 8)] /\
  exists tr w, atomic_trace race_specs (fun _ _ => False) empty_world tr w /\
    same_entries tiny_from_slice tiny_storage (snd race_result) w /\ NoDup (map fst tr) /\ (0%nat, Ok 7) ∈ tr.
Proof.
  assert (E : fst race_result = [Ret (Ok 7); Ret (Ok 1); Ret (Ok 8)]) by (vm_compute; reflexivity).
  split; [exact E|].
  destruct (s3_cas_linearizable (R := Z) tiny_from_slice tiny_to_vec tiny_storage (Ret (Ok tt)) (fun b => b)
    (fun b1 b2 H => H)) with (specs := race_specs) (s0 := empty_digest) (w0 := empty_world)
    (ths := fst race_result) (s := snd race_result) as (tr & w & Htr & Hs & Hnd & Hres).
  - intros s b k body t. cbn. rewrite lookup_fmap. destruct (dg_objects s !! k); cbn; congruence.
  - intros i key f Hi e e' r _ Hf.
    assert (e' = new_entry) as ->.
    { destruct i as [|[|[|i]]]; cbn in Hi; try done; injection Hi as <- <-; cbn in Hf; [| |]; destruct e; congruence. }
    split; [|reflexivity]. exists (bs "new"). split; reflexivity.
  - split; [|intros k e v; cbn; by rewrite lookup_empty].
    split; [reflexivity|]. intros k. cbn. rewrite fmap_empty, !lookup_empty. exact I.
  - rewrite <- surjective_pairing. unfold race_result.
    apply race_run_steps.
  - exists tr, w. split; [exact Htr|]. split; [exact Hs|]. split; [exact Hnd|].
    destruct (Hres 0%nat (Ok 7) (bs "k") (fun _ => Ok (Write new_entry 7))) as [?|[_ [?|[_ [(e & r & Hd & _)|[msg ?]]]]]];
      [by rewrite E|reflexivity|done..].
Defined.

(** Where a conditional delete of a missing object succeeds, a deletion is not
    exclusive: two clients that pop the last element of a list are both given it. *)
Theorem s3_pop_twice {St} `{S3Service St} from_slice to_vec self flush key x b t (s : St) :
  (forall s b k t, objects s b !! k = None -> s3_handle _ (DeleteObject b k (Some t)) s = (SdkOk, s)) ->
  objects s (bucket self) !! s3_key self key = Some (b, t) -> from_slice b = Ok (mk_entry None (VList [x])) ->
  exists s', schedule [true; true; false; false; true; false]
      (interp (s3_backend from_slice to_vec self flush) (list_pop key 1 true))
      (interp (s3_backend from_slice to_vec self flush) (list_pop key 1 true)) s = (Ret (Ok [x]), Ret (Ok [x]), s').
Proof.
  intros Hdel Ho Hd.
  assert (Ep : list_pop_mod key 1 true (Some (mk_entry None (VList [x]))) = Ok (Delete [x])) by reflexivity.
  destruct (s3_delete_ok s (bucket self) (s3_key self key) (Some t)) as (s1 & Es1 & Ho1 & _).
  { rewrite Ho. cbn. by apply bool_decide_eq_true. }
  exists s1. unfold list_pop, cas, MAX_CAS_RETRIES.
  destruct (start_eq from_slice to_vec self flush key (list_pop_mod key 1 true) 4 0) as (K & -> & HK).
  assert (El : forall now, is_expired now (mk_entry None (VList [x])) = false) by (intros; by apply no_ttl_not_expired).
  unfold s3_load, s3_delete. do 2 (cbn [trigger pbind schedule rbind]; rewrite s3_get, Ho; cbn [rbind]; rewrite Hd;
    cbn [trigger pbind schedule]; rewrite s3_now, El; cbn [pbind]; rewrite HK; cbn [after_load option_map fst snd]; rewrite Ep;
    cbn [interp s3_backend]; unfold s3_delete; cbn [trigger pbind schedule]).
  rewrite Es1. cbn [trigger pbind schedule]. rewrite Hdel by (by rewrite Ho1, lookup_delete_eq). done.
Qed.

Lemma s3_pop_twice_witness :
  exists s', schedule [true; true; false; false; true; false]
      (interp (s3_backend (fun _ => Ok (mk_entry None (VList [bs "x"]))) tiny_to_vec tiny_storage (Ret (Ok tt))) (list_pop (bs "k") 1 true))
      (interp (s3_backend (fun _ => Ok (mk_entry None (VList [bs "x"]))) tiny_to_vec tiny_storage (Ret (Ok tt))) (list_pop (bs "k") 1 true))
      {| dg_objects := {[ bs "p/k" := bs "[x]" ]}; dg_clock := 1000 |} = (Ret (Ok [bs "x"]), Ret (Ok [bs "x"]), s').
Proof.
  apply s3_pop_twice with (b := bs "[x]") (t := bs "[x]"); [|vm_compute; reflexivity|reflexivity].
  intros s b k t Ho. cbn in Ho |- *. rewrite dg_object_lookup in Ho. unfold dg_object in Ho.
  rewrite bool_decide_true; [done|]. by destruct (dg_objects s !! k).
Defined.
