(* ===== verification/DynRace.v ===== *)
(** * DynRace

    CAS calls racing on DynamoDB, interleaved at the granularity of SDK calls.  A
    load is up to four calls there - index row, data row, clock, and the sweep of an
    expired entry - and a save up to three.  Writes are linearizable all the same,
    TTLs included, as long as no two saves draw the same version; a load is not: it
    can miss a key that was there all along. *)

From S2P Require Import Prelude.
From S2P Require Import Text.
From S2P Require Import BTree.
From S2P Require Import Pages.
From S2P Require Import F64.
From S2P Require Import Stream.
From S2P Require Import Value.
From S2P Require Import Backend.
From S2P Require Import Linearizability.
From S2P Require Import Contracts.
From S2P Require Import Collections.
From S2P Require Import Lists.
From S2P Require Import S3.
From S2P Require Import Dynamo.

(** One SDK call of one client, and the nanosecond it drew. *)
Definition dyn_step {St} `{DynService St} {R} (p : prog dynE R) (s : St) : option (prog dynE R * St) :=
  match p with
  | Ret _ => None
  | Vis e k => let '(a, s') := dyn_handle _ e s in Some (k a, s')
  end.
Definition drawn {St} `{DynService St} {R} (p : prog dynE R) (s : St) : option Z :=
  match p with
  | Ret _ => None
  | Vis e _ => (match e in dynE A return A * St -> option Z with
                | DynNowNanos => fun r => Some (fst r)
                | _ => fun _ => None
                end) (dyn_handle _ e s)
  end.

(** The version a save makes of the nanosecond it draws. *)
Definition version_at (nanos : Z) : Str := hex16 (rand_of_nanos nanos).

Section race.
Context {St : Type} `{Svc : DynService St} {R : Type}.
Variable from_slice : list byte -> Result StoredValue.
Variable to_vec : StoredValue -> Result (list byte).
Variable tables : TableNames.
Hypothesis distinct : tables_distinct tables.
Variable flush : prog dynE (Result unit).

Abbreviation closure := (option StoredValue -> Result (CasAction R)).
Abbreviation client := (prog dynE (Result R)).
Variable specs : list (Str * closure).
Hypothesis specs_write : forall i key f, specs !! i = Some (key, f) ->
  forall x e r, f x = Ok (Write e r) -> storable from_slice to_vec e.

Abbreviation on_dynamo := (interp (dyn_backend from_slice to_vec tables flush)).

Definition dyn_clients : list client := (fun kf => on_dynamo (cas (fst kf) (pure_mod (snd kf)))) <$> specs.

(** Clients, tables, and the versions in use so far. *)
Abbreviation config := (list client * St * gset Str)%type.

Inductive dyn_race_step : config -> config -> Prop :=
| dr_call ths s used i p p' s' :
    ths !! i = Some p -> dyn_step p s = Some (p', s') -> drawn p s = None ->
    dyn_race_step (ths, s, used) (<[i := p']> ths, s', used)
| dr_draw ths s used i p p' s' nanos :
    ths !! i = Some p -> dyn_step p s = Some (p', s') -> drawn p s = Some nanos -> version_at nanos ∉ used ->
    dyn_race_step (ths, s, used) (<[i := p']> ths, s', {[version_at nanos]} ∪ used)
| dr_time ths s used s' :
    rows s' = rows s -> dyn_clock s <= dyn_clock s' -> dyn_race_step (ths, s, used) (ths, s', used).

Inductive dyn_race_steps : config -> config -> Prop :=
| dr_refl c : dyn_race_steps c c
| dr_snoc c c' c'' : dyn_race_steps c c' -> dyn_race_step c' c'' -> dyn_race_steps c c''.

(** ** What the versions mean

    Every version ever drawn belongs to one save: of which key, and which entry. *)
Abbreviation meanings := (gmap Str (Str * StoredValue)).

Record versions_ok (d : db) (vm : meanings) : Prop := {
  data_versions : forall kd k row v e, d !! (for_kind tables kd, k) = Some row -> row !! ATTR_VERSION = Some (AvS v) ->
    decode_item from_slice row = Ok e -> vm !! v = Some (k, e);
  index_keyed : forall k row, d !! (t_index tables, k) = Some row -> row !! ATTR_PK <> None;
}.

Abbreviation kind_of_entry e := (ValueKind_of (value e)).
Abbreviation rows_of := (same_rows from_slice tables).

(** ** The points a call can be at *)

Definition dyn_after_write (key : Str) (f : closure) (n : nat) (a : Z) (r : R) (res : Result unit) : client :=
  match res with
  | Ok _ => Ret (Ok r)
  | Err Contention => on_dynamo (cas_from key (pure_mod f) n (a + 1))
  | Err err => Ret (Err err)
  end.

(** [get_one], after the data row has been read. *)
Definition judge (key : Str) (e : StoredValue) (version : Str) : prog dynE (Result (option (StoredValue * Str))) :=
  let! now := trigger DynNowMs in
  if is_expired now e then
    let! _ := dyn_delete tables key (DIfMatch (encode_token (kind_of_entry e) version)) in Ret (Ok None)
  else Ret (Ok (Some (e, encode_token (kind_of_entry e) version))).

(** The transactions a save ends in. *)
Definition create_items (key : Str) (e : StoredValue) (body : list byte) (version : Str) : list TransactItem :=
  [TPut (for_kind tables (kind_of_entry e)) (data_row key e body version) None;
   TPut (t_index tables) (index_row key e (kind_of_entry e)) (Some (AttrNotExists ATTR_PK))].
Definition replace_items (key : Str) (e : StoredValue) (body : list byte) (version old : Str) : list TransactItem :=
  [TPut (for_kind tables (kind_of_entry e)) (data_row key e body version) (Some (AttrEq ATTR_VERSION (AvS old)));
   TPut (t_index tables) (index_row key e (kind_of_entry e))
     (Some (AttrEq ATTR_KIND (AvS (ValueKind_as_str (kind_of_entry e)))))].
Definition delete_items (key : Str) (kd : ValueKind) (old : Str) : list TransactItem :=
  [TDelete (for_kind tables kd) key (Some (AttrEq ATTR_VERSION (AvS old)));
   TDelete (t_index tables) key (Some (AttrEq ATTR_KIND (AvS (ValueKind_as_str kd))))].

(** What the versions mean, which entries have been there, and the time. *)
Record knowledge := { meant : meanings; seen : Str -> StoredValue -> Prop; now_is : Z }.

Definition knows_more (g g' : knowledge) : Prop :=
  meant g ⊆ meant g' /\ (forall k e, seen g k e -> seen g' k e) /\ now_is g <= now_is g'.

Definition read_as (g : knowledge) (key : Str) (e : StoredValue) (v : Str) : Prop :=
  meant g !! v = Some (key, e) /\ seen g key e.

(** A save was computed from what was loaded. *)
Definition computed (g : knowledge) (key : Str) (f : closure) (cond : WriteCondition) (e : StoredValue) (r : R) : Prop :=
  match cond with
  | CreateOnly => f None = Ok (Write e r)
  | IfMatch t => exists e0 v, t = encode_token (kind_of_entry e0) v /\ read_as g key e0 v /\ f (Some e0) = Ok (Write e r)
  | WAny => False
  end.

Inductive dyn_phase (key : Str) (f : closure) (g : knowledge) : client -> Prop :=
| dp_start n a : dyn_phase key f g (on_dynamo (cas_from key (pure_mod f) n a))
| dp_data n a kd KK :
    (forall l, KK l = on_dynamo (after_load key f n a l)) ->
    dyn_phase key f g (pbind (get_one from_slice tables kd key) KK)
| dp_judge n a e v KK :
    (forall l, KK l = on_dynamo (after_load key f n a l)) -> read_as g key e v ->
    dyn_phase key f g (pbind (judge key e v) KK)
| dp_sweep n a e v now K :
    read_as g key e v -> is_expired now e = true -> now <= now_is g ->
    (forall res, K res = on_dynamo (after_load key f n a (Ok None))) ->
    dyn_phase key f g (Vis (TransactWriteItems (delete_items key (kind_of_entry e) v)) K)
| dp_save n a cond e r KW :
    computed g key f cond e r -> (forall res, KW res = dyn_after_write key f n a r res) ->
    dyn_phase key f g (pbind (dyn_save to_vec tables key e cond) KW)
| dp_index n a e r body v K K1 :
    computed g key f CreateOnly e r -> meant g !! v = Some (key, e) -> to_vec e = Ok body ->
    K (ItemOk None) = Vis (TransactWriteItems (create_items key e body v)) K1 ->
    (forall tx, K1 tx = dyn_after_write key f n a r (tx_result (bs "save") tx)) ->
    (forall row kd, row !! ATTR_KIND = Some (AvS (ValueKind_as_str kd)) ->
       K (ItemOk (Some row)) = dyn_after_write key f n a r (Err Contention)) ->
    dyn_phase key f g (Vis (GetItem (t_index tables) key) K)
| dp_create n a e r body v K :
    computed g key f CreateOnly e r -> meant g !! v = Some (key, e) -> to_vec e = Ok body ->
    (forall tx, K tx = dyn_after_write key f n a r (tx_result (bs "save") tx)) ->
    dyn_phase key f g (Vis (TransactWriteItems (create_items key e body v)) K)
| dp_replace n a e0 old e r body v K :
    read_as g key e0 old -> f (Some e0) = Ok (Write e r) -> kind_of_entry e0 = kind_of_entry e ->
    meant g !! v = Some (key, e) -> to_vec e = Ok body ->
    (forall tx, K tx = dyn_after_write key f n a r (tx_result (bs "save") tx)) ->
    dyn_phase key f g (Vis (TransactWriteItems (replace_items key e body v old)) K)
| dp_delete n a e0 old r K :
    read_as g key e0 old -> f (Some e0) = Ok (Delete r) ->
    (forall tx, K tx = dyn_after_write key f n a r (tx_result (bs "delete") tx)) ->
    dyn_phase key f g (Vis (TransactWriteItems (delete_items key (kind_of_entry e0) old)) K).

Lemma dyn_phase_mono key (f : closure) g g' p : knows_more g g' -> dyn_phase key f g p -> dyn_phase key f g' p.
Proof.
  intros (Hm & Hs & Hn).
  assert (Hl : forall v x, meant g !! v = Some x -> meant g' !! v = Some x) by (intros; by eapply lookup_weaken).
  assert (Hr : forall k e v, read_as g k e v -> read_as g' k e v) by (intros k e v []; split; auto).
  assert (Hc : forall k cond e r, computed g k f cond e r -> computed g' k f cond e r).
  { intros k [| |t] e r; cbn; [done..|]. intros (e0 & v & -> & ? & ?). exists e0, v. auto. }
  destruct 1; try (econstructor; solve [eauto]).
  eapply dp_sweep; eauto. lia.
Qed.

(** What a call that wrote nothing answers: what its closure says of an entry
    the key held, or of a missing key. *)
Definition observed (g : knowledge) (key : Str) (f : closure) (res : Result R) : Prop :=
  exists x, match x with Some e => seen g key e | None => True end /\
    match f x with
    | Ok (NoOp r) => res = Ok r
    | Ok (Delete r) => x = None /\ res = Ok r
    | Ok (Write _ _) => False
    | Err err => res = Err err
    end.

(** A call that has not taken effect. *)
Definition idle (key : Str) (f : closure) (g : knowledge) (p : client) : Prop :=
  dyn_phase key f g p \/ exists res, observed g key f res /\ p = Ret res.

Lemma after_write_eq key (f : closure) n a r res :
  on_dynamo (after_write key f n a r res) = dyn_after_write key f n a r res.
Proof. by destruct res as [|[]]. Qed.

(** The kinds that can be loaded lead to the phases of the write they decide on. *)
Lemma after_load_idle i key (f : closure) g n a l :
  specs !! i = Some (key, f) ->
  match l with Some (e, t) => exists v, t = encode_token (kind_of_entry e) v /\ read_as g key e v | None => True end ->
  idle key f g (on_dynamo (after_load key f n a (Ok l))).
Proof.
  intros Hi Hl. cbn [after_load]. destruct (f (option_map fst l)) as [[e' r|r|r]|err] eqn:Ef.
  - left. cbn [interp dyn_backend]. apply (dp_save key f g n a _ e' r).
    + destruct l as [[e t]|]; cbn in *; [|done]. destruct Hl as (v & -> & Hr). by exists e, v.
    + intros res. apply after_write_eq.
  - destruct l as [[e t]|]; cbn [option_map fst snd] in *.
    + destruct Hl as (v & -> & Hr). left. cbn [interp dyn_backend]. unfold dyn_delete. rewrite parse_encode_token.
      cbn [trigger pbind]. apply (dp_delete key f g n a e v r); [done..|]. intros tx. apply after_write_eq.
    + right. exists (Ok r). split; [|done]. exists None. by rewrite Ef.
  - right. exists (Ok r). split; [|done]. exists (option_map fst l). rewrite Ef. split; [|done].
    destruct l as [[e t]|]; [|done]. by destruct Hl as (v & _ & _ & ?).
  - right. exists (Err err). split; [|done]. exists (option_map fst l). rewrite Ef. split; [|done].
    destruct l as [[e t]|]; [|done]. by destruct Hl as (v & _ & _ & ?).
Qed.

(** ** Reading the tables *)

Lemma data_row_means s w vm key kd row :
  rows_of s w -> versions_ok (rows s) vm -> rows s !! (for_kind tables kd, key) = Some row ->
  exists e n v, store w !! key = Some (e, n) /\ kind_of_entry e = kd /\ decode_item from_slice row = Ok e /\
    row !! ATTR_VERSION = Some (AvS v) /\ vm !! v = Some (key, e).
Proof.
  intros [_ Hs] [Hv _] Hrow. specialize (Hs key). destruct (store w !! key) as [[e n]|].
  - destruct Hs as (_ & (drow & v & Hd & Hdec & Hdv) & Hother).
    destruct (decide (kd = kind_of_entry e)) as [->|Hne]; [|by rewrite Hother in Hrow].
    rewrite Hd in Hrow. injection Hrow as ->. exists e, n, v. by eauto 10.
  - destruct Hs as [_ Hs]. by rewrite Hs in Hrow.
Qed.

Lemma dyn_start_eq key (f : closure) n a :
  exists KK, on_dynamo (cas_from key (pure_mod f) (S n) a) = pbind (dyn_load from_slice tables key) KK /\
    forall l, KK l = on_dynamo (after_load key f n a l).
Proof.
  destruct (cas_from_S key f n a) as (K & E & HK). exists (fun l => on_dynamo (K l)). split; [|intros l; by rewrite HK].
  rewrite E. unfold cas_backoff. by destruct (a =? 0).
Qed.

Definition dyn_progress (key : Str) (f : closure) (g : knowledge) (w : world) (p' : client) (s' : St) : Prop :=
  versions_ok (rows s') (meant g) /\
  ((exists w', (w' = w \/ w' = gc key w) /\ rows_of s' w' /\ idle key f g p') \/
   (exists res w', commit_at key f w = (res, w') /\ rows_of s' w' /\ p' = Ret res)).

Lemma progress_idle key f g w p s : versions_ok (rows s) (meant g) -> rows_of s w -> idle key f g p -> dyn_progress key f g w p s.
Proof. intros Hv Hs Hp. split; [done|]. left. exists w. auto. Qed.
Lemma progress_phase key f g w p s : versions_ok (rows s) (meant g) -> rows_of s w -> dyn_phase key f g p -> dyn_progress key f g w p s.
Proof. intros Hv Hs Hp. apply progress_idle; [done..|by left]. Qed.

(** ** Transactions *)

Lemma versions_ok_sub d d' vm : d' ⊆ d -> versions_ok d vm -> versions_ok d' vm.
Proof.
  intros Hsub [Hv Hk]. split.
  - intros kd k row v e Hrow. apply (Hv kd). by eapply lookup_weaken.
  - intros k row Hrow. apply (Hk k). by eapply lookup_weaken.
Qed.

Lemma index_ne kd : for_kind tables kd <> t_index tables.
Proof. by apply for_kind_not_index. Qed.

Lemma versions_ok_put d vm key e body v :
  versions_ok d vm -> from_slice body = Ok e -> vm !! v = Some (key, e) ->
  versions_ok (<[(t_index tables, key) := index_row key e (kind_of_entry e)]>
    (<[(for_kind tables (kind_of_entry e), key) := data_row key e body v]> d)) vm.
Proof.
  intros [Hv Hk] Hb Hm. split.
  - intros kd k row v' e'. pose proof (index_ne kd). rewrite lookup_insert_ne by congruence.
    rewrite lookup_insert. case_decide as E; [|by apply Hv]. injection E as _ <-. intros [= <-].
    destruct (data_row_lookup key e body v) as (-> & Hdata & _). unfold decode_item. rewrite Hdata. cbn.
    rewrite Hb. by intros [= <-] [= <-].
  - intros k row. rewrite lookup_insert. case_decide as E.
    + injection E as <-. intros [= <-]. unfold index_row. by rewrite with_ttl_lookup.
    + rewrite lookup_insert_ne; [by apply Hk|]. pose proof (index_ne (kind_of_entry e)). congruence.
Qed.

Lemma put_tx s w vm key e body v c1 c2 :
  rows_of s w -> versions_ok (rows s) vm -> to_vec e = Ok body -> from_slice body = Ok e -> vm !! v = Some (key, e) ->
  (forall kd, kd <> kind_of_entry e -> rows s !! (for_kind tables kd, key) = None) ->
  let items := [TPut (for_kind tables (kind_of_entry e)) (data_row key e body v) c1;
                TPut (t_index tables) (index_row key e (kind_of_entry e)) c2] in
  forallb (tx_holds (rows s)) items = true ->
  exists s', dyn_handle _ (TransactWriteItems items) s = (TxOk, s') /\ rows_of s' (put key e w) /\ versions_ok (rows s') vm.
Proof.
  intros Hs Hv Hb Hd Hm Hother items Hh.
  destruct (dyn_tx_ok s items (tx_keys_distinct tables distinct key e body v c1 c2) Hh) as (s' & E & Hr & Hc).
  assert (Hr' : rows s' = <[(t_index tables, key) := index_row key e (kind_of_entry e)]>
    (<[(for_kind tables (kind_of_entry e), key) := data_row key e body v]> (rows s))).
  { rewrite Hr. cbn [fold_left tx_apply tx_key items]. destruct (data_row_lookup key e body v) as (_ & _ & ->).
    by destruct (index_row_lookup key e (kind_of_entry e)) as [_ ->]. }
  exists s'. split; [done|]. split; [by eapply (same_rows_put from_slice tables distinct)|]. rewrite Hr'. by apply versions_ok_put.
Qed.

Lemma delete_tx s w vm key e v :
  rows_of s w -> versions_ok (rows s) vm -> vm !! v = Some (key, e) ->
  let items := delete_items key (kind_of_entry e) v in
  (exists s' n, dyn_handle _ (TransactWriteItems items) s = (TxOk, s') /\ store w !! key = Some (e, n) /\
     rows_of s' (remove key w) /\ versions_ok (rows s') vm) \/
  dyn_handle _ (TransactWriteItems items) s = (TxCancelled, s).
Proof.
  intros Hs Hv Hm items.
  assert (Hnd : NoDup (map tx_key items)).
  { cbn. apply NoDup_cons; split; [|apply NoDup_singleton]. rewrite list_elem_of_singleton. pose proof (index_ne (kind_of_entry e)). congruence. }
  destruct (forallb (tx_holds (rows s)) items) eqn:Eh; [left|right; by apply dyn_tx_cancel].
  destruct (dyn_tx_ok s items Hnd Eh) as (s' & E & Hr & Hc). unfold items, delete_items, tx_holds in Eh.
  cbn [forallb tx_key cond_holds] in Eh. apply andb_prop in Eh as [Ed _]. destruct (rows s !! (for_kind tables (kind_of_entry e), key)) as [row|] eqn:Erow; [|done].
  apply bool_decide_eq_true in Ed. destruct (data_row_means s w vm key _ row Hs Hv Erow) as (e1 & n & v1 & Est & _ & _ & Ev & Hm1).
  rewrite Ev in Ed. injection Ed as ->. rewrite Hm in Hm1. injection Hm1 as <-.
  exists s', n. split; [done|]. split; [done|]. pose proof (proj2 Hs key) as Hk. rewrite Est in Hk. split.
  - by eapply (same_rows_remove from_slice tables distinct s w s' key e).
  - eapply versions_ok_sub, Hv. rewrite Hr. cbn. etrans; apply delete_subseteq.
Qed.

(** ** One SDK call of a call that has not taken effect *)

Definition knows_state (g : knowledge) (s : St) (w : world) : Prop :=
  now_is g = dyn_clock s /\ (forall k e n, store w !! k = Some (e, n) -> seen g k e) /\
  versions_ok (rows s) (meant g) /\ rows_of s w.

Lemma start_step i key (f : closure) g n a s w p' s' :
  specs !! i = Some (key, f) -> knows_state g s w ->
  dyn_step (on_dynamo (cas_from key (pure_mod f) (S n) a)) s = Some (p', s') -> dyn_progress key f g w p' s'.
Proof.
  intros Hi (Hnow & Hseen & Hv & Hs). destruct (dyn_start_eq key f n a) as (KK & -> & HK).
  unfold dyn_load, read_index_kind. cbn [trigger pbind dyn_step]. rewrite dyn_get.
  pose proof (proj2 Hs key) as Hk. destruct (store w !! key) as [[e ver]|] eqn:Ew.
  - destruct Hk as ((irow & -> & Hik) & _). rewrite Hik. cbn [as_s ok_or rbind]. rewrite parse_kind_as_str. cbn [rmap rbind pbind].
    intros [= <- <-]. apply progress_phase; [done..|]. by apply (dp_data key f g n a).
  - rewrite (proj1 Hk). cbn [pbind]. intros [= <- <-]. apply progress_idle; [done..|]. rewrite HK. by eapply after_load_idle.
Qed.

Lemma data_step i key (f : closure) g n a kd KK s w p' s' :
  specs !! i = Some (key, f) -> knows_state g s w -> (forall l, KK l = on_dynamo (after_load key f n a l)) ->
  dyn_step (pbind (get_one from_slice tables kd key) KK) s = Some (p', s') -> dyn_progress key f g w p' s'.
Proof.
  intros Hi (Hnow & Hseen & Hv & Hs) HK. unfold get_one. cbn [trigger pbind dyn_step]. rewrite dyn_get.
  destruct (rows s !! (for_kind tables kd, key)) as [row|] eqn:Erow.
  - destruct (data_row_means s w _ key kd row Hs Hv Erow) as (e & ver & v & Ew & <- & Hdec & Hver & Hm).
    rewrite Hdec. unfold read_version_attr. rewrite Hver. cbn [ok_or as_s rbind]. intros [= <- <-].
    apply progress_phase; [done..|]. apply (dp_judge key f g n a e v); [done|]. split; [done|]. by eapply Hseen.
  - cbn [pbind]. intros [= <- <-]. apply progress_idle; [done..|]. rewrite HK. by eapply after_load_idle.
Qed.

Lemma judge_step i key (f : closure) g n a e v KK s w p' s' :
  specs !! i = Some (key, f) -> knows_state g s w -> (forall l, KK l = on_dynamo (after_load key f n a l)) ->
  read_as g key e v ->
  dyn_step (pbind (judge key e v) KK) s = Some (p', s') -> dyn_progress key f g w p' s'.
Proof.
  intros Hi (Hnow & Hseen & Hv & Hs) HK Hr. unfold judge. cbn [trigger pbind dyn_step]. rewrite dyn_now.
  destruct (is_expired (dyn_clock s) e) eqn:Ex; intros [= <- <-].
  - unfold dyn_delete. rewrite parse_encode_token. cbn [trigger pbind]. apply progress_phase; [done..|].
    apply (dp_sweep key f g n a e v (dyn_clock s)); [done..|lia|]. intros res. by rewrite <- HK.
  - cbn [pbind]. apply progress_idle; [done..|]. rewrite HK. eapply after_load_idle; [done|]. by exists v.
Qed.

Lemma sweep_step i key (f : closure) g n a e v now K s w p' s' :
  specs !! i = Some (key, f) -> knows_state g s w -> read_as g key e v -> is_expired now e = true -> now <= now_is g ->
  (forall res, K res = on_dynamo (after_load key f n a (Ok None))) ->
  dyn_step (Vis (TransactWriteItems (delete_items key (kind_of_entry e) v)) K) s = Some (p', s') -> dyn_progress key f g w p' s'.
Proof.
  intros Hi (Hnow & Hseen & Hv & Hs) [Hm _] Hx Hle HK. cbn [dyn_step].
  assert (Hidle : idle key f g (on_dynamo (after_load key f n a (Ok None)))) by by eapply after_load_idle.
  destruct (delete_tx s w _ key e v Hs Hv Hm) as [(s1 & ver & -> & Ew & Hs1 & Hv1)|E].
  - intros [= <- <-]. split; [done|]. left. exists (remove key w). rewrite HK. split; [|done]. right.
    unfold gc. rewrite Ew. assert (is_expired (clock_ms w) e = true) as ->; [|done].
    unfold is_expired in *. destruct (expires_at_ms e); [|done]. rewrite <- (proj1 Hs). lia.
  - rewrite E. intros [= <- <-]. rewrite HK. by apply progress_idle.
Qed.

Lemma refused_idle key (f : closure) g n a r : dyn_phase key f g (dyn_after_write key f n a r (Err Contention)).
Proof. constructor. Qed.

Lemma index_step i key (f : closure) g n a e r body v K K1 s w p' s' :
  specs !! i = Some (key, f) -> knows_state g s w ->
  f None = Ok (Write e r) -> meant g !! v = Some (key, e) -> to_vec e = Ok body ->
  K (ItemOk None) = Vis (TransactWriteItems (create_items key e body v)) K1 ->
  (forall tx, K1 tx = dyn_after_write key f n a r (tx_result (bs "save") tx)) ->
  (forall row kd, row !! ATTR_KIND = Some (AvS (ValueKind_as_str kd)) ->
     K (ItemOk (Some row)) = dyn_after_write key f n a r (Err Contention)) ->
  dyn_step (Vis (GetItem (t_index tables) key) K) s = Some (p', s') -> dyn_progress key f g w p' s'.
Proof.
  intros Hi (Hnow & Hseen & Hv & Hs) Hf Hm Hb HK HK1 Hrow. cbn [dyn_step]. rewrite dyn_get.
  pose proof (proj2 Hs key) as Hk. destruct (store w !! key) as [[e0 ver]|] eqn:Ew; intros [= <- <-].
  - destruct Hk as ((irow & -> & Hik) & _). apply progress_phase; [done..|]. rewrite (Hrow _ _ Hik). apply refused_idle.
  - rewrite (proj1 Hk), HK. apply progress_phase; [done..|]. by apply (dp_create key f g n a e r body v).
Qed.

Lemma tx_refused key (f : closure) g n a r what s w K :
  knows_state g s w -> (forall tx, K tx = dyn_after_write key f n a r (tx_result what tx)) ->
  dyn_progress key f g w (K TxCancelled) s.
Proof. intros (_ & _ & Hv & Hs) ->. apply progress_phase; [done..|]. apply refused_idle. Qed.

Lemma create_step i key (f : closure) g n a e r body v K s w p' s' :
  specs !! i = Some (key, f) -> knows_state g s w ->
  f None = Ok (Write e r) -> meant g !! v = Some (key, e) -> to_vec e = Ok body ->
  (forall tx, K tx = dyn_after_write key f n a r (tx_result (bs "save") tx)) ->
  dyn_step (Vis (TransactWriteItems (create_items key e body v)) K) s = Some (p', s') -> dyn_progress key f g w p' s'.
Proof.
  intros Hi Hg Hf Hm Hb HK. pose proof Hg as (Hnow & Hseen & Hv & Hs). cbn [dyn_step].
  destruct (specs_write i key f Hi None e r Hf) as (b & Hb' & Hd & _). rewrite Hb in Hb'. injection Hb' as <-.
  destruct (forallb (tx_holds (rows s)) (create_items key e body v)) eqn:Eh.
  - assert (Hnone : store w !! key = None /\ absent tables (rows s) key).
    { unfold create_items, tx_holds in Eh. cbn [forallb tx_key cond_holds] in Eh. rewrite andb_true_r in Eh.
      destruct (index_row_lookup key e (kind_of_entry e)) as [_ Hpk]. rewrite Hpk in Eh.
      pose proof (proj2 Hs key) as Hk. destruct (store w !! key) as [[e0 n0]|]; [|done].
      destruct Hk as ((irow & Hi0 & _) & _). rewrite Hi0 in Eh. apply bool_decide_eq_true in Eh. by destruct (index_keyed _ _ Hv key irow Hi0). }
    destruct Hnone as [Hst [_ Hab]]. destruct (put_tx s w _ key e body v _ _ Hs Hv Hb Hd Hm (fun kd _ => Hab kd) Eh) as (s1 & E & Hs1 & Hv1).
    unfold create_items. rewrite E. intros [= <- <-]. split; [done|]. right. exists (Ok r), (put key e w).
    unfold commit_at. rewrite Hst. cbn [option_map]. rewrite Hf, HK. done.
  - rewrite dyn_tx_cancel; [|by apply tx_keys_distinct|done]. intros [= <- <-]. by eapply tx_refused.
Qed.

Lemma replace_step i key (f : closure) g n a e0 old e r body v K s w p' s' :
  specs !! i = Some (key, f) -> knows_state g s w ->
  read_as g key e0 old -> f (Some e0) = Ok (Write e r) -> kind_of_entry e0 = kind_of_entry e ->
  meant g !! v = Some (key, e) -> to_vec e = Ok body ->
  (forall tx, K tx = dyn_after_write key f n a r (tx_result (bs "save") tx)) ->
  dyn_step (Vis (TransactWriteItems (replace_items key e body v old)) K) s = Some (p', s') -> dyn_progress key f g w p' s'.
Proof.
  intros Hi Hg [Hold _] Hf Hkind Hm Hb HK. pose proof Hg as (Hnow & Hseen & Hv & Hs). cbn [dyn_step].
  destruct (specs_write i key f Hi (Some e0) e r Hf) as (b & Hb' & Hd & _). rewrite Hb in Hb'. injection Hb' as <-.
  destruct (forallb (tx_holds (rows s)) (replace_items key e body v old)) eqn:Eh.
  - assert (Hst : exists n0, store w !! key = Some (e0, n0) /\ stored_as from_slice tables (rows s) key e0).
    { unfold replace_items, tx_holds in Eh. cbn [forallb tx_key cond_holds] in Eh. apply andb_prop in Eh as [Ed _].
      destruct (data_row_lookup key e body v) as (_ & _ & Hpk). rewrite Hpk in Ed.
      destruct (rows s !! (for_kind tables (kind_of_entry e), key)) as [row|] eqn:Erow; [|done]. apply bool_decide_eq_true in Ed.
      destruct (data_row_means s w _ key _ row Hs Hv Erow) as (e1 & n0 & v1 & Est & _ & _ & Ev & Hm1).
      rewrite Ev in Ed. injection Ed as ->. rewrite Hold in Hm1. injection Hm1 as <-. exists n0. split; [done|].
      pose proof (proj2 Hs key) as Hk. by rewrite Est in Hk. }
    destruct Hst as (n0 & Hst & (_ & _ & Hother)). rewrite Hkind in Hother.
    destruct (put_tx s w _ key e body v _ _ Hs Hv Hb Hd Hm Hother Eh) as (s1 & E & Hs1 & Hv1).
    unfold replace_items. rewrite E. intros [= <- <-]. split; [done|]. right. exists (Ok r), (put key e w).
    unfold commit_at. rewrite Hst. cbn [option_map fst]. rewrite Hf, HK. done.
  - rewrite dyn_tx_cancel; [|by apply tx_keys_distinct|done]. intros [= <- <-]. by eapply tx_refused.
Qed.

Lemma delete_step i key (f : closure) g n a e0 old r K s w p' s' :
  specs !! i = Some (key, f) -> knows_state g s w -> read_as g key e0 old -> f (Some e0) = Ok (Delete r) ->
  (forall tx, K tx = dyn_after_write key f n a r (tx_result (bs "delete") tx)) ->
  dyn_step (Vis (TransactWriteItems (delete_items key (kind_of_entry e0) old)) K) s = Some (p', s') -> dyn_progress key f g w p' s'.
Proof.
  intros Hi Hg [Hold _] Hf HK. pose proof Hg as (Hnow & Hseen & Hv & Hs). cbn [dyn_step].
  destruct (delete_tx s w _ key e0 old Hs Hv Hold) as [(s1 & ver & -> & Ew & Hs1 & Hv1)|E].
  - intros [= <- <-]. split; [done|]. right. exists (Ok r), (remove key w). unfold commit_at. rewrite Ew. cbn [option_map fst].
    rewrite Hf, HK. done.
  - rewrite E. intros [= <- <-]. by eapply tx_refused.
Qed.

(** The version just drawn is the save's own. *)
Definition learn (v key : Str) (e : StoredValue) (g : knowledge) : knowledge :=
  {| meant := <[v := (key, e)]> (meant g); seen := seen g; now_is := now_is g |}.

Lemma learn_more v key e g : meant g !! v = None -> knows_more g (learn v key e g).
Proof. intros Hn. split; [by apply insert_subseteq|]. split; [done|]. cbn. lia. Qed.

Lemma save_step i key (f : closure) g n a cond e r KW s p' s' :
  specs !! i = Some (key, f) -> computed g key f cond e r -> (forall res, KW res = dyn_after_write key f n a r res) ->
  dyn_step (pbind (dyn_save to_vec tables key e cond) KW) s = Some (p', s') -> exists nanos,
    drawn (pbind (dyn_save to_vec tables key e cond) KW) s = Some nanos /\ s' = s /\
    (meant g !! version_at nanos = None -> dyn_phase key f (learn (version_at nanos) key e g) p').
Proof.
  intros Hi Hc HK. assert (He : storable from_slice to_vec e).
  { destruct cond as [| |t]; cbn in Hc; [done|by eapply specs_write|]. destruct Hc as (e0 & v & _ & _ & Hf). by eapply specs_write. }
  destruct He as (body & Hb & Hd & Hl). unfold dyn_save. rewrite Hb. destruct (Z.ltb_spec MAX_ITEM_BYTES (len body)); [lia|].
  cbn [trigger pbind dyn_step drawn]. destruct (dyn_nanos s) as [nanos ->]. cbn [fst]. intros [= <- <-].
  exists nanos. split; [done|]. split; [done|]. intros Hfresh.
  pose proof (learn_more (version_at nanos) key e g Hfresh) as Hmore.
  assert (Hm : meant (learn (version_at nanos) key e g) !! version_at nanos = Some (key, e)) by apply lookup_insert_eq.
  destruct cond as [| |t]; cbn in Hc; [done| |].
  - cbn [trigger pbind read_index_kind]. eapply (dp_index key f _ n a e r body (version_at nanos)); [done..|reflexivity| |].
    + intros tx. by rewrite <- HK.
    + intros row kd Hrow. cbn [pbind]. rewrite Hrow. cbn [as_s ok_or rbind]. rewrite parse_kind_as_str. cbn [rmap rbind pbind]. by rewrite HK.
  - destruct Hc as (e0 & old & -> & Hr & Hf). rewrite parse_encode_token. case_bool_decide as Hkind.
    + cbn [pbind]. rewrite HK. apply refused_idle.
    + cbn [pbind rbind]. rewrite Hkind, bool_decide_false by tauto. cbn [trigger pbind].
      eapply (dp_replace key f _ n a e0 old e r body); [|done..|intros tx; by rewrite HK].
      destruct Hmore as (Hsub & Hseen & _). destruct Hr. split; [by eapply lookup_weaken|auto].
Qed.

(** Any other call. *)
Lemma dyn_phase_step i key (f : closure) g s w p p' s' :
  specs !! i = Some (key, f) -> knows_state g s w -> dyn_phase key f g p -> drawn p s = None ->
  dyn_step p s = Some (p', s') -> dyn_progress key f g w p' s'.
Proof.
  intros Hi Hg Hp Hdraw Hst. destruct Hp as [n a| | | |n a cond e r KW Hc HK| | | |].
  - destruct n as [|n]; [done|]. by eapply start_step.
  - by eapply data_step.
  - by eapply judge_step.
  - by eapply sweep_step.
  - destruct (save_step i key f g n a cond e r KW s p' s' Hi Hc HK Hst) as (nanos & E & _). by rewrite E in Hdraw.
  - by eapply index_step.
  - by eapply create_step.
  - by eapply replace_step.
  - by eapply delete_step.
Qed.

(** Only a save draws. *)
Lemma draw_step i key (f : closure) g s p p' s' nanos :
  specs !! i = Some (key, f) -> dyn_phase key f g p -> drawn p s = Some nanos -> dyn_step p s = Some (p', s') ->
  meant g !! version_at nanos = None -> s' = s /\ exists e, dyn_phase key f (learn (version_at nanos) key e g) p'.
Proof.
  intros Hi Hp Hdraw Hst Hfresh. destruct Hp as [n a| | | |n a cond e r KW Hc HK| | | |].
  - destruct n as [|n]; [done|]. by destruct (dyn_start_eq key f n a) as (KK & E & _); rewrite E in Hdraw.
  - done.
  - done.
  - done.
  - destruct (save_step i key f g n a cond e r KW s p' s' Hi Hc HK Hst) as (nanos' & E & -> & Hp).
    rewrite E in Hdraw. injection Hdraw as ->. split; [done|]. exists e. by apply Hp.
  - done.
  - done.
  - done.
  - done.
Qed.

Lemma dyn_phase_contended i key (f : closure) g res : specs !! i = Some (key, f) -> dyn_phase key f g (Ret res) -> res = Err Contention.
Proof.
  intros Hi Hp. remember (Ret res) as p eqn:E. destruct Hp as [n a| | | |n a cond e r KW Hc HK| | | |]; try done.
  - destruct n as [|n]; [by injection E|]. destruct (dyn_start_eq key f n a) as (KK & E' & _). by rewrite E' in E.
  - assert (He : storable from_slice to_vec e).
    { destruct cond as [| |t]; cbn in Hc; [done|by eapply specs_write|]. destruct Hc as (e0 & v & _ & _ & Hf). by eapply specs_write. }
    destruct He as (body & Hb & _ & Hl). unfold dyn_save in E. rewrite Hb in E.
    destruct (Z.ltb_spec MAX_ITEM_BYTES (len body)); [lia|done].
Qed.

Lemma idle_mono key (f : closure) g g' p : knows_more g g' -> idle key f g p -> idle key f g' p.
Proof.
  intros Hm [Hp|(res & (x & Hx & Ha) & ->)]; [left; by eapply dyn_phase_mono|right]. exists res. split; [|done].
  exists x. split; [|done]. destruct x; [|done]. by apply Hm.
Qed.

(** ** The invariant *)

Abbreviation trace := (atomic_trace specs (fun _ _ => False)).

(** An entry the key held in a world that commits so far lead to. *)
Definition held (w0 : world) (tr : list (nat * Result R)) (k : Str) (e : StoredValue) : Prop :=
  exists tr1 w1 n, tr1 `prefix_of` tr /\ trace w0 tr1 w1 /\ store w1 !! k = Some (e, n).

Definition known (w0 : world) (tr : list (nat * Result R)) (vm : meanings) (s : St) : knowledge :=
  {| meant := vm; seen := held w0 tr; now_is := dyn_clock s |}.

Lemma known_more w0 tr tr' vm vm' s s' :
  tr `prefix_of` tr' -> vm ⊆ vm' -> dyn_clock s <= dyn_clock s' -> knows_more (known w0 tr vm s) (known w0 tr' vm' s').
Proof.
  intros Ht Hv Hc. split; [done|]. split; [|done]. intros k e (tr1 & w1 & n & Hp & H1 & H2). exists tr1, w1, n.
  split; [by etrans|done].
Qed.

Definition thread_at (g : knowledge) (tr : list (nat * Result R)) (i : nat) (p : client) : Prop :=
  forall key f, specs !! i = Some (key, f) ->
    ((i ∉ map fst tr) /\ idle key f g p) \/ (exists res, p = Ret res /\ (i, res) ∈ tr).

Record dyn_inv (w0 : world) (tr : list (nat * Result R)) (w : world) (vm : meanings) (c : config) : Prop := {
  di_trace : trace w0 tr w;
  di_rows : rows_of (c.1.2) w;
  di_versions : versions_ok (rows c.1.2) vm;
  di_used : dom vm = c.2;
  di_nodup : NoDup (map fst tr);
  di_length : length c.1.1 = length specs;
  di_threads : forall i p, c.1.1 !! i = Some p -> thread_at (known w0 tr vm c.1.2) tr i p;
}.

Lemma dyn_inv_initial w0 s vm : rows_of s w0 -> versions_ok (rows s) vm -> dyn_inv w0 [] w0 vm (dyn_clients, s, dom vm).
Proof.
  intros Hs Hv. split; cbn; [constructor|done|done|done|constructor|apply length_fmap|].
  intros i p Hp key f Hi. left. split; [apply not_elem_of_nil|left]. unfold dyn_clients in Hp.
  rewrite list_lookup_fmap, Hi in Hp. injection Hp as <-. exact (dp_start key f _ MAX_CAS_RETRIES 0).
Qed.

Lemma known_state w0 tr w vm s :
  trace w0 tr w -> rows_of s w -> versions_ok (rows s) vm -> knows_state (known w0 tr vm s) s w.
Proof. intros Ht Hs Hv. split; [done|]. split; [|done]. intros k e n Hk. by exists tr, w, n. Qed.

(** The other threads, when the trace grows by thread [i] and more is known. *)
Lemma others_stay g g' tr tr' i j p :
  knows_more g g' -> (tr' = tr \/ exists res, tr' = tr ++ [(i, res)]) -> j <> i -> thread_at g tr j p -> thread_at g' tr' j p.
Proof.
  intros Hm Ht Hne Hp key f Hj. destruct (Hp key f Hj) as [[Hn Hidle]|(res & -> & Hin)]; [left|right].
  - split; [|by eapply idle_mono]. destruct Ht as [->|[res ->]]; [done|]. rewrite map_app. cbn.
    rewrite elem_of_app, list_elem_of_singleton. by intros [?|?].
  - exists res. split; [done|]. destruct Ht as [->|[res' ->]]; [done|]. apply elem_of_app. by left.
Qed.

Lemma dyn_inv_move w0 tr w vm ths s used i key (f : closure) p p' tr' w' vm' s' used' :
  dyn_inv w0 tr w vm (ths, s, used) -> ths !! i = Some p -> specs !! i = Some (key, f) ->
  trace w0 tr' w' -> rows_of s' w' -> versions_ok (rows s') vm' -> dom vm' = used' -> vm ⊆ vm' ->
  dyn_clock s <= dyn_clock s' -> (tr' = tr \/ exists res, tr' = tr ++ [(i, res)] /\ i ∉ map fst tr) ->
  thread_at (known w0 tr' vm' s') tr' i p' -> dyn_inv w0 tr' w' vm' (<[i := p']> ths, s', used').
Proof.
  intros [_ _ _ _ Hnd Hlen Hths] Hi Hspec Ht Hs Hv Hu Hvm Hc Htr Hp'. cbn [fst snd] in *. split; cbn [fst snd]; [done..| |by rewrite length_insert|].
  - destruct Htr as [->|(res & -> & Hni)]; [done|]. rewrite map_app. apply NoDup_app. split; [done|]. split; [|apply NoDup_singleton].
    intros j Hj. cbn. rewrite list_elem_of_singleton. by intros ->.
  - intros j q Hj. destruct (decide (i = j)) as [<-|Hne].
    + rewrite list_lookup_insert_eq in Hj by by eapply lookup_lt_Some. by injection Hj as <-.
    + rewrite list_lookup_insert_ne in Hj by done. apply (others_stay (known w0 tr vm s) _ tr tr' i); [|naive_solver|done|by apply Hths].
      apply known_more; [|done..]. destruct Htr as [->|(res & -> & _)]; [done|by apply prefix_app_r].
Qed.

Lemma commit_clock key (f : closure) w res w' : commit_at key f w = (res, w') -> clock_ms w' = clock_ms w.
Proof. unfold commit_at. destruct (f _) as [[]|]; by intros [= _ <-]. Qed.

Lemma dyn_inv_step w0 tr w vm c c' :
  dyn_inv w0 tr w vm c -> dyn_race_step c c' -> exists tr' w' vm', dyn_inv w0 tr' w' vm' c'.
Proof.
  intros Hinv Hst. destruct Hst as [ths s used i p p' s' Hi Hst Hd|ths s used i p p' s' nanos Hi Hst Hd Hfresh|ths s used s' Hr Hc];
    pose proof Hinv as [Ht Hs Hv Hu Hnd Hlen Hths]; cbn [fst snd] in *.
  - destruct (lookup_lt_is_Some_2 specs i) as [[key f] Hspec]; [rewrite <- Hlen; by eapply lookup_lt_Some|].
    destruct (Hths i p Hi key f Hspec) as [[Hni [Hp|(res & _ & ->)]]|(res & -> & _)]; [|done..].
    destruct (dyn_phase_step i key f _ s w p p' s' Hspec (known_state w0 tr w vm s Ht Hs Hv) Hp Hd Hst)
      as [Hv' [(w' & Hw & Hs' & Hidle)|(res & w' & Hcom & Hs' & ->)]].
    + assert (Htr' : trace w0 tr w') by (destruct Hw as [->| ->]; [done|by constructor]).
      assert (Hclk : dyn_clock s' = dyn_clock s).
      { rewrite (proj1 Hs'), (proj1 Hs). destruct Hw as [->| ->]; [done|apply clock_gc]. }
      exists tr, w', vm. eapply (dyn_inv_move _ _ _ _ _ s _ i key f p p'); try done; [lia|by left|].
      intros key' f' Hi'. rewrite Hspec in Hi'. injection Hi' as <- <-. left. split; [done|].
      eapply idle_mono, Hidle. apply known_more; [done..|lia].
    + assert (Hclk : dyn_clock s' = dyn_clock s) by (rewrite (proj1 Hs'), (proj1 Hs); by eapply commit_clock).
      exists (tr ++ [(i, res)]), w', vm. eapply (dyn_inv_move _ _ _ _ _ s _ i key f p); try done.
      * by eapply at_commit.
      * lia.
      * right. by exists res.
      * intros key' f' _. right. exists res. split; [done|]. apply elem_of_app. right. by apply list_elem_of_singleton.
  - destruct (lookup_lt_is_Some_2 specs i) as [[key f] Hspec]; [rewrite <- Hlen; by eapply lookup_lt_Some|].
    destruct (Hths i p Hi key f Hspec) as [[Hni [Hp|(res & _ & ->)]]|(res & -> & _)]; [|done..].
    assert (Hnew : vm !! version_at nanos = None) by (apply not_elem_of_dom; by rewrite Hu).
    destruct (draw_step i key f _ s p p' s' nanos Hspec Hp Hd Hst Hnew) as [-> [e Hp']].
    exists tr, w, (<[version_at nanos := (key, e)]> vm). eapply (dyn_inv_move _ _ _ _ _ s _ i key f p p'); try done.
    + destruct Hv as [Hv1 Hv2]. split; [|done]. intros kd k row v e' H1 H2 H3. specialize (Hv1 kd k row v e' H1 H2 H3).
      rewrite lookup_insert_ne; [done|]. intros E. by rewrite E, Hv1 in Hnew.
    + by rewrite dom_insert_L, Hu.
    + by apply insert_subseteq.
    + by left.
    + intros key' f' Hi'. rewrite Hspec in Hi'. injection Hi' as <- <-. left. split; [done|by left].
  - exists tr, (tick (dyn_clock s') (clock_nanos w) w), vm. split; cbn [fst snd]; [|split; [done|]|by rewrite Hr|done..|].
    + apply at_tick; [done|]. by rewrite <- (proj1 Hs).
    + intros k. rewrite Hr. apply Hs.
    + intros i p Hi key f Hspec. destruct (Hths i p Hi key f Hspec) as [[Hn Hidle]|?]; [left|by right].
      split; [done|]. eapply idle_mono, Hidle. by apply known_more.
Qed.

Lemma dyn_inv_steps w0 s0 vm0 c :
  rows_of s0 w0 -> versions_ok (rows s0) vm0 -> dyn_race_steps (dyn_clients, s0, dom vm0) c ->
  exists tr w vm, dyn_inv w0 tr w vm c.
Proof.
  intros Hs Hv. remember (dyn_clients, s0, dom vm0) as c0 eqn:E0. induction 1 as [c|c c' c'' _ IH Hst].
  - subst. exists [], w0, vm0. by apply dyn_inv_initial.
  - destruct (IH E0) as (tr & w & vm & Hinv). by eapply dyn_inv_step.
Qed.

End race.

(** ** What a load can miss *)

(** A load reads the index and then the table it names.  A save of another kind
    that lands in between - one transaction, the key never absent - makes it answer
    that there is no such key. *)
Theorem dyn_load_misses {St} `{DynService St} from_slice to_vec tables (s : St) w key e n new :
  tables_distinct tables -> same_rows from_slice tables s w -> store w !! key = Some (e, n) ->
  storable from_slice to_vec new -> ValueKind_of (value new) <> ValueKind_of (value e) ->
  exists rest s', dyn_step (dyn_load from_slice tables key) s = Some (rest, s) /\
    run_dyn (dyn_save to_vec tables key new WAny) s = (Ok tt, s') /\ same_rows from_slice tables s' (put key new w) /\
    run_dyn rest s' = (Ok None, s').
Proof.
  intros Hdist Hs Ew Hnew Hkind. destruct (dyn_save_any_spec from_slice to_vec tables Hdist s w key new Hs Hnew) as (s' & E & Hs').
  exists (get_one from_slice tables (ValueKind_of (value e)) key), s'. split; [|split; [done|split; [done|]]].
  - pose proof (proj2 Hs key) as Hk. rewrite Ew in Hk. destruct Hk as ((irow & Hi & Hik) & _).
    unfold dyn_load, read_index_kind. cbn [trigger pbind dyn_step]. rewrite dyn_get, Hi, Hik. cbn [as_s ok_or rbind].
    by rewrite parse_kind_as_str.
  - pose proof (proj2 Hs' key) as Hk. cbn [put store] in Hk. rewrite lookup_insert_eq in Hk. destruct Hk as (_ & _ & Hother).
    unfold get_one. rewrite run_dyn_bind. cbn [trigger run_dyn]. rewrite dyn_get, Hother by done. done.
Qed.

(** ** A concrete race *)

(** [Some i]: client [i] makes its next call; [None]: a millisecond passes. *)
Fixpoint dyn_race_run {R} (sch : list (option nat)) (c : list (prog dynE (Result R)) * dyn_mem * gset Str)
    : list (prog dynE (Result R)) * dyn_mem * gset Str :=
  match sch with
  | [] => c
  | None :: sch =>
      let '(ths, s, used) := c in
      dyn_race_run sch (ths, {| dm_rows := dm_rows s; dm_clock := dm_clock s + 1 |}, used)
  | Some i :: sch =>
      let '(ths, s, used) := c in
      match ths !! i with
      | None => dyn_race_run sch c
      | Some p =>
          match dyn_step p s, drawn p s with
          | Some (p', s'), None => dyn_race_run sch (<[i := p']> ths, s', used)
          | Some (p', s'), Some nanos =>
              if bool_decide (version_at nanos ∈ used) then dyn_race_run sch c
              else dyn_race_run sch (<[i := p']> ths, s', {[version_at nanos]} ∪ used)
          | None, _ => dyn_race_run sch c
          end
      end
  end.

Lemma dyn_race_steps_cons {St} `{DynService St} {R} (c c' c'' : list (prog dynE (Result R)) * St * gset Str) :
  dyn_race_step c c' -> dyn_race_steps c' c'' -> dyn_race_steps c c''.
Proof.
  intros Hs. induction 1 as [c'|c' c1 c2 _ IH H2].
  - by eapply dr_snoc; [constructor|].
  - eapply dr_snoc; [by apply IH|done].
Qed.

Lemma dyn_race_run_steps {R} (sch : list (option nat)) (c : list (prog dynE (Result R)) * dyn_mem * gset Str) : dyn_race_steps c (dyn_race_run sch c).
Proof.
  revert c. induction sch as [|[i|] sch IH]; intros [[ths s] used]; cbn [dyn_race_run]; [constructor| |].
  - destruct (ths !! i) as [p|] eqn:Ei; [|apply IH]. destruct (dyn_step p s) as [[p' s']|] eqn:Es; [|apply IH].
    destruct (drawn p s) as [nanos|] eqn:Ed.
    + case_bool_decide; [apply IH|]. eapply dyn_race_steps_cons; [by eapply dr_draw|apply IH].
    + eapply dyn_race_steps_cons; [by eapply dr_call|apply IH].
  - eapply dyn_race_steps_cons; [|apply IH]. apply dr_time; [done|cbn; lia].
Qed.

(** Two writes and a deletion of one key. *)
Definition dyn_specs : list (Str * (option StoredValue -> Result (CasAction Z))) :=
  [(bs "k", fun _ => Ok (Write string_entry 7));
   (bs "k", fun e => match e with Some _ => Ok (Delete 1) | None => Ok (NoOp 0) end);
   (bs "k", fun _ => Ok (Write string_entry 8))].
Definition dyn_race_result :=
  dyn_race_run [Some 0; Some 2; Some 0; None; Some 2; Some 0; Some 2; Some 0; Some 2; Some 2; Some 2; Some 2; None; Some 2;
                Some 1; Some 1; Some 1; Some 2; Some 1; Some 1; Some 1; Some 1; Some 1]%nat
    (dyn_clients pair_from_slice pair_to_vec TableNames_default (Ret (Ok tt)) dyn_specs, empty_tables, ∅).


Lemma dyn_load_misses_witness :
  let s := snd (run_dyn (dyn_save pair_to_vec TableNames_default (bs "k") list_entry WAny) empty_tables) in
  exists rest s', dyn_step (dyn_load pair_from_slice TableNames_default (bs "k")) s = Some (rest, s) /\
    run_dyn (dyn_save pair_to_vec TableNames_default (bs "k") string_entry WAny) s = (Ok tt, s') /\
    run_dyn rest s' = (Ok None, s').
Proof.
  destruct (dyn_save_any_spec pair_from_slice pair_to_vec TableNames_default default_distinct empty_tables empty_world (bs "k") list_entry
    empty_same_rows list_storable) as (s & E & Hs).
  cbv zeta. rewrite E. cbn [snd].
  destruct (dyn_load_misses pair_from_slice pair_to_vec TableNames_default s (put (bs "k") list_entry empty_world) (bs "k")
    list_entry (next_version empty_world) string_entry) as (rest & s' & H1 & H2 & _ & H3).
  - exact default_distinct.
  - exact Hs.
  - reflexivity.
  - exact string_storable.
  - done.
  - exists rest, s'. split; [exact H1|]. split; [exact H2|exact H3].
Defined.
