(* ===== verification/DynTtl.v ===== *)
(** * DynTtl

    DynamoDB removes a row by itself some time after the instant of its [ttl]
    attribute (infra/template.yaml enables it on every table), each row on its own.
    What that does to the index row and the data row of src/dynamodb.rs: no read is
    ever fooled, but a key whose data row goes first cannot be created again until
    its index row goes too. *)

From S2P Require Import Prelude.
From S2P Require Import Text.
From S2P Require Import BTree.
From S2P Require Import Stream.
From S2P Require Import Value.
From S2P Require Import Backend.
From S2P Require Import Contracts.
From S2P Require Import Collections.
From S2P Require Import Strings.
From S2P Require Import S3.
From S2P Require Import Dynamo.
From S2P Require Import Resp.
From S2P Require Import Commands.
From S2P Require Import Bits.
From S2P Require Import Dispatch.
From S2P Require Import Requests.

(** A row whose [ttl], in seconds, has passed. *)
Definition row_overdue (now : Z) (row : item) : Prop :=
  exists t n, row !! ATTR_TTL = Some (AvN t) /\ Text.parse_i64 t = Some n /\ n < Z.quot now 1000.

Section ttl.
Context {St : Type} `{DynService St}.
Variable from_slice : list byte -> Result StoredValue.
Variable to_vec : StoredValue -> Result (list byte).
Variable tables : TableNames.
Abbreviation kind_of_entry e := (ValueKind_of (value e)).
Abbreviation data_table e := (for_kind tables (kind_of_entry e)).

(** Time passes, and the service removes rows that are overdue. *)
Definition swept (s s' : St) : Prop :=
  forall t k, rows s' !! (t, k) = rows s !! (t, k) \/
    (rows s' !! (t, k) = None /\ exists row, rows s !! (t, k) = Some row /\ row_overdue (dyn_clock s') row).

(** The rows of a key as [save] writes them. *)
Definition saved_rows (s : St) (key : Str) (e : StoredValue) (version : Str) : Prop :=
  rows s !! (t_index tables, key) = Some (index_row key e (kind_of_entry e)) /\
  exists body, rows s !! (data_table e, key) = Some (data_row key e body version) /\ from_slice body = Ok e.

(** What [save] writes under a key that has no rows. *)
Lemma dyn_save_writes (distinct : tables_distinct tables) s key e body :
  absent tables (rows s) key -> to_vec e = Ok body -> from_slice body = Ok e -> len body <= MAX_ITEM_BYTES ->
  exists version s', run_dyn (dyn_save to_vec tables key e WAny) s = (Ok tt, s') /\ saved_rows s' key e version.
Proof.
  intros Ha Hb Hdec Hl. unfold dyn_save. rewrite Hb. destruct (Z.ltb_spec MAX_ITEM_BYTES (len body)); [lia|].
  rewrite run_dyn_bind. cbn [trigger run_dyn]. destruct (dyn_nanos s) as [n ->]. cbn [run_dyn]. set (v := hex16 _).
  rewrite run_dyn_bind, (read_index_absent tables s key Ha). cbn [app]. rewrite run_dyn_bind. cbn [trigger run_dyn].
  destruct (data_row_lookup key e body v) as (_ & _ & Hpk). destruct (index_row_lookup key e (kind_of_entry e)) as [_ Hpi].
  match goal with |- context [dyn_handle _ (TransactWriteItems ?l) s] =>
    destruct (dyn_tx_ok s l) as (s' & -> & Hr & _) end; [by apply tx_keys_distinct|tx_eval; by rewrite Hpi, (proj1 Ha)|].
  exists v, s'. split; [done|]. cbn [fold_left tx_apply tx_key] in Hr. rewrite Hpk, Hpi in Hr.
  pose proof (for_kind_not_index tables (kind_of_entry e) distinct). split; [by rewrite Hr, lookup_insert_eq|].
  exists body. by rewrite Hr, lookup_insert_ne, lookup_insert_eq by congruence.
Qed.

(** The deadline of an entry is a machine integer. *)
Definition deadline_ok (e : StoredValue) : Prop := forall exp, expires_at_ms e = Some exp -> in_i64 exp = true.

Lemma index_row_ttl key e kind : index_row key e kind !! ATTR_TTL = (fun exp => AvN (print_Z (Z.quot exp 1000))) <$> expires_at_ms e.
Proof. unfold index_row, with_ttl. destruct (expires_at_ms e); [by rewrite lookup_insert_eq|reflexivity]. Qed.
Lemma data_row_ttl key e body v : data_row key e body v !! ATTR_TTL = (fun exp => AvN (print_Z (Z.quot exp 1000))) <$> expires_at_ms e.
Proof. unfold data_row, with_ttl. destruct (expires_at_ms e); [by rewrite lookup_insert_eq|reflexivity]. Qed.

(** Only the rows of an expired entry are overdue. *)
Lemma overdue_expired now e row :
  deadline_ok e -> row !! ATTR_TTL = (fun exp => AvN (print_Z (Z.quot exp 1000))) <$> expires_at_ms e ->
  row_overdue now row -> is_expired now e = true.
Proof.
  intros Hd Hr (t & n & Ht & Hn & Hlt). rewrite Hr in Ht. unfold is_expired. destruct (expires_at_ms e) as [exp|] eqn:Ee; [|done].
  cbn in Ht. injection Ht as <-. specialize (Hd exp Ee). unfold in_i64, in_i in Hd. apply andb_prop in Hd as [H1%Z.leb_le H2%Z.ltb_lt].
  rewrite parse_print_i64 in Hn.
  - injection Hn as <-. apply Z.leb_le. destruct (Z.le_gt_cases exp now) as [?|Hgt]; [done|].
    pose proof (Z.quot_le_mono now exp 1000). lia.
  - unfold in_i64, in_i. apply andb_true_intro. split; [apply Z.leb_le|apply Z.ltb_lt].
    all: pose proof (Z.quot_rem' exp 1000); pose proof (Z.rem_bound_abs exp 1000); lia.
Qed.

(** Whatever the service has removed, a read answers what it should: the entry
    and its token until its deadline, and nothing after it. *)
Theorem dyn_load_swept s s' key e version :
  saved_rows s key e version -> deadline_ok e -> swept s s' ->
  exists s'', run_dyn (dyn_load from_slice tables key) s' =
    (Ok (if is_expired (dyn_clock s') e then None else Some (e, encode_token (kind_of_entry e) version)), s'').
Proof.
  intros (Hi & body & Hd & Hdec) He Hs. unfold dyn_load, read_index_kind. rewrite run_dyn_bind. cbn [trigger pbind run_dyn].
  rewrite dyn_get. destruct (Hs (t_index tables) key) as [->|(-> & row & Hrow & Hover)].
  2: { rewrite Hi in Hrow. injection Hrow as <-. rewrite (overdue_expired _ _ _ He (index_row_ttl _ _ _) Hover). by exists s'. }
  rewrite Hi. destruct (index_row_lookup key e (kind_of_entry e)) as [Hk _]. rewrite Hk. cbn [run_dyn as_s ok_or rbind].
  rewrite parse_kind_as_str. cbn [rmap]. unfold get_one. cbn [trigger pbind run_dyn]. rewrite dyn_get.
  destruct (Hs (data_table e) key) as [->|(-> & row & Hrow & Hover)].
  2: { rewrite Hd in Hrow. injection Hrow as <-. rewrite (overdue_expired _ _ _ He (data_row_ttl _ _ _ _) Hover). by exists s'. }
  rewrite Hd. destruct (data_row_lookup key e body version) as (Hv & Hb & _).
  unfold decode_item, read_version_attr. rewrite Hv, Hb. cbn [ok_or rbind as_b as_s]. rewrite Hdec. cbn [rbind pbind run_dyn].
  rewrite dyn_now. destruct (is_expired (dyn_clock s') e); [|by exists s'].
  rewrite run_dyn_bind. destruct (run_dyn (dyn_delete tables key _) s') as [r s1]. by exists s1.
Qed.

(** ** A key whose data row went first *)

Variable flush : prog dynE (Result unit).
Let backend := dyn_backend from_slice to_vec tables flush.

(** The index row of a kind, and no data row of that kind. *)
Definition index_only (s : St) (key : Str) (kind : ValueKind) : Prop :=
  (exists row, rows s !! (t_index tables, key) = Some row /\ row !! ATTR_KIND = Some (AvS (ValueKind_as_str kind))) /\
  rows s !! (for_kind tables kind, key) = None.

(** Sweeping the data row of an expired entry leaves the key like that. *)
Lemma swept_index_only s s' key e version :
  saved_rows s key e version -> rows s' !! (data_table e, key) = None ->
  rows s' !! (t_index tables, key) = rows s !! (t_index tables, key) -> index_only s' key (kind_of_entry e).
Proof.
  intros (Hi & _) Hd Hi'. split; [|done]. rewrite Hi', Hi. eexists. split; [done|]. apply index_row_lookup.
Qed.

Lemma read_index_only s key kind : index_only s key kind -> run_dyn (read_index_kind tables key) s = (Ok (Some kind), s).
Proof.
  intros ((row & Hr & Hk) & _). unfold read_index_kind. cbn [trigger pbind run_dyn]. rewrite dyn_get, Hr, Hk.
  cbn [run_dyn as_s ok_or rbind]. by rewrite parse_kind_as_str.
Qed.

Lemma load_index_only s key kind : index_only s key kind -> run_dyn (dyn_load from_slice tables key) s = (Ok None, s).
Proof.
  intros Hi. unfold dyn_load. rewrite run_dyn_bind, (read_index_only s key kind Hi). unfold get_one. cbn [trigger pbind run_dyn].
  by rewrite dyn_get, (proj2 Hi).
Qed.

Lemma create_index_only s key kind e body :
  index_only s key kind -> to_vec e = Ok body -> len body <= MAX_ITEM_BYTES ->
  run_dyn (dyn_save to_vec tables key e CreateOnly) s = (Err Contention, s).
Proof.
  intros Hi Hb Hl. unfold dyn_save. rewrite Hb. destruct (Z.ltb_spec MAX_ITEM_BYTES (len body)); [lia|].
  rewrite run_dyn_bind. cbn [trigger run_dyn]. destruct (dyn_nanos s) as [n ->]. cbn [run_dyn].
  by rewrite run_dyn_bind, (read_index_only s key kind Hi).
Qed.

(** While the index row of such a key stays, the key does not exist for any
    read, and yet no command that would create it - with nobody else writing -
    succeeds: each of the five attempts finds nothing, tries to create, and is
    told of contention. *)
Theorem dyn_swept_blocks {R} s key kind (f : option StoredValue -> Result (CasAction R)) e body r :
  index_only s key kind -> f None = Ok (Write e r) -> to_vec e = Ok body -> len body <= MAX_ITEM_BYTES ->
  run_dyn (interp backend (load key)) s = (Ok None, s) /\
  run_dyn (interp backend (cas key (pure_mod f))) s = (Err Contention, s).
Proof.
  intros Hi Hf Hb Hl. unfold backend. split.
  { unfold load. rewrite run_dyn_interp_bind, run_dyn_interp_trigger. cbn [dyn_backend]. by rewrite (load_index_only s key kind Hi). }
  unfold cas. generalize MAX_CAS_RETRIES, 0. intros n. induction n as [|n IH]; intros a; cbn [cas_from]; [done|].
  rewrite run_dyn_interp_bind.
  assert (E : run_dyn (interp (dyn_backend from_slice to_vec tables flush) (cas_backoff a)) s = (tt, s)).
  { unfold cas_backoff. by destruct (a =? 0). }
  rewrite E, run_dyn_interp_bind, run_dyn_interp_trigger. cbn [dyn_backend]. rewrite (load_index_only s key kind Hi).
  cbn [pure_mod pbind]. rewrite Hf. cbn [pbind]. rewrite run_dyn_interp_bind, run_dyn_interp_trigger. cbn [dyn_backend].
  rewrite (create_index_only s key kind e body Hi Hb Hl). apply IH.
Qed.
End ttl.

(** ** A concrete key *)

(** A codec that carries one string, which expires, and the counters. *)
Definition session_entry : StoredValue := mk_entry (Some 5000) (VString (bs "s")).
Definition session_from_slice (b : list byte) : Result StoredValue :=
  if bool_decide (b = bs "session") then Ok session_entry else Ok (mk_entry None (VString b)).
Definition session_to_vec (e : StoredValue) : Result (list byte) :=
  match value e with VString s => Ok (if bool_decide (e = session_entry) then bs "session" else s) | _ => Ok [] end.

Definition session_saved : dyn_mem :=
  snd (run_dyn (dyn_save session_to_vec TableNames_default (bs "k") session_entry WAny) empty_tables).
(** Ten minutes later, the data row is gone. *)
Definition session_swept : dyn_mem :=
  {| dm_rows := base.delete (bs "rustyant-string", bs "k") (dm_rows session_saved); dm_clock := 601000 |}.

Lemma session_rows : exists v, saved_rows session_from_slice TableNames_default session_saved (bs "k") session_entry v.
Proof.
  destruct (dyn_save_writes session_from_slice session_to_vec TableNames_default default_distinct empty_tables (bs "k") session_entry (bs "session"))
    as (v & s' & E & Hv); [by split|by vm_compute..|]. exists v. unfold session_saved. by rewrite E.
Qed.

Lemma session_sweep : swept session_saved session_swept.
Proof.
  intros t k. unfold session_swept. cbn [dm_rows rows dyn_mem_service dyn_clock dm_clock].
  destruct (decide ((bs "rustyant-string", bs "k") = (t, k))) as [<-|Hne]; [|left; by rewrite lookup_delete_ne].
  right. split; [by rewrite lookup_delete_eq|]. destruct session_rows as (v & _ & body & Hd & _).
  exists (data_row (bs "k") session_entry body v). split; [exact Hd|]. exists (bs "5"), 5. rewrite data_row_ttl. split; [reflexivity|]. split; vm_compute; reflexivity.
Qed.

Lemma dyn_load_swept_witness :
  exists s'', run_dyn (dyn_load session_from_slice TableNames_default (bs "k")) session_swept = (Ok None, s'').
Proof.
  destruct session_rows as [v Hv].
  destruct (dyn_load_swept session_from_slice TableNames_default session_saved session_swept (bs "k") session_entry v Hv)
    as (s'' & E); [by intros exp [= <-]|exact session_sweep|]. by exists s''.
Defined.

(** GET answers nil, and INCR, which finds nothing either, fails. *)
Lemma dyn_swept_blocks_witness :
  let run (c : Str) := fst (run_dyn (interp (dyn_backend session_from_slice session_to_vec TableNames_default (Ret (Ok tt)))
    (dispatch sample_env [c; bs "k"])) session_swept) in
  run (bs "GET") = Some RNil /\
  run (bs "INCR") = Some (reply_of (Err Contention)) /\
  run_dyn (interp (dyn_backend session_from_slice session_to_vec TableNames_default (Ret (Ok tt)))
    (cas (bs "k") (pure_mod (incr_by_mod (bs "k") 1)))) session_swept = (Err Contention, session_swept).
Proof.
  assert (Hi : index_only TableNames_default session_swept (bs "k") KString).
  { destruct session_rows as [v Hv]. apply (swept_index_only session_from_slice TableNames_default session_saved session_swept (bs "k") session_entry v Hv).
    - exact (lookup_delete_eq (dm_rows session_saved) (bs "rustyant-string", bs "k")).
    - by apply (lookup_delete_ne (dm_rows session_saved) (bs "rustyant-string", bs "k")). }
  split; [vm_compute; reflexivity|]. split; [vm_compute; reflexivity|].
  apply (dyn_swept_blocks session_from_slice session_to_vec TableNames_default (Ret (Ok tt)) session_swept (bs "k") KString
    (incr_by_mod (bs "k") 1) (mk_entry None (VString (bs "1"))) (bs "1") 1 Hi); [reflexivity|reflexivity|by vm_compute].
Defined.
